(* ===== verification/_CoqProject ===== *)
-Q . S2P
Prelude.v
Errors.v
Text.v
Net.v
DropCounter.v
RateLimiter.v
SuffixTrie.v
Schedule.v
WireName.v
FastPath.v
Routes.v
CookieGuard.v
WireResponse.v
WireCache.v
Float64.v
Heuristics.v
Guards.v
Protocol.v
CacheRecord.v
Forwarding.v
ForwardCheck.v
Health.v
Balancer.v
BalancerSpec.v
PoolReload.v
CacheSchedule.v
CacheNegative.v
CacheBloom.v
CacheL1.v
Cache.v
CacheInvariant.v
CacheEvict.v
CacheSafety.v
CacheTrace.v
LocalRecords.v
LocalRecordsSpec.v
Resolver.v
ResolverSpec.v
Coalescing.v
Worker.v
WorkerInvariant.v
WorkerRenewal.v
BlockIndex.v
BlockList.v
BlockRules.v
BlockEnforce.v
BlockAllow.v
BlockVerdict.v
BlockBuild.v
BlockDecision.v
SubnetMatcher.v
Connections.v
BlockEngine.v
QueryHandler.v
BlockService.v
BlockReload.v
BlockCandidate.v
QueryLogged.v
QueryPaths.v
QueryFast.v
DnssecData.v
DnssecDenial.v
DnssecChain.v
DenialSpec.v
DenialSound.v
DenialExamples.v
DnssecValidator.v
DnssecTrust.v
DnssecVerdicts.v
LoginLimiter.v
SafeSearch.v
TrustFile.v
Server.v
ServerSpec.v
Listeners.v
