(* ===== verification/Prelude.v ===== *)
(** * ferrous-dns: the answering core, verified

    ferrous-dns is a DNS server in Rust.  A packet arrives on UDP, TCP, TLS or
    QUIC.  The fast path reads the plain ones and the handler of the server the
    rest; the rate limiter admits them; the query handler asks its guards and
    the block filter, then the cache.  What the cache does not hold is resolved: by the local records, the
    local server, or the upstream pools, whose answers are checked, validated
    with DNSSEC, shared between identical queries, relayed and cached.  A
    background worker renews what is cached before it expires.  This development
    models that core, translated function by function from the sources under
    [src/crates/], and proves what makes it correct.

    ** Files, by component

    - Shared: [Prelude] (bytes, machine integers, the monad of outcomes [Ret],
      [Decline], [Crash], slices and their laws, tactics and hints), [Text]
      ([str] operations of the standard library), [Errors], [Net] (addresses,
      record types, what resolvers, cache and handler exchange), [Float64] (binary64).
    - The wire: [WireName], [FastPath], [WireResponse], [WireCache]: names and
      records, the parser of the fast path ([dns/fast_path.rs]), the encoders of
      replies, the re-sectioning, caching, ageing and relaying of upstream
      messages ([dns/wire_response.rs]).
    - The limiters: [RateLimiter] ([use_cases/dns/rate_limiter]): token buckets,
      subnets, the whitelist; [LoginLimiter] ([use_cases/auth]).
    - Serving: [Server], [ServerSpec] ([dns/server.rs], [dns/ede.rs],
      [response_counter.rs]): what is sent back for a packet, whatever happened
      to its query, and its count; [Listeners] ([cli/src/server/dns/]): the UDP
      worker's batches, fallback tasks and shedding, and the framed streams of
      TCP, TLS and QUIC; [Connections]: the connections of one address, the
      client a PROXY header names ([dns/proxy_protocol.rs]), the client behind
      the proxies of a DoH request ([server/doh.rs]).
    - The cache ([dns/cache/]): its parts [CacheRecord], [CacheSchedule],
      [CacheNegative], [CacheBloom], [CacheL1]; [Cache] itself; its theory in
      [CacheInvariant], [CacheEvict], [CacheSafety], [CacheTrace];
      the maintenance worker and the world around it in [Worker],
      [WorkerInvariant], [WorkerRenewal].
    - The block filter ([dns/block_filter/]): [SuffixTrie], [BlockIndex],
      [BlockList]: the trie, the index with its verdicts, the
      lists, one build; [BlockRules], [BlockEnforce], [BlockAllow],
      [BlockVerdict], [BlockBuild]: what a build enforces; [BlockDecision],
      [BlockEngine], [BlockService], [BlockReload], [BlockCandidate]: the engine,
      its caches, its reloads and the trial of a candidate list;
      [SubnetMatcher], [Schedule]: clients' subnets, timed overrides of a group;
      [SafeSearch] ([dns/safe_search/]): the redirections of search engines.
    - The query handler ([use_cases/dns/handle_dns_query.rs]): [QueryHandler];
      [QueryLogged], [QueryPaths], [QueryFast] on its paths and its
      log; its guards in [CookieGuard], [Heuristics], [Guards],
      [DropCounter].
    - The upstreams ([dns/load_balancer/], [dns/forwarding/]): [Routes]
      (which pool answers a name), [Protocol] (server addresses),
      [Forwarding], [ForwardCheck] (queries, answers and their check), [Health],
      [Balancer], [BalancerSpec], [PoolReload].
    - The resolver ([dns/resolver/]): [LocalRecords], [LocalRecordsSpec],
      [Resolver], [ResolverSpec]; [Coalescing]: the queries
      that share one resolution, as a step relation.
    - DNSSEC ([dns/dnssec/]): [DnssecData] (keys, digests, signatures),
      [DnssecDenial] (NSEC and NSEC3), [DnssecChain] (authentic RRsets, the
      cache, anchors and the walk down from the root),
      [TrustFile] (the files of anchors), [DnssecValidator]; their theory in
      [DenialSpec], [DenialSound], [DnssecTrust], [DnssecVerdicts], examples in
      [DenialExamples], [DnssecVerdicts].

    ** Interfaces

    A component uses another, or a library, through a class, and its theorems
    hold for every instance.  Of components: [MembershipGate] (the cache's
    filter, which [bloom_gate] implements), [FilterPort] (the handler's filter,
    which [engine_port] of the block engine implements), [UpstreamPort] and
    [ResolverPort] (what is below a resolver's layers, and below the handler),
    [DnssecNet] (the pools, for the validator).  Of libraries, with what their
    documentation promises as laws: [Lru] and [LruMaps], [IterOrder] (the order a
    hash map is walked in), [DueHeap] (the heap of claimed renewals), [Matchers]
    (regular expressions and Aho-Corasick), [Networks] ([ipnetwork]), [Chrono],
    [Hmac], [Hickory] (messages and names of [hickory_proto]), [DnsNames],
    [QueryParser] (a client's message as the library decodes it),
    [DnssecPrimitives] and [Nsec3Hash] (names in canonical order, signature
    schemes, digests).  Examples use small concrete instances.

    ** Theorems

    - The cache and its worker: every entry is seen to (no entry forgotten, none
      dead after a tick), local records are a map of their own, an answer stored
      is the answer given back, a renewal never makes one end sooner.
    - The filter: a build enforces exactly the database and the lists in force,
      or fails; a check in service decides by the index in force, and a reload
      that returns has every change committed before it.
    - The handler: the fast path answers what the full path would, every query
      leaves one log entry, blocked names are never resolved, no answer that
      failed validation is returned under enforcement.
    - The upstreams: a name is asked where the configuration routes it, an
      accepted answer echoes the query, the result of a query is what was heard,
      reloads keep the flags readers look at, health has its hysteresis.
    - The resolver: local names stay local, every stack keeps the trait's
      contract, live records are what a restart would load, queries that share a
      resolution get their leader's answer and all end.
    - DNSSEC: an answer found Secure is signed by keys a chain of signatures ties
      to an anchor, one found Insecure rests on a signed denial of a DS, over any
      sequence of validations and whatever the upstreams say; denials accepted
      from records that are true of a zone are true of it, but for the cases
      [DenialExamples] shows.
    - Serving: every packet ends in one counted reply or in silence, and the
      reply carries the client's ID and question bits, says AD only where it may,
      and fits what a UDP client of one question takes; a blocked name is
      answered under the policy; a batch gives each datagram one fate and keeps
      the permits; a stream answers its messages in order, framed; an address
      has at most its connections, and names in a forwarded header only an
      address its trusted proxies saw.
    - The wire and the limiters: the parser accepts exactly the plain queries and
      never reads out of bounds, relaying never panics or loops, what one subnet
      is allowed is bounded under every interleaving.

    ** Conventions

    A machine integer is a [Z], its bounds in the invariants, its wrap-around
    and saturation written out ([wrap32], [sat_sub], ...).  Bytes are [Z]s below
    256, names on the wire are lists of them, a [str] is its code points and the
    cache's names are its bytes ([utf8]); positions in a message are [nat].  Time
    is an argument or a part of the state; the cache's invariant assumes it
    positive and below [clock_max], 2^62, and it never goes back.  A query
    through the handler and an operation of the engine read each clock once.

    An operation on shared state is one step unless its interleavings are the
    point: then it is a relation ([CasStep], [CountStep], [coalesce_step],
    [ReloadStep], [managed_step], [LimiterStep]).  A renewal is two steps, its start and what
    follows the upstream answer.  The DS and the DNSKEY records a validator asks
    for together come one after the other, and the size of a map stands for its
    counter at rest.  What servers answer is a function of the attempts so far,
    or of a state of their own; a race has the attempts that end in time.  The
    log is what was handed to its channel; a version of the pools stands for the
    address of the live set.

    Loops over a message run on fuel: its length plus one for loops that move
    forward, 257 times that ([name_fuel]) for those that follow compression
    pointers, since a name stops at 255 bytes.  Running out is a [Crash], so
    the theorems that say a function never crashes say that the fuel is enough.

    ** Not modelled

    Sockets, TLS and the transports, the database and its queries, the HTTP API,
    the rest of the CLI, the jobs and the web interface are I/O and third-party
    code around this core.  Of the core itself: the timing of health rounds and
    hostname refreshes, the timeouts of streams, the listing and the overview of
    the cache, sessions and passwords, the text of errors where nothing reads
    it, tracing, and the metrics but for the counts of replies by RCODE.  Hashers, [ln], [powf], [log2],
    HMAC, signatures and digests are parameters. *)

From stdpp Require Export base tactics numbers list option gmap strings.
From Stdlib Require Export ZArith Lia.

Open Scope Z_scope.

(** ** Outcomes

    A Rust function of this code base that returns [Option] or [Result] either
    returns a value, declines ([None], [Err]), or panics on an index out of
    bounds.  [OutOfFuel] is not an outcome of the code: it marks a loop whose
    fuel was too small, so a theorem that a function never crashes also says
    that its loops end. *)

Inductive crash := Panicked | OutOfFuel.

Inductive outcome (A : Type) :=
  | Ret (a : A)
  | Decline
  | Crash (c : crash).
Arguments Ret {A} _.
Arguments Decline {A}.
Arguments Crash {A} _.

#[export] Instance outcome_ret : MRet outcome := @Ret.
#[export] Instance outcome_bind : MBind outcome := λ A B f m,
  match m with Ret a => f a | Decline => Decline | Crash c => Crash c end.
#[export] Instance outcome_fmap : FMap outcome := λ A B f m,
  match m with Ret a => Ret (f a) | Decline => Decline | Crash c => Crash c end.

(** [Result]: the error is on the left. *)
#[export] Instance sum_ret {E} : MRet (sum E) := λ A, inr.
#[export] Instance sum_bind {E} : MBind (sum E) := λ A B f m,
  match m with inl e => inl e | inr a => f a end.

(** A loop that [?] may leave. *)
Fixpoint fold_try {E A B} (f : A → B → E + A) (a : A) (xs : list B) : E + A :=
  match xs with
  | [] => inr a
  | x :: xs => a ← f a x; fold_try f a xs
  end.

(** The code neither panics nor diverges. *)
Definition safe {A} (o : outcome A) : Prop :=
  match o with Crash _ => False | _ => True end.

(** Weakest precondition: [o] does not crash, and what it returns satisfies [P]. *)
Definition post {A} (o : outcome A) (P : A → Prop) : Prop :=
  match o with Ret a => P a | Decline => True | Crash _ => False end.

(** [?] on an option. *)
Definition try_some {A} (o : option A) : outcome A :=
  match o with Some a => Ret a | None => Decline end.

Definition returned {A} (o : outcome A) : option A :=
  match o with Ret a => Some a | _ => None end.

(** ** Slices

    [index] and [index_range] are [buf[i]] and [buf[a..b]], which panic;
    [get] and [get_range] are [buf.get(i)?] and [buf.get(a..b)?]. *)

Abbreviation bytes := (list Z).

Definition get {A} (l : list A) (i : nat) : outcome A := try_some (l !! i).

Definition index {A} (l : list A) (i : nat) : outcome A :=
  match l !! i with Some a => Ret a | None => Crash Panicked end.

Definition slice {A} (l : list A) (from to : nat) : option (list A) :=
  if decide (from ≤ to ∧ to ≤ length l)%nat
  then Some (take (to - from) (drop from l)) else None.

Definition get_range {A} (l : list A) (from to : nat) : outcome (list A) :=
  try_some (slice l from to).

Definition index_range {A} (l : list A) (from to : nat) : outcome (list A) :=
  match slice l from to with Some s => Ret s | None => Crash Panicked end.

(** [l[at..at + bs.len()].copy_from_slice(bs)]. *)
Definition splice {A} (at_ : nat) (bs l : list A) : list A :=
  take at_ l ++ bs ++ drop (at_ + length bs) l.

Definition copy_at {A} (l : list A) (at_ : nat) (bs : list A) : outcome (list A) :=
  if decide (at_ + length bs ≤ length l)%nat
  then Ret (splice at_ bs l) else Crash Panicked.

(** ** Machine integers

    A w-bit unsigned integer is a [Z] in [0, 2^w); wrap-around and saturation
    are written out. *)

Definition u8_max : Z := 255.
Definition u16_max : Z := 65535.
Definition u32_max : Z := 4294967295.
Definition u64_max : Z := 18446744073709551615.
Definition u128_max : Z := 340282366920938463463374607431768211455.

Definition is_u (m x : Z) : Prop := 0 ≤ x ≤ m.
Abbreviation is_u8 := (is_u u8_max).
Abbreviation is_u16 := (is_u u16_max).
Abbreviation is_u32 := (is_u u32_max).
Abbreviation is_u64 := (is_u u64_max).

Definition wrap64 (x : Z) : Z := x mod 18446744073709551616.
Definition wrap32 (x : Z) : Z := x mod 4294967296.
Definition wrap16 (x : Z) : Z := x mod 65536.
Definition wrap8 (x : Z) : Z := x mod 256.

(** [saturating_sub] of unsigned integers, [saturating_add] at a maximum. *)
Definition sat_sub (a b : Z) : Z := Z.max 0 (a - b).
Definition sat_add (m a b : Z) : Z := Z.min m (a + b).

(** [Ord::clamp], whose [assert!(min <= max)] the callers' configuration meets. *)
Definition clamp (x lo hi : Z) : Z :=
  if x <? lo then lo else if hi <? x then hi else x.

(** Big-endian encodings: [to_be_bytes] and [from_be_bytes]. *)
Definition u16_be (x : Z) : bytes := [x / 256 mod 256; x mod 256].
Definition u32_be (x : Z) : bytes :=
  [x / 16777216 mod 256; x / 65536 mod 256; x / 256 mod 256; x mod 256].
Definition be16 (hi lo : Z) : Z := hi * 256 + lo.
Definition be32 (a b c d : Z) : Z := ((a * 256 + b) * 256 + c) * 256 + d.

Definition bytes_ok (l : bytes) : Prop := Forall (is_u u8_max) l.

(** [u16::from_be_bytes([l[i], l[i + 1]])]. *)
Definition be16_at (l : bytes) (i : nat) : outcome Z :=
  hi ← index l i; lo ← index l (S i); Ret (be16 hi lo).

(** [u16::try_from(n).ok()?] of a [usize]. *)
Definition try_u16 (n : nat) : outcome Z :=
  if Z.of_nat n <=? u16_max then Ret (Z.of_nat n) else Decline.

(** ASCII case of bytes. *)
Definition lower_byte (b : Z) : Z := if (65 <=? b) && (b <=? 90) then b + 32 else b.
Definition eq_ignore_case (a b : bytes) : bool :=
  bool_decide (lower_byte <$> a = lower_byte <$> b).

(** ** Bits *)

Definition bit (x : Z) (mask : Z) : bool := negb (Z.land x mask =? 0).

(** ** Lemmas *)

Ltac unfold_ints :=
  unfold is_u, u8_max, u16_max, u32_max, u64_max, u128_max,
    sat_sub, sat_add, be16, be32 in *.

(** Division and remainder facts for [lia]. *)
Ltac zdiv := Z.div_mod_to_equations; lia.

Lemma safe_bind {A B} (m : outcome A) (f : A → outcome B) :
  safe m → (∀ a, m = Ret a → safe (f a)) → safe (m ≫= f).
Proof. destruct m; simpl; auto. Qed.

Lemma bind_Ret_inv {A B} (m : outcome A) (f : A → outcome B) b :
  m ≫= f = Ret b → ∃ a, m = Ret a ∧ f a = Ret b.
Proof. destruct m; simpl; intros; eauto; discriminate. Qed.

Lemma safe_try_some {A} (o : option A) : safe (try_some o).
Proof. by destruct o. Qed.

Lemma try_some_Ret {A} (o : option A) a : try_some o = Ret a ↔ o = Some a.
Proof. destruct o; simpl; split; congruence. Qed.

Lemma sum_bind_inr {E A B} (m : E + A) (f : A → E + B) b :
  (m ≫= f) = inr b ↔ ∃ a, m = inr a ∧ f a = inr b.
Proof. destruct m as [e|a]; cbn; naive_solver. Qed.

Lemma mapM_inr {E A B} (f : A → E + B) xs ys :
  mapM f xs = inr ys ↔ Forall2 (λ x y, f x = inr y) xs ys.
Proof.
  revert ys. induction xs as [|x xs IH]; intros ys; cbn [mapM].
  { split; [intros [= <-]; constructor|]. by inversion 1. }
  split.
  - rewrite sum_bind_inr. intros (y & Ey & Ef). rewrite sum_bind_inr in Ef.
    destruct Ef as (ys' & Eys & [= <-]). constructor; [done|]. by apply IH.
  - inversion 1 as [|? y ? ys' Ey Eys]; subst. rewrite Ey. cbn.
    apply IH in Eys. by rewrite Eys.
Qed.

Lemma fold_try_snoc {E A B} (f : A → B → E + A) a xs x :
  fold_try f a (xs ++ [x]) = (a ← fold_try f a xs; f a x).
Proof.
  revert a. induction xs as [|y xs IH]; intros a; cbn [fold_try app].
  { cbn. by destruct (f a x). }
  destruct (f a y) as [e|a']; cbn; [done|]. apply IH.
Qed.

(** What a loop that ends well preserves. *)
Lemma fold_try_ind {E A B} (P : A → Prop) (f : A → B → E + A) a xs b :
  (∀ a x a', x ∈ xs → P a → f a x = inr a' → P a') → P a → fold_try f a xs = inr b → P b.
Proof.
  revert a. induction xs as [|x xs IH]; intros a Hf Ha; cbn [fold_try]; [congruence|].
  rewrite sum_bind_inr. intros (a' & E1 & E2). eapply IH; [|eapply Hf|exact E2]; eauto.
  - intros. eapply Hf; eauto. by right.
  - by left.
Qed.

Lemma ex_Some {A} (x : A) (P : A → Prop) : (∃ n, Some x = Some n ∧ P n) ↔ P x.
Proof. split; [by intros (n & [= <-] & H)|eauto]. Qed.

Lemma ex_None {A} (P : A → Prop) : (∃ n, None = Some n ∧ P n) ↔ False.
Proof. split; [by intros (n & [=] & _)|done]. Qed.

Lemma get_Ret {A} (l : list A) i a : get l i = Ret a ↔ l !! i = Some a.
Proof. apply try_some_Ret. Qed.

Lemma safe_get {A} (l : list A) i : safe (get l i).
Proof. apply safe_try_some. Qed.

Lemma safe_get_range {A} (l : list A) a b : safe (get_range l a b).
Proof. apply safe_try_some. Qed.

Lemma index_Ret {A} (l : list A) i a : index l i = Ret a ↔ l !! i = Some a.
Proof. unfold index. destruct (l !! i); split; congruence. Qed.

Lemma safe_index {A} (l : list A) i : (i < length l)%nat → safe (index l i).
Proof. unfold index. intros [a ->]%lookup_lt_is_Some. done. Qed.

Lemma slice_Some {A} (l s : list A) from to :
  slice l from to = Some s ↔
  (from ≤ to ∧ to ≤ length l)%nat ∧ s = take (to - from) (drop from l).
Proof.
  unfold slice. case_decide; split; [by intros [= <-] | by intros [_ ->] | done | by intros [? _]].
Qed.

Lemma get_range_Ret {A} (l s : list A) from to :
  get_range l from to = Ret s ↔
  (from ≤ to ∧ to ≤ length l)%nat ∧ s = take (to - from) (drop from l).
Proof. unfold get_range. rewrite try_some_Ret. apply slice_Some. Qed.

Lemma index_range_Ret {A} (l s : list A) from to :
  index_range l from to = Ret s ↔
  (from ≤ to ∧ to ≤ length l)%nat ∧ s = take (to - from) (drop from l).
Proof.
  unfold index_range. rewrite <-slice_Some. destruct slice; split; congruence.
Qed.

Lemma safe_index_range {A} (l : list A) from to :
  (from ≤ to ∧ to ≤ length l)%nat → safe (index_range l from to).
Proof. intros H. unfold index_range, slice. by rewrite decide_True. Qed.

Lemma slice_length {A} (l s : list A) from to :
  slice l from to = Some s → length s = (to - from)%nat.
Proof. intros [? ->]%slice_Some. rewrite length_take, length_drop. lia. Qed.

Lemma length_splice {A} at_ (bs l : list A) :
  (at_ + length bs ≤ length l)%nat → length (splice at_ bs l) = length l.
Proof.
  intros. unfold splice. rewrite !length_app, length_take, length_drop. lia.
Qed.

Lemma copy_at_Ret {A} (l l' : list A) at_ bs :
  copy_at l at_ bs = Ret l' ↔
  (at_ + length bs ≤ length l)%nat ∧ l' = splice at_ bs l.
Proof.
  unfold copy_at. case_decide; split; [by intros [= <-] | by intros [_ ->] | done | by intros [? _]].
Qed.

Lemma lookup_splice_ne {A} at_ (bs l : list A) i :
  (at_ + length bs ≤ length l)%nat →
  (i < at_ ∨ at_ + length bs ≤ i)%nat → splice at_ bs l !! i = l !! i.
Proof.
  intros Hl Hi. unfold splice. destruct Hi as [Hi|Hi].
  - rewrite lookup_app_l by (rewrite length_take; lia). by rewrite lookup_take_lt.
  - rewrite lookup_app_r by (rewrite length_take; lia).
    rewrite lookup_app_r by (rewrite length_take; lia).
    rewrite lookup_drop, length_take. f_equal. lia.
Qed.

Lemma lookup_splice_eq {A} at_ (bs l : list A) i :
  (at_ + length bs ≤ length l)%nat → (i < length bs)%nat →
  splice at_ bs l !! (at_ + i)%nat = bs !! i.
Proof.
  intros Hl Hi. unfold splice.
  rewrite lookup_app_r by (rewrite length_take; lia).
  rewrite length_take. rewrite lookup_app_l by lia. f_equal. lia.
Qed.

Lemma clamp_bounds x lo hi : lo ≤ hi → lo ≤ clamp x lo hi ≤ hi.
Proof. unfold clamp. repeat case_match; lia. Qed.

Lemma clamp_id x lo hi : lo ≤ x ≤ hi → clamp x lo hi = x.
Proof. unfold clamp. repeat case_match; lia. Qed.

Lemma wrap64_small x : is_u64 x → wrap64 x = x.
Proof. unfold is_u, u64_max, wrap64. intros. apply Z.mod_small. lia. Qed.

Lemma wrap64_range x : is_u64 (wrap64 x).
Proof.
  unfold is_u, u64_max, wrap64.
  pose proof (Z.mod_pos_bound x 18446744073709551616). lia.
Qed.

Lemma be16_range hi lo : is_u8 hi → is_u8 lo → is_u16 (be16 hi lo).
Proof. unfold is_u, be16, u8_max, u16_max. lia. Qed.

Lemma be16_u16_be x : is_u16 x →
  be16 (x / 256 mod 256) (x mod 256) = x.
Proof. unfold_ints. intros. zdiv. Qed.

Lemma u16_be_be16 hi lo : is_u8 hi → is_u8 lo → u16_be (be16 hi lo) = [hi; lo].
Proof.
  unfold u16_be. unfold_ints. intros.
  f_equal; [|f_equal]; zdiv.
Qed.

Lemma be32_u32_be x : is_u32 x →
  be32 (x / 16777216 mod 256) (x / 65536 mod 256) (x / 256 mod 256) (x mod 256) = x.
Proof. unfold_ints. intros. zdiv. Qed.

Lemma is_u8_mod x : is_u8 (x mod 256).
Proof. unfold_ints. pose proof (Z.mod_pos_bound x 256). lia. Qed.

Lemma u16_be_ok x : bytes_ok (u16_be x).
Proof. repeat constructor; apply is_u8_mod. Qed.

Lemma u32_be_ok x : bytes_ok (u32_be x).
Proof. repeat constructor; apply is_u8_mod. Qed.

Lemma bytes_ok_lookup (l : bytes) i b : bytes_ok l → l !! i = Some b → is_u8 b.
Proof. unfold bytes_ok. intros H Hi. exact (Forall_lookup_1 _ _ _ _ H Hi). Qed.

Lemma be16_at_range msg i n : bytes_ok msg → be16_at msg i = Ret n →
  is_u16 n ∧ (i + 2 ≤ length msg)%nat ∧ u16_be n = take 2 (drop i msg).
Proof.
  intros Hok H. unfold be16_at in H.
  apply bind_Ret_inv in H as (a & Ha & H). apply bind_Ret_inv in H as (b & Hb & [= <-]).
  apply index_Ret in Ha, Hb.
  pose proof (bytes_ok_lookup _ _ _ Hok Ha). pose proof (bytes_ok_lookup _ _ _ Hok Hb).
  split; [by apply be16_range|]. split; [apply lookup_lt_Some in Hb; lia|].
  rewrite u16_be_be16 by done.
  rewrite (drop_S _ a) by done. by rewrite (drop_S _ b).
Qed.

(** Reading past a prefix. *)
Lemma elem_of_filter_bool {A} (f : A → bool) x l : x ∈ List.filter f l ↔ x ∈ l ∧ f x = true.
Proof. by rewrite !list_elem_of_In, filter_In. Qed.

Lemma elem_of_take_1 {A} (x : A) n l : x ∈ take n l → x ∈ l.
Proof. rewrite <-(take_drop n l) at 2. rewrite elem_of_app. by left. Qed.

Lemma elem_of_drop_1 {A} (x : A) n l : x ∈ drop n l → x ∈ l.
Proof. rewrite <-(take_drop n l) at 2. rewrite elem_of_app. by right. Qed.

Lemma exists_elem_nil {A} (P : A → Prop) : (∃ x, x ∈ [] ∧ P x) ↔ False.
Proof. split; [|done]. intros (x & Hx & _). by apply not_elem_of_nil in Hx. Qed.
Lemma exists_elem_cons {A} (P : A → Prop) a l :
  (∃ x, x ∈ a :: l ∧ P x) ↔ P a ∨ ∃ x, x ∈ l ∧ P x.
Proof.
  split.
  - intros (x & [->|Hx]%elem_of_cons & HP); [by left|right; by exists x].
  - intros [HP|(x & Hx & HP)]; [exists a; split; [by left|done]|exists x; split; [by right|done]].
Qed.
Lemma exists_elem_app {A} (P : A → Prop) l k :
  (∃ x, x ∈ l ++ k ∧ P x) ↔ (∃ x, x ∈ l ∧ P x) ∨ ∃ x, x ∈ k ∧ P x.
Proof.
  split.
  - intros (x & [Hx|Hx]%elem_of_app & HP); [left; by exists x|right; by exists x].
  - intros [(x & Hx & HP)|(x & Hx & HP)]; exists x; (split; [apply elem_of_app; auto|done]).
Qed.

Lemma index_app {A} (pre l : list A) k : index (pre ++ l) (length pre + k) = index l k.
Proof. unfold index. rewrite lookup_app_r by lia. by replace (length pre + k - length pre)%nat with k by lia. Qed.

Lemma be16_at_app (pre l : bytes) k : be16_at (pre ++ l) (length pre + k) = be16_at l k.
Proof. unfold be16_at. replace (S (length pre + k)) with (length pre + S k)%nat by lia; by rewrite !index_app. Qed.

(** ** Consecutive writes *)

Lemma splice_app {A} (l : list A) p (a b : list A) :
  (p + length a + length b ≤ length l)%nat →
  splice (p + length a) b (splice p a l) = splice p (a ++ b) l.
Proof.
  intros H. apply list_eq. intros i.
  destruct (decide (i < p ∨ p + length (a ++ b) ≤ i)%nat) as [Ho|Hi].
  - rewrite length_app in Ho.
    rewrite !lookup_splice_ne by (rewrite ?length_splice, ?length_app by lia; lia). done.
  - rewrite length_app in Hi.
    destruct (decide (i < p + length a)%nat).
    + rewrite lookup_splice_ne by (rewrite ?length_splice by lia; lia).
      replace i with (p + (i - p))%nat by lia.
      rewrite !lookup_splice_eq by (rewrite ?length_app; lia).
      by rewrite lookup_app_l by lia.
    + replace i with (p + length a + (i - p - length a))%nat at 1 by lia.
      rewrite lookup_splice_eq by (rewrite ?length_splice by lia; lia).
      replace i with (p + (i - p))%nat at 2 by lia.
      rewrite lookup_splice_eq by (rewrite ?length_app; lia).
      rewrite lookup_app_r by lia. done.
Qed.

Lemma copy_at_first {A} (l : list A) p a :
  (p + length a ≤ length l)%nat → copy_at l p a = Ret (splice p a l).
Proof. intros H. unfold copy_at. by rewrite decide_True. Qed.

Lemma copy_at_next {A} (l : list A) p a b q :
  q = (p + length a)%nat → (q + length b ≤ length l)%nat →
  copy_at (splice p a l) q b = Ret (splice p (a ++ b) l).
Proof.
  intros -> H. unfold copy_at. rewrite decide_True by (rewrite length_splice; lia).
  by rewrite splice_app by lia.
Qed.

Lemma take_splice {A} (l a : list A) : (length a ≤ length l)%nat →
  take (length a) (splice 0 a l) = a.
Proof. intros H. unfold splice. simpl. by rewrite take_app_length. Qed.

(** ** Automation *)

Create HintDb ferrous.
#[export] Hint Resolve safe_get safe_get_range safe_try_some is_u8_mod
  u16_be_ok u32_be_ok be16_range : ferrous.

(** Opens the binds of an outcome known to return. *)
Ltac inv_ret :=
  repeat match goal with
  | H : (_ ≫= _) = Ret _ |- _ =>
      let a := fresh "a" in let H1 := fresh "H" in
      apply bind_Ret_inv in H as (a & H1 & H)
  | H : Ret _ = Ret _ |- _ => injection H as H
  | H : Decline = Ret _ |- _ => discriminate H
  | H : Crash _ = Ret _ |- _ => discriminate H
  | H : try_some _ = Ret _ |- _ => apply try_some_Ret in H
  | H : get _ _ = Ret _ |- _ => apply get_Ret in H
  | H : index _ _ = Ret _ |- _ => apply index_Ret in H
  | H : get_range _ _ _ = Ret _ |- _ => apply get_range_Ret in H as [? H]
  | H : index_range _ _ _ = Ret _ |- _ => apply index_range_Ret in H as [? H]
  | H : copy_at _ _ _ = Ret _ |- _ => apply copy_at_Ret in H as [? H]
  end.

(** Case analysis on the boolean tests of a hypothesis or goal, turned into
    arithmetic. *)
Ltac bool_lia := repeat (case_match || case_bool_decide); simplify_eq; try lia.

Ltac boolify :=
  repeat match goal with
  | H : (_ <? _) = true |- _ => apply Z.ltb_lt in H
  | H : (_ <? _) = false |- _ => apply Z.ltb_ge in H
  | H : (_ <=? _) = true |- _ => apply Z.leb_le in H
  | H : (_ <=? _) = false |- _ => apply Z.leb_gt in H
  | H : (_ =? _) = true |- _ => apply Z.eqb_eq in H
  | H : (_ =? _) = false |- _ => apply Z.eqb_neq in H
  | H : (_ && _) = true |- _ => apply andb_prop in H as [? ?]
  | H : (_ || _) = false |- _ => apply orb_false_elim in H as [? ?]
  | H : negb _ = true |- _ => apply negb_true_iff in H
  | H : negb _ = false |- _ => apply negb_false_iff in H
  end.

Lemma lower_byte_idem b : lower_byte (lower_byte b) = lower_byte b.
Proof.
  unfold lower_byte. destruct ((65 <=? b) && (b <=? 90)) eqn:E.
  - boolify. by rewrite (proj2 (Z.leb_gt (b + 32) 90)), andb_false_r by lia.
  - by rewrite E.
Qed.

(** *** The weakest-precondition calculus *)

Lemma post_safe {A} (o : outcome A) P : post o P → safe o.
Proof. by destruct o. Qed.

Lemma post_returns {A} (o : outcome A) P a : post o P → o = Ret a → P a.
Proof. by intros H ->. Qed.

Lemma post_bind {A B} (m : outcome A) (f : A → outcome B) P :
  post m (λ a, post (f a) P) → post (m ≫= f) P.
Proof. by destruct m. Qed.

Lemma post_mono {A} (o : outcome A) (P Q : A → Prop) :
  post o P → (∀ a, P a → Q a) → post o Q.
Proof. destruct o; simpl; auto. Qed.

Lemma post_mono_eq {A} (o : outcome A) (P Q : A → Prop) :
  post o P → (∀ a, o = Ret a → P a → Q a) → post o Q.
Proof. destruct o; simpl; auto. Qed.

Lemma post_try_some {A} (o : option A) (P : A → Prop) :
  (∀ a, o = Some a → P a) → post (try_some o) P.
Proof. destruct o; simpl; auto. Qed.

Lemma post_get {A} (l : list A) i (P : A → Prop) :
  (∀ a, l !! i = Some a → P a) → post (get l i) P.
Proof. apply post_try_some. Qed.

Lemma post_index {A} (l : list A) i (P : A → Prop) :
  (i < length l)%nat → (∀ a, l !! i = Some a → P a) → post (index l i) P.
Proof.
  intros [a Ha]%lookup_lt_is_Some HP. unfold index. rewrite Ha. by apply HP.
Qed.

Lemma post_get_range {A} (l : list A) from to (P : list A → Prop) :
  ((from ≤ to ∧ to ≤ length l)%nat → P (take (to - from) (drop from l))) →
  post (get_range l from to) P.
Proof.
  intros HP. apply post_try_some. intros s [H ->]%slice_Some. by apply HP.
Qed.

Lemma post_index_range {A} (l : list A) from to (P : list A → Prop) :
  (from ≤ to ∧ to ≤ length l)%nat → P (take (to - from) (drop from l)) →
  post (index_range l from to) P.
Proof. intros H HP. unfold index_range, slice. by rewrite decide_True. Qed.

Lemma post_copy_at {A} (l : list A) at_ bs (P : list A → Prop) :
  (at_ + length bs ≤ length l)%nat → P (splice at_ bs l) → post (copy_at l at_ bs) P.
Proof. intros H HP. unfold copy_at. by rewrite decide_True. Qed.

Lemma post_be16_at (l : bytes) i (P : Z → Prop) :
  (S i < length l)%nat → (∀ n, be16_at l i = Ret n → P n) → post (be16_at l i) P.
Proof.
  intros Hi HP. unfold be16_at in *.
  destruct (lookup_lt_is_Some_2 l i) as [a Ha]; [lia|].
  destruct (lookup_lt_is_Some_2 l (S i)) as [b Hb]; [lia|].
  unfold index in *. rewrite Ha, Hb in *. simpl. by apply HP.
Qed.

Lemma post_try_u16 n (P : Z → Prop) :
  (Z.of_nat n ≤ u16_max → P (Z.of_nat n)) → post (try_u16 n) P.
Proof. unfold try_u16. case_match; simpl; [|done]. intros HP. apply HP. by apply Z.leb_le. Qed.

(** One step of a [post] goal; [wp] runs them, and leaves the side conditions
    it cannot close with [lia]. *)
Ltac wp_lengths :=
  repeat (rewrite ?length_app, ?length_take, ?length_drop in *; simpl length in * ).
Ltac wp1 :=
  lazymatch goal with
  | |- post (_ ≫= _) _ => apply post_bind
  | |- post (let '(_, _) := ?p in _) _ => let E := fresh "E" in destruct p eqn:E
  | |- post (get _ _) _ => apply post_get; intros ? ?
  | |- post (get_range _ _ _) _ => apply post_get_range; intros ?
  | |- post (index _ _) _ => apply post_index; [try (wp_lengths; lia)|intros ? ?]
  | |- post (index_range _ _ _) _ => apply post_index_range; [try (wp_lengths; lia)|]
  | |- post (be16_at _ _) _ => apply post_be16_at; [try (wp_lengths; lia)|intros ? ?]
  | |- post (try_some _) _ => apply post_try_some; intros ? ?
  | |- post (try_u16 _) _ => apply post_try_u16; intros ?
  | |- post Decline _ => exact I
  | |- post (if _ then _ else _) _ => case_match
  | |- post (Ret _) _ => unfold post at 1
  end.
Ltac wp := repeat wp1.

(** ** The order a hash map is iterated in *)

Class IterOrder := {
  walk {K V} `{Countable K} (m : gmap K V) : list (K * V);
  walk_perm {K V} `{Countable K} (m : gmap K V) : walk m ≡ₚ map_to_list m;
}.

Definition map_to_list_order : IterOrder :=
  {| walk := λ K V _ _ m, map_to_list m; walk_perm := λ K V _ _ m, reflexivity _ |}.

Lemma elem_of_walk `{IterOrder} {K V} `{Countable K} (m : gmap K V) k v :
  (k, v) ∈ walk m ↔ m !! k = Some v.
Proof. rewrite walk_perm. apply elem_of_map_to_list. Qed.

Lemma length_walk `{IterOrder} {K V} `{Countable K} (m : gmap K V) : length (walk m) = size m.
Proof. rewrite walk_perm. apply length_map_to_list. Qed.

Lemma omap_none {A B} (f : A → option B) l : (∀ x, x ∈ l → f x = None) → omap f l = [].
Proof.
  induction l as [|x l IH]; intros Hf; [done|]. cbn. rewrite (Hf x) by by left.
  apply IH. intros y Hy. apply Hf. by right.
Qed.

(** ** Folds *)

(** A projection of a fold whose steps are folds themselves. *)
Lemma foldl_proj {A B C D} (pi : A → B) (f : A → C → A) (g : B → D → B) (h : C → list D) xs a :
  (∀ a x, pi (f a x) = foldl g (pi a) (h x)) → pi (foldl f a xs) = foldl g (pi a) (xs ≫= h).
Proof.
  intros Hstep. revert a. induction xs as [|x xs IH]; intros a; [done|].
  cbn [foldl]. rewrite IH, Hstep. cbn [mbind list_bind]. by rewrite foldl_app.
Qed.

Lemma foldl_bind {A B C} (f : A → B → A) (h : C → list B) xs a :
  foldl f a (xs ≫= h) = foldl (λ a x, foldl f a (h x)) a xs.
Proof. symmetry. by apply (foldl_proj id). Qed.

(** ** Bits *)

Lemma u64_log2 x : 0 < x → x ≤ u64_max ↔ Z.log2 x < 64.
Proof. intros Hx. rewrite <-(Z.log2_lt_pow2 x 64) by done. unfold u64_max. lia. Qed.

Lemma lor_u64 a b : is_u64 a → is_u64 b → is_u64 (Z.lor a b).
Proof.
  intros [Ha1 Ha2] [Hb1 Hb2]. assert (Hn : 0 ≤ Z.lor a b) by (by apply Z.lor_nonneg).
  split; [done|].
  destruct (Z.eqb_spec a 0) as [->|]; [by rewrite Z.lor_0_l|].
  destruct (Z.eqb_spec b 0) as [->|]; [by rewrite Z.lor_0_r|].
  destruct (Z.eqb_spec (Z.lor a b) 0) as [->|]; [done|].
  apply u64_log2 in Ha2, Hb2; try lia. apply u64_log2; [lia|]. rewrite Z.log2_lor by done. lia.
Qed.

Lemma lor_nonzero a b : a ≠ 0 ∨ b ≠ 0 → Z.lor a b ≠ 0.
Proof. rewrite Z.lor_eq_0_iff. lia. Qed.

Lemma testbit_nonzero x : 0 ≤ x → x ≠ 0 ↔ ∃ i, Z.testbit x i = true.
Proof.
  intros Hx. split.
  - intros Hn. exists (Z.log2 x). apply Z.bit_log2. lia.
  - intros [i Hi] ->. by rewrite Z.bits_0 in Hi.
Qed.
