(* ===== verification/Errors.v ===== *)
(** The errors of the server and the sources of its blocks:
    [domain/src/errors/domain_error.rs], [domain/src/entities/block_source.rs]. *)

From Stdlib Require Import String.
From S2P Require Import Prelude.

Module Source.
Inductive BlockSource :=
  | Blocklist | ManagedDomain | RegexFilter | CnameCloaking | Schedule | DnsRebinding
  | RateLimit | DnsTunneling | NxdomainHijack | ResponseIpFilter | DgaDetection | NonFqdn
  | PrivatePtr | DnsCookie.
End Source.
Abbreviation BlockSource := Source.BlockSource.

#[export] Instance BlockSource_eq_dec : EqDecision BlockSource.
Proof. solve_decision. Defined.

Module Error.
Inductive DomainError :=
  | InvalidDomainName (_ : string) | InvalidSafeSearchEngine (_ : string)
  | InvalidIpAddress (_ : string) | DnssecValidationFailed (_ : string) | InsecureDelegation
  | DnssecBogus | DnssecIndeterminate | InvalidDnsResponse (_ : string)
  | DatabaseError (_ : string) | IoError (_ : string) | Blocked | NxDomain | LocalNxDomain
  | QueryTimeout | DnsRateLimited | DnsRateLimitedSlip | UpstreamCapacityExhausted
  | DnsTunnelingDetected | DgaDomainDetected | DnsCookieInvalid
  | FilteredQuery (_ : Source.BlockSource) | NotFound (_ : string) | GroupNotFound (_ : Z)
  | ProtectedGroupCannotBeDisabled | ProtectedGroupCannotBeDeleted
  | GroupHasAssignedClients (_ : Z) | GroupRoutedByPool (_ : string)
  | InvalidGroupName (_ : string) | InvalidCidr (_ : string) | SubnetNotFound (_ : string)
  | SubnetConflict (_ : string) | ClientNotFound (_ : string) | BlocklistSourceNotFound (_ : Z)
  | InvalidBlocklistSource (_ : string) | WhitelistSourceNotFound (_ : Z)
  | InvalidWhitelistSource (_ : string) | BlockFilterFetchError (_ : string)
  | BlockFilterCompileError (_ : string) | ManagedDomainNotFound (_ : Z)
  | InvalidManagedDomain (_ : string) | RegexFilterNotFound (_ : Z)
  | ServiceNotFoundInCatalog (_ : string) | BlockedServiceAlreadyExists (_ : string)
  | CustomServiceNotFound (_ : string) | CustomServiceAlreadyExists (_ : string)
  | InvalidRegexFilter (_ : string) | TransportTimeout (server : string)
  | TransportConnectionRefused (server : string) | TransportConnectionReset (server : string)
  | ConfigError (_ : string) | TransportNoHealthyServers | TransportAllServersUnreachable
  | AllUpstreamsServfail | SpoofedResponse (server : string) (reason : string)
  | UpstreamServerFailure (server : string) (rcode : string) | ScheduleProfileNotFound (_ : Z)
  | DuplicateScheduleProfileName (_ : string) | InvalidScheduleProfile (_ : string)
  | GroupHasNoSchedule (_ : Z) | TimeSlotNotFound (_ : Z) | InvalidTimeSlot (_ : string)
  | InvalidCredentials | AuthRequired | SessionNotFound | RateLimited | PasswordAlreadyConfigured
  | ApiTokenNotFound (_ : Z) | DuplicateApiTokenName (_ : string) | UserNotFound (_ : string)
  | DuplicateUsername (_ : string) | ProtectedUser | InvalidUsername (_ : string)
  | InvalidPassword (_ : string) | InvalidMfaCode | MfaChallengeExpired | MfaNotConfigured
  | MfaAlreadyEnabled | WebauthnNotConfigured | WebauthnError (_ : string)
  | InvalidInput (_ : string) | AlreadyExists (_ : string).
End Error.
Abbreviation DomainError := Error.DomainError.

(** ** Codes and names of the sources *)

Definition ALL_SOURCES : list BlockSource :=
  [Source.Blocklist; Source.ManagedDomain; Source.RegexFilter; Source.CnameCloaking; Source.Schedule;
   Source.DnsRebinding; Source.RateLimit; Source.DnsTunneling; Source.NxdomainHijack;
   Source.ResponseIpFilter; Source.DgaDetection; Source.NonFqdn; Source.PrivatePtr; Source.DnsCookie].

Definition source_as_u8 (s : BlockSource) : Z :=
  match s with
  | Source.Blocklist => 0 | Source.ManagedDomain => 1 | Source.RegexFilter => 2
  | Source.CnameCloaking => 3 | Source.Schedule => 4 | Source.DnsRebinding => 5
  | Source.RateLimit => 6 | Source.DnsTunneling => 7 | Source.NxdomainHijack => 8
  | Source.ResponseIpFilter => 9 | Source.DgaDetection => 10 | Source.NonFqdn => 11
  | Source.PrivatePtr => 12 | Source.DnsCookie => 13
  end.
Definition source_from_u8 (v : Z) : option BlockSource := ALL_SOURCES !! Z.to_nat v.

Definition source_to_str (s : BlockSource) : string :=
  match s with
  | Source.Blocklist => "blocklist" | Source.ManagedDomain => "managed_domain"
  | Source.RegexFilter => "regex_filter" | Source.CnameCloaking => "cname_cloaking"
  | Source.Schedule => "schedule" | Source.DnsRebinding => "dns_rebinding"
  | Source.RateLimit => "rate_limit" | Source.DnsTunneling => "dns_tunneling"
  | Source.NxdomainHijack => "nxdomain_hijack" | Source.ResponseIpFilter => "response_ip_filter"
  | Source.DgaDetection => "dga_detection" | Source.NonFqdn => "non_fqdn"
  | Source.PrivatePtr => "private_ptr" | Source.DnsCookie => "dns_cookie"
  end.

Definition source_from_str (s : string) : DomainError + BlockSource :=
  match List.find (λ x, bool_decide (source_to_str x = s)) ALL_SOURCES with
  | Some x => inr x
  | None => inl (Error.InvalidInput ("unknown block source: '" +:+ s +:+ "'"))
  end.

Definition is_malware (s : BlockSource) : bool :=
  match s with
  | Source.DnsRebinding | Source.DnsTunneling | Source.NxdomainHijack | Source.ResponseIpFilter
  | Source.DgaDetection => true
  | _ => false
  end.

Lemma source_u8_roundtrip s : source_from_u8 (source_as_u8 s) = Some s ∧ 0 ≤ source_as_u8 s < 14.
Proof. destruct s; (split; [done|simpl; lia]). Qed.

Lemma source_str_roundtrip s : source_from_str (source_to_str s) = inr s.
Proof. by destruct s. Qed.
