(* ===== verification/Text.v ===== *)
(** Text, as the lists the server reads treat it: a [str] is the list of its
    characters' code points, and the operations are the Standard Library's. *)

From Stdlib Require Import Ascii String.
From S2P Require Import Prelude.

Abbreviation str := (list Z).

(** The text of a literal. *)
Definition of_string (s : string) : str := (λ c, Z.of_N (N_of_ascii c)) <$> list_ascii_of_string s.

Definition starts_with (p s : str) : bool := bool_decide (take (length p) s = p).
Definition ends_with (p s : str) : bool := bool_decide (drop (length s - length p) s = p).
Definition strip_prefix (p s : str) : option str :=
  if starts_with p s then Some (drop (length p) s) else None.
Definition contains_char (c : Z) (s : str) : bool := existsb (Z.eqb c) s.

Fixpoint find_char (c : Z) (s : str) : option nat :=
  match s with
  | [] => None
  | x :: s => if x =? c then Some 0%nat else S <$> find_char c s
  end.

(** [char::is_whitespace]: the code points with the property White_Space. *)
Definition is_whitespace (c : Z) : bool :=
  ((9 <=? c) && (c <=? 13)) || (c =? 32) || (c =? 0x85) || (c =? 0xA0) || (c =? 0x1680)
  || ((0x2000 <=? c) && (c <=? 0x200A)) || (c =? 0x2028) || (c =? 0x2029) || (c =? 0x202F)
  || (c =? 0x205F) || (c =? 0x3000).

Fixpoint trim_start (s : str) : str :=
  match s with
  | [] => []
  | c :: s' => if is_whitespace c then trim_start s' else s
  end.
Definition trim (s : str) : str := rev (trim_start (rev (trim_start s))).

(** [str::split] at the characters [is_sep] accepts. *)
Fixpoint split_at (is_sep : Z → bool) (s : str) : list str :=
  match s with
  | [] => [[]]
  | c :: s =>
      if is_sep c then [] :: split_at is_sep s
      else match split_at is_sep s with
        | [] => [[c]]
        | part :: parts => (c :: part) :: parts
        end
  end.
Definition split (sep : Z) : str → list str := split_at (Z.eqb sep).
Definition split_whitespace (s : str) : list str :=
  List.filter (λ part, negb (bool_decide (part = []))) (split_at is_whitespace s).

(** [str::lines]: a line ends with LF or CR LF; nothing follows the last end. *)
Definition strip_cr (line : str) : str := if ends_with [13] line then removelast line else line.
Definition lines (text : str) : list str :=
  match rev (split 10 text) with
  | [] => []
  | last :: ended => (strip_cr <$> rev ended) ++ (if bool_decide (last = []) then [] else [last])
  end.

Definition to_ascii_lowercase (s : str) : str := lower_byte <$> s.

Fixpoint join (sep : str) (parts : list str) : str :=
  match parts with
  | [] => []
  | [part] => part
  | part :: parts => part ++ sep ++ join sep parts
  end.

(** [str::strip_suffix], [str::rfind] of a character. *)
Definition strip_suffix (s suffix : str) : option str :=
  if ends_with suffix s then Some (take (length s - length suffix) s) else None.

Fixpoint rfind_char (c : Z) (s : str) : option nat :=
  match s with
  | [] => None
  | x :: s =>
      match rfind_char c s with
      | Some i => Some (S i)
      | None => if x =? c then Some 0%nat else None
      end
  end.

(** The bytes of a text, and the text of a message. *)
Definition utf8_char (c : Z) : bytes :=
  if c <? 0x80 then [c]
  else if c <? 0x800 then [0xC0 + c / 0x40; 0x80 + c mod 0x40]
  else if c <? 0x10000 then [0xE0 + c / 0x1000; 0x80 + c / 0x40 mod 0x40; 0x80 + c mod 0x40]
  else [0xF0 + c / 0x40000; 0x80 + c / 0x1000 mod 0x40; 0x80 + c / 0x40 mod 0x40; 0x80 + c mod 0x40].
Definition utf8 (s : str) : bytes := s ≫= utf8_char.
Definition utf8_len (s : str) : nat := length (utf8 s).
Definition to_string (s : str) : string :=
  string_of_list_ascii ((λ b, ascii_of_N (Z.to_N b)) <$> utf8 s).

Definition is_ascii (s : str) : bool := forallb (λ c, c <? 128) s.

(** ** Lemmas *)

Lemma split_at_not_nil p s : split_at p s ≠ [].
Proof. destruct s as [|c s]; simpl; [done|]. destruct (p c); [done|]. by destruct (split_at p s). Qed.

Lemma split_app sep s t : split sep (s ++ sep :: t) = split sep s ++ split sep t.
Proof.
  unfold split. induction s as [|c s IH]; cbn [app split_at].
  { by rewrite Z.eqb_refl. }
  rewrite IH. destruct (sep =? c); [done|].
  destruct (split_at (Z.eqb sep) s) as [|part parts] eqn:E; [|done].
  by destruct (split_at_not_nil (Z.eqb sep) s).
Qed.

Lemma join_split sep s : join [sep] (split sep s) = s.
Proof.
  unfold split. induction s as [|c s IH]; cbn [split_at]; [done|].
  destruct (Z.eqb_spec sep c) as [<-|].
  - destruct (split_at (Z.eqb sep) s) as [|p ps] eqn:E; [by destruct (split_at_not_nil (Z.eqb sep) s)|].
    change (sep :: join [sep] (p :: ps) = sep :: s). by f_equal.
  - destruct (split_at (Z.eqb sep) s) as [|p ps] eqn:E; [by destruct (split_at_not_nil (Z.eqb sep) s)|].
    destruct ps as [|q ps]; cbn [join app] in *; by f_equal.
Qed.

#[export] Instance split_inj sep : Inj (=) (=) (split sep).
Proof. intros s t E. by rewrite <-(join_split sep s), <-(join_split sep t), E. Qed.

Lemma join_app sep ps qs : ps ≠ [] → qs ≠ [] →
  join [sep] (ps ++ qs) = join [sep] ps ++ sep :: join [sep] qs.
Proof.
  intros Hp Hq. induction ps as [|p ps IH]; [done|].
  destruct ps as [|p' ps]; cbn [app].
  - destruct qs as [|q qs]; [done|]. done.
  - change (p ++ [sep] ++ join [sep] ((p' :: ps) ++ qs) = (p ++ [sep] ++ join [sep] (p' :: ps)) ++ sep :: join [sep] qs).
    rewrite IH by done. by rewrite <-!app_assoc.
Qed.

(** Cutting a name between two of its labels. *)
Lemma split_suffix sep d ls s : ls ≠ [] →
  split sep d = ls ++ split sep s ↔ d = join [sep] ls ++ sep :: s ∧ split sep (join [sep] ls) = ls.
Proof.
  intros Hls. split.
  - intros E. assert (Hd : d = join [sep] ls ++ sep :: s).
    { rewrite <-(join_split sep d), E, join_app, join_split by (done || apply split_at_not_nil). done. }
    split; [done|]. rewrite Hd, split_app in E. by apply app_inv_tail in E.
  - intros [-> E]. by rewrite split_app, E.
Qed.

Lemma starts_with_spec p s : starts_with p s = true ↔ ∃ t, s = p ++ t.
Proof.
  unfold starts_with. rewrite bool_decide_eq_true. split.
  - intros E. exists (drop (length p) s). by rewrite <-E at 1; rewrite take_drop.
  - intros [t ->]. by rewrite take_app_length.
Qed.

Lemma ends_with_spec p s : ends_with p s = true ↔ ∃ t, s = t ++ p.
Proof.
  unfold ends_with. rewrite bool_decide_eq_true. split.
  - intros E. exists (take (length s - length p) s). by rewrite <-E at 2; rewrite take_drop.
  - intros [t ->]. rewrite length_app. replace (_ - _)%nat with (length t) by lia.
    apply drop_app_length.
Qed.

Lemma strip_prefix_Some p s t : strip_prefix p s = Some t ↔ s = p ++ t.
Proof.
  unfold strip_prefix. destruct (starts_with p s) eqn:E.
  - apply starts_with_spec in E as [u ->]. rewrite drop_app_length. split; [by intros [= ->]|].
    intros E. by apply app_inv_head in E as ->.
  - split; [done|]. intros ->. apply not_true_iff_false in E. destruct E.
    apply starts_with_spec. by exists t.
Qed.

Lemma to_ascii_lowercase_idem s : to_ascii_lowercase (to_ascii_lowercase s) = to_ascii_lowercase s.
Proof.
  unfold to_ascii_lowercase. rewrite <-list_fmap_compose. apply list_fmap_ext.
  intros ? x _. apply lower_byte_idem.
Qed.
