(* ===== verification/Net.v ===== *)
(** Network data shared by every component: addresses, DNS record types with
    their code points and names, client transports, the NAT64 arithmetic of
    [domain/src/value_objects/nat64.rs]; and a resolution, as the resolvers, the
    cache and the handler exchange it: [application/src/ports/dns_resolver.rs],
    [domain/src/value_objects/dns_query.rs]. *)

From Stdlib Require Import Ascii String.
From Stdlib Require Import String.
From S2P Require Import Prelude Text.

(** The TTL a stale answer reports, [dns/cache/storage.rs]. *)
Definition STALE_SERVE_TTL : Z := 2.

(** [std::net::IpAddr]: the address as the integer its octets spell. *)
Inductive IpAddr := V4 (a : Z) | V6 (a : Z).

#[export] Instance IpAddr_eq_dec : EqDecision IpAddr.
Proof. solve_decision. Defined.

Definition v4_octets (a : Z) : bytes := u32_be a.
Definition v6_octets (a : Z) : bytes :=
  u32_be (a / 2 ^ 96) ++ u32_be (a / 2 ^ 64) ++ u32_be (a / 2 ^ 32) ++ u32_be a.
Definition octets (ip : IpAddr) : bytes :=
  match ip with V4 a => v4_octets a | V6 a => v6_octets a end.

Definition be_int (l : bytes) : Z := foldl (λ acc b, acc * 256 + b) 0 l.

Definition ip_ok (ip : IpAddr) : Prop :=
  match ip with V4 a => is_u32 a | V6 a => is_u u128_max a end.

(** How a query reached the server. *)
Inductive ClientProtocol := Udp | Tcp | Dot | Doh | Doq.

#[export] Instance ClientProtocol_eq_dec : EqDecision ClientProtocol.
Proof. solve_decision. Defined.

Definition is_stream (p : ClientProtocol) : bool :=
  match p with Udp => false | Tcp | Dot | Doh | Doq => true end.

(** ** Record types *)

Inductive RecordType :=
  | A | AAAA | CNAME | MX | TXT | PTR | SRV | SOA | NS | NAPTR | DS | DNSKEY
  | SVCB | HTTPS | CAA | TLSA | SSHFP | DNAME | RRSIG | NSEC | NSEC3
  | NSEC3PARAM | CDS | CDNSKEY | OPT | NULL | HINFO | WKS | IPSECKEY
  | OPENPGPKEY | ZONEMD | ANAME.

#[export] Instance RecordType_eq_dec : EqDecision RecordType.
Proof. solve_decision. Defined.

(** The rows of [impl_record_type_conversions!], in its order. *)
Definition record_type_rows : list (RecordType * string * Z) :=
  [(A, "A", 1); (NS, "NS", 2); (CNAME, "CNAME", 5); (SOA, "SOA", 6);
   (NULL, "NULL", 10); (WKS, "WKS", 11); (PTR, "PTR", 12); (HINFO, "HINFO", 13);
   (MX, "MX", 15); (TXT, "TXT", 16); (AAAA, "AAAA", 28); (SRV, "SRV", 33);
   (NAPTR, "NAPTR", 35); (DNAME, "DNAME", 39); (OPT, "OPT", 41); (DS, "DS", 43);
   (SSHFP, "SSHFP", 44); (IPSECKEY, "IPSECKEY", 45); (RRSIG, "RRSIG", 46);
   (NSEC, "NSEC", 47); (DNSKEY, "DNSKEY", 48); (NSEC3, "NSEC3", 50);
   (NSEC3PARAM, "NSEC3PARAM", 51); (TLSA, "TLSA", 52); (CDS, "CDS", 59);
   (CDNSKEY, "CDNSKEY", 60); (OPENPGPKEY, "OPENPGPKEY", 61);
   (ZONEMD, "ZONEMD", 63); (SVCB, "SVCB", 64); (HTTPS, "HTTPS", 65);
   (CAA, "CAA", 257); (ANAME, "ANAME", 65305)]%string.

(** The generated matches try the rows in order. *)
Definition row_of (t : RecordType) : option (RecordType * string * Z) :=
  List.find (λ row, bool_decide (row.1.1 = t)) record_type_rows.
Definition as_str (t : RecordType) : string :=
  match row_of t with Some row => row.1.2 | None => "" end.
Definition to_u16 (t : RecordType) : Z :=
  match row_of t with Some row => row.2 | None => 0 end.
Definition from_u16 (code : Z) : option RecordType :=
  (λ row, row.1.1) <$> List.find (λ row, row.2 =? code) record_type_rows.

Definition ascii_lower (c : Ascii.ascii) : Ascii.ascii :=
  let n := Ascii.N_of_ascii c in
  if ((65 <=? n) && (n <=? 90))%N then Ascii.ascii_of_N (n + 32) else c.
Fixpoint string_lowercase (s : string) : string :=
  match s with
  | EmptyString => EmptyString
  | String c s => String (ascii_lower c) (string_lowercase s)
  end.
Definition eq_ignore_ascii_case (a b : string) : bool :=
  bool_decide (string_lowercase a = string_lowercase b).

Definition record_type_from_str (s : string) : option RecordType :=
  (λ row, row.1.1) <$>
    List.find (λ row, eq_ignore_ascii_case s row.1.2) record_type_rows.

(** ** NAT64 (RFC 6052, /96 prefixes) *)

Definition nat64_synthesize (prefix v4 : Z) : outcome bytes :=
  copy_at (v6_octets prefix) 12 (v4_octets v4).
Definition nat64_contains (prefix addr : Z) : bool :=
  bool_decide (take 12 (v6_octets prefix) = take 12 (v6_octets addr)).
Definition nat64_extract_v4 (prefix addr : Z) : outcome bytes :=
  if nat64_contains prefix addr
  then index_range (v6_octets addr) 12 16 else Decline.

(** ** Lemmas *)

#[export] Instance RecordType_countable : Countable RecordType.
Proof.
  refine (inj_countable' (λ t, to_u16 t) (λ c, default A (from_u16 c)) _).
  by intros [].
Defined.

Lemma from_u16_to_u16 t : from_u16 (to_u16 t) = Some t.
Proof. by destruct t. Qed.

Lemma from_u16_Some c t : from_u16 c = Some t → to_u16 t = c.
Proof.
  unfold from_u16. intros ([[t' s] c'] & Hf & ->)%fmap_Some.
  pose proof (find_some _ _ Hf) as [Hin Hc]. simpl in Hc. boolify. subst c'.
  clear Hf. simpl in *. unfold record_type_rows in Hin.
  repeat (destruct Hin as [[= <- <- <-]|Hin]; [reflexivity|]). destruct Hin.
Qed.

Lemma be_int_snoc l b : be_int (l ++ [b]) = be_int l * 256 + b.
Proof. unfold be_int. by rewrite foldl_snoc. Qed.

Lemma be_int_word l a b c d : be_int (l ++ [a; b; c; d]) = be_int l * 2 ^ 32 + be32 a b c d.
Proof.
  change [a; b; c; d] with ([a] ++ [b] ++ [c] ++ [d]). rewrite !app_assoc, !be_int_snoc. unfold be32. lia.
Qed.

Lemma be_int_v4_octets a : is_u32 a → be_int (v4_octets a) = a.
Proof. intros Ha. pose proof (be32_u32_be a Ha) as E. unfold be_int, v4_octets, u32_be, be32 in *. cbn [foldl]. lia. Qed.

Lemma be_int_u32_be l x : be_int (l ++ u32_be x) = be_int l * 2 ^ 32 + x mod 2 ^ 32.
Proof.
  unfold u32_be. rewrite be_int_word. f_equal. unfold be32. Z.to_euclidean_division_equations. lia.
Qed.

Lemma be_int_v6_octets a : is_u u128_max a → be_int (v6_octets a) = a.
Proof.
  intros Ha. unfold is_u, u128_max in Ha. unfold v6_octets. rewrite !app_assoc.
  rewrite <-(app_nil_l (u32_be (a / 2 ^ 96))). rewrite !be_int_u32_be. change (be_int []) with 0.
  Z.to_euclidean_division_equations. lia.
Qed.

Lemma length_v4_octets a : length (v4_octets a) = 4%nat.
Proof. done. Qed.

Lemma length_v6_octets a : length (v6_octets a) = 16%nat.
Proof. done. Qed.

Lemma octets_ok ip : bytes_ok (octets ip).
Proof.
  destruct ip; unfold bytes_ok, octets, v4_octets, v6_octets, u32_be; simpl;
    repeat constructor; apply is_u8_mod.
Qed.

Inductive DnssecStatus := Secure | Insecure | Bogus | Indeterminate.
Inductive CoalescedRole := Leader | Follower.

#[export] Instance DnssecStatus_eq_dec : EqDecision DnssecStatus.
Proof. solve_decision. Defined.

Record DnsQuery := mkQuery { dq_domain : str; dq_record_type : RecordType; dq_group_id : option Z }.

Record DnsResolution := mkResolution {
  r_addresses : list IpAddr;
  r_cache_hit : bool;
  r_local_dns : bool;
  r_local_nxdomain : bool;
  r_upstream_nxdomain : bool;
  r_coalesced : option CoalescedRole;
  r_dnssec_status : option DnssecStatus;
  r_cname_chain : list str;
  r_upstream_server : option str;
  r_upstream_pool : option str;
  min_ttl : option Z;
  negative_soa_ttl : option Z;
  upstream_wire_data : option bytes;
}.

Definition resolution_new (addresses : list IpAddr) (cache_hit : bool) : DnsResolution :=
  mkResolution addresses cache_hit false false false None None [] None None None None None.

Definition has_response_data (r : DnsResolution) : bool :=
  r_local_dns r || negb (bool_decide (r_addresses r = []))
  || match upstream_wire_data r with Some _ => true | None => false end
  || negb (bool_decide (r_cname_chain r = [])).

Definition rcode_name (r : DnsResolution) : string :=
  if r_upstream_nxdomain r then "NXDOMAIN" else "NOERROR".
