(* ===== verification/DropCounter.v ===== *)
(** Shed work: [application/src/drop_counter.rs], and the slots of queries that
    wait on an upstream ([use_cases/dns/upstream_admission.rs]). *)

From stdpp Require Import relations.
From S2P Require Import Prelude Errors.

#[local] Set Default Proof Using "Type".

Record DropReport := mkReport { since_last : Z; report_total : Z }.

Record DropCounter := mkCounter { dc_total : Z; reported_total : Z; last_report_secs : Z }.

Definition counter_new : DropCounter := mkCounter 0 0 0.

(** [record], when no other thread runs. *)
Definition record (c : DropCounter) (now_secs : Z) : DropCounter * option DropReport :=
  let total := wrap64 (dc_total c + 1) in
  let c := mkCounter total (reported_total c) (last_report_secs c) in
  let last := last_report_secs c in
  if last =? now_secs then (c, None)
  else
    let previous := reported_total c in
    (mkCounter total (Z.max previous total) now_secs,
     if previous <? total then Some (mkReport (total - previous) total) else None).

(** ** Threads

    The counters are three atomics: a call adds one to the total, loads the
    last second, exchanges it if it is still the one loaded, and raises the
    reported total. *)

Inductive Recorder :=
  | RecNew (now : Z)
  | RecCounted (now total : Z)
  | RecLoaded (now total last : Z)
  | RecElected (total : Z)
  | RecDone (report : option DropReport).

Record Recording := mkRecording { counter : DropCounter; recorders : list Recorder }.

Inductive RecordStep : Recording → Recording → Prop :=
  | step_fetch_add c ts i now : ts !! i = Some (RecNew now) →
      RecordStep (mkRecording c ts)
        (mkRecording (mkCounter (wrap64 (dc_total c + 1)) (reported_total c) (last_report_secs c))
           (<[i := RecCounted now (wrap64 (dc_total c + 1))]> ts))
  | step_load c ts i now total : ts !! i = Some (RecCounted now total) →
      RecordStep (mkRecording c ts)
        (mkRecording c (<[i := if last_report_secs c =? now then RecDone None
                               else RecLoaded now total (last_report_secs c)]> ts))
  | step_exchange c ts i now total last : ts !! i = Some (RecLoaded now total last) →
      last_report_secs c = last →
      RecordStep (mkRecording c ts)
        (mkRecording (mkCounter (dc_total c) (reported_total c) now) (<[i := RecElected total]> ts))
  | step_exchange_fails c ts i now total last : ts !! i = Some (RecLoaded now total last) →
      last_report_secs c ≠ last →
      RecordStep (mkRecording c ts) (mkRecording c (<[i := RecDone None]> ts))
  | step_fetch_max c ts i total : ts !! i = Some (RecElected total) →
      RecordStep (mkRecording c ts)
        (mkRecording (mkCounter (dc_total c) (Z.max (reported_total c) total) (last_report_secs c))
           (<[i := RecDone (if reported_total c <? total
                            then Some (mkReport (total - reported_total c) total) else None)]> ts)).

(** What the reports of [ts] say was dropped since the one before. *)
Definition reported_by (r : Recorder) : Z :=
  match r with RecDone (Some rep) => since_last rep | _ => 0 end.
Definition reported (ts : list Recorder) : Z := foldr (λ r n, reported_by r + n) 0 ts.

(** The drops counted so far. *)
Definition counted_by (r : Recorder) : Z := match r with RecNew _ => 0 | _ => 1 end.
Definition counted (ts : list Recorder) : Z := foldr (λ r n, counted_by r + n) 0 ts.

Definition total_of (r : Recorder) : option Z :=
  match r with RecCounted _ t | RecLoaded _ t _ | RecElected t => Some t | _ => None end.

(** ** Slots *)

Record UpstreamAdmission := mkAdmission { slots : Z; shed : DropCounter }.

Definition try_admit (a : UpstreamAdmission) (now_ns : Z) : UpstreamAdmission * bool :=
  if 0 <? slots a then (mkAdmission (slots a - 1) (shed a), true)
  else (mkAdmission (slots a) (record (shed a) (now_ns / 1000000000)).1, false).

(** The permit drops. *)
Definition release (a : UpstreamAdmission) : UpstreamAdmission := mkAdmission (slots a + 1) (shed a).

(** ** Lemmas *)

Lemma foldr_insert (f : Recorder → Z) (ts : list Recorder) i r r' : ts !! i = Some r →
  foldr (λ r n, f r + n) 0 (<[i := r']> ts) = foldr (λ r n, f r + n) 0 ts - f r + f r'.
Proof.
  revert i. induction ts as [|t ts IH]; intros [|i]; cbn [lookup list_lookup]; try done.
  - intros [= ->]. cbn [insert list_insert foldr]. lia.
  - intros Hi. cbn [insert list_insert foldr]. rewrite IH by done. lia.
Qed.

(** No total is above the counter, and the reports add up to what was reported. *)
Definition recording_ok (n : Z) (st : Recording) : Prop :=
  dc_total (counter st) = counted (recorders st)
  ∧ reported (recorders st) = reported_total (counter st)
  ∧ 0 ≤ reported_total (counter st) ≤ dc_total (counter st)
  ∧ Z.of_nat (length (recorders st)) = n
  ∧ ∀ i r t, recorders st !! i = Some r → total_of r = Some t → t ≤ dc_total (counter st).

Lemma counted_le ts : 0 ≤ counted ts ≤ Z.of_nat (length ts).
Proof.
  induction ts as [|t ts IH]; [done|]. unfold counted in *. cbn [foldr length].
  destruct t; cbn [counted_by]; lia.
Qed.

Lemma recorder_insert (ts : list Recorder) i r r' (P : Recorder → Prop) : ts !! i = Some r →
  (∀ j q, ts !! j = Some q → P q) → P r' → ∀ j q, <[i := r']> ts !! j = Some q → P q.
Proof.
  intros Hi Hall Hr j q Hj. apply list_lookup_insert_Some in Hj as [(-> & <- & _)|[_ Hj]]; eauto.
Qed.

Lemma counted_new ts i now : ts !! i = Some (RecNew now) → counted ts < Z.of_nat (length ts).
Proof.
  revert i. induction ts as [|t ts IH]; intros [|i]; cbn [lookup list_lookup]; try done.
  - intros [= ->]. pose proof (counted_le ts). unfold counted in *. cbn [foldr counted_by length]. lia.
  - intros Hi. specialize (IH i Hi). unfold counted in *. cbn [foldr length]. destruct t; cbn [counted_by]; lia.
Qed.

(** Replacing a thread that has been counted. *)
Lemma recording_replace n c ts i r r' c' : recording_ok n (mkRecording c ts) → ts !! i = Some r →
  counted_by r' = counted_by r → dc_total c' = dc_total c →
  reported_total c' = reported_total c + reported_by r' - reported_by r →
  reported_total c ≤ reported_total c' ≤ dc_total c →
  (∀ t, total_of r' = Some t → t ≤ dc_total c) →
  recording_ok n (mkRecording c' (<[i := r']> ts)).
Proof.
  unfold recording_ok. cbn [counter recorders]. intros (Ht & Hr & Hb & Hl & Htot) Hi Hc Hd He Hle Hn.
  unfold counted, reported in *. rewrite length_insert, !(foldr_insert _ _ _ _ _ Hi).
  split_and!; try lia. rewrite Hd.
  intros j q t Hj. revert t. revert j q Hj.
  apply (recorder_insert ts i r r' (λ r, ∀ t, total_of r = Some t → t ≤ dc_total c) Hi); [|done].
  intros j q Hj t. by apply (Htot j).
Qed.

Lemma record_step_ok n st st' : n ≤ u64_max → recording_ok n st → RecordStep st st' → recording_ok n st'.
Proof.
  intros Hn Hok Hs. destruct Hs as [c ts i now Hi|c ts i now total Hi|c ts i now total last Hi Hl
    |c ts i now total last Hi Hl|c ts i total Hi].
  - destruct Hok as (Ht & Hr & Hb & Hlen & Htot). cbn [counter recorders] in *.
    pose proof (counted_new ts i now Hi) as Hlt. pose proof (counted_le ts).
    rewrite wrap64_small by (unfold_ints; lia). unfold recording_ok. cbn [counter recorders dc_total reported_total].
    unfold counted, reported in *. rewrite length_insert, !(foldr_insert _ _ _ _ _ Hi).
    cbn [counted_by reported_by]. split_and!; try lia.
    intros j q t Hj. revert t. revert j q Hj.
    apply (recorder_insert ts i (RecNew now) _ (λ r, ∀ t, total_of r = Some t → t ≤ dc_total c + 1)); [done| |].
    + intros j q Hj t Hq. specialize (Htot j q t Hj Hq). lia.
    + cbn [total_of]. intros t [= <-]. done.
  - pose proof Hok as (_ & _ & Hb & _ & Htot). cbn [counter recorders] in *.
    eapply recording_replace; [exact Hok|exact Hi|..]; try (by destruct (_ =? _)); try lia.
    + destruct (_ =? _); cbn [reported_by]; lia.
    + intros t Hq. apply (Htot i (RecCounted now total) t Hi). by destruct (_ =? _).
  - pose proof Hok as (_ & _ & Hb & _ & Htot). cbn [counter recorders] in *.
    eapply recording_replace; [exact Hok|exact Hi|done|done|cbn [reported_by reported_total]; lia|cbn [reported_total]; lia|].
    intros t Hq. by apply (Htot i (RecLoaded now total last) t Hi).
  - pose proof Hok as (_ & _ & Hb & _ & Htot). cbn [counter recorders] in *.
    eapply recording_replace; [exact Hok|exact Hi|done|done|cbn [reported_by]; lia|lia|done].
  - pose proof Hok as (_ & _ & Hb & _ & Htot). cbn [counter recorders] in *.
    pose proof (Htot i (RecElected total) total Hi eq_refl).
    eapply recording_replace; [exact Hok|exact Hi|done|done| | |done]; cbn [reported_total];
      destruct (Z.ltb_spec (reported_total c) total); cbn [reported_by since_last]; lia.
Qed.

(** [record] is a thread's run with no other in between. *)
Lemma record_steps c now :
  rtc RecordStep (mkRecording c [RecNew now]) (mkRecording (record c now).1 [RecDone (record c now).2]).
Proof.
  eapply rtc_l; [by apply (step_fetch_add c _ 0%nat now)|].
  eapply rtc_l; [by apply (step_load _ _ 0%nat now (wrap64 (dc_total c + 1)))|].
  unfold record. cbn [last_report_secs insert list_insert].
  destruct (Z.eqb_spec (last_report_secs c) now) as [|Hne]; [apply rtc_refl|].
  eapply rtc_l; [by apply (step_exchange _ _ 0%nat now (wrap64 (dc_total c + 1)) (last_report_secs c))|].
  eapply rtc_l; [by apply (step_fetch_max _ _ 0%nat (wrap64 (dc_total c + 1)))|]. apply rtc_refl.
Qed.

(** ** Theorems *)

(** However the threads that shed work interleave, every drop is in at
    most one report: the reports that have been made add up to the reported
    total, which is at most the number of drops, and the counter holds that
    number exactly. *)
Theorem reports_partition_drops (nows : list Z) (st : Recording) :
  Z.of_nat (length nows) ≤ u64_max →
  rtc RecordStep (mkRecording counter_new (RecNew <$> nows)) st →
  dc_total (counter st) = counted (recorders st)
  ∧ reported (recorders st) = reported_total (counter st)
  ∧ 0 ≤ reported (recorders st) ≤ counted (recorders st).
Proof.
  intros Hn Hrun.
  assert (recording_ok (Z.of_nat (length nows)) st) as (Ht & Hr & Hb & _); [|split_and!; lia].
  remember (mkRecording counter_new (RecNew <$> nows)) as st0 eqn:E0.
  assert (recording_ok (Z.of_nat (length nows)) st0) as H0.
  { subst st0. clear. unfold recording_ok, counter_new. cbn [counter recorders dc_total reported_total].
    rewrite length_fmap. split_and!; try lia.
    - unfold counted. induction nows; cbn [fmap list_fmap foldr counted_by]; lia.
    - unfold reported. induction nows; cbn [fmap list_fmap foldr reported_by]; lia.
    - intros i r t Hi Ht. apply list_lookup_fmap_Some in Hi as (x & -> & _). done. }
  clear E0. induction Hrun as [|st0 st1 st2 Hs _ IH]; [done|]. apply IH. by eapply record_step_ok.
Qed.

Lemma reports_partition_drops_witness :
  let run := mkRecording (mkCounter 3 3 11)
    [RecDone (Some (mkReport 1 1)); RecDone None; RecDone (Some (mkReport 2 3))] in
  rtc RecordStep (mkRecording counter_new (RecNew <$> [10; 10; 11])) run
  ∧ dc_total (counter run) = 3 ∧ reported (recorders run) = 3 ∧ 0 ≤ reported (recorders run) ≤ 3.
Proof.
  intros run. assert (rtc RecordStep (mkRecording counter_new (RecNew <$> [10; 10; 11])) run) as Hrun.
  { eapply rtc_l; [by apply (step_fetch_add counter_new _ 0%nat 10)|].
    eapply rtc_l; [by apply (step_load _ _ 0%nat 10 1)|].
    eapply rtc_l; [by apply (step_fetch_add _ _ 1%nat 10)|].
    eapply rtc_l; [by apply (step_exchange _ _ 0%nat 10 1 0)|].
    eapply rtc_l; [by apply (step_load _ _ 1%nat 10 2)|].
    eapply rtc_l; [by apply (step_fetch_max _ _ 0%nat 1)|].
    eapply rtc_l; [by apply (step_fetch_add _ _ 2%nat 11)|].
    eapply rtc_l; [by apply (step_load _ _ 2%nat 11 3)|].
    eapply rtc_l; [by apply (step_exchange _ _ 2%nat 11 3 10)|].
    eapply rtc_l; [by apply (step_fetch_max _ _ 2%nat 3)|]. apply rtc_refl. }
  split; [exact Hrun|].
  destruct (reports_partition_drops [10; 10; 11] run ltac:(vm_compute; discriminate) Hrun) as (H1 & H2 & H3).
  split; [exact H1|]. split; [exact H2|exact H3].
Defined.
