(* ===== verification/RateLimiter.v ===== *)
(** The per-subnet DNS rate limiter of
    [application/src/use_cases/dns/rate_limiter/]: token buckets, subnet keys,
    the CIDR whitelist and the limiter that ties them together.

    Each atomic operation of the source is one step here.  The functions below
    run one query at a time; [CasStep] interleaves the compare-and-swap loop of
    [try_decrement] between threads. *)

From Stdlib Require Import Ascii String.
From S2P Require Import Prelude Net.

(** ** Token buckets ([token_bucket.rs]) *)

Definition MILLI : Z := 1000.
Definition NX_BURST_MULTIPLIER : Z := 2.
Definition NS_PER_SEC : Z := 1000000000.

Record TokenBucket := mkBucket {
  tokens_milli : Z;
  last_refill_ns : Z;
  nxdomain_tokens_milli : Z;
}.

Definition nx_burst_milli (nx_qps : Z) : Z := nx_qps * MILLI * NX_BURST_MULTIPLIER.

Definition bucket_new (burst nx_qps now_ns : Z) : TokenBucket :=
  mkBucket (burst * MILLI) now_ns (nx_burst_milli nx_qps).

Definition has_tokens (b : TokenBucket) : bool := MILLI <=? tokens_milli b.

(** The new counter, and whether a token was taken. *)
Definition try_decrement (current : Z) : Z * bool :=
  if current <? MILLI then (current, false) else (current - MILLI, true).

Definition add_capped (current add cap : Z) : Z := Z.min (wrap64 (current + add)) cap.

Definition refill (b : TokenBucket) (now_ns qps burst nx_qps : Z) : TokenBucket :=
  let elapsed_ns := sat_sub now_ns (last_refill_ns b) in
  if elapsed_ns =? 0 then b else
  let add_milli := elapsed_ns * qps * MILLI / NS_PER_SEC in
  let nx_add := elapsed_ns * nx_qps * MILLI / NS_PER_SEC in
  mkBucket (add_capped (tokens_milli b) (wrap64 add_milli) (burst * MILLI))
           now_ns
           (add_capped (nxdomain_tokens_milli b) (wrap64 nx_add) (nx_burst_milli nx_qps)).

Definition try_consume (b : TokenBucket) (now_ns qps burst nx_qps : Z)
    : TokenBucket * bool :=
  let b := refill b now_ns qps burst nx_qps in
  let '(t, ok) := try_decrement (tokens_milli b) in
  (mkBucket t (last_refill_ns b) (nxdomain_tokens_milli b), ok).

Definition try_charge_nxdomain (b : TokenBucket) (now_ns qps burst nx_qps : Z)
    : TokenBucket * bool :=
  let b := refill b now_ns qps burst nx_qps in
  let '(t, ok) := try_decrement (nxdomain_tokens_milli b) in
  (mkBucket (tokens_milli b) (last_refill_ns b) t, ok).

(** *** [try_decrement] between threads

    Every thread loads the counter, then swaps it if it still holds what was
    loaded; [compare_exchange_weak] may also fail spuriously. *)
Inductive dec_thread := Loading | Loaded (current : Z) | Done (ok : bool).

#[export] Instance dec_thread_eq_dec : EqDecision dec_thread.
Proof. solve_decision. Defined.

Record dec_state := mkDec { counter : Z; threads : list dec_thread }.

Inductive CasStep : dec_state → dec_state → Prop :=
  | cas_load c ts i :
      ts !! i = Some Loading →
      CasStep (mkDec c ts)
              (mkDec c (<[i := if c <? MILLI then Done false else Loaded c]> ts))
  | cas_swap c ts i :
      ts !! i = Some (Loaded c) →
      CasStep (mkDec c ts) (mkDec (c - MILLI) (<[i := Done true]> ts))
  | cas_retry c ts i current :
      ts !! i = Some (Loaded current) →
      CasStep (mkDec c ts) (mkDec c (<[i := Loading]> ts)).

Definition admitted (ts : list dec_thread) : Z :=
  Z.of_nat (length (base.filter (λ t, t = Done true) ts)).

(** ** Subnet keys ([subnet_key.rs]) *)

Definition V6_TAG : Z := Z.shiftl 1 63.

Record SubnetGrouping := mkGrouping { v4_shift : Z; v6_shift : Z; v6_mask : Z }.

Definition grouping_new (v4_prefix v6_prefix : Z) : SubnetGrouping :=
  let v6_prefix := Z.min v6_prefix 64 in
  mkGrouping (32 - Z.min v4_prefix 32) (Z.min (64 - v6_prefix) 63)
             (if v6_prefix =? 0 then 0 else u64_max).

Definition subnet_key (g : SubnetGrouping) (ip : IpAddr) : Z :=
  match ip with
  | V4 v4 => Z.shiftr v4 (v4_shift g)
  | V6 v6 =>
      let high := wrap64 (Z.shiftr v6 64) in
      Z.lor (Z.land (Z.shiftr high (v6_shift g)) (v6_mask g)) V6_TAG
  end.

(** ** The whitelist ([whitelist_set.rs]) *)

Record WhitelistSet := mkWhitelist {
  v4_entries : list (Z * Z);
  v6_entries : list (Z * Z);
}.

(** [str::split_once]. *)
Fixpoint split_once (sep : Ascii.ascii) (s : string) : option (string * string) :=
  match s with
  | EmptyString => None
  | String c rest =>
      if Ascii.eqb c sep then Some (EmptyString, rest)
      else match split_once sep rest with
           | Some (a, b) => Some (String c a, b)
           | None => None
           end
  end.

(** [str::parse::<u32>]: an optional plus sign, then decimal digits, with no
    overflow. *)
Fixpoint parse_digits (acc : Z) (s : string) : option Z :=
  match s with
  | EmptyString => Some acc
  | String c rest =>
      let d := Z.of_N (N_of_ascii c) - 48 in
      if (0 <=? d) && (d <=? 9) then
        let acc := acc * 10 + d in
        if acc <=? u32_max then parse_digits acc rest else None
      else None
  end.
Definition parse_u32 (s : string) : option Z :=
  match s with
  | EmptyString => None
  | String c EmptyString =>
      if Ascii.eqb c "+" then None else parse_digits 0 s
  | String c rest => if Ascii.eqb c "+" then parse_digits 0 rest else parse_digits 0 s
  end.

(** [u32::MAX.checked_shl(bits - prefix).unwrap_or(0)], at width [bits]. *)
Definition prefix_mask (bits prefix_len : Z) : Z :=
  let s := sat_sub bits prefix_len in
  if bits <=? s then 0 else Z.shiftl (2 ^ bits - 1) s mod 2 ^ bits.

Section Whitelist.
(** [str::parse::<IpAddr>]. *)
Variable parse_ip : string → option IpAddr.

Definition add_cidr (w : WhitelistSet) (cidr : string) : WhitelistSet :=
  let push_v4 e := mkWhitelist (v4_entries w ++ [e]) (v6_entries w) in
  let push_v6 e := mkWhitelist (v4_entries w) (v6_entries w ++ [e]) in
  match split_once "/" cidr with
  | Some (addr_str, prefix_str) =>
      match parse_u32 prefix_str with
      | None => w
      | Some prefix_len =>
          match parse_ip addr_str with
          | Some (V4 v4) => let mask := prefix_mask 32 prefix_len in
              push_v4 (Z.land v4 mask, mask)
          | Some (V6 v6) => let mask := prefix_mask 128 prefix_len in
              push_v6 (Z.land v6 mask, mask)
          | None => w
          end
      end
  | None =>
      match parse_ip cidr with
      | Some (V4 v4) => push_v4 (v4, u32_max)
      | Some (V6 v6) => push_v6 (v6, u128_max)
      | None => w
      end
  end.

Definition from_cidrs (cidrs : list string) : WhitelistSet :=
  foldl add_cidr (mkWhitelist [] []) cidrs.
End Whitelist.

Definition whitelist_contains (w : WhitelistSet) (ip : IpAddr) : bool :=
  match ip with
  | V4 v4 => existsb (λ e, Z.land v4 e.2 =? e.1) (v4_entries w)
  | V6 v6 => existsb (λ e, Z.land v6 e.2 =? e.1) (v6_entries w)
  end.

(** ** The limiter ([mod.rs]) *)

Inductive RateLimitDecision := Allow | Refuse | Slip | DryRunWouldRefuse.

#[export] Instance RateLimitDecision_eq_dec : EqDecision RateLimitDecision.
Proof. solve_decision. Defined.

Record RateLimitConfig := mkRateLimitConfig {
  cfg_enabled : bool;
  queries_per_second : Z;
  burst_size : Z;
  ipv4_prefix_len : Z;
  ipv6_prefix_len : Z;
  cfg_whitelist : list string;
  nxdomain_per_second : Z;
  cfg_slip_ratio : Z;
  cfg_dry_run : bool;
  stale_entry_ttl_secs : Z;
}.

Record DnsRateLimiter := mkLimiter {
  enabled : bool;
  dry_run : bool;
  qps : Z;
  burst : Z;
  nx_qps : Z;
  grouping : SubnetGrouping;
  slip_ratio : Z;
  stale_ttl_ns : Z;
  whitelist : WhitelistSet;
  udp_buckets : gmap Z TokenBucket;
  stream_buckets : gmap Z TokenBucket;
  slip_counter : Z;
}.

Definition sat_mul64 (a b : Z) : Z := Z.min u64_max (a * b).

Definition limiter_new (parse_ip : string → option IpAddr) (c : RateLimitConfig)
    : DnsRateLimiter :=
  {| enabled := cfg_enabled c; dry_run := cfg_dry_run c;
     qps := queries_per_second c; burst := burst_size c;
     nx_qps := nxdomain_per_second c;
     grouping := grouping_new (ipv4_prefix_len c) (ipv6_prefix_len c);
     slip_ratio := cfg_slip_ratio c;
     stale_ttl_ns := sat_mul64 (stale_entry_ttl_secs c) NS_PER_SEC;
     whitelist := from_cidrs parse_ip (cfg_whitelist c);
     udp_buckets := ∅; stream_buckets := ∅; slip_counter := 0 |}.

Definition limiter_disabled (parse_ip : string → option IpAddr) : DnsRateLimiter :=
  {| enabled := false; dry_run := false; qps := 0; burst := 0; nx_qps := 0;
     grouping := grouping_new 24 56; slip_ratio := 0; stale_ttl_ns := 0;
     whitelist := from_cidrs parse_ip [];
     udp_buckets := ∅; stream_buckets := ∅; slip_counter := 0 |}.

Definition stream_of (protocol : option ClientProtocol) : bool :=
  match protocol with Some p => is_stream p | None => false end.

Definition buckets (l : DnsRateLimiter) (stream : bool) : gmap Z TokenBucket :=
  if stream then stream_buckets l else udp_buckets l.

Definition set_bucket (l : DnsRateLimiter) (stream : bool) (k : Z) (b : TokenBucket)
    : DnsRateLimiter :=
  {| enabled := enabled l; dry_run := dry_run l; qps := qps l; burst := burst l;
     nx_qps := nx_qps l; grouping := grouping l; slip_ratio := slip_ratio l;
     stale_ttl_ns := stale_ttl_ns l; whitelist := whitelist l;
     udp_buckets := if stream then udp_buckets l else <[k := b]> (udp_buckets l);
     stream_buckets := if stream then <[k := b]> (stream_buckets l) else stream_buckets l;
     slip_counter := slip_counter l |}.

Definition set_slip_counter (l : DnsRateLimiter) (n : Z) : DnsRateLimiter :=
  {| enabled := enabled l; dry_run := dry_run l; qps := qps l; burst := burst l;
     nx_qps := nx_qps l; grouping := grouping l; slip_ratio := slip_ratio l;
     stale_ttl_ns := stale_ttl_ns l; whitelist := whitelist l;
     udp_buckets := udp_buckets l; stream_buckets := stream_buckets l;
     slip_counter := n |}.

Definition over_budget (l : DnsRateLimiter) (stream : bool)
    : DnsRateLimiter * RateLimitDecision :=
  if dry_run l then (l, DryRunWouldRefuse)
  else if (0 <? slip_ratio l) && negb stream then
    let count := slip_counter l in
    let l' := set_slip_counter l (wrap64 (count + 1)) in
    if count mod slip_ratio l =? 0 then (l', Slip) else (l', Refuse)
  else (l, Refuse).

Definition spend (l : DnsRateLimiter) (client_ip : IpAddr)
    (protocol : option ClientProtocol)
    (try_spend : TokenBucket → Z → TokenBucket * bool) (now_ns : Z)
    : DnsRateLimiter * RateLimitDecision :=
  let stream := stream_of protocol in
  let k := subnet_key (grouping l) client_ip in
  let b := default (bucket_new (burst l) (nx_qps l) now_ns) (buckets l stream !! k) in
  let '(b, covered) := try_spend b now_ns in
  let l := set_bucket l stream k b in
  if covered : bool then (l, Allow) else over_budget l stream.

Definition check (l : DnsRateLimiter) (client_ip : IpAddr)
    (protocol : option ClientProtocol) (now_ns : Z)
    : DnsRateLimiter * RateLimitDecision :=
  if negb (enabled l) then (l, Allow)
  else if whitelist_contains (whitelist l) client_ip then (l, Allow)
  else spend l client_ip protocol
         (λ b now_ns, try_consume b now_ns (qps l) (burst l) (nx_qps l)) now_ns.

Definition limits_nxdomain (l : DnsRateLimiter) : bool :=
  enabled l && (0 <? nx_qps l).

Definition charge_nxdomain (l : DnsRateLimiter) (client_ip : IpAddr)
    (protocol : option ClientProtocol) (now_ns : Z)
    : DnsRateLimiter * RateLimitDecision :=
  if negb (limits_nxdomain l) then (l, Allow)
  else if whitelist_contains (whitelist l) client_ip then (l, Allow)
  else spend l client_ip protocol
         (λ b now_ns, try_charge_nxdomain b now_ns (qps l) (burst l) (nx_qps l)) now_ns.

Definition is_allowed (l : DnsRateLimiter) (client_ip : IpAddr) : bool :=
  negb (enabled l)
  || (if whitelist_contains (whitelist l) client_ip then true
      else match udp_buckets l !! subnet_key (grouping l) client_ip with
           | Some b => has_tokens b
           | None => true
           end).

(** One pass of the eviction task over both maps. *)
Definition evict_stale (l : DnsRateLimiter) (now_ns : Z) : DnsRateLimiter :=
  if negb (enabled l) || (stale_ttl_ns l =? 0) then l else
  let live (m : gmap Z TokenBucket) : gmap Z TokenBucket :=
    base.filter (λ kb, sat_sub now_ns (last_refill_ns kb.2) < stale_ttl_ns l) m in
  {| enabled := enabled l; dry_run := dry_run l; qps := qps l; burst := burst l;
     nx_qps := nx_qps l; grouping := grouping l; slip_ratio := slip_ratio l;
     stale_ttl_ns := stale_ttl_ns l; whitelist := whitelist l;
     udp_buckets := live (udp_buckets l); stream_buckets := live (stream_buckets l);
     slip_counter := slip_counter l |}.

(** ** Runs *)

(** A bucket asked at each of [times] in turn, and how often it admitted. *)
Fixpoint consume_run (b : TokenBucket) (qps burst nx_qps : Z) (times : list Z)
    : TokenBucket * Z :=
  match times with
  | [] => (b, 0)
  | t :: times =>
      let '(b, ok) := try_consume b t qps burst nx_qps in
      let '(b, n) := consume_run b qps burst nx_qps times in
      (b, n + Z.b2z ok)
  end.

(** Queries, as client, transport and time; the decisions the limiter makes. *)
Definition query := (IpAddr * option ClientProtocol * Z)%type.

Fixpoint check_run (l : DnsRateLimiter) (qs : list query)
    : DnsRateLimiter * list RateLimitDecision :=
  match qs with
  | [] => (l, [])
  | (ip, p, t) :: qs =>
      let '(l, d) := check l ip p t in
      let '(l, ds) := check_run l qs in
      (l, d :: ds)
  end.

(** The queries of subnet [k] over transport [stream] that were allowed. *)
Definition allowed_for (g : SubnetGrouping) (stream : bool) (k : Z)
    (qs : list query) (ds : list RateLimitDecision) : Z :=
  Z.of_nat (length (base.filter
    (λ qd : query * RateLimitDecision,
       subnet_key g qd.1.1.1 = k ∧ stream_of qd.1.1.2 = stream ∧ qd.2 = Allow)
    (zip qs ds))).

(** [n] decisions over budget in a row. *)
Fixpoint over_budget_run (l : DnsRateLimiter) (stream : bool) (n : nat)
    : list RateLimitDecision :=
  match n with
  | O => []
  | S n => let '(l, d) := over_budget l stream in d :: over_budget_run l stream n
  end.

(** ** Token buckets: lemmas *)

Definition bucket_ok (burst nx_qps : Z) (b : TokenBucket) : Prop :=
  0 ≤ tokens_milli b ≤ burst * MILLI ∧
  0 ≤ nxdomain_tokens_milli b ≤ nx_burst_milli nx_qps.

Ltac unfold_bucket :=
  unfold bucket_ok, try_consume, try_charge_nxdomain, refill, add_capped,
    try_decrement, has_tokens, bucket_new, nx_burst_milli, MILLI,
    NX_BURST_MULTIPLIER, NS_PER_SEC, sat_sub, wrap64 in *.

(** A rate applied to an elapsed time, in thousandths of a token. *)
Lemma rate_bounds elapsed rate : 0 ≤ elapsed → 0 ≤ rate →
  let m := elapsed * rate * MILLI / NS_PER_SEC in
  0 ≤ m ∧ NS_PER_SEC * m ≤ elapsed * rate * MILLI < NS_PER_SEC * (m + 1).
Proof.
  intros He Hr m. subst m. unfold MILLI, NS_PER_SEC.
  assert (0 ≤ elapsed * rate) by nia. zdiv.
Qed.

Lemma wrap64_le x : 0 ≤ x → 0 ≤ wrap64 x ≤ x.
Proof.
  unfold wrap64. intros. split; [apply Z.mod_pos_bound; lia|apply Z.mod_le; lia].
Qed.

Lemma refill_ok b now qps burst nx_qps :
  0 ≤ qps → 0 ≤ burst → 0 ≤ nx_qps →
  bucket_ok burst nx_qps b → bucket_ok burst nx_qps (refill b now qps burst nx_qps).
Proof.
  intros Hq Hb Hn [[??] [??]]. unfold refill.
  case_match; [done|]. split; simpl; unfold add_capped, nx_burst_milli in *;
    match goal with |- context [wrap64 (?a + ?b)] =>
      pose proof (wrap64_range (a + b)) end;
    unfold_ints; unfold MILLI, NX_BURST_MULTIPLIER in *; lia.
Qed.

Lemma refill_last b now qps burst nx_qps :
  last_refill_ns (refill b now qps burst nx_qps) = Z.max now (last_refill_ns b).
Proof. unfold refill, sat_sub. repeat case_match; boolify; simpl; lia. Qed.

Lemma try_consume_last b now qps burst nx_qps :
  last_refill_ns (try_consume b now qps burst nx_qps).1 = Z.max now (last_refill_ns b).
Proof.
  unfold try_consume. destruct (try_decrement _). simpl. apply refill_last.
Qed.

Lemma try_consume_ok b now qps burst nx_qps :
  0 ≤ qps → 0 ≤ burst → 0 ≤ nx_qps →
  bucket_ok burst nx_qps b → bucket_ok burst nx_qps (try_consume b now qps burst nx_qps).1.
Proof.
  intros Hq Hb Hn Hok. pose proof (refill_ok b now qps burst nx_qps Hq Hb Hn Hok) as [??].
  unfold try_consume, try_decrement.
  destruct (_ <? MILLI) eqn:E; simpl; boolify; split; simpl; auto.
  unfold MILLI in *. lia.
Qed.

Lemma try_charge_nxdomain_ok b now qps burst nx_qps :
  0 ≤ qps → 0 ≤ burst → 0 ≤ nx_qps →
  bucket_ok burst nx_qps b →
  bucket_ok burst nx_qps (try_charge_nxdomain b now qps burst nx_qps).1.
Proof.
  intros Hq Hb Hn Hok. pose proof (refill_ok b now qps burst nx_qps Hq Hb Hn Hok) as [??].
  unfold try_charge_nxdomain, try_decrement.
  destruct (_ <? MILLI) eqn:E; simpl; boolify; split; simpl; auto.
  unfold MILLI in *. lia.
Qed.

Lemma bucket_new_ok burst nx_qps now : 0 ≤ burst → 0 ≤ nx_qps →
  bucket_ok burst nx_qps (bucket_new burst nx_qps now).
Proof. intros. unfold_bucket. simpl. lia. Qed.

#[export] Hint Resolve try_consume_ok try_charge_nxdomain_ok bucket_new_ok : ferrous.

(** What a bucket can still admit up to time [tmax], in units of 10^-12 token:
    its tokens and what the rate adds until then. *)
Definition potential (tmax qps : Z) (b : TokenBucket) : Z :=
  NS_PER_SEC * tokens_milli b + (tmax - last_refill_ns b) * qps * MILLI.

Lemma refill_potential b now qps burst nx_qps tmax :
  0 ≤ qps → 0 ≤ burst → 0 ≤ nx_qps → bucket_ok burst nx_qps b →
  potential tmax qps (refill b now qps burst nx_qps) ≤ potential tmax qps b.
Proof.
  intros Hq Hb Hn [[Ht _] _]. unfold refill, potential.
  case_match; [done|]. boolify. unfold sat_sub in *.
  assert (He : Z.max 0 (now - last_refill_ns b) = now - last_refill_ns b) by lia.
  rewrite He in *. simpl.
  set (e := now - last_refill_ns b) in *.
  pose proof (rate_bounds e qps ltac:(lia) Hq) as [Hm [Hm1 _]].
  set (m := e * qps * MILLI / NS_PER_SEC) in *.
  pose proof (wrap64_le m Hm). unfold add_capped.
  pose proof (wrap64_le (tokens_milli b + wrap64 m) ltac:(lia)).
  unfold MILLI, NS_PER_SEC in *.
  replace (tmax - last_refill_ns b) with ((tmax - now) + e) by (subst e; lia). nia.
Qed.

Lemma try_consume_potential b now qps burst nx_qps tmax :
  0 ≤ qps → 0 ≤ burst → 0 ≤ nx_qps → bucket_ok burst nx_qps b →
  let '(b', ok) := try_consume b now qps burst nx_qps in
  potential tmax qps b' + Z.b2z ok * (NS_PER_SEC * MILLI) ≤ potential tmax qps b.
Proof.
  intros Hq Hb Hn Hok.
  pose proof (refill_potential b now qps burst nx_qps tmax Hq Hb Hn Hok) as Hp.
  unfold try_consume, try_decrement. destruct (_ <? MILLI) eqn:E; simpl;
    unfold potential in *; simpl; unfold NS_PER_SEC, MILLI in *; lia.
Qed.

Lemma consume_run_potential b qps burst nx_qps tmax times :
  0 ≤ qps → 0 ≤ burst → 0 ≤ nx_qps → bucket_ok burst nx_qps b →
  last_refill_ns b ≤ tmax → Forall (λ t, t ≤ tmax) times →
  let '(b', n) := consume_run b qps burst nx_qps times in
  n * (NS_PER_SEC * MILLI) ≤ potential tmax qps b.
Proof.
  intros Hq Hb Hn. revert b. induction times as [|t times IH]; intros b Hok Hl Ht; simpl.
  { destruct Hok as [[??] _]. unfold potential, NS_PER_SEC, MILLI in *. nia. }
  apply Forall_cons_1 in Ht as [Ht Hts].
  pose proof (try_consume_potential b t qps burst nx_qps tmax Hq Hb Hn Hok) as Hp.
  pose proof (try_consume_ok b t qps burst nx_qps Hq Hb Hn Hok) as Hok'.
  pose proof (try_consume_last b t qps burst nx_qps) as Hl'.
  destruct (try_consume b t qps burst nx_qps) as [b' ok]. simpl in *.
  specialize (IH b' Hok' ltac:(lia) Hts).
  destruct (consume_run b' qps burst nx_qps times) as [b'' n]. lia.
Qed.

(** A poll that comes too soon after the last one adds nothing. *)
Lemma refill_too_soon b now qps burst nx_qps :
  0 ≤ qps → 0 ≤ nx_qps → is_u64 (tokens_milli b) → tokens_milli b ≤ burst * MILLI →
  (now - last_refill_ns b) * qps < 1000000 →
  tokens_milli (refill b now qps burst nx_qps) = tokens_milli b.
Proof.
  intros Hq Hn Ht Hc Hs. unfold refill, sat_sub. case_match; [done|]. boolify. simpl.
  assert (He : Z.max 0 (now - last_refill_ns b) = now - last_refill_ns b) by lia.
  rewrite He in *.
  replace ((now - last_refill_ns b) * qps * MILLI / NS_PER_SEC) with 0
    by (symmetry; apply Z.div_small; unfold MILLI, NS_PER_SEC; nia).
  unfold add_capped. rewrite (wrap64_small 0), Z.add_0_r, wrap64_small by
    (unfold_ints; lia). lia.
Qed.

(** ** Prefixes of addresses *)

(** [x] and [y], of width [w], agree on their first [p] bits. *)
Definition same_prefix (w p x y : Z) : Prop :=
  ∀ i, w - p ≤ i < w → Z.testbit x i = Z.testbit y i.

Definition same_subnet (p4 p6 : Z) (x y : IpAddr) : Prop :=
  match x, y with
  | V4 a, V4 b => same_prefix 32 (Z.min p4 32) a b
  | V6 a, V6 b => same_prefix 128 (Z.min p6 64) a b
  | _, _ => False
  end.

Lemma testbit_high x w i : 0 ≤ x < 2 ^ w → 0 ≤ w ≤ i → Z.testbit x i = false.
Proof.
  intros Hx Hi. rewrite <-(Z.mod_small x (2 ^ w)) by lia.
  apply Z.mod_pow2_bits_high. lia.
Qed.

Lemma shiftr_eq_prefix w s x y :
  0 ≤ s ≤ w → 0 ≤ x < 2 ^ w → 0 ≤ y < 2 ^ w →
  Z.shiftr x s = Z.shiftr y s ↔ same_prefix w (w - s) x y.
Proof.
  intros Hs Hx Hy. unfold same_prefix. split.
  - intros H i Hi. replace i with ((i - s) + s) by lia.
    rewrite <-!Z.shiftr_spec by lia. by rewrite H.
  - intros H. apply Z.bits_inj'. intros n Hn. rewrite !Z.shiftr_spec by lia.
    destruct (decide (n + s < w)).
    + apply H. lia.
    + by rewrite !(testbit_high _ w) by lia.
Qed.

Lemma lor_tag x : 0 ≤ x < 2 ^ 63 → Z.land (Z.lor x V6_TAG) (Z.ones 63) = x.
Proof.
  intros Hx. rewrite Z.land_lor_distr_l, Z.land_ones, Z.mod_small by lia.
  change (Z.land V6_TAG (Z.ones 63)) with 0. apply Z.lor_0_r.
Qed.

Lemma shiftr_range x s n m : 0 ≤ s → 0 ≤ n → 0 ≤ x < 2 ^ m → m = n + s →
  0 ≤ Z.shiftr x s < 2 ^ n.
Proof.
  intros Hs Hn Hx ->. rewrite Z.shiftr_div_pow2 by lia.
  rewrite Z.pow_add_r in Hx by lia. split; [apply Z.div_pos; lia|].
  apply Z.div_lt_upper_bound; lia.
Qed.

(** The untagged part of an IPv6 key. *)
Lemma v6_key_high a p :
  0 ≤ p ≤ 63 → 0 ≤ a < 2 ^ 128 →
  let g := grouping_new 0 p in
  Z.land (Z.shiftr (wrap64 (Z.shiftr a 64)) (v6_shift g)) (v6_mask g)
  = Z.shiftr a (128 - p) ∧ 0 ≤ Z.shiftr a (128 - p) < 2 ^ 63.
Proof.
  intros Hp Ha g.
  assert (Hr : 0 ≤ Z.shiftr a (128 - p) < 2 ^ p)
    by (apply (shiftr_range a (128 - p) p 128); lia).
  assert (Hle : 2 ^ p ≤ 2 ^ 63) by (apply Z.pow_le_mono_r; lia).
  split; [|lia]. subst g. unfold grouping_new. simpl v6_shift. simpl v6_mask.
  rewrite (Z.min_l p 64) by lia.
  rewrite wrap64_small.
  2:{ pose proof (shiftr_range a 64 64 128). unfold_ints. lia. }
  case_match; boolify.
  - subst p. rewrite Z.land_0_r. simpl in Hr. change (2 ^ 0) with 1 in Hr. lia.
  - rewrite Z.min_l, Z.shiftr_shiftr by lia.
    replace (64 + (64 - p)) with (128 - p) by lia.
    change u64_max with (Z.ones 64). rewrite Z.land_ones by lia.
    apply Z.mod_small. assert (2 ^ 63 < 2 ^ 64) by lia. lia.
Qed.

Lemma v4_key_not_v6 g a h : 0 ≤ v4_shift g ≤ 32 → is_u32 a → 0 ≤ h →
  Z.shiftr a (v4_shift g) ≠ Z.lor h V6_TAG.
Proof.
  intros Hs Ha Hh Heq. unfold_ints.
  assert (H : Z.testbit (Z.lor h V6_TAG) 63 = true).
  { rewrite Z.lor_spec. apply orb_true_r. }
  rewrite <-Heq, Z.shiftr_spec, (testbit_high a 32) in H by lia. discriminate.
Qed.

(** ** The whitelist: lemmas *)

Definition cidr_net (parse_ip : string → option IpAddr) (cidr : string)
    : option (IpAddr * Z) :=
  match split_once "/" cidr with
  | Some (addr, prefix) =>
      p ← parse_u32 prefix; ip ← parse_ip addr; Some (ip, p)
  | None => ip ← parse_ip cidr; Some (ip, 128)
  end.

Definition in_net (net : IpAddr * Z) (ip : IpAddr) : Prop :=
  match net.1, ip with
  | V4 a, V4 b => same_prefix 32 (Z.min net.2 32) a b
  | V6 a, V6 b => same_prefix 128 (Z.min net.2 128) a b
  | _, _ => False
  end.

Lemma prefix_mask_spec w p i : 0 < w → 0 ≤ p → 0 ≤ i →
  Z.testbit (prefix_mask w p) i = (w - Z.min p w <=? i) && (i <? w).
Proof.
  intros Hw Hp Hi. unfold prefix_mask, sat_sub.
  case_match eqn:E; boolify.
  - rewrite Z.testbit_0_l. symmetry. apply andb_false_iff. lia.
  - replace (2 ^ w - 1) with (Z.ones w) by (rewrite Z.ones_equiv; lia).
    destruct (i <? w) eqn:Ei; boolify.
    + rewrite Z.mod_pow2_bits_low, Z.shiftl_spec by lia.
      rewrite andb_true_r.
      destruct (w - Z.min p w <=? i) eqn:Es; boolify.
      * rewrite Z.ones_spec_low by lia. done.
      * rewrite Z.testbit_neg_r by lia. done.
    + rewrite Z.mod_pow2_bits_high by lia. by rewrite andb_false_r.
Qed.

Lemma land_mask_eq w p x y :
  0 < w → 0 ≤ p → 0 ≤ x < 2 ^ w → 0 ≤ y < 2 ^ w →
  Z.land x (prefix_mask w p) = Z.land y (prefix_mask w p) ↔
  same_prefix w (Z.min p w) x y.
Proof.
  intros Hw Hp Hx Hy. unfold same_prefix. split.
  - intros H i Hi. apply (f_equal (λ z, Z.testbit z i)) in H.
    rewrite !Z.land_spec, !prefix_mask_spec in H by lia.
    assert (Hm : (w - Z.min p w <=? i) && (i <? w) = true) by lia.
    by rewrite Hm, !andb_true_r in H.
  - intros H. apply Z.bits_inj'. intros i Hi.
    rewrite !Z.land_spec, !prefix_mask_spec by lia.
    destruct ((w - Z.min p w <=? i) && (i <? w)) eqn:E; [|by rewrite !andb_false_r].
    rewrite H by lia. done.
Qed.

Lemma parse_digits_range s : ∀ acc p, is_u32 acc → parse_digits acc s = Some p → is_u32 p.
Proof.
  induction s as [|c s IH]; simpl; intros acc p Ha; [by intros [= <-]|].
  destruct (_ && _) eqn:E1; [|discriminate].
  destruct (_ <=? u32_max) eqn:E2; [|discriminate]. boolify.
  apply IH. unfold_ints. lia.
Qed.

Lemma parse_u32_range s p : parse_u32 s = Some p → is_u32 p.
Proof.
  unfold parse_u32. assert (is_u32 0) by (unfold_ints; lia).
  repeat case_match; try discriminate; eauto using parse_digits_range.
Qed.

Lemma full_mask_eq w x y : 0 < w → 0 ≤ x < 2 ^ w → 0 ≤ y < 2 ^ w →
  Z.land y (2 ^ w - 1) = x ↔ same_prefix w w x y.
Proof.
  intros Hw Hx Hy.
  replace (2 ^ w - 1) with (Z.ones w) by (rewrite Z.ones_equiv; lia).
  rewrite Z.land_ones, Z.mod_small by lia. split; [by intros ->|].
  intros H. apply Z.bits_inj'. intros i Hi. destruct (decide (i < w)).
  - symmetry. apply H. lia.
  - by rewrite !(testbit_high _ w) by lia.
Qed.

Section WhitelistLemmas.
Context (parse_ip : string → option IpAddr).
Context (parse_ip_ok : ∀ s ip, parse_ip s = Some ip → ip_ok ip).

Lemma masked_entry w x ip e net p :
  ip_ok ip →
  (match net with V4 a => 0 ≤ a < 2 ^ 32 | V6 a => 0 ≤ a < 2 ^ 128 end) →
  (match net with
   | V4 a => e = (Z.land a (prefix_mask 32 p), prefix_mask 32 p) ∧
             x = mkWhitelist (v4_entries w ++ [e]) (v6_entries w)
   | V6 a => e = (Z.land a (prefix_mask 128 p), prefix_mask 128 p) ∧
             x = mkWhitelist (v4_entries w) (v6_entries w ++ [e])
   end) → 0 ≤ p →
  whitelist_contains x ip = true ↔
  whitelist_contains w ip = true ∨ in_net (net, p) ip.
Proof.
  intros Hip Hnet Hx Hp.
  destruct net as [a|a], ip as [b|b]; destruct Hx as [-> ->]; simpl in *;
    try (rewrite existsb_app; simpl; rewrite orb_false_r, orb_true_iff, Z.eqb_eq);
    unfold_ints; unfold in_net; simpl; [| tauto | tauto |];
    rewrite <-land_mask_eq by lia; intuition congruence.
Qed.

Lemma add_cidr_contains w cidr ip : ip_ok ip →
  whitelist_contains (add_cidr parse_ip w cidr) ip = true ↔
  whitelist_contains w ip = true ∨
  ∃ net, cidr_net parse_ip cidr = Some net ∧ in_net net ip.
Proof.
  intros Hip. unfold add_cidr, cidr_net.
  destruct (split_once _ _) as [[addr pre]|].
  - destruct (parse_u32 pre) as [p|] eqn:Ep; simpl; [|rewrite ex_None; tauto].
    destruct (parse_ip addr) as [net|] eqn:Ea; simpl; [|rewrite ex_None; tauto].
    pose proof (parse_ip_ok _ _ Ea) as Hnet. apply parse_u32_range in Ep.
    rewrite ex_Some. unfold_ints. destruct net as [a|a]; simpl in Hnet; unfold_ints;
      eapply masked_entry; simpl; eauto; lia.
  - destruct (parse_ip cidr) as [net|] eqn:Ea; simpl; [|rewrite ex_None; tauto].
    pose proof (parse_ip_ok _ _ Ea) as Hnet.
    rewrite ex_Some.
    destruct net as [a|a], ip as [b|b]; simpl in *;
      try (rewrite existsb_app; simpl; rewrite orb_false_r, orb_true_iff, Z.eqb_eq);
      unfold in_net; simpl; [| tauto | tauto |]; unfold_ints.
    + rewrite <-(full_mask_eq 32 a b) by lia. tauto.
    + rewrite <-(full_mask_eq 128 a b) by lia. tauto.
Qed.

Lemma from_cidrs_contains_from w cidrs ip : ip_ok ip →
  whitelist_contains (foldl (add_cidr parse_ip) w cidrs) ip = true ↔
  whitelist_contains w ip = true ∨
  ∃ cidr net, cidr ∈ cidrs ∧ cidr_net parse_ip cidr = Some net ∧ in_net net ip.
Proof.
  intros Hip. revert w. induction cidrs as [|c cs IH]; intros w; simpl.
  - split; [by left|]. intros [?|(?&?&Hc&_)]; [done|]. by apply not_elem_of_nil in Hc.
  - rewrite IH, add_cidr_contains by done.
    setoid_rewrite elem_of_cons. split.
    + intros [[?|(net & ? & ?)]|(cidr & net & ? & ? & ?)]; [by left| |]; right; eauto 8.
    + intros [?|(cidr & net & [->|?] & ? & ?)]; eauto 8.
Qed.
End WhitelistLemmas.

(** ** The limiter: lemmas *)

Definition same_config (l l' : DnsRateLimiter) : Prop :=
  enabled l' = enabled l ∧ dry_run l' = dry_run l ∧ qps l' = qps l ∧
  burst l' = burst l ∧ nx_qps l' = nx_qps l ∧ grouping l' = grouping l ∧
  slip_ratio l' = slip_ratio l ∧ stale_ttl_ns l' = stale_ttl_ns l ∧
  whitelist l' = whitelist l.

Definition rates_ok (l : DnsRateLimiter) : Prop :=
  0 ≤ qps l ∧ 0 ≤ burst l ∧ 0 ≤ nx_qps l.

Lemma same_config_refl l : same_config l l.
Proof. done. Qed.

Lemma set_bucket_config l s k b : same_config l (set_bucket l s k b).
Proof. done. Qed.

Lemma over_budget_config l s : same_config l (over_budget l s).1.
Proof. unfold over_budget. repeat case_match; done. Qed.

Lemma over_budget_buckets l s s' : buckets (over_budget l s).1 s' = buckets l s'.
Proof. unfold over_budget. repeat case_match; done. Qed.

Lemma over_budget_not_allow l s : (over_budget l s).2 ≠ Allow.
Proof. unfold over_budget. repeat case_match; done. Qed.

Lemma buckets_set_bucket_eq l s k b : buckets (set_bucket l s k b) s !! k = Some b.
Proof. destruct s; simpl; apply lookup_insert_eq. Qed.

Lemma buckets_set_bucket_ne l s k b s' k' :
  (s', k') ≠ (s, k) → buckets (set_bucket l s k b) s' !! k' = buckets l s' !! k'.
Proof.
  intros Hne. destruct s, s'; simpl; try done;
    rewrite lookup_insert_ne; [done|congruence|done|congruence].
Qed.

(** What [spend] does: one bucket is charged, and the decision is [Allow]
    exactly when the charge was covered. *)
Lemma spend_spec l ip p f now :
  let s := stream_of p in
  let k := subnet_key (grouping l) ip in
  let b := default (bucket_new (burst l) (nx_qps l) now) (buckets l s !! k) in
  let '(l', d) := spend l ip p f now in
  same_config l l' ∧
  buckets l' s !! k = Some (f b now).1 ∧
  (∀ s' k', (s', k') ≠ (s, k) → buckets l' s' !! k' = buckets l s' !! k') ∧
  (d = Allow ↔ (f b now).2 = true).
Proof.
  intros s k b. unfold spend. fold s k b.
  destruct (f b now) as [b' ok]. simpl.
  destruct ok.
  - split; [done|]. split; [apply buckets_set_bucket_eq|].
    split; [by intros; apply buckets_set_bucket_ne|done].
  - pose proof (over_budget_config (set_bucket l s k b') s) as Hc.
    pose proof (over_budget_buckets (set_bucket l s k b') s) as Hb.
    pose proof (over_budget_not_allow (set_bucket l s k b') s) as Ha.
    destruct (over_budget _ _) as [l' d]. simpl in *.
    split; [done|]. rewrite !Hb. split; [apply buckets_set_bucket_eq|].
    split; [|split; [done|discriminate]].
    intros s' k' Hne. rewrite Hb. by apply buckets_set_bucket_ne.
Qed.

Lemma check_config l ip p now : same_config l (check l ip p now).1.
Proof.
  unfold check. do 2 (case_match; [done|]).
  match goal with |- context [spend l ip p ?f now] =>
    pose proof (spend_spec l ip p f now) as Hspend end.
  destruct (spend _ _ _ _ _). apply Hspend.
Qed.

(** The budget left to subnet [k] over transport [s] until [tmax], when its
    bucket is created no earlier than [tmin]. *)
Definition budget (tmin tmax : Z) (l : DnsRateLimiter) (s : bool) (k : Z) : Z :=
  match buckets l s !! k with
  | Some b => potential tmax (qps l) b
  | None => NS_PER_SEC * (burst l * MILLI) + (tmax - tmin) * qps l * MILLI
  end.

Definition bucket_in (tmax : Z) (l : DnsRateLimiter) (s : bool) (k : Z) : Prop :=
  match buckets l s !! k with
  | Some b => bucket_ok (burst l) (nx_qps l) b ∧ last_refill_ns b ≤ tmax
  | None => True
  end.

Lemma check_budget l ip p now tmin tmax k s :
  rates_ok l → enabled l = true → whitelist_contains (whitelist l) ip = false →
  tmin ≤ now ≤ tmax → bucket_in tmax l s k →
  let '(l', d) := check l ip p now in
  bucket_in tmax l' s k ∧
  budget tmin tmax l' s k
  + Z.b2z (bool_decide (subnet_key (grouping l) ip = k ∧ stream_of p = s ∧ d = Allow))
    * (NS_PER_SEC * MILLI) ≤ budget tmin tmax l s k.
Proof.
  intros (Hq & Hb & Hn) He Hw Hnow Hin.
  pose proof (spend_spec l ip p
    (λ b now_ns, try_consume b now_ns (qps l) (burst l) (nx_qps l)) now) as H.
  unfold check. rewrite He, Hw. simpl in *.
  destruct (spend _ _ _ _ _) as [l' d].
  destruct H as ((_ & _ & Eq & Eb & En & Eg & _) & Hk & Hne & Hd).
  unfold bucket_in, budget in *.
  destruct (decide ((s, k) = (stream_of p, subnet_key (grouping l) ip))) as [[= -> ->]|Hsk].
  - rewrite Hk, Eb, En, Eq. unfold potential in *.
    set (b := default _ _) in *.
    assert (Hb0 : bucket_ok (burst l) (nx_qps l) b ∧ last_refill_ns b ≤ tmax ∧
      potential tmax (qps l) b ≤ budget tmin tmax l (stream_of p) (subnet_key (grouping l) ip)).
    { subst b. unfold budget. destruct (buckets _ _ !! _) as [b|]; simpl.
      - destruct Hin. auto with lia.
      - split; [by apply bucket_new_ok|]. split; [lia|].
        unfold potential, bucket_new, NS_PER_SEC, MILLI. simpl. nia. }
    destruct Hb0 as (Hok & Hl & Hpot).
    pose proof (try_consume_potential b now (qps l) (burst l) (nx_qps l) tmax Hq Hb Hn Hok) as Hp.
    pose proof (try_consume_ok b now (qps l) (burst l) (nx_qps l) Hq Hb Hn Hok) as Hok'.
    pose proof (try_consume_last b now (qps l) (burst l) (nx_qps l)) as Hl'.
    unfold budget in Hpot.
    destruct (try_consume b now _ _ _) as [b' ok]. simpl in *.
    split; [split; [done|lia]|].
    destruct ok.
    + rewrite bool_decide_true by tauto. unfold potential in *. simpl in *.
      etransitivity; [|exact Hpot]. exact Hp.
    + rewrite bool_decide_false by (intros (_ & _ & E%Hd); discriminate E).
      unfold potential in *. simpl in *. etransitivity; [|exact Hpot]. exact Hp.
  - rewrite bool_decide_false by (intros (<- & <- & _); congruence). rewrite Hne by done.
    rewrite Eq, Eb, En. simpl. split; [done|lia].
Qed.

Lemma allowed_for_cons g s k q qs d ds :
  allowed_for g s k (q :: qs) (d :: ds) =
  Z.b2z (bool_decide (subnet_key g q.1.1 = k ∧ stream_of q.1.2 = s ∧ d = Allow))
  + allowed_for g s k qs ds.
Proof.
  unfold allowed_for. simpl. rewrite filter_cons. simpl.
  case_decide; [rewrite bool_decide_true by done|rewrite bool_decide_false by done];
    simpl; lia.
Qed.

Lemma budget_nonneg l tmin tmax s k :
  rates_ok l → tmin ≤ tmax → bucket_in tmax l s k → 0 ≤ budget tmin tmax l s k.
Proof.
  intros (Hq & Hb & Hn) Ht Hin. unfold bucket_in, budget in *.
  destruct (buckets _ _ !! _) as [b|].
  - destruct Hin as [[[??] _] ?]. unfold potential, NS_PER_SEC, MILLI in *. nia.
  - unfold NS_PER_SEC, MILLI. nia.
Qed.

Lemma check_run_budget qs : ∀ l tmin tmax k s,
  rates_ok l → enabled l = true → tmin ≤ tmax →
  Forall (λ q : query, whitelist_contains (whitelist l) q.1.1 = false ∧
                       tmin ≤ q.2 ≤ tmax) qs →
  bucket_in tmax l s k →
  allowed_for (grouping l) s k qs (check_run l qs).2 * (NS_PER_SEC * MILLI)
  ≤ budget tmin tmax l s k.
Proof.
  induction qs as [|[[ip p] now] qs IH]; intros l tmin tmax k s Hr He Ht Hall Hin; simpl.
  { by apply budget_nonneg. }
  apply Forall_cons_1 in Hall as [[Hw Hnow] Hall]. simpl in *.
  pose proof (check_budget l ip p now tmin tmax k s Hr He Hw Hnow Hin) as H.
  pose proof (check_config l ip p now) as Hc.
  destruct (check l ip p now) as [l1 d]. simpl in *.
  destruct H as [Hin' Hle].
  destruct Hc as (Ee & _ & Eq & Eb & En & Eg & _ & _ & Ew).
  specialize (IH l1 tmin tmax k s).
  unfold rates_ok in IH. rewrite Eq, Eb, En, Ee, Ew, Eg in IH.
  specialize (IH Hr He Ht Hall Hin').
  destruct (check_run l1 qs) as [l2 ds]. simpl in *.
  rewrite allowed_for_cons. simpl. lia.
Qed.

(** ** The interleaved decrement: lemmas *)

Definition dec_inv (c0 : Z) (st : dec_state) : Prop :=
  0 ≤ counter st ∧ counter st + MILLI * admitted (threads st) = c0 ∧
  (∀ i c, threads st !! i = Some (Loaded c) → MILLI ≤ c).

Lemma admitted_insert ts i t t' :
  ts !! i = Some t →
  admitted (<[i := t']> ts) + Z.b2z (bool_decide (t = Done true))
  = admitted ts + Z.b2z (bool_decide (t' = Done true)).
Proof.
  unfold admitted. revert i. induction ts as [|a ts IH]; intros [|i] Hi; simpl in *;
    try discriminate.
  - injection Hi as ->. rewrite !filter_cons.
    repeat case_decide; repeat case_bool_decide; simpl; try done; lia.
  - rewrite !filter_cons. specialize (IH i Hi).
    destruct (decide (a = Done true)); simpl; lia.
Qed.

Lemma dec_inv_step c0 st st' : dec_inv c0 st → CasStep st st' → dec_inv c0 st'.
Proof.
  intros (H0 & Hsum & Hld) Hstep.
  destruct Hstep as [c ts i Hi|c ts i Hi|c ts i cur Hi]; simpl in *;
    (split; [|split]); simpl;
    try (intros j c' Hj; destruct (decide (i = j)) as [<-|];
         [rewrite list_lookup_insert_eq in Hj by (apply lookup_lt_Some in Hi; lia)
         |rewrite list_lookup_insert_ne in Hj by done; eauto]);
    try match goal with |- _ + MILLI * admitted (<[_ := ?t']> _) = _ =>
      pose proof (admitted_insert ts i _ t' Hi) as Ha end; simpl in *.
  - lia.
  - destruct (c <? MILLI); simpl in *; lia.
  - destruct (c <? MILLI) eqn:E; [discriminate|]. boolify. injection Hj as <-. lia.
  - pose proof (Hld i c Hi). lia.
  - unfold MILLI in *. lia.
  - discriminate.
  - lia.
  - lia.
  - discriminate.
Qed.

(** ** Properties *)


(** Two queries of one subnet are allowed with a burst of two and no refill,
    the third one is refused; another subnet is not affected. *)
Definition demo_limiter : DnsRateLimiter :=
  limiter_new (λ _, None)
    (mkRateLimitConfig true 10 2 24 56 [] 3 0 false 300).
Definition demo_queries : list query :=
  [(V4 167772161, Some Udp, 0); (V4 167772162, None, 5); (V4 167772163, Some Udp, 9);
   (V4 167772417, Some Udp, 9); (V4 167772163, Some Tcp, 9)].


(** A subnet is never locked out for long: once the time since the last
    refill is worth one token, the next query is admitted, whatever the bucket
    held. *)
Theorem idle_bucket_admits (b : TokenBucket) (now qps burst nx_qps : Z) :
  bucket_ok burst nx_qps b → 1 ≤ burst →
  NS_PER_SEC ≤ sat_sub now (last_refill_ns b) * qps →
  sat_sub now (last_refill_ns b) * qps * MILLI / NS_PER_SEC + burst * MILLI ≤ u64_max →
  (try_consume b now qps burst nx_qps).2 = true.
Proof.
  intros [[Ht Hc] _] Hb Hrate Hfit. unfold try_consume, try_decrement, refill.
  set (e := sat_sub now (last_refill_ns b)) in *.
  set (m := e * qps * MILLI / NS_PER_SEC) in *.
  destruct (e =? 0) eqn:E; boolify; [rewrite E in Hrate; unfold NS_PER_SEC in Hrate; lia|].
  assert (Hm : MILLI ≤ m).
  { subst m. apply Z.div_le_lower_bound; unfold NS_PER_SEC, MILLI in *; lia. }
  simpl. unfold add_capped. unfold MILLI in *.
  rewrite (wrap64_small m), wrap64_small by (unfold_ints; lia).
  destruct (_ <? 1000) eqn:E'; [boolify; lia|done].
Qed.

Lemma idle_bucket_admits_witness :
  (try_consume (mkBucket 0 0 0) 100000000 10 1 3).2 = true.
Proof.
  apply idle_bucket_admits; try (vm_compute; discriminate).
  split; vm_compute; split; discriminate.
Defined.

(** Each of [times] follows the one before it, or [last], by less than the
    thousandth of a token's time. *)
Fixpoint polls_faster (last qps : Z) (times : list Z) : Prop :=
  match times with
  | [] => True
  | t :: times => last ≤ t ∧ (t - last) * qps < 1000000 ∧ polls_faster t qps times
  end.

(** The fixed point drops what is below a thousandth of a token at every
    refill, and the refill clock moves on regardless: an empty bucket that is
    polled faster than that stays empty for as long as the polling lasts. *)
Theorem fast_polling_starves (b : TokenBucket) (qps burst nx_qps : Z) (times : list Z) :
  0 ≤ qps → 0 ≤ nx_qps → 1 ≤ burst → 0 ≤ tokens_milli b < MILLI →
  polls_faster (last_refill_ns b) qps times →
  (consume_run b qps burst nx_qps times).2 = 0.
Proof.
  intros Hq Hn Hb. revert b. induction times as [|t times IH]; intros b Ht Hp; [done|].
  destruct Hp as (Hle & Hgap & Hp). simpl.
  pose proof (refill_too_soon b t qps burst nx_qps Hq Hn) as Hr.
  assert (Hr' : tokens_milli (refill b t qps burst nx_qps) = tokens_milli b)
    by (apply Hr; unfold MILLI in *; unfold_ints; lia).
  unfold try_consume, try_decrement. rewrite Hr'.
  rewrite (proj2 (Z.ltb_lt _ _)) by lia.
  specialize (IH (mkBucket (tokens_milli b)
    (last_refill_ns (refill b t qps burst nx_qps))
    (nxdomain_tokens_milli (refill b t qps burst nx_qps)))). simpl in IH.
  rewrite refill_last in IH |- *. rewrite Z.max_l in IH by lia.
  specialize (IH ltac:(lia) Hp). rewrite Z.max_l by lia.
  destruct (consume_run _ qps burst nx_qps times) as [b' n]. simpl in *. lia.
Qed.

(** At one query per second, a poll every half millisecond: two seconds pass
    without a token. *)
Lemma fast_polling_starves_witness :
  (consume_run (mkBucket 0 0 0) 1 5 3
    ((λ i, 500000 * Z.of_nat i) <$> seq 1 40)).2 = 0.
Proof.
  apply fast_polling_starves; try (vm_compute; split; congruence); try lia.
  simpl. repeat split; lia.
Defined.

(** Whatever the interleaving of the threads' loads, swaps and retries,
    the compare-and-swap loop hands out one token per thousand units of the
    counter and no more, and leaves the rest in it. *)
Theorem try_decrement_interleaved (c0 : Z) (n : nat) (st : dec_state) :
  0 ≤ c0 → rtc CasStep (mkDec c0 (replicate n Loading)) st →
  0 ≤ counter st ∧ counter st + MILLI * admitted (threads st) = c0.
Proof.
  intros H0 Hst.
  assert (Hinv : dec_inv c0 (mkDec c0 (replicate n Loading))).
  { split; [done|]. split; simpl.
    - unfold admitted. assert (base.filter (λ t, t = Done true) (replicate n Loading) = []) as ->.
      { clear. induction n as [|n IHn]; [done|]. simpl. rewrite filter_cons.
        by case_decide. }
      simpl. lia.
    - intros i c Hi. by apply lookup_replicate in Hi as [? _]. }
  assert (Hend : dec_inv c0 st); [|destruct Hend as (?&?&?); done].
  remember (mkDec c0 (replicate n Loading)) as st0. clear Heqst0.
  induction Hst; eauto using dec_inv_step.
Qed.

(** Two threads race for the one token of the counter: the loser retries and
    is refused. *)
Lemma try_decrement_interleaved_witness :
  0 ≤ 500 ∧ 500 + MILLI * admitted [Done true; Done false] = 1500.
Proof.
  apply (try_decrement_interleaved 1500 2 (mkDec 500 [Done true; Done false])); [lia|].
  eapply rtc_l; [apply (cas_load 1500 [Loading; Loading] 0); reflexivity|].
  eapply rtc_l; [apply (cas_load 1500 [Loaded 1500; Loading] 1); reflexivity|].
  eapply rtc_l; [apply (cas_swap 1500 [Loaded 1500; Loaded 1500] 0); reflexivity|].
  eapply rtc_l; [apply (cas_retry 500 [Done true; Loaded 1500] 1 1500); reflexivity|].
  eapply rtc_l; [apply (cas_load 500 [Done true; Loading] 1); reflexivity|].
  apply rtc_refl.
Defined.

(** Two clients share a budget exactly when they are of one address
    family and agree on the configured prefix; IPv4 and IPv6 clients never
    share one. *)
Theorem subnet_key_groups (p4 p6 : Z) (x y : IpAddr) :
  0 ≤ p4 → 0 ≤ p6 ≤ 63 → ip_ok x → ip_ok y →
  subnet_key (grouping_new p4 p6) x = subnet_key (grouping_new p4 p6) y
  ↔ same_subnet p4 p6 x y.
Proof.
  intros H4 H6 Hx Hy.
  assert (Hs : 0 ≤ v4_shift (grouping_new p4 p6) ≤ 32) by (simpl; lia).
  destruct x as [a|a], y as [b|b]; simpl ip_ok in *; unfold_ints.
  - simpl. rewrite (shiftr_eq_prefix 32) by lia.
    replace (32 - (32 - Z.min p4 32)) with (Z.min p4 32) by lia. done.
  - split; [|done]. intros H. exfalso. revert H. simpl.
    pose proof (v6_key_high b p6 H6 ltac:(lia)) as [Hh ?]. simpl in Hh.
    rewrite Hh. apply (v4_key_not_v6 (grouping_new p4 p6)); unfold_ints; lia.
  - split; [|done]. intros H. exfalso. symmetry in H. revert H. simpl.
    pose proof (v6_key_high a p6 H6 ltac:(lia)) as [Hh ?]. simpl in Hh.
    rewrite Hh. apply (v4_key_not_v6 (grouping_new p4 p6)); unfold_ints; lia.
  - pose proof (v6_key_high a p6 H6 ltac:(lia)) as [Ha ?]. simpl in Ha.
    pose proof (v6_key_high b p6 H6 ltac:(lia)) as [Hb ?]. simpl in Hb.
    simpl. rewrite Ha, Hb.
    replace (Z.min p6 64) with (128 - (128 - p6)) by lia.
    rewrite <-(shiftr_eq_prefix 128) by lia. split; [|by intros ->].
    intros Hk. by rewrite <-(lor_tag (Z.shiftr a (128 - p6))), Hk, lor_tag by lia.
Qed.

Lemma subnet_key_groups_witness :
  subnet_key (grouping_new 24 56) (V4 3232235786) = subnet_key (grouping_new 24 56) (V4 3232235976)
  ∧ ¬ same_subnet 24 56 (V4 3232235786) (V4 3232236042).
Proof.
  split; [reflexivity|].
  rewrite <-(subnet_key_groups 24 56 (V4 3232235786) (V4 3232236042)); try lia;
    try (vm_compute; split; discriminate). vm_compute. discriminate.
Defined.

(** An address is whitelisted exactly when some entry of the configuration
    parses to a network it belongs to, and malformed entries are skipped; the
    prefix length is capped at the address width. *)
Theorem from_cidrs_contains (parse_ip : string → option IpAddr)
    (cidrs : list string) (ip : IpAddr) :
  (∀ s ip, parse_ip s = Some ip → ip_ok ip) → ip_ok ip →
  whitelist_contains (from_cidrs parse_ip cidrs) ip = true ↔
  ∃ cidr net, cidr ∈ cidrs ∧ cidr_net parse_ip cidr = Some net ∧ in_net net ip.
Proof.
  intros Hp Hip. unfold from_cidrs. rewrite from_cidrs_contains_from by done.
  split; [intros [H|?]; [|done]|by right]. by destruct ip.
Qed.

Definition demo_parse (s : string) : option IpAddr :=
  if String.eqb s "127.0.0.0" then Some (V4 2130706432) else None.

Lemma from_cidrs_contains_witness :
  whitelist_contains (from_cidrs demo_parse ["bad/9"; "127.0.0.0/8"]%string) (V4 2147483647) = true
  ∧ ∃ cidr net, cidr ∈ ["bad/9"; "127.0.0.0/8"]%string ∧
      cidr_net demo_parse cidr = Some net ∧ in_net net (V4 2147483647).
Proof.
  split; [reflexivity|].
  apply (from_cidrs_contains demo_parse ["bad/9"; "127.0.0.0/8"]%string (V4 2147483647));
    [|vm_compute; split; discriminate|reflexivity].
  unfold demo_parse. intros s ip. destruct (String.eqb _ _); [|discriminate].
  intros [= <-]. vm_compute. split; discriminate.
Defined.

(** The fast path's peek is sound: when it lets a UDP client through, the
    authoritative check at the same instant allows the query. *)
Theorem is_allowed_sound (l : DnsRateLimiter) (ip : IpAddr) (now : Z) :
  rates_ok l → 1 ≤ burst l ≤ u32_max →
  (∀ b, udp_buckets l !! subnet_key (grouping l) ip = Some b →
     bucket_ok (burst l) (nx_qps l) b ∧
     sat_sub now (last_refill_ns b) * qps l * MILLI / NS_PER_SEC + burst l * MILLI ≤ u64_max) →
  is_allowed l ip = true → (check l ip (Some Udp) now).2 = Allow.
Proof.
  intros (Hq & Hb0 & Hn) Hb Hbuckets. unfold is_allowed, check.
  destruct (enabled l); simpl; [|done].
  destruct (whitelist_contains _ _); [done|]. intros Hpeek.
  pose proof (spend_spec l ip (Some Udp)
    (λ b now_ns, try_consume b now_ns (qps l) (burst l) (nx_qps l)) now) as H.
  simpl in *. destruct (spend _ _ _ _ _) as [l' d]. destruct H as (_ & _ & _ & Hd).
  simpl. apply Hd. clear Hd.
  destruct (udp_buckets l !! _) as [b|]; simpl.
  - destruct (Hbuckets b eq_refl) as [[[Ht Hc] _] Hfit].
    unfold has_tokens in Hpeek. boolify.
    unfold try_consume, try_decrement, refill.
    set (e := sat_sub now (last_refill_ns b)) in *.
    destruct (e =? 0) eqn:E; simpl.
    + rewrite (proj2 (Z.ltb_ge _ _)) by done. done.
    + pose proof (rate_bounds e (qps l) ltac:(subst e; unfold sat_sub; lia) Hq) as [Hm _].
      set (m := e * qps l * MILLI / NS_PER_SEC) in *.
      unfold add_capped, MILLI in *.
      rewrite (wrap64_small m), wrap64_small by (unfold_ints; lia).
      rewrite (proj2 (Z.ltb_ge _ _)) by lia. done.
  - unfold try_consume, try_decrement, refill, bucket_new, sat_sub. simpl.
    rewrite Z.max_l by lia. simpl. unfold MILLI.
    rewrite (proj2 (Z.ltb_ge _ _)) by lia. done.
Qed.

Lemma is_allowed_sound_witness :
  (check demo_limiter (V4 167772161) (Some Udp) 77).2 = Allow.
Proof.
  apply is_allowed_sound; try reflexivity.
  - vm_compute. repeat split; discriminate.
  - vm_compute. split; discriminate.
  - intros b Hb. discriminate Hb.
Defined.

(** Over budget, a dry run only signals, a stream client is refused, and a
    UDP client is slipped at every [slip_ratio]-th decision and refused at the
    others, counting from the limiter's counter. *)
Theorem over_budget_slips (l : DnsRateLimiter) (stream : bool) (n i : nat) :
  (i < n)%nat → is_u64 (slip_counter l) →
  over_budget_run l stream n !! i =
  Some (if dry_run l then DryRunWouldRefuse
        else if (0 <? slip_ratio l) && negb stream
             then if wrap64 (slip_counter l + Z.of_nat i) mod slip_ratio l =? 0
                  then Slip else Refuse
             else Refuse).
Proof.
  revert l i. induction n as [|n IH]; intros l i Hi Hc; [lia|].
  simpl. unfold over_budget at 1.
  destruct i as [|i].
  - rewrite Z.add_0_r, (wrap64_small (slip_counter l)) by done.
    repeat case_match; simplify_eq; reflexivity.
  - destruct (dry_run l) eqn:Ed; simpl.
    { by rewrite IH, Ed by (done || lia). }
    destruct ((0 <? slip_ratio l) && negb stream) eqn:Es; simpl.
    + set (l1 := set_slip_counter l (wrap64 (slip_counter l + 1))).
      assert (H1 : over_budget_run l1 stream n !! i =
        Some (if wrap64 (slip_counter l + Z.of_nat (S i)) mod slip_ratio l =? 0
              then Slip else Refuse)).
      { rewrite IH by (try lia; apply wrap64_range). subst l1. simpl. rewrite Ed, Es.
        f_equal. unfold wrap64. rewrite Z.add_mod_idemp_l by done.
        by replace (slip_counter l + 1 + Z.of_nat i) with (slip_counter l + Z.of_nat (S i)) by lia. }
      destruct (slip_counter l mod slip_ratio l =? 0); simpl; exact H1.
    + by rewrite IH, Ed, Es by (done || lia).
Qed.

Lemma over_budget_slips_witness :
  over_budget_run (limiter_new (λ _, None)
    (mkRateLimitConfig true 10 2 24 56 [] 3 2 false 300)) false 3 !! 2%nat = Some Slip.
Proof.
  rewrite over_budget_slips; [reflexivity|lia|vm_compute; split; discriminate].
Defined.
