(* ===== verification/SuffixTrie.v ===== *)
(** Suffix rules: [infrastructure/src/dns/block_filter/suffix_trie.rs].

    A rule on [*.example.com] covers every name below [example.com], not the
    name itself.  The trie is keyed on the labels from the right. *)

From S2P Require Import Prelude Text.

Definition DOT : Z := 46.

(** ** The trie *)

Inductive TrieNode := Node (children : gmap str TrieNode) (wildcard_mask : Z).
Definition children (n : TrieNode) : gmap str TrieNode := let 'Node ch _ := n in ch.
Definition wildcard_mask (n : TrieNode) : Z := let 'Node _ m := n in m.
Definition node_default : TrieNode := Node ∅ 0.

Record SuffixTrie := mkTrie { root : TrieNode; trie_len : nat }.
Definition trie_default : SuffixTrie := mkTrie node_default 0.

Definition trie_is_empty (t : SuffixTrie) : bool := bool_decide (children (root t) = ∅).

(** The suffix a rule is on. *)
Definition suffix_of (pattern : str) : str := default pattern (strip_prefix [42; 46] pattern).

Fixpoint insert_labels (labels : list str) (source_mask : Z) (node : TrieNode) : TrieNode * bool :=
  match labels with
  | [] => (Node (children node) (Z.lor (wildcard_mask node) source_mask), wildcard_mask node =? 0)
  | label :: labels =>
      let child := default node_default (children node !! label) in
      let '(child, is_new) := insert_labels labels source_mask child in
      (Node (<[label := child]> (children node)) (wildcard_mask node), is_new)
  end.

Definition insert_wildcard (t : SuffixTrie) (pattern : str) (source_mask : Z) : SuffixTrie * bool :=
  let domain := suffix_of pattern in
  let '(r, is_new) := insert_labels (rev (split DOT domain)) source_mask (root t) in
  (mkTrie r (if is_new : bool then S (trie_len t) else trie_len t), is_new).

Fixpoint lookup_labels (node : TrieNode) (labels : list str) (i n : nat) (result : Z) : Z :=
  match labels with
  | [] => result
  | label :: labels =>
      match children node !! label with
      | Some child =>
          let result :=
            if negb (wildcard_mask child =? 0) && (i + 1 <? n)%nat
            then Z.lor result (wildcard_mask child) else result in
          lookup_labels child labels (S i) n result
      | None => result
      end
  end.

Definition trie_lookup (t : SuffixTrie) (domain : str) : Z :=
  let labels := rev (split DOT domain) in
  lookup_labels (root t) labels 0 (length labels) 0.

(** ** What a rule covers *)

Definition is_below (domain suffix : str) : Prop := ∃ p, domain = p ++ DOT :: suffix.

Lemma is_below_labels d s :
  is_below d s ↔ ∃ p, p ≠ [] ∧ rev (split DOT d) = rev (split DOT s) ++ p.
Proof.
  split.
  - intros [p ->]. exists (rev (split DOT p)). rewrite split_app, rev_app_distr. split; [|done].
    intros E. apply (f_equal (@rev str)) in E. rewrite rev_involutive in E. by apply split_at_not_nil in E.
  - intros (p & Hp & E). apply (f_equal (@rev str)) in E. rewrite rev_app_distr, !rev_involutive in E.
    exists (join [DOT] (rev p)). apply split_suffix in E as [E _]; [done|].
    intros Er. apply (f_equal (@rev str)) in Er. by rewrite rev_involutive in Er.
Qed.

Lemma is_below_ends d s : is_below d s ↔ ends_with (DOT :: s) d = true.
Proof. symmetry. apply ends_with_spec. Qed.

#[export] Instance is_below_dec d s : Decision (is_below d s).
Proof.
  destruct (ends_with (DOT :: s) d) eqn:E; [left|right]; rewrite is_below_ends; congruence.
Defined.

(** ** Lemmas *)

(** The mask at the end of a path. *)
Fixpoint mask_at (node : TrieNode) (path : list str) : Z :=
  match path with
  | [] => wildcard_mask node
  | label :: path => mask_at (default node_default (children node !! label)) path
  end.

Lemma mask_at_default path : mask_at node_default path = 0.
Proof. induction path as [|l path IH]; simpl; [done|]. by rewrite lookup_empty. Qed.

Lemma insert_labels_spec labels m node :
  let '(node', is_new) := insert_labels labels m node in
  is_new = (mask_at node labels =? 0) ∧
  (∀ path, mask_at node' path = if decide (path = labels) then Z.lor (mask_at node path) m else mask_at node path) ∧
  (labels ≠ [] → children node' ≠ ∅).
Proof.
  revert node. induction labels as [|l labels IH]; intros node; simpl.
  - split_and!; [done| |done]. intros [|x path]; [by rewrite decide_True|by rewrite decide_False].
  - specialize (IH (default node_default (children node !! l))).
    destruct (insert_labels _ _ _) as [child is_new]. destruct IH as (-> & IH & _).
    split_and!; [done| |intros _; simpl; apply insert_non_empty].
    intros [|x path]; [by rewrite decide_False|]. cbn [mask_at children].
    destruct (decide (x = l)) as [->|Hx].
    + rewrite lookup_insert_eq. simpl. rewrite IH.
      destruct (decide (path = labels)) as [->|Hp], (decide _) as [Hd|Hd]; try done; congruence.
    + rewrite lookup_insert_ne by done. destruct (decide _) as [Hd|_]; [congruence|done].
Qed.

Fixpoint proper_masks (node : TrieNode) (labels : list str) : Z :=
  match labels with
  | [] | [_] => 0
  | label :: labels =>
      match children node !! label with
      | Some child => Z.lor (wildcard_mask child) (proper_masks child labels)
      | None => 0
      end
  end.

Lemma lookup_labels_proper labels : ∀ node i n r, (i + length labels = n)%nat →
  lookup_labels node labels i n r = Z.lor r (proper_masks node labels).
Proof.
  induction labels as [|l labels IH]; intros node i n r Hn; cbn [lookup_labels].
  { by rewrite Z.lor_0_r. }
  cbn [length] in Hn. destruct labels as [|l' labels]; cbn [proper_masks].
  - destruct (children node !! l); [|by rewrite Z.lor_0_r]. cbn [lookup_labels length] in *.
    rewrite (proj2 (Nat.ltb_ge (i + 1) n)) by lia. by rewrite andb_false_r, Z.lor_0_r.
  - destruct (children node !! l) as [child|]; [|by rewrite Z.lor_0_r].
    rewrite IH by (cbn [length] in *; lia). cbn [length] in Hn.
    rewrite (proj2 (Nat.ltb_lt (i + 1) n)), andb_true_r by lia.
    destruct (Z.eqb_spec (wildcard_mask child) 0) as [->|]; simpl; [done|]. by rewrite Z.lor_assoc.
Qed.

Lemma proper_masks_bit labels : ∀ node i,
  Z.testbit (proper_masks node labels) i = true ↔
  ∃ path rest, path ≠ [] ∧ rest ≠ [] ∧ labels = path ++ rest ∧ Z.testbit (mask_at node path) i = true.
Proof.
  induction labels as [|l labels IH]; intros node i.
  { cbn [proper_masks]. rewrite Z.bits_0. split; [done|].
    intros (p & r & Hp & _ & E & _). by destruct p. }
  destruct labels as [|l' labels].
  { cbn [proper_masks]. rewrite Z.bits_0. split; [done|]. intros (p & r & Hp & Hr & E & _).
    destruct p as [|x [|]], r; done. }
  set (ls := l' :: labels) in *.
  change (proper_masks node (l :: ls)) with (match children node !! l with
    | Some child => Z.lor (wildcard_mask child) (proper_masks child ls) | None => 0 end).
  assert (Hmask : ∀ path, mask_at node (l :: path) =
    match children node !! l with Some child => mask_at child path | None => 0 end).
  { intros path. simpl. destruct (children node !! l); [done|]. apply mask_at_default. }
  split.
  - destruct (children node !! l) as [child|] eqn:E; [|by rewrite Z.bits_0].
    rewrite Z.lor_spec, orb_true_iff, IH. intros [Hb|(p & r & Hp & Hr & El & Hb)].
    + exists [l], ls. by rewrite Hmask.
    + exists (l :: p), r. rewrite Hmask. by rewrite El.
  - intros (p & r & Hp & Hr & El & Hb). destruct p as [|x p]; [done|]. injection El as <- El.
    rewrite Hmask in Hb. destruct (children node !! l) as [child|]; [|by rewrite Z.bits_0 in Hb].
    rewrite Z.lor_spec, orb_true_iff, IH. destruct p as [|y p]; [by left|right].
    by exists (y :: p), r.
Qed.

(** *** A trie and the rules it holds *)

Definition Rule : Type := str * Z.

Definition trie_add (t : SuffixTrie) (r : Rule) : SuffixTrie := (insert_wildcard t r.1 r.2).1.
Definition trie_of (rules : list Rule) : SuffixTrie := foldl trie_add trie_default rules.

(** The bits of the rules on exactly [suffix]. *)
Definition bits_on (rules : list Rule) (suffix : str) : Z :=
  foldr (λ r acc, if decide (suffix_of r.1 = suffix) then Z.lor r.2 acc else acc) 0 rules.

Definition suffix_names (rules : list Rule) : list str := (λ r, suffix_of r.1) <$> rules.

Record holds_rules (t : SuffixTrie) (rules : list Rule) : Prop := {
  hr_mask s : mask_at (root t) (rev (split DOT s)) = bits_on rules s;
  hr_other path : (∀ s, path ≠ rev (split DOT s)) → mask_at (root t) path = 0;
  hr_empty : trie_is_empty t = bool_decide (rules = []);
}.

Lemma bits_on_app rules rules' s : bits_on (rules ++ rules') s = Z.lor (bits_on rules s) (bits_on rules' s).
Proof.
  induction rules as [|r rules IH]; simpl; [done|]. rewrite IH. case_decide; [|done]. by rewrite Z.lor_assoc.
Qed.

Lemma rev_split_inj s s' : rev (split DOT s) = rev (split DOT s') → s = s'.
Proof. intros E. apply (f_equal (@rev str)) in E. rewrite !rev_involutive in E. by apply (inj _) in E. Qed.

Lemma insert_wildcard_holds t rules pattern m :
  holds_rules t rules →
  let '(t', is_new) := insert_wildcard t pattern m in
  holds_rules t' (rules ++ [(pattern, m)]) ∧
  is_new = (bits_on rules (suffix_of pattern) =? 0) ∧
  trie_len t' = if is_new then S (trie_len t) else trie_len t.
Proof.
  intros [Hm Ho He]. unfold insert_wildcard.
  pose proof (insert_labels_spec (rev (split DOT (suffix_of pattern))) m (root t)) as Hs.
  destruct (insert_labels _ _ _) as [r is_new]. destruct Hs as (-> & Hs & Hne). rewrite Hm.
  split; [|done]. split; cbn [root].
  - intros s. rewrite Hs, Hm, bits_on_app. simpl. rewrite Z.lor_0_r.
    destruct (decide (suffix_of pattern = s)) as [<-|Hn]; [by rewrite decide_True|].
    rewrite decide_False, Z.lor_0_r; [done|]. intros E. by apply rev_split_inj in E as ->.
  - intros path Hp. rewrite Hs, decide_False by apply Hp. by apply Ho.
  - rewrite (bool_decide_eq_false_2 (rules ++ _ = [])) by (by destruct rules).
    apply bool_decide_eq_false_2. apply Hne. intros E. apply (f_equal (@rev str)) in E.
    rewrite rev_involutive in E. by apply split_at_not_nil in E.
Qed.

Lemma trie_default_holds : holds_rules trie_default [].
Proof. split; [intros s; apply mask_at_default|intros path _; apply mask_at_default|done]. Qed.

Lemma trie_of_app rules r : trie_of (rules ++ [r]) = trie_add (trie_of rules) r.
Proof. unfold trie_of. by rewrite foldl_app. Qed.

Lemma trie_of_holds rules : holds_rules (trie_of rules) rules.
Proof.
  induction rules as [|r rules IH] using rev_ind; [apply trie_default_holds|].
  rewrite trie_of_app. pose proof (insert_wildcard_holds _ _ r.1 r.2 IH) as Hi. unfold trie_add.
  destruct (insert_wildcard _ _ _). destruct Hi as [Hi _]. by destruct r.
Qed.

Lemma bits_on_bit rules s i :
  Z.testbit (bits_on rules s) i = true ↔ ∃ r, r ∈ rules ∧ suffix_of r.1 = s ∧ Z.testbit r.2 i = true.
Proof.
  induction rules as [|r rules IH]; simpl.
  { rewrite Z.bits_0. split; [done|]. intros (r & Hr & _). by apply not_elem_of_nil in Hr. }
  case_decide as Hs.
  - rewrite Z.lor_spec, orb_true_iff, IH. split.
    + intros [Hb|(x & Hx & Hb)]; [exists r; split; [by left|done]|exists x; split; [by right|done]].
    + intros (x & [->|Hx]%elem_of_cons & Hb1 & Hb2); [by left|right; by exists x].
  - rewrite IH. split.
    + intros (x & Hx & Hb). exists x. split; [by right|done].
    + intros (x & [->|Hx]%elem_of_cons & Hb1 & Hb2); [done|]. by exists x.
Qed.

Lemma holds_rules_lookup_bit t rules d i : holds_rules t rules →
  Z.testbit (trie_lookup t d) i = true ↔
  ∃ r, r ∈ rules ∧ is_below d (suffix_of r.1) ∧ Z.testbit r.2 i = true.
Proof.
  intros [Hm Ho _]. unfold trie_lookup. rewrite lookup_labels_proper, Z.lor_0_l, proper_masks_bit by done.
  split.
  - intros (p & rest & Hp & Hrest & El & Hb).
    destruct (decide (p = rev (split DOT (join [DOT] (rev p))))) as [Ep|Hn].
    + rewrite Ep, Hm, bits_on_bit in Hb. destruct Hb as (r & Hr & Hs & Hb).
      exists r. split_and!; try done. rewrite Hs. apply is_below_labels. exists rest. by rewrite <-Ep.
    + rewrite Ho, Z.bits_0 in Hb; [done|]. intros s Es. apply Hn. by rewrite Es, rev_involutive, join_split.
  - intros (r & Hr & Hb & Hbit). apply is_below_labels in Hb as (rest & Hrest & El).
    exists (rev (split DOT (suffix_of r.1))), rest. split_and!; try done.
    + intros E. apply (f_equal (@rev str)) in E. rewrite rev_involutive in E. by apply split_at_not_nil in E.
    + rewrite Hm, bits_on_bit. by exists r.
Qed.

(** Bits of rules below a name, declared. *)
Definition bits_below (rules : list Rule) (d : str) : Z :=
  foldr (λ r acc, if decide (is_below d (suffix_of r.1)) then Z.lor r.2 acc else acc) 0 rules.

Lemma bits_below_bit rules d i :
  Z.testbit (bits_below rules d) i = true ↔
  ∃ r, r ∈ rules ∧ is_below d (suffix_of r.1) ∧ Z.testbit r.2 i = true.
Proof.
  induction rules as [|r rules IH]; simpl.
  { rewrite Z.bits_0. split; [done|]. intros (r & Hr & _). by apply not_elem_of_nil in Hr. }
  case_decide as Hs.
  - rewrite Z.lor_spec, orb_true_iff, IH. split.
    + intros [Hb|(x & Hx & Hb)]; [exists r; split; [by left|done]|exists x; split; [by right|done]].
    + intros (x & [->|Hx]%elem_of_cons & Hb1 & Hb2); [by left|right; by exists x].
  - rewrite IH. split.
    + intros (x & Hx & Hb). exists x. split; [by right|done].
    + intros (x & [->|Hx]%elem_of_cons & Hb1 & Hb2); [done|]. by exists x.
Qed.

Lemma testbit_ext a b : (∀ i, Z.testbit a i = true ↔ Z.testbit b i = true) → a = b.
Proof.
  intros Hab. apply Z.bits_inj. intros i. specialize (Hab i).
  destruct (Z.testbit a i), (Z.testbit b i); try done; destruct Hab as [H1 H2]; [symmetry; by apply H1|by apply H2].
Qed.

Lemma holds_rules_lookup t rules d : holds_rules t rules → trie_lookup t d = bits_below rules d.
Proof.
  intros Ht. apply testbit_ext. intros i. by rewrite (holds_rules_lookup_bit _ _ _ _ Ht), bits_below_bit.
Qed.

Lemma bits_on_zero rules s : Forall (λ r : Rule, r.2 ≠ 0) rules →
  bits_on rules s = 0 ↔ s ∉ suffix_names rules.
Proof.
  induction 1 as [|r rules Hr _ IH]; simpl; [split; [intros _; apply not_elem_of_nil|done]|].
  rewrite not_elem_of_cons, <-IH. case_decide as Hs.
  - rewrite Z.lor_eq_0_iff. naive_solver.
  - naive_solver.
Qed.

Lemma trie_len_spec rules : Forall (λ r : Rule, r.2 ≠ 0) rules →
  trie_len (trie_of rules) = size (list_to_set (suffix_names rules) : gset str).
Proof.
  induction rules as [|r rules IH] using rev_ind; intros Hnz; [done|].
  apply Forall_app in Hnz as [Hnz Hr]. rewrite trie_of_app. unfold trie_add.
  pose proof (insert_wildcard_holds _ _ r.1 r.2 (trie_of_holds rules)) as Hi.
  destruct (insert_wildcard _ _ _) as [t is_new]. destruct Hi as (_ & -> & Hl). simpl. rewrite Hl.
  unfold suffix_names. rewrite fmap_app, list_to_set_app_L. simpl. rewrite union_empty_r_L.
  destruct (Z.eqb_spec (bits_on rules (suffix_of r.1)) 0) as [E|E].
  - rewrite bits_on_zero in E by done. rewrite size_union.
    + rewrite size_singleton, IH by done. unfold suffix_names. lia.
    + intros x Hx Hx'. apply elem_of_singleton in Hx' as ->. by apply elem_of_list_to_set in Hx.
  - rewrite bits_on_zero in E by done. apply dec_stable in E. rewrite IH by done. f_equal.
    symmetry. rewrite (union_comm_L _ {[_]}). apply subseteq_union_1_L. intros x Hx. apply elem_of_singleton in Hx as ->.
    by apply elem_of_list_to_set.
Qed.

(** ** Properties *)

(** Whatever rules went in, a lookup returns the bits of exactly those on a
    suffix the name is below, so a rule never covers its own apex nor a name
    that merely ends in the same letters; the trie is empty only without rules
    and counts each suffix once. *)
Theorem suffix_trie_spec (rules : list Rule) (d : str) :
  Forall (λ r : Rule, r.2 ≠ 0) rules →
  let t := trie_of rules in
  (∀ i, Z.testbit (trie_lookup t d) i = true ↔
     ∃ r, r ∈ rules ∧ is_below d (suffix_of r.1) ∧ Z.testbit r.2 i = true) ∧
  trie_is_empty t = bool_decide (rules = []) ∧
  trie_len t = size (list_to_set (suffix_names rules) : gset str).
Proof.
  intros Hnz t. split; [|split; [apply hr_empty, trie_of_holds|by apply trie_len_spec]].
  intros i. apply holds_rules_lookup_bit, trie_of_holds.
Qed.

(** [*.b.c], [b.c] from another source, and [*.c]. *)
Definition demo_rules : list Rule := [([42; 46; 98; 46; 99], 1); ([98; 46; 99], 2); ([42; 46; 99], 4)].

Lemma suffix_trie_spec_witness :
  trie_lookup (trie_of demo_rules) [97; 46; 98; 46; 99] = 7 ∧
  trie_lookup (trie_of demo_rules) [98; 46; 99] = 4 ∧
  trie_len (trie_of demo_rules) = 2%nat ∧
  (∃ r, r ∈ demo_rules ∧ is_below [98; 46; 99] (suffix_of r.1) ∧ Z.testbit r.2 2 = true).
Proof.
  destruct (suffix_trie_spec demo_rules [98; 46; 99]) as (Hl & _ & Hlen);
    [repeat constructor; discriminate|].
  split_and!; try (vm_compute; reflexivity). apply Hl. vm_compute. reflexivity.
Defined.
