(* ===== verification/Schedule.v ===== *)
(** Schedules: [domain/src/entities/schedule.rs], the store of overrides
    [infrastructure/src/schedule/state_store.rs] and the job that fills it,
    [jobs/src/schedule_evaluator.rs].

    Times and zones are values of the [chrono] crates: the class [Chrono] says
    what the code asks of them. *)

From Stdlib Require Import String.
From stdpp Require Import pretty.
From S2P Require Import Prelude Errors Text.

#[local] Set Default Proof Using "Type".

(** ** Times *)

Class Chrono := {
  NaiveTime : Type;
  NaiveDateTime : Type;
  Tz : Type;
  (** The place of a time in their order: nanoseconds since midnight. *)
  nanos : NaiveTime → Z;
  from_hms_opt : Z → Z → Z → option NaiveTime;
  format_hm : NaiveTime → str;
  num_days_from_monday : NaiveDateTime → Z;
  time_of : NaiveDateTime → NaiveTime;
  tz_parse : str → option Tz;
  from_hms_spec h m s : 0 ≤ h → 0 ≤ m → 0 ≤ s →
    if bool_decide (h < 24 ∧ m < 60 ∧ s < 60)
    then ∃ t, from_hms_opt h m s = Some t ∧ nanos t = ((h * 60 + m) * 60 + s) * 1000000000
    else from_hms_opt h m s = None;
  num_days_range d : 0 ≤ num_days_from_monday d < 7;
}.

(** ** Slots *)

Inductive ScheduleAction := BlockAllSlot | AllowAllSlot.

#[export] Instance ScheduleAction_eq_dec : EqDecision ScheduleAction.
Proof. solve_decision. Defined.

Definition schedule_action_to_str (a : ScheduleAction) : string :=
  match a with BlockAllSlot => "block_all" | AllowAllSlot => "allow_all" end.
Definition schedule_action_from_str (s : string) : DomainError + ScheduleAction :=
  if bool_decide (s = "block_all") then inr BlockAllSlot
  else if bool_decide (s = "allow_all") then inr AllowAllSlot
  else inl (Error.InvalidInput ("unknown schedule action: '" +:+ s +:+ "'")).

Inductive GroupOverride := OvBlockAll | OvAllowAll | TimedBypassUntil (t : Z) | TimedBlockUntil (t : Z).

#[export] Instance GroupOverride_eq_dec : EqDecision GroupOverride.
Proof. solve_decision. Defined.

(** [exceeds_chars]: the bytes that do not continue a character are counted. *)
Definition char_count (value : str) : nat :=
  length (List.filter (λ b, negb ((128 <=? b) && (b <? 192))) value).
Definition exceeds_chars (value : str) (max : nat) : bool :=
  (max <? length value)%nat && (max <? char_count value)%nat.

Section slots.
Context `{Chrono}.

Record ScheduleProfile := mkProfile { sp_id : option Z; sp_name : str; timezone : Tz }.
Record TimeSlot := mkSlot {
  profile_id : Z; days : Z; start_time : NaiveTime; end_time : NaiveTime; slot_action : ScheduleAction;
}.

Definition profile_validate_name (name : str) : str + unit :=
  if bool_decide (name = []) then inl (of_string "name cannot be empty")
  else if exceeds_chars name 100 then inl (of_string "name cannot exceed 100 characters")
  else inr tt.

Definition parse_timezone (tz : str) : str + Tz :=
  if bool_decide (tz = []) then inl (of_string "timezone cannot be empty")
  else match tz_parse tz with
       | Some t => inr t
       | None => inl (of_string "unknown IANA timezone '" ++ tz ++ of_string "'")
       end.

Definition validate_days (days : Z) : str + unit :=
  if days =? 0 then inl (of_string "at least one day must be selected")
  else if 127 <? days then inl (of_string "days bitmask must be 1–127, got " ++ of_string (pretty days))
  else inr tt.

Definition is_ascii_digit (b : Z) : bool := (48 <=? b) && (b <=? 57).

Definition parse_time (time : str) : str + NaiveTime :=
  let malformed := inl (of_string "time must be in HH:MM format, got '" ++ time ++ of_string "'") in
  match time with
  | [h1; h2; c; m1; m2] =>
      if negb (c =? 58) then malformed
      else if negb (forallb is_ascii_digit [h1; h2; m1; m2]) then malformed
      else match from_hms_opt ((h1 - 48) * 10 + (h2 - 48)) ((m1 - 48) * 10 + (m2 - 48)) 0 with
           | Some t => inr t
           | None => inl (of_string "time must be between 00:00 and 23:59, got '" ++ time ++ of_string "'")
           end
  | _ => malformed
  end.

Definition validate_time_range (start_time end_time : NaiveTime) : str + unit :=
  if nanos end_time <=? nanos start_time then
    inl (of_string "start_time '" ++ format_hm start_time ++ of_string "' must be before end_time '"
         ++ format_hm end_time ++ of_string "'")
  else inr tt.

(** Whether a slot is open at a local time. *)
Definition slot_skipped (now : NaiveDateTime) (slot : TimeSlot) : bool :=
  let weekday_bit := Z.shiftl 1 (num_days_from_monday now) in
  (Z.land (days slot) weekday_bit =? 0)
  || (nanos (time_of now) <? nanos (start_time slot)) || (nanos (end_time slot) <=? nanos (time_of now)).

Fixpoint scan_slots (slots : list TimeSlot) (now : NaiveDateTime) (found_allow : bool)
    : option ScheduleAction :=
  match slots with
  | [] => if found_allow then Some AllowAllSlot else None
  | slot :: slots =>
      if slot_skipped now slot then scan_slots slots now found_allow
      else match slot_action slot with
           | BlockAllSlot => Some BlockAllSlot
           | AllowAllSlot => scan_slots slots now true
           end
  end.
Definition evaluate_slots (slots : list TimeSlot) (now : NaiveDateTime) : option ScheduleAction :=
  scan_slots slots now false.

End slots.

(** ** The store of overrides *)

Abbreviation Overrides := (gmap Z GroupOverride).

Definition store_get (s : Overrides) (group_id : Z) : option GroupOverride := s !! group_id.
Definition store_set (s : Overrides) (group_id : Z) (o : GroupOverride) : Overrides := <[group_id := o]> s.
Definition store_clear (s : Overrides) (group_id : Z) : Overrides := delete group_id s.
Definition store_is_empty (s : Overrides) : bool := bool_decide (s = ∅).

Definition override_live (now : Z) (o : GroupOverride) : bool :=
  match o with
  | TimedBypassUntil t | TimedBlockUntil t => now <? t
  | OvBlockAll | OvAllowAll => true
  end.
Definition sweep_expired (s : Overrides) (now : Z) : Overrides :=
  filter (λ e, override_live now e.2 = true) s.

(** ** The job *)

Section job.
Context `{Chrono}.

Record ScheduleRepo := mkRepo {
  get_all_group_assignments : DomainError + list (Z * Z);
  get_by_id : Z → DomainError + option ScheduleProfile;
  get_slots : Z → DomainError + list TimeSlot;
}.

Record ScheduleEvaluatorJob := mkJob { overrides : Overrides; active_groups : gset Z }.

Definition evaluate_group (repo : ScheduleRepo) (local : Tz → NaiveDateTime) (s : Overrides)
    (group_id pid : Z) : Overrides :=
  match get_by_id repo pid with
  | inl _ => s
  | inr None => store_clear s group_id
  | inr (Some profile) =>
      match get_slots repo pid with
      | inl _ => s
      | inr slots =>
          match evaluate_slots slots (local (timezone profile)) with
          | Some BlockAllSlot => store_set s group_id OvBlockAll
          | Some AllowAllSlot => store_set s group_id OvAllowAll
          | None => store_clear s group_id
          end
      end
  end.

(** [local i] is the wall clock when the [i]th assignment is evaluated. *)
Definition evaluate_once (repo : ScheduleRepo) (local : nat → Tz → NaiveDateTime) (now : Z)
    (j : ScheduleEvaluatorJob) : ScheduleEvaluatorJob :=
  let s := sweep_expired (overrides j) now in
  match get_all_group_assignments repo with
  | inl _ => mkJob s (active_groups j)
  | inr assignments =>
      let current : gset Z := list_to_set (fst <$> assignments) in
      let s := foldl store_clear s (elements (active_groups j ∖ current)) in
      mkJob (foldl (λ s a, evaluate_group repo (local a.1) s a.2.1 a.2.2) s (imap pair assignments)) current
  end.

End job.

(** ** What the slots say *)

Section spec.
Context `{Chrono}.

Definition slot_open (now : NaiveDateTime) (slot : TimeSlot) : Prop :=
  Z.testbit (days slot) (num_days_from_monday now) = true ∧
  nanos (start_time slot) ≤ nanos (time_of now) < nanos (end_time slot).

Definition says (slots : list TimeSlot) (now : NaiveDateTime) (a : ScheduleAction) : Prop :=
  ∃ slot, slot ∈ slots ∧ slot_open now slot ∧ slot_action slot = a.

Lemma slot_skipped_spec now slot : slot_skipped now slot = false ↔ slot_open now slot.
Proof.
  unfold slot_skipped, slot_open. rewrite !orb_false_iff, Z.ltb_ge, Z.leb_gt, Z.eqb_neq.
  rewrite Z.shiftl_1_l. pose proof (num_days_range now) as Hd.
  assert (Hb : Z.land (days slot) (2 ^ num_days_from_monday now) ≠ 0 ↔
    Z.testbit (days slot) (num_days_from_monday now) = true).
  { rewrite testbit_nonzero by (apply Z.land_nonneg; right; lia). setoid_rewrite Z.land_spec.
    setoid_rewrite andb_true_iff. split.
    - intros (i & Hi & Hp). destruct (Z.lt_ge_cases i 0); [by rewrite Z.testbit_neg_r in Hp|].
      rewrite Z.pow2_bits_eqb in Hp by lia. apply Z.eqb_eq in Hp as ->. done.
    - intros Hi. exists (num_days_from_monday now). split; [done|]. rewrite Z.pow2_bits_eqb by lia. apply Z.eqb_refl. }
  rewrite Hb. tauto.
Qed.

Lemma says_cons slot slots now a :
  says (slot :: slots) now a ↔ (slot_open now slot ∧ slot_action slot = a) ∨ says slots now a.
Proof. unfold says. rewrite exists_elem_cons. done. Qed.

Lemma scan_slots_spec slots now found :
  match scan_slots slots now found with
  | Some BlockAllSlot => says slots now BlockAllSlot
  | Some AllowAllSlot => ¬ says slots now BlockAllSlot ∧ (found = true ∨ says slots now AllowAllSlot)
  | None => found = false ∧ ∀ a, ¬ says slots now a
  end.
Proof.
  revert found. induction slots as [|slot slots IH]; intros found; cbn [scan_slots].
  { assert (Hn : ∀ a, ¬ says [] now a) by (intros a (s & Hs & _); by apply not_elem_of_nil in Hs).
    destruct found; [split; [done|by left]|done]. }
  destruct (slot_skipped now slot) eqn:Ek.
  - assert (Hs : ∀ a, says (slot :: slots) now a ↔ says slots now a).
    { intros a. rewrite says_cons, <-slot_skipped_spec, Ek. split; [by intros [[? _]|?]|by right]. }
    specialize (IH found). destruct (scan_slots slots now found) as [[]|]; setoid_rewrite Hs; exact IH.
  - apply slot_skipped_spec in Ek. destruct (slot_action slot) eqn:Ea.
    + rewrite says_cons. by left.
    + specialize (IH true). destruct (scan_slots slots now true) as [[]|]; rewrite ?says_cons, ?Ea.
      * by right.
      * split; [intros [[_ ?]|?]; [done|tauto]|]. right. left. done.
      * by destruct IH.
Qed.

(** The time of a string, and the strings that are times. *)
Definition two_digits (n : Z) : str := [48 + n / 10; 48 + n mod 10].

Lemma parse_time_spec time t : parse_time time = inr t ↔
  ∃ h m, 0 ≤ h < 24 ∧ 0 ≤ m < 60 ∧ time = two_digits h ++ [58] ++ two_digits m ∧
    from_hms_opt h m 0 = Some t.
Proof.
  split.
  - unfold parse_time. intros Ht.
    destruct time as [|h1 [|h2 [|c [|m1 [|m2 [|? ?]]]]]]; try discriminate Ht.
    destruct (Z.eqb_spec c 58) as [->|]; [|discriminate Ht]. cbn [negb] in Ht.
    destruct (forallb is_ascii_digit [h1; h2; m1; m2]) eqn:Ed; [|discriminate Ht]. cbn [negb] in Ht.
    set (h := (h1 - 48) * 10 + (h2 - 48)) in *. set (m := (m1 - 48) * 10 + (m2 - 48)) in *.
    cbn [forallb] in Ed. unfold is_ascii_digit in Ed.
    rewrite !andb_true_iff, !Z.leb_le in Ed. destruct Ed as ([? ?] & [? ?] & [? ?] & [? ?] & _).
    destruct (from_hms_opt h m 0) as [t'|] eqn:Ef; [|discriminate Ht]. injection Ht as ->.
    pose proof (from_hms_spec h m 0 ltac:(lia) ltac:(lia) ltac:(lia)) as Hs. rewrite Ef in Hs.
    case_bool_decide as Hr; [|discriminate Hs]. exists h, m. split; [lia|]. split; [lia|]. split; [|done].
    assert (h / 10 = h1 - 48 ∧ h mod 10 = h2 - 48 ∧ m / 10 = m1 - 48 ∧ m mod 10 = m2 - 48) as (E1 & E2 & E3 & E4)
      by (unfold h, m; split_and!; [symmetry; apply (Z.div_unique _ _ _ (h2 - 48)); lia
                                   |symmetry; apply (Z.mod_unique _ _ (h1 - 48)); lia
                                   |symmetry; apply (Z.div_unique _ _ _ (m2 - 48)); lia
                                   |symmetry; apply (Z.mod_unique _ _ (m1 - 48)); lia]).
    unfold two_digits. rewrite E1, E2, E3, E4. cbn [app]. repeat f_equal; lia.
  - intros (h & m & Hh & Hm & -> & Hf). unfold parse_time, two_digits. cbn [app Z.eqb Pos.eqb negb].
    pose proof (Z.div_mod h 10 ltac:(lia)). pose proof (Z.mod_pos_bound h 10 ltac:(lia)).
    pose proof (Z.div_mod m 10 ltac:(lia)). pose proof (Z.mod_pos_bound m 10 ltac:(lia)).
    assert (0 ≤ h / 10 < 10) by (split; [apply Z.div_pos; lia|apply Z.div_lt_upper_bound; lia]).
    assert (0 ≤ m / 10 < 10) by (split; [apply Z.div_pos; lia|apply Z.div_lt_upper_bound; lia]).
    assert (Hd : forallb is_ascii_digit [48 + h / 10; 48 + h mod 10; 48 + m / 10; 48 + m mod 10] = true).
    { cbn [forallb]. unfold is_ascii_digit. rewrite !andb_true_iff, !Z.leb_le. lia. }
    rewrite Hd. cbn [negb]. replace ((48 + h / 10 - 48) * 10 + (48 + h mod 10 - 48)) with h by lia.
    replace ((48 + m / 10 - 48) * 10 + (48 + m mod 10 - 48)) with m by lia. by rewrite Hf.
Qed.

(** ** What a pass leaves *)

Lemma lookup_clears gs (s : Overrides) g :
  foldl store_clear s gs !! g = if decide (g ∈ gs) then None else s !! g.
Proof.
  revert s. induction gs as [|x gs IH]; intros s; cbn [foldl]; [by rewrite decide_False by apply not_elem_of_nil|].
  rewrite IH. unfold store_clear. destruct (decide (g ∈ gs)) as [Hin|Hin].
  - by rewrite decide_True by (by right).
  - destruct (decide (g = x)) as [->|Hne].
    + rewrite decide_True by (by left). apply lookup_delete_eq.
    + rewrite decide_False by (rewrite elem_of_cons; tauto). by apply lookup_delete_ne.
Qed.

(** The override of a group, from what the repository answers of its profile. *)
Definition scheduled (repo : ScheduleRepo) (local : Tz → NaiveDateTime) (pid : Z)
    (old : option GroupOverride) : option GroupOverride :=
  match get_by_id repo pid, get_slots repo pid with
  | inr None, _ => None
  | inr (Some profile), inr slots =>
      match evaluate_slots slots (local (timezone profile)) with
      | Some BlockAllSlot => Some OvBlockAll
      | Some AllowAllSlot => Some OvAllowAll
      | None => None
      end
  | _, _ => old
  end.

Lemma evaluate_group_lookup repo local s g pid k :
  evaluate_group repo local s g pid !! k = if decide (k = g) then scheduled repo local pid (s !! g) else s !! k.
Proof.
  unfold evaluate_group, scheduled, store_clear, store_set.
  destruct (get_by_id repo pid) as [?|[p|]]; [by case_decide; subst| |].
  - destruct (get_slots repo pid) as [?|slots]; [by case_decide; subst|].
    destruct (evaluate_slots slots (local (timezone p))) as [[]|]; case_decide; subst;
      by rewrite ?lookup_insert_eq, ?lookup_insert_ne, ?lookup_delete_eq, ?lookup_delete_ne.
  - case_decide; subst; by rewrite ?lookup_delete_eq, ?lookup_delete_ne.
Qed.

Definition evaluate_group_at (repo : ScheduleRepo) (local : nat → Tz → NaiveDateTime) (s : Overrides)
    (a : nat * (Z * Z)) : Overrides := evaluate_group repo (local a.1) s a.2.1 a.2.2.

Lemma evaluate_groups_other repo local l s g :
  g ∉ (λ a : nat * (Z * Z), a.2.1) <$> l → foldl (evaluate_group_at repo local) s l !! g = s !! g.
Proof.
  revert s. induction l as [|a l IH]; intros s Hg; [done|]. cbn [foldl]. rewrite fmap_cons, not_elem_of_cons in Hg.
  destruct Hg as [Hne Hg]. rewrite IH by done. unfold evaluate_group_at. rewrite evaluate_group_lookup.
  by rewrite decide_False.
Qed.

Lemma evaluate_groups_at repo local l s i g pid : NoDup ((λ a : nat * (Z * Z), a.2.1) <$> l) → (i, (g, pid)) ∈ l →
  foldl (evaluate_group_at repo local) s l !! g = scheduled repo (local i) pid (s !! g).
Proof.
  revert s. induction l as [|a l IH]; intros s Hnd Hin; [by apply not_elem_of_nil in Hin|].
  rewrite fmap_cons in Hnd. apply NoDup_cons in Hnd as [Hn Hnd]. cbn [foldl].
  apply elem_of_cons in Hin as [<-|Hin].
  - rewrite evaluate_groups_other by done. unfold evaluate_group_at. cbn [fst snd].
    by rewrite evaluate_group_lookup, decide_True.
  - assert (g ≠ a.2.1) as Hne.
    { intros ->. apply Hn. apply list_elem_of_fmap. by exists (i, (a.2.1, pid)). }
    rewrite (IH _ Hnd Hin). unfold evaluate_group_at. rewrite evaluate_group_lookup. by rewrite decide_False.
Qed.

End spec.

(** ** Properties *)

(** C40: A pass of the schedule job leaves every group with the override its
    open slots call for: a slot that blocks wins over one that allows, whatever
    their order, and no open slot means no override.  A group whose profile or
    slots do not load keeps its override, a profile that is gone or a group no
    longer assigned loses it, and a pass that cannot read the assignments only
    sweeps the lapsed overrides. *)
Theorem schedule_job_enforces_slots `{Chrono} (repo : ScheduleRepo) (local : nat → Tz → NaiveDateTime)
    (now : Z) (j : ScheduleEvaluatorJob) :
  let j' := evaluate_once repo local now j in
  let swept := sweep_expired (overrides j) now in
  (∀ slots d a, evaluate_slots slots d = Some a ↔
     says slots d a ∧ (a = AllowAllSlot → ¬ says slots d BlockAllSlot)) ∧
  match get_all_group_assignments repo with
  | inl _ => j' = mkJob swept (active_groups j)
  | inr assignments => NoDup assignments.*1 →
      active_groups j' = list_to_set assignments.*1 ∧
      (∀ i g pid, assignments !! i = Some (g, pid) →
         overrides j' !! g = scheduled repo (local i) pid (swept !! g)) ∧
      (∀ g, g ∉ assignments.*1 →
         overrides j' !! g = if decide (g ∈ active_groups j) then None else swept !! g)
  end.
Proof.
  intros j' swept. split.
  - intros slots d a. pose proof (scan_slots_spec slots d false) as Hs. unfold evaluate_slots.
    destruct (scan_slots slots d false) as [[]|]; split.
    + by intros [= <-].
    + intros [_ Ha]. destruct a; [done|]. by destruct (Ha eq_refl).
    + intros [= <-]. destruct Hs as [Hb [?|Ha]]; [done|]. by split.
    + destruct Hs as [Hb _]. intros [Ha _]. by destruct a.
    + done.
    + intros [Ha _]. by destruct (proj2 Hs a).
  - unfold j', evaluate_once. fold swept. destruct (get_all_group_assignments repo) as [e|assignments]; [done|].
    intros Hnd. cbn [active_groups overrides]. split; [done|].
    set (s := foldl store_clear _ _).
    change (foldl _ s (imap pair assignments)) with (foldl (evaluate_group_at repo local) s (imap pair assignments)).
    assert (Hg : (λ a : nat * (Z * Z), a.2.1) <$> imap pair assignments = assignments.*1).
    { rewrite fmap_imap. apply list_eq. intros i. rewrite list_lookup_imap, list_lookup_fmap. by destruct (_ !! i). }
    assert (Hs : ∀ g, s !! g = if decide (g ∈ active_groups j ∖ list_to_set assignments.*1) then None else swept !! g).
    { intros g. unfold s. rewrite lookup_clears. apply decide_ext. apply elem_of_elements. }
    split.
    + intros i g pid Hi. rewrite (evaluate_groups_at _ _ _ _ i g pid); [|by rewrite Hg|].
      * rewrite Hs, decide_False; [done|]. rewrite elem_of_difference, elem_of_list_to_set.
        intros [_ Hn]. apply Hn. apply list_elem_of_fmap. exists (g, pid). split; [done|]. by eapply list_elem_of_lookup_2.
      * apply list_elem_of_lookup. exists i. by rewrite list_lookup_imap, Hi.
    + intros g Hn. rewrite evaluate_groups_other by (by rewrite Hg). rewrite Hs. apply decide_ext.
      rewrite elem_of_difference, elem_of_list_to_set. tauto.
Qed.

(** Times and dates as numbers, for the examples: a date is its weekday and
    the minute of its day. *)
Definition demo_chrono : Chrono.
Proof.
  refine {|
    NaiveTime := Z; NaiveDateTime := Z * Z; Tz := unit; nanos t := t;
    from_hms_opt h m s :=
      if bool_decide (h < 24 ∧ m < 60 ∧ s < 60) then Some (((h * 60 + m) * 60 + s) * 1000000000) else None;
    format_hm t := of_string (pretty t);
    num_days_from_monday d := d.1 mod 7; time_of d := d.2 * 60000000000; tz_parse _ := Some tt;
  |}.
  - intros h m s _ _ _. case_bool_decide; [by eexists|done].
  - intros d. apply Z.mod_pos_bound. lia.
Defined.

Lemma schedule_job_enforces_slots_witness :
  let C := demo_chrono in
  let hour h := h * 3600000000000 in
  let slots := [mkSlot 5 127 (hour 8) (hour 20) AllowAllSlot; mkSlot 5 3 (hour 9) (hour 17) BlockAllSlot] in
  let repo := mkRepo (inr [(1, 5); (2, 6)]) (λ p, inr (if p =? 5 then Some (mkProfile None [] tt) else None))
    (λ _, inr slots) in
  let j := mkJob {[2 := OvAllowAll; 3 := TimedBypassUntil 900; 4 := OvBlockAll]} {[4]} in
  let j' := evaluate_once repo (λ _ _, (1, 600)) 1000 j in
  overrides j' !! 1 = Some OvBlockAll ∧ overrides j' !! 2 = None ∧ overrides j' !! 3 = None ∧
  overrides j' !! 4 = None.
Proof.
  intros C hour slots repo j j'.
  destruct (@schedule_job_enforces_slots C repo (λ _ _, (1, 600)) 1000 j) as (_ & Hj).
  cbn [get_all_group_assignments repo] in Hj.
  assert (Hnd : NoDup [(1, 5); (2, 6)].*1) by (apply (bool_decide_unpack _); vm_compute; exact I).
  destruct (Hj Hnd) as (_ & Hat & Hother).
  split; [exact (eq_trans (Hat 0%nat 1 5 eq_refl) eq_refl)|].
  split; [exact (eq_trans (Hat 1%nat 2 6 eq_refl) eq_refl)|].
  split; [refine (eq_trans (Hother 3 _) _)|refine (eq_trans (Hother 4 _) _)].
  1,3: apply (bool_decide_unpack _); vm_compute; exact I.
  all: vm_compute; reflexivity.
Defined.
