(* ===== verification/WireName.v ===== *)
(** Names and records of a DNS message, as
    [infrastructure/src/dns/wire_response.rs] walks them: skipping a possibly
    compressed name or a record, decoding a name through its pointers, visiting
    every TTL field, and the test that no name reads a TTL field.

    Positions are [nat], bytes are [Z].  The loops run on fuel; the lemmas of
    this file show that it always suffices. *)

From S2P Require Import Prelude.

(** ** Constants *)

Definition CLASS_IN : Z := 1.
Definition TYPE_SOA : Z := 6.
Definition TYPE_SIG : Z := 24.
Definition TYPE_OPT : Z := 41.
Definition TYPE_RRSIG : Z := 46.
Definition TYPE_NSEC : Z := 47.
Definition TYPE_NSEC3 : Z := 50.
Definition TYPE_ANY : Z := 255.
Definition TYPE_TSIG : Z := 250.
Definition COOKIE_OPTION_CODE : Z := 10.
Definition EDNS_UDP_PAYLOAD : Z := 4096.

(** ** Skipping *)

Fixpoint skip_name_go (fuel : nat) (buf : bytes) (pos : nat) : outcome nat :=
  match fuel with
  | O => Crash OutOfFuel
  | S fuel =>
      len ← get buf pos;
      if Z.land len 0xC0 =? 0xC0 then _ ← get buf (pos + 1); Ret (pos + 2)%nat
      else if Z.land len 0xC0 =? 0 then
        if len =? 0 then Ret (pos + 1)%nat
        else skip_name_go fuel buf (pos + (1 + Z.to_nat len))
      else Decline
  end.
Definition skip_name (buf : bytes) (pos : nat) : outcome nat :=
  skip_name_go (S (length buf)) buf pos.

Definition skip_rr (buf : bytes) (pos : nat) : outcome (Z * nat) :=
  fixed ← skip_name buf pos;
  f ← get_range buf fixed (fixed + 10);
  rtype ← be16_at f 0;
  rdlen ← be16_at f 8;
  let end_ := (fixed + 10 + Z.to_nat rdlen)%nat in
  _ ← get_range buf 0 end_;
  Ret (rtype, end_).

(** ** RDATA layout *)

Inductive Field := Fixed (len : nat) | Text | Name.

Definition rdata_fields (rtype : Z) : list Field :=
  let among := existsb (Z.eqb rtype) in
  if among [2; 3; 4; 5; 7; 8; 9; 12; 30; 39; 47] then [Name]
  else if among [6; 14; 17] then [Name; Name]
  else if among [15; 18; 21; 64; 65] then [Fixed 2; Name]
  else if among [26] then [Fixed 2; Name; Name]
  else if among [33] then [Fixed 6; Name]
  else if among [35] then [Fixed 4; Text; Text; Text; Name]
  else if among [24; 46] then [Fixed 18; Name]
  else [].

(** ** Decoding a name

    The offset past the name where it is written, and the byte ranges read on
    the way: the calls to the closure [read]. *)
Fixpoint walk_name_go (fuel : nat) (msg : bytes) (pos len : nat) (end_ : option nat)
    (ranges : list (nat * nat)) : outcome (nat * list (nat * nat)) :=
  match fuel with
  | O => Crash OutOfFuel
  | S fuel =>
      byte ← get msg pos;
      if Z.land byte 0xC0 =? 0 then
        let next := (pos + 1 + Z.to_nat byte)%nat in
        _ ← get_range msg pos next;
        let ranges := ranges ++ [(pos, next)] in
        let len := (len + (1 + Z.to_nat byte))%nat in
        if (255 <? len)%nat then Decline
        else if byte =? 0 then Ret (default next end_, ranges)
        else walk_name_go fuel msg next len end_ ranges
      else if Z.land byte 0xC0 =? 0xC0 then
        let ranges := ranges ++ [(pos, (pos + 2)%nat)] in
        low ← get msg (pos + 1);
        let target := Z.to_nat (be16 (Z.land byte 0x3F) low) in
        if (pos <=? target)%nat then Decline
        else walk_name_go fuel msg target len (Some (default (pos + 2)%nat end_)) ranges
      else Decline
  end.
Definition name_fuel (msg : bytes) : nat := (257 * S (length msg))%nat.
Definition walk_name (msg : bytes) (pos : nat) : outcome (nat * list (nat * nat)) :=
  walk_name_go (name_fuel msg) msg pos 0 None [].

(** ** Visiting TTL fields *)

Fixpoint skip_questions (n : nat) (msg : bytes) (pos : nat) : outcome nat :=
  match n with
  | O => Ret pos
  | S n => pos ← skip_name msg pos; skip_questions n msg (pos + 4)
  end.

(** [f] sees the four bytes of the field and its offset, and rewrites them. *)
Fixpoint each_record {S} (f : bytes → nat → S → bytes * S) (n : nat)
    (msg : bytes) (pos : nat) (s : S) : outcome (bytes * nat * S) :=
  match n with
  | O => Ret (msg, pos, s)
  | Datatypes.S n =>
      fixed ← skip_name msg pos;
      h ← get_range msg fixed (fixed + 10);
      rtype ← be16_at h 0;
      ttl ← index_range h 4 8;
      rdlen ← be16_at h 8;
      '(msg, s) ← (if rtype =? TYPE_OPT then Ret (msg, s) else
        let '(ttl, s) := f ttl (fixed + 4)%nat s in
        msg ← copy_at msg (fixed + 4) ttl; Ret (msg, s));
      each_record f n msg (fixed + 10 + Z.to_nat rdlen) s
  end.

Definition record_counts (msg : bytes) : outcome (nat * nat) :=
  header ← get_range msg 0 12;
  qd ← be16_at header 4; an ← be16_at header 6;
  ns ← be16_at header 8; ar ← be16_at header 10;
  Ret (Z.to_nat qd, Z.to_nat an + Z.to_nat ns + Z.to_nat ar)%nat.

Definition for_each_ttl {S} (f : bytes → nat → S → bytes * S) (msg : bytes) (s : S)
    : outcome (bytes * S) :=
  '(questions, records) ← record_counts msg;
  pos ← skip_questions questions msg 12;
  '(msg, pos, s) ← each_record f records msg pos s;
  if (pos <=? length msg)%nat then Ret (msg, s) else Decline.

(** The closures of the source: one collects the offsets, one rewrites the
    fields by [g]. *)
Definition collect (ttl : bytes) (at_ : nat) (offsets : list nat) : bytes * list nat :=
  (ttl, offsets ++ [at_]).
Definition visit (g : bytes → bytes) (ttl : bytes) (_ : nat) (s : unit) : bytes * unit :=
  (g ttl, s).

(** ** Names that read TTL fields *)

(** [slice::partition_point] of a slice that is partitioned by [p]. *)
Fixpoint partition_point {A} (p : A → bool) (l : list A) : nat :=
  match l with
  | [] => 0
  | a :: l => if p a then S (partition_point p l) else 0
  end.

Definition reads_ttl (ttls : list nat) (range : nat * nat) : bool :=
  let '(from, to) := range in
  match ttls !! partition_point (λ at_, (at_ + 4 <=? from)%nat) ttls with
  | Some at_ => (at_ <? to)%nat
  | None => false
  end.

Fixpoint walk_questions (n : nat) (msg : bytes) (ttls : list nat) (pos : nat) (read : bool)
    : outcome (nat * bool) :=
  match n with
  | O => Ret (pos, read)
  | S n =>
      '(pos, ranges) ← walk_name msg pos;
      walk_questions n msg ttls (pos + 4) (read || existsb (reads_ttl ttls) ranges)
  end.

Fixpoint walk_fields (fs : list Field) (msg : bytes) (ttls : list nat) (at_ : nat)
    (read : bool) : outcome (nat * bool) :=
  match fs with
  | [] => Ret (at_, read)
  | Fixed len :: fs => walk_fields fs msg ttls (at_ + len) read
  | Text :: fs =>
      len ← get msg at_; walk_fields fs msg ttls (at_ + 1 + Z.to_nat len) read
  | Name :: fs =>
      '(at_, ranges) ← walk_name msg at_;
      walk_fields fs msg ttls at_ (read || existsb (reads_ttl ttls) ranges)
  end.

Fixpoint walk_records (n : nat) (msg : bytes) (ttls : list nat) (pos : nat) (read : bool)
    : outcome bool :=
  match n with
  | O => Ret read
  | S n =>
      '(fixed, ranges) ← walk_name msg pos;
      let read := read || existsb (reads_ttl ttls) ranges in
      f ← get_range msg fixed (fixed + 10);
      rtype ← be16_at f 0;
      rdlen ← be16_at f 8;
      let end_ := (fixed + 10 + Z.to_nat rdlen)%nat in
      '(at_, read) ← walk_fields (rdata_fields rtype) msg ttls (fixed + 10) read;
      if (end_ <? at_)%nat then Decline
      else walk_records n msg ttls end_ read
  end.

Definition names_read_ttls (msg : bytes) (ttls : list nat) : outcome bool :=
  '(questions, records) ← record_counts msg;
  '(pos, read) ← walk_questions questions msg ttls 12 false;
  walk_records records msg ttls pos read.

(** ** Skipping: lemmas *)

Lemma skip_name_go_post fuel buf : ∀ pos,
  (1 ≤ fuel ∧ length buf < pos + fuel)%nat →
  post (skip_name_go fuel buf pos) (λ r, pos < r ≤ length buf)%nat.
Proof.
  induction fuel as [|fuel IH]; intros pos Hf; simpl; [lia|].
  wp; repeat match goal with H : _ !! _ = Some _ |- _ => apply lookup_lt_Some in H end.
  - lia.
  - lia.
  - eapply post_mono; [apply IH; lia|]. simpl. lia.
Qed.

Lemma skip_name_post buf pos :
  post (skip_name buf pos) (λ r, pos < r ≤ length buf)%nat.
Proof. apply skip_name_go_post. lia. Qed.

Lemma skip_rr_post buf pos :
  post (skip_rr buf pos) (λ r, pos + 10 < r.2 ∧ r.2 ≤ length buf)%nat.
Proof.
  unfold skip_rr. wp. eapply post_mono; [apply skip_name_post|].
  intros fixed Hf. simpl in Hf. wp. simpl. lia.
Qed.

(** ** Decoding names: lemmas *)

Lemma walk_name_go_post fuel msg : ∀ pos len end_ ranges,
  (1 ≤ fuel ∧ len ≤ 255 ∧
   (pos ≤ length msg → (256 - len) * S (length msg) + pos < fuel))%nat →
  (∀ e, end_ = Some e → e ≤ length msg)%nat →
  bytes_ok msg →
  post (walk_name_go fuel msg pos len end_ ranges)
    (λ r, r.1 ≤ length msg ∧ default (S pos) end_ ≤ r.1)%nat.
Proof.
  induction fuel as [|fuel IH]; intros pos len end_ ranges Hf He Hok; simpl; [lia|].
  wp.
  - destruct end_ as [e|]; simpl; [specialize (He e eq_refl)|]; lia.
  - boolify. match goal with H : msg !! pos = Some ?a |- _ =>
      assert (0 < Z.to_nat a)%nat by
        (pose proof (bytes_ok_lookup _ _ _ Hok H); unfold_ints; lia);
      apply lookup_lt_Some in H end.
    apply Nat.ltb_ge in H2.
    eapply post_mono; [apply IH; [|done|done]|].
    + split; [nia|]. split; [lia|]. intros. nia.
    + destruct end_; simpl; lia.
  - repeat match goal with H : msg !! _ = Some _ |- _ => apply lookup_lt_Some in H end.
    match goal with H : (_ <=? _)%nat = false |- _ => apply Nat.leb_gt in H end.
    eapply post_mono; [apply IH; [|by intros e [= <-]; destruct end_; simpl; auto; lia|done]|].
    + split; [nia|]. split; [lia|]. intros. nia.
    + simpl. intros r. destruct end_; simpl; lia.
Qed.

Lemma walk_name_post msg pos : bytes_ok msg →
  post (walk_name msg pos) (λ r, pos < r.1 ≤ length msg)%nat.
Proof.
  intros Hok. eapply post_mono; [apply walk_name_go_post; [|by intros e [=]|done]|].
  - unfold name_fuel. split; [nia|]. split; [lia|]. nia.
  - simpl. lia.
Qed.

(** ** TTL fields: lemmas *)

Lemma record_counts_post msg : post (record_counts msg) (λ _, 12 ≤ length msg)%nat.
Proof. unfold record_counts. wp. lia. Qed.

Lemma skip_questions_post n msg : ∀ pos,
  post (skip_questions n msg pos) (λ r, pos ≤ r)%nat.
Proof.
  induction n as [|n IH]; intros pos; simpl; wp; [done|].
  eapply post_mono; [apply skip_name_post|]. intros p Hp. simpl in *.
  eapply post_mono; [apply IH|]. simpl. lia.
Qed.

(** A visitor that keeps the field four bytes long. *)
Definition keeps_field {S} (f : bytes → nat → S → bytes * S) : Prop :=
  ∀ ttl at_ s, length ttl = 4%nat → length (f ttl at_ s).1 = 4%nat.

Lemma each_record_post {S} (f : bytes → nat → S → bytes * S) n :
  keeps_field f → ∀ msg pos s,
  post (each_record f n msg pos s) (λ r, length r.1.1 = length msg).
Proof.
  intros Hf. induction n as [|n IH]; intros msg pos s; simpl; wp; [done|].
  eapply post_mono; [apply skip_name_post|]. intros fixed Hfix. simpl in Hfix. wp.
  - apply IH.
  - match goal with E : f _ _ s = (?ttl, ?s') |- _ =>
      assert (length ttl = 4%nat)
        by (change ttl with (ttl, s').1; rewrite <-E; apply Hf; wp_lengths; lia) end.
    apply post_copy_at; [lia|]. simpl.
    eapply post_mono; [apply IH|]. simpl. intros r Hr.
    by rewrite Hr, length_splice by lia.
Qed.

Lemma for_each_ttl_post {S} (f : bytes → nat → S → bytes * S) msg s :
  keeps_field f → post (for_each_ttl f msg s) (λ r, length r.1 = length msg).
Proof.
  intros Hf. unfold for_each_ttl. wp.
  eapply post_mono; [apply record_counts_post|]. intros [q r] _. wp.
  eapply post_mono; [apply skip_questions_post|]. intros pos _. wp.
  eapply post_mono; [by apply each_record_post|]. intros [[m p] s'] Hl. wp. done.
Qed.

Lemma walk_questions_post n msg ttls : bytes_ok msg → ∀ pos read,
  post (walk_questions n msg ttls pos read) (λ _, True).
Proof.
  intros Hok. induction n as [|n IH]; intros pos read; simpl; wp; [done|].
  eapply post_mono; [by apply walk_name_post|]. intros [p rs] _. simpl. apply IH.
Qed.

Lemma walk_fields_post fs msg ttls : bytes_ok msg → ∀ at_ read,
  post (walk_fields fs msg ttls at_ read) (λ _, True).
Proof.
  intros Hok. induction fs as [|f fs IH]; intros at_ read; simpl; wp; [done|].
  destruct f; wp; auto.
  eapply post_mono; [by apply walk_name_post|]. intros [p rs] _. simpl. apply IH.
Qed.

Lemma walk_records_post n msg ttls : bytes_ok msg → ∀ pos read,
  post (walk_records n msg ttls pos read) (λ _, True).
Proof.
  intros Hok. induction n as [|n IH]; intros pos read; simpl; wp; [done|].
  eapply post_mono; [by apply walk_name_post|]. intros [p rs] Hp. simpl in Hp. wp.
  eapply post_mono; [by apply walk_fields_post|]. intros [a r] _. wp. apply IH.
Qed.

Lemma names_read_ttls_post msg ttls : bytes_ok msg →
  post (names_read_ttls msg ttls) (λ _, True).
Proof.
  intros Hok. unfold names_read_ttls. wp.
  eapply post_mono; [apply record_counts_post|]. intros [q r] _. wp.
  eapply post_mono; [by apply walk_questions_post|]. intros [p b] _.
  by apply walk_records_post.
Qed.

(** *** Visiting and ageing agree

    Rewriting a field leaves the walk where it was: the bytes of a TTL field
    are neither part of a name that is skipped nor of a length. *)

Lemma skip_name_go_lt fuel buf : ∀ pos r,
  skip_name_go fuel buf pos = Ret r → (pos < r ≤ length buf)%nat.
Proof.
  induction fuel as [|fuel IH]; intros pos r; simpl; [done|]. intros H.
  apply bind_Ret_inv in H as (len & Hg & H). inv_ret.
  pose proof (lookup_lt_Some _ _ _ Hg).
  case_match.
  { inv_ret. pose proof (lookup_lt_Some _ _ _ H2). subst. lia. }
  repeat case_match; try done; inv_ret; [subst; lia|].
  apply IH in H. lia.
Qed.

Lemma get_agree (a b : bytes) i x :
  get a i = Ret x → a !! i = b !! i → get b i = Ret x.
Proof. unfold get. by intros H <-. Qed.

Lemma skip_name_go_agree fuel (a b : bytes) : ∀ pos r,
  skip_name_go fuel a pos = Ret r →
  (∀ i, (pos ≤ i < r)%nat → a !! i = b !! i) →
  skip_name_go fuel b pos = Ret r.
Proof.
  induction fuel as [|fuel IH]; intros pos r; [done|]. intros H Hag.
  pose proof (skip_name_go_lt _ _ _ _ H) as Hlt. simpl in *.
  apply bind_Ret_inv in H as (len & Hg & H).
  rewrite (get_agree a b pos len Hg) by (apply Hag; lia). simpl.
  case_match.
  - apply bind_Ret_inv in H as (low & Hg2 & H). injection H as <-.
    rewrite (get_agree a b (pos + 1) low Hg2) by (apply Hag; lia). done.
  - repeat case_match; try done. apply IH; [done|]. intros i Hi. apply Hag. lia.
Qed.

Lemma skip_name_agree (a b : bytes) pos r :
  skip_name a pos = Ret r → length a = length b →
  (∀ i, (pos ≤ i < r)%nat → a !! i = b !! i) → skip_name b pos = Ret r.
Proof. unfold skip_name. intros H <-. by apply skip_name_go_agree. Qed.

Lemma skip_name_lt buf pos r : skip_name buf pos = Ret r → (pos < r ≤ length buf)%nat.
Proof. apply skip_name_go_lt. Qed.

Lemma slice_agree (a b s : bytes) from to :
  slice a from to = Some s → length a = length b →
  (∀ i, (from ≤ i < to)%nat → a !! i = b !! i) → slice b from to = Some s.
Proof.
  intros [Hr ->]%slice_Some Hl Hag. apply slice_Some. split; [lia|].
  apply list_eq. intros i. destruct (decide (i < to - from)%nat).
  - rewrite !lookup_take_lt, !lookup_drop by lia. apply Hag. lia.
  - by rewrite !lookup_take_ge by lia.
Qed.

Lemma get_range_agree (a b s : bytes) from to :
  get_range a from to = Ret s → length a = length b →
  (∀ i, (from ≤ i < to)%nat → a !! i = b !! i) → get_range b from to = Ret s.
Proof.
  unfold get_range. rewrite !try_some_Ret. apply slice_agree.
Qed.

Lemma splice_same (l : bytes) at_ n :
  (at_ + n ≤ length l)%nat → splice at_ (take n (drop at_ l)) l = l.
Proof.
  intros Hl. unfold splice. rewrite length_take, length_drop, Nat.min_l by lia.
  by rewrite <-drop_drop, take_drop, take_drop.
Qed.

Lemma take_drop_range (l : bytes) from i n m :
  (i + n ≤ m)%nat →
  take n (drop i (take m (drop from l))) = take n (drop (from + i) l).
Proof.
  intros H.
  apply list_eq. intros j. destruct (decide (j < n)%nat).
  - rewrite !lookup_take_lt, !lookup_drop, lookup_take_lt, lookup_drop by lia.
    f_equal. lia.
  - by rewrite !lookup_take_ge by lia.
Qed.

(** The fields at [offsets], rewritten in turn by [g]. *)
Fixpoint map_fields (g : bytes → bytes) (msg : bytes) (offsets : list nat) : outcome bytes :=
  match offsets with
  | [] => Ret msg
  | at_ :: offsets =>
      ttl ← get_range msg at_ (at_ + 4);
      msg ← copy_at msg at_ (g ttl);
      map_fields g msg offsets
  end.

Lemma each_record_visit (g : bytes → bytes) n :
  (∀ ttl, length ttl = 4%nat → length (g ttl) = 4%nat) →
  ∀ msg msg2 pos offs r,
  each_record collect n msg pos offs = Ret r →
  length msg2 = length msg → (∀ i, (pos ≤ i)%nat → msg !! i = msg2 !! i) →
  ∃ new pos' m', r = (msg, pos', offs ++ new) ∧
    each_record (visit g) n msg2 pos tt = Ret (m', pos', tt) ∧
    map_fields g msg2 new = Ret m' ∧ length m' = length msg.
Proof.
  intros Hg. induction n as [|n IH]; intros msg msg2 pos offs r H Hl Hag; simpl in H.
  { injection H as <-. exists [], pos, msg2. by rewrite app_nil_r. }
  apply bind_Ret_inv in H as (fixed & Hfix & H).
  apply bind_Ret_inv in H as (h & Hh & H).
  apply bind_Ret_inv in H as (rtype & Hrt & H).
  apply bind_Ret_inv in H as (ttl & Httl & H).
  apply bind_Ret_inv in H as (rdlen & Hrd & H).
  pose proof (skip_name_lt _ _ _ Hfix) as Hlt.
  assert (Hfix2 : skip_name msg2 pos = Ret fixed)
    by (eapply skip_name_agree; [done|done|intros i Hi; apply Hag; lia]).
  assert (Hh2 : get_range msg2 fixed (fixed + 10) = Ret h)
    by (eapply get_range_agree; [done|done|intros i Hi; apply Hag; lia]).
  pose proof Hh as [Hrange Eh]%get_range_Ret.
  pose proof Httl as [_ Ettl]%index_range_Ret.
  simpl. rewrite Hfix2. simpl. rewrite Hh2. simpl. rewrite Hrt. simpl.
  rewrite Httl. simpl. rewrite Hrd. simpl.
  destruct (rtype =? TYPE_OPT) eqn:Eopt; simpl in H |- *.
  - apply (IH msg msg2) in H as (new & pos' & m' & -> & Hv & Hm & Hlm);
      [|done|intros i Hi; apply Hag; lia].
    exists new, pos', m'. done.
  - (* the field as the walk reads it *)
    assert (Hfield : ttl = take 4 (drop (fixed + 4) msg)).
    { rewrite Ettl, Eh. replace (8 - 4)%nat with 4%nat by lia. apply take_drop_range. lia. }
    assert (Hfield2 : ttl = take 4 (drop (fixed + 4) msg2)).
    { rewrite Ettl. apply get_range_Ret in Hh2 as [_ ->].
      replace (8 - 4)%nat with 4%nat by lia. apply take_drop_range. lia. }
    assert (Hlttl : length ttl = 4%nat)
      by (rewrite Hfield, length_take, length_drop; lia).
    unfold copy_at in H |- *.
    rewrite decide_True in H by lia. rewrite decide_True by (rewrite Hg; lia).
    simpl in H |- *. rewrite Hfield, splice_same in H by lia.
    apply (IH _ (splice (fixed + 4) (g ttl) msg2)) in H
      as (new & pos' & m' & -> & Hv & Hm & Hlm).
    + exists ((fixed + 4)%nat :: new), pos', m'. rewrite <-app_assoc.
      split; [done|]. split; [done|]. split; [|done].
      simpl. unfold get_range, slice. rewrite decide_True by lia. simpl.
      replace (fixed + 4 + 4 - (fixed + 4))%nat with 4%nat by lia. rewrite <-Hfield2.
      unfold copy_at. rewrite decide_True by (rewrite Hg; lia). exact Hm.
    + rewrite length_splice; [done|rewrite Hg; lia].
    + intros i Hi. rewrite lookup_splice_ne by (rewrite ?Hg; lia). apply Hag. lia.
Qed.

Lemma for_each_ttl_visit (g : bytes → bytes) msg offsets msg' :
  (∀ ttl, length ttl = 4%nat → length (g ttl) = 4%nat) →
  for_each_ttl collect msg [] = Ret (msg', offsets) →
  msg' = msg ∧
  ∃ m', for_each_ttl (visit g) msg tt = Ret (m', tt) ∧ map_fields g msg offsets = Ret m'.
Proof.
  intros Hg H. unfold for_each_ttl in *.
  apply bind_Ret_inv in H as ([q rc] & Hc & H).
  apply bind_Ret_inv in H as (pos & Hp & H).
  apply bind_Ret_inv in H as ([[m p] s] & He & H).
  apply (each_record_visit g _ Hg msg msg) in He
    as (new & pos' & m' & [= -> -> ->] & Hv & Hm & Hl); [|done|done].
  case_match; [|done]. injection H as <- <-. split; [done|].
  exists m'. rewrite Hc. simpl. rewrite Hp. simpl. rewrite Hv. simpl.
  rewrite Hl. rewrite H0. done.
Qed.

(** *** The fields are apart

    Two TTL fields never share a byte, so rewriting them in turn rewrites each
    from what it held at first. *)

Fixpoint spaced (from : nat) (offsets : list nat) : Prop :=
  match offsets with
  | [] => True
  | at_ :: offsets => (from ≤ at_)%nat ∧ spaced (at_ + 4) offsets
  end.

Lemma spaced_mono from from' offsets :
  (from' ≤ from)%nat → spaced from offsets → spaced from' offsets.
Proof. destruct offsets; simpl; [done|]. intros ? [? ?]. split; [lia|done]. Qed.

Lemma spaced_ge from offsets at_ : spaced from offsets → at_ ∈ offsets → (from ≤ at_)%nat.
Proof.
  revert from. induction offsets as [|a l IH]; intros from; [by rewrite elem_of_nil|].
  intros [Hf Hs] [->|Hin]%elem_of_cons; [done|]. specialize (IH _ Hs Hin). lia.
Qed.

Lemma each_record_spaced n : ∀ msg pos offs r,
  each_record collect n msg pos offs = Ret r →
  ∃ new, r.2 = offs ++ new ∧ spaced pos new.
Proof.
  induction n as [|n IH]; intros msg pos offs r H; simpl in H.
  { injection H as <-. exists []. by rewrite app_nil_r. }
  apply bind_Ret_inv in H as (fixed & Hfix & H). apply skip_name_lt in Hfix as [Hlt _].
  apply bind_Ret_inv in H as (h & _ & H). apply bind_Ret_inv in H as (rtype & _ & H).
  apply bind_Ret_inv in H as (ttl & _ & H). apply bind_Ret_inv in H as (rdlen & _ & H).
  destruct (rtype =? TYPE_OPT); simpl in H.
  - apply IH in H as (new & -> & Hs). exists new. split; [done|].
    eapply spaced_mono; [|done]. lia.
  - apply bind_Ret_inv in H as ([m s] & Hc & H).
    apply bind_Ret_inv in Hc as (m2 & _ & [= -> <-]).
    apply IH in H as (new & -> & Hs). exists ((fixed + 4)%nat :: new).
    rewrite <-app_assoc. split; [done|]. simpl. split; [lia|].
    eapply spaced_mono; [|done]. lia.
Qed.

Lemma for_each_ttl_spaced msg msg' offsets :
  for_each_ttl collect msg [] = Ret (msg', offsets) → spaced 12 offsets.
Proof.
  unfold for_each_ttl. intros H.
  apply bind_Ret_inv in H as ([q rc] & Hc & H).
  apply bind_Ret_inv in H as (pos & Hp & H).
  pose proof (post_returns _ _ _ (skip_questions_post q msg 12) Hp) as Hpos.
  apply bind_Ret_inv in H as ([[m p] s] & He & H).
  case_match; [|done]. injection H as <- <-.
  apply each_record_spaced in He as (new & Heq & Hs). simpl in Heq. subst s.
  eapply spaced_mono; [|done]. done.
Qed.

Definition field_at (msg : bytes) (at_ : nat) : bytes := take 4 (drop at_ msg).

Lemma field_at_splice_ne l at_ bs from :
  length bs = 4%nat → (at_ + 4 ≤ length l)%nat → (at_ + 4 ≤ from)%nat →
  field_at (splice at_ bs l) from = field_at l from.
Proof.
  intros Hb Hl Hne. unfold field_at. apply list_eq. intros i.
  destruct (decide (i < 4)%nat); [|by rewrite !lookup_take_ge by lia].
  rewrite !lookup_take_lt, !lookup_drop by lia. apply lookup_splice_ne; lia.
Qed.

Lemma map_fields_spec g offsets :
  (∀ ttl, length ttl = 4%nat → length (g ttl) = 4%nat) → ∀ from msg m',
  spaced from offsets → map_fields g msg offsets = Ret m' →
  length m' = length msg ∧
  (∀ at_, at_ ∈ offsets → field_at m' at_ = g (field_at msg at_)) ∧
  (∀ i, (∀ at_, at_ ∈ offsets → ¬ (at_ ≤ i < at_ + 4)%nat) → m' !! i = msg !! i).
Proof.
  intros Hg. induction offsets as [|a l IH]; intros from msg m' Hs H; simpl in *.
  { injection H as ->. split_and!; [done| |done]. by intros ? ?%elem_of_nil. }
  destruct Hs as [Hf Hs].
  apply bind_Ret_inv in H as (ttl & Httl & H). apply get_range_Ret in Httl as [Hr Ettl].
  replace (a + 4 - a)%nat with 4%nat in Ettl by lia. change (ttl = field_at msg a) in Ettl.
  assert (Hlt : length (g ttl) = 4%nat).
  { apply Hg. rewrite Ettl. unfold field_at. rewrite length_take, length_drop. lia. }
  apply bind_Ret_inv in H as (m1 & Hc & H). apply copy_at_Ret in Hc as [_ ->].
  pose proof H as (Hl & Hin & Hout)%(IH _ _ _ Hs). rewrite length_splice in Hl by lia.
  split_and!; [done| |].
  - intros at_ [->|Hat]%elem_of_cons.
    + rewrite <-Ettl. unfold field_at. apply list_eq. intros i.
      destruct (decide (i < 4)%nat);
        [|by rewrite lookup_take_ge, lookup_ge_None_2 by lia].
      rewrite lookup_take_lt, lookup_drop by lia.
      rewrite Hout by (intros b Hb%(spaced_ge _ _ _ Hs); lia).
      by rewrite lookup_splice_eq by lia.
    + rewrite Hin by done. f_equal.
      pose proof (spaced_ge _ _ _ Hs Hat). apply field_at_splice_ne; lia.
  - intros i Hi. rewrite Hout by (intros b Hb; apply Hi; by right).
    apply lookup_splice_ne; [lia|].
    destruct (decide (i < a)%nat); [by left|right].
    specialize (Hi a (list_elem_of_here _ _)). lia.
Qed.
