(* ===== verification/FastPath.v ===== *)
(** The UDP fast path's query parser, [infrastructure/src/dns/fast_path.rs]: it
    accepts the plain queries the cache can answer and leaves everything else,
    malformed or merely unusual, to the slow path.

    Every indexing of the packet is an [index], so the safety theorem says that
    no packet makes the parser read out of bounds; [domain_buf] is the list of
    its first [domain_len] bytes, and a write past its 254 bytes panics. *)

From S2P Require Import Prelude Net WireName.

Definition MAX_DOMAIN_LEN : nat := 253.

(** [EdnsCookie::is_valid_len]. *)
Definition is_valid_len (len : nat) : bool :=
  (len =? 8)%nat || ((16 <=? len)%nat && (len <=? 40)%nat).

Inductive FastPathKind := IpAddress | WireDataKind.

(** Offset and length of the first COOKIE option's data. *)
Record QueryOpt := mkQueryOpt { cookie : option (nat * nat) }.

Record FastPathQuery := mkFastPathQuery {
  id : Z;
  record_type : RecordType;
  kind : FastPathKind;
  question_end : nat;
  client_max_size : Z;
  wants_dnssec : bool;
  recursion_desired : bool;
  checking_disabled : bool;
  opt : option QueryOpt;
  domain : bytes;
}.

Definition has_edns (q : FastPathQuery) : bool :=
  match opt q with Some _ => true | None => false end.

Definition question (q : FastPathQuery) (buf : bytes) : outcome bytes :=
  index_range buf 12 (question_end q).

Definition question_name (q : FastPathQuery) (buf : bytes) : outcome bytes :=
  index_range buf 12 (question_end q - 4).

Definition edns_cookie (q : FastPathQuery) (buf : bytes) : outcome bytes :=
  o ← try_some (opt q);
  '(start, len) ← try_some (cookie o);
  get_range buf start (start + len).

(** ** OPT options *)

Fixpoint opt_options_go (fuel : nat) (buf : bytes) (at_ end_ : nat)
    (ck : option (nat * nat)) : outcome QueryOpt :=
  match fuel with
  | O => Crash OutOfFuel
  | S fuel =>
      if (at_ <? end_)%nat then
        h ← get_range buf at_ (at_ + 4);
        code ← be16_at h 0;
        len ← be16_at h 2;
        let data := (at_ + 4)%nat in
        let data_len := Z.to_nat len in
        let at_ := (data + data_len)%nat in
        if (end_ <? at_)%nat then Decline
        else if code =? COOKIE_OPTION_CODE then
          if negb (is_valid_len data_len) then Decline
          else opt_options_go fuel buf at_ end_ (Some (default (data, data_len) ck))
        else opt_options_go fuel buf at_ end_ ck
      else Ret (mkQueryOpt ck)
  end.

Definition parse_opt_options (buf : bytes) (start len : nat) : outcome QueryOpt :=
  let end_ := (start + len)%nat in
  _ ← get_range buf start end_;
  opt_options_go (S len) buf start end_ None.

(** ** The question name *)

Definition is_ascii_alphanumeric (b : Z) : bool :=
  ((48 <=? b) && (b <=? 57)) || ((65 <=? b) && (b <=? 90)) || ((97 <=? b) && (b <=? 122)).

(** A byte hickory leaves unescaped at index [i] of a label. *)
Definition unescaped (b : Z) (i : nat) : bool :=
  is_ascii_alphanumeric b || (b =? 95) || ((b =? 45) && negb (i =? 0)%nat)
  || ((b =? 42) && (i =? 0)%nat).

Definition push_byte (domain_buf : bytes) (b : Z) : outcome bytes :=
  if (length domain_buf <? MAX_DOMAIN_LEN + 1)%nat
  then Ret (domain_buf ++ [b]) else Crash Panicked.

Fixpoint copy_label (label : bytes) (i : nat) (domain_buf : bytes) : outcome bytes :=
  match label with
  | [] => Ret domain_buf
  | b :: label =>
      if unescaped b i then
        d ← push_byte domain_buf (lower_byte b); copy_label label (S i) d
      else Decline
  end.

Definition xn_prefix : bytes := [120; 110; 45; 45].

Fixpoint parse_qname_go (fuel : nat) (buf : bytes) (pos : nat) (d : bytes)
    (first_label : bool) : outcome (nat * bytes) :=
  match fuel with
  | O => Crash OutOfFuel
  | S fuel =>
      if (length buf <=? pos)%nat then Decline else
      label_len ← index buf pos;
      if label_len =? 0 then Ret (pos + 1, d)%nat
      else if negb (Z.land label_len 0xC0 =? 0) then Decline else
      let pos := (pos + 1)%nat in
      let n := Z.to_nat label_len in
      if (length buf <? pos + n)%nat then Decline else
      d ← (if first_label then Ret d
           else if (MAX_DOMAIN_LEN <=? length d)%nat then Decline
           else push_byte d 46);
      if (MAX_DOMAIN_LEN <? length d + n)%nat then Decline else
      xn ← (if (4 <=? n)%nat
            then p ← index_range buf pos (pos + 4); Ret (eq_ignore_case p xn_prefix)
            else Ret false);
      if xn : bool then Decline else
      label ← index_range buf pos (pos + n);
      d ← copy_label label 0 d;
      parse_qname_go fuel buf (pos + n) d false
  end.

(** ** Additional records *)

Record edns_state := mkEdns {
  e_max_size : Z;
  e_wants_dnssec : bool;
  e_opt : option QueryOpt;
}.

Definition is_valid_edns_version (version_byte : Z) : bool := version_byte =? 0.

(** [ar_pos] is past the root owner, with nine bytes left. *)
Definition parse_opt (buf : bytes) (ar_pos : nat) (st : edns_state)
    : outcome (nat * edns_state) :=
  if e_opt st is Some _ then Decline else
  udp_size ← be16_at buf ar_pos;
  let ar_pos := (ar_pos + 2)%nat in
  if (length buf <? ar_pos + 4)%nat then Decline else
  version ← index buf (ar_pos + 1);
  if negb (is_valid_edns_version version) then Decline else
  do_flags ← be16_at buf (ar_pos + 2);
  let ar_pos := (ar_pos + 4)%nat in
  if (length buf <? ar_pos + 2)%nat then Decline else
  rdlen ← be16_at buf ar_pos;
  o ← parse_opt_options buf (ar_pos + 2) (Z.to_nat rdlen);
  Ret ((ar_pos + 2 + Z.to_nat rdlen)%nat,
       mkEdns (Z.max udp_size 512) (bit do_flags 0x8000) (Some o)).

Definition skip_additional (buf : bytes) (ar_pos : nat) (st : edns_state)
    : outcome (nat * edns_state) :=
  let ar_pos := (ar_pos + 6)%nat in
  if (length buf <? ar_pos + 2)%nat then Decline else
  rdlen ← be16_at buf ar_pos;
  Ret ((ar_pos + 2 + Z.to_nat rdlen)%nat, st).

Fixpoint parse_additional (n : nat) (buf : bytes) (ar_pos : nat) (st : edns_state)
    : outcome edns_state :=
  match n with
  | O => Ret st
  | S n =>
      if (length buf <=? ar_pos)%nat then Ret st else
      owner ← index buf ar_pos;
      if negb (owner =? 0) then Decline else
      let ar_pos := (ar_pos + 1)%nat in
      if (length buf <? ar_pos + 9)%nat then Decline else
      rr_type ← be16_at buf ar_pos;
      let ar_pos := (ar_pos + 2)%nat in
      '(ar_pos, st) ← (if rr_type =? TYPE_OPT then parse_opt buf ar_pos st
                       else skip_additional buf ar_pos st);
      parse_additional n buf ar_pos st
  end.

(** ** The query *)

Definition fast_path_type (qtype : Z) : option (RecordType * FastPathKind) :=
  match qtype with
  | 1 => Some (A, IpAddress)
  | 2 => Some (NS, WireDataKind)
  | 5 => Some (CNAME, WireDataKind)
  | 6 => Some (SOA, WireDataKind)
  | 12 => Some (PTR, WireDataKind)
  | 15 => Some (MX, WireDataKind)
  | 16 => Some (TXT, WireDataKind)
  | 28 => Some (AAAA, IpAddress)
  | 33 => Some (SRV, WireDataKind)
  | 64 => Some (SVCB, WireDataKind)
  | 65 => Some (HTTPS, WireDataKind)
  | _ => None
  end.

Definition parse_query (buf : bytes) : outcome FastPathQuery :=
  if (length buf <? 17)%nat then Decline else
  id ← be16_at buf 0;
  flags ← be16_at buf 2;
  if bit flags 0xF800 then Decline else
  qdcount ← be16_at buf 4;
  ancount ← be16_at buf 6;
  nscount ← be16_at buf 8;
  arcount ← be16_at buf 10;
  if negb (qdcount =? 1) || negb (ancount =? 0) || negb (nscount =? 0) then Decline else
  '(pos, d) ← parse_qname_go (S (length buf)) buf 12 [] true;
  if (length buf <? pos + 4)%nat then Decline else
  qtype ← be16_at buf pos;
  qclass ← be16_at buf (pos + 2);
  let pos := (pos + 4)%nat in
  if negb (qclass =? 1) then Decline else
  '(rtype, k) ← try_some (fast_path_type qtype);
  st ← parse_additional (Z.to_nat arcount) buf pos (mkEdns 512 false None);
  Ret {| id := id; record_type := rtype; kind := k; question_end := pos;
         client_max_size := e_max_size st; wants_dnssec := e_wants_dnssec st;
         recursion_desired := bit flags 0x0100;
         checking_disabled := bit flags 0x0010;
         opt := e_opt st; domain := d |}.

(** ** Names: the specification

    The wire form of a list of labels, and the text the cache is keyed by. *)

Fixpoint wire_name (labels : list bytes) : bytes :=
  match labels with
  | [] => [0]
  | l :: labels => Z.of_nat (length l) :: l ++ wire_name labels
  end.

Fixpoint dotted (first : bool) (labels : list bytes) : bytes :=
  match labels with
  | [] => []
  | l :: labels =>
      (if first then [] else [46]) ++ (lower_byte <$> l) ++ dotted false labels
  end.

Fixpoint unescaped_from (i : nat) (label : bytes) : bool :=
  match label with [] => true | b :: label => unescaped b i && unescaped_from (S i) label end.

(** A label the fast path takes. *)
Definition plain_label (l : bytes) : bool :=
  (1 <=? length l)%nat && (length l <=? 63)%nat && unescaped_from 0 l
  && negb ((4 <=? length l)%nat && eq_ignore_case (take 4 l) xn_prefix).

(** ** Names: lemmas *)

Lemma below_256 (P : Z → bool) :
  forallb (λ n, P (Z.of_nat n)) (seq 0 256) = true → ∀ b, is_u8 b → P b = true.
Proof.
  intros H b Hb. rewrite forallb_forall in H.
  rewrite <-(Z2Nat.id b) by (unfold_ints; lia). apply H, in_seq. unfold_ints. lia.
Qed.

Lemma land_C0_small b : is_u8 b → Z.land b 0xC0 = 0 ↔ b ≤ 63.
Proof.
  intros Hb. apply (below_256 (λ b, Bool.eqb (Z.land b 0xC0 =? 0) (b <=? 63))) in Hb; [|done].
  apply eqb_prop in Hb. rewrite <-Z.eqb_eq, Hb. apply Z.leb_le.
Qed.

Lemma copy_label_Ret label : ∀ i d, (length d + length label ≤ MAX_DOMAIN_LEN)%nat →
  copy_label label i d =
  if unescaped_from i label then Ret (d ++ (lower_byte <$> label)) else Decline.
Proof.
  induction label as [|b l IH]; intros i d Hl; simpl in *; [by rewrite app_nil_r|].
  destruct (unescaped b i); simpl; [|done].
  unfold push_byte. rewrite (proj2 (Nat.ltb_lt _ _)) by lia. simpl.
  rewrite IH by (rewrite length_app; simpl; lia).
  by rewrite <-app_assoc.
Qed.

(** One label of the loop: the label, and what the name has grown to. *)
Lemma parse_qname_step fuel (buf : bytes) (pos : nat) (d : bytes) (first : bool) (b : Z) :
  bytes_ok buf → (length d ≤ MAX_DOMAIN_LEN)%nat → buf !! pos = Some b → b ≠ 0 →
  let d1 := d ++ (if first then [] else [46]) in
  let l := take (Z.to_nat b) (drop (S pos) buf) in
  parse_qname_go (S fuel) buf pos d first =
  if (b <=? 63) && (S pos + Z.to_nat b <=? length buf)%nat
     && (length d1 + Z.to_nat b <=? MAX_DOMAIN_LEN)%nat && plain_label l
  then parse_qname_go fuel buf (S pos + Z.to_nat b) (d1 ++ (lower_byte <$> l)) false
  else Decline.
Proof.
  intros Hok Hd Hb Hne d1 l. pose proof (bytes_ok_lookup _ _ _ Hok Hb) as Hu.
  pose proof (lookup_lt_Some _ _ _ Hb) as Hlt.
  cbn [parse_qname_go]. rewrite (proj2 (Nat.leb_gt _ _)) by lia.
  unfold index at 1. rewrite Hb. cbn [mbind outcome_bind].
  rewrite (proj2 (Z.eqb_neq b 0)) by done.
  destruct (Z.land b 0xC0 =? 0) eqn:Ec; cbn [negb].
  2:{ destruct (b <=? 63) eqn:E; [|done]. boolify.
      by apply land_C0_small in E. }
  apply Z.eqb_eq, land_C0_small in Ec as Hb63; [|done].
  rewrite (proj2 (Z.leb_le b 63)) by done. cbn [andb].
  replace (pos + 1)%nat with (S pos) by lia.
  destruct (length buf <? S pos + Z.to_nat b)%nat eqn:El.
  { apply Nat.ltb_lt in El. by rewrite (proj2 (Nat.leb_gt _ _)) by lia. }
  apply Nat.ltb_ge in El. rewrite (proj2 (Nat.leb_le (S pos + Z.to_nat b) _)) by done.
  cbn [andb].
  assert (Hlen : length l = Z.to_nat b) by (subst l; rewrite length_take, length_drop; lia).
  destruct (negb first && (MAX_DOMAIN_LEN <=? length d)%nat) eqn:Edot.
  { apply andb_prop in Edot as [Ef Em]. apply Nat.leb_le in Em.
    destruct first; [done|].
    rewrite (proj2 (Nat.leb_le MAX_DOMAIN_LEN (length d))) by done. cbn [mbind outcome_bind].
    subst d1. rewrite length_app. simpl.
    by rewrite (proj2 (Nat.leb_gt (length d + 1 + _) _)) by lia. }
  assert (Hdot : (if first then Ret d else if (MAX_DOMAIN_LEN <=? length d)%nat then Decline
     else push_byte d 46) = Ret d1).
  { subst d1. destruct first; [by rewrite app_nil_r|]. cbn [negb andb] in Edot. rewrite Edot.
    unfold push_byte. by rewrite (proj2 (Nat.ltb_lt _ _)) by lia. }
  rewrite Hdot. cbn [mbind outcome_bind].
  destruct (MAX_DOMAIN_LEN <? length d1 + Z.to_nat b)%nat eqn:Em.
  { apply Nat.ltb_lt in Em. by rewrite (proj2 (Nat.leb_gt _ _)) by lia. }
  apply Nat.ltb_ge in Em.
  rewrite (proj2 (Nat.leb_le (length d1 + Z.to_nat b) _)) by done. cbn [andb].
  assert (Hxn : (if (4 <=? Z.to_nat b)%nat
     then p ← index_range buf (S pos) (S pos + 4); Ret (eq_ignore_case p xn_prefix)
     else Ret false)
    = Ret ((4 <=? length l)%nat && eq_ignore_case (take 4 l) xn_prefix)).
  { rewrite Hlen. destruct (4 <=? Z.to_nat b)%nat eqn:E4; [|done]. apply Nat.leb_le in E4.
    unfold index_range, slice. rewrite decide_True by lia. cbn [mbind outcome_bind andb].
    do 2 f_equal. subst l. rewrite take_take. f_equal. lia. }
  rewrite Hxn. cbn [mbind outcome_bind]. unfold plain_label.
  rewrite (proj2 (Nat.leb_le 1 (length l))) by (unfold_ints; lia).
  rewrite (proj2 (Nat.leb_le (length l) 63)) by lia. cbn [andb].
  destruct (_ && eq_ignore_case _ _); cbn [negb]; [by rewrite andb_false_r|].
  rewrite andb_true_r. unfold index_range, slice. rewrite decide_True by lia.
  replace (S pos + Z.to_nat b - S pos)%nat with (Z.to_nat b) by lia.
  change (take (Z.to_nat b) (drop (S pos) buf)) with l. cbn [mbind outcome_bind].
  rewrite copy_label_Ret by lia. by destruct (unescaped_from 0 l).
Qed.

Lemma parse_qname_end fuel (buf : bytes) (pos : nat) d first :
  buf !! pos = Some 0 → parse_qname_go (S fuel) buf pos d first = Ret (pos + 1, d)%nat.
Proof.
  intros Hb. pose proof (lookup_lt_Some _ _ _ Hb). cbn [parse_qname_go].
  rewrite (proj2 (Nat.leb_gt _ _)) by lia. unfold index. by rewrite Hb.
Qed.

(** What the loop accepts is a wire name of plain labels, and it returns its
    text. *)
Lemma parse_qname_sound fuel (buf : bytes) : bytes_ok buf → ∀ (pos : nat) (d : bytes) (first : bool),
  (length d ≤ MAX_DOMAIN_LEN)%nat → (1 ≤ fuel ∧ length buf < pos + fuel)%nat →
  post (parse_qname_go fuel buf pos d first) (λ r, ∃ labels,
    take (r.1 - pos) (drop pos buf) = wire_name labels ∧ (pos < r.1 ≤ length buf)%nat ∧
    r.2 = d ++ dotted first labels ∧ (length r.2 ≤ MAX_DOMAIN_LEN)%nat ∧
    Forall (λ l, plain_label l = true) labels).
Proof.
  intros Hok. induction fuel as [|fuel IH]; intros pos d first Hd Hf; [lia|].
  destruct (buf !! pos) as [b|] eqn:Hb.
  2:{ apply lookup_ge_None in Hb. cbn [parse_qname_go]. by rewrite (proj2 (Nat.leb_le _ _)). }
  pose proof (lookup_lt_Some _ _ _ Hb) as Hlt.
  destruct (decide (b = 0)) as [->|Hne].
  { rewrite parse_qname_end by done. exists []. simpl. rewrite app_nil_r.
    split_and!; try done; try lia. rewrite (drop_S _ 0) by done.
    by replace (pos + 1 - pos)%nat with 1%nat by lia. }
  rewrite (parse_qname_step _ _ _ _ _ b) by done. cbv zeta.
  destruct (_ && _) eqn:E; [|exact I]. boolify.
  repeat match goal with H : (_ <=? _)%nat = true |- _ => apply Nat.leb_le in H end.
  pose proof (bytes_ok_lookup _ _ _ Hok Hb) as Hu.
  assert (0 < Z.to_nat b)%nat by (unfold_ints; lia).
  set (l := take (Z.to_nat b) (drop (S pos) buf)) in *.
  assert (Hlen : length l = Z.to_nat b) by (subst l; rewrite length_take, length_drop; lia).
  eapply post_mono; [apply IH; [rewrite !length_app, length_fmap in *; lia|lia]|].
  intros [p r] (labels & Hw & Hp & -> & Hle & Hfa). simpl in *.
  exists (l :: labels). split_and!; try done; try lia; [|by rewrite <-!app_assoc|by constructor].
  rewrite (drop_S _ b) by done. simpl. rewrite Hlen, Z2Nat.id by (unfold_ints; lia).
  replace (p - pos)%nat with (S (Z.to_nat b + (p - S (pos + Z.to_nat b)))) by lia. simpl. f_equal.
  rewrite <-take_take_drop, drop_drop. unfold l. f_equal. rewrite <-Hw. done.
Qed.

Lemma length_wire_name labels : (1 ≤ length (wire_name labels))%nat.
Proof. destruct labels; simpl; lia. Qed.

(** Every wire name of plain labels whose text fits is accepted. *)
Lemma parse_qname_complete (buf : bytes) labels : bytes_ok buf → ∀ fuel pos d first rest,
  drop pos buf = wire_name labels ++ rest → (length labels < fuel)%nat →
  Forall (λ l, plain_label l = true) labels →
  (length (d ++ dotted first labels) ≤ MAX_DOMAIN_LEN)%nat →
  parse_qname_go fuel buf pos d first
  = Ret (pos + length (wire_name labels), d ++ dotted first labels)%nat.
Proof.
  intros Hok. induction labels as [|l labels IH]; intros [|fuel] pos d first rest Hdrop Hf Hfa Hlen;
    cbn [wire_name dotted length app] in *; try lia.
  - rewrite parse_qname_end; [by rewrite app_nil_r|].
    by rewrite <-(Nat.add_0_r pos), <-lookup_drop, Hdrop.
  - inversion Hfa as [|? ? Hl Hfa']; subst. pose proof Hl as Hl2. unfold plain_label in Hl2.
    boolify. repeat match goal with H : (_ <=? _)%nat = true |- _ => apply Nat.leb_le in H end.
    assert (Hb : buf !! pos = Some (Z.of_nat (length l)))
      by (by rewrite <-(Nat.add_0_r pos), <-lookup_drop, Hdrop).
    rewrite (drop_S _ _ _ Hb) in Hdrop. injection Hdrop as Hdrop.
    rewrite <-app_assoc in Hdrop.
    rewrite (parse_qname_step _ _ _ _ _ _ Hok) by (first [done|lia|rewrite length_app in Hlen; lia]).
    cbv zeta. rewrite Nat2Z.id, Hdrop, take_app_length, Hl.
    rewrite !length_app, length_fmap in Hlen. rewrite length_app.
    assert (Hbl : (S pos + length l <= length buf)%nat).
    { apply (f_equal length) in Hdrop. rewrite length_drop, !length_app in Hdrop.
      pose proof (length_wire_name labels). lia. }
    rewrite (proj2 (Z.leb_le _ 63)), !(proj2 (Nat.leb_le _ _)) by lia. simpl.
    rewrite (IH _ _ _ _ rest); try done; try lia.
    + rewrite length_app. rewrite <-!app_assoc. do 2 f_equal. lia.
    + rewrite <-(app_nil_l (wire_name labels ++ rest)). replace (S (pos + length l)) with (S pos + length l)%nat by lia.
      rewrite <-drop_drop, Hdrop, drop_app_length. done.
    + rewrite !length_app, length_fmap. lia.
Qed.

(** ** Additional records: lemmas *)

(** The cookie of [o] lies in the packet and has a valid length. *)
Definition opt_ok (buf : bytes) (o : option QueryOpt) : Prop :=
  match o with
  | Some (mkQueryOpt (Some (start, len))) =>
      (start + len ≤ length buf)%nat ∧ is_valid_len len = true
  | _ => True
  end.

Lemma opt_options_go_post fuel buf end_ : (end_ ≤ length buf)%nat → ∀ at_ ck,
  (1 ≤ fuel ∧ end_ < at_ + fuel)%nat → opt_ok buf (Some (mkQueryOpt ck)) →
  post (opt_options_go fuel buf at_ end_ ck) (λ o, opt_ok buf (Some o)).
Proof.
  intros Hend. induction fuel as [|fuel IH]; intros at_ ck Hf Hck; simpl; [lia|].
  case_match; [|done].
  wp; try done; match goal with H : (end_ <? _)%nat = false |- _ => apply Nat.ltb_ge in H end.
  - boolify. apply IH; [lia|]. destruct ck as [[s l]|]; [done|]. simpl.
    split; [lia|done].
  - apply IH; [lia|done].
Qed.

Lemma parse_opt_options_post buf start len :
  post (parse_opt_options buf start len)
    (λ o, opt_ok buf (Some o) ∧ (start + len ≤ length buf)%nat).
Proof.
  unfold parse_opt_options. wp. eapply post_mono; [apply opt_options_go_post; [lia|lia|done]|].
  intros o Ho. split; [done|lia].
Qed.

Definition edns_ok (buf : bytes) (st : edns_state) : Prop :=
  512 ≤ e_max_size st ≤ u16_max ∧ opt_ok buf (e_opt st).

Lemma parse_additional_post n buf : bytes_ok buf → ∀ pos st, edns_ok buf st →
  post (parse_additional n buf pos st) (edns_ok buf).
Proof.
  intros Hok. induction n as [|n IH]; intros pos st Hst; simpl; [done|].
  case_match; [done|]. repeat match goal with H : (_ <=? _)%nat = false |- _ =>
    apply Nat.leb_gt in H end.
  apply post_bind, post_index; [lia|]. intros owner _. case_match; [exact I|].
  case_match; [exact I|]. match goal with H : (_ <? _)%nat = false |- _ =>
    apply Nat.ltb_ge in H end.
  apply post_bind, post_be16_at; [lia|]. intros rtype _. apply post_bind.
  eapply (post_mono _ (λ r, edns_ok buf r.2)); [|intros [p st'] Hst'; by apply IH].
  destruct (rtype =? TYPE_OPT).
  - unfold parse_opt. destruct (e_opt st) as [o|]; [exact I|].
    apply post_bind, post_be16_at; [lia|]. intros size Hsize.
    apply be16_at_range in Hsize as [Hsize _]; [|done].
    destruct (_ <? _)%nat eqn:E; [exact I|]. apply Nat.ltb_ge in E.
    apply post_bind, post_index; [lia|]. intros version _. case_match; [exact I|].
    apply post_bind, post_be16_at; [lia|]. intros flags _.
    destruct (_ <? _)%nat eqn:E2; [exact I|]. apply Nat.ltb_ge in E2.
    apply post_bind, post_be16_at; [lia|]. intros rdlen _.
    apply post_bind. eapply post_mono; [apply parse_opt_options_post|]. intros o [Ho _].
    simpl. unfold edns_ok. simpl. unfold_ints. split; [lia|done].
  - unfold skip_additional. destruct (_ <? _)%nat eqn:E; [exact I|]. apply Nat.ltb_ge in E.
    apply post_bind, post_be16_at; [lia|]. intros rdlen _. done.
Qed.

Lemma fast_path_type_to_u16 qtype rt k : fast_path_type qtype = Some (rt, k) → to_u16 rt = qtype.
Proof.
  intros H. destruct (decide (0 ≤ qtype ≤ 65)) as [Hr|Hr].
  - assert (Hc : ∀ c, is_u8 c → (match fast_path_type c with
      | Some (rt, _) => to_u16 rt =? c | None => true end) = true)
      by (by apply below_256).
    specialize (Hc qtype). rewrite H in Hc. apply Z.eqb_eq, Hc. unfold_ints. lia.
  - unfold fast_path_type in H. repeat case_match; try discriminate; lia.
Qed.

(** ** The queries of a stub resolver *)

Definition client_query (qid flags : Z) (labels : list bytes) (qtype : Z)
    (edns : option (Z * Z)) : bytes :=
  (u16_be qid ++ u16_be flags ++ [0; 1; 0; 0; 0; 0; 0; if edns is Some _ then 1 else 0])
  ++ (wire_name labels ++ u16_be qtype ++ u16_be CLASS_IN)
  ++ match edns with
     | Some (size, do_flags) =>
         [0; 0; 41] ++ u16_be size ++ [0; 0] ++ u16_be do_flags ++ [0; 0]
     | None => []
     end.

Lemma unescaped_u8 b i : unescaped b i = true → is_u8 b.
Proof.
  unfold unescaped, is_ascii_alphanumeric. unfold_ints.
  intros H. repeat (apply orb_true_iff in H as [H|H]); boolify; lia.
Qed.

Lemma plain_label_ok l : plain_label l = true → bytes_ok l.
Proof.
  unfold plain_label. intros [[_ Hu]%andb_prop _]%andb_prop. revert Hu.
  generalize 0%nat. 
  induction l as [|b l IH]; intros i; simpl; [constructor|]. intros [Hb Hl]%andb_prop.
  constructor; [by eapply unescaped_u8|by eapply IH].
Qed.

Lemma wire_name_ok labels : Forall (λ l, plain_label l = true) labels → bytes_ok (wire_name labels).
Proof.
  induction 1 as [|l labels Hl _ IH]; simpl; [by repeat constructor|].
  constructor.
  - unfold plain_label in Hl. boolify.
    match goal with H : (length l <=? 63)%nat = true |- _ => apply Nat.leb_le in H end.
    unfold_ints. lia.
  - apply Forall_app; split; [by apply plain_label_ok|done].
Qed.

Lemma client_query_ok qid flags labels qtype edns :
  Forall (λ l, plain_label l = true) labels → bytes_ok (client_query qid flags labels qtype edns).
Proof.
  intros Hl. unfold client_query, bytes_ok.
  repeat (apply Forall_app; split); try apply u16_be_ok; try by apply wire_name_ok.
  - destruct edns; repeat (constructor; [unfold_ints; lia|]); constructor.
  - destruct edns as [[size fl]|]; [|constructor].
    repeat (apply Forall_app; split); try apply u16_be_ok;
      repeat (constructor; [unfold_ints; lia|]); constructor.
Qed.

Lemma parse_opt_options_empty buf p : (p ≤ length buf)%nat →
  parse_opt_options buf p 0 = Ret (mkQueryOpt None).
Proof.
  intros Hp. unfold parse_opt_options, get_range, slice.
  rewrite decide_True by lia. cbn [mbind outcome_bind try_some opt_options_go].
  by rewrite (proj2 (Nat.ltb_ge _ _)) by lia.
Qed.

Lemma parse_additional_opt pre size f : is_u16 size → is_u16 f →
  let tail := [0; 0; 41] ++ u16_be size ++ [0; 0] ++ u16_be f ++ [0; 0] in
  parse_additional 1 (pre ++ tail) (length pre) (mkEdns 512 false None)
  = Ret (mkEdns (Z.max size 512) (bit f 0x8000) (Some (mkQueryOpt None))).
Proof.
  intros Hs Hf tail. set (p := length pre). set (buf := pre ++ tail).
  assert (Hl : length buf = (p + 11)%nat) by (unfold buf; by rewrite length_app).
  assert (Hi : ∀ k, index buf (p + k) = index tail k) by (intros; apply index_app).
  assert (Hb : ∀ k, be16_at buf (p + k) = be16_at tail k) by (intros; apply be16_at_app).
  cbn [parse_additional]. rewrite Hl, (proj2 (Nat.leb_gt _ _)) by lia.
  rewrite <-(Nat.add_0_r p) at 1. rewrite Hi. change (index tail 0) with (Ret (A:=Z) 0).
  cbn [mbind outcome_bind Z.eqb negb].
  rewrite (proj2 (Nat.ltb_ge _ _)) by lia. rewrite Hb.
  change (be16_at tail 1) with (Ret 41). cbn [mbind outcome_bind].
  change (41 =? TYPE_OPT) with true. cbv iota. unfold parse_opt. cbn [e_opt]. cbv zeta.
  rewrite <-!Nat.add_assoc. cbn [Nat.add]. rewrite !Hb, Hi, Hl.
  change (be16_at tail 3) with (Ret (be16 (size / 256 mod 256) (size mod 256))).
  change (be16_at tail 7) with (Ret (be16 (f / 256 mod 256) (f mod 256))).
  change (be16_at tail 9) with (Ret 0). change (index tail 6) with (Ret (A:=Z) 0).
  rewrite !be16_u16_be by done. cbn [mbind outcome_bind].
  rewrite !(proj2 (Nat.ltb_ge _ _)) by lia. cbn [is_valid_edns_version Z.eqb negb].
  rewrite parse_opt_options_empty by lia. done.
Qed.

(** ** Properties *)

(** [exAmple.com A] with RD, an EDNS size of 4096 and DO. *)
Definition demo_labels : list bytes :=
  [[101; 120; 65; 109; 112; 108; 101]; [99; 111; 109]].
Definition demo_packet : bytes :=
  client_query 4660 0x0100 demo_labels 1 (Some (4096, 0x8000)).

(** What the parser returns, read off the packet. *)
Lemma parse_query_post (buf : bytes) :
  bytes_ok buf →
  post (parse_query buf) (λ q, ∃ labels flags,
    be16_at buf 0 = Ret (id q) ∧ be16_at buf 2 = Ret flags ∧ bit flags 0xF800 = false ∧
    recursion_desired q = bit flags 0x0100 ∧ checking_disabled q = bit flags 0x0010 ∧
    slice buf 12 (question_end q) =
      Some (wire_name labels ++ u16_be (to_u16 (record_type q)) ++ u16_be CLASS_IN) ∧
    Forall (λ l, plain_label l = true) labels ∧
    domain q = dotted true labels ∧ (length (domain q) ≤ MAX_DOMAIN_LEN)%nat ∧
    512 ≤ client_max_size q ≤ u16_max ∧ opt_ok buf (opt q)).
Proof.
  intros Hok. unfold parse_query.
  destruct (length buf <? 17)%nat eqn:E17; [exact I|]. apply Nat.ltb_ge in E17.
  apply post_bind, post_be16_at; [lia|]. intros qid Hid.
  apply post_bind, post_be16_at; [lia|]. intros flags Hflags. destruct (bit flags 0xF800) eqn:Eop; [exact I|].
  do 4 (apply post_bind, post_be16_at; [lia|]; intros ? _). case_match; [exact I|].
  apply post_bind. eapply post_mono; [apply (parse_qname_sound _ _ Hok); simpl; lia|].
  intros [pos d] (labels & Hw & Hpos & Hd & Hlen & Hfa). cbn [fst snd app] in *.
  destruct (_ <? _)%nat eqn:E; [exact I|]. apply Nat.ltb_ge in E.
  apply post_bind, post_be16_at; [lia|]. intros qtype Hqt.
  apply post_bind, post_be16_at; [lia|]. intros qclass Hqc. cbv zeta.
  destruct (negb (qclass =? 1)) eqn:Ec; [exact I|]. boolify. subst qclass.
  apply post_bind, post_try_some. intros [rt k] Hft.
  apply post_bind. eapply post_mono.
  { apply parse_additional_post; [done|]. split; [|done]. simpl. unfold_ints. lia. }
  intros st [Hsize Hopt]. cbn [post]. exists labels, flags. cbn [domain id question_end record_type opt
    client_max_size recursion_desired checking_disabled]. split_and!; try done; try (by destruct Hsize).
  apply slice_Some. split; [lia|].
  apply be16_at_range in Hqt as (_ & _ & Hqt), Hqc as (_ & _ & Hqc); [|done..].
  rewrite (fast_path_type_to_u16 _ _ _ Hft), Hqt. unfold CLASS_IN. rewrite Hqc, <-Hw.
  replace (drop pos buf) with (drop (pos - 12) (drop 12 buf)) by (rewrite drop_drop; f_equal; lia).
  replace (drop (pos + 2) buf) with (drop 2 (drop (pos - 12) (drop 12 buf)))
    by (rewrite !drop_drop; f_equal; lia).
  rewrite !take_take_drop. f_equal. lia.
Qed.

(** C38: No packet makes the fast path read out of bounds or loop, and what it
    accepts is a query as it stands on the wire: the question is an
    uncompressed name of plain labels under the packet's ID and flags, whose
    lower-case text is the key it
    returns (at most 253 bytes), then a type it serves and class IN; the
    advertised size is between 512 and 65,535, and a cookie lies within the
    packet and has a length of RFC 7873. *)
Theorem parse_query_sound (buf : bytes) :
  bytes_ok buf →
  post (parse_query buf) (λ q, ∃ labels flags,
    be16_at buf 0 = Ret (id q) ∧ be16_at buf 2 = Ret flags ∧ bit flags 0xF800 = false ∧
    recursion_desired q = bit flags 0x0100 ∧ checking_disabled q = bit flags 0x0010 ∧
    slice buf 12 (question_end q) =
      Some (wire_name labels ++ u16_be (to_u16 (record_type q)) ++ u16_be CLASS_IN) ∧
    Forall (λ l, plain_label l = true) labels ∧
    domain q = dotted true labels ∧ (length (domain q) ≤ MAX_DOMAIN_LEN)%nat ∧
    512 ≤ client_max_size q ≤ u16_max ∧ opt_ok buf (opt q)).
Proof. apply parse_query_post. Qed.

Lemma parse_query_sound_witness :
  post (parse_query demo_packet) (λ q, ∃ labels flags,
    be16_at demo_packet 0 = Ret (id q) ∧ be16_at demo_packet 2 = Ret flags ∧ bit flags 0xF800 = false ∧
    recursion_desired q = bit flags 0x0100 ∧ checking_disabled q = bit flags 0x0010 ∧
    slice demo_packet 12 (question_end q) =
      Some (wire_name labels ++ u16_be (to_u16 (record_type q)) ++ u16_be CLASS_IN) ∧
    Forall (λ l, plain_label l = true) labels ∧
    domain q = dotted true labels ∧ (length (domain q) ≤ MAX_DOMAIN_LEN)%nat ∧
    512 ≤ client_max_size q ≤ u16_max ∧ opt_ok demo_packet (opt q)).
Proof.
  apply (parse_query_sound demo_packet), client_query_ok.
  repeat constructor; reflexivity.
Defined.

(** Every plain query is taken by the fast path: for a name of plain labels
    within the length limit, a type the fast path serves and an optional OPT
    without options, it returns exactly the query that was sent. *)
Theorem parse_query_complete (qid flags qtype : Z) (labels : list bytes)
    (edns : option (Z * Z)) (rt : RecordType) (k : FastPathKind) :
  is_u16 qid → is_u16 flags → bit flags 0xF800 = false →
  Forall (λ l, plain_label l = true) labels → (length (dotted true labels) ≤ MAX_DOMAIN_LEN)%nat →
  fast_path_type qtype = Some (rt, k) →
  match edns with Some (size, do_flags) => is_u16 size ∧ is_u16 do_flags | None => True end →
  parse_query (client_query qid flags labels qtype edns) =
  Ret {| id := qid; record_type := rt; kind := k;
         question_end := 12 + length (wire_name labels) + 4;
         client_max_size := match edns with Some (size, _) => Z.max size 512 | None => 512 end;
         wants_dnssec := match edns with Some (_, f) => bit f 0x8000 | None => false end;
         recursion_desired := bit flags 0x0100; checking_disabled := bit flags 0x0010;
         opt := match edns with Some _ => Some (mkQueryOpt None) | None => None end;
         domain := dotted true labels |}.
Proof.
  intros Hid Hflags Hbits Hl Hlen Ht He.
  pose proof (client_query_ok qid flags labels qtype edns Hl) as Hok.
  set (ar := match edns with Some _ => 1 | None => 0 end).
  set (tail := match edns with Some (size, do_flags) =>
         [0; 0; 41] ++ u16_be size ++ [0; 0] ++ u16_be do_flags ++ [0; 0] | None => [] end).
  set (hd := u16_be qid ++ u16_be flags ++ [0; 1; 0; 0; 0; 0; 0; ar]).
  set (qs := wire_name labels ++ u16_be qtype ++ u16_be CLASS_IN).
  set (n := length (wire_name labels)).
  assert (Hbuf : client_query qid flags labels qtype edns = hd ++ qs ++ tail) by done.
  rewrite Hbuf in *. set (buf := hd ++ qs ++ tail) in *.
  assert (Hqs : length qs = (n + 4)%nat) by (unfold qs, n; rewrite !length_app; simpl; lia).
  assert (Hlb : length buf = (12 + (n + 4) + length tail)%nat)
    by (unfold buf; rewrite !length_app, Hqs; simpl; lia).
  pose proof (length_wire_name labels) as Hn. fold n in Hn.
  assert (Hqt16 : is_u16 qtype).
  { rewrite <-(fast_path_type_to_u16 _ _ _ Ht). clear. destruct rt; vm_compute; split; discriminate. }
  assert (H0 : be16_at buf 0 = Ret qid) by (change (Ret (be16 (qid / 256 mod 256) (qid mod 256)) = Ret qid); by rewrite be16_u16_be).
  assert (H2 : be16_at buf 2 = Ret flags) 
    by (change (Ret (be16 (flags / 256 mod 256) (flags mod 256)) = Ret flags); by rewrite be16_u16_be).
  assert (H4 : be16_at buf 4 = Ret 1) by done. assert (H6 : be16_at buf 6 = Ret 0) by done.
  assert (H8 : be16_at buf 8 = Ret 0) by done. assert (H10 : be16_at buf 10 = Ret ar) by done.
  assert (Hname : parse_qname_go (S (length buf)) buf 12 [] true = Ret (12 + n, dotted true labels)%nat).
  { apply (parse_qname_complete buf labels Hok _ 12 [] true
      (u16_be qtype ++ u16_be CLASS_IN ++ tail)); [|  |done|done].
    - unfold buf, qs. rewrite <-!app_assoc. done.
    - rewrite Hlb. assert (length labels < n)%nat; [|lia]. unfold n. clear.
      induction labels as [|l ls IH]; simpl; [lia|]. rewrite length_app. lia. }
  assert (Hat : ∀ k, be16_at buf (12 + n + k) = be16_at (u16_be qtype ++ u16_be CLASS_IN ++ tail) k).
  { intros j. unfold buf, qs. rewrite <-!app_assoc.
    rewrite (app_assoc hd).
    assert (E : (12 + n)%nat = length (hd ++ wire_name labels)) by (by rewrite length_app).
    rewrite E. apply be16_at_app. }
  assert (Ht0 : be16_at buf (12 + n) = Ret qtype).
  { rewrite <-(Nat.add_0_r (12 + n)), Hat.
    change (Ret (be16 (qtype / 256 mod 256) (qtype mod 256)) = Ret qtype). by rewrite be16_u16_be. }
  assert (Ht2 : be16_at buf (12 + n + 2) = Ret 1) by (rewrite Hat; done).
  assert (Hadd : parse_additional (Z.to_nat ar) buf (12 + n + 4) (mkEdns 512 false None)
    = Ret (mkEdns (match edns with Some (size, _) => Z.max size 512 | None => 512 end)
             (match edns with Some (_, f) => bit f 0x8000 | None => false end)
             (match edns with Some _ => Some (mkQueryOpt None) | None => None end))).
  { unfold ar, buf. destruct edns as [[size f]|]; [|done]. destruct He as [Hs Hf].
    replace (12 + n + 4)%nat with (length (hd ++ qs)) by (rewrite length_app, Hqs; simpl; lia).
    rewrite (app_assoc hd). by apply parse_additional_opt. }
  unfold parse_query. rewrite (proj2 (Nat.ltb_ge (length buf) 17)) by lia.
  rewrite H0; cbn [mbind outcome_bind]. rewrite H2; cbn [mbind outcome_bind]. rewrite Hbits.
  rewrite H4, H6, H8, H10; cbn [mbind outcome_bind Z.eqb Pos.eqb negb orb].
  rewrite Hname; cbn [mbind outcome_bind]. rewrite (proj2 (Nat.ltb_ge _ _)) by lia.
  rewrite Ht0, Ht2; cbn [mbind outcome_bind Z.eqb Pos.eqb negb].
  rewrite Ht; cbn [mbind outcome_bind try_some]. rewrite Hadd; cbn [mbind outcome_bind].
  done.
Qed.

Lemma parse_query_complete_witness :
  parse_query demo_packet =
  Ret {| id := 4660; record_type := A; kind := IpAddress; question_end := 29;
         client_max_size := 4096; wants_dnssec := true;
         recursion_desired := true; checking_disabled := false;
         opt := Some (mkQueryOpt None);
         domain := [101; 120; 97; 109; 112; 108; 101; 46; 99; 111; 109] |}.
Proof.
  apply (parse_query_complete 4660 0x0100 1 demo_labels (Some (4096, 0x8000)) A IpAddress);
    try reflexivity.
  - unfold_ints; lia.
  - unfold_ints; lia.
  - repeat constructor; reflexivity.
  - apply Nat.leb_le. reflexivity.
  - split; unfold_ints; lia.
Defined.
