(* ===== verification/Routes.v ===== *)
(** Conditional pools: which upstream pool answers a name.
    [domain/src/config/upstream.rs] and
    [infrastructure/src/dns/load_balancer/routes.rs], with the flag
    [load_balancer/pool.rs] keeps beside the live routes; then what the check of
    a configuration rules out, and when a reload changes where a name goes
    ([load_balancer/upstream_reload_adapter.rs]). *)

From Stdlib Require Import String.
From stdpp Require Import sorting pretty relations.
From stdpp Require Import relations.
From S2P Require Import Prelude Errors Text FastPath.

#[local] Set Default Proof Using "Type".

(** ** Configured pools *)

Inductive UpstreamStrategy := StParallel | StFailover | StBalanced.

Record UpstreamPool := mkPool {
  pool_name : str; pool_strategy : UpstreamStrategy; pool_priority : Z; pool_servers : list str;
  pool_domains : list str; pool_groups : list Z; pool_internal : bool;
}.

Definition is_conditional (p : UpstreamPool) : bool := negb (bool_decide (pool_domains p = [])).

Definition LOCAL_MAX_NAME_LEN : nat := 253.
Definition MAX_LABEL_LEN : nat := 63.

Definition label_char (c : Z) : bool := is_ascii_alphanumeric c || (c =? 45) || (c =? 95).

Definition validate_label (field : string) (label : str) : string + unit :=
  if bool_decide (label = []) then inl (field +:+ " cannot contain an empty label")
  else if (MAX_LABEL_LEN <? utf8_len label)%nat then
    inl (field +:+ " label cannot exceed " +:+ pretty MAX_LABEL_LEN +:+ " characters")
  else if forallb label_char label then inr ()
  else inl (field +:+ " contains invalid characters (only alphanumeric, hyphens and underscores are allowed)").

Definition validate_labels (name : str) (field : string) : string + unit :=
  fold_try (λ _, validate_label field) () (split 46 name).

(** [LocalDnsRecord::validate_domain]. *)
Definition validate_domain (domain : str) : string + unit :=
  if bool_decide (domain = []) then inl "Domain cannot be empty"
  else if (LOCAL_MAX_NAME_LEN <? utf8_len domain)%nat then
    inl ("Domain cannot exceed " +:+ pretty LOCAL_MAX_NAME_LEN +:+ " characters")
  else if contains_char 42 domain then
    inl "Domain cannot contain a wildcard: put the '*' in the hostname"
  else validate_labels domain "Domain".

(** The owners of the claims seen; a route as configured: domain, client group,
    pool, and whether the pool is internal. *)
Abbreviation claims_map := (gmap (str * option Z) str).
Abbreviation RouteEntry := (str * option Z * str * bool)%type.

(** The routes of a set of pools, over [idna::domain_to_ascii]. *)
Section routes.
Context (domain_to_ascii : str → string + str).

Definition strip_dots (domain : str) : str :=
  let trimmed := trim domain in
  let trimmed := default trimmed (strip_prefix [46] trimmed) in
  default trimmed (strip_suffix trimmed [46]).

Definition normalize_route_domain (domain : str) : string + str :=
  let trimmed := strip_dots domain in
  if contains_char 42 trimmed then
    inl "a wildcard is not needed: a domain already covers every name under it"
  else
    ascii ← (if is_ascii trimmed then inr (to_ascii_lowercase trimmed)
             else match domain_to_ascii trimmed with
                  | inr a => inr a
                  | inl e => inl ("not a valid domain name (" +:+ e +:+ ")")
                  end);
    _ ← validate_domain ascii;
    inr ascii.

Definition normalized_domain (p : UpstreamPool) (domain : str) : DomainError + str :=
  match normalize_route_domain domain with
  | inr d => inr d
  | inl reason =>
      inl (Error.ConfigError ("Pool '" +:+ to_string (pool_name p) +:+ "': domain '"
                              +:+ to_string domain +:+ "': " +:+ reason))
  end.
Definition normalized_domains (p : UpstreamPool) : DomainError + list str :=
  mapM (normalized_domain p) (pool_domains p).

(** ** The check of a configuration *)

Definition group_id_ok (id : Z) : bool := (0 <? id) && (id <=? u32_max).
Definition not_a_group {A} (p : UpstreamPool) (id : Z) : DomainError + A :=
  inl (Error.ConfigError ("Pool '" +:+ to_string (pool_name p) +:+ "': " +:+ pretty id
                          +:+ " is not a client group id")).

Definition scopes_of (p : UpstreamPool) : list (option Z) :=
  if bool_decide (pool_groups p = []) then [None] else Some <$> pool_groups p.

Definition clients_of (scope : option Z) : string :=
  match scope with Some id => "client group " +:+ pretty id | None => "every client" end.

Definition claim (p : UpstreamPool) (domain : str) (claimed : claims_map) (scope : option Z)
    : DomainError + claims_map :=
  let owner := default (pool_name p) (claimed !! (domain, scope)) in
  if bool_decide (owner = pool_name p) then inr (<[(domain, scope) := owner]> claimed)
  else inl (Error.ConfigError ("Domain '" +:+ to_string domain +:+ "' is routed to both pool '"
              +:+ to_string owner +:+ "' and pool '" +:+ to_string (pool_name p) +:+ "' for "
              +:+ clients_of scope)).

Definition validate_pool (claimed : claims_map) (p : UpstreamPool) : DomainError + claims_map :=
  if negb (is_conditional p) then
    if negb (bool_decide (pool_groups p = [])) then
      inl (Error.ConfigError ("Pool '" +:+ to_string (pool_name p)
        +:+ "' sets groups without domains: groups only choose who a pool's domains are routed for"))
    else if pool_internal p then
      inl (Error.ConfigError ("Pool '" +:+ to_string (pool_name p)
        +:+ "' is internal without domains: only a pool that answers its own domains can be internal"))
    else inr claimed
  else
    match find (λ id, negb (group_id_ok id)) (pool_groups p) with
    | Some id => not_a_group p id
    | None =>
        domains ← normalized_domains p;
        fold_try (λ claimed d, fold_try (claim p d) claimed (scopes_of p)) claimed domains
    end.

Definition validate_pool_routes (pools : list UpstreamPool) : DomainError + unit :=
  if bool_decide (pools = []) then inr ()
  else if forallb is_conditional pools then
    inl (Error.ConfigError "At least one pool must have no domains, to answer every other query")
  else _ ← fold_try validate_pool ∅ pools; inr ().

(** ** The table of routes *)

Record Route := mkRoute { route_view : Z; route_internal : bool }.

Record DomainRoutes := mkDomainRoutes { every_client : option nat; by_group : list (Z * nat) }.
Definition no_routes : DomainRoutes := mkDomainRoutes None [].

Definition group_route (r : DomainRoutes) (group : Z) : option (nat * Z) :=
  (λ e : Z * nat, (e.2, group)) <$> find (λ e, e.1 =? group) (by_group r).
Definition client_route (r : DomainRoutes) : option (nat * Z) := (λ i, (i, 0)) <$> every_client r.
Definition matching (r : DomainRoutes) (group : option Z) : option (nat * Z) :=
  match group ≫= group_route r with Some found => Some found | None => client_route r end.

Record PoolRoutes := mkRoutes {
  by_domain : gmap str DomainRoutes; internal_pools : list bool; has_group_routes : bool;
  signature : list RouteEntry;
}.

(** The derived order of the entries. *)
Fixpoint compare_str (a b : str) : comparison :=
  match a, b with
  | [], [] => Eq
  | [], _ => Lt
  | _, [] => Gt
  | x :: a, y :: b => match x ?= y with Eq => compare_str a b | c => c end
  end.
Definition compare_scope (a b : option Z) : comparison :=
  match a, b with
  | None, None => Eq
  | None, Some _ => Lt
  | Some _, None => Gt
  | Some x, Some y => x ?= y
  end.
Definition compare_entry (a b : RouteEntry) : comparison :=
  let '(d, s, n, i) := a in
  let '(d', s', n', i') := b in
  match compare_str d d' with
  | Eq =>
      match compare_scope s s' with
      | Eq => match compare_str n n' with Eq => Bool.compare i i' | c => c end
      | c => c
      end
  | c => c
  end.
Definition entry_le (a b : RouteEntry) : Prop := compare_entry a b ≠ Gt.
#[local] Instance entry_le_dec : RelDecision entry_le.
Proof. intros a b. unfold entry_le. apply _. Defined.

(** [Vec::dedup]. *)
Fixpoint dedup (l : list RouteEntry) : list RouteEntry :=
  match l with
  | [] => []
  | x :: l' =>
      match dedup l' with
      | [] => [x]
      | y :: r => if bool_decide (x = y) then y :: r else x :: y :: r
      end
  end.

Definition group_id (p : UpstreamPool) (id : Z) : DomainError + Z :=
  if group_id_ok id then inr id else not_a_group p id.

(** The parents of a domain: what follows each of its dots. *)
Fixpoint parents (domain : str) : list str :=
  match domain with
  | [] => []
  | c :: rest => if c =? 46 then rest :: parents rest else parents rest
  end.

Definition entry (m : gmap str DomainRoutes) (d : str) : DomainRoutes := default no_routes (m !! d).
Definition touch (m : gmap str DomainRoutes) (d : str) : gmap str DomainRoutes := <[d := entry m d]> m.

Definition add_group (index : nat) (groups : list (Z * nat)) (group : Z) : list (Z * nat) :=
  if existsb (λ e : Z * nat, e.1 =? group) groups then groups else groups ++ [(group, index)].
Definition claim_routes (index : nat) (groups : list Z) (r : DomainRoutes) : DomainRoutes :=
  mkDomainRoutes
    (if bool_decide (groups = [])
     then match every_client r with Some i => Some i | None => Some index end
     else every_client r)
    (foldl (add_group index) (by_group r) groups).

Definition signature_of (p : UpstreamPool) (groups : list Z) (domain : str) : list RouteEntry :=
  (if bool_decide (groups = []) then [(domain, None, pool_name p, pool_internal p)] else [])
  ++ ((λ g, (domain, Some g, pool_name p, pool_internal p)) <$> groups).

Definition add_domain (index : nat) (p : UpstreamPool) (groups : list Z) (t : PoolRoutes) (domain : str)
    : PoolRoutes :=
  let m := foldl touch (by_domain t) (parents domain) in
  mkRoutes (<[domain := claim_routes index groups (entry m domain)]> m) (internal_pools t)
    (has_group_routes t) (signature t ++ signature_of p groups domain).

Definition add_pool (t : PoolRoutes) (ip : nat * UpstreamPool) : DomainError + PoolRoutes :=
  let '(index, p) := ip in
  groups ← mapM (group_id p) (pool_groups p);
  domains ← normalized_domains p;
  let t := foldl (add_domain index p groups) t domains in
  inr (mkRoutes (by_domain t) (internal_pools t)
         (has_group_routes t || (is_conditional p && negb (bool_decide (groups = [])))) (signature t)).

Definition enumerate (pools : list UpstreamPool) : list (nat * UpstreamPool) :=
  imap pair pools.

Definition build (pools : list UpstreamPool) : DomainError + PoolRoutes :=
  t ← fold_try add_pool (mkRoutes ∅ (pool_internal <$> pools) false []) (enumerate pools);
  inr (mkRoutes (by_domain t) (internal_pools t) (has_group_routes t)
         (dedup (merge_sort entry_le (signature t)))).

Definition differs_from (t t' : PoolRoutes) : bool := negb (bool_decide (signature t = signature t')).

(** ** Lookups *)

Definition QUERY_MAX_NAME_LEN : nat := 255.
Definition is_upper_char (c : Z) : bool := (65 <=? c) && (c <=? 90).

Definition u32_try_from (id : Z) : option Z := if (0 <=? id) && (id <=? u32_max) then Some id else None.

Definition label_start (prefix : str) : nat :=
  match rfind_char 46 prefix with Some dot => S dot | None => 0%nat end.

(** The loop of [lookup], from the top-level label down. *)
Fixpoint descend (fuel : nat) (t : PoolRoutes) (group : option Z) (name : str) (prefix_end : nat)
    (best : option (nat * Z)) : outcome (option (nat * Z)) :=
  match fuel with
  | O => Crash OutOfFuel
  | S fuel =>
      prefix ← index_range name 0 prefix_end;
      let start := label_start prefix in
      suffix ← index_range name start (length name);
      match by_domain t !! suffix with
      | None => Ret best
      | Some routes =>
          let best := match matching routes group with Some found => Some found | None => best end in
          if (start =? 0)%nat then Ret best else descend fuel t group name (start - 1) best
      end
  end.

Definition lowered_name (domain : str) : outcome str :=
  let name := default domain (strip_suffix domain [46]) in
  if existsb is_upper_char name then
    if (utf8_len name <=? QUERY_MAX_NAME_LEN)%nat then Ret (to_ascii_lowercase name) else Decline
  else Ret name.

Definition routes_lookup (t : PoolRoutes) (domain : str) (group : option Z) : outcome (nat * Route) :=
  if bool_decide (by_domain t = ∅) then Decline
  else
    name ← lowered_name domain;
    best ← descend (S (length name)) t (group ≫= u32_try_from) name (length name) None;
    found ← try_some best;
    internal ← index (internal_pools t) found.1;
    Ret (found.1, mkRoute found.2 internal).

End routes.

(** ** What a lookup means *)

Section spec.
Context (domain_to_ascii : str → string + str).

(** The first pool that routes exactly [d] for [scope]. *)
Definition scope_of (scope : option Z) (p : UpstreamPool) : bool :=
  match scope with
  | None => bool_decide (pool_groups p = [])
  | Some g => bool_decide (g ∈ pool_groups p)
  end.
Definition routes_domain (d : str) (scope : option Z) (p : UpstreamPool) : bool :=
  match normalized_domains domain_to_ascii p with
  | inr ds => bool_decide (d ∈ ds) && scope_of scope p
  | inl _ => false
  end.
Definition claimed (pools : list UpstreamPool) (scope : option Z) (d : str) : option nat :=
  fst <$> list_find (λ p, routes_domain d scope p = true) pools.

(** At one domain the client's group goes first. *)
Definition owner (pools : list UpstreamPool) (group : option Z) (d : str) : option (nat * Z) :=
  match group ≫= λ g, (λ i, (i, g)) <$> claimed pools (Some g) d with
  | Some found => Some found
  | None => (λ i, (i, 0)) <$> claimed pools None d
  end.

(** The name, then its parents: the most specific first. *)
Definition suffixes (name : str) : list str := name :: parents name.
Definition most_specific (pools : list UpstreamPool) (group : option Z) (name : str) : option (nat * Z) :=
  head (omap (owner pools group) (suffixes name)).

End spec.

(** ** The walk from the top-level label *)

Lemma rfind_char_None c s : rfind_char c s = None → c ∉ s.
Proof.
  induction s as [|x s IH]; cbn; [set_solver|]. destruct (rfind_char c s); [done|].
  destruct (Z.eqb_spec x c); [done|]. set_solver.
Qed.

Lemma rfind_char_Some c s i : rfind_char c s = Some i →
  ∃ a b, s = a ++ c :: b ∧ length a = i ∧ c ∉ b.
Proof.
  revert i. induction s as [|x s IH]; intros i; cbn; [done|].
  destruct (rfind_char c s) as [j|] eqn:E.
  - intros [= <-]. destruct (IH j eq_refl) as (a & b & -> & <- & Hb). by exists (x :: a), b.
  - destruct (Z.eqb_spec x c) as [->|]; [|done]. intros [= <-].
    exists [], s. split_and!; [done..|]. by apply rfind_char_None.
Qed.

Lemma parents_plain s : 46 ∉ s → parents s = [].
Proof.
  induction s as [|x s IH]; cbn; [done|]. intros Hs.
  destruct (Z.eqb_spec x 46); [set_solver|]. apply IH. set_solver.
Qed.

Lemma parents_app a b : parents (a ++ 46 :: b) = ((.++ 46 :: b) <$> parents a) ++ b :: parents b.
Proof.
  induction a as [|x a IH]; cbn; [done|]. rewrite IH. by destruct (x =? 46).
Qed.

Lemma parents_spec d p : p ∈ parents d ↔ ∃ a, d = a ++ 46 :: p.
Proof.
  induction d as [|x d IH]; cbn.
  { split; [by inversion 1|]. intros [[|??] ?]; done. }
  destruct (Z.eqb_spec x 46) as [->|Hx].
  - rewrite elem_of_cons, IH. split.
    + intros [->|[a ->]]; [by exists []|by exists (46 :: a)].
    + intros [[|y a] [= ]]; [by left|]. subst. right. by exists a.
  - rewrite IH. split.
    + intros [a ->]. by exists (x :: a).
    + intros [[|y a] [= ]]; [done|]. subst. by exists a.
Qed.

Lemma parents_trans d p q : p ∈ parents d → q ∈ parents p → q ∈ parents d.
Proof.
  rewrite !parents_spec. intros [a ->] [b ->]. exists (a ++ 46 :: b). by rewrite <-app_assoc.
Qed.

(** Walking the suffixes, the least specific first. *)
Fixpoint best_of (t : PoolRoutes) (group : option Z) (names : list str) (best : option (nat * Z))
    : option (nat * Z) :=
  match names with
  | [] => best
  | d :: names =>
      match by_domain t !! d with
      | None => best
      | Some r =>
          best_of t group names (match matching r group with Some found => Some found | None => best end)
      end
  end.

Lemma index_range_app {A} (a b : list A) : index_range (a ++ b) 0 (length a) = Ret a.
Proof.
  apply index_range_Ret. rewrite length_app, drop_0, Nat.sub_0_r, take_app_length. split; [lia|done].
Qed.

Lemma index_range_rest {A} (a b : list A) : index_range (a ++ b) (length a) (length (a ++ b)) = Ret b.
Proof.
  apply index_range_Ret. rewrite length_app, drop_app_length, firstn_all2 by lia. split; [lia|done].
Qed.

Lemma descend_spec fuel t group pre post best : (length pre < fuel)%nat →
  descend fuel t group (pre ++ post) (length pre) best
  = Ret (best_of t group (reverse ((.++ post) <$> suffixes pre)) best).
Proof.
  revert pre post best. induction fuel as [|fuel IH]; intros pre post best Hf; [lia|].
  cbn [descend]. rewrite index_range_app. cbn [mbind outcome_bind].
  unfold label_start. destruct (rfind_char 46 pre) as [dot|] eqn:E.
  - apply rfind_char_Some in E as (a & b & -> & <- & Hb).
    assert (Hn : (a ++ 46 :: b) ++ post = (a ++ [46]) ++ b ++ post) by by rewrite <-!app_assoc.
    replace (S (length a)) with (length (a ++ [46])) by (rewrite length_app; cbn; lia).
    rewrite Hn, index_range_rest. cbn [mbind outcome_bind].
    unfold suffixes. rewrite parents_app, (parents_plain b), fmap_cons, fmap_app by done.
    cbn [fmap list_fmap]. rewrite reverse_cons, reverse_app. cbn [reverse rev_append app best_of].
    destruct (by_domain t !! (b ++ post)) as [r|]; [|done].
    rewrite length_app, Nat.add_sub. cbn [length Nat.eqb Nat.add]. rewrite Nat.add_1_r. cbn [Nat.eqb].
    replace ((a ++ [46]) ++ b ++ post) with (a ++ 46 :: b ++ post) by by rewrite <-app_assoc.
    rewrite IH by (rewrite length_app in Hf; cbn in Hf; lia).
    do 2 f_equal. unfold suffixes. rewrite fmap_cons, reverse_cons.
    rewrite <-list_fmap_compose. f_equal; [|by rewrite <-app_assoc].
    f_equal. apply list_fmap_ext. intros ? x _. cbn. by rewrite <-app_assoc.
  - pose proof (index_range_rest [] (pre ++ post)) as Hr. cbn [app length] in Hr.
    rewrite Hr. cbn [mbind outcome_bind Nat.eqb].
    unfold suffixes. rewrite parents_plain by by apply rfind_char_None. cbn.
    by destruct (by_domain t !! (pre ++ post)).
Qed.

(** ** What the table holds *)

Section table.
Implicit Types (p : UpstreamPool) (t : PoolRoutes).

(** The first of two claims. *)
Definition first_of {A} (a b : option A) : option A := match a with Some x => Some x | None => b end.

Definition scope_route (r : DomainRoutes) (scope : option Z) : option nat :=
  match scope with
  | None => every_client r
  | Some g => snd <$> find (λ e, e.1 =? g) (by_group r)
  end.

Lemma find_snoc_group g (groups : list (Z * nat)) h i :
  find (λ e : Z * nat, e.1 =? g) (groups ++ [(h, i)])
  = first_of (find (λ e, e.1 =? g) groups) (if h =? g then Some (h, i) else None).
Proof. induction groups as [|[h' j] groups IH]; cbn; [done|]. by destruct (h' =? g). Qed.

Lemma add_group_spec i groups h g :
  snd <$> find (λ e, e.1 =? g) (add_group i groups h)
  = first_of (snd <$> find (λ e, e.1 =? g) groups) (if h =? g then Some i else None).
Proof.
  unfold add_group. destruct (existsb _ groups) eqn:E.
  - destruct (Z.eqb_spec h g) as [->|]; [|by destruct (find _ groups)].
    apply existsb_exists in E as ([h j] & Hin & Hh).
    destruct (find (λ e, e.1 =? g) groups) eqn:F; [done|].
    by rewrite (find_none _ _ F _ Hin) in Hh.
  - rewrite find_snoc_group. destruct (find _ groups); cbn; [done|]. by destruct (h =? g).
Qed.

Lemma claim_routes_spec i groups r scope :
  scope_route (claim_routes i groups r) scope
  = first_of (scope_route r scope)
      (if match scope with None => bool_decide (groups = []) | Some g => bool_decide (g ∈ groups) end
       then Some i else None).
Proof.
  destruct scope as [g|]; cbn [scope_route claim_routes every_client by_group].
  - generalize (by_group r). induction groups as [|h groups IH]; intros l; cbn [foldl].
    { by destruct (find _ l). }
    rewrite IH, add_group_spec. destruct (snd <$> find _ l); cbn [first_of]; [done|].
    destruct (Z.eqb_spec h g) as [->|]; cbn [first_of].
    + by rewrite bool_decide_true by left.
    + do 2 case_bool_decide; set_solver.
  - case_bool_decide; by destruct (every_client r).
Qed.

Lemma entry_touch m x d : entry (touch m x) d = entry m d.
Proof. unfold entry, touch. rewrite lookup_insert. by case_decide; subst. Qed.
Lemma entry_touches xs m d : entry (foldl touch m xs) d = entry m d.
Proof. revert m. induction xs as [|x xs IH]; intros m; cbn [foldl]; [done|]. by rewrite IH, entry_touch. Qed.
Lemma touches_is_Some xs m d : is_Some (foldl touch m xs !! d) ↔ is_Some (m !! d) ∨ d ∈ xs.
Proof.
  revert m. induction xs as [|x xs IH]; intros m; cbn [foldl]; [set_solver|].
  rewrite IH. unfold touch. rewrite lookup_insert_is_Some', elem_of_cons. naive_solver.
Qed.

(** Every parent of a routed domain has an entry. *)
Definition closed (m : gmap str DomainRoutes) : Prop :=
  ∀ d d', is_Some (m !! d) → d' ∈ parents d → is_Some (m !! d').

Lemma add_domain_closed i p gs t d :
  closed (by_domain t) → closed (by_domain (add_domain i p gs t d)).
Proof.
  intros Hc x y Hx Hy. cbn [by_domain add_domain] in *.
  rewrite lookup_insert_is_Some', touches_is_Some in Hx |- *.
  destruct Hx as [<-|[Hx|Hx]]; [by eauto| |].
  - right; left. by eapply Hc.
  - right; right. by eapply parents_trans.
Qed.

Lemma add_domain_route i p t d x scope :
  scope_route (entry (by_domain (add_domain i p (pool_groups p) t d)) x) scope
  = first_of (scope_route (entry (by_domain t) x) scope)
      (if bool_decide (x = d) && scope_of scope p then Some i else None).
Proof.
  cbn [by_domain add_domain]. unfold entry at 1. rewrite lookup_insert. case_decide as E.
  - subst. cbn [from_option Datatypes.id]. rewrite claim_routes_spec, entry_touches.
    rewrite (bool_decide_true (x = x)) by done. by destruct scope.
  - fold (entry (foldl touch (by_domain t) (parents d)) x).
    rewrite entry_touches, bool_decide_false by done. by destruct (scope_route _ _).
Qed.

Lemma add_domains_route i p t ds x scope :
  scope_route (entry (by_domain (foldl (add_domain i p (pool_groups p)) t ds)) x) scope
  = first_of (scope_route (entry (by_domain t) x) scope)
      (if bool_decide (x ∈ ds) && scope_of scope p then Some i else None).
Proof.
  revert t. induction ds as [|d ds IH]; intros t; cbn [foldl].
  { by destruct (scope_route _ _). }
  rewrite IH, add_domain_route. destruct (scope_route _ _); cbn [first_of]; [done|].
  destruct (scope_of scope p); rewrite ?andb_false_r, ?andb_true_r; [|done].
  destruct (decide (x = d)) as [->|].
  - rewrite (bool_decide_true (d = d)), (bool_decide_true (d ∈ d :: ds)) by (done || by left).
    by destruct (bool_decide (d ∈ ds)).
  - rewrite (bool_decide_false (x = d)) by done. cbn [first_of].
    do 2 case_bool_decide; set_solver.
Qed.

Lemma elem_signature_of p d e :
  e ∈ signature_of p (pool_groups p) d
  ↔ ∃ scope, scope_of scope p = true ∧ e = (d, scope, pool_name p, pool_internal p).
Proof.
  unfold signature_of. rewrite elem_of_app, list_elem_of_fmap. split.
  - intros [H|(g & -> & Hg)].
    + case_bool_decide; [|by inversion H]. apply list_elem_of_singleton in H as ->. exists None.
      split; [by apply bool_decide_true|done].
    + exists (Some g). split; [by apply bool_decide_true|done].
  - intros ([g|] & Hs & ->); apply bool_decide_eq_true in Hs.
    + right. by exists g.
    + left. rewrite bool_decide_true by done. by left.
Qed.

Lemma add_domains_rest i p ds t :
  closed (by_domain t) →
  let t' := foldl (add_domain i p (pool_groups p)) t ds in
  closed (by_domain t') ∧ internal_pools t' = internal_pools t
  ∧ has_group_routes t' = has_group_routes t
  ∧ ∀ e, e ∈ signature t' ↔ e ∈ signature t ∨ ∃ d scope, d ∈ ds ∧ scope_of scope p = true
                                 ∧ e = (d, scope, pool_name p, pool_internal p).
Proof.
  revert t. induction ds as [|d ds IH]; intros t Hc; cbn [foldl].
  { split_and!; [done..|]. intros e. split; [by left|]. intros [?|(d & ? & Hd & _)]; [done|by inversion Hd]. }
  destruct (IH (add_domain i p (pool_groups p) t d)) as (H1 & H2 & H3 & H4); [by apply add_domain_closed|].
  split_and!; [done..|]. intros e. rewrite H4. cbn [signature add_domain].
  rewrite elem_of_app, elem_signature_of. setoid_rewrite elem_of_cons. naive_solver.
Qed.

Lemma group_ids_same p gs : mapM (group_id p) (pool_groups p) = inr gs → gs = pool_groups p.
Proof.
  intros Hf%mapM_inr. symmetry. induction Hf as [|g g' gs gs' Hg _ IH]; [done|].
  unfold group_id in Hg. destruct (group_id_ok g); naive_solver.
Qed.

Lemma elem_of_dedup e l : e ∈ dedup l ↔ e ∈ l.
Proof.
  induction l as [|x l IH]; cbn [dedup]; [done|]. rewrite elem_of_cons, <-IH.
  destruct (dedup l) as [|y r]; [set_solver|]. case_bool_decide; set_solver.
Qed.

Lemma find_snd_first (l : list (Z * nat)) g :
  (λ e : Z * nat, (e.2, g)) <$> find (λ e, e.1 =? g) l = (λ i, (i, g)) <$> (snd <$> find (λ e, e.1 =? g) l).
Proof. by destruct (find _ l). Qed.

Lemma head_omap_snoc {A B} (f : A → option B) l x :
  head (omap f (l ++ [x])) = first_of (head (omap f l)) (f x).
Proof. rewrite omap_app. destruct (omap f l); cbn; [by destruct (f x)|done]. Qed.

(** Each suffix is a parent of those before it. *)
Definition nested (names : list str) : Prop :=
  ∀ a x b d, names = a ++ x :: b → d ∈ a → x ∈ parents d.

Lemma parents_nested name : nested (parents name).
Proof.
  induction name as [|c name IH]; intros a x b d E Hd; cbn in E.
  { by destruct a. }
  destruct (c =? 46); [|by eapply IH].
  destruct a as [|y a]; [by inversion Hd|]. injection E as -> E.
  apply elem_of_cons in Hd as [->|Hd]; [|by eapply IH]. rewrite E. set_solver.
Qed.

Lemma suffixes_nested name : nested (suffixes name).
Proof.
  intros a x b d E Hd. destruct a as [|y a]; [by inversion Hd|]. injection E as -> E.
  apply elem_of_cons in Hd as [->|Hd]; [|by eapply parents_nested]. rewrite E. set_solver.
Qed.

End table.

(** ** Lookups against the configuration *)

Section lookup.
Context (domain_to_ascii : str → string + str).
Implicit Types (p : UpstreamPool) (t : PoolRoutes).
Abbreviation claimed := (claimed domain_to_ascii).
Abbreviation owner := (owner domain_to_ascii).
Abbreviation routes_domain := (routes_domain domain_to_ascii).

Lemma claimed_snoc pools p scope d :
  claimed (pools ++ [p]) scope d
  = first_of (claimed pools scope d) (if routes_domain d scope p then Some (length pools) else None).
Proof.
  unfold Routes.claimed. induction pools as [|q pools IH]; cbn [app list_find length].
  - by destruct (routes_domain d scope p).
  - case_decide; [done|]. destruct (list_find _ (pools ++ [p])) as [[j x]|] eqn:E;
      destruct (list_find _ pools) as [[j' x']|] eqn:E'; cbn in IH |- *;
      destruct (routes_domain d scope p); naive_solver.
Qed.

Lemma claimed_Some pools scope d i :
  claimed pools scope d = Some i → ∃ p, pools !! i = Some p ∧ routes_domain d scope p = true.
Proof.
  unfold Routes.claimed. intros ([j p] & E & ->)%fmap_Some_1.
  apply list_find_Some in E as (E1 & E2 & _). by exists p.
Qed.

Lemma claimed_is_Some pools scope d p :
  p ∈ pools → routes_domain d scope p = true → is_Some (claimed pools scope d).
Proof.
  intros Hp Hr. unfold Routes.claimed. apply fmap_is_Some. by eapply list_find_elem_of.
Qed.

Definition entry_of (pools : list UpstreamPool) (e : RouteEntry) : Prop :=
  ∃ p, p ∈ pools ∧ routes_domain e.1.1.1 e.1.1.2 p = true
       ∧ e.1.2 = pool_name p ∧ e.2 = pool_internal p.

Record table_ok (pools : list UpstreamPool) t : Prop := {
  tb_route d scope : scope_route (entry (by_domain t) d) scope = claimed pools scope d;
  tb_closed : closed (by_domain t);
  tb_groups : has_group_routes t = true ↔ ∃ p, p ∈ pools ∧ is_conditional p = true ∧ pool_groups p ≠ [];
  tb_signature e : e ∈ signature t ↔ entry_of pools e;
}.

Lemma add_pool_ok pools p t t' :
  table_ok pools t → add_pool domain_to_ascii t (length pools, p) = inr t' →
  table_ok (pools ++ [p]) t' ∧ internal_pools t' = internal_pools t.
Proof.
  intros [Hr Hc Hg Hs]. cbn [add_pool]. rewrite sum_bind_inr. intros (gs & ->%group_ids_same & E).
  rewrite sum_bind_inr in E. destruct E as (ds & Eds & [= <-]).
  destruct (add_domains_rest (length pools) p ds t Hc) as (H1 & H2 & H3 & H4).
  split; [|done]. split; cbn [by_domain has_group_routes signature]; [|done|..].
  - intros d scope. rewrite add_domains_route, Hr, claimed_snoc.
    unfold Routes.routes_domain. by rewrite Eds.
  - rewrite H3, orb_true_iff, Hg, andb_true_iff, negb_true_iff, bool_decide_eq_false. split.
    + intros [(q & Hq & ?)|?]; [exists q|exists p]; rewrite elem_of_app, ?list_elem_of_singleton; eauto.
    + intros (q & [Hq| ->%list_elem_of_singleton]%elem_of_app & ?); eauto.
  - intros e. rewrite H4, Hs. unfold entry_of. setoid_rewrite elem_of_app.
    setoid_rewrite list_elem_of_singleton. split.
    + intros [(q & Hq & ?)|(d & scope & Hd & Hsc & ->)]; [exists q; eauto|]. exists p.
      split; [by right|]. unfold Routes.routes_domain. cbn [fst snd]. rewrite Eds, Hsc, bool_decide_true by done. done.
    + intros (q & [Hq| ->] & Hrd & Hn & Hi); [left; exists q; eauto|]. right.
      destruct e as [[[d scope] n] i]. cbn [fst snd] in *. subst. unfold Routes.routes_domain in Hrd.
      rewrite Eds in Hrd. apply andb_true_iff in Hrd as [?%bool_decide_eq_true ?]. by exists d, scope.
Qed.

Lemma build_ok pools t :
  build domain_to_ascii pools = inr t → table_ok pools t ∧ internal_pools t = pool_internal <$> pools.
Proof.
  unfold build. rewrite sum_bind_inr. intros (t0 & E & [= <-]).
  enough (table_ok pools t0 ∧ internal_pools t0 = pool_internal <$> pools) as [[] ?].
  { split; [|done]. split; cbn; [done..|]. intros e. by rewrite elem_of_dedup, merge_sort_Permutation. }
  generalize dependent t0. generalize (pool_internal <$> pools) as internal. intros internal.
  induction pools as [|p pools IH] using rev_ind; intros t0; unfold enumerate.
  { cbn. intros [= <-]. split; [|done]. split; cbn.
    - by intros d [g|].
    - intros d d' [? H]. by rewrite lookup_empty in H.
    - split; [done|]. intros (p & Hp & _). by inversion Hp.
    - intros e. split; [by inversion 1|]. intros (p & Hp & _). by inversion Hp. }
  rewrite imap_app. cbn. rewrite fold_try_snoc, sum_bind_inr, Nat.add_0_r. intros (t1 & E1 & E2).
  destruct (IH t1 E1) as [H1 H2]. by destruct (add_pool_ok _ _ _ _ H1 E2) as [? ->].
Qed.

Lemma matching_owner pools t group d : table_ok pools t →
  matching (entry (by_domain t) d) group = owner pools group d.
Proof.
  intros Hok. unfold matching, Routes.owner, client_route, group_route.
  assert (E : (group ≫= λ g, (λ e : Z * nat, (e.2, g)) <$> find (λ e, e.1 =? g) (by_group (entry (by_domain t) d)))
            = (group ≫= λ g, (λ i, (i, g)) <$> claimed pools (Some g) d)).
  { destruct group as [g|]; cbn; [|done]. rewrite find_snd_first. f_equal.
    apply (tb_route _ _ Hok d (Some g)). }
  rewrite E. by rewrite <-(tb_route _ _ Hok d None).
Qed.

Lemma no_entry_no_owner pools t group d : table_ok pools t →
  by_domain t !! d = None → owner pools group d = None.
Proof.
  intros Hok E. rewrite <-(matching_owner _ _ _ _ Hok). unfold entry. rewrite E. cbn.
  by destruct group.
Qed.

(** The walk stops where no route can follow. *)
Lemma best_of_spec pools t group names best : table_ok pools t → nested names →
  best_of t group (reverse names) best = first_of (head (omap (owner pools group) names)) best.
Proof.
  intros Hok. revert best. induction names as [|x names IH] using rev_ind; intros best Hn; [done|].
  rewrite reverse_snoc. cbn [best_of]. rewrite head_omap_snoc.
  destruct (by_domain t !! x) as [r|] eqn:E.
  - rewrite IH; last first.
    { intros a y b d -> Hd. apply (Hn a y (b ++ [x])); [|done]. by rewrite <-app_assoc. }
    rewrite <-(matching_owner _ _ _ x Hok). unfold entry. rewrite E. cbn [from_option Datatypes.id].
    by destruct (head (omap (owner pools group) names)).
  - replace (omap (owner pools group) names) with (@nil (nat * Z)); [by rewrite (no_entry_no_owner _ _ _ x Hok E)|].
    symmetry. apply omap_none. intros d Hd. apply (no_entry_no_owner _ _ _ _ Hok).
    apply eq_None_not_Some. intros Hs. apply (Hn names x [] d) in Hd; [|done].
    apply (tb_closed _ _ Hok d x Hs) in Hd. rewrite E in Hd. by destruct Hd.
Qed.

(** What the configuration says of a name: the pool and its route. *)
Definition route_of (pools : list UpstreamPool) (group : option Z) (name : str) : option (nat * Route) :=
  found ← most_specific domain_to_ascii pools (group ≫= u32_try_from) name;
  p ← pools !! found.1;
  Some (found.1, mkRoute found.2 (pool_internal p)).

Lemma most_specific_pool pools group name found :
  most_specific domain_to_ascii pools group name = Some found → is_Some (pools !! found.1).
Proof.
  unfold most_specific. intros E%head_Some_elem_of. apply list_elem_of_omap in E as (d & _ & E).
  unfold Routes.owner in E. destruct (group ≫= _) as [f|] eqn:F.
  - injection E as <-. destruct group as [g|]; cbn in F; [|done].
    apply fmap_Some in F as (i & Hc & ->). apply claimed_Some in Hc as (p & ? & _). by exists p.
  - apply fmap_Some in E as (i & Hc & ->). apply claimed_Some in Hc as (p & ? & _). by exists p.
Qed.

(** A lookup walks from the top-level label down, and finds what the pools say. *)
Lemma routes_lookup_eq pools t domain group :
  build domain_to_ascii pools = inr t →
  routes_lookup t domain group
  = (name ← lowered_name domain; try_some (route_of pools group name)).
Proof.
  intros [Hok Hi]%build_ok. unfold routes_lookup. case_bool_decide as He.
  - destruct (lowered_name domain) as [name| |c] eqn:El; cbn; [|done|].
    + unfold route_of, most_specific. replace (omap _ _) with (@nil (nat * Z)); [done|].
      symmetry. apply omap_none. intros d _. apply (no_entry_no_owner _ _ _ _ Hok).
      by rewrite He, lookup_empty.
    + unfold lowered_name in El. repeat case_match; done.
  - destruct (lowered_name domain) as [name| |c]; cbn [mbind outcome_bind]; [|done..].
    pose proof (descend_spec (S (length name)) t (group ≫= u32_try_from) name [] None) as Hd.
    rewrite app_nil_r in Hd. rewrite Hd by lia. cbn [mbind outcome_bind].
    replace ((λ x, x ++ []) <$> suffixes name) with (suffixes name)
      by (symmetry; rewrite <-(list_fmap_id (suffixes name)) at 2; apply list_fmap_ext; intros; apply app_nil_r).
    rewrite (best_of_spec pools) by (done || apply suffixes_nested).
    unfold route_of. change (head (omap _ _)) with (most_specific domain_to_ascii pools (group ≫= u32_try_from) name).
    destruct (most_specific _ _ _ _) as [found|] eqn:Em; cbn; [|done].
    destruct (most_specific_pool _ _ _ _ Em) as [p Hp].
    unfold index. by rewrite Hi, list_lookup_fmap, Hp.
Qed.

(** C28: Looking a name up in the table built from the pools finds, for every name and client
    group, the route of the most specific of the name and its parents that is routed for the
    group or for every client, the group's own route first; of pools that route the same domain
    the first wins; the walk from the top-level label never stops too early, and never panics. *)
Theorem routes_lookup_spec pools t domain group :
  build domain_to_ascii pools = inr t →
  routes_lookup t domain group
  = (name ← lowered_name domain; try_some (route_of pools group name)).
Proof. apply routes_lookup_eq. Qed.

End lookup.

(** ** The check of a configuration *)

(** A loop over a growing map, each step of which establishes [Q]. *)
Lemma fold_try_grows {E K V X} `{Countable K} (f : gmap K V → X → E + gmap K V) (Q : X → gmap K V → Prop) :
  (∀ x m m', Q x m → m ⊆ m' → Q x m') →
  (∀ m x m', f m x = inr m' → m ⊆ m' ∧ Q x m') →
  ∀ xs m m', fold_try f m xs = inr m' → m ⊆ m' ∧ ∀ x, x ∈ xs → Q x m'.
Proof.
  intros Hmono Hf xs. induction xs as [|x xs IH]; intros m m'; cbn [fold_try].
  { intros [= <-]. split; [done|]. by inversion 1. }
  rewrite sum_bind_inr. intros (m1 & [H1 HQ]%Hf & [H2 HR]%IH). split; [by etrans|].
  intros y [->|Hy]%elem_of_cons; [by eapply Hmono|by apply HR].
Qed.

Section validated.
Context (domain_to_ascii : str → string + str).
Implicit Types (p q : UpstreamPool) (pools : list UpstreamPool) (t : PoolRoutes).

Definition owned (p : UpstreamPool) (d : str) (m : claims_map) (scope : option Z) : Prop :=
  m !! (d, scope) = Some (pool_name p).

Lemma owned_mono p d m m' scope : owned p d m scope → m ⊆ m' → owned p d m' scope.
Proof. intros Ho Hm. by eapply lookup_weaken. Qed.

Lemma claim_grows p d m scope m' : claim p d m scope = inr m' → m ⊆ m' ∧ owned p d m' scope.
Proof.
  unfold claim, owned. case_bool_decide as E; [|done]. intros [= <-]. rewrite E, lookup_insert_eq.
  split; [|done]. destruct (m !! (d, scope)) as [n|] eqn:F; cbn in E.
  - subst. rewrite insert_id; done.
  - by apply insert_subseteq.
Qed.

Lemma elem_scopes_of p scope : scope ∈ scopes_of p ↔ scope_of scope p = true.
Proof.
  unfold scopes_of, scope_of. destruct (decide (pool_groups p = [])) as [E|E].
  - rewrite E, !bool_decide_true, list_elem_of_singleton by done. destruct scope as [g|]; [|done].
    rewrite bool_decide_eq_true. split; [done|]. by inversion 1.
  - rewrite !(bool_decide_false (pool_groups p = [])), list_elem_of_fmap by done.
    destruct scope as [g|]; rewrite ?bool_decide_eq_true; naive_solver.
Qed.

Lemma validate_pool_grows m p m' : validate_pool domain_to_ascii m p = inr m' →
  m ⊆ m' ∧ ∀ d scope, routes_domain domain_to_ascii d scope p = true → owned p d m' scope.
Proof.
  unfold validate_pool. destruct (is_conditional p) eqn:Ec; cbn [negb].
  - destruct (find _ _); [done|]. rewrite sum_bind_inr. intros (ds & Eds & E).
    apply (fold_try_grows _ (λ d m, ∀ scope, scope ∈ scopes_of p → owned p d m scope)) in E as [E1 E2].
    + split; [done|]. intros d scope. unfold routes_domain. rewrite Eds.
      intros [Hd%bool_decide_eq_true Hs]%andb_true_iff. apply E2; [done|]. by apply elem_scopes_of.
    + intros d m1 m2 Ho Hm scope Hs. eapply owned_mono; eauto.
    + intros m1 d m2. apply (fold_try_grows _ (λ scope m, owned p d m scope)).
      * intros scope m3 m4. apply owned_mono.
      * intros. by apply claim_grows.
  - destruct (negb _); [done|]. destruct (pool_internal p); [done|]. intros [= <-].
    split; [done|]. intros d scope. unfold routes_domain, normalized_domains.
    apply negb_false_iff, bool_decide_eq_true in Ec. rewrite Ec. cbn.
    by rewrite bool_decide_false by (by inversion 1).
Qed.

(** No domain is routed to two pools of different names for the same clients. *)
Lemma validated_names pools p q d scope :
  validate_pool_routes domain_to_ascii pools = inr () →
  p ∈ pools → q ∈ pools →
  routes_domain domain_to_ascii d scope p = true → routes_domain domain_to_ascii d scope q = true →
  pool_name p = pool_name q.
Proof.
  unfold validate_pool_routes. case_bool_decide as En; [subst; by inversion 2|].
  destruct (forallb _ _); [done|]. rewrite sum_bind_inr. intros (m & E & _) Hp Hq Hpd Hqd.
  apply (fold_try_grows _ (λ p m, ∀ d scope, routes_domain domain_to_ascii d scope p = true → owned p d m scope))
    in E as [_ E]; cycle 1.
  - intros x m1 m2 Ho Hm d' s' Hr. eapply owned_mono; eauto.
  - intros. by apply validate_pool_grows.
  - pose proof (E p Hp d scope Hpd) as H1. pose proof (E q Hq d scope Hqd) as H2.
    unfold owned in *. congruence.
Qed.

(** ** Rerouting *)

(** The pool a name goes to, by name, and its route. *)
Definition routed_to (pools : list UpstreamPool) (t : PoolRoutes) (domain : str) (group : option Z)
    : outcome (str * Route) :=
  r ← routes_lookup t domain group;
  p ← index pools r.1;
  Ret (pool_name p, r.2).

(** Whom a claim belongs to. *)
Definition holder (pools : list UpstreamPool) (scope : option Z) (d : str) : option (str * bool) :=
  i ← claimed domain_to_ascii pools scope d;
  p ← pools !! i;
  Some (pool_name p, pool_internal p).

Lemma holder_Some pools scope d n i : holder pools scope d = Some (n, i) →
  ∃ p, p ∈ pools ∧ routes_domain domain_to_ascii d scope p = true ∧ n = pool_name p ∧ i = pool_internal p.
Proof.
  unfold holder. intros (j & Hj & E)%bind_Some. apply claimed_Some in Hj as (p & Hp & Hr).
  rewrite Hp in E. injection E as <- <-. exists p. split_and!; [|done..].
  by eapply list_elem_of_lookup_2.
Qed.

Lemma holder_is_Some pools scope d p :
  p ∈ pools → routes_domain domain_to_ascii d scope p = true → is_Some (holder pools scope d).
Proof.
  intros Hp Hr. destruct (claimed_is_Some _ _ _ _ _ Hp Hr) as [i Hi].
  unfold holder. rewrite Hi. cbn. destruct (claimed_Some _ _ _ _ _ Hi) as (q & -> & _). by eexists.
Qed.

Lemma nodup_names pools p q :
  NoDup (pool_name <$> pools) → p ∈ pools → q ∈ pools → pool_name p = pool_name q → p = q.
Proof.
  intros Hn [i Hi]%list_elem_of_lookup_1 [j Hj]%list_elem_of_lookup_1 E.
  assert (i = j) as ->; [|congruence].
  eapply (NoDup_lookup _ i j (pool_name p)); [exact Hn|..]; rewrite list_lookup_fmap.
  - by rewrite Hi.
  - rewrite Hj. cbn. congruence.
Qed.

(** In a validated set of pools of distinct names, the claims are those of the signature. *)
Lemma holder_entry pools t scope d n i :
  build domain_to_ascii pools = inr t → validate_pool_routes domain_to_ascii pools = inr () →
  NoDup (pool_name <$> pools) →
  (d, scope, n, i) ∈ signature t ↔ holder pools scope d = Some (n, i).
Proof.
  intros [Hok _]%build_ok Hv Hn. rewrite (tb_signature _ _ _ Hok). unfold entry_of. cbn [fst snd]. split.
  - intros (p & Hp & Hr & -> & ->). destruct (holder_is_Some _ _ _ _ Hp Hr) as [[n i] Hh].
    rewrite Hh. apply holder_Some in Hh as (q & Hq & Hrq & -> & ->).
    rewrite (nodup_names pools p q); [done..|]. by eapply validated_names.
  - by intros Hh%holder_Some.
Qed.

Lemma owner_holder pools group d :
  (found ← owner domain_to_ascii pools group d; p ← pools !! found.1;
   Some (pool_name p, mkRoute found.2 (pool_internal p)))
  = match group ≫= λ g, (λ h : str * bool, (h.1, mkRoute g h.2)) <$> holder pools (Some g) d with
    | Some found => Some found
    | None => (λ h : str * bool, (h.1, mkRoute 0 h.2)) <$> holder pools None d
    end.
Proof.
  assert (Hc : ∀ scope g, match (λ i, (i, g)) <$> claimed domain_to_ascii pools scope d with
     | Some found => p ← pools !! found.1; Some (pool_name p, mkRoute found.2 (pool_internal p))
     | None => None end
     = (λ h : str * bool, (h.1, mkRoute g h.2)) <$> holder pools scope d).
  { intros scope g. unfold holder. destruct (claimed _ _ scope d) as [i|]; cbn; [|done].
    by destruct (pools !! i). }
  unfold owner. destruct group as [g|]; cbn [mbind option_bind].
  - pose proof (Hc (Some g) g) as Hg. rewrite <-Hg.
    destruct (claimed _ _ (Some g) d) as [i|] eqn:E; cbn [fmap option_fmap option_map mbind option_bind].
    + destruct (claimed_Some _ _ _ _ _ E) as (p & Hp & _). cbn [fst snd]. by rewrite Hp.
    + rewrite <-(Hc None 0). by destruct (claimed _ _ None d).
  - rewrite <-(Hc None 0). by destruct (claimed _ _ None d).
Qed.

Lemma head_omap_bind {A B C} (f : A → option B) (g : B → option C) l :
  (∀ x b, f x = Some b → is_Some (g b)) →
  (b ← head (omap f l); g b) = head (omap (λ x, f x ≫= g) l).
Proof.
  intros Hg. induction l as [|x l IH]; [done|]. cbn. destruct (f x) as [b|] eqn:E; cbn; [|done].
  destruct (Hg x b E) as [c Hc]. by rewrite Hc.
Qed.

Lemma omap_same {A B} (f g : A → option B) (l : list A) : (∀ x, f x = g x) → omap f l = omap g l.
Proof. intros Hfg. induction l as [|x l IH]; [done|]. cbn. by rewrite Hfg, IH. Qed.

Lemma routed_to_holders pools t domain group : build domain_to_ascii pools = inr t →
  routed_to pools t domain group
  = (name ← lowered_name domain;
     try_some (head (omap (λ d,
       found ← owner domain_to_ascii pools (group ≫= u32_try_from) d; p ← pools !! found.1;
       Some (pool_name p, mkRoute found.2 (pool_internal p))) (suffixes name)))).
Proof.
  intros Hb. unfold routed_to. rewrite (routes_lookup_eq _ _ _ _ _ Hb).
  destruct (lowered_name domain) as [name| |]; cbn [mbind outcome_bind]; [|done..].
  rewrite <-(head_omap_bind (owner domain_to_ascii pools (group ≫= u32_try_from))
    (λ found, p ← pools !! found.1; Some (pool_name p, mkRoute found.2 (pool_internal p)))).
  - unfold route_of, most_specific. destruct (head _) as [found|] eqn:E; cbn; [|done].
    destruct (most_specific_pool _ _ _ _ _ E) as [p Hp]. rewrite Hp. cbn.
    unfold index. by rewrite Hp.
  - intros d found Ho. destruct (most_specific_pool domain_to_ascii pools (group ≫= u32_try_from) d found) as [p Hp].
    { unfold most_specific, suffixes. cbn. by rewrite Ho. }
    rewrite Hp. by eexists.
Qed.

(** When the routes built from two checked configurations of distinctly named pools do not
    differ, every name goes to the pool of the same name, in the same cache view and with the
    same trust, for every client group: a reload that leaves the cache in place left the routing
    in place. *)
Theorem same_signature_same_routing pools pools' t t' domain group :
  build domain_to_ascii pools = inr t → build domain_to_ascii pools' = inr t' →
  validate_pool_routes domain_to_ascii pools = inr () →
  validate_pool_routes domain_to_ascii pools' = inr () →
  NoDup (pool_name <$> pools) → NoDup (pool_name <$> pools') →
  differs_from t t' = false →
  routed_to pools t domain group = routed_to pools' t' domain group.
Proof.
  intros Hb Hb' Hv Hv' Hn Hn' Hd. apply negb_false_iff, bool_decide_eq_true in Hd.
  assert (Hh : ∀ scope d, holder pools scope d = holder pools' scope d).
  { intros scope d. apply option_eq. intros [n i].
    by rewrite <-(holder_entry _ _ _ _ _ _ Hb Hv Hn), <-(holder_entry _ _ _ _ _ _ Hb' Hv' Hn'), Hd. }
  rewrite (routed_to_holders _ _ _ _ Hb), (routed_to_holders _ _ _ _ Hb').
  destruct (lowered_name domain) as [name| |]; cbn [mbind outcome_bind]; [|done..]. do 2 f_equal.
  apply omap_same. intros d. rewrite !owner_holder, !Hh. by destruct (group ≫= u32_try_from); cbn; rewrite ?Hh.
Qed.

End validated.

(** ** Examples *)

Definition no_idna (_ : str) : string + str := inl "not valid"%string.
Definition example_pool (name : string) (domains : list string) (groups : list Z) (internal : bool)
    : UpstreamPool :=
  mkPool (of_string name) StParallel 1 [of_string "udp://9.9.9.9:53"] (of_string <$> domains) groups internal.
Definition default_pool : UpstreamPool := example_pool "default" [] [] false.
Definition office : UpstreamPool := example_pool "office" ["Corp.example."] [] true.
Definition lab : UpstreamPool := example_pool "lab" ["lab.corp.example"] [7] false.
Definition example_table (pools : list UpstreamPool) : PoolRoutes :=
  match build no_idna pools with inr t => t | inl _ => mkRoutes ∅ [] false [] end.
Definition lookup_example (pools : list UpstreamPool) (name : string) (group : option Z)
    : outcome (str * Route) :=
  routed_to pools (example_table pools) (of_string name) group.

(** The group's own route wins at its domain; a name another group routes is passed over. *)
Example lab_routes :
  lookup_example [default_pool; office; lab] "Host.LAB.corp.example." (Some 7)
    = Ret (of_string "lab", mkRoute 7 false)
  ∧ lookup_example [default_pool; office; lab] "host.lab.corp.example" (Some 8)
    = Ret (of_string "office", mkRoute 0 true)
  ∧ lookup_example [default_pool; office; lab] "corp.example" None = Ret (of_string "office", mkRoute 0 true)
  ∧ lookup_example [default_pool; office; lab] "notcorp.example" None = Decline.
Proof. by vm_compute. Qed.

Lemma routes_lookup_spec_witness :
  let pools := [default_pool; office; lab] in
  let lookup := routes_lookup (example_table pools) (of_string "Host.LAB.corp.example.") (Some 7) in
  lookup = Ret (2%nat, mkRoute 7 false)
  ∧ lookup = (name ← lowered_name (of_string "Host.LAB.corp.example.");
              try_some (route_of no_idna pools (Some 7) name)).
Proof. split; [by vm_compute|]. apply (routes_lookup_spec no_idna). by vm_compute. Defined.

Lemma same_signature_same_routing_witness :
  let pools := [default_pool; office; lab] in
  let pools' := [lab; office; default_pool] in
  differs_from (example_table pools) (example_table pools') = false
  ∧ routed_to pools (example_table pools) (of_string "a.lab.corp.example") (Some 7)
    = routed_to pools' (example_table pools') (of_string "a.lab.corp.example") (Some 7).
Proof.
  split; [by vm_compute|]. apply (same_signature_same_routing no_idna); try by vm_compute.
  - apply (bool_decide_eq_true_1 (NoDup _)). by vm_compute.
  - apply (bool_decide_eq_true_1 (NoDup _)). by vm_compute.
Defined.

(** Pools of one name may claim one domain; which of them comes first is not in the signature. *)
Lemma same_name_pools_unnoticed :
  let trusted := example_pool "x" ["corp.example"] [] true in
  let public := example_pool "x" ["corp.example"] [] false in
  validate_pool_routes no_idna [default_pool; trusted; public] = inr ()
  ∧ validate_pool_routes no_idna [default_pool; public; trusted] = inr ()
  ∧ differs_from (example_table [default_pool; trusted; public])
      (example_table [default_pool; public; trusted]) = false
  ∧ lookup_example [default_pool; trusted; public] "corp.example" None = Ret (of_string "x", mkRoute 0 true)
  ∧ lookup_example [default_pool; public; trusted] "corp.example" None = Ret (of_string "x", mkRoute 0 false).
Proof. by vm_compute. Qed.
