(* ===== verification/CookieGuard.v ===== *)
(** DNS Cookies (RFC 7873): [application/src/use_cases/dns/cookie_guard.rs],
    and the option's data ([domain/src/value_objects/dns_request.rs]).  The
    HMAC is the interface [Hmac]; the clock's second is an argument. *)

From Stdlib Require Import String.
From S2P Require Import Prelude Text Net FastPath.

#[local] Set Default Proof Using "Type".

(** [ring::hmac] with SHA-256: keys, and tags of 32 bytes. *)
Class Hmac := {
  hmac_key : Type;
  hmac_new : bytes → hmac_key;
  hmac_sign : hmac_key → bytes → bytes;
  hmac_sign_length : ∀ k m, length (hmac_sign k m) = 32%nat;
}.

(** ** The option's data *)

Record EdnsCookie := mkCookie { buf : bytes; len : Z }.

Definition cookie_from_bytes (data : bytes) : outcome (option EdnsCookie) :=
  if negb (is_valid_len (length data)) then Ret None
  else b ← copy_at (replicate 40 0) 0 data; Ret (Some (mkCookie b (wrap8 (Z.of_nat (length data))))).

Definition as_bytes (c : EdnsCookie) : bytes := take (Z.to_nat (len c)) (buf c).

Inductive CookieStatus := ClientOnly | Valid | Invalid.

#[export] Instance CookieStatus_eq_dec : EqDecision CookieStatus.
Proof. solve_decision. Defined.

Definition cookie_status_to_str (s : CookieStatus) : string :=
  match s with ClientOnly => "client" | Valid => "valid" | Invalid => "invalid" end.
Definition cookie_status_from_str (s : string) : option CookieStatus :=
  if bool_decide (s = "client")%string then Some ClientOnly
  else if bool_decide (s = "valid")%string then Some Valid
  else if bool_decide (s = "invalid")%string then Some Invalid
  else None.

(** ** Signing *)

Definition CLIENT_COOKIE_LEN : nat := 8.
Definition SERVER_COOKIE_LEN : nat := 8.
Definition WINDOW_KEY_LABEL : bytes := of_string "ferrous-dns cookie window".

Definition u64_be (x : Z) : bytes := u32_be (x / 4294967296) ++ u32_be x.

Definition window_at (unix_secs rotation_secs : Z) : Z :=
  if rotation_secs =? 0 then 0 else unix_secs / rotation_secs.

(** The buffer and how much of it is filled. *)
Definition build_hmac_input (client_ip : IpAddr) (client_cookie : bytes) : outcome (bytes * nat) :=
  let ip := octets client_ip in
  b ← copy_at (replicate 24 0) 0 ip;
  b ← copy_at b (length ip) client_cookie;
  Ret (b, length ip + length client_cookie)%nat.

(** [subtle_eq]: constant-time, so only its result shows here. *)
Definition subtle_eq (a b : bytes) : bool := bool_decide (a = b).

Definition status_without_guard (opt_data : bytes) : CookieStatus :=
  if (CLIENT_COOKIE_LEN <? length opt_data)%nat then Invalid else ClientOnly.

Record DnsCookiesConfig := mkCookiesConfig {
  cfg_enabled : bool; cfg_secret_rotation_secs : Z; cfg_require_valid_cookie : bool;
}.

Section guard.
Context `{Hmac}.

Definition window_key_input (window : Z) : bytes := WINDOW_KEY_LABEL ++ u64_be window.
Definition window_key (secret : hmac_key) (window : Z) : hmac_key :=
  hmac_new (hmac_sign secret (window_key_input window)).

Record WindowKeys := mkWindowKeys { window : Z; current : hmac_key; previous : option hmac_key }.

Definition window_keys (secret : hmac_key) (rotation_secs w : Z) : WindowKeys :=
  if rotation_secs =? 0 then mkWindowKeys w secret None
  else mkWindowKeys w (window_key secret w)
         (if w =? 0 then None else Some (window_key secret (w - 1))).

Definition compute_server_cookie (key : hmac_key) (client_ip : IpAddr) (client_cookie : bytes) : outcome bytes :=
  '(b, n) ← build_hmac_input client_ip client_cookie;
  input ← index_range b 0 n;
  index_range (hmac_sign key input) 0 SERVER_COOKIE_LEN.

(** ** The guard *)

Record DnsCookieGuard := mkGuard {
  strict : bool; secret : hmac_key; rotation_secs : Z; guard_window_keys : WindowKeys;
}.

Definition guard_from_config (c : DnsCookiesConfig) (secret : bytes) (now : Z) : DnsCookieGuard :=
  let key := hmac_new secret in
  let rotation := cfg_secret_rotation_secs c in
  mkGuard (cfg_enabled c && cfg_require_valid_cookie c) key rotation
    (window_keys key rotation (window_at now rotation)).

Definition is_strict (g : DnsCookieGuard) : bool := strict g.

Definition requires_cookie (g : DnsCookieGuard) (protocol : option ClientProtocol) : bool :=
  strict g && negb (match protocol with Some p => is_stream p | None => false end).

(** [keys]: the keys of the window at [now], which replace those of another. *)
Definition keys (g : DnsCookieGuard) (now : Z) : DnsCookieGuard * WindowKeys :=
  let ks := guard_window_keys g in
  if rotation_secs g =? 0 then (g, ks)
  else
    let w := window_at now (rotation_secs g) in
    if window ks =? w then (g, ks)
    else
      let fresh := window_keys (secret g) (rotation_secs g) w in
      (mkGuard (strict g) (secret g) (rotation_secs g) fresh, fresh).

Definition is_signed_by (client_ip : IpAddr) (client_cookie received : bytes) (key : hmac_key) : outcome bool :=
  c ← compute_server_cookie key client_ip client_cookie; Ret (subtle_eq c received).

(** [keys.previous.is_some_and(is_signed_by)]. *)
Definition previous_signed (ks : WindowKeys) (client_ip : IpAddr) (client_cookie received : bytes) : outcome bool :=
  match previous ks with
  | Some key => is_signed_by client_ip client_cookie received key
  | None => Ret false
  end.

Definition has_valid_cookie (g : DnsCookieGuard) (client_ip : IpAddr) (opt_data : bytes) (now : Z)
    : DnsCookieGuard * outcome bool :=
  match slice opt_data 0 CLIENT_COOKIE_LEN,
        slice opt_data CLIENT_COOKIE_LEN (CLIENT_COOKIE_LEN + SERVER_COOKIE_LEN) with
  | Some client_cookie, Some received =>
      let '(g, ks) := keys g now in
      (g, signed ← is_signed_by client_ip client_cookie received (current ks);
          if (signed : bool) then Ret true else previous_signed ks client_ip client_cookie received)
  | _, _ => (g, Ret false)
  end.

Definition cookie_status (g : DnsCookieGuard) (client_ip : IpAddr) (opt_data : bytes) (now : Z)
    : DnsCookieGuard * outcome CookieStatus :=
  if (length opt_data <=? CLIENT_COOKIE_LEN)%nat then (g, Ret ClientOnly)
  else
    let '(g, valid) := has_valid_cookie g client_ip opt_data now in
    (g, v ← valid; Ret (if (v : bool) then Valid else Invalid)).

Definition answer (g : DnsCookieGuard) (client_ip : IpAddr) (client_cookie opt_data : bytes) (now : Z)
    : DnsCookieGuard * outcome (bytes * CookieStatus) :=
  let '(g, ks) := keys g now in
  (g, server_cookie ← compute_server_cookie (current ks) client_ip client_cookie;
      match slice opt_data CLIENT_COOKIE_LEN (CLIENT_COOKIE_LEN + SERVER_COOKIE_LEN) with
      | None => Ret (server_cookie, ClientOnly)
      | Some received =>
          ours ← (if subtle_eq server_cookie received then Ret true
                  else previous_signed ks client_ip client_cookie received);
          Ret (server_cookie, if (ours : bool) then Valid else Invalid)
      end).

Definition generate_server_cookie (g : DnsCookieGuard) (client_ip : IpAddr) (client_cookie : bytes) (now : Z)
    : DnsCookieGuard * outcome bytes :=
  let '(g, ks) := keys g now in
  (g, compute_server_cookie (current ks) client_ip client_cookie).
End guard.

(** ** The keys in force *)

Section keys.
Context `{Hmac}.

(** Any number of lookups, at any times and in any order. *)
Definition guard_run (g : DnsCookieGuard) (times : list Z) : DnsCookieGuard :=
  foldl (λ g now, (keys g now).1) g times.

Definition keys_ok (g : DnsCookieGuard) : Prop :=
  guard_window_keys g = window_keys (secret g) (rotation_secs g) (window (guard_window_keys g))
  ∧ (rotation_secs g = 0 → window (guard_window_keys g) = 0).

Lemma window_of_keys s r w : window (window_keys s r w) = w.
Proof. unfold window_keys. by destruct (r =? 0). Qed.

Lemma guard_from_config_ok c s now : keys_ok (guard_from_config c s now).
Proof.
  unfold keys_ok, guard_from_config. cbn [guard_window_keys secret rotation_secs].
  rewrite window_of_keys. split; [done|]. intros Hr. unfold window_at. by rewrite Hr.
Qed.

Lemma keys_spec g now : keys_ok g →
  keys_ok (keys g now).1 ∧ secret (keys g now).1 = secret g ∧ rotation_secs (keys g now).1 = rotation_secs g
  ∧ (keys g now).2 = window_keys (secret g) (rotation_secs g) (window_at now (rotation_secs g)).
Proof.
  intros [Hk Hz]. unfold keys, window_at. destruct (Z.eqb_spec (rotation_secs g) 0) as [E|E].
  - cbn [fst snd]. split_and!; try done. rewrite Hk at 1. by rewrite Hz.
  - destruct (Z.eqb_spec (window (guard_window_keys g)) (now / rotation_secs g)) as [Ew|Ew]; cbn [fst snd].
    + split_and!; try done. rewrite Hk at 1. by rewrite Ew.
    + split_and!; try done. unfold keys_ok. cbn [guard_window_keys secret rotation_secs].
      rewrite window_of_keys. done.
Qed.

Lemma guard_run_spec times : ∀ g, keys_ok g →
  keys_ok (guard_run g times) ∧ secret (guard_run g times) = secret g
  ∧ rotation_secs (guard_run g times) = rotation_secs g.
Proof.
  induction times as [|t times IH]; intros g Hg; [done|].
  destruct (keys_spec g t Hg) as (Hok & Hs & Hr & _).
  destruct (IH _ Hok) as (H1 & H2 & H3). unfold guard_run in *. cbn [foldl].
  split_and!; congruence.
Qed.

(** ** The input of the HMAC *)

Lemma length_octets ip : length (octets ip) = match ip with V4 _ => 4%nat | V6 _ => 16%nat end.
Proof. by destruct ip. Qed.

Lemma build_hmac_input_eq ip cc : (length cc ≤ CLIENT_COOKIE_LEN)%nat →
  build_hmac_input ip cc
  = Ret (splice 0 (octets ip ++ cc) (replicate 24 0), length (octets ip ++ cc)).
Proof.
  unfold CLIENT_COOKIE_LEN. intros Hc. unfold build_hmac_input.
  assert (length (octets ip) ≤ 16)%nat by (rewrite length_octets; destruct ip; lia).
  rewrite copy_at_first by (rewrite length_replicate; lia). cbn [mbind outcome_bind].
  rewrite copy_at_next by (rewrite ?length_replicate; lia). cbn [mbind outcome_bind].
  by rewrite length_app.
Qed.

Lemma hmac_input_fits ip cc : (length cc ≤ CLIENT_COOKIE_LEN)%nat →
  (length (octets ip ++ cc) ≤ length (replicate 24 (0 : Z)))%nat.
Proof. unfold CLIENT_COOKIE_LEN. rewrite length_app, length_octets, length_replicate. destruct ip; lia. Qed.

Lemma compute_server_cookie_eq key ip cc : (length cc ≤ CLIENT_COOKIE_LEN)%nat →
  compute_server_cookie key ip cc = Ret (take SERVER_COOKIE_LEN (hmac_sign key (octets ip ++ cc))).
Proof.
  intros Hc. unfold compute_server_cookie. rewrite build_hmac_input_eq by done.
  pose proof (hmac_input_fits ip cc Hc). cbn [mbind outcome_bind]. unfold index_range, slice.
  rewrite decide_True by (rewrite length_splice; lia). cbn [mbind outcome_bind].
  rewrite Nat.sub_0_r, drop_0, take_splice by done.
  rewrite decide_True by (rewrite hmac_sign_length; unfold SERVER_COOKIE_LEN; lia). by rewrite drop_0.
Qed.
End keys.

(** ** What a cookie shows *)

Section cookies.
Context `{Hmac}.

Definition cookie_of (key : hmac_key) (ip : IpAddr) (cc : bytes) : bytes :=
  take SERVER_COOKIE_LEN (hmac_sign key (octets ip ++ cc)).

Definition client_part (opt : bytes) : bytes := take CLIENT_COOKIE_LEN opt.
Definition server_part (opt : bytes) : bytes := take SERVER_COOKIE_LEN (drop CLIENT_COOKIE_LEN opt).

(** The keys of [ks] that accept [opt], in the order they are tried. *)
Definition accepts (ks : WindowKeys) (ip : IpAddr) (opt : bytes) : bool :=
  subtle_eq (cookie_of (current ks) ip (client_part opt)) (server_part opt)
  || match previous ks with
     | Some key => subtle_eq (cookie_of key ip (client_part opt)) (server_part opt)
     | None => false
     end.

Lemma length_client_part opt : (length (client_part opt) ≤ CLIENT_COOKIE_LEN)%nat.
Proof. unfold client_part. rewrite length_take. lia. Qed.

Lemma is_signed_by_eq ip cc r key : (length cc ≤ CLIENT_COOKIE_LEN)%nat →
  is_signed_by ip cc r key = Ret (subtle_eq (cookie_of key ip cc) r).
Proof. intros Hc. unfold is_signed_by. by rewrite compute_server_cookie_eq. Qed.

Lemma previous_signed_eq ks ip cc r : (length cc ≤ CLIENT_COOKIE_LEN)%nat →
  previous_signed ks ip cc r
  = Ret match previous ks with Some key => subtle_eq (cookie_of key ip cc) r | None => false end.
Proof. intros Hc. unfold previous_signed. destruct (previous ks); [by apply is_signed_by_eq|done]. Qed.

Lemma slice_client opt : slice opt 0 CLIENT_COOKIE_LEN
  = if (CLIENT_COOKIE_LEN <=? length opt)%nat then Some (client_part opt) else None.
Proof.
  unfold slice, client_part. destruct (Nat.leb_spec CLIENT_COOKIE_LEN (length opt)).
  - rewrite decide_True by (unfold CLIENT_COOKIE_LEN in *; lia). by rewrite drop_0, Nat.sub_0_r.
  - by rewrite decide_False by lia.
Qed.

Lemma slice_server opt : slice opt CLIENT_COOKIE_LEN (CLIENT_COOKIE_LEN + SERVER_COOKIE_LEN)
  = if (16 <=? length opt)%nat then Some (server_part opt) else None.
Proof.
  unfold slice, server_part, CLIENT_COOKIE_LEN, SERVER_COOKIE_LEN.
  destruct (Nat.leb_spec 16 (length opt)).
  - rewrite decide_True by lia. done.
  - by rewrite decide_False by lia.
Qed.

Lemma has_valid_cookie_eq g ip opt now :
  (has_valid_cookie g ip opt now).2 = Ret ((16 <=? length opt)%nat && accepts (keys g now).2 ip opt).
Proof.
  unfold has_valid_cookie. rewrite slice_client, slice_server.
  destruct (Nat.leb_spec 16 (length opt)) as [Hl|Hl].
  - rewrite (proj2 (Nat.leb_le _ _)) by (unfold CLIENT_COOKIE_LEN; lia).
    destruct (keys g now) as [g' ks]. cbn [snd andb].
    rewrite is_signed_by_eq, previous_signed_eq by apply length_client_part. cbn [mbind outcome_bind].
    unfold accepts. by destruct (subtle_eq _ _).
  - cbn [andb]. by destruct (_ <=? _)%nat.
Qed.

(** A window's key is a window key even where it is the previous one. *)
Lemma accepts_iff s r w ip opt : 0 ≤ w →
  accepts (window_keys s r w) ip opt = true ↔
  ∃ v, (v = w ∨ (r ≠ 0 ∧ 0 ≤ v ∧ v + 1 = w))
    ∧ cookie_of (current (window_keys s r v)) ip (client_part opt) = server_part opt.
Proof.
  intros Hw. unfold accepts, subtle_eq, window_keys. destruct (Z.eqb_spec r 0) as [E|E]; cbn [current previous].
  - rewrite orb_false_r, bool_decide_eq_true. split; [intros Hc; exists w; auto|].
    intros (v & _ & Hc). done.
  - rewrite orb_true_iff, bool_decide_eq_true. split.
    + intros [Hc|Hc]; [exists w; auto|]. destruct (Z.eqb_spec w 0) as [|Hz]; [done|].
      apply bool_decide_eq_true in Hc. exists (w - 1). split; [right; lia|done].
    + intros (v & [->|(_ & Hv & <-)] & Hc); [by left|]. right.
      destruct (Z.eqb_spec (v + 1) 0); [lia|]. apply bool_decide_eq_true.
      by replace (v + 1 - 1) with v by lia.
Qed.

Lemma window_at_spec r v : 0 ≤ r → 0 ≤ v → (r = 0 → v = 0) →
  ∃ t, 0 ≤ t ∧ window_at t r = v.
Proof.
  intros Hr Hv Hz. exists (v * r). split; [nia|]. unfold window_at.
  destruct (Z.eqb_spec r 0) as [->|E]; [by rewrite Hz|]. by apply Z.div_mul.
Qed.

Lemma window_at_nonneg t r : 0 ≤ t → 0 ≤ r → 0 ≤ window_at t r.
Proof. intros Ht Hr. unfold window_at. destruct (Z.eqb_spec r 0); [done|]. apply Z.div_pos; lia. Qed.

(** ** Inputs *)

Lemma v4_octets_inj a b : is_u32 a → is_u32 b → v4_octets a = v4_octets b → a = b.
Proof.
  intros Ha Hb E. unfold v4_octets, u32_be in E. injection E as E1 E2 E3 E4.
  rewrite <-(be32_u32_be a Ha), <-(be32_u32_be b Hb). by rewrite E1, E2, E3, E4.
Qed.

Lemma u32_be_mod x : u32_be x = u32_be (x mod 2 ^ 32).
Proof.
  pose proof (Z.div_mod x (2 ^ 32) ltac:(lia)) as E. pose proof (Z.mod_pos_bound x (2 ^ 32) ltac:(lia)) as Hr.
  generalize dependent (x mod 2 ^ 32). generalize (x / 2 ^ 32). intros q r -> Hr. unfold u32_be.
  replace (2 ^ 32 * q + r) with (q * 256 * 16777216 + r) at 1 by lia.
  replace (2 ^ 32 * q + r) with (q * 65536 * 65536 + r) at 1 by lia.
  replace (2 ^ 32 * q + r) with (q * 16777216 * 256 + r) at 1 by lia.
  replace (2 ^ 32 * q + r) with (q * 16777216 * 256 + r) at 1 by lia.
  rewrite !Z.div_add_l by lia.
  replace (q * 65536 + r / 65536) with (r / 65536 + q * 256 * 256) by lia.
  replace (q * 16777216 + r / 256) with (r / 256 + q * 65536 * 256) by lia.
  replace (q * 16777216 * 256 + r) with (r + q * 16777216 * 256) by lia.
  replace (q * 256 + r / 16777216) with (r / 16777216 + q * 256) by lia.
  by rewrite !Z_mod_plus_full.
Qed.

Lemma u32_be_inj a b : u32_be a = u32_be b → a mod 2 ^ 32 = b mod 2 ^ 32.
Proof.
  rewrite (u32_be_mod a), (u32_be_mod b). apply v4_octets_inj; unfold is_u, u32_max;
    [pose proof (Z.mod_pos_bound a (2 ^ 32))|pose proof (Z.mod_pos_bound b (2 ^ 32))]; lia.
Qed.

Lemma v6_octets_inj a b : is_u u128_max a → is_u u128_max b → v6_octets a = v6_octets b → a = b.
Proof.
  intros Ha Hb E. unfold v6_octets in E.
  apply app_inj_1 in E as [E1 E]; [|done]. apply app_inj_1 in E as [E2 E]; [|done].
  apply app_inj_1 in E as [E3 E4]; [|done].
  apply u32_be_inj in E1, E2, E3, E4. unfold_ints.
  change (2 ^ 32) with 4294967296 in *. change (2 ^ 64) with 18446744073709551616 in *.
  change (2 ^ 96) with 79228162514264337593543950336 in *. zdiv.
Qed.
End cookies.

(** ** Theorems *)

(** A cookie binds the address and the client cookie it was made for: no other
    pair has the same input, and no window key is derived from such an input. *)
Lemma hmac_inputs_apart ip cc ip' cc' b n b' n' w : ip_ok ip → ip_ok ip' →
  length cc = CLIENT_COOKIE_LEN → length cc' = CLIENT_COOKIE_LEN →
  build_hmac_input ip cc = Ret (b, n) → build_hmac_input ip' cc' = Ret (b', n') →
  (take n b = take n' b' → ip = ip' ∧ cc = cc') ∧ take n b ≠ window_key_input w.
Proof.
  intros Hip Hip' Hc Hc' Hb Hb'.
  rewrite build_hmac_input_eq in Hb, Hb' by lia. injection Hb as <- <-. injection Hb' as <- <-.
  rewrite !take_splice by (apply hmac_input_fits; lia). split.
  - intros E. apply (f_equal length) in E as El. rewrite !length_app, !length_octets in El.
    destruct ip as [a|a], ip' as [a'|a']; try lia;
      apply app_inj_1 in E as [E ->]; try done; split; try done; f_equal;
      [by apply v4_octets_inj|by apply v6_octets_inj].
  - intros E. apply (f_equal length) in E. unfold window_key_input, u64_be in E.
    rewrite !length_app, length_octets in E. unfold CLIENT_COOKIE_LEN in *.
    change (length WINDOW_KEY_LABEL) with 25%nat in E. destruct ip; simpl in E; lia.
Qed.

Section lifetime.
Context `{Hmac}.

Lemma generate_eq g ip cc now : (length cc ≤ CLIENT_COOKIE_LEN)%nat →
  (generate_server_cookie g ip cc now).2 = Ret (cookie_of (current (keys g now).2) ip cc).
Proof.
  intros Hc. unfold generate_server_cookie. destruct (keys g now) as [g' ks]. by apply compute_server_cookie_eq.
Qed.

Lemma config_run_keys c s start times now :
  (keys (guard_run (guard_from_config c s start) times) now).2
  = window_keys (hmac_new s) (cfg_secret_rotation_secs c) (window_at now (cfg_secret_rotation_secs c)).
Proof.
  destruct (guard_run_spec times _ (guard_from_config_ok c s start)) as (Hok & Hs & Hr).
  destruct (keys_spec _ now Hok) as (_ & _ & _ & ->). by rewrite Hs, Hr.
Qed.

Lemma answer_status g ip opt now : is_valid_len (length opt) = true →
  (answer g ip (client_part opt) opt now).2
  = c ← (generate_server_cookie g ip (client_part opt) now).2;
    s ← (cookie_status g ip opt now).2; Ret (c, s).
Proof.
  intros Hv. rewrite generate_eq by apply length_client_part.
  unfold answer, cookie_status. pose proof (has_valid_cookie_eq g ip opt now) as Hh.
  destruct (has_valid_cookie g ip opt now) as [g1 v]. cbn [snd] in Hh. subst v.
  rewrite slice_server. destruct (keys g now) as [g' ks]. cbn [snd].
  rewrite compute_server_cookie_eq by apply length_client_part. cbn [mbind outcome_bind].
  unfold is_valid_len in Hv. unfold CLIENT_COOKIE_LEN.
  destruct (Nat.leb_spec 16 (length opt)) as [Hl|Hl].
  - rewrite (proj2 (Nat.leb_gt _ _)) by lia. cbn [snd mbind outcome_bind andb].
    rewrite previous_signed_eq by apply length_client_part. unfold accepts, cookie_of.
    by destruct (subtle_eq _ _); cbn [mbind outcome_bind].
  - assert (length opt = 8%nat) as E8 by (rewrite orb_false_r in Hv; by apply Nat.eqb_eq).
    by rewrite E8.
Qed.

(** A cookie is valid exactly in the window that issued it and in the
    next one, for the address and the client cookie it was issued to: a
    query's option is [Valid] when its server part is what some server with
    the same secret and configuration, whatever it looked up before, issued in
    the current window or the one before.  The check never panics, and what
    [answer] reports with the cookie it signs is what [cookie_status] says. *)
Theorem cookies_last_two_windows (c : DnsCookiesConfig) (s : bytes) (start start' : Z)
    (times times' : list Z) (ip : IpAddr) (opt : bytes) (now : Z) :
  0 ≤ cfg_secret_rotation_secs c → 0 ≤ now →
  let rotation := cfg_secret_rotation_secs c in
  let g := guard_run (guard_from_config c s start) times in
  let issuer := guard_run (guard_from_config c s start') times' in
  ∃ valid, (has_valid_cookie g ip opt now).2 = Ret valid
  ∧ (valid = true ↔ (16 ≤ length opt)%nat ∧ ∃ issued, 0 ≤ issued
      ∧ window_at now rotation - 1 ≤ window_at issued rotation ≤ window_at now rotation
      ∧ (generate_server_cookie issuer ip (client_part opt) issued).2 = Ret (server_part opt))
  ∧ (cookie_status g ip opt now).2
    = Ret (if (length opt <=? CLIENT_COOKIE_LEN)%nat then ClientOnly else if valid then Valid else Invalid)
  ∧ (is_valid_len (length opt) = true →
     (answer g ip (client_part opt) opt now).2
     = cookie ← (generate_server_cookie g ip (client_part opt) now).2;
       status ← (cookie_status g ip opt now).2; Ret (cookie, status)).
Proof.
  intros Hr Hn rotation g issuer. eexists. split; [apply has_valid_cookie_eq|]. split_and!.
  - unfold g. rewrite config_run_keys, andb_true_iff, Nat.leb_le, accepts_iff by (by apply window_at_nonneg).
    apply and_iff_compat_l. split.
    + intros (v & Hv & Hc). fold rotation in Hv, Hc.
      pose proof (window_at_nonneg now rotation Hn Hr).
      destruct (window_at_spec rotation v) as (t & Ht & Hw); [done|lia|unfold window_at in Hv; intros E;
        destruct Hv as [->|[? _]]; [by rewrite E|done]|].
      exists t. split_and!; [done|lia|lia|]. unfold issuer.
      rewrite generate_eq by apply length_client_part. rewrite config_run_keys. fold rotation. by rewrite Hw, Hc.
    + intros (t & Ht & Hw & Hg). unfold issuer in Hg.
      rewrite generate_eq in Hg by apply length_client_part. rewrite config_run_keys in Hg.
      fold rotation in Hg |- *. injection Hg as Hg. exists (window_at t rotation). split; [|done].
      pose proof (window_at_nonneg t rotation Ht Hr).
      destruct (decide (window_at t rotation = window_at now rotation)) as [|Hne]; [by left|right].
      split_and!; [|lia..]. intros E. unfold window_at in Hne. by rewrite E in Hne.
  - unfold cookie_status. pose proof (has_valid_cookie_eq g ip opt now) as Hh.
    destruct (has_valid_cookie g ip opt now) as [g1 v]. cbn [snd] in Hh. subst v.
    by destruct (_ <=? _)%nat.
  - apply answer_status.
Qed.
End lifetime.

(** A checksum in place of the HMAC, for the example. *)
Definition demo_sum (l : bytes) : Z := foldl (λ acc b, (acc * 31 + b + 7) mod 2 ^ 61) 5 l.

Definition demo_hmac : Hmac.
Proof.
  refine (@Build_Hmac bytes (λ k, k) (λ k m, u64_be (demo_sum (k ++ m)) ++ replicate 24 0) _).
  intros k m. by rewrite length_app, length_replicate.
Defined.

Lemma cookies_last_two_windows_witness :
  let c := mkCookiesConfig true 60 true in
  let g := guard_run (H := demo_hmac) (guard_from_config (H := demo_hmac) c (replicate 32 66) 0) [500; 30] in
  let cookie := replicate 8 1 in
  ∃ server, (generate_server_cookie (H := demo_hmac) g (V4 0xC0A80101) cookie 119).2 = Ret server
  ∧ (has_valid_cookie (H := demo_hmac) g (V4 0xC0A80101) (cookie ++ server) 179).2 = Ret true
  ∧ (has_valid_cookie (H := demo_hmac) g (V4 0xC0A80101) (cookie ++ server) 180).2 = Ret false
  ∧ (has_valid_cookie (H := demo_hmac) g (V4 0xC0A80102) (cookie ++ server) 119).2 = Ret false.
Proof.
  intros c g cookie. eexists. split; [vm_compute; reflexivity|].
  split; [|split; vm_compute; reflexivity].
  pose proof (cookies_last_two_windows (H := demo_hmac) c (replicate 32 66) 0 7 [500; 30] []
    (V4 0xC0A80101) (cookie ++ take 8 (hmac_sign (Hmac := demo_hmac)
       (window_key (H := demo_hmac) (replicate 32 66) 1) (octets (V4 0xC0A80101) ++ cookie)))
    179 ltac:(done) ltac:(done)) as (valid & Hv & Hiff & _).
  replace true with valid; [exact Hv|]. apply Hiff. split; [vm_compute; lia|].
  exists 119. split; [lia|]. split; [vm_compute; split; discriminate|]. vm_compute. reflexivity.
Defined.
