(* ===== verification/WireResponse.v ===== *)
(** Encoding responses, the first half of
    [infrastructure/src/dns/wire_response.rs]: headers, the OPT record, address
    and SOA records, the general encoder and the fast path's encoder into a
    reused buffer.

    The fast path's [out] is a list of [RESPONSE_BUF_LEN] bytes whose previous
    contents are arbitrary; every write is a [copy_at], which panics when it
    would not fit. *)

From S2P Require Import Prelude Net WireName FastPath.

Definition RESPONSE_BUF_LEN : nat := 523.

Definition OPT_RECORD : bytes :=
  [0x00; 0x00; 0x29; 0x10; 0x00; 0x00; 0x00; 0x00; 0x00; 0x00; 0x00].

(** [hostmaster.ferrous-dns.invalid.] *)
Definition SOA_RNAME : bytes :=
  [10; 104; 111; 115; 116; 109; 97; 115; 116; 101; 114;
   11; 102; 101; 114; 114; 111; 117; 115; 45; 100; 110; 115;
   7; 105; 110; 118; 97; 108; 105; 100; 0].

Definition ede_OPTION_CODE : Z := 15.

Record ExtendedDnsError := mkEde { info_code : Z; extra_text : bytes }.

Inductive Rcode := NoError | FormErr | ServFail | NxDomain | Refused | BadCookie.

Definition rcode_u8 (r : Rcode) : Z :=
  match r with
  | NoError => 0 | FormErr => 1 | ServFail => 2 | NxDomain => 3 | Refused => 5
  | BadCookie => 23
  end.

Definition u8_from (b : bool) : Z := Z.b2z b.

(** ** Headers *)

Definition set_relay_header (buf : bytes) (id : Z) (recursion_desired authentic_data : bool)
    : bytes :=
  match buf with
  | _ :: _ :: flags_hi :: flags_lo :: rest =>
      u16_be id
      ++ [Z.lor (Z.ldiff flags_hi 0x01) (u8_from recursion_desired);
          Z.lor (Z.ldiff flags_lo 0x20) (Z.shiftl (u8_from authentic_data) 5)]
      ++ rest
  | _ => buf
  end.

Definition is_nxdomain (wire : bytes) : bool :=
  match wire !! 3%nat with Some flags_lo => Z.land flags_lo 0x0F =? 3 | None => false end.

Definition wire_fits_udp_buffer (wire_len : nat) (client_max_size : Z) : bool :=
  Z.of_nat wire_len <=? client_max_size.

Record ResponseHead := mkHead {
  h_id : Z;
  h_recursion_desired : bool;
  authentic_data : bool;
  rcode : Rcode;
}.

Definition head_flags (h : ResponseHead) (truncated : bool) : bytes :=
  let hi := Z.lor 0x80 (u8_from (h_recursion_desired h)) in
  let hi := if truncated then Z.lor hi 0x02 else hi in
  let lo := Z.lor (Z.lor 0x80 (Z.shiftl (u8_from (authentic_data h)) 5))
                  (Z.land (rcode_u8 (rcode h)) 0x0F) in
  [hi; lo].

Definition write_header (out : bytes) (id : Z) (flags : bytes) (qd an ns ar : Z) : bytes :=
  out ++ u16_be id ++ flags ++ u16_be qd ++ u16_be an ++ u16_be ns ++ u16_be ar.

(** ** The OPT record *)

Definition opt_head (extended_rcode : Z) (dnssec_ok : bool) (rdlen : Z) : bytes :=
  [0] ++ u16_be TYPE_OPT ++ u16_be EDNS_UDP_PAYLOAD
  ++ [extended_rcode; 0; Z.shiftl (u8_from dnssec_ok) 7; 0] ++ u16_be rdlen.

Record EdnsReply := mkEdnsReply {
  dnssec_ok : bool;
  r_cookie : option bytes;
  ede : option ExtendedDnsError;
}.

Definition cookie_len (c : option bytes) : nat :=
  match c with Some c => 4 + length c | None => 0 end.

Definition rdata_len (e : EdnsReply) : nat :=
  cookie_len (r_cookie e)
  + match ede e with Some e => 6 + length (extra_text e) | None => 0 end.

Definition edns_len (e : EdnsReply) : nat := length OPT_RECORD + rdata_len e.

Definition as_u16 (n : nat) : Z := wrap16 (Z.of_nat n).

Definition edns_write (e : EdnsReply) (out : bytes) (extended_rcode : Z) : bytes :=
  let out := out ++ opt_head extended_rcode (dnssec_ok e) (as_u16 (rdata_len e)) in
  let out := match r_cookie e with
    | Some c => out ++ u16_be COOKIE_OPTION_CODE ++ u16_be (as_u16 (length c)) ++ c
    | None => out
    end in
  match ede e with
  | Some x => out ++ u16_be ede_OPTION_CODE ++ u16_be (as_u16 (2 + length (extra_text x)))
                  ++ u16_be (info_code x) ++ extra_text x
  | None => out
  end.

(** ** Address records *)

Definition address_rr_len (addr : IpAddr) : nat :=
  match addr with V4 _ => 16 | V6 _ => 28 end.

(** Writes at [pos] of [out], the source's [&mut out[pos..]]. *)
Definition write_address_rr (out : bytes) (pos : nat) (addr : IpAddr) (ttl : Z)
    : outcome (bytes * nat) :=
  let '(rtype, rdlen) := match addr with V4 _ => (1, 4%nat) | V6 _ => (28, 16%nat) end in
  out ← copy_at out pos [0xC0; 0x0C];
  out ← copy_at out (pos + 2) (u16_be rtype);
  out ← copy_at out (pos + 4) (u16_be CLASS_IN);
  out ← copy_at out (pos + 6) (u32_be ttl);
  out ← copy_at out (pos + 10) (u16_be (Z.of_nat rdlen));
  out ← copy_at out (pos + 12) (octets addr);
  Ret (out, 12 + rdlen)%nat.

Definition write_fast_path_opt (out : bytes) (pos : nat) (cookie : option bytes)
    : outcome (bytes * nat) :=
  match cookie with
  | None => out ← copy_at out pos OPT_RECORD; Ret (out, length OPT_RECORD)
  | Some c =>
      let rdlen := (4 + length c)%nat in
      out ← copy_at out pos (opt_head 0 false (as_u16 rdlen));
      out ← copy_at out (pos + 11) (u16_be COOKIE_OPTION_CODE);
      out ← copy_at out (pos + 13) (u16_be (as_u16 (length c)));
      out ← copy_at out (pos + 15) c;
      Ret (out, length OPT_RECORD + rdlen)%nat
  end.

Fixpoint write_addresses (out : bytes) (pos : nat) (addresses : list IpAddr) (ttl : Z)
    : outcome (bytes * nat) :=
  match addresses with
  | [] => Ret (out, pos)
  | addr :: addresses =>
      '(out, n) ← write_address_rr out pos addr ttl;
      write_addresses out (pos + n) addresses ttl
  end.

(** ** The fast path's answer: the buffer and the length of the response. *)
Definition build_cache_hit_response (query : FastPathQuery) (query_buf : bytes)
    (addresses : list IpAddr) (ttl : Z) (cookie : option bytes) (out : bytes)
    : outcome (bytes * nat) :=
  if (length addresses =? 0)%nat || (length query_buf <? question_end query)%nat
  then Decline else
  let question_len := (question_end query - 12)%nat in
  let answers_size := sum_list_with address_rr_len addresses in
  let opt_size := if has_edns query then (length OPT_RECORD + cookie_len cookie)%nat else 0%nat in
  let total_size := (12 + question_len + answers_size + opt_size)%nat in
  if (client_max_size query <? Z.of_nat total_size) || (RESPONSE_BUF_LEN <? total_size)%nat
  then Decline else
  let ancount := as_u16 (length addresses) in
  out ← copy_at out 0 (u16_be (id query));
  out ← copy_at out 2 [0x81; 0x80];
  out ← copy_at out 4 (u16_be 1);
  out ← copy_at out 6 (u16_be ancount);
  out ← copy_at out 8 (u16_be 0);
  out ← copy_at out 10 (u16_be (u8_from (has_edns query)));
  q ← index_range query_buf 12 (question_end query);
  out ← copy_at out 12 q;
  '(out, pos) ← write_addresses out (12 + question_len) addresses ttl;
  if has_edns query then
    '(out, n) ← write_fast_path_opt out pos cookie; Ret (out, pos + n)%nat
  else Ret (out, pos).

(** ** The general encoder *)

Inductive ResponseBody :=
  | EmptyBody
  | Addresses (addresses : list IpAddr) (ttl : Z)
  | NegativeSoa (ttl : Z).

(** One record of the answer section; the scratch array holds 28 bytes. *)
Definition address_rr (addr : IpAddr) (ttl : Z) : outcome bytes :=
  '(rr, len) ← write_address_rr (replicate 28 0) 0 addr ttl;
  index_range rr 0 len.

Fixpoint append_addresses (out : bytes) (addresses : list IpAddr) (ttl : Z) : outcome bytes :=
  match addresses with
  | [] => Ret out
  | addr :: addresses =>
      rr ← address_rr addr ttl; append_addresses (out ++ rr) addresses ttl
  end.

Definition soa_record (ttl : Z) : bytes :=
  [0xC0; 0x0C] ++ u16_be TYPE_SOA ++ u16_be CLASS_IN ++ u32_be ttl
  ++ u16_be (as_u16 (2 + length SOA_RNAME + 20))
  ++ [0xC0; 0x0C] ++ SOA_RNAME
  ++ u32_be 1 ++ u32_be 3600 ++ u32_be 600 ++ u32_be 604800 ++ u32_be ttl.

Definition encode_response (head : ResponseHead) (question : bytes) (qdcount : Z)
    (body : ResponseBody) (edns : option EdnsReply) : outcome bytes :=
  let '(ancount, nscount) := match body with
    | EmptyBody => (0, 0)
    | Addresses addresses _ => (as_u16 (length addresses), 0)
    | NegativeSoa _ => (0, 1)
    end in
  let arcount := u8_from (match edns with Some _ => true | None => false end) in
  let out := write_header [] (h_id head) (head_flags head false) qdcount ancount nscount arcount in
  let out := out ++ question in
  out ← match body with
    | EmptyBody => Ret out
    | Addresses addresses ttl => append_addresses out addresses ttl
    | NegativeSoa ttl => Ret (out ++ soa_record ttl)
    end;
  Ret (match edns with
       | Some e => edns_write e out (Z.shiftr (rcode_u8 (rcode head)) 4)
       | None => out
       end).

Definition encode_truncated (id : Z) (recursion_desired : bool) (question : bytes)
    (qdcount : Z) (edns : option EdnsReply) : bytes :=
  let head := mkHead id recursion_desired false NoError in
  let arcount := u8_from (match edns with Some _ => true | None => false end) in
  let out := write_header [] id (head_flags head true) qdcount 0 0 arcount ++ question in
  match edns with Some e => edns_write e out 0 | None => out end.

(** ** The client's spelling of the question *)

Definition echo_question_case (msg qname : bytes) : outcome bytes :=
  match slice msg 4 6 with
  | None => Ret msg
  | Some qdcount =>
      if bool_decide (qdcount = [0; 0]) then Ret msg
      else match slice msg 12 (12 + length qname) with
        | None => Ret msg
        | Some name =>
            if negb (bool_decide (name = qname)) && eq_ignore_case name qname
            then copy_at msg 12 qname else Ret msg
        end
  end.

(** ** Ageing *)

Definition aged_ttl (ttl entry_ttl remaining : Z) : Z :=
  Z.max (sat_sub remaining (sat_sub entry_ttl ttl)) (Z.min remaining STALE_SERVE_TTL).

(** ** Lemmas *)

(** A record as the bytes it consists of. *)
Definition addr_rr (addr : IpAddr) (ttl : Z) : bytes :=
  let '(rtype, rdlen) := match addr with V4 _ => (1, 4) | V6 _ => (28, 16) end in
  [0xC0; 0x0C] ++ u16_be rtype ++ u16_be CLASS_IN ++ u32_be ttl ++ u16_be rdlen ++ octets addr.

Lemma length_addr_rr addr ttl : length (addr_rr addr ttl) = address_rr_len addr.
Proof. by destruct addr. Qed.

Lemma write_address_rr_first (l : bytes) p addr ttl :
  (p + address_rr_len addr ≤ length l)%nat →
  write_address_rr l p addr ttl = Ret (splice p (addr_rr addr ttl) l, address_rr_len addr).
Proof.
  intros H. unfold write_address_rr.
  destruct addr as [a|a]; simpl in H;
    (rewrite copy_at_first by (simpl; lia); simpl;
     do 5 (rewrite copy_at_next by (simpl; lia); simpl);
     reflexivity).
Qed.

Lemma write_address_rr_next (l : bytes) p a addr ttl q :
  q = (p + length a)%nat → (q + address_rr_len addr ≤ length l)%nat →
  write_address_rr (splice p a l) q addr ttl
  = Ret (splice p (a ++ addr_rr addr ttl) l, address_rr_len addr).
Proof.
  intros -> H. rewrite write_address_rr_first by (rewrite length_splice; lia).
  by rewrite splice_app by (rewrite length_addr_rr; lia).
Qed.

Fixpoint addr_rrs (addresses : list IpAddr) (ttl : Z) : bytes :=
  match addresses with
  | [] => []
  | a :: addresses => addr_rr a ttl ++ addr_rrs addresses ttl
  end.

Lemma length_addr_rrs addresses ttl :
  length (addr_rrs addresses ttl) = sum_list_with address_rr_len addresses.
Proof.
  induction addresses as [|a l IH]; [done|].
  simpl. by rewrite length_app, length_addr_rr, IH.
Qed.

Lemma write_addresses_next addresses ttl : ∀ (l : bytes) p a q,
  q = (p + length a)%nat →
  (q + sum_list_with address_rr_len addresses ≤ length l)%nat →
  write_addresses (splice p a l) q addresses ttl
  = Ret (splice p (a ++ addr_rrs addresses ttl) l,
         q + sum_list_with address_rr_len addresses)%nat.
Proof.
  induction addresses as [|addr rest IH]; intros l p a q -> Hl; simpl in *.
  { by rewrite app_nil_r, Nat.add_0_r. }
  rewrite write_address_rr_next by lia. simpl.
  rewrite IH; [|rewrite length_app, length_addr_rr; lia|lia].
  rewrite <-app_assoc. do 2 f_equal. lia.
Qed.

Lemma address_rr_Ret addr ttl : address_rr addr ttl = Ret (addr_rr addr ttl).
Proof.
  unfold address_rr.
  rewrite write_address_rr_first by (rewrite length_replicate; destruct addr; simpl; lia).
  destruct addr; reflexivity.
Qed.

Lemma append_addresses_Ret addresses ttl : ∀ out,
  append_addresses out addresses ttl = Ret (out ++ addr_rrs addresses ttl).
Proof.
  induction addresses as [|a l IH]; intros out; simpl.
  { by rewrite app_nil_r. }
  rewrite address_rr_Ret. simpl. by rewrite IH, <-app_assoc.
Qed.

(** The OPT of the fast path is the one [edns_write] writes. *)
Definition fast_opt (cookie : option bytes) : bytes :=
  edns_write (mkEdnsReply false cookie None) [] 0.

Lemma length_fast_opt cookie :
  length (fast_opt cookie) = (length OPT_RECORD + cookie_len cookie)%nat.
Proof.
  unfold fast_opt, edns_write. destruct cookie as [c|]; [|done]. simpl. lia.
Qed.

Lemma edns_write_app e out rc : edns_write e out rc = out ++ edns_write e [] rc.
Proof.
  unfold edns_write. destruct (r_cookie e), (ede e); simpl; by rewrite <-?app_assoc.
Qed.

Lemma write_fast_path_opt_next (l : bytes) p a cookie q :
  q = (p + length a)%nat →
  (q + length OPT_RECORD + cookie_len cookie ≤ length l)%nat →
  write_fast_path_opt (splice p a l) q cookie
  = Ret (splice p (a ++ fast_opt cookie) l, length OPT_RECORD + cookie_len cookie)%nat.
Proof.
  intros -> H. unfold write_fast_path_opt, fast_opt, edns_write.
  destruct cookie as [c|]; simpl in H.
  - rewrite copy_at_next by (simpl; lia). simpl.
    rewrite copy_at_next by (rewrite ?length_app; simpl; lia). simpl.
    rewrite copy_at_next by (rewrite ?length_app; simpl; lia). simpl.
    rewrite copy_at_next by (rewrite ?length_app; simpl; lia). simpl.
    unfold rdata_len. simpl. rewrite Nat.add_0_r. by rewrite <-!app_assoc.
  - rewrite copy_at_next by (simpl; lia). done.
Qed.

(** The header the fast path writes, in one piece. *)
Definition hit_head (id an ar : Z) : bytes :=
  write_header [] id [0x81; 0x80] 1 an 0 ar.

Lemma hit_head_writes {B} (l : bytes) id an ar (k : bytes → outcome B) :
  (12 ≤ length l)%nat →
  (l ← copy_at l 0 (u16_be id); l ← copy_at l 2 [0x81; 0x80]; l ← copy_at l 4 (u16_be 1);
   l ← copy_at l 6 (u16_be an); l ← copy_at l 8 (u16_be 0); l ← copy_at l 10 (u16_be ar);
   k l) = k (splice 0 (hit_head id an ar) l).
Proof.
  intros H. rewrite copy_at_first by (simpl; lia). cbn [mbind outcome_bind].
  do 5 (rewrite copy_at_next by (simpl; lia); cbn [mbind outcome_bind]). done.
Qed.

Lemma index_range_take (l : bytes) from to : (from ≤ to ≤ length l)%nat →
  index_range l from to = Ret (take (to - from) (drop from l)).
Proof. intros H. by apply index_range_Ret. Qed.

(** What the fast path writes, given that it fits. *)
Lemma hit_writes (q : FastPathQuery) (qn : bytes) addresses ttl ck out an :
  let c := hit_head (id q) an (u8_from (has_edns q)) ++ qn ++ addr_rrs addresses ttl
           ++ (if has_edns q then fast_opt ck else []) in
  (length c ≤ length out)%nat →
  (out ← copy_at out 0 (u16_be (id q)); out ← copy_at out 2 [0x81; 0x80];
   out ← copy_at out 4 (u16_be 1); out ← copy_at out 6 (u16_be an);
   out ← copy_at out 8 (u16_be 0); out ← copy_at out 10 (u16_be (u8_from (has_edns q)));
   out ← copy_at out 12 qn;
   '(out, pos) ← write_addresses out (12 + length qn) addresses ttl;
   if has_edns q then
     '(out, n) ← write_fast_path_opt out pos ck; Ret (out, pos + n)%nat
   else Ret (out, pos)) = Ret (splice 0 c out, length c).
Proof.
  intros c Hc.
  assert (Hlen : length c = (12 + length qn + sum_list_with address_rr_len addresses
     + if has_edns q then length OPT_RECORD + cookie_len ck else 0)%nat).
  { subst c. rewrite !length_app, length_addr_rrs.
    destruct (has_edns q); rewrite ?length_fast_opt; simpl; lia. }
  rewrite hit_head_writes by lia.
  rewrite copy_at_next by (simpl; lia). cbn [mbind outcome_bind].
  rewrite write_addresses_next by (rewrite ?length_app; simpl; lia).
  cbn [mbind outcome_bind].
  subst c. destruct (has_edns q).
  - rewrite write_fast_path_opt_next
      by (rewrite ?length_app, ?length_addr_rrs; simpl in *; lia).
    cbn [mbind outcome_bind]. rewrite <-!app_assoc, Hlen. do 2 f_equal; lia.
  - rewrite app_nil_r in Hlen |- *. rewrite <-!app_assoc, Hlen. do 2 f_equal; lia.
Qed.

(** ** Properties *)

Lemma cache_hit_encoded (q : FastPathQuery) (buf : bytes)
    (addresses : list IpAddr) (ttl : Z) (ck : option bytes) (out : bytes) :
  length out = RESPONSE_BUF_LEN → (12 ≤ question_end q ≤ length buf)%nat →
  let edns := if has_edns q then Some (mkEdnsReply false ck None) else None in
  match build_cache_hit_response q buf addresses ttl ck out with
  | Ret (out', n) =>
      (qn ← index_range buf 12 (question_end q);
       encode_response (mkHead (id q) true false NoError) qn 1 (Addresses addresses ttl) edns)
      = Ret (take n out')
      ∧ Z.of_nat n ≤ client_max_size q ∧ (n ≤ RESPONSE_BUF_LEN)%nat
      ∧ length out' = length out
  | Decline =>
      addresses = [] ∨
      let total := (question_end q + sum_list_with address_rr_len addresses
        + if has_edns q then length OPT_RECORD + cookie_len ck else 0)%nat in
      client_max_size q < Z.of_nat total ∨ (RESPONSE_BUF_LEN < total)%nat
  | Crash _ => False
  end.
Proof.
  intros Hout Hq edns. unfold build_cache_hit_response.
  destruct (length addresses =? 0)%nat eqn:Ea; cbn [orb].
  { left. apply Nat.eqb_eq in Ea. by apply length_zero_iff_nil. }
  rewrite (proj2 (Nat.ltb_ge _ _)) by lia.
  destruct (_ || _) eqn:Efit.
  { right. apply orb_prop in Efit as [E|E]; [left|right]; boolify;
      try apply Nat.ltb_lt in E; lia. }
  apply orb_false_elim in Efit as [E1 E2]. boolify. apply Nat.ltb_ge in E2.
  rewrite index_range_take by lia.
  set (qn := take (question_end q - 12) (drop 12 buf)).
  assert (Hqn : length qn = (question_end q - 12)%nat)
    by (subst qn; rewrite length_take, length_drop; lia).
  rewrite <-Hqn in *. cbn [mbind outcome_bind].
  pose proof (hit_writes q qn addresses ttl ck out (as_u16 (length addresses))) as Hw.
  cbv zeta in Hw. set (c := hit_head _ _ _ ++ _) in *.
  assert (Hlen : length c = (12 + length qn + sum_list_with address_rr_len addresses
     + if has_edns q then length OPT_RECORD + cookie_len ck else 0)%nat).
  { subst c. rewrite !length_app, length_addr_rrs.
    destruct (has_edns q); rewrite ?length_fast_opt; simpl; lia. }
  cbn [mbind outcome_bind] in Hw. rewrite Hw by lia.
  rewrite take_splice, length_splice by lia.
  split; [|split; [|split]]; [|lia|lia|done].
  unfold encode_response. rewrite append_addresses_Ret. cbn [mbind outcome_bind]. f_equal.
  subst c edns. destruct (has_edns q); cbn match.
  - rewrite edns_write_app, <-!app_assoc. done.
  - by rewrite app_nil_r, <-app_assoc.
Qed.

(** Into a buffer of the fixed size, whatever it held before, the fast path
    writes exactly the message the general encoder builds for a reply with RD
    set and AD clear, within the client's advertised size; it declines only an
    empty answer or one that does not fit, and no write leaves the buffer. *)
Theorem build_cache_hit_response_spec (q : FastPathQuery) (buf : bytes)
    (addresses : list IpAddr) (ttl : Z) (ck : option bytes) (out : bytes) :
  length out = RESPONSE_BUF_LEN → (12 ≤ question_end q ≤ length buf)%nat →
  let edns := if has_edns q then Some (mkEdnsReply false ck None) else None in
  match build_cache_hit_response q buf addresses ttl ck out with
  | Ret (out', n) =>
      (qn ← index_range buf 12 (question_end q);
       encode_response (mkHead (id q) true false NoError) qn 1 (Addresses addresses ttl) edns)
      = Ret (take n out')
      ∧ Z.of_nat n ≤ client_max_size q ∧ (n ≤ RESPONSE_BUF_LEN)%nat
      ∧ length out' = length out
  | Decline =>
      addresses = [] ∨
      let total := (question_end q + sum_list_with address_rr_len addresses
        + if has_edns q then length OPT_RECORD + cookie_len ck else 0)%nat in
      client_max_size q < Z.of_nat total ∨ (RESPONSE_BUF_LEN < total)%nat
  | Crash _ => False
  end.
Proof. exact (cache_hit_encoded q buf addresses ttl ck out). Qed.

Definition demo_query_bytes : bytes :=
  [18; 52; 1; 0; 0; 1; 0; 0; 0; 0; 0; 1] ++ [7; 101; 120; 65; 109; 112; 108; 101; 3; 99; 111; 109; 0]
  ++ [0; 1; 0; 1] ++ [0; 0; 41; 16; 0; 0; 0; 128; 0; 0; 0].
Definition demo_query : FastPathQuery :=
  mkFastPathQuery 4660 A IpAddress 29 4096 true true false (Some (mkQueryOpt None)) [].

Lemma build_cache_hit_response_spec_witness :
  parse_query demo_query_bytes
    = Ret (mkFastPathQuery 4660 A IpAddress 29 4096 true true false (Some (mkQueryOpt None))
             [101; 120; 97; 109; 112; 108; 101; 46; 99; 111; 109]) ∧
  match build_cache_hit_response demo_query demo_query_bytes [V4 16843009] 60 None
          (replicate 523 0) with
  | Ret (out', n) =>
      (qn ← index_range demo_query_bytes 12 (question_end demo_query);
       encode_response (mkHead 4660 true false NoError) qn 1 (Addresses [V4 16843009] 60)
         (Some (mkEdnsReply false None None)))
      = Ret (take n out')
      ∧ Z.of_nat n ≤ 4096 ∧ (n ≤ RESPONSE_BUF_LEN)%nat ∧ length out' = length (replicate 523 0)
  | Decline => True
  | Crash _ => False
  end.
Proof.
  split; [vm_compute; reflexivity|].
  exact (build_cache_hit_response_spec demo_query demo_query_bytes [V4 16843009] 60 None
    (replicate 523 0) eq_refl ltac:(vm_compute; lia)).
Defined.
