(* ===== verification/WireCache.v ===== *)
(** Re-sectioning, caching and relaying upstream answers, the second half of
    [infrastructure/src/dns/wire_response.rs]: [resection] with its [Rewriter],
    the cache form with its index of TTL offsets, and the two ways an answer
    goes back to a client, [relay_with_edns] and [relay_cached]. *)

From S2P Require Import Prelude Net WireName FastPath WireResponse.

(** ** The rewriter *)

Record Rewriter := mkRewriter {
  src : bytes;
  out : bytes;
  cut : option nat;
  spans : list (nat * nat * nat);
}.

Definition rewriter_new (src : bytes) : Rewriter := mkRewriter src [] None [].

Definition drop_from (w : Rewriter) (pos : nat) : outcome Rewriter :=
  match cut w with
  | None =>
      head ← index_range (src w) 0 pos;
      Ret (mkRewriter (src w) (out w ++ head) (Some pos) (spans w))
  | Some _ => Ret w
  end.

(** Logs that [src[from..to]] lands at the end of [out]. *)
Definition span (w : Rewriter) (from to : nat) : Rewriter :=
  let at_ := length (out w) in
  let spans := match last (spans w) with
    | Some (s, e, o) =>
        if (e =? from)%nat && (o + (e - s) =? at_)%nat
        then take (length (spans w) - 1) (spans w) ++ [(s, to, o)]
        else spans w ++ [(from, to, at_)]
    | None => spans w ++ [(from, to, at_)]
    end in
  mkRewriter (src w) (out w) (cut w) spans.

Definition push_out (w : Rewriter) (bs : bytes) : Rewriter :=
  mkRewriter (src w) (out w ++ bs) (cut w) (spans w).

Definition copy_from (w : Rewriter) (from to : nat) (in_place : bool) : outcome Rewriter :=
  bs ← get_range (src w) from to;
  let w := if in_place then span w from to else w in
  Ret (push_out w bs).

Definition copy (w : Rewriter) (from to : nat) : outcome (Rewriter * nat) :=
  w ← copy_from w from to true; Ret (w, to).

(** The second component of the result of the source is [None] where this is
    [Ret None]. *)
Definition moved (w : Rewriter) (at_ : nat) : outcome (option Z) :=
  match skip_name (src w) at_ with
  | Crash c => Crash c
  | Decline => Ret None
  | Ret run_end =>
      let fits (m : nat) :=
        if Z.of_nat m <? 0x4000 then Some (Z.of_nat m) else None in
      match cut w with
      | Some cut =>
          if (cut <? run_end)%nat then
            match partition_point (λ s : nat * nat * nat, (s.1.1 <=? at_)%nat) (spans w) with
            | O => Ret None
            | S i =>
                '(start, end_, o) ← index (spans w) i;
                if (end_ <? run_end)%nat then Ret None
                else Ret (fits (o + (at_ - start))%nat)
            end
          else Ret (fits at_)
      | None => Ret (fits at_)
      end
  end.

Fixpoint name_go (fuel : nat) (w : Rewriter) (pos len : nat) (end_ : option nat)
    : outcome (Rewriter * nat) :=
  match fuel with
  | O => Crash OutOfFuel
  | S fuel =>
      byte ← get (src w) pos;
      if Z.land byte 0xC0 =? 0 then
        let next := (pos + 1 + Z.to_nat byte)%nat in
        let len := (len + (1 + Z.to_nat byte))%nat in
        if (255 <? len)%nat then Decline else
        w ← copy_from w pos next (match end_ with None => true | Some _ => false end);
        if byte =? 0 then Ret (w, default next end_)
        else name_go fuel w next len end_
      else if Z.land byte 0xC0 =? 0xC0 then
        low ← get (src w) (pos + 1);
        let target := Z.to_nat (be16 (Z.land byte 0x3F) low) in
        if (pos <=? target)%nat then Decline else
        let in_place := match end_ with None => true | Some _ => false end in
        let past := default (pos + 2)%nat end_ in
        m ← moved w target;
        match m with
        | Some m =>
            let w := if in_place then span w pos (pos + 2) else w in
            Ret (push_out w (u16_be (Z.lor 0xC000 m)), past)
        | None => name_go fuel w target len (Some past)
        end
      else Decline
  end.
Definition name (w : Rewriter) (pos : nat) : outcome (Rewriter * nat) :=
  name_go (name_fuel (src w)) w pos 0 None.

Fixpoint keep_fields (fs : list Field) (w : Rewriter) (at_ : nat)
    : outcome (Rewriter * nat) :=
  match fs with
  | [] => Ret (w, at_)
  | f :: fs =>
      '(w, at_) ← match f with
        | Fixed len => copy w at_ (at_ + len)
        | Text => n ← get (src w) at_; copy w at_ (at_ + 1 + Z.to_nat n)
        | Name => name w at_
        end;
      keep_fields fs w at_
  end.

Definition keep (w : Rewriter) (pos end_ : nat) (rtype : Z) : outcome Rewriter :=
  match cut w with
  | None => Ret w
  | Some _ =>
      '(w, fixed) ← name w pos;
      '(w, _) ← copy w fixed (fixed + 10);
      let rdata_at := length (out w) in
      '(w, at_) ← keep_fields (rdata_fields rtype) w (fixed + 10);
      if (end_ <? at_)%nat then Decline else
      '(w, _) ← copy w at_ end_;
      rdlength ← try_u16 (length (out w) - rdata_at);
      o ← copy_at (out w) (rdata_at - 2) (u16_be rdlength);
      Ret (mkRewriter (src w) o (cut w) (spans w))
  end.

Definition finish (w : Rewriter) (end_ : nat) : outcome bytes :=
  match cut w with
  | None => head ← index_range (src w) 0 end_; Ret (out w ++ head)
  | Some _ => Ret (out w)
  end.

(** ** Re-sectioning *)

Definition is_authenticating (rtype : Z) (qtype : option Z) : bool :=
  existsb (Z.eqb rtype) [TYPE_RRSIG; TYPE_NSEC; TYPE_NSEC3]
  && negb (match qtype with Some q => (q =? rtype) || (q =? TYPE_ANY) | None => false end).

Definition is_transaction_signature (msg : bytes) (pos end_ : nat) (rtype : Z)
    : outcome bool :=
  if rtype =? TYPE_TSIG then Ret true
  else if rtype =? TYPE_SIG then
    match (fixed ← skip_name msg pos; get_range msg (fixed + 10) end_) with
    | Crash c => Crash c
    | Decline => Ret false
    | Ret rdata => Ret (bool_decide (take 2 rdata = [0; 0]))
    end
  else Ret false.

Record Sections := mkSections {
  s_out : bytes;
  s_extended_rcode : Z;
  s_authenticating : bool;
}.

Fixpoint read_questions (n : nat) (upstream : bytes) (pos : nat) (qtype : option Z)
    : outcome (nat * option Z) :=
  match n with
  | O => Ret (pos, qtype)
  | S n =>
      pos ← skip_name upstream pos;
      fixed ← get_range upstream pos (pos + 4);
      t ← be16_at fixed 0;
      read_questions n upstream (pos + 4) (Some (default t qtype))
  end.

Record resection_state := mkRs {
  rs_pos : nat;
  rs_copy : Rewriter;
  rs_kept : list Z;
  rs_rcode : option Z;
  rs_auth : bool;
}.

(** One record of section [section]. *)
Definition resection_record (upstream : bytes) (strip : bool) (qtype : option Z)
    (section : nat) (st : resection_state) : outcome resection_state :=
  let pos := rs_pos st in
  '(rtype, end_) ← skip_rr upstream pos;
  '(dropped, rcode, auth) ←
    (if rtype =? TYPE_OPT then
       if negb (section =? 2)%nat || bool_decide (is_Some (rs_rcode st)) then Decline
       else
         fixed ← skip_name upstream pos;
         r ← get upstream (fixed + 4);
         Ret (true, Some r, rs_auth st)
     else
       sig ← (if (section =? 2)%nat
              then is_transaction_signature upstream pos end_ rtype else Ret false);
       if sig : bool then Ret (true, rs_rcode st, rs_auth st)
       else if is_authenticating rtype qtype then Ret (strip, rs_rcode st, true)
       else Ret (false, rs_rcode st, rs_auth st));
  if dropped : bool then
    w ← drop_from (rs_copy st) pos;
    Ret (mkRs end_ w (rs_kept st) rcode auth)
  else
    w ← keep (rs_copy st) pos end_ rtype;
    n ← index (rs_kept st) section;
    Ret (mkRs end_ w (<[section := wrap16 (n + 1)]> (rs_kept st)) rcode auth).

Fixpoint resection_section (n : nat) (upstream : bytes) (strip : bool) (qtype : option Z)
    (section : nat) (st : resection_state) : outcome resection_state :=
  match n with
  | O => Ret st
  | S n =>
      st ← resection_record upstream strip qtype section st;
      resection_section n upstream strip qtype section st
  end.

Definition write_counts (out : bytes) (kept : list Z) : outcome bytes :=
  match kept with
  | [an; ns; ar] =>
      out ← copy_at out 6 (u16_be an);
      out ← copy_at out 8 (u16_be ns);
      copy_at out 10 (u16_be ar)
  | _ => Crash Panicked
  end.

Definition resection (upstream : bytes) (strip : bool) : outcome Sections :=
  header ← get_range upstream 0 12;
  qd ← be16_at header 4; an ← be16_at header 6;
  ns ← be16_at header 8; ar ← be16_at header 10;
  '(pos, qtype) ← read_questions (Z.to_nat qd) upstream 12 None;
  let st := mkRs pos (rewriter_new upstream) [0; 0; 0] None false in
  st ← resection_section (Z.to_nat an) upstream strip qtype 0 st;
  st ← resection_section (Z.to_nat ns) upstream strip qtype 1 st;
  st ← resection_section (Z.to_nat ar) upstream strip qtype 2 st;
  o ← finish (rs_copy st) (rs_pos st);
  o ← write_counts o (rs_kept st);
  Ret (mkSections o (default 0 (rs_rcode st)) (rs_auth st)).

(** ** The cache form *)

Definition CACHE_OPTION_CODE : Z := 65001.
Definition CACHE_OPT_HEAD : nat := length OPT_RECORD + 4 + 4.

Definition cacheable_ttl_offsets (msg : bytes) : outcome (list nat) :=
  '(_, offsets) ← for_each_ttl collect msg [];
  read ← names_read_ttls msg offsets;
  if read : bool then Decline else Ret offsets.

Definition be32_of (l : bytes) : Z :=
  match l with [a; b; c; d] => be32 a b c d | _ => 0 end.

Fixpoint clamp_ttls (out : bytes) (offsets : list nat) (lo hi : Z) : outcome bytes :=
  match offsets with
  | [] => Ret out
  | at_ :: offsets =>
      ttl ← get_range out at_ (at_ + 4);
      out ← copy_at out at_ (u32_be (clamp (be32_of ttl) lo hi));
      clamp_ttls out offsets lo hi
  end.

Fixpoint append_offsets (out : bytes) (offsets : list nat) : outcome bytes :=
  match offsets with
  | [] => Ret out
  | at_ :: offsets => n ← try_u16 at_; append_offsets (out ++ u16_be n) offsets
  end.

(** [checked_add] on a [u16]. *)
Definition checked_add16 (a b : Z) : outcome Z :=
  if a + b <=? u16_max then Ret (a + b) else Decline.

Definition set_arcount (out : bytes) (arcount : Z) : outcome bytes :=
  copy_at out 10 (u16_be arcount).

Definition cache_form (upstream : bytes) (entry_ttl lo hi : Z) : outcome bytes :=
  s ← resection upstream false;
  offsets ← cacheable_ttl_offsets (s_out s);
  o ← clamp_ttls (s_out s) offsets lo hi;
  count ← try_u16 (length offsets);
  option_len ← try_u16 (4 + 2 * length offsets + 2);
  rdlen ← checked_add16 option_len 4;
  let o := o ++ opt_head (s_extended_rcode s) (s_authenticating s) rdlen in
  let o := o ++ u16_be CACHE_OPTION_CODE ++ u16_be option_len ++ u32_be entry_ttl in
  o ← append_offsets o offsets;
  let o := o ++ u16_be count in
  ar ← be16_at o 10;
  arcount ← checked_add16 ar 1;
  set_arcount o arcount.

Record CachedOpt := mkCachedOpt {
  c_extended_rcode : Z;
  c_authenticating : bool;
  c_entry_ttl : Z;
  c_ttls : bytes;
}.

(** The header and records before the OPT that ends the cache form, and that
    OPT. *)
Definition cached_opt (wire : bytes) : option (bytes * CachedOpt) :=
  let n := length wire in
  match slice wire (n - 2) n with
  | Some [c0; c1] =>
      let rest := take (n - 2) wire in
      let ttls_len := (2 * Z.to_nat (be16 c0 c1))%nat in
      if (length rest <? CACHE_OPT_HEAD + ttls_len)%nat then None else
      let cut := (length rest - (CACHE_OPT_HEAD + ttls_len))%nat in
      let body := take cut rest in
      let opt := drop cut rest in
      let ttls := drop CACHE_OPT_HEAD opt in
      match take CACHE_OPT_HEAD opt with
      | [0; 0; 41; _; _; extended_rcode; 0; flags; _; rd0; rd1; o0; o1; l0; l1;
         t0; t1; t2; t3] =>
          let option_len := Z.of_nat (4 + ttls_len + 2) in
          let well_formed :=
            (be16 o0 o1 =? CACHE_OPTION_CODE) && (be16 l0 l1 =? option_len)
            && (be16 rd0 rd1 =? 4 + option_len) && (12 <=? length body)%nat in
          if well_formed
          then Some (body, mkCachedOpt extended_rcode (bit flags 0x80)
                             (be32 t0 t1 t2 t3) ttls)
          else None
      | _ => None
      end
  | _ => None
  end.

(** The four bytes of a TTL field, aged. *)
Definition age_field (entry_ttl remaining : Z) (ttl : bytes) : bytes :=
  u32_be (aged_ttl (be32_of ttl) entry_ttl remaining).

(** [offsets] as the source's [as_chunks::<2>] reads it. *)
Fixpoint age_ttls (msg offsets : bytes) (entry_ttl remaining : Z) : outcome bytes :=
  match offsets with
  | hi :: lo :: offsets =>
      let at_ := Z.to_nat (be16 hi lo) in
      ttl ← get_range msg at_ (at_ + 4);
      msg ← copy_at msg at_ (age_field entry_ttl remaining ttl);
      age_ttls msg offsets entry_ttl remaining
  | _ => Ret msg
  end.

(** ** Relaying *)

Definition append_opt (out : bytes) (extended_rcode : Z) (edns : option EdnsReply)
    : outcome bytes :=
  match edns with
  | Some e =>
      let out := edns_write e out extended_rcode in
      ar ← be16_at out 10;
      arcount ← checked_add16 ar 1;
      set_arcount out arcount
  | None => if negb (extended_rcode =? 0) then Decline else Ret out
  end.

Definition echo_opt (out : bytes) (qname : option bytes) : outcome bytes :=
  match qname with Some q => echo_question_case out q | None => Ret out end.

Definition wants_dnssec_ok (edns : option EdnsReply) : bool :=
  match edns with Some e => dnssec_ok e | None => false end.

Definition relay_with_edns (upstream : bytes) (id : Z) (recursion_desired : bool)
    (qname : option bytes) (authentic_data : bool) (edns : option EdnsReply)
    : outcome bytes :=
  s ← resection upstream (negb (wants_dnssec_ok edns));
  o ← append_opt (s_out s) (s_extended_rcode s) edns;
  echo_opt (set_relay_header o id recursion_desired authentic_data) qname.

Definition relay_aged (wire : bytes) (id : Z) (recursion_desired : bool)
    (qname : option bytes) (authentic_data : bool) (edns : option EdnsReply)
    (remaining : Z) : outcome bytes :=
  o ← relay_with_edns wire id recursion_desired qname authentic_data edns;
  match cached_opt wire with
  | Some (_, opt) =>
      '(o, _) ← for_each_ttl (visit (age_field (c_entry_ttl opt) remaining)) o tt; Ret o
  | None => Ret o
  end.

(** The cache's OPT but for its option and DO, which is the query's. *)
Definition reuse_opt (wire body : bytes) (do : bool) : outcome bytes :=
  o ← get_range wire 0 (length body + length OPT_RECORD);
  let n := length o in
  if (n <? 4)%nat then Decline else
  o ← copy_at o (n - 4) [Z.shiftl (u8_from do) 7];
  copy_at o (n - 2) [0; 0].

Definition relay_cached (wire : bytes) (id : Z) (recursion_desired : bool)
    (qname : option bytes) (edns : option EdnsReply) (remaining : Z) : outcome bytes :=
  '(body, opt) ← try_some (cached_opt wire);
  if c_authenticating opt && negb (wants_dnssec_ok edns)
  then relay_aged wire id recursion_desired qname false edns remaining
  else
  o ← match edns with
    | Some (mkEdnsReply do None None) => reuse_opt wire body do
    | Some e => Ret (edns_write e body (c_extended_rcode opt))
    | None =>
        if negb (c_extended_rcode opt =? 0) then Decline else
        ar ← be16_at body 10;
        if ar =? 0 then Decline else set_arcount body (ar - 1)
    end;
  o ← age_ttls o (c_ttls opt) (c_entry_ttl opt) remaining;
  echo_opt (set_relay_header o id recursion_desired false) qname.

(** ** Safety of the rewriter

    Every step keeps the source and the cut, and only appends to the output. *)

Definition grows (w w' : Rewriter) : Prop :=
  src w' = src w ∧ cut w' = cut w ∧ (length (out w) ≤ length (out w'))%nat ∧
  (bytes_ok (src w) → bytes_ok (out w) → bytes_ok (out w')).

Lemma grows_refl w : grows w w.
Proof. unfold grows. auto. Qed.

Lemma grows_trans w1 w2 w3 : grows w1 w2 → grows w2 w3 → grows w1 w3.
Proof.
  unfold grows. intros (E1 & -> & ? & ?) (E2 & -> & ? & ?). rewrite E1 in *.
  split_and!; auto. lia.
Qed.

Lemma span_grows w from to : grows w (span w from to).
Proof. unfold span, grows. repeat case_match; auto. Qed.

Lemma push_out_grows w bs : (bytes_ok (src w) → bytes_ok bs) → grows w (push_out w bs).
Proof.
  intros Hb. unfold push_out, grows. simpl. rewrite length_app. split_and!; auto; [lia|].
  intros. apply Forall_app; split; [done|by apply Hb].
Qed.

Lemma bytes_ok_range l from n : bytes_ok l → bytes_ok (take n (drop from l)).
Proof. intros H. by apply Forall_take, Forall_drop. Qed.

Lemma bytes_ok_splice l at_ bs : bytes_ok l → bytes_ok bs → bytes_ok (splice at_ bs l).
Proof.
  intros Hl Hb. unfold splice. apply Forall_app; split; [by apply Forall_take|].
  apply Forall_app; split; [done|by apply Forall_drop].
Qed.

#[local] Hint Resolve grows_refl grows_trans span_grows push_out_grows : ferrous.

Lemma copy_from_post w from to ip :
  post (copy_from w from to ip) (λ w', grows w w' ∧ (to ≤ length (src w))%nat ∧
    length (out w') = (length (out w) + (to - from))%nat).
Proof.
  unfold copy_from. wp.
  assert (Hl : ∀ w', out w' = out w → src w' = src w →
    length (out (push_out w' (take (to - from) (drop from (src w)))))
    = (length (out w) + (to - from))%nat).
  { intros w' Ho Hs. simpl. rewrite length_app, length_take, length_drop, Ho. lia. }
  split_and!; [|lia|].
  - eapply grows_trans; [|apply push_out_grows].
    + destruct ip; auto with ferrous.
    + intros. apply bytes_ok_range. destruct ip; [|done].
      by destruct (span_grows w from to) as (<- & _).
  - destruct ip; apply Hl; try done; unfold span; repeat case_match; done.
Qed.

Lemma copy_post w from to :
  post (copy w from to) (λ r, grows w r.1 ∧ r.2 = to ∧ (to ≤ length (src w))%nat ∧
    length (out r.1) = (length (out w) + (to - from))%nat).
Proof.
  unfold copy. wp. eapply post_mono; [apply copy_from_post|].
  intros w' (? & ? & ?). simpl. auto.
Qed.

Lemma partition_point_le {A} (p : A → bool) l : (partition_point p l ≤ length l)%nat.
Proof. induction l; simpl; [lia|]. case_match; simpl; lia. Qed.

Lemma moved_post w at_ : post (moved w at_) (λ _, True).
Proof.
  unfold moved. pose proof (skip_name_post (src w) at_) as Hs.
  destruct (skip_name (src w) at_) as [run_end| |]; simpl in *; [|done|done].
  destruct (cut w) as [c|]; [|done]. case_match; [|done].
  destruct (partition_point _ _) as [|i] eqn:E; [done|].
  pose proof (partition_point_le (λ s : nat * nat * nat, (s.1.1 <=? at_)%nat) (spans w)) as Hle.
  rewrite E in Hle. apply post_bind, post_index; [lia|]. intros [[s e] o] _.
  case_match; done.
Qed.

Lemma name_go_post fuel : ∀ w pos len end_,
  bytes_ok (src w) →
  (1 ≤ fuel ∧ len ≤ 255 ∧
   (pos ≤ length (src w) → (256 - len) * S (length (src w)) + pos < fuel))%nat →
  (∀ e, end_ = Some e → e ≤ length (src w))%nat →
  post (name_go fuel w pos len end_)
    (λ r, grows w r.1 ∧ r.2 ≤ length (src w) ∧ default (S pos) end_ ≤ r.2)%nat.
Proof.
  induction fuel as [|fuel IH]; intros w pos len end_ Hok Hf He; simpl; [lia|].
  apply post_bind, post_get. intros byte Hb.
  pose proof (lookup_lt_Some _ _ _ Hb) as Hlt.
  pose proof (bytes_ok_lookup _ _ _ Hok Hb) as Hb8.
  destruct (Z.land byte 0xC0 =? 0) eqn:E0.
  - destruct (255 <? _)%nat eqn:El; [exact I|]. apply Nat.ltb_ge in El.
    apply post_bind. eapply post_mono; [apply copy_from_post|].
    intros w' (Hgr & Hto & _). pose proof Hgr as (Es & Ec & Hg & _).
    destruct (byte =? 0) eqn:Ez.
    + simpl. split; [done|]. destruct end_ as [e|]; simpl;
        [specialize (He e eq_refl)|]; lia.
    + boolify. assert (0 < Z.to_nat byte)%nat by (unfold_ints; lia).
      eapply post_mono; [apply IH; rewrite ?Es; [done| |done]|].
      * split; [nia|]. split; [lia|]. intros. nia.
      * intros [w'' r] (Hg' & ? & Hd). rewrite Es in *. simpl in *.
        split; [by eapply grows_trans|]. destruct end_; simpl in *; lia.
  - destruct (Z.land byte 0xC0 =? 0xC0); [|exact I].
    apply post_bind, post_get. intros low Hlow.
    pose proof (lookup_lt_Some _ _ _ Hlow) as Hlt2.
    destruct (_ <=? _)%nat eqn:Et; [exact I|]. apply Nat.leb_gt in Et.
    apply post_bind. eapply post_mono; [apply moved_post|]. intros [m|] _.
    + simpl. split.
      { eapply grows_trans; [|apply push_out_grows; intros; apply u16_be_ok].
        destruct end_; auto with ferrous. }
      destruct end_ as [e|]; simpl; [specialize (He e eq_refl)|]; lia.
    + eapply post_mono; [apply IH; [done| |]|].
      * split; [nia|]. split; [lia|]. intros. nia.
      * intros e [= <-]. destruct end_; simpl; auto. lia.
      * intros [w'' r] (Hg' & ? & Hd). simpl in *. split; [done|]. destruct end_; simpl in *; lia.
Qed.

Lemma name_post w pos : bytes_ok (src w) →
  post (name w pos) (λ r, grows w r.1 ∧ pos < r.2 ≤ length (src w))%nat.
Proof.
  intros Hok. eapply post_mono; [apply name_go_post; [done| |by intros e [=]]|].
  - unfold name_fuel. split; [nia|]. split; [lia|]. nia.
  - simpl. intros r (? & ? & ?). split; [done|lia].
Qed.

Lemma keep_fields_post fs : ∀ w at_, bytes_ok (src w) →
  post (keep_fields fs w at_) (λ r, grows w r.1).
Proof.
  induction fs as [|f fs IH]; intros w at_ Hok; simpl.
  { simpl. auto with ferrous. }
  assert (Hstep : ∀ w' a', grows w w' → post (keep_fields fs w' a') (λ r, grows w r.1)).
  { intros w' a' Hg. eapply post_mono; [apply IH; by destruct Hg as (-> & _)|].
    eauto with ferrous. }
  apply post_bind. destruct f as [len| |].
  - eapply post_mono; [apply copy_post|]. intros [w' a'] (? & _). by apply Hstep.
  - apply post_bind, post_get. intros n _.
    eapply post_mono; [apply copy_post|]. intros [w' a'] (? & _). by apply Hstep.
  - eapply post_mono; [by apply name_post|]. intros [w' a'] (? & _). by apply Hstep.
Qed.

Lemma keep_post w pos end_ rtype : bytes_ok (src w) →
  post (keep w pos end_ rtype) (grows w).
Proof.
  intros Hok. unfold keep. destruct (cut w) as [c|]; [|simpl; auto with ferrous].
  apply post_bind. eapply post_mono; [by apply name_post|].
  intros [w1 fixed] [H1 _]. simpl in H1.
  apply post_bind. eapply post_mono; [apply copy_post|].
  intros [w2 x] (H2 & _ & _ & Hl2). simpl in H2, Hl2.
  assert (Hok2 : bytes_ok (src w2)) by (destruct H2 as (-> & _), H1 as (-> & _); done).
  apply post_bind. eapply post_mono; [by apply keep_fields_post|].
  intros [w3 at_] H3. simpl in H3. case_match; [exact I|].
  apply post_bind. eapply post_mono; [apply copy_post|].
  intros [w4 y] (H4 & _). simpl in H4.
  apply post_bind, post_try_u16. intros _.
  assert (Hg : grows w w4) by eauto with ferrous.
  assert (Hl : (length (out w2) ≤ length (out w4))%nat)
    by (destruct H3 as (_ & _ & ? & _), H4 as (_ & _ & ? & _); lia).
  apply post_bind, post_copy_at; [simpl; lia|]. simpl.
  destruct Hg as (? & ? & ? & ?). unfold grows. simpl.
  rewrite length_splice by (simpl; lia). split_and!; auto.
  intros. apply bytes_ok_splice; auto with ferrous.
Qed.

(** *** The loop over the sections *)

Definition rs_ok (upstream : bytes) (st : resection_state) : Prop :=
  src (rs_copy st) = upstream ∧
  (12 ≤ rs_pos st ≤ length upstream)%nat ∧
  length (rs_kept st) = 3%nat ∧ bytes_ok (out (rs_copy st)) ∧
  match cut (rs_copy st) with Some _ => 12 ≤ length (out (rs_copy st))%nat | None => True end%nat.

Lemma is_transaction_signature_post msg pos end_ rtype :
  post (is_transaction_signature msg pos end_ rtype) (λ _, True).
Proof.
  unfold is_transaction_signature. case_match; [done|]. case_match; [|done].
  pose proof (skip_name_post msg pos) as Hs.
  destruct (skip_name msg pos) as [f| |]; simpl in *; try done.
  unfold get_range. by destruct (slice _ _ _).
Qed.

Lemma resection_record_post upstream strip qtype section st :
  bytes_ok upstream → (section < 3)%nat → rs_ok upstream st →
  post (resection_record upstream strip qtype section st) (rs_ok upstream).
Proof.
  intros Hok Hsec (Hsrc & Hpos & Hkept & Ho & Hcut). unfold resection_record.
  apply post_bind. eapply post_mono; [apply skip_rr_post|].
  intros [rtype end_] [He1 He2]. simpl in He1, He2.
  apply post_bind. eapply (post_mono _ (λ _, True)).
  { destruct (rtype =? TYPE_OPT).
    - destruct (negb _ || _); [exact I|]. apply post_bind.
      eapply post_mono; [apply skip_name_post|]. intros f _.
      by apply post_bind, post_get.
    - apply post_bind. eapply (post_mono _ (λ _, True)).
      { destruct (section =? 2)%nat; [apply is_transaction_signature_post|done]. }
      intros [] _; [done|]. by destruct (is_authenticating _ _). }
  intros [[dropped rcode] auth] _. destruct dropped.
  - apply post_bind. unfold drop_from. rewrite Hsrc. destruct (cut (rs_copy st)) eqn:Ec.
    + simpl. unfold rs_ok. simpl. rewrite Ec. split_and!; auto; lia.
    + apply post_bind, post_index_range; [lia|]. simpl.
      unfold rs_ok. simpl. split_and!; auto; try lia.
      * apply Forall_app; split; [done|by apply bytes_ok_range].
      * rewrite length_app, length_take, length_drop. lia.
  - apply post_bind. eapply post_mono; [apply keep_post; by rewrite Hsrc|].
    intros w (Es & Ec & Hl & Hob). apply post_bind, post_index; [lia|]. intros n _. simpl.
    unfold rs_ok. simpl. rewrite length_insert, Es, Ec.
    split_and!; auto; try lia.
    + apply Hob; [by rewrite Hsrc|done].
    + destruct (cut (rs_copy st)); [lia|done].
Qed.

Lemma resection_section_post n upstream strip qtype section : ∀ st,
  bytes_ok upstream → (section < 3)%nat → rs_ok upstream st →
  post (resection_section n upstream strip qtype section st) (rs_ok upstream).
Proof.
  induction n as [|n IH]; intros st Hok Hsec Hst; simpl; [done|].
  apply post_bind. eapply post_mono; [by apply resection_record_post|]. auto.
Qed.

Lemma read_questions_post n upstream : ∀ pos qtype, (12 ≤ pos ≤ length upstream)%nat →
  post (read_questions n upstream pos qtype) (λ r, 12 ≤ r.1 ≤ length upstream)%nat.
Proof.
  induction n as [|n IH]; intros pos qtype Hp; simpl; [done|].
  apply post_bind. eapply post_mono; [apply skip_name_post|]. intros p Hp'. simpl in Hp'. wp.
  apply IH. lia.
Qed.

Lemma write_counts_post out kept : length kept = 3%nat → (12 ≤ length out)%nat →
  post (write_counts out kept) (λ o, length o = length out ∧ (bytes_ok out → bytes_ok o)).
Proof.
  intros Hk Ho. destruct kept as [|a [|b [|c [|d l]]]]; try done. unfold write_counts.
  do 2 (apply post_bind, post_copy_at; [rewrite ?length_splice; simpl; lia|]).
  apply post_copy_at; repeat (rewrite length_splice); simpl; try lia.
  split; [done|]. intros. repeat apply bytes_ok_splice; auto with ferrous.
Qed.

Lemma resection_post upstream strip : bytes_ok upstream →
  post (resection upstream strip) (λ s, (12 ≤ length (s_out s))%nat ∧ bytes_ok (s_out s)).
Proof.
  intros Hok. unfold resection. apply post_bind, post_get_range. intros Hlen.
  do 4 (apply post_bind, post_be16_at; [wp_lengths; lia|]; intros ? _).
  apply post_bind. eapply post_mono; [apply read_questions_post; lia|].
  intros [pos qtype] Hpos. simpl in Hpos.
  do 3 (apply post_bind; eapply post_mono;
    [apply resection_section_post; [done|lia|];
     first [eassumption | unfold rs_ok; simpl; split_and!; auto; try lia; constructor] | intros ? ?]).
  match goal with H : rs_ok upstream ?st |- context [finish (rs_copy ?st)] =>
    destruct H as (Hsrc & Hp & Hkept & Hob & Hcut) end.
  apply post_bind. eapply (post_mono _ (λ o, (12 ≤ length o)%nat ∧ bytes_ok o)).
  { unfold finish. rewrite Hsrc. destruct (cut _) eqn:E; [done|].
    apply post_bind, post_index_range; [lia|]. simpl.
    rewrite length_app, length_take, length_drop. split; [lia|].
    apply Forall_app; split; [done|by apply bytes_ok_range]. }
  intros o [Ho Hoo]. apply post_bind. eapply post_mono; [by apply write_counts_post|].
  intros o' [Ho' Hoo']. simpl in *. split; [lia|auto].
Qed.

(** ** The cache form: lemmas *)

Lemma collect_keeps : keeps_field collect.
Proof. by intros ttl at_ s. Qed.

Lemma visit_keeps g : (∀ ttl, length (g ttl) = 4%nat) → keeps_field (visit g).
Proof. intros Hg ttl at_ s _. apply Hg. Qed.

Lemma length_age_field e r ttl : length (age_field e r ttl) = 4%nat.
Proof. done. Qed.

Lemma cacheable_ttl_offsets_post msg : bytes_ok msg →
  post (cacheable_ttl_offsets msg) (λ _, True).
Proof.
  intros Hok. unfold cacheable_ttl_offsets. apply post_bind.
  eapply post_mono; [apply for_each_ttl_post, collect_keeps|]. intros [m offs] _.
  apply post_bind. eapply post_mono; [by apply names_read_ttls_post|].
  intros []; done.
Qed.

Lemma clamp_ttls_post offsets lo hi : ∀ out,
  post (clamp_ttls out offsets lo hi)
    (λ o, length o = length out ∧ (bytes_ok out → bytes_ok o)).
Proof.
  induction offsets as [|at_ offs IH]; intros out; simpl; [done|].
  apply post_bind, post_get_range. intros Hr. apply post_bind, post_copy_at; [simpl; lia|].
  eapply post_mono; [apply IH|]. intros o [Hl Ho]. rewrite Hl, length_splice by (simpl; lia).
  split; [done|]. intros. by apply Ho, bytes_ok_splice; [|apply u32_be_ok].
Qed.

(** The bytes of the index: each offset big-endian. *)
Definition index_bytes (offsets : list nat) : bytes :=
  mjoin ((λ at_, u16_be (Z.of_nat at_)) <$> offsets).

Lemma length_index_bytes offsets : length (index_bytes offsets) = (2 * length offsets)%nat.
Proof.
  induction offsets as [|a l IH]; [done|].
  change (index_bytes (a :: l)) with (u16_be (Z.of_nat a) ++ index_bytes l).
  rewrite length_app, IH. simpl. lia.
Qed.

Lemma append_offsets_post offsets : ∀ out,
  post (append_offsets out offsets)
    (λ o, o = out ++ index_bytes offsets ∧ Forall (λ at_, Z.of_nat at_ ≤ u16_max) offsets).
Proof.
  induction offsets as [|at_ offs IH]; intros out; simpl.
  { split; [by rewrite app_nil_r|constructor]. }
  apply post_bind, post_try_u16. intros Ha. eapply post_mono; [apply IH|].
  intros o [-> Hf]. rewrite <-app_assoc. split; [done|by constructor].
Qed.

Lemma post_checked_add16 a b (P : Z → Prop) :
  (a + b ≤ u16_max → P (a + b)) → post (checked_add16 a b) P.
Proof. unfold checked_add16. case_match; simpl; [|done]. intros HP. apply HP. by apply Z.leb_le. Qed.

Lemma cache_form_post upstream entry_ttl lo hi : bytes_ok upstream →
  post (cache_form upstream entry_ttl lo hi) (λ o, (12 ≤ length o)%nat).
Proof.
  intros Hok. unfold cache_form.
  apply post_bind. eapply post_mono; [by apply resection_post|]. intros s [Hs Hso].
  apply post_bind. eapply post_mono; [by apply cacheable_ttl_offsets_post|]. intros offs _.
  apply post_bind. eapply post_mono; [apply clamp_ttls_post|]. intros o [Ho _].
  do 2 (apply post_bind, post_try_u16; intros _).
  apply post_bind, post_checked_add16. intros _. cbv zeta.
  apply post_bind. eapply post_mono; [apply append_offsets_post|]. intros o' [-> _].
  apply post_bind, post_be16_at; [rewrite !length_app; simpl in *; lia|]. intros ar _.
  apply post_bind, post_checked_add16. intros _.
  apply post_copy_at; [rewrite !length_app; simpl; lia|].
  rewrite length_splice; rewrite !length_app; simpl in *; lia.
Qed.

(** ** Relaying: lemmas *)

Lemma edns_write_length e out rc : (length out ≤ length (edns_write e out rc))%nat.
Proof. rewrite edns_write_app, length_app. lia. Qed.

Lemma append_opt_post out rc edns : (12 ≤ length out)%nat →
  post (append_opt out rc edns) (λ o, (12 ≤ length o)%nat).
Proof.
  intros Ho. unfold append_opt. destruct edns as [e|]; [|by case_match].
  pose proof (edns_write_length e out rc).
  apply post_bind, post_be16_at; [lia|]. intros ar _.
  apply post_bind, post_checked_add16. intros _.
  apply post_copy_at; [simpl; lia|]. rewrite length_splice; simpl; lia.
Qed.

Lemma set_relay_header_length o i rd ad : length (set_relay_header o i rd ad) = length o.
Proof. by destruct o as [|? [|? [|? [|? ?]]]]. Qed.

Lemma echo_question_case_post msg q :
  post (echo_question_case msg q) (λ o, length o = length msg).
Proof.
  unfold echo_question_case. destruct (slice msg 4 6) as [qd|]; [|done].
  case_bool_decide; [done|]. destruct (slice msg 12 _) as [n|] eqn:E; [|done].
  apply slice_Some in E as [? _]. case_match; [|done].
  apply post_copy_at; [lia|]. by rewrite length_splice by lia.
Qed.

Lemma echo_opt_post o q : post (echo_opt o q) (λ o', length o' = length o).
Proof. destruct q; [apply echo_question_case_post|done]. Qed.

Lemma relay_with_edns_post upstream id rd qname ad edns : bytes_ok upstream →
  post (relay_with_edns upstream id rd qname ad edns) (λ o, (12 ≤ length o)%nat).
Proof.
  intros Hok. unfold relay_with_edns.
  apply post_bind. eapply post_mono; [by apply resection_post|]. intros s [Hs _].
  apply post_bind. eapply post_mono; [by apply append_opt_post|]. intros o Ho.
  eapply post_mono; [apply echo_opt_post|]. intros o' ->. by rewrite set_relay_header_length.
Qed.

Lemma age_ttls_post offsets e r : ∀ msg,
  post (age_ttls msg offsets e r) (λ o, length o = length msg).
Proof.
  remember (length offsets) as n eqn:En. revert offsets En.
  induction n as [n IH] using lt_wf_ind. intros [|hi [|lo offs]] -> msg; simpl; try done.
  apply post_bind, post_get_range. intros Hr. apply post_bind, post_copy_at; [simpl; lia|].
  eapply post_mono; [eapply IH; [|done]; simpl; lia|]. simpl. intros o ->.
  rewrite length_splice; simpl; lia.
Qed.

Lemma relay_aged_post wire id rd qname ad edns remaining : bytes_ok wire →
  post (relay_aged wire id rd qname ad edns remaining) (λ o, (12 ≤ length o)%nat).
Proof.
  intros Hok. unfold relay_aged.
  apply post_bind. eapply post_mono; [by apply relay_with_edns_post|]. intros o Ho.
  destruct (cached_opt wire) as [[b opt]|]; [|done]. apply post_bind.
  eapply post_mono; [apply for_each_ttl_post, visit_keeps; intros; apply length_age_field|].
  intros [o' u] Hl. simpl in *. lia.
Qed.

Lemma cached_opt_body wire body opt :
  cached_opt wire = Some (body, opt) → (12 ≤ length body)%nat.
Proof.
  unfold cached_opt. intros H. repeat (case_match; try discriminate).
  injection H as <- _. boolify. by apply Nat.leb_le.
Qed.

Lemma reuse_opt_post wire body do : (12 ≤ length body)%nat →
  post (reuse_opt wire body do) (λ o, (12 ≤ length o)%nat).
Proof.
  intros Hb. unfold reuse_opt. apply post_bind, post_get_range. intros Hr.
  set (o := take _ _). assert (Ho : length o = (length body + length OPT_RECORD)%nat).
  { unfold o. rewrite length_take, length_drop. lia. }
  clearbody o. simpl in Ho. case_match; [exact I|].
  apply post_bind, post_copy_at; [simpl; lia|].
  apply post_copy_at; rewrite ?length_splice; rewrite ?length_splice; simpl; lia.
Qed.

Lemma relay_cached_post wire id rd qname edns remaining : bytes_ok wire →
  post (relay_cached wire id rd qname edns remaining) (λ o, (12 ≤ length o)%nat).
Proof.
  intros Hok. unfold relay_cached. apply post_bind, post_try_some.
  intros [body opt] Hc%cached_opt_body. case_match; [by apply relay_aged_post|].
  apply post_bind. eapply (post_mono _ (λ o, (12 ≤ length o)%nat)).
  - assert (Hw : ∀ e rc, (12 ≤ length (edns_write e body rc))%nat).
    { intros e rc. pose proof (edns_write_length e body rc). lia. }
    destruct edns as [[do [c|] [x|]]|]; try apply Hw; [by apply reuse_opt_post|].
    case_match; [exact I|]. apply post_bind, post_be16_at; [lia|]. intros ar _.
    case_match; [exact I|].
    apply post_copy_at; [simpl; lia|]. rewrite length_splice; simpl; lia.
  - intros o Ho. apply post_bind. eapply post_mono; [apply age_ttls_post|].
    intros o' Ho'. eapply post_mono; [apply echo_opt_post|]. intros o'' Ho''.
    simpl in *. rewrite Ho'', set_relay_header_length. lia.
Qed.

(** ** The cache form round trip: lemmas *)

Lemma splice_app_l {A} at_ (bs l k : list A) :
  (at_ + length bs ≤ length l)%nat → splice at_ bs (l ++ k) = splice at_ bs l ++ k.
Proof.
  intros H. unfold splice.
  rewrite take_app_le by lia. rewrite drop_app_le by lia. by rewrite <-!app_assoc.
Qed.

(** The OPT that ends a cache form. *)
Definition cache_trailer (rc : Z) (auth : bool) (entry_ttl : Z) (offsets : list nat) : bytes :=
  let option_len := Z.of_nat (4 + 2 * length offsets + 2) in
  opt_head rc auth (option_len + 4) ++ u16_be CACHE_OPTION_CODE ++ u16_be option_len
  ++ u32_be entry_ttl ++ index_bytes offsets ++ u16_be (Z.of_nat (length offsets)).

Lemma cache_form_Ret upstream entry_ttl lo hi wire :
  cache_form upstream entry_ttl lo hi = Ret wire → bytes_ok upstream →
  ∃ s offsets o ar,
    resection upstream false = Ret s ∧ cacheable_ttl_offsets (s_out s) = Ret offsets ∧
    clamp_ttls (s_out s) offsets lo hi = Ret o ∧ (12 ≤ length o)%nat ∧
    length o = length (s_out s) ∧ be16_at o 10 = Ret ar ∧
    Forall (λ at_, Z.of_nat at_ ≤ u16_max) offsets ∧
    Z.of_nat (4 + 2 * length offsets + 2) + 4 ≤ u16_max ∧
    wire = splice 10 (u16_be (ar + 1)) o
      ++ cache_trailer (s_extended_rcode s) (s_authenticating s) entry_ttl offsets.
Proof.
  intros H Hok. unfold cache_form in H.
  apply bind_Ret_inv in H as (s & Hs & H).
  pose proof (post_returns _ _ _ (resection_post upstream false Hok) Hs) as [Hl12 Hsok].
  apply bind_Ret_inv in H as (offs & Hoffs & H).
  apply bind_Ret_inv in H as (o & Hc & H).
  pose proof (post_returns _ _ _ (clamp_ttls_post offs lo hi (s_out s)) Hc) as [Hlo _].
  apply bind_Ret_inv in H as (count & Hcount & H).
  apply bind_Ret_inv in H as (olen & Holen & H).
  apply bind_Ret_inv in H as (rdlen & Hrd & H). cbv zeta in H.
  apply bind_Ret_inv in H as (o' & Ho' & H).
  pose proof (post_returns _ _ _ (append_offsets_post offs _) Ho') as [-> Hfa].
  apply bind_Ret_inv in H as (ar & Har & H).
  apply bind_Ret_inv in H as (arc & Harc & H).
  unfold try_u16 in Hcount, Holen. unfold checked_add16 in Hrd, Harc.
  destruct (_ <=? _) eqn:E1 in Hcount; [|done].
  destruct (_ <=? _) eqn:E2 in Holen; [|done].
  destruct (_ <=? _) eqn:E3 in Hrd; [|done].
  destruct (_ <=? _) eqn:E4 in Harc; [|done].
  injection Hcount as <-. injection Holen as <-. injection Hrd as <-. injection Harc as <-.
  boolify. unfold set_arcount in H. apply copy_at_Ret in H as [Hle ->].
  assert (Har' : be16_at o 10 = Ret ar).
  { unfold be16_at, index in Har |- *. rewrite <-!app_assoc in Har.
    rewrite !lookup_app_l in Har by lia. done. }
  exists s, offs, o, ar. split_and!; try done; try lia.
  rewrite <-!app_assoc, splice_app_l by (simpl; lia). f_equal.
Qed.

Lemma length_cache_trailer rc auth e offsets :
  length (cache_trailer rc auth e offsets)
  = (CACHE_OPT_HEAD + 2 * length offsets + 2)%nat.
Proof.
  unfold cache_trailer. cbv zeta. rewrite !length_app, length_index_bytes. simpl. lia.
Qed.

Lemma cached_opt_trailer B rc auth e offsets :
  (12 ≤ length B)%nat → is_u32 e →
  Z.of_nat (4 + 2 * length offsets + 2) + 4 ≤ u16_max →
  cached_opt (B ++ cache_trailer rc auth e offsets)
  = Some (B, mkCachedOpt rc auth e (index_bytes offsets)).
Proof.
  intros HB He Hlen. unfold cached_opt. cbv zeta.
  set (n := length offsets) in *.
  assert (Hu : is_u16 (Z.of_nat n)) by (unfold_ints; lia).
  assert (Hcut : cache_trailer rc auth e offsets =
    (take 19 (cache_trailer rc auth e offsets) ++ index_bytes offsets)
      ++ u16_be (Z.of_nat n)) by reflexivity.
  set (T := take 19 (cache_trailer rc auth e offsets)) in *.
  assert (HT : length T = 19%nat).
  { subst T. rewrite length_take, length_cache_trailer. unfold CACHE_OPT_HEAD. simpl. lia. }
  rewrite length_app, length_cache_trailer. fold n.
  replace (length B + (CACHE_OPT_HEAD + 2 * n + 2) - 2)%nat
    with (length (B ++ T ++ index_bytes offsets))
    by (rewrite !length_app, length_index_bytes, HT; unfold CACHE_OPT_HEAD; simpl; lia).
  rewrite Hcut, !app_assoc, <-(app_assoc B T).
  unfold slice. rewrite decide_True
    by (rewrite !length_app, length_index_bytes, HT; unfold CACHE_OPT_HEAD; simpl; lia).
  rewrite drop_app_length, take_app_length.
  rewrite take_ge by (rewrite !length_app, length_index_bytes, HT;
    unfold CACHE_OPT_HEAD; simpl; lia).
  unfold u16_be at 1. rewrite be16_u16_be by done. rewrite Nat2Z.id.
  rewrite (proj2 (Nat.ltb_ge _ _))
    by (rewrite !length_app, length_index_bytes, HT; unfold CACHE_OPT_HEAD; simpl; lia).
  replace (length (B ++ T ++ index_bytes offsets) - (CACHE_OPT_HEAD + 2 * n))%nat
    with (length B)
    by (rewrite !length_app, length_index_bytes, HT; unfold CACHE_OPT_HEAD; simpl; lia).
  rewrite drop_app_length, take_app_length.
  change CACHE_OPT_HEAD with 19%nat. rewrite <-HT, drop_app_length, take_app_length.
  rewrite (proj2 (Nat.leb_le 12 (length B)) HB).
  subst T. unfold cache_trailer. cbv zeta. fold n.
  set (ol := Z.of_nat (4 + 2 * n + 2)) in *.
  assert (Hol : is_u16 ol) by (unfold_ints; lia).
  assert (Hol4 : is_u16 (ol + 4)) by (unfold_ints; lia).
  unfold opt_head, u16_be, u32_be. cbn -[Z.div Z.modulo Z.mul Z.add be16 be32 Z.eqb].
  change (41 / 256 mod 256) with 0. change (41 mod 256) with 41. cbv iota.
  rewrite !be16_u16_be by (done || (unfold CACHE_OPTION_CODE; unfold_ints; lia)).
  rewrite be32_u32_be by done.
  rewrite !Z.eqb_refl, (Z.add_comm 4 ol), Z.eqb_refl. cbn [andb].
  by destruct auth.
Qed.

(** An answer with an MX record, its signature and an OPT, for the witnesses. *)
Definition demo_name : bytes := [7; 101; 120; 97; 109; 112; 108; 101; 3; 99; 111; 109; 0].
Definition demo_upstream : bytes :=
  [18; 52; 129; 128; 0; 1; 0; 2; 0; 0; 0; 1] ++ demo_name ++ [0; 15; 0; 1]
  ++ [0xC0; 12; 0; 15; 0; 1; 0; 0; 1; 44; 0; 9; 0; 10; 4; 109; 97; 105; 108; 0xC0; 12]
  ++ [0xC0; 12; 0; 46; 0; 1; 0; 0; 1; 44; 0; 20] ++ replicate 18 7 ++ [0xC0; 20]
  ++ [0; 0; 41; 16; 0; 0; 0; 128; 0; 0; 0].
Definition demo_wire : bytes := default [] (returned (cache_form demo_upstream 300 60 3600)).
Definition demo_offsets : list nat := [35; 56]%nat.

Lemma demo_upstream_ok : bytes_ok demo_upstream.
Proof. unfold bytes_ok. repeat constructor; vm_compute; intros [=]. Qed.

(** C37: Whatever message it is given, the relay path neither panics nor loops:
    building the cache form, relaying an upstream answer, and relaying a cached
    one (by the index or by a walk) all return or decline, and what they return
    is a message with a header. *)
Theorem relay_never_panics (msg : bytes) (id lo hi entry_ttl remaining : Z)
    (rd ad : bool) (qname : option bytes) (edns : option EdnsReply) :
  bytes_ok msg →
  let is_message (o : outcome bytes) := post o (λ o, (12 ≤ length o)%nat) in
  is_message (cache_form msg entry_ttl lo hi) ∧
  is_message (relay_with_edns msg id rd qname ad edns) ∧
  is_message (relay_aged msg id rd qname ad edns remaining) ∧
  is_message (relay_cached msg id rd qname edns remaining).
Proof.
  intros Hok. cbv zeta. split_and!; auto using cache_form_post, relay_with_edns_post,
    relay_aged_post, relay_cached_post.
Qed.

Lemma relay_never_panics_witness :
  let is_message (o : outcome bytes) := post o (λ o, (12 ≤ length o)%nat) in
  is_message (cache_form demo_upstream 300 60 3600) ∧
  is_message (relay_with_edns demo_upstream 7 true None true None) ∧
  is_message (relay_aged demo_upstream 7 true None true None 100) ∧
  is_message (relay_cached demo_upstream 7 true None None 100).
Proof. apply (relay_never_panics demo_upstream 7 60 3600 300 100 true true). apply demo_upstream_ok. Defined.

Definition clamp_field (lo hi : Z) (ttl : bytes) : bytes := u32_be (clamp (be32_of ttl) lo hi).

Lemma clamp_ttls_fields offsets lo hi : ∀ out,
  clamp_ttls out offsets lo hi = map_fields (clamp_field lo hi) out offsets.
Proof.
  induction offsets as [|a l IH]; intros out; simpl; [done|].
  destruct (get_range _ _ _); simpl; try done. destruct (copy_at _ _ _); simpl; auto.
Qed.

Lemma age_ttls_fields offsets e r : Forall (λ at_, Z.of_nat at_ ≤ u16_max) offsets →
  ∀ msg, age_ttls msg (index_bytes offsets) e r = map_fields (age_field e r) msg offsets.
Proof.
  induction 1 as [|a l Ha Hl IH]; intros msg; [done|].
  change (index_bytes (a :: l)) with (u16_be (Z.of_nat a) ++ index_bytes l).
  simpl. rewrite be16_u16_be by (unfold_ints; lia). rewrite Nat2Z.id.
  destruct (get_range _ _ _); simpl; try done. destruct (copy_at _ _ _); simpl; auto.
Qed.

(** [cached_opt] reads back what [cache_form] wrote: the body is the
    re-sectioned answer with each TTL clamped, one more additional record and
    nothing else changed, and the OPT gives back the extended RCODE, whether
    DNSSEC records are held, the entry's TTL and the index of its TTL fields. *)
Theorem cached_opt_of_cache_form (upstream wire : bytes) (entry_ttl lo hi : Z) :
  bytes_ok upstream → is_u32 entry_ttl →
  cache_form upstream entry_ttl lo hi = Ret wire →
  ∃ s offsets o ar body,
    resection upstream false = Ret s ∧ cacheable_ttl_offsets (s_out s) = Ret offsets ∧
    (∀ at_, at_ ∈ offsets → field_at o at_ = clamp_field lo hi (field_at (s_out s) at_)) ∧
    (∀ i, (∀ at_, at_ ∈ offsets → ¬ (at_ ≤ i < at_ + 4)%nat) → o !! i = s_out s !! i) ∧
    be16_at o 10 = Ret ar ∧ set_arcount o (ar + 1) = Ret body ∧
    cached_opt wire = Some (body, mkCachedOpt (s_extended_rcode s) (s_authenticating s)
                                    entry_ttl (index_bytes offsets)).
Proof.
  intros Hok He H.
  apply cache_form_Ret in H as
    (s & offs & o & ar & Hs & Hoffs & Hc & Hl & Hlo & Har & Hfa & Hb & ->); [|done].
  exists s, offs, o, ar, (splice 10 (u16_be (ar + 1)) o).
  pose proof Hoffs as ([m offs'] & Hf & H)%bind_Ret_inv.
  apply bind_Ret_inv in H as ([] & _ & [=]). subst offs'.
  apply for_each_ttl_spaced in Hf. rewrite clamp_ttls_fields in Hc.
  apply (map_fields_spec (clamp_field lo hi) _ (λ _ _, eq_refl) _ _ _ Hf) in Hc as (_ & Hin & Hout).
  split_and!; try done.
  - apply copy_at_Ret. simpl. split; [lia|done].
  - apply cached_opt_trailer; [rewrite length_splice; simpl; lia|done|done].
Qed.

Lemma cached_opt_of_cache_form_witness :
  cache_form demo_upstream 300 60 3600 = Ret demo_wire ∧
  ∃ s offsets o ar body,
    resection demo_upstream false = Ret s ∧ cacheable_ttl_offsets (s_out s) = Ret offsets ∧
    (∀ at_, at_ ∈ offsets → field_at o at_ = clamp_field 60 3600 (field_at (s_out s) at_)) ∧
    (∀ i, (∀ at_, at_ ∈ offsets → ¬ (at_ ≤ i < at_ + 4)%nat) → o !! i = s_out s !! i) ∧
    be16_at o 10 = Ret ar ∧ set_arcount o (ar + 1) = Ret body ∧
    cached_opt demo_wire = Some (body, mkCachedOpt (s_extended_rcode s) (s_authenticating s)
                                         300 (index_bytes offsets)).
Proof.
  assert (E : cache_form demo_upstream 300 60 3600 = Ret demo_wire) by (vm_compute; reflexivity).
  split; [exact E|].
  apply (cached_opt_of_cache_form demo_upstream demo_wire 300 60 3600);
    [apply demo_upstream_ok|unfold_ints; lia|exact E].
Defined.

(** Ageing a cached answer by its index of offsets is ageing it by walking
    its records: both return the same message, whose TTL fields are the aged
    ones and whose other bytes are as they were. *)
Theorem age_by_index_is_age_by_walk (msg : bytes) (offsets : list nat) (entry_ttl remaining : Z) :
  cacheable_ttl_offsets msg = Ret offsets →
  Forall (λ at_, Z.of_nat at_ ≤ u16_max) offsets →
  ∃ m', age_ttls msg (index_bytes offsets) entry_ttl remaining = Ret m' ∧
    for_each_ttl (visit (age_field entry_ttl remaining)) msg tt = Ret (m', tt) ∧
    (∀ at_, at_ ∈ offsets →
      field_at m' at_ = age_field entry_ttl remaining (field_at msg at_)) ∧
    (∀ i, (∀ at_, at_ ∈ offsets → ¬ (at_ ≤ i < at_ + 4)%nat) → m' !! i = msg !! i).
Proof.
  intros ([m offs'] & Hf & H)%bind_Ret_inv Hfa.
  apply bind_Ret_inv in H as ([] & _ & [=]). subst offs'.
  apply (for_each_ttl_visit (age_field entry_ttl remaining)) in Hf as Hv; [|done].
  destruct Hv as (-> & m' & Hv & Hm). exists m'.
  rewrite age_ttls_fields by done. split_and!; try done;
    apply for_each_ttl_spaced in Hf;
    by apply (map_fields_spec (age_field entry_ttl remaining) _ (λ _ _, eq_refl) _ _ _ Hf) in Hm as (_ & ? & ?).
Qed.

Lemma age_by_index_is_age_by_walk_witness :
  ∃ m', age_ttls demo_upstream (index_bytes demo_offsets) 300 100 = Ret m' ∧
    for_each_ttl (visit (age_field 300 100)) demo_upstream tt = Ret (m', tt) ∧
    (∀ at_, at_ ∈ demo_offsets → field_at m' at_ = age_field 300 100 (field_at demo_upstream at_)) ∧
    (∀ i, (∀ at_, at_ ∈ demo_offsets → ¬ (at_ ≤ i < at_ + 4)%nat) →
      m' !! i = demo_upstream !! i).
Proof.
  apply age_by_index_is_age_by_walk; [vm_compute; reflexivity|].
  repeat constructor; vm_compute; intros [=].
Defined.

(** ** What re-sectioning leaves alone: lemmas

    [ks] counts the records read of each section; a record that is dropped is
    counted there and not in [rs_kept]. *)

Definition kept_ok (st : resection_state) (ks : list Z) : Prop :=
  Forall2 (λ k d, 0 ≤ k ≤ d) (rs_kept st) ks ∧
  match cut (rs_copy st) with
  | None => out (rs_copy st) = [] ∧ rs_kept st = ks
  | Some _ => rs_kept st ≠ ks
  end.

Lemma insert_ne_strict (l ks : list Z) i d :
  Forall2 (λ k d, 0 ≤ k ≤ d) l ks → ks !! i = Some d → l ≠ <[i := d + 1]> ks.
Proof.
  intros Hf Hd ->. pose proof (lookup_lt_Some _ _ _ Hd) as Hlt.
  assert (H : (<[i:=d + 1]> ks) !! i = Some (d + 1)) by (by apply list_lookup_insert_eq).
  destruct (Forall2_lookup_lr _ _ _ _ _ _ Hf H Hd). lia.
Qed.

Lemma Forall2_le_insert l ks i d :
  Forall2 (λ k d, 0 ≤ k ≤ d) l ks → ks !! i = Some d →
  Forall2 (λ k d, 0 ≤ k ≤ d) l (<[i := d + 1]> ks).
Proof.
  intros Hf Hd. destruct (Forall2_lookup_r _ _ _ _ _ Hf Hd) as (k & Hk & Hkd).
  rewrite <-(list_insert_id l i k Hk). apply Forall2_insert; [done|lia].
Qed.

Lemma insert_both_inj (l ks : list Z) i k d :
  l !! i = Some k → ks !! i = Some d →
  <[i := k + 1]> l = <[i := d + 1]> ks → l = ks.
Proof.
  intros Hk Hd H.
  assert (E : <[i := k]> (<[i := k + 1]> l) = <[i := k]> (<[i := d + 1]> ks)) by (by rewrite H).
  assert (Ekd : (<[i := k + 1]> l) !! i = (<[i := d + 1]> ks) !! i) by (by rewrite H).
  rewrite !list_lookup_insert_eq in Ekd by (by eapply lookup_lt_Some).
  assert (k = d) as -> by (injection Ekd; lia).
  rewrite !list_insert_insert_eq, !list_insert_id in E by done. done.
Qed.

(** A step either drops a record or keeps it. *)
Lemma resection_record_cases upstream strip qtype section st st' :
  resection_record upstream strip qtype section st = Ret st' →
  (∃ pos', drop_from (rs_copy st) pos' = Ret (rs_copy st') ∧ rs_kept st' = rs_kept st) ∨
  (∃ pos' end_ rtype n, keep (rs_copy st) pos' end_ rtype = Ret (rs_copy st') ∧
     rs_kept st !! section = Some n ∧ rs_kept st' = <[section := wrap16 (n + 1)]> (rs_kept st)).
Proof.
  unfold resection_record. intros H.
  apply bind_Ret_inv in H as ([rtype end_] & _ & H).
  apply bind_Ret_inv in H as ([[dropped rc] auth] & _ & H). destruct dropped.
  - left. apply bind_Ret_inv in H as (w & Hw & [= <-]). by exists (rs_pos st).
  - right. apply bind_Ret_inv in H as (w & Hw & H).
    apply bind_Ret_inv in H as (n & Hn & [= <-]). apply index_Ret in Hn.
    by exists (rs_pos st), end_, rtype, n.
Qed.

Lemma resection_record_kept upstream strip qtype section st st' ks d :
  bytes_ok upstream → src (rs_copy st) = upstream →
  kept_ok st ks → ks !! section = Some d → d < u16_max →
  resection_record upstream strip qtype section st = Ret st' →
  kept_ok st' (<[section := d + 1]> ks).
Proof.
  intros Hok Hsrc [Hf Hcut] Hd Hmax [(p & Hw & Hk)|(p & e & rt & n & Hw & Hn & Hk)]%resection_record_cases.
  - split; rewrite Hk; [by apply Forall2_le_insert|].
    unfold drop_from in Hw. destruct (cut (rs_copy st)) eqn:Ec.
    + injection Hw as <-. rewrite Ec. by apply insert_ne_strict.
    + apply bind_Ret_inv in Hw as (h & _ & [= <-]). simpl. by apply insert_ne_strict.
  - destruct (Forall2_lookup_lr _ _ _ _ _ _ Hf Hn Hd) as [Hn0 Hnd].
    assert (wrap16 (n + 1) = n + 1) as E
      by (unfold wrap16; unfold_ints; apply Z.mod_small; lia).
    rewrite E in Hk. unfold kept_ok. rewrite Hk.
    split; [apply Forall2_insert; [done|lia]|].
    pose proof (post_returns _ _ _ (keep_post _ p e rt (eq_ind_r _ Hok Hsrc)) Hw)
      as (_ & Ec & _). rewrite Ec. destruct (cut (rs_copy st)) eqn:Ecut.
    + intros Heq. by apply Hcut, (insert_both_inj _ _ section n d).
    + destruct Hcut as [Ho Heq]. rewrite Heq in Hn |- *.
      assert (n = d) as -> by congruence. unfold keep in Hw. rewrite Ecut in Hw.
      by injection Hw as <-.
Qed.

Lemma resection_section_kept n upstream strip qtype section : ∀ st st' ks d,
  bytes_ok upstream → (section < 3)%nat → rs_ok upstream st →
  kept_ok st ks → ks !! section = Some d → d + Z.of_nat n ≤ u16_max →
  resection_section n upstream strip qtype section st = Ret st' →
  rs_ok upstream st' ∧ kept_ok st' (<[section := d + Z.of_nat n]> ks).
Proof.
  induction n as [|n IH]; intros st st' ks d Hok Hsec Hst Hk Hd Hmax H; simpl in H.
  { injection H as <-. rewrite Z.add_0_r, list_insert_id by done. done. }
  apply bind_Ret_inv in H as (st1 & H1 & H).
  pose proof (post_returns _ _ _ (resection_record_post _ strip qtype _ _ Hok Hsec Hst) H1) as Hst1.
  eapply resection_record_kept in H1; try done; [|by destruct Hst|lia].
  eapply IH in H as [Hst' Hk']; try done;
    [|by rewrite list_lookup_insert_eq by (by eapply lookup_lt_Some)|lia].
  split; [done|]. rewrite list_insert_insert_eq in Hk'.
  by replace (d + Z.of_nat (S n)) with (d + 1 + Z.of_nat n) by lia.
Qed.

Lemma read_questions_pos n upstream pos qtype r : (12 ≤ pos ≤ length upstream)%nat →
  read_questions n upstream pos qtype = Ret r → (12 ≤ r.1 ≤ length upstream)%nat.
Proof. intros Hp H. exact (post_returns _ _ _ (read_questions_post n upstream pos qtype Hp) H). Qed.

Lemma u16_be_inj x y : is_u16 x → is_u16 y → u16_be x = u16_be y → x = y.
Proof.
  intros Hx Hy [= H1 H2]. rewrite <-(be16_u16_be x Hx), <-(be16_u16_be y Hy). congruence.
Qed.

Lemma take_drop_splice {A} at_ (bs l : list A) : (at_ + length bs ≤ length l)%nat →
  take (length bs) (drop at_ (splice at_ bs l)) = bs.
Proof.
  intros H. unfold splice. rewrite drop_app_ge by (rewrite length_take; lia).
  rewrite length_take, Nat.min_l, Nat.sub_diag by lia. by rewrite drop_0, take_app_length.
Qed.

Definition counts (a b c : Z) : bytes := u16_be a ++ u16_be b ++ u16_be c.

Lemma counts_inj a b c a' b' c' :
  Forall2 (λ k d, 0 ≤ k ≤ d) [a; b; c] [a'; b'; c'] →
  is_u16 a' → is_u16 b' → is_u16 c' → counts a b c = counts a' b' c' →
  [a; b; c] = [a'; b'; c'].
Proof.
  intros Hf Ha Hb Hc E.
  apply Forall2_cons in Hf as [Hka Hf]. apply Forall2_cons in Hf as [Hkb Hf].
  apply Forall2_cons in Hf as [Hkc _]. unfold_ints. unfold counts, u16_be in E. simpl in E.
  injection E as E1 E2 E3 E4 E5 E6.
  f_equal; [|f_equal; [|f_equal]]; zdiv.
Qed.

Lemma write_counts_Ret o a b c o' : write_counts o [a; b; c] = Ret o' →
  (12 ≤ length o)%nat ∧ o' = splice 6 (counts a b c) o.
Proof.
  unfold write_counts. intros (o1 & [H1 ->]%copy_at_Ret & H)%bind_Ret_inv.
  apply bind_Ret_inv in H as (o2 & [H2 ->]%copy_at_Ret & [H3 ->]%copy_at_Ret).
  rewrite length_splice in H2 by done. rewrite length_splice in H3 by (rewrite length_splice; done).
  rewrite length_splice in H3 by done. simpl in H1, H2, H3. split; [lia|]. unfold counts.
  change (splice 10 (u16_be c) (splice (6 + length (u16_be a)) (u16_be b) (splice 6 (u16_be a) o))
    = splice 6 (u16_be a ++ u16_be b ++ u16_be c) o).
  rewrite splice_app by (simpl; lia).
  change 10%nat with (6 + length (u16_be a ++ u16_be b))%nat.
  by rewrite splice_app, <-app_assoc by (simpl; lia).
Qed.

(** What the loop over the three sections leaves. *)
Lemma resection_kept upstream strip s : bytes_ok upstream → resection upstream strip = Ret s →
  ∃ st an ns ar o a b c,
    is_u16 an ∧ is_u16 ns ∧ is_u16 ar ∧
    take 6 (drop 6 upstream) = counts an ns ar ∧
    rs_ok upstream st ∧ rs_kept st = [a; b; c] ∧ kept_ok st [an; ns; ar] ∧
    finish (rs_copy st) (rs_pos st) = Ret o ∧ (12 ≤ length o)%nat ∧
    s_out s = splice 6 (counts a b c) o.
Proof.
  intros Hok H. unfold resection in H.
  apply bind_Ret_inv in H as (header & Hh & H). apply get_range_Ret in Hh as [Hlen Hh].
  assert (Hho : bytes_ok header) by (rewrite Hh; by apply bytes_ok_range).
  apply bind_Ret_inv in H as (qd & Hqd & H). apply bind_Ret_inv in H as (an & Han & H).
  apply bind_Ret_inv in H as (ns & Hns & H). apply bind_Ret_inv in H as (ar & Har & H).
  apply (be16_at_range _ _ _ Hho) in Han as (Han & _ & Ean), Hns as (Hns & _ & Ens),
    Har as (Har & _ & Ear).
  apply bind_Ret_inv in H as ([pos qtype] & Hq & H).
  apply read_questions_pos in Hq; [|lia]. simpl in Hq. cbv zeta in H.
  apply bind_Ret_inv in H as (st1 & H1 & H). apply bind_Ret_inv in H as (st2 & H2 & H).
  apply bind_Ret_inv in H as (st3 & H3 & H).
  apply (resection_section_kept _ _ _ _ _ _ _ [0; 0; 0] 0 Hok) in H1 as [Hr1 Hk1];
    [|lia|unfold rs_ok; simpl; split_and!; try done; try lia; constructor
     |split; [repeat constructor; lia|done]|done|unfold_ints; lia].
  rewrite Z2Nat.id in Hk1 by (unfold_ints; lia).
  eapply (resection_section_kept _ _ _ _ _ _ _ _ 0 Hok) in H2;
    [|lia|done|exact Hk1|done|unfold_ints; lia]. destruct H2 as [Hr2 Hk2].
  rewrite Z2Nat.id in Hk2 by (unfold_ints; lia).
  eapply (resection_section_kept _ _ _ _ _ _ _ _ 0 Hok) in H3;
    [|lia|done|exact Hk2|done|unfold_ints; lia]. destruct H3 as [Hr3 Hk3].
  rewrite Z2Nat.id in Hk3 by (unfold_ints; lia). cbn in Hk3.
  apply bind_Ret_inv in H as (o & Ho & H). apply bind_Ret_inv in H as (o' & Ho' & [= <-]).
  pose proof Hr3 as (_ & _ & Hlk & _).
  destruct (rs_kept st3) as [|a [|b [|c [|? ?]]]] eqn:Ek; try done.
  apply write_counts_Ret in Ho' as [Ho12 ->].
  exists st3, an, ns, ar, o, a, b, c. split_and!; try done.
  rewrite Hh in Ean, Ens, Ear.
  unfold counts. rewrite Ean, Ens, Ear, !take_drop_range by lia. simpl.
  change (6 + 2)%nat with 8%nat.
  replace (drop 8 upstream) with (drop 2 (drop 6 upstream)) by (by rewrite drop_drop).
  replace (drop 10 upstream) with (drop 2 (drop 2 (drop 6 upstream))) by (by rewrite !drop_drop).
  by rewrite !take_take_drop.
Qed.

(** Re-sectioning only takes records out: when it drops none, so the counts
    of the three sections stand as upstream wrote them, what it gives back is
    the message as upstream wrote it, byte for byte, up to the end of the last
    record. *)
Theorem resection_untouched (upstream : bytes) (strip : bool) (s : Sections) :
  bytes_ok upstream → resection upstream strip = Ret s →
  take 6 (drop 6 (s_out s)) = take 6 (drop 6 upstream) →
  ∃ n, s_out s = take n upstream ∧ (12 ≤ n ≤ length upstream)%nat.
Proof.
  intros Hok (st & an & ns & ar & o & a & b & c & Han & Hns & Har & Ec & Hst & Ek & Hk & Ho
    & Hlo & ->)%resection_kept Hcounts; [|done].
  rewrite Ec in Hcounts.
  assert (Etd : take 6 (drop 6 (splice 6 (counts a b c) o)) = counts a b c)
    by (apply (take_drop_splice 6 (counts a b c)); simpl; lia).
  rewrite Etd in Hcounts.
  destruct Hk as [Hf Hcut]. rewrite Ek in Hf, Hcut.
  apply counts_inj in Hcounts as Heq; [|done..].
  destruct Hst as (Hsrc & Hpos & _). unfold finish in Ho.
  destruct (cut (rs_copy st)); [done|]. destruct Hcut as [Hout _].
  apply bind_Ret_inv in Ho as (h & [_ Hh]%index_range_Ret & [= <-]).
  rewrite Hsrc, Hout, Nat.sub_0_r, drop_0 in *. simpl. subst h.
  exists (rs_pos st). split; [|done].
  rewrite Hcounts, <-Ec. rewrite <-(splice_same (take (rs_pos st) upstream) 6 6) at 2
    by (rewrite length_take; lia).
  f_equal. symmetry. rewrite <-(drop_0 (take (rs_pos st) upstream)), <-(drop_0 upstream) at 1.
  apply (take_drop_range upstream 0 6 6). lia.
Qed.

Lemma resection_untouched_witness :
  let plain := <[11%nat := 0]> (take 82 demo_upstream) in
  ∃ s, resection plain false = Ret s ∧
    ∃ n, s_out s = take n plain ∧ (12 ≤ n ≤ length plain)%nat.
Proof.
  intros plain. eexists. split; [vm_compute; reflexivity|].
  apply (resection_untouched plain false); [|vm_compute; reflexivity..].
  apply Forall_insert; [by apply Forall_take, demo_upstream_ok|vm_compute; split; intros [=]].
Defined.

(** ** The relayed header and question: lemmas *)

Lemma fmap_splice {A B} (f : A → B) at_ (bs l : list A) :
  f <$> splice at_ bs l = splice at_ (f <$> bs) (f <$> l).
Proof. unfold splice. by rewrite !fmap_app, fmap_take, fmap_drop, length_fmap. Qed.

Lemma echo_question_case_lower msg q o : echo_question_case msg q = Ret o →
  lower_byte <$> o = lower_byte <$> msg ∧ take 12 o = take 12 msg.
Proof.
  unfold echo_question_case. intros H.
  destruct (slice msg 4 6) as [qd|]; [|by injection H as <-].
  case_bool_decide; [by injection H as <-|].
  destruct (slice msg 12 _) as [n|] eqn:E; [|by injection H as <-].
  destruct (_ && _) eqn:Ec; [|by injection H as <-].
  apply slice_Some in E as [Hr En]. apply copy_at_Ret in H as [_ ->].
  apply andb_prop in Ec as [_ Ec]. unfold eq_ignore_case in Ec. apply bool_decide_eq_true in Ec.
  split.
  - rewrite fmap_splice, <-Ec, En, fmap_take, fmap_drop.
    replace (12 + length q - 12)%nat with (length q) by lia.
    apply splice_same. rewrite length_fmap. lia.
  - unfold splice. rewrite take_app_le by (rewrite length_take; lia).
    by rewrite take_take.
Qed.

Lemma echo_opt_lower msg q o : echo_opt msg q = Ret o →
  lower_byte <$> o = lower_byte <$> msg ∧ take 12 o = take 12 msg.
Proof. destruct q; simpl; [apply echo_question_case_lower|by intros [= ->]]. Qed.

(** Bits of the two flag bytes. *)
Lemma set_low_bit x b : Z.testbit (Z.lor (Z.ldiff x 1) (Z.b2z b)) 0 = b ∧
  (∀ k, 0 < k → Z.testbit (Z.lor (Z.ldiff x 1) (Z.b2z b)) k = Z.testbit x k).
Proof.
  split.
  - rewrite Z.lor_spec, Z.ldiff_spec, andb_false_r. simpl. apply Z.b2z_bit0.
  - intros k Hk. rewrite Z.lor_spec, Z.ldiff_spec.
    rewrite (Z.bits_above_log2 1) by (simpl; lia).
    destruct b; [rewrite (Z.bits_above_log2 1) by (simpl; lia)|rewrite Z.bits_0];
      by rewrite orb_false_r, andb_true_r.
Qed.

Lemma set_ad_bit x b : let y := Z.lor (Z.ldiff x 0x20) (Z.shiftl (Z.b2z b) 5) in
  Z.testbit y 5 = b ∧ (∀ k, 0 ≤ k → k ≠ 5 → Z.testbit y k = Z.testbit x k).
Proof.
  intros y. subst y. split.
  - rewrite Z.lor_spec, Z.ldiff_spec, Z.shiftl_spec by lia. simpl.
    rewrite andb_false_r. simpl. apply Z.b2z_bit0.
  - intros k Hk Hne. rewrite Z.lor_spec, Z.ldiff_spec, Z.shiftl_spec by lia.
    change 0x20 with (2 ^ 5). rewrite Z.pow2_bits_false, andb_true_r by lia.
    assert (E : Z.testbit (Z.b2z b) (k - 5) = false).
    { destruct (decide (k < 5)); [by apply Z.testbit_neg_r; lia|].
      destruct b; [apply Z.bits_above_log2; simpl; lia|apply Z.bits_0]. }
    by rewrite E, orb_false_r.
Qed.

(** The header of [o] is that of [before] with the client's ID, RD bit and the
    AD bit. *)
Definition relays_header (before o : bytes) (id : Z) (rd ad : bool) : Prop :=
  ∃ a b hi lo rest hi' lo' rest',
    before = a :: b :: hi :: lo :: rest ∧ o = u16_be id ++ hi' :: lo' :: rest' ∧
    take 8 rest' = take 8 rest ∧
    Z.testbit hi' 0 = rd ∧ (∀ k, 0 < k → Z.testbit hi' k = Z.testbit hi k) ∧
    Z.testbit lo' 5 = ad ∧ (∀ k, 0 ≤ k → k ≠ 5 → Z.testbit lo' k = Z.testbit lo k) ∧
    lower_byte <$> rest' = lower_byte <$> rest.

Lemma relays_header_intro before id rd ad q o : (12 ≤ length before)%nat →
  echo_opt (set_relay_header before id rd ad) q = Ret o → relays_header before o id rd ad.
Proof.
  intros Hl [Hlow Htake]%echo_opt_lower.
  destruct before as [|a [|b [|hi [|lo rest]]]]; simpl in Hl; try lia.
  simpl in Hlow, Htake.
  assert (Hlo : (12 ≤ length o)%nat).
  { apply (f_equal length) in Hlow. rewrite length_fmap in Hlow. rewrite Hlow.
    simpl. rewrite length_fmap. lia. }
  destruct o as [|x0 [|x1 [|x2 [|x3 rest']]]]; simpl in Hlo; try lia.
  injection Htake as -> -> -> -> Htake. injection Hlow as Hlow.
  exists a, b, hi, lo, rest. eexists _, _, rest'.
  split_and!; [done..| | | | |done].
  - apply set_low_bit.
  - apply set_low_bit.
  - apply (set_ad_bit lo ad).
  - apply (set_ad_bit lo ad).
Qed.

(** What the client gets is its own: a relayed answer carries the query's
    ID, its RD bit and the AD bit asked for, every other header bit is what
    stood in the re-sectioned answer, and echoing the client's spelling of the
    question changes nothing but the case of letters. *)
Theorem relay_header_is_the_clients (upstream : bytes) (id : Z) (rd ad : bool)
    (qname : option bytes) (edns : option EdnsReply) (o : bytes) :
  bytes_ok upstream → relay_with_edns upstream id rd qname ad edns = Ret o →
  ∃ s before, resection upstream (negb (wants_dnssec_ok edns)) = Ret s ∧
    append_opt (s_out s) (s_extended_rcode s) edns = Ret before ∧
    relays_header before o id rd ad.
Proof.
  intros Hok (s & Hs & (before & Hb & H)%bind_Ret_inv)%bind_Ret_inv.
  exists s, before. split; [done|]. split; [done|].
  apply (relays_header_intro _ _ _ _ qname); [|done].
  pose proof (post_returns _ _ _ (resection_post _ _ Hok) Hs) as [Hl _].
  exact (post_returns _ _ _ (append_opt_post _ _ edns Hl) Hb).
Qed.

Lemma relay_header_is_the_clients_witness :
  ∃ o, relay_with_edns demo_upstream 7 true (Some demo_name) false None = Ret o ∧
  ∃ s before, resection demo_upstream true = Ret s ∧
    append_opt (s_out s) (s_extended_rcode s) None = Ret before ∧
    relays_header before o 7 true false.
Proof.
  eexists. split; [vm_compute; reflexivity|].
  apply (relay_header_is_the_clients demo_upstream 7 true false (Some demo_name) None);
    [apply demo_upstream_ok|vm_compute; reflexivity].
Defined.
