(* ===== verification/Float64.v ===== *)
(** Binary64 floating point, for the thresholds and scores of the cache: the
    operations of [f64] the source uses, over the specification of IEEE 754
    arithmetic in the Standard Library ([SpecFloat], precision 53, maximal
    exponent 1024).  A NaN carries neither sign nor payload here; [total_cmp]
    places it above every number, as it does the NaNs arithmetic produces. *)

From S2P Require Import Prelude.
From Stdlib Require Export SpecFloat.

Abbreviation f64 := spec_float.

(** [n as f64] of an unsigned integer. *)
Definition of_u64 (n : Z) : f64 := binary_normalize 53 1024 n 0 false.

Definition fmul : f64 → f64 → f64 := SFmul 53 1024.
Definition fdiv : f64 → f64 → f64 := SFdiv 53 1024.
Definition fadd : f64 → f64 → f64 := SFadd 53 1024.
Definition fsub : f64 → f64 → f64 := SFsub 53 1024.
Definition fsqrt : f64 → f64 := SFsqrt 53 1024.
Definition f_zero : f64 := of_u64 0.
Definition f_one : f64 := of_u64 1.

(** [x as u64], and [as usize]: truncated towards zero, saturated, 0 for a NaN. *)
Definition to_u64 (x : f64) : Z :=
  match x with
  | S754_nan | S754_zero _ | S754_infinity true | S754_finite true _ _ => 0
  | S754_infinity false => u64_max
  | S754_finite false m e =>
      Z.min u64_max (if 0 <=? e then Z.shiftl (Z.pos m) (Z.min e 64) else Z.shiftr (Z.pos m) (- e))
  end.

(** [clamp]: a NaN stays one. *)
Definition fclamp (x lo hi : f64) : f64 :=
  if SFltb x lo then lo else if SFltb hi x then hi else x.

(** [f64::max] for a [y] that is a number. *)
Definition fmax (x y : f64) : f64 := if SFltb x y then y else match x with S754_nan => y | _ => x end.

(** The sign, exponent and mantissa [total_cmp] compares in this order. *)
Definition total_key (x : f64) : Z * Z * Z :=
  match x with
  | S754_infinity true => (-3, 0, 0)
  | S754_finite true m e => (-2, - e, - Z.pos m)
  | S754_zero true => (-1, 0, 0)
  | S754_zero false => (1, 0, 0)
  | S754_finite false m e => (2, e, Z.pos m)
  | S754_infinity false => (3, 0, 0)
  | S754_nan => (4, 0, 0)
  end.

(** [a.total_cmp(&b) == Less]. *)
Definition total_lt (a b : f64) : bool :=
  let '(s1, e1, m1) := total_key a in
  let '(s2, e2, m2) := total_key b in
  (s1 <? s2) || ((s1 =? s2) && ((e1 <? e2) || ((e1 =? e2) && (m1 <? m2)))).

(** ** Lemmas *)

Lemma to_u64_range x : is_u64 (to_u64 x).
Proof.
  unfold to_u64. unfold_ints. destruct x as [s|s| |s m e]; [simpl; lia|destruct s; simpl; lia|simpl; lia|].
  destruct s; simpl; [lia|].
  destruct (0 <=? e) eqn:E.
  - assert (0 ≤ Z.shiftl (Z.pos m) (e `min` 64)) by (apply Z.shiftl_nonneg; lia). lia.
  - assert (0 ≤ Z.shiftr (Z.pos m) (- e)) by (apply Z.shiftr_nonneg; lia). lia.
Qed.

Lemma total_lt_irrefl a : total_lt a a = false.
Proof. unfold total_lt. destruct (total_key a) as [[s e] m]. by rewrite !Z.ltb_irrefl, !andb_false_r. Qed.

Lemma total_lt_spec a b : total_lt a b = true ↔
  let '(s1, e1, m1) := total_key a in
  let '(s2, e2, m2) := total_key b in
  s1 < s2 ∨ (s1 = s2 ∧ (e1 < e2 ∨ (e1 = e2 ∧ m1 < m2))).
Proof.
  unfold total_lt. destruct (total_key a) as [[s e] m], (total_key b) as [[s2 e2] m2].
  rewrite !orb_true_iff, !andb_true_iff, !orb_true_iff, !andb_true_iff, !Z.ltb_lt, !Z.eqb_eq.
  reflexivity.
Qed.

(** The order of [total_cmp] is a total preorder: not being less is transitive. *)
Lemma total_ge_trans a b c :
  total_lt a b = false → total_lt b c = false → total_lt a c = false.
Proof.
  rewrite <-!not_true_iff_false, !total_lt_spec.
  destruct (total_key a) as [[s e] m], (total_key b) as [[s2 e2] m2],
    (total_key c) as [[s3 e3] m3]. lia.
Qed.

Lemma total_lt_asym a b : total_lt a b = true → total_lt b a = false.
Proof.
  rewrite <-not_true_iff_false, !total_lt_spec.
  destruct (total_key a) as [[s e] m], (total_key b) as [[s2 e2] m2]. lia.
Qed.

(** ** [<] *)

(** The sign, exponent and mantissa [<] compares in this order. *)
Definition num_key (x : f64) : Z * Z * Z :=
  match x with S754_zero _ => (0, 0, 0) | x => total_key x end.

Definition key_lt (a b : Z * Z * Z) : Prop :=
  a.1.1 < b.1.1 ∨ (a.1.1 = b.1.1 ∧ (a.1.2 < b.1.2 ∨ (a.1.2 = b.1.2 ∧ a.2 < b.2))).

Lemma SFltb_key a b : a ≠ S754_nan → b ≠ S754_nan →
  SFltb a b = true ↔ key_lt (num_key a) (num_key b).
Proof.
  intros Ha Hb. unfold SFltb, key_lt.
  destruct a as [s|s| |s m e], b as [s'|s'| |s' m' e']; try done;
    try destruct s; try destruct s'; try (simpl; split; intros; try done; lia).
  - cbn [SFcompare]. change (PosDef.Pos.compare_cont Eq m m') with (m ?= m')%positive.
    change (IntDef.Z.compare e e') with (e ?= e').
    destruct (Z.compare_spec e e') as [->|Hlt|Hlt]; try (simpl; split; intros; try done; lia).
    destruct (Pos.compare_spec m m') as [->|Hm|Hm]; simpl; split; intros; try done; lia.
  - cbn [SFcompare]. change (PosDef.Pos.compare_cont Eq m m') with (m ?= m')%positive.
    change (IntDef.Z.compare e e') with (e ?= e').
    destruct (Z.compare_spec e e') as [->|Hlt|Hlt]; try (simpl; split; intros; try done; lia).
    destruct (Pos.compare_spec m m') as [->|Hm|Hm]; simpl; split; intros; try done; lia.
Qed.

Lemma SFltb_num a b : SFltb a b = true → a ≠ S754_nan ∧ b ≠ S754_nan.
Proof. by destruct a, b. Qed.

(** [<] on scores orders as [total_cmp] does. *)
Lemma SFltb_total a b : SFltb a b = true → total_lt a b = true.
Proof.
  intros Hlt. destruct (SFltb_num a b Hlt) as [Ha Hb]. apply SFltb_key in Hlt; try done.
  apply total_lt_spec. unfold key_lt in Hlt.
  destruct a as [s|s| |s m e], b as [s'|s'| |s' m' e']; try done; simpl in *;
    try destruct s; try destruct s'; simpl in *; try lia.
Qed.

Lemma SFltb_trans a b c : SFltb a b = true → SFltb b c = true → SFltb a c = true.
Proof.
  intros H1 H2. destruct (SFltb_num a b H1), (SFltb_num b c H2).
  rewrite SFltb_key in H1, H2 |- * by done. unfold key_lt in *. lia.
Qed.

Lemma SFltb_ge_trans a b c : b ≠ S754_nan →
  SFltb a b = false → SFltb b c = false → SFltb a c = false.
Proof.
  intros Hb H1 H2. apply not_true_iff_false. intros H3. destruct (SFltb_num a c H3).
  rewrite <-not_true_iff_false, SFltb_key in H1, H2 by done. rewrite SFltb_key in H3 by done.
  unfold key_lt in *. lia.
Qed.
