(* ===== verification/Heuristics.v ===== *)
(** Lexical heuristics on names:
    [application/src/use_cases/dns/domain_heuristics.rs], in binary32.
    [f32::log2] is a parameter. *)

From Stdlib Require Import String.
From S2P Require Import Prelude Text Float64.

#[local] Set Default Proof Using "Type".

(** ** Binary32 *)

Abbreviation f32 := spec_float.

(** [n as f32] of an unsigned integer. *)
Definition f32_of (n : Z) : f32 := binary_normalize 24 128 n 0 false.
Definition f32_add : f32 → f32 → f32 := SFadd 24 128.
Definition f32_sub : f32 → f32 → f32 := SFsub 24 128.
Definition f32_mul : f32 → f32 → f32 := SFmul 24 128.
Definition f32_div : f32 → f32 → f32 := SFdiv 24 128.

(** A decimal literal [n / d]: the quotient of two exact numbers rounds once. *)
Definition f32_lit (n d : Z) : f32 := f32_div (f32_of n) (f32_of d).

(** ** Entropy *)

Section entropy.
Context (log2 : f32 → f32).

Definition count_byte (counts : list Z) (b : Z) : list Z :=
  <[Z.to_nat b := default 0 (counts !! Z.to_nat b) + 1]> counts.

(** One turn of the second loop: the count is taken, so it is used once. *)
Definition entropy_step (len : f32) (acc : f32 * list Z) (b : Z) : f32 * list Z :=
  let '(entropy, counts) := acc in
  let count := default 0 (counts !! Z.to_nat b) in
  let counts := <[Z.to_nat b := 0]> counts in
  if 0 <? count then
    let p := f32_div (f32_of count) len in
    (f32_sub entropy (f32_mul p (log2 p)), counts)
  else (entropy, counts).

Definition shannon_entropy (data : bytes) : f32 :=
  if bool_decide (data = []) then f32_of 0
  else
    let counts := foldl count_byte (replicate 256 0) data in
    (foldl (entropy_step (f32_of (Z.of_nat (length data)))) (f32_of 0, counts) data).1.
End entropy.

(** ** Letters *)

Definition is_vowel (b : Z) : bool := existsb (Z.eqb b) (of_string "aeiou").
Definition is_consonant (b : Z) : bool :=
  ((98 <=? b) && (b <=? 100)) || ((102 <=? b) && (b <=? 104)) || ((106 <=? b) && (b <=? 110))
  || ((112 <=? b) && (b <=? 116)) || ((118 <=? b) && (b <=? 122)).

Record CharRatios := mkRatios { consonants : Z; vowels : Z; digits : Z; total : Z }.

Definition count_char (r : CharRatios) (b : Z) : CharRatios :=
  let 'mkRatios c v d t := r in
  let t := t + 1 in
  let b := lower_byte b in
  if is_vowel b then mkRatios c (v + 1) d t
  else if is_consonant b then mkRatios (c + 1) v d t
  else if (48 <=? b) && (b <=? 57) then mkRatios c v (d + 1) t
  else mkRatios c v d t.

Definition char_ratios (sld : str) : CharRatios := foldl count_char (mkRatios 0 0 0 0) sld.

(** ** The registrable name *)

Definition COMPOUND_TLDS : list str := of_string <$>
  ["co.uk"; "org.uk"; "ac.uk"; "gov.uk"; "net.uk"; "me.uk"; "co.jp"; "or.jp"; "ne.jp"; "ac.jp";
   "go.jp"; "com.br"; "org.br"; "net.br"; "gov.br"; "edu.br"; "com.au"; "org.au"; "net.au";
   "edu.au"; "gov.au"; "co.nz"; "org.nz"; "net.nz"; "co.za"; "org.za"; "co.in"; "org.in";
   "net.in"; "gen.in"; "com.cn"; "org.cn"; "net.cn"; "gov.cn"; "edu.cn"; "com.tw"; "org.tw";
   "com.hk"; "org.hk"; "com.sg"; "org.sg"; "com.my"; "org.my"; "co.kr"; "or.kr"; "co.il";
   "org.il"; "com.ar"; "org.ar"; "com.mx"; "org.mx"; "com.co"; "org.co"; "com.ve"; "com.pe";
   "com.tr"; "org.tr"; "co.th"; "or.th"; "com.ph"; "org.ph"; "com.ng"; "org.ng"; "co.ke"; "or.ke";
   "com.eg"; "org.eg"; "com.pk"; "org.pk"; "com.bd"; "org.bd"]%string.

Definition eq_ignore_case_str (a b : str) : bool := bool_decide (to_ascii_lowercase a = to_ascii_lowercase b).

(** What follows the [n]-th dot from the end, and the dots met before the
    start; [acc] is what has been passed. *)
Fixpoint after_dots (n : nat) (rev_bytes acc : str) (dots : nat) : str + nat :=
  match rev_bytes with
  | [] => inr dots
  | b :: rest =>
      if b =? 46 then
        if (S dots =? n)%nat then inl acc else after_dots n rest (b :: acc) (S dots)
      else after_dots n rest (b :: acc) dots
  end.

Definition last_label (domain : str) : str := default [] (last (split 46 domain)).

Definition is_compound_tld (domain : str) : bool :=
  if negb (length (last_label domain) =? 2)%nat then false
  else match after_dots 2 (rev domain) [] 0 with
  | inl last_two => existsb (eq_ignore_case_str last_two) COMPOUND_TLDS
  | inr dot_count => (dot_count =? 1)%nat && existsb (eq_ignore_case_str domain) COMPOUND_TLDS
  end.

Definition extract_apex (domain : str) : str :=
  let target_dots := if is_compound_tld domain then 3%nat else 2%nat in
  match after_dots target_dots (rev domain) [] 0 with inl apex => apex | inr _ => domain end.

(** ** Lemmas *)

Definition is_label (l : str) : Prop := (46 : Z) ∉ l.

Lemma split_labels s : Forall is_label (split 46 s).
Proof.
  unfold split. induction s as [|c s IH]; cbn [split_at].
  { constructor; [|constructor]. apply not_elem_of_nil. }
  destruct (Z.eqb_spec 46 c) as [<-|Hc].
  - constructor; [apply not_elem_of_nil|done].
  - destruct (split_at (Z.eqb 46) s) as [|p ps] eqn:E; [by destruct (split_at_not_nil (Z.eqb 46) s)|].
    inversion IH; subst. constructor; [|done]. unfold is_label. rewrite elem_of_cons. by intros [|].
Qed.

Lemma after_dots_label n l rest acc dots : is_label l →
  after_dots n (rev l ++ rest) acc dots = after_dots n rest (l ++ acc) dots.
Proof.
  revert acc rest. induction l as [|b l IH] using rev_ind; intros acc rest Hl; [done|].
  unfold is_label in Hl. rewrite elem_of_app in Hl.
  rewrite rev_app_distr. cbn [rev app after_dots].
  destruct (Z.eqb_spec b 46) as [->|Hb]; [destruct Hl; right; by left|].
  rewrite IH by (intros Hin; apply Hl; by left). by rewrite <-app_assoc.
Qed.

Lemma after_dots_labels n labels acc dots : Forall is_label labels → labels ≠ [] → (dots < n)%nat →
  after_dots n (rev (join [46] labels)) acc dots
  = if (n - dots <? length labels)%nat
    then inl (join [46] (drop (length labels - (n - dots)) labels) ++ acc)
    else inr (dots + (length labels - 1))%nat.
Proof.
  revert acc dots. induction labels as [|l labels IH] using rev_ind; intros acc dots Hl Hne Hd; [done|].
  apply Forall_app in Hl as [Hls Hl]. inversion Hl as [|?? Hl' _]; subst.
  destruct (decide (labels = [])) as [->|Hn].
  { cbn [app join]. rewrite <-(app_nil_r (rev l)), after_dots_label by done.
    cbn [after_dots length]. rewrite (proj2 (Nat.ltb_ge _ _)) by lia. f_equal. lia. }
  rewrite join_app by done. cbn [join]. rewrite rev_app_distr. cbn [rev]. rewrite <-app_assoc.
  rewrite after_dots_label by done. cbn [app after_dots]. rewrite Z.eqb_refl.
  assert (0 < length labels)%nat by (destruct labels; [done|cbn [length]; lia]).
  destruct (Nat.eqb_spec (S dots) n) as [<-|Hdn].
  - rewrite length_app. cbn [length].
    rewrite (proj2 (Nat.ltb_lt _ _)) by lia. f_equal.
    replace (length labels + 1 - (S dots - dots))%nat with (length labels) by lia.
    by rewrite drop_app_length.
  - rewrite IH by (done || lia). rewrite length_app. cbn [length].
    replace (n - S dots <? length labels)%nat with (n - dots <? length labels + 1)%nat
      by (destruct (Nat.ltb_spec (n - dots) (length labels + 1)), (Nat.ltb_spec (n - S dots) (length labels)); lia).
    destruct (Nat.ltb_spec (n - dots) (length labels + 1)) as [Hlt|Hge]; [|f_equal; lia].
    f_equal. rewrite drop_app_le by lia.
    replace (length labels + 1 - (n - dots))%nat with (length labels - (n - S dots))%nat by lia.
    rewrite join_app; [by rewrite <-app_assoc| |done].
    intros E. apply (f_equal length) in E. rewrite length_drop in E. cbn [length] in E. lia.
Qed.

(** The last [k] labels of a name, all of it when it has no more. *)
Definition last_labels (k : nat) (domain : str) : str :=
  join [46] (drop (length (split 46 domain) - k) (split 46 domain)).

Lemma after_dots_spec n domain : (0 < n)%nat →
  match after_dots n (rev domain) [] 0 with inl s => s | inr _ => domain end = last_labels n domain.
Proof.
  intros Hn. pose proof (split_labels domain) as Hl. pose proof (split_at_not_nil (Z.eqb 46) domain) as Hne.
  fold (split 46 domain) in Hne. pose proof (join_split 46 domain) as Ej. unfold last_labels.
  remember (split 46 domain) as ls eqn:Els. clear Els. rewrite <-Ej.
  rewrite after_dots_labels by (done || lia).
  rewrite Nat.sub_0_r. destruct (Nat.ltb_spec n (length ls)) as [|Hge]; [by rewrite app_nil_r|].
  replace (length ls - n)%nat with 0%nat by lia. by rewrite drop_0.
Qed.

Lemma extract_apex_spec domain :
  extract_apex domain = last_labels (if is_compound_tld domain then 3 else 2) domain.
Proof. unfold extract_apex. destruct (is_compound_tld domain); apply after_dots_spec; lia. Qed.

Lemma extract_apex_examples :
  extract_apex (of_string "a.b.example.com") = of_string "example.com"
  ∧ extract_apex (of_string "x.example.Co.Uk") = of_string "example.Co.Uk"
  ∧ extract_apex (of_string "co.uk") = of_string "co.uk" ∧ extract_apex (of_string "host") = of_string "host".
Proof. vm_compute. done. Qed.

(** ** Entropy is the sum over distinct bytes *)

Definition occurrences (b : Z) (data : bytes) : Z := Z.of_nat (length (List.filter (Z.eqb b) data)).

(** The bytes of [data] that are not in [seen], each at its first occurrence. *)
Fixpoint firsts (data seen : bytes) : bytes :=
  match data with
  | [] => []
  | b :: data => if bool_decide (b ∈ seen) then firsts data seen else b :: firsts data (b :: seen)
  end.

Definition entropy_of (log2 : f32 → f32) (data : bytes) : f32 :=
  foldl (λ entropy b,
    let p := f32_div (f32_of (occurrences b data)) (f32_of (Z.of_nat (length data))) in
    f32_sub entropy (f32_mul p (log2 p))) (f32_of 0) (firsts data []).

Lemma occurrences_cons b c data : occurrences b (c :: data) = (if b =? c then 1 else 0) + occurrences b data.
Proof. unfold occurrences. cbn [List.filter]. destruct (b =? c); cbn [length]; lia. Qed.

Lemma counts_spec data : ∀ counts, bytes_ok data → length counts = 256%nat →
  length (foldl count_byte counts data) = 256%nat
  ∧ ∀ b, is_u8 b → default 0 (foldl count_byte counts data !! Z.to_nat b)
                  = default 0 (counts !! Z.to_nat b) + occurrences b data.
Proof.
  unfold is_u, u8_max. induction data as [|c data IH]; intros counts Hd Hc.
  { split; [done|]. intros b _. unfold occurrences. cbn [foldl List.filter length]. lia. }
  unfold bytes_ok in Hd. inversion Hd as [|?? Hcb Hd']; subst. unfold is_u, u8_max in Hcb. cbn [foldl].
  destruct (IH (count_byte counts c)) as [Hl Hs]; [done|unfold count_byte; by rewrite length_insert|].
  split; [done|]. intros b Hb. rewrite Hs by done. rewrite occurrences_cons. unfold count_byte.
  destruct (Z.eqb_spec b c) as [->|Hne].
  - rewrite list_lookup_insert_eq by lia. cbn [default from_option id]. lia.
  - rewrite list_lookup_insert_ne by lia. lia.
Qed.

Lemma entropy_loop log2 data l : ∀ seen entropy counts, bytes_ok l → length counts = 256%nat →
  (∀ b, b ∈ l → 0 < occurrences b data) →
  (∀ b, is_u8 b → default 0 (counts !! Z.to_nat b) = if bool_decide (b ∈ seen) then 0 else occurrences b data) →
  (foldl (entropy_step log2 (f32_of (Z.of_nat (length data)))) (entropy, counts) l).1
  = foldl (λ entropy b,
      let p := f32_div (f32_of (occurrences b data)) (f32_of (Z.of_nat (length data))) in
      f32_sub entropy (f32_mul p (log2 p))) entropy (firsts l seen).
Proof.
  induction l as [|c l IH]; intros seen entropy counts Hl Hlen Hpos Hc; [done|].
  unfold bytes_ok in Hl. inversion Hl as [|?? Hcb Hl']; subst.
  assert (0 < occurrences c data) as Hp by (apply Hpos; by left).
  assert (∀ b, b ∈ l → 0 < occurrences b data) as Hpos' by (intros b Hb; apply Hpos; by right).
  cbn [foldl firsts]. unfold entropy_step at 2. rewrite (Hc c Hcb).
  assert (∀ s : bytes, (∀ b, b ∈ s ↔ b = c ∨ b ∈ seen) → ∀ b, is_u8 b →
    default 0 (<[Z.to_nat c:=0]> counts !! Z.to_nat b) = if bool_decide (b ∈ s) then 0 else occurrences b data) as Hins.
  { intros s Hs b Hb. destruct (decide (b = c)) as [->|Hne].
    - rewrite list_lookup_insert_eq by (unfold is_u, u8_max in Hcb; lia).
      rewrite bool_decide_eq_true_2; [done|]. apply Hs. by left.
    - rewrite list_lookup_insert_ne by (unfold is_u in Hb, Hcb; lia). rewrite (Hc b Hb).
      by rewrite (bool_decide_ext (b ∈ s) (b ∈ seen)) by (rewrite Hs; naive_solver). }
  destruct (bool_decide (c ∈ seen)) eqn:Es.
  - apply bool_decide_eq_true in Es. rewrite Z.ltb_irrefl. apply IH; try done; [by rewrite length_insert|].
    apply Hins. intros b. split; [by right|]. by intros [->|].
  - rewrite (proj2 (Z.ltb_lt _ _)) by done. cbn [foldl]. apply IH; try done; [by rewrite length_insert|].
    apply Hins. intros b. by rewrite elem_of_cons.
Qed.

Lemma occurrences_pos b data : b ∈ data → 0 < occurrences b data.
Proof.
  induction data as [|c data IH]; intros Hb; [by apply not_elem_of_nil in Hb|].
  rewrite occurrences_cons. assert (0 ≤ occurrences b data) by (unfold occurrences; lia).
  apply elem_of_cons in Hb as [->|Hb]; [rewrite Z.eqb_refl; lia|].
  specialize (IH Hb). destruct (b =? c); lia.
Qed.

(** One walk over a table of counts, instead of one over all 256 of them. *)
Lemma shannon_entropy_spec log2 data : bytes_ok data → shannon_entropy log2 data = entropy_of log2 data.
Proof.
  intros Hd. unfold shannon_entropy. case_bool_decide as E; [by rewrite E|].
  destruct (counts_spec data (replicate 256 0) Hd ltac:(done)) as [Hl Hs].
  apply entropy_loop; try done; [intros b; apply occurrences_pos|].
  intros b Hb. rewrite Hs by done. rewrite bool_decide_eq_false_2 by apply not_elem_of_nil.
  rewrite lookup_replicate_2 by (unfold is_u, u8_max in Hb; lia). done.
Qed.
