(* ===== verification/Guards.v ===== *)
(** The guards of a query, [application/src/use_cases/dns/]: tunneling,
    rebinding, NXDOMAIN hijack and response IPs; the filters of
    [domain/src/value_objects/query_filters.rs]; and the hot path's DGA check,
    [dga_guard.rs].  What a background analysis has flagged is a predicate the
    guard is given. *)

From Stdlib Require Import String.
From S2P Require Import Prelude Errors Text Net Float64 Heuristics.

#[local] Set Default Proof Using "Type".

(** ** Private addresses

    [Ipv4Addr::is_private] and its like of the standard library: the ranges of
    RFC 1918, 127/8 and 169.254/16; ::1, fc00::/7 and fe80::/10. *)

Definition v4_is_private (a : Z) : bool :=
  (Z.shiftr a 24 =? 10) || (Z.shiftr a 20 =? 0xAC1) || (Z.shiftr a 16 =? 0xC0A8).
Definition is_private_ipv4 (a : Z) : bool :=
  v4_is_private a || (Z.shiftr a 24 =? 127) || (Z.shiftr a 16 =? 0xA9FE).
Definition to_ipv4_mapped (a : Z) : option Z :=
  if Z.shiftr a 32 =? 0xFFFF then Some (Z.land a u32_max) else None.
Definition is_private_ipv6 (a : Z) : bool :=
  match to_ipv4_mapped a with
  | Some v4 => is_private_ipv4 v4
  | None => (a =? 1) || (Z.shiftr a 121 =? 0x7E) || (Z.shiftr a 118 =? 0x3FA)
  end.
Definition is_private_ip (ip : IpAddr) : bool :=
  match ip with V4 a => is_private_ipv4 a | V6 a => is_private_ipv6 a end.

(** ** Reverse names *)

Definition is_digit (b : Z) : bool := (48 <=? b) && (b <=? 57).
Definition decimal (label : str) : Z := foldl (λ acc b, acc * 10 + (b - 48)) 0 label.

Definition parse_octet (label : str) : option Z :=
  if bool_decide (label = []) || ((1 <? length label)%nat && bool_decide (head label = Some 48)) then None
  else if negb (forallb is_digit label) then None
  else if decimal label <=? 255 then Some (decimal label) else None.

Fixpoint parse_octets (n : nat) (labels : list str) (acc : Z) : option Z :=
  match n, labels with
  | O, [] => Some acc
  | S n, label :: labels =>
      match parse_octet label with
      | Some o => parse_octets n labels (acc * 256 + o)
      | None => None
      end
  | _, _ => None
  end.
Definition parse_in_addr_arpa (labels : str) : option Z := parse_octets 4 (rev (split 46 labels)) 0.

(** [char::to_digit(16)] of a byte. *)
Definition to_digit16 (b : Z) : option Z :=
  if is_digit b then Some (b - 48)
  else if (97 <=? b) && (b <=? 102) then Some (b - 87)
  else if (65 <=? b) && (b <=? 70) then Some (b - 55)
  else None.

Fixpoint parse_nibbles (labels : list str) (value : Z) (count : nat) : option Z :=
  match labels with
  | [] => if bool_decide (count = 32%nat) then Some value else None
  | [digit] :: labels =>
      match to_digit16 digit with
      | Some nibble =>
          if (32 <? S count)%nat then None
          else parse_nibbles labels (Z.lor (Z.shiftl value 4) nibble) (S count)
      | None => None
      end
  | _ :: _ => None
  end.
Definition parse_ip6_arpa (labels : str) : option Z := parse_nibbles (rev (split 46 labels)) 0 0.

Definition extract_ip_from_ptr (domain : str) : option IpAddr :=
  match strip_suffix domain (of_string ".in-addr.arpa") with
  | Some labels => V4 <$> parse_in_addr_arpa labels
  | None =>
      match strip_suffix domain (of_string ".ip6.arpa") with
      | Some labels => V6 <$> parse_ip6_arpa labels
      | None => None
      end
  end.
Definition is_private_ptr_query (domain : str) : bool :=
  match extract_ip_from_ptr domain with Some ip => is_private_ip ip | None => false end.

Definition is_fqdn (domain : str) : bool := contains_char 46 domain && negb (ends_with [46] domain).
Definition is_local_hostname (domain : str) : bool := negb (is_fqdn domain).

(** ** Tunneling *)

Inductive GuardAction := ActAlert | ActBlock.

#[export] Instance GuardAction_eq_dec : EqDecision GuardAction.
Proof. solve_decision. Defined.

(** The measured value and its threshold go to a log line only. *)
Inductive TunnelingVerdict := TunnelingClean | TunnelingDetected (signal : string).

Record TunnelingGuard := mkTunneling {
  tg_enabled : bool; tg_action : GuardAction; max_fqdn_length : nat; max_label_length : nat;
  block_null_queries : bool;
}.

Definition tunneling_check (g : TunnelingGuard) (domain : str) (t : RecordType) : TunnelingVerdict :=
  if negb (tg_enabled g) then TunnelingClean
  else if (max_fqdn_length g <? length domain)%nat then TunnelingDetected "fqdn_length"
  else if existsb (λ label, (max_label_length g <? length label)%nat) (split 46 domain)
  then TunnelingDetected "label_length"
  else if block_null_queries g && bool_decide (t = NULL) then TunnelingDetected "null_record_type"
  else TunnelingClean.

(** ** Rebinding *)

Section rebinding.
(** [str::to_lowercase]. *)
Context (to_lowercase : str → str).

Record RebindingGuard := mkRebinding { local_domain_suffix : option str }.

Definition rebinding_new (local_domain : option str) : RebindingGuard :=
  mkRebinding ((λ d, 46 :: to_lowercase d) <$> local_domain).

Fixpoint trim_start_matches (c : Z) (s : str) : str :=
  match s with b :: rest => if b =? c then trim_start_matches c rest else s | [] => [] end.

(** Names are ASCII here, so every byte position is a character boundary. *)
Definition is_rebinding_attempt (g : RebindingGuard) (domain : str) (r : DnsResolution) : bool :=
  if r_local_dns r then false
  else
    let local := match local_domain_suffix g with
      | Some suffix =>
          eq_ignore_case_str domain (trim_start_matches 46 suffix)
          || eq_ignore_case_str (drop (length domain - length suffix) domain) suffix
      | None => false
      end in
    if local then false else existsb is_private_ip (r_addresses r).
End rebinding.

(** ** Hijacked and blocked addresses *)

Record IpGuard := mkIpGuard { ig_action : GuardAction; ig_store : option (IpAddr → bool) }.

Definition ip_guard_hit (g : IpGuard) (r : DnsResolution) : bool :=
  match ig_store g with Some listed => existsb listed (r_addresses r) | None => false end.
Definition is_hijacked_response (g : IpGuard) (r : DnsResolution) : bool := ip_guard_hit g r.
Definition has_blocked_ip (g : IpGuard) (r : DnsResolution) : bool := ip_guard_hit g r.

Inductive DgaVerdict := DgaClean | DgaDetected (signal : string) (measured threshold : f32).

Definition HP_WEIGHT_SLD_ENTROPY : f32 := f32_lit 30 100.
Definition HP_WEIGHT_CONSONANT_RATIO : f32 := f32_lit 25 100.
Definition HP_WEIGHT_DIGIT_RATIO : f32 := f32_lit 20 100.
Definition HP_WEIGHT_SLD_LENGTH : f32 := f32_lit 25 100.

Record DgaGuard := mkDga {
  dga_enabled : bool;
  dga_action : GuardAction;
  hot_path_confidence_threshold : f32;
  sld_entropy_threshold : f32;
  sld_max_length : Z;
  consonant_ratio_threshold : f32;
  digit_ratio_threshold : f32;
}.

(** [DgaDetectionConfig::default], of which the guard takes these fields. *)
Definition dga_default : DgaGuard :=
  mkDga true ActBlock (f32_lit 40 100) (f32_lit 35 10) 24 (f32_lit 75 100) (f32_lit 3 10).
Definition dga_disabled : DgaGuard :=
  mkDga false (dga_action dga_default) (hot_path_confidence_threshold dga_default)
    (sld_entropy_threshold dga_default) (sld_max_length dga_default)
    (consonant_ratio_threshold dga_default) (digit_ratio_threshold dga_default).

Definition extract_sld (domain : str) : option str :=
  match head (split 46 (extract_apex domain)) with
  | Some s => if bool_decide (s = []) then None else Some s
  | None => None
  end.

(** ** The signal to report *)

Record TopSignal := mkTop { top_name : string; top_measured : f32; top_threshold : f32; excess : f32 }.

Definition top_default : TopSignal := mkTop "none" (f32_of 0) (f32_of 0) (f32_of 0).

Definition offer (t : TopSignal) (name : string) (measured threshold : f32) : TopSignal :=
  let e := f32_div measured threshold in
  if SFltb (excess t) e then mkTop name measured threshold e else t.

(** ** The check *)

(** [(n > 0).then(|| ...)] and [is_some_and(|r| r > threshold)]. *)
Definition ratio (part whole : Z) : option f32 :=
  if 0 <? whole then Some (f32_div (f32_of part) (f32_of whole)) else None.
Definition exceeds (threshold : f32) (r : option f32) : bool :=
  match r with Some r => SFltb threshold r | None => false end.

Definition weight (fired : bool) (value : f32) : f32 := if fired then value else f32_of 0.

(** The sum of both [ceiling] and [confidence]: the weights in one order. *)
Definition hot_path_score (long high_entropy consonant_heavy digit_heavy : bool) : f32 :=
  f32_add (f32_add (f32_add (weight long HP_WEIGHT_SLD_LENGTH) (weight high_entropy HP_WEIGHT_SLD_ENTROPY))
    (weight consonant_heavy HP_WEIGHT_CONSONANT_RATIO)) (weight digit_heavy HP_WEIGHT_DIGIT_RATIO).

Section check.
Context (log2 : f32 → f32).

Definition dga_check (g : DgaGuard) (domain : str) : DgaVerdict :=
  if negb (dga_enabled g) then DgaClean
  else
    match extract_sld domain with
    | None => DgaClean
    | Some sld =>
        if negb (3 <? length sld)%nat then DgaClean
        else
          let sld_len := Z.of_nat (length sld) in
          let long := sld_max_length g <? sld_len in
          let r := char_ratios sld in
          let alpha := consonants r + vowels r in
          let consonant_ratio := ratio (consonants r) alpha in
          let consonant_heavy := exceeds (consonant_ratio_threshold g) consonant_ratio in
          let digit_ratio := ratio (digits r) (total r) in
          let digit_heavy := exceeds (digit_ratio_threshold g) digit_ratio in
          let ceiling := hot_path_score long true consonant_heavy digit_heavy in
          if SFltb ceiling (hot_path_confidence_threshold g) then DgaClean
          else
            let entropy := shannon_entropy log2 sld in
            let high_entropy := SFltb (sld_entropy_threshold g) entropy in
            let confidence := hot_path_score long high_entropy consonant_heavy digit_heavy in
            if SFltb confidence (hot_path_confidence_threshold g) then DgaClean
            else
              let top := top_default in
              let top := if long then offer top "sld_length" (f32_of sld_len) (f32_of (sld_max_length g)) else top in
              let top := if high_entropy then offer top "sld_entropy" entropy (sld_entropy_threshold g) else top in
              let top := match consonant_ratio with
                | Some r => if consonant_heavy then offer top "consonant_ratio" r (consonant_ratio_threshold g) else top
                | None => top
                end in
              let top := match digit_ratio with
                | Some r => if digit_heavy then offer top "digit_ratio" r (digit_ratio_threshold g) else top
                | None => top
                end in
              DgaDetected (top_name top) (top_measured top) (top_threshold top)
    end.
End check.

(** ** What the check computes

    Four signals, each with its weight, its measure and its threshold; the
    name is detected when the weights of the signals that fired reach the
    confidence asked for, and the one that exceeds its threshold most is named. *)

Record Signal := mkSignal {
  s_name : string; s_fired : bool; s_weight : f32; s_measured : f32; s_threshold : f32;
}.

Definition ratio_signal (name : string) (r : option f32) (w threshold : f32) : Signal :=
  mkSignal name (exceeds threshold r) w (default (f32_of 0) r) threshold.

Definition signals (log2 : f32 → f32) (g : DgaGuard) (sld : str) : list Signal :=
  let r := char_ratios sld in
  let entropy := entropy_of log2 sld in
  [mkSignal "sld_length" (sld_max_length g <? Z.of_nat (length sld)) HP_WEIGHT_SLD_LENGTH
     (f32_of (Z.of_nat (length sld))) (f32_of (sld_max_length g));
   mkSignal "sld_entropy" (SFltb (sld_entropy_threshold g) entropy) HP_WEIGHT_SLD_ENTROPY
     entropy (sld_entropy_threshold g);
   ratio_signal "consonant_ratio" (ratio (consonants r) (consonants r + vowels r))
     HP_WEIGHT_CONSONANT_RATIO (consonant_ratio_threshold g);
   ratio_signal "digit_ratio" (ratio (digits r) (total r)) HP_WEIGHT_DIGIT_RATIO (digit_ratio_threshold g)].

Definition fired_signals (log2 : f32 → f32) (g : DgaGuard) (sld : str) : list Signal :=
  List.filter s_fired (signals log2 g sld).

Definition confidence_of (ss : list Signal) : f32 := foldl (λ acc s, f32_add acc (s_weight s)) (f32_of 0) ss.
Definition top_of (ss : list Signal) : TopSignal :=
  foldl (λ t s, offer t (s_name s) (s_measured s) (s_threshold s)) top_default ss.

(** The label the check looks at: the first of the registrable name. *)
Definition judged (g : DgaGuard) (domain : str) : option str :=
  if dga_enabled g then
    match extract_sld domain with
    | Some sld => if (3 <? length sld)%nat then Some sld else None
    | None => None
    end
  else None.

Definition verdict_of (log2 : f32 → f32) (g : DgaGuard) (domain : str) : DgaVerdict :=
  match judged g domain with
  | None => DgaClean
  | Some sld =>
      let ss := fired_signals log2 g sld in
      if SFltb (confidence_of ss) (hot_path_confidence_threshold g) then DgaClean
      else DgaDetected (top_name (top_of ss)) (top_measured (top_of ss)) (top_threshold (top_of ss))
  end.

(** ** Lemmas *)

(** Leaving the entropy out of the score lowers it. *)
Lemma hot_path_ceiling long c d : SFltb (hot_path_score long false c d) (hot_path_score long true c d) = true.
Proof. destruct long, c, d; vm_compute; done. Qed.

Lemma ceiling_bounds long e c d t :
  SFltb (hot_path_score long true c d) t = true → SFltb (hot_path_score long e c d) t = true.
Proof.
  intros Ht. destruct e; [done|].
  eapply SFltb_trans; [apply hot_path_ceiling|exact Ht].
Qed.

Lemma score_of_fired log2 g sld : bytes_ok sld →
  let r := char_ratios sld in
  hot_path_score (sld_max_length g <? Z.of_nat (length sld))
    (SFltb (sld_entropy_threshold g) (shannon_entropy log2 sld))
    (exceeds (consonant_ratio_threshold g) (ratio (consonants r) (consonants r + vowels r)))
    (exceeds (digit_ratio_threshold g) (ratio (digits r) (total r)))
  = confidence_of (fired_signals log2 g sld).
Proof.
  intros Hs r. rewrite shannon_entropy_spec by done. unfold fired_signals, signals, ratio_signal. subst r.
  cbn [List.filter s_fired].
  generalize (sld_max_length g <? Z.of_nat (length sld)), (SFltb (sld_entropy_threshold g) (entropy_of log2 sld)),
    (exceeds (consonant_ratio_threshold g)
       (ratio (consonants (char_ratios sld)) (consonants (char_ratios sld) + vowels (char_ratios sld)))),
    (exceeds (digit_ratio_threshold g) (ratio (digits (char_ratios sld)) (total (char_ratios sld)))).
  intros [] [] [] []; cbn [confidence_of foldl s_weight]; vm_compute; done.
Qed.

(** A single signal weighs at most what the entropy does. *)
Lemma alone_is_light log2 g sld t : (length (fired_signals log2 g sld) ≤ 1)%nat →
  SFltb HP_WEIGHT_SLD_ENTROPY t = true → SFltb (confidence_of (fired_signals log2 g sld)) t = true.
Proof.
  intros Hl Ht.
  assert (confidence_of (fired_signals log2 g sld) = HP_WEIGHT_SLD_ENTROPY
    ∨ SFltb (confidence_of (fired_signals log2 g sld)) HP_WEIGHT_SLD_ENTROPY = true) as [->|Hlt]; [|done|].
  - revert Hl. unfold fired_signals, signals, ratio_signal. cbn [List.filter s_fired].
    repeat case_match; cbn [length]; intros Hl; try lia; cbn [confidence_of foldl s_weight];
      (left; vm_compute; reflexivity) || (right; vm_compute; reflexivity).
  - by eapply SFltb_trans.
Qed.

Lemma top_ratio log2 g sld : bytes_ok sld →
  top_of (fired_signals log2 g sld)
  = let r := char_ratios sld in
    let entropy := shannon_entropy log2 sld in
    let top := top_default in
    let top := if sld_max_length g <? Z.of_nat (length sld)
      then offer top "sld_length" (f32_of (Z.of_nat (length sld))) (f32_of (sld_max_length g)) else top in
    let top := if SFltb (sld_entropy_threshold g) entropy
      then offer top "sld_entropy" entropy (sld_entropy_threshold g) else top in
    let top := match ratio (consonants r) (consonants r + vowels r) with
      | Some q => if exceeds (consonant_ratio_threshold g) (Some q)
                  then offer top "consonant_ratio" q (consonant_ratio_threshold g) else top
      | None => top
      end in
    match ratio (digits r) (total r) with
    | Some q => if exceeds (digit_ratio_threshold g) (Some q)
                then offer top "digit_ratio" q (digit_ratio_threshold g) else top
    | None => top
    end.
Proof.
  intros Hs. rewrite shannon_entropy_spec by done. unfold fired_signals, signals, ratio_signal.
  cbn [List.filter s_fired].
  destruct (ratio (consonants _) _) as [q|], (ratio (digits _) _) as [q'|]; cbn [exceeds];
    repeat case_match; done.
Qed.

(** A part of a name has the name's bytes. *)
Lemma split_bytes s l : bytes_ok s → l ∈ split 46 s → bytes_ok l.
Proof.
  unfold split, bytes_ok. revert l. induction s as [|c s IH]; cbn [split_at]; intros l Hs Hl.
  { apply list_elem_of_singleton in Hl as ->. constructor. }
  inversion Hs as [|?? Hc Hs']; subst. destruct (46 =? c).
  - apply elem_of_cons in Hl as [->|Hl]; [constructor|by apply IH].
  - destruct (split_at (Z.eqb 46) s) as [|p ps] eqn:E; [by destruct (split_at_not_nil (Z.eqb 46) s)|].
    apply elem_of_cons in Hl as [->|Hl]; [constructor; [done|]|]; apply IH; auto; [by left|by right].
Qed.

Lemma join_bytes ls : Forall bytes_ok ls → bytes_ok (join [46] ls).
Proof.
  induction ls as [|l ls IH]; intros Hls; [constructor|]. inversion Hls; subst.
  destruct ls as [|l' ls]; [done|]. change (bytes_ok (l ++ [46] ++ join [46] (l' :: ls))).
  apply Forall_app. split; [done|]. apply Forall_app. split; [|by apply IH].
  constructor; [unfold is_u, u8_max; lia|constructor].
Qed.

Lemma extract_sld_ok domain sld : bytes_ok domain → extract_sld domain = Some sld → bytes_ok sld.
Proof.
  intros Hd. unfold extract_sld. destruct (head _) as [s|] eqn:E; [|done].
  case_bool_decide; [done|]. intros [= <-].
  apply (split_bytes (extract_apex domain)).
  - rewrite extract_apex_spec. apply join_bytes, Forall_drop, Forall_forall.
    intros l Hl. by eapply split_bytes.
  - destruct (split 46 (extract_apex domain)) as [|x xs]; [done|]. injection E as ->. by left.
Qed.

(** ** Theorems *)

(** The DGA check decides by its four signals alone: it detects a name
    exactly when the weights of the signals that fired reach the configured
    confidence, and reports the fired signal that exceeds its threshold most.
    The early exit, which skips the entropy when even its full weight could
    not be enough, never changes that, and the entropy it computes from the
    table of counts is the sum over the distinct bytes.  Above the weight of
    the heaviest signal, detection takes two signals at least. *)
Theorem dga_check_spec (log2 : f32 → f32) (g : DgaGuard) (domain : str) : bytes_ok domain →
  dga_check log2 g domain = verdict_of log2 g domain
  ∧ (SFltb HP_WEIGHT_SLD_ENTROPY (hot_path_confidence_threshold g) = true →
     dga_check log2 g domain ≠ DgaClean →
     ∃ sld, judged g domain = Some sld ∧ (2 ≤ length (fired_signals log2 g sld))%nat).
Proof.
  intros Hd. assert (dga_check log2 g domain = verdict_of log2 g domain) as Heq.
  { unfold dga_check, verdict_of, judged. destruct (dga_enabled g); [|done]. cbn [negb].
    destruct (extract_sld domain) as [sld|] eqn:Esld; [|done].
    assert (bytes_ok sld) as Hs by (by eapply extract_sld_ok).
    destruct (3 <? length sld)%nat; [|done]. cbn [negb].
    pose proof (score_of_fired log2 g sld Hs) as Hc. cbv zeta in Hc. rewrite <-Hc.
    destruct (SFltb (hot_path_score _ true _ _) _) eqn:Ec; [by rewrite (ceiling_bounds _ _ _ _ _ Ec)|].
    rewrite (top_ratio log2 g sld Hs). cbv zeta.
    by destruct (ratio (consonants _) _), (ratio (digits _) _). }
  split; [done|]. intros Ht Hv. rewrite Heq in Hv. unfold verdict_of in Hv.
  destruct (judged g domain) as [sld|]; [|done]. exists sld. split; [done|].
  destruct (decide (2 ≤ length (fired_signals log2 g sld))%nat); [done|].
  rewrite alone_is_light in Hv by (done || lia). done.
Qed.

(** A logarithm for the example: every byte adds four times its share. *)
Definition demo_log2 (x : f32) : f32 := SFopp (f32_of 4).

Definition random_name : str := of_string "www.xk9qz7wvbn3ftr4kd.com".

Lemma dga_check_spec_witness :
  (∃ m t, dga_check demo_log2 dga_default random_name = DgaDetected "consonant_ratio" m t)
  ∧ dga_check demo_log2 dga_default (of_string "www.wikipedia.org") = DgaClean
  ∧ ∃ sld, judged dga_default random_name = Some sld ∧ (2 ≤ length (fired_signals demo_log2 dga_default sld))%nat.
Proof.
  assert (bytes_ok random_name) as Hok by (unfold bytes_ok; apply Forall_forall; vm_compute; intros x Hx;
    repeat (apply elem_of_cons in Hx as [->|Hx]; [split; discriminate|]); by apply not_elem_of_nil in Hx).
  split; [eexists _, _; vm_compute; reflexivity|]. split; [vm_compute; reflexivity|].
  destruct (dga_check_spec demo_log2 dga_default random_name Hok) as [_ H2].
  apply H2; [vm_compute; reflexivity|vm_compute; discriminate].
Defined.
