(* ===== verification/Protocol.v ===== *)
(** Upstream servers: [domain/src/value_objects/dns_protocol.rs], with the texts
    of addresses as the Standard Library ([std::net]) reads and writes them. *)

From Stdlib Require Import String.
From stdpp Require Import pretty.
From S2P Require Import Prelude Errors Text Net FastPath Guards.

#[local] Set Default Proof Using "Type".

(** ** Addresses as text *)

Record SocketAddr := mkSocket { sa_ip : IpAddr; sa_port : Z; sa_scope : Z }.

#[export] Instance SocketAddr_eq_dec : EqDecision SocketAddr.
Proof. solve_decision. Defined.

Definition show_dec (n : Z) : str := of_string (pretty n).
Definition hex_digit (d : Z) : Z := if d <? 10 then 48 + d else 87 + d.
Fixpoint show_hex_go (fuel : nat) (n : Z) (acc : str) : str :=
  match fuel with
  | O => acc
  | S fuel =>
      let acc := hex_digit (n mod 16) :: acc in
      if n / 16 =? 0 then acc else show_hex_go fuel (n / 16) acc
  end.
(** A 16-bit group has at most four digits. *)
Definition show_hex (n : Z) : str := show_hex_go 4 n [].

Definition show_ipv4 (a : Z) : str := join [46] (show_dec <$> v4_octets a).
Definition segments (a : Z) : list Z := (λ i, a / 2 ^ (112 - 16 * Z.of_nat i) mod 65536) <$> seq 0 8.

(** The longest run of zero groups, the first of equals. *)
Fixpoint longest_zeros (segs : list Z) (at_ : nat) (current longest : nat * nat) : nat * nat :=
  match segs with
  | [] => longest
  | s :: segs =>
      if s =? 0 then
        let current := (if (current.2 =? 0)%nat then at_ else current.1, S current.2) in
        let longest := if (longest.2 <? current.2)%nat then current else longest in
        longest_zeros segs (S at_) current longest
      else longest_zeros segs (S at_) (0, 0)%nat longest
  end.

Definition show_ipv6 (a : Z) : str :=
  match to_ipv4_mapped a with
  | Some v4 => of_string "::ffff:" ++ show_ipv4 v4
  | None =>
      let segs := segments a in
      let '(start, len) := longest_zeros segs 0 (0, 0)%nat (0, 0)%nat in
      if (1 <? len)%nat then
        join [58] (show_hex <$> take start segs) ++ [58; 58]
        ++ join [58] (show_hex <$> drop (start + len) segs)
      else join [58] (show_hex <$> segs)
  end.
Definition show_ip (ip : IpAddr) : str := match ip with V4 a => show_ipv4 a | V6 a => show_ipv6 a end.

Definition show_socket (s : SocketAddr) : str :=
  match sa_ip s with
  | V4 a => show_ipv4 a ++ [58] ++ show_dec (sa_port s)
  | V6 a =>
      [91] ++ show_ipv6 a ++ (if sa_scope s =? 0 then [] else [37] ++ show_dec (sa_scope s))
      ++ of_string "]:" ++ show_dec (sa_port s)
  end.

(** The parser: what is read, and the rest. *)
Definition reader (A : Type) : Type := str → option (A * str).

Definition digit_value (radix c : Z) : option Z :=
  let v := if (48 <=? c) && (c <=? 57) then c - 48
           else if (97 <=? c) && (c <=? 122) then c - 87
           else if (65 <=? c) && (c <=? 90) then c - 55 else 99 in
  if v <? radix then Some v else None.

Fixpoint take_digits (radix : Z) (s : str) : list Z * str :=
  match s with
  | [] => ([], [])
  | c :: s' =>
      match digit_value radix c with
      | Some v => let '(ds, rest) := take_digits radix s' in (v :: ds, rest)
      | None => ([], s)
      end
  end.

Definition read_number (radix : Z) (max_digits : option nat) (allow_zero_prefix : bool) (bound : Z)
    : reader Z := λ s,
  let '(ds, rest) := take_digits radix s in
  let n := foldl (λ acc d, acc * radix + d) 0 ds in
  if match max_digits with Some k => (k <? length ds)%nat | None => false end then None
  else if (length ds =? 0)%nat then None
  else if negb allow_zero_prefix && starts_with [48] s && (1 <? length ds)%nat then None
  else if bound <? n then None
  else Some (n, rest).

Definition read_char (c : Z) : reader unit := λ s,
  match s with x :: s => if x =? c then Some ((), s) else None | [] => None end.
Definition read_separator {A} (sep : Z) (i : nat) (inner : reader A) : reader A := λ s,
  if (i =? 0)%nat then inner s else '(_, s) ← read_char sep s; inner s.

Fixpoint read_octets (n i : nat) (acc : Z) : reader Z := λ s,
  match n with
  | O => Some (acc, s)
  | S n =>
      '(o, s) ← read_separator 46 i (read_number 10 (Some 3%nat) false u8_max) s;
      read_octets n (S i) (acc * 256 + o) s
  end.
Definition read_ipv4 : reader Z := read_octets 4 0 0.

(** The groups up to [limit], and whether they end in an IPv4 address. *)
Fixpoint read_groups (n limit i : nat) (acc : list Z) (s : str) : list Z * bool * str :=
  match n with
  | O => (acc, false, s)
  | S n =>
      match (if (i <? limit - 1)%nat then read_separator 58 i read_ipv4 s else None) with
      | Some (a, s) => (acc ++ [a / 65536; a mod 65536], true, s)
      | None =>
          match read_separator 58 i (read_number 16 (Some 4%nat) true u16_max) s with
          | Some (g, s) => read_groups n limit (S i) (acc ++ [g]) s
          | None => (acc, false, s)
          end
      end
  end.

Definition of_segments (segs : list Z) : Z := foldl (λ acc g, acc * 65536 + g) 0 segs.

Definition read_ipv6 : reader Z := λ s,
  let '(head, v4, s) := read_groups 8 8 0 [] s in
  if (length head =? 8)%nat then Some (of_segments head, s)
  else if v4 : bool then None
  else
    '(_, s) ← read_char 58 s;
    '(_, s) ← read_char 58 s;
    let limit := (8 - (length head + 1))%nat in
    let '(tail, _, s) := read_groups limit limit 0 [] s in
    Some (of_segments (head ++ replicate (8 - length head - length tail) 0 ++ tail), s).

Definition read_port : reader Z := λ s, '(_, s) ← read_char 58 s; read_number 10 None true u16_max s.
Definition read_scope (s : str) : Z * str :=
  match '(_, s) ← read_char 37 s; read_number 10 None true u32_max s with
  | Some r => r
  | None => (0, s)
  end.
Definition read_socket_v4 : reader SocketAddr := λ s,
  '(a, s) ← read_ipv4 s; '(p, s) ← read_port s; Some (mkSocket (V4 a) p 0, s).
Definition read_socket_v6 : reader SocketAddr := λ s,
  '(_, s) ← read_char 91 s; '(a, s) ← read_ipv6 s;
  let '(scope, s) := read_scope s in
  '(_, s) ← read_char 93 s; '(p, s) ← read_port s; Some (mkSocket (V6 a) p scope, s).

Definition parse_whole {A} (r : reader A) (s : str) : option A :=
  match r s with Some (a, []) => Some a | _ => None end.
Definition either {A} (r r' : reader A) : reader A := λ s,
  match r s with Some x => Some x | None => r' s end.
Definition parse_socket : str → option SocketAddr := parse_whole (either read_socket_v4 read_socket_v6).
Definition parse_ipv6 : str → option Z := parse_whole read_ipv6.
Definition parse_ip : str → option IpAddr :=
  parse_whole (either (λ s, '(a, s) ← read_ipv4 s; Some (V4 a, s)) (λ s, '(a, s) ← read_ipv6 s; Some (V6 a, s))).

(** [u16::from_str]. *)
Definition parse_u16 (s : str) : option Z :=
  let digits := default s (strip_prefix [43] s) in
  let '(ds, rest) := take_digits 10 digits in
  let n := foldl (λ acc d, acc * 10 + d) 0 ds in
  if bool_decide (ds = []) || negb (bool_decide (rest = [])) || (u16_max <? n) then None else Some n.

(** ** Servers *)

Inductive UpstreamAddr := Resolved (addr : SocketAddr) | Unresolved (hostname : str) (port : Z).

#[export] Instance UpstreamAddr_eq_dec : EqDecision UpstreamAddr.
Proof. solve_decision. Defined.

Definition upstream_socket (a : UpstreamAddr) : option SocketAddr :=
  match a with Resolved s => Some s | Unresolved _ _ => None end.
Definition upstream_port (a : UpstreamAddr) : Z :=
  match a with Resolved s => sa_port s | Unresolved _ port => port end.
Definition is_unresolved (a : UpstreamAddr) : bool :=
  match a with Unresolved _ _ => true | Resolved _ => false end.
Definition unresolved_parts (a : UpstreamAddr) : option (str * Z) :=
  match a with Unresolved h p => Some (h, p) | Resolved _ => None end.
Definition show_upstream (a : UpstreamAddr) : str :=
  match a with Resolved s => show_socket s | Unresolved h p => h ++ [58] ++ show_dec p end.

Inductive DnsProtocol :=
  | PUdp (addr : UpstreamAddr)
  | PTcp (addr : UpstreamAddr)
  | PTls (addr : UpstreamAddr) (hostname : str)
  | PHttps (url hostname : str) (port : Z) (resolved_addrs : list SocketAddr)
  | PQuic (addr : UpstreamAddr) (hostname : str)
  | PH3 (url hostname : str) (port : Z) (resolved_addrs : list SocketAddr).

#[export] Instance DnsProtocol_eq_dec : EqDecision DnsProtocol.
Proof. solve_decision. Defined.

#[export] Instance IpAddr_countable : Countable IpAddr.
Proof.
  refine (inj_countable' (λ ip, match ip with V4 a => inl a | V6 a => inr a end)
    (λ s, match s with inl a => V4 a | inr a => V6 a end) _). by intros [].
Defined.
#[export] Instance SocketAddr_countable : Countable SocketAddr.
Proof.
  refine (inj_countable' (λ s, (sa_ip s, sa_port s, sa_scope s)) (λ t, mkSocket t.1.1 t.1.2 t.2) _).
  by intros [].
Defined.
#[export] Instance UpstreamAddr_countable : Countable UpstreamAddr.
Proof.
  refine (inj_countable' (λ a, match a with Resolved s => inl s | Unresolved h p => inr (h, p) end)
    (λ s, match s with inl s => Resolved s | inr (h, p) => Unresolved h p end) _). by intros [].
Defined.
#[export] Instance DnsProtocol_countable : Countable DnsProtocol.
Proof.
  refine (inj_countable' (λ p, match p with
      | PUdp a => inl (inl (inl a)) | PTcp a => inl (inl (inr a))
      | PTls a h => inl (inr (inl (a, h))) | PQuic a h => inl (inr (inr (a, h)))
      | PHttps u h n l => inr (inl (u, h, n, l)) | PH3 u h n l => inr (inr (u, h, n, l)) end)
    (λ s, match s with
      | inl (inl (inl a)) => PUdp a | inl (inl (inr a)) => PTcp a
      | inl (inr (inl (a, h))) => PTls a h | inl (inr (inr (a, h))) => PQuic a h
      | inr (inl (u, h, n, l)) => PHttps u h n l | inr (inr (u, h, n, l)) => PH3 u h n l end) _).
  by intros [].
Defined.

Definition protocol_socket (p : DnsProtocol) : option SocketAddr :=
  match p with
  | PUdp a | PTcp a | PTls a _ | PQuic a _ => upstream_socket a
  | PHttps _ _ _ _ | PH3 _ _ _ _ => None
  end.
Definition protocol_hostname (p : DnsProtocol) : option str :=
  match p with
  | PTls _ h | PHttps _ h _ _ | PQuic _ h | PH3 _ h _ _ => Some h
  | PUdp _ | PTcp _ => None
  end.
Definition needs_resolution (p : DnsProtocol) : bool :=
  match p with
  | PUdp a | PTcp a | PTls a _ | PQuic a _ => is_unresolved a
  | PHttps _ h _ addrs | PH3 _ h _ addrs =>
      negb (bool_decide (is_Some (parse_ip h))) && bool_decide (addrs = [])
  end.
Definition with_resolved_addr (p : DnsProtocol) (s : SocketAddr) : DnsProtocol :=
  match p with
  | PUdp _ => PUdp (Resolved s)
  | PTcp _ => PTcp (Resolved s)
  | PTls _ h => PTls (Resolved s) h
  | PQuic _ h => PQuic (Resolved s) h
  | PHttps _ _ _ _ | PH3 _ _ _ _ => p
  end.
Definition with_resolved_addrs (p : DnsProtocol) (addrs : list SocketAddr) : DnsProtocol :=
  match p with
  | PHttps url h port _ => PHttps url h port addrs
  | PH3 url h port _ => PH3 url h port addrs
  | _ => p
  end.

Definition show_host_port (host : str) (port : Z) : str :=
  if contains_char 58 host then [91] ++ host ++ of_string "]:" ++ show_dec port
  else host ++ [58] ++ show_dec port.
Definition show_protocol (p : DnsProtocol) : str :=
  match p with
  | PUdp a => of_string "udp://" ++ show_upstream a
  | PTcp a => of_string "tcp://" ++ show_upstream a
  | PTls a h => of_string "tls://" ++ show_host_port h (upstream_port a)
  | PHttps url _ _ _ | PH3 url _ _ _ => url
  | PQuic a h => of_string "doq://" ++ show_host_port h (upstream_port a)
  end.

(** ** Reading a configured server *)

Definition split_once (c : Z) (s : str) : option (str * str) :=
  (λ i, (take i s, drop (S i) s)) <$> find_char c s.
Definition rsplit_once (c : Z) (s : str) : option (str * str) :=
  (λ i, (take i s, drop (S i) s)) <$> rfind_char c s.
Fixpoint split_once_str (sep s : str) : option (str * str) :=
  match strip_prefix sep s with
  | Some rest => Some ([], rest)
  | None => match s with [] => None | c :: s => (λ r, (c :: r.1, r.2)) <$> split_once_str sep s end
  end.
Definition trim_end_matches (c : Z) (s : str) : str := rev (trim_start_matches c (rev s)).

Inductive HostPortError := MissingPort | InvalidHostPort (hint : string).

Definition parse_port (port : str) : string + Z :=
  match parse_u16 port with
  | Some n => inr n
  | None => inl ("invalid port '" +:+ to_string port +:+ "' — use a number from 0 to 65535")
  end.

Definition host_and_port (s : str) : HostPortError + (str * str) :=
  match strip_prefix [91] s with
  | Some bracketed =>
      match split_once 93 bracketed with
      | None => inl (InvalidHostPort "unterminated IPv6 literal")
      | Some (host, after) =>
          if bool_decide (after = []) then inl MissingPort
          else match strip_prefix [58] after with
               | None => inl (InvalidHostPort "unexpected characters after IPv6 literal")
               | Some port => inr (host, port)
               end
      end
  | None => match rsplit_once 58 s with Some hp => inr hp | None => inl MissingPort end
  end.

Definition split_host_port (s : str) : HostPortError + (str * Z) :=
  '(host, port) ← host_and_port s;
  if bool_decide (host = []) then inl (InvalidHostPort "missing host")
  else match parse_port port with
       | inr p => inr (host, p)
       | inl e => inl (InvalidHostPort e)
       end.

Definition missing_port_hint (scheme : string) (written : str) : string :=
  let '(protocol, port) :=
    if (scheme =? "tls")%string then ("DNS-over-TLS", "853")
    else if (scheme =? "doq")%string then ("DNS-over-QUIC", "853") else ("plain DNS", "53") in
  let prefix := if (scheme =? "")%string then "" else scheme +:+ "://" in
  "missing port — " +:+ protocol +:+ " usually uses " +:+ port +:+ ", e.g. " +:+ prefix
  +:+ to_string written +:+ ":" +:+ port.
Definition into_hint (e : HostPortError) (scheme : string) (rest : str) : string :=
  match e with
  | MissingPort => missing_port_hint scheme (trim_end_matches 47 rest)
  | InvalidHostPort hint => hint
  end.

Definition quic_scheme_hint (rest : str) : string :=
  let rest := trim_end_matches 47 rest in
  let port := match split_host_port rest with inl MissingPort => ":853" | _ => "" end in
  "'quic://' is not a supported scheme — write DNS-over-QUIC as doq://" +:+ to_string rest +:+ port.

Definition parse_upstream_addr (scheme : string) (rest : str) : string + UpstreamAddr :=
  match parse_socket rest with
  | Some addr => inr (Resolved addr)
  | None =>
      match split_host_port rest with
      | inl e => inl (into_hint e scheme rest)
      | inr (host, port) => inr (Unresolved host port)
      end
  end.

Definition parse_named_addr (scheme : string) (rest : str) : string + (UpstreamAddr * str) :=
  match parse_socket rest with
  | Some addr => inr (Resolved addr, show_ip (sa_ip addr))
  | None =>
      match split_host_port rest with
      | inl e => inl (into_hint e scheme rest)
      | inr (host, port) => inr (Unresolved host port, host)
      end
  end.

(** The host of a URL's authority, unbracketed, and the port if one is written. *)
Definition url_host_port (authority : str) : string + (str * option str) :=
  match strip_prefix [91] authority with
  | Some bracketed =>
      match split_once 93 bracketed with
      | None => inl "unterminated IPv6 literal"%string
      | Some (host, after) =>
          match parse_ipv6 host with
          | None => inl ("invalid IPv6 literal '" +:+ to_string host +:+ "': invalid IPv6 address syntax")
          | Some _ =>
              if bool_decide (after = []) then inr (host, None)
              else match strip_prefix [58] after with
                   | Some port => inr (host, Some port)
                   | None => inl "unexpected characters after IPv6 literal"%string
                   end
          end
      end
  | None =>
      if (1 <? length (List.filter (Z.eqb 58) authority))%nat then
        inl ("IPv6 addresses must be in brackets, e.g. [" +:+ to_string authority +:+ "]")
      else match split_once 58 authority with
           | Some (host, port) => inr (host, Some port)
           | None => inr (authority, None)
           end
  end.

Definition is_authority_end (c : Z) : bool := (c =? 47) || (c =? 63) || (c =? 35).
Definition parse_url_authority (rest : str) : string + (str * Z) :=
  let authority := default rest (head (split_at is_authority_end rest)) in
  '(host, port) ← url_host_port authority;
  if bool_decide (host = []) then inl "missing host"%string
  else
    port ← (match port with Some p => parse_port p | None => inr 443 end);
    inr (host, port).

(** A DNS name or IPv4-looking token, optionally followed by [:DIGITS]. *)
Definition host_char (b : Z) : bool := is_ascii_alphanumeric b || (b =? 46) || (b =? 45) || (b =? 95).
Definition is_host_like (s : str) : bool :=
  match rsplit_once 58 s with
  | Some (host, port) =>
      if negb (bool_decide (port = [])) && forallb is_digit port
      then negb (bool_decide (host = [])) && forallb host_char host else false
  | None => negb (bool_decide (s = [])) && forallb host_char s
  end.

Definition parse_bare (s : str) : string + DnsProtocol :=
  match parse_socket s with
  | Some addr => inr (PUdp (Resolved addr))
  | None =>
      match parse_ip s with
      | Some (V4 _) => inl (missing_port_hint "" s)
      | Some (V6 _) => inl (missing_port_hint "" ([91] ++ s ++ [93]))
      | None =>
          if is_host_like s then
            inl ("add a scheme, e.g. udp://" +:+ to_string s +:+ (if contains_char 58 s then "" else ":53")
                 +:+ " — only IP:PORT may omit it")
          else inl "unrecognized server address — use a URL such as doq://dns.adguard-dns.com:853 or IP:PORT such as 8.8.8.8:53"%string
      end
  end.

Definition SUPPORTED_SCHEMES : string := "use udp://, tcp://, tls://, doq://, https:// or h3://".

Definition parse_protocol (s : str) : string + DnsProtocol :=
  match split_once_str (of_string "://") s with
  | None => parse_bare s
  | Some (scheme, rest) =>
      if bool_decide (scheme = of_string "udp") then a ← parse_upstream_addr "udp" rest; inr (PUdp a)
      else if bool_decide (scheme = of_string "tcp") then a ← parse_upstream_addr "tcp" rest; inr (PTcp a)
      else if bool_decide (scheme = of_string "tls") then '(a, h) ← parse_named_addr "tls" rest; inr (PTls a h)
      else if bool_decide (scheme = of_string "doq") then '(a, h) ← parse_named_addr "doq" rest; inr (PQuic a h)
      else if bool_decide (scheme = of_string "h3") then '(h, p) ← parse_url_authority rest; inr (PH3 s h p [])
      else if bool_decide (scheme = of_string "https") then '(h, p) ← parse_url_authority rest; inr (PHttps s h p [])
      else if bool_decide (scheme = of_string "quic") then inl (quic_scheme_hint rest)
      else inl ("unknown scheme '" +:+ to_string scheme +:+ "://' — " +:+ SUPPORTED_SCHEMES)
  end.

Definition protocol_from_str (s : str) : DomainError + DnsProtocol :=
  match parse_protocol s with
  | inr p => inr p
  | inl hint => inl (Error.ConfigError ("Invalid server '" +:+ to_string s +:+ "': " +:+ hint))
  end.

Example ipv6_text :
  (show_ip <$> parse_ip (of_string "2001:db8:0:0:1:0:0:1") = Some (of_string "2001:db8::1:0:0:1"))
  ∧ show_ip <$> parse_ip (of_string "::FFFF:1.2.3.4") = Some (of_string "::ffff:1.2.3.4")
  ∧ show_ip <$> parse_ip (of_string "::") = Some (of_string "::")
  ∧ parse_ip (of_string "1::2::3") = None ∧ parse_ip (of_string "1.2.3.04") = None
  ∧ show_socket <$> parse_socket (of_string "[fe80::1%3]:53") = Some (of_string "[fe80::1%3]:53").
Proof. by vm_compute. Qed.

Example servers_text :
  protocol_from_str (of_string "8.8.8.8:53") = inr (PUdp (Resolved (mkSocket (V4 134744072) 53 0)))
  ∧ protocol_from_str (of_string "tls://dns.quad9.net:853")
    = inr (PTls (Unresolved (of_string "dns.quad9.net") 853) (of_string "dns.quad9.net"))
  ∧ protocol_from_str (of_string "https://[2001:db8::1]/dns-query")
    = inr (PHttps (of_string "https://[2001:db8::1]/dns-query") (of_string "2001:db8::1") 443 [])
  ∧ protocol_from_str (of_string "dns.google:53")
    = inl (Error.ConfigError "Invalid server 'dns.google:53': add a scheme, e.g. udp://dns.google:53 — only IP:PORT may omit it").
Proof. by vm_compute. Qed.
