(* ===== verification/CacheRecord.v ===== *)
(** Cache keys, data and records: [infrastructure/src/dns/cache/key.rs],
    [data.rs] and [record.rs], with [refresh_due_at] of [schedule.rs].

    A name is the list of its bytes, an instant is in seconds of the coarse
    clock, which every operation takes as [now].  A record's atomics are plain
    fields: each operation below is one atomic step of the source. *)

From S2P Require Import Prelude Net Float64 WireName FastPath WireResponse WireCache.

(** ** Keys *)

Definition is_ascii_uppercase (b : Z) : bool := (65 <=? b) && (b <=? 90).

(** The source copies the name only if it has to. *)
Definition normalize_domain (domain : bytes) : bytes :=
  if forallb (λ b, negb (is_ascii_uppercase b)) domain then domain
  else lower_byte <$> domain.

Fixpoint trim_end_dots (name : bytes) : bytes :=
  match name with
  | [] => []
  | b :: name =>
      match trim_end_dots name with
      | [] => if b =? 46 then [] else [b]
      | trimmed => b :: trimmed
      end
  end.

Definition normalize_wire_name (name : bytes) : bytes := normalize_domain (trim_end_dots name).

Record CacheKey := mkKey { k_domain : bytes; k_record_type : RecordType; k_view : Z }.

#[export] Instance CacheKey_eq_dec : EqDecision CacheKey.
Proof. solve_decision. Defined.

#[export] Instance CacheKey_countable : Countable CacheKey.
Proof.
  refine (inj_countable' (λ k, (k_domain k, k_record_type k, k_view k))
    (λ p, mkKey p.1.1 p.1.2 p.2) _).
  by intros [].
Defined.

Definition key_new (domain : bytes) (record_type : RecordType) : CacheKey :=
  mkKey (normalize_domain domain) record_type 0.
Definition from_lowercase (domain : bytes) (record_type : RecordType) : CacheKey :=
  mkKey domain record_type 0.
Definition in_view (k : CacheKey) (view : Z) : CacheKey :=
  mkKey (k_domain k) (k_record_type k) view.

Record BorrowedKey := mkBorrowed { b_domain : bytes; b_record_type : RecordType; b_view : Z }.

Definition borrowed_new (domain : bytes) (record_type : RecordType) : BorrowedKey :=
  mkBorrowed domain record_type 0.
Definition borrowed_in_view (k : BorrowedKey) (view : Z) : BorrowedKey :=
  mkBorrowed (b_domain k) (b_record_type k) view.

(** What a key feeds its hasher. *)
Inductive HashItem := HashStr (s : bytes) | HashDiscriminant (t : RecordType) | HashU32 (n : Z).

Definition hash_key (k : CacheKey) : list HashItem :=
  [HashStr (k_domain k); HashDiscriminant (k_record_type k)]
  ++ if k_view k =? 0 then [] else [HashU32 (k_view k)].
Definition hash_borrowed (k : BorrowedKey) : list HashItem :=
  [HashStr (b_domain k); HashDiscriminant (b_record_type k)]
  ++ if b_view k =? 0 then [] else [HashU32 (b_view k)].

(** ** Data *)

Inductive CachedDnssecStatus := CUnknown | CSecure | CInsecure | CBogus | CIndeterminate.

#[export] Instance CachedDnssecStatus_eq_dec : EqDecision CachedDnssecStatus.
Proof. solve_decision. Defined.

Definition dnssec_from (s : DnssecStatus) : CachedDnssecStatus :=
  match s with
  | Secure => CSecure | Insecure => CInsecure | Bogus => CBogus | Indeterminate => CIndeterminate
  end.
Definition to_domain (s : CachedDnssecStatus) : option DnssecStatus :=
  match s with
  | CUnknown => None | CSecure => Some Secure | CInsecure => Some Insecure
  | CBogus => Some Bogus | CIndeterminate => Some Indeterminate
  end.

Record CachedAddresses := mkAddresses { addresses : list IpAddr; a_cname_chain : option (list bytes) }.
Record CachedWire := mkWire { wire_bytes : bytes; w_cname_chain : option (list bytes) }.

Inductive CachedData :=
  | IpAddresses (a : CachedAddresses)
  | CanonicalName (name : bytes)
  | WireData (w : CachedWire)
  | NegativeResponse.

Definition non_empty (chain : list bytes) : option (list bytes) :=
  match chain with [] => None | _ => Some chain end.

Definition from_resolution (r : DnsResolution) : option CachedData :=
  match r_addresses r with
  | _ :: _ => Some (IpAddresses (mkAddresses (r_addresses r) (non_empty (r_cname_chain r))))
  | [] => (λ b, WireData (mkWire b (non_empty (r_cname_chain r)))) <$> upstream_wire_data r
  end.

(** [cache_form] never panics, so [returned] only forgets why it declined. *)
Definition into_stored (d : CachedData) (ttl lo hi : Z) : option CachedData :=
  match d with
  | WireData w =>
      (λ b, WireData (mkWire b (w_cname_chain w))) <$> returned (cache_form (wire_bytes w) ttl lo hi)
  | _ => Some d
  end.

Definition is_negative (d : CachedData) : bool :=
  match d with NegativeResponse => true | _ => false end.
Definition as_cached_addresses (d : CachedData) : option CachedAddresses :=
  match d with IpAddresses a => Some a | _ => None end.

(** ** Due times *)

Definition REFRESH_LEAD_SECS : Z := 60.

Definition refresh_due_at (inserted_at_secs ttl : Z) (threshold : f64) : Z :=
  let proportional := to_u64 (fmul (of_u64 ttl) (fclamp threshold f_zero f_one)) in
  let lead :=
    if REFRESH_LEAD_SECS <? ttl then Z.max (ttl - REFRESH_LEAD_SECS) ((ttl + 1) / 2) else ttl in
  inserted_at_secs + Z.max (Z.min proportional lead) 1.

(** ** Records *)

Definition FLAG_DELETED : Z := 1.
Definition FLAG_REFRESHING : Z := 2.
Definition FLAG_PERMANENT : Z := 4.
Definition FLAG_LOCAL_DNS : Z := 16.
Definition STALE_GRACE_PERIOD_MULTIPLIER : Z := 2.

Definition TIMER_LAPSED : Z := 0.
Definition TIMER_PARKED : Z := u64_max - 1.
Definition TIMER_CLAIMED : Z := u64_max.

Record HotCounters := mkCounters {
  hit_count : Z;
  last_access : Z;
  hits_at_last_refresh : Z;
  refresh_count : Z;
  refresh_timer : Z;
}.

Definition counters_new (now : Z) : HotCounters := mkCounters 0 now 0 0 TIMER_LAPSED.

Record CachedRecord := mkRecord {
  data : CachedData;
  dnssec_status : CachedDnssecStatus;
  expires_at_secs : Z;
  inserted_at_secs : Z;
  counters : HotCounters;
  ttl : Z;
  record_type : RecordType;
  flags : Z;
}.

Definition with_counters (r : CachedRecord) (c : HotCounters) : CachedRecord :=
  mkRecord (data r) (dnssec_status r) (expires_at_secs r) (inserted_at_secs r) c
    (ttl r) (record_type r) (flags r).
Definition with_flags (r : CachedRecord) (f : Z) : CachedRecord :=
  mkRecord (data r) (dnssec_status r) (expires_at_secs r) (inserted_at_secs r) (counters r)
    (ttl r) (record_type r) f.
Definition with_timer (r : CachedRecord) (t : Z) : CachedRecord :=
  let c := counters r in
  with_counters r (mkCounters (hit_count c) (last_access c) (hits_at_last_refresh c)
                     (refresh_count c) t).

Definition record_new (d : CachedData) (ttl : Z) (t : RecordType)
    (status : option CachedDnssecStatus) (now : Z) : CachedRecord :=
  mkRecord d (default CUnknown status) (now + ttl) now (counters_new now) ttl t 0.

Definition record_permanent (d : CachedData) (ttl : Z) (t : RecordType) (now : Z) : CachedRecord :=
  mkRecord d CUnknown u64_max now (counters_new now) ttl t FLAG_PERMANENT.

Definition is_permanent (r : CachedRecord) : bool := bit (flags r) FLAG_PERMANENT.
Definition with_local_dns (r : CachedRecord) : CachedRecord :=
  with_flags r (Z.lor (flags r) FLAG_LOCAL_DNS).
Definition is_local_dns (r : CachedRecord) : bool := bit (flags r) FLAG_LOCAL_DNS.

Definition remaining_ttl_at_secs (r : CachedRecord) (now : Z) : Z :=
  if is_permanent r then ttl r else wrap32 (sat_sub (expires_at_secs r) now).

Definition is_expired_at_secs (r : CachedRecord) (now : Z) : bool :=
  if is_permanent r then false else expires_at_secs r <=? now.

Definition is_stale_usable_at_secs (r : CachedRecord) (now : Z) : bool :=
  let age := sat_sub now (inserted_at_secs r) in
  let max_stale_age := ttl r * STALE_GRACE_PERIOD_MULTIPLIER in
  (expires_at_secs r <=? now) && (age <? max_stale_age).

Definition is_dead_at_secs (r : CachedRecord) (now : Z) : bool :=
  is_expired_at_secs r now && negb (is_stale_usable_at_secs r now).

Definition refresh_deadline_secs (r : CachedRecord) : Z :=
  sat_add u64_max (expires_at_secs r) (ttl r * (STALE_GRACE_PERIOD_MULTIPLIER - 1)).

Definition mark_for_deletion (r : CachedRecord) : CachedRecord :=
  with_flags r (Z.lor (flags r) FLAG_DELETED).
Definition is_marked_for_deletion (r : CachedRecord) : bool := bit (flags r) FLAG_DELETED.

(** The CAS loop, as the atomic test-and-set it amounts to. *)
Definition try_set_flag (r : CachedRecord) (mask : Z) : CachedRecord * bool :=
  if bit (flags r) mask then (r, false) else (with_flags r (Z.lor (flags r) mask), true).
Definition try_set_refreshing (r : CachedRecord) : CachedRecord * bool :=
  try_set_flag r FLAG_REFRESHING.
Definition clear_refreshing (r : CachedRecord) : CachedRecord :=
  with_flags r (Z.ldiff (flags r) FLAG_REFRESHING).
Definition is_refreshing (r : CachedRecord) : bool := bit (flags r) FLAG_REFRESHING.

(** *** The timer state *)

Definition refresh_due_at_secs (r : CachedRecord) (threshold : f64) : Z :=
  refresh_due_at (inserted_at_secs r) (ttl r) threshold.

Definition timer (r : CachedRecord) : Z := refresh_timer (counters r).
Definition set_refresh_timer (r : CachedRecord) (due_at_secs : Z) : CachedRecord :=
  with_timer r due_at_secs.
Definition lapse_refresh_timer (r : CachedRecord) : CachedRecord := with_timer r TIMER_LAPSED.
Definition is_refresh_parked (r : CachedRecord) : bool := timer r =? TIMER_PARKED.

Definition swap_refresh_timer (r : CachedRecord) (from to : Z) : CachedRecord * bool :=
  if timer r =? from then (with_timer r to, true) else (r, false).

Definition try_claim_refresh_timer (r : CachedRecord) (due_at_secs : Z) :=
  swap_refresh_timer r due_at_secs TIMER_CLAIMED.
Definition try_start_claimed_refresh (r : CachedRecord) :=
  swap_refresh_timer r TIMER_CLAIMED TIMER_LAPSED.
Definition park_claimed_refresh (r : CachedRecord) : CachedRecord :=
  (swap_refresh_timer r TIMER_CLAIMED TIMER_PARKED).1.
Definition try_reclaim_parked_refresh (r : CachedRecord) :=
  swap_refresh_timer r TIMER_PARKED TIMER_CLAIMED.
Definition try_unpark_refresh (r : CachedRecord) (due_at_secs : Z) :=
  swap_refresh_timer r TIMER_PARKED due_at_secs.
Definition try_rearm_lapsed_refresh (r : CachedRecord) (due_at_secs : Z) :=
  swap_refresh_timer r TIMER_LAPSED due_at_secs.

(** *** Hits *)

Definition hits_per_minute_since_refresh (r : CachedRecord) (now : Z) : f64 :=
  let c := counters r in
  let window_secs := Z.max (sat_sub now (inserted_at_secs r)) 1 in
  fdiv (fmul (of_u64 (sat_sub (hit_count c) (hits_at_last_refresh c))) (of_u64 60))
    (of_u64 window_secs).

Definition note_refreshed (r : CachedRecord) : CachedRecord :=
  let c := counters r in
  with_counters r (mkCounters (hit_count c) (last_access c) (hit_count c)
                     (wrap64 (refresh_count c + 1)) (refresh_timer c)).

Definition record_hits (r : CachedRecord) (count now : Z) : CachedRecord :=
  let c := counters r in
  with_counters r (mkCounters (wrap64 (hit_count c + count)) (Z.max (last_access c) now)
                     (hits_at_last_refresh c) (refresh_count c) (refresh_timer c)).
Definition record_hit (r : CachedRecord) (now : Z) : CachedRecord := record_hits r 1 now.

(** ** Lemmas *)

Lemma bit_testbit x n : 0 ≤ n → bit x (2 ^ n) = Z.testbit x n.
Proof.
  intros Hn. unfold bit. destruct (Z.testbit x n) eqn:E.
  - apply negb_true_iff, Z.eqb_neq. intros H.
    assert (Hb : Z.testbit (Z.land x (2 ^ n)) n = false) by (rewrite H; apply Z.bits_0).
    rewrite Z.land_spec, E, Z.pow2_bits_true in Hb by done. done.
  - apply negb_false_iff, Z.eqb_eq, Z.bits_inj'. intros m Hm.
    rewrite Z.land_spec, Z.bits_0, Z.pow2_bits_eqb by done.
    destruct (Z.eqb_spec n m) as [->|]; [by rewrite E|by rewrite andb_false_r].
Qed.

(** Flag [m] of a byte in which flag [n] was set or cleared. *)
Lemma bit_lor x n m : 0 ≤ n → 0 ≤ m →
  bit (Z.lor x (2 ^ n)) (2 ^ m) = (m =? n) || bit x (2 ^ m).
Proof.
  intros Hn Hm. rewrite !bit_testbit by done. rewrite Z.lor_spec, Z.pow2_bits_eqb by done.
  rewrite (Z.eqb_sym n m). apply orb_comm.
Qed.

Lemma bit_ldiff x n m : 0 ≤ n → 0 ≤ m →
  bit (Z.ldiff x (2 ^ n)) (2 ^ m) = negb (m =? n) && bit x (2 ^ m).
Proof.
  intros Hn Hm. rewrite !bit_testbit by done. rewrite Z.ldiff_spec, Z.pow2_bits_eqb by done.
  rewrite (Z.eqb_sym n m). apply andb_comm.
Qed.

Lemma flag_lor x a b : (a, b) ∈ [(1, 2); (1, 4); (1, 16); (2, 1); (2, 4); (2, 16); (16, 1); (16, 2); (16, 4)] →
  bit (Z.lor x a) b = bit x b.
Proof.
  intros H. rewrite !elem_of_cons, elem_of_nil in H.
  destruct_or! H; simplify_eq;
    [apply (bit_lor x 0 1)|apply (bit_lor x 0 2)|apply (bit_lor x 0 4)|apply (bit_lor x 1 0)
    |apply (bit_lor x 1 2)|apply (bit_lor x 1 4)|apply (bit_lor x 4 0)|apply (bit_lor x 4 1)
    |apply (bit_lor x 4 2)]; done.
Qed.

Lemma flag_set x a : a ∈ [1; 2; 4; 16] → bit (Z.lor x a) a = true.
Proof.
  intros H. rewrite !elem_of_cons, elem_of_nil in H. destruct_or! H; simplify_eq;
    [apply (bit_lor x 0 0)|apply (bit_lor x 1 1)|apply (bit_lor x 2 2)|apply (bit_lor x 4 4)]; done.
Qed.

Lemma flag_ldiff x a b : (a, b) ∈ [(2, 1); (2, 4); (2, 16)] → bit (Z.ldiff x a) b = bit x b.
Proof.
  intros H. rewrite !elem_of_cons, elem_of_nil in H. destruct_or! H; simplify_eq;
    [apply (bit_ldiff x 1 0)|apply (bit_ldiff x 1 2)|apply (bit_ldiff x 1 4)]; done.
Qed.

Ltac flags :=
  unfold is_permanent, is_marked_for_deletion, is_local_dns, is_refreshing,
    mark_for_deletion, with_local_dns, clear_refreshing, with_flags,
    FLAG_DELETED, FLAG_REFRESHING, FLAG_PERMANENT, FLAG_LOCAL_DNS in *; simpl in *;
  rewrite ?flag_lor, ?flag_ldiff, ?flag_set by set_solver.

(** Seconds the coarse clock stays below. *)
Definition clock_max : Z := 4611686018427387904.

(** A record as the cache stores it: it expires a TTL after its insertion, in
    times far from the end of the clock. *)
Definition record_ok (r : CachedRecord) : Prop :=
  is_u32 (ttl r) ∧ 0 < inserted_at_secs r ≤ clock_max ∧
  (is_permanent r = false → expires_at_secs r = inserted_at_secs r + ttl r) ∧
  (is_permanent r = true →
    expires_at_secs r = u64_max ∧ is_marked_for_deletion r = false ∧ timer r ≠ TIMER_PARKED).

Lemma deadline_eq r : record_ok r → is_permanent r = false →
  refresh_deadline_secs r = inserted_at_secs r + ttl r + ttl r.
Proof.
  intros (Ht & Hi & He & _) Hp. specialize (He Hp). unfold refresh_deadline_secs, sat_add,
    STALE_GRACE_PERIOD_MULTIPLIER. rewrite He.
  unfold clock_max in *. unfold_ints. lia.
Qed.

Lemma deadline_pos r : record_ok r → 0 < refresh_deadline_secs r.
Proof.
  intros (Ht & Hi & He & Hp). unfold refresh_deadline_secs, STALE_GRACE_PERIOD_MULTIPLIER, sat_add.
  destruct (is_permanent r); [destruct (Hp eq_refl) as [-> _]|rewrite He by done];
    unfold clock_max in *; unfold_ints; lia.
Qed.

Lemma dead_iff_deadline r now : record_ok r → is_permanent r = false →
  is_dead_at_secs r now = true ↔ refresh_deadline_secs r ≤ now.
Proof.
  intros Hok Hp. rewrite deadline_eq by done. destruct Hok as (Ht & Hi & He & _).
  specialize (He Hp). unfold is_dead_at_secs, is_expired_at_secs, is_stale_usable_at_secs,
    STALE_GRACE_PERIOD_MULTIPLIER, sat_sub. rewrite Hp, He.
  rewrite andb_true_iff, negb_true_iff, andb_false_iff, Z.leb_le, Z.leb_gt, Z.ltb_ge.
  unfold clock_max in *. unfold_ints. lia.
Qed.

Lemma permanent_never_dead r now : is_permanent r = true → is_dead_at_secs r now = false.
Proof. intros Hp. unfold is_dead_at_secs, is_expired_at_secs. by rewrite Hp. Qed.

Lemma refresh_due_at_range inserted t threshold : 0 ≤ t →
  inserted + 1 ≤ refresh_due_at inserted t threshold ≤ inserted + Z.max 1 t.
Proof.
  intros Ht. unfold refresh_due_at, REFRESH_LEAD_SECS. cbv zeta.
  pose proof (to_u64_range (fmul (of_u64 t) (fclamp threshold f_zero f_one))) as Hr.
  destruct (60 <? t) eqn:E; boolify; unfold_ints; [|lia].
  assert ((t + 1) / 2 ≤ t) by zdiv. lia.
Qed.

(** ** Properties *)

(** An entry lives through exactly three stages, which split time at its
    expiry and at its refresh deadline: until it expires it is fresh, and
    reports what is left of its TTL, a number between 1 and that TTL; then for
    one more TTL it is served stale; from the deadline on it is dead.  A
    permanent entry is fresh for good and reports its configured TTL. *)
Theorem record_lifecycle (r : CachedRecord) (now : Z) :
  record_ok r → inserted_at_secs r ≤ now ≤ clock_max →
  if is_permanent r then
    is_expired_at_secs r now = false ∧ is_stale_usable_at_secs r now = false ∧
    is_dead_at_secs r now = false ∧ remaining_ttl_at_secs r now = ttl r
  else
    let expiry := inserted_at_secs r + ttl r in
    let deadline := refresh_deadline_secs r in
    deadline = expiry + ttl r ∧
    (is_expired_at_secs r now = false ↔ now < expiry) ∧
    (is_stale_usable_at_secs r now = true ↔ expiry ≤ now < deadline) ∧
    (is_dead_at_secs r now = true ↔ deadline ≤ now) ∧
    remaining_ttl_at_secs r now = Z.max 0 (expiry - now) ∧
    (now < expiry → 1 ≤ remaining_ttl_at_secs r now ≤ ttl r).
Proof.
  intros Hok Hnow. pose proof Hok as (Ht & Hi & He & Hp).
  destruct (is_permanent r) eqn:E.
  - destruct (Hp eq_refl) as (Hx & _). unfold is_expired_at_secs, is_stale_usable_at_secs,
      remaining_ttl_at_secs. rewrite permanent_never_dead by done. rewrite E, Hx.
    rewrite (proj2 (Z.leb_gt _ _)) by (unfold clock_max in *; unfold_ints; lia). done.
  - specialize (He eq_refl). cbv zeta. rewrite dead_iff_deadline by done.
    rewrite deadline_eq by done.
    assert (Hrem : remaining_ttl_at_secs r now = Z.max 0 (inserted_at_secs r + ttl r - now)).
    { unfold remaining_ttl_at_secs, wrap32, sat_sub. rewrite E, He. apply Z.mod_small.
      unfold clock_max in *. unfold_ints. lia. }
    rewrite Hrem. unfold is_expired_at_secs, is_stale_usable_at_secs,
      STALE_GRACE_PERIOD_MULTIPLIER, sat_sub. rewrite E, He.
    rewrite andb_true_iff, Z.leb_le, Z.leb_gt, Z.ltb_lt. unfold clock_max in *. unfold_ints. lia.
Qed.

Definition demo_record : CachedRecord := record_new (CanonicalName [97]) 300 CNAME None 1000.

Lemma record_lifecycle_witness :
  is_permanent demo_record = false ∧
  (is_stale_usable_at_secs demo_record 1400 = true ↔ 1300 ≤ 1400 < 1600) ∧
  (is_dead_at_secs demo_record 1400 = true ↔ 1600 ≤ 1400).
Proof.
  assert (H : record_ok demo_record).
  { unfold record_ok. split_and!; try done; unfold_ints; simpl; lia. }
  pose proof (record_lifecycle demo_record 1400 H ltac:(vm_compute; split; discriminate)) as HL.
  split; [reflexivity|]. exact (conj (proj1 (proj2 (proj2 HL))) (proj1 (proj2 (proj2 (proj2 HL))))).
Defined.

(** Whatever the configured threshold is (even a NaN), an entry's renewal
    falls due after the second it was inserted and no later than its TTL (a TTL
    of 0 counting as 1); with a TTL above the lead it is due at the latest
    [REFRESH_LEAD_SECS] before expiry, but never because of that lead before
    half of its TTL. *)
Theorem refresh_due_at_bounds (inserted t : Z) (threshold : f64) :
  0 ≤ t →
  let due := refresh_due_at inserted t threshold in
  inserted + 1 ≤ due ≤ inserted + Z.max 1 t ∧
  (REFRESH_LEAD_SECS < t →
   due ≤ inserted + Z.max (t - REFRESH_LEAD_SECS) ((t + 1) / 2)) ∧
  (t ≤ to_u64 (fmul (of_u64 t) (fclamp threshold f_zero f_one)) →
   inserted + (t + 1) / 2 ≤ due).
Proof.
  intros Ht due. split; [by apply refresh_due_at_range|].
  subst due. unfold refresh_due_at, REFRESH_LEAD_SECS. cbv zeta.
  destruct (60 <? t) eqn:E; boolify.
  - assert ((t + 1) / 2 ≤ t) by zdiv. split; [intros; lia|]. intros. lia.
  - split; [lia|]. intros. assert ((t + 1) / 2 ≤ Z.max t 1) by zdiv. lia.
Qed.

Lemma refresh_due_at_bounds_witness :
  let threshold := fdiv (of_u64 3) (of_u64 4) in
  refresh_due_at 1000 300 threshold = 1225 ∧ refresh_due_at 1000 300 S754_nan = 1001 ∧
  let due := refresh_due_at 1000 300 threshold in
  1000 + 1 ≤ due ≤ 1000 + Z.max 1 300.
Proof.
  intros threshold. split; [vm_compute; reflexivity|]. split; [vm_compute; reflexivity|].
  exact (proj1 (refresh_due_at_bounds 1000 300 threshold ltac:(lia))).
Defined.
