(* ===== verification/Forwarding.v ===== *)
(** Queries to upstream servers and the check of their answers:
    [infrastructure/src/dns/forwarding/] ([message_builder.rs],
    [record_type_map.rs], [response_parser.rs], [response_validator.rs],
    [forwarder.rs]).

    Messages and names parsed by [hickory_proto] are the values of the class
    [Hickory]; the random bytes of a query are arguments. *)

From Stdlib Require Import String.
From stdpp Require Import pretty.
From S2P Require Import Prelude Errors Text Net FastPath WireName CacheRecord Protocol.

#[local] Set Default Proof Using "Type".

(** ** Messages of [hickory_proto] *)

Inductive ResponseCode :=
  | RcNoError | RcFormErr | RcServFail | RcNXDomain | RcNotImp | RcRefused | RcOther (code : Z).

#[export] Instance ResponseCode_eq_dec : EqDecision ResponseCode.
Proof. solve_decision. Defined.

Abbreviation HName := (list bytes).

(** What an RRSIG says of the signature, and the data of an NSEC3. *)
Record SigInput := mkSigInput {
  type_covered : Z; sig_algorithm : Z; sig_labels : Z; sig_original_ttl : Z; sig_expiration : Z;
  sig_inception : Z; sig_key_tag : Z; signer_name : HName;
}.
Record Nsec3Data := mkNsec3Data {
  n3_algorithm : Z; n3_opt_out : bool; n3_iterations : Z; n3_salt : bytes;
  n3_next : bytes; n3_next_label : option bytes; n3_types : list Z;
}.

Inductive RData :=
  | RdA (a : Z) | RdAAAA (a : Z) | RdCNAME (n : HName) | RdSOA (minimum : Z) | RdPTR (n : HName)
  | RdDS (key_tag algorithm digest_type : Z) (digest : bytes)
  | RdDNSKEY (flags algorithm : Z) (public_key : bytes)
  | RdRRSIG (input : SigInput) (sig : bytes)
  | RdNSEC (next : HName) (types : list Z)
  | RdNSEC3 (data : Nsec3Data)
  | RdOther (code : Z).
Record HRecord := mkRecord { hr_name : HName; hr_ttl : Z; hr_data : RData }.
Inductive EdnsOption := EdnsUnknown (code : Z) (data : bytes) | EdnsOther.

Record Message := mkMessage {
  m_id : Z; response_code : ResponseCode; truncation : bool;
  queries : list (HName * Z);
  answers : list HRecord; authorities : list HRecord; additionals : list HRecord;
  m_edns : option (list EdnsOption);
}.

(** What the code asks of the library, with the texts of its errors and types.
    A parsed name has labels of 1 to 63 bytes. *)
Class Hickory := {
  message_from_vec : bytes → string + Message;
  name_from_str : str → string + HName;
  name_to_utf8 : HName → str;
  type_debug : Z → string;
}.

(** ** Record types *)

(** [RecordTypeMapper], the library's types as their codes. *)
Definition to_hickory (t : RecordType) : Z :=
  match t with
  | A => 1 | AAAA => 28 | CNAME => 5 | MX => 15 | TXT => 16 | PTR => 12
  | SRV => 33 | SOA => 6 | NS => 2 | NAPTR => 35 | DS => 43 | DNSKEY => 48 | SVCB => 64 | HTTPS => 65
  | CAA => 257 | TLSA => 52 | SSHFP => 44 | DNAME => 39
  | RRSIG => 46 | NSEC => 47 | NSEC3 => 50 | NSEC3PARAM => 51
  | CDS => 59 | CDNSKEY => 60 | OPT => 41 | NULL => 10 | HINFO => 13 | WKS => 11
  | IPSECKEY => 45 | OPENPGPKEY => 61 | ZONEMD => 63 | ANAME => 65305
  end.
Definition HICKORY_TYPES : list RecordType :=
  [A; AAAA; CNAME; MX; TXT; PTR; SRV; SOA; NS; NAPTR; DS; DNSKEY; SVCB; HTTPS; CAA; TLSA; SSHFP;
   DNAME; RRSIG; NSEC; NSEC3; NSEC3PARAM; CDS; CDNSKEY; OPT; NULL; HINFO; WKS; IPSECKEY; ZONEMD;
   OPENPGPKEY; ANAME].
Definition from_hickory (code : Z) : option RecordType :=
  find (λ t, to_hickory t =? code) HICKORY_TYPES.

(** ** Responses *)

Record DnsResponse := mkResponse {
  resp_addresses : list IpAddr; resp_cname_chain : list str; rcode : ResponseCode; truncated : bool;
  resp_min_ttl : option Z; resp_negative_soa_ttl : option Z; message : Message; raw_bytes : bytes;
}.

Definition resp_is_nxdomain (r : DnsResponse) : bool := bool_decide (rcode r = RcNXDomain).
Definition is_server_error (r : DnsResponse) : bool :=
  match rcode r with RcServFail | RcRefused | RcNotImp => true | _ => false end.
Definition is_answer (r : DnsResponse) : bool :=
  match rcode r with RcNoError | RcNXDomain => true | _ => false end.

Definition rcode_to_status (c : ResponseCode) : string :=
  match c with
  | RcNoError => "NOERROR" | RcNXDomain => "NXDOMAIN" | RcServFail => "SERVFAIL"
  | RcRefused => "REFUSED" | RcNotImp => "NOTIMP" | RcFormErr => "FORMERR" | RcOther _ => "UNKNOWN"
  end.

Definition is_transport_error (e : DomainError) : bool :=
  match e with
  | Error.TransportTimeout _ | Error.TransportConnectionRefused _ | Error.TransportConnectionReset _
  | Error.TransportNoHealthyServers | Error.TransportAllServersUnreachable
  | Error.SpoofedResponse _ _ | Error.IoError _ => true
  | _ => false
  end.

Section forwarding.
Context `{Hickory}.

Definition read_record (acc : list IpAddr * list str * option Z) (r : HRecord)
    : list IpAddr * list str * option Z :=
  let '(addresses, chain, min_ttl) := acc in
  let min_ttl := Some (match min_ttl with Some current => Z.min current (hr_ttl r) | None => hr_ttl r end) in
  match hr_data r with
  | RdA a => (addresses ++ [V4 a], chain, min_ttl)
  | RdAAAA a => (addresses ++ [V6 a], chain, min_ttl)
  | RdCNAME n => (addresses, chain ++ [normalize_wire_name (name_to_utf8 n)], min_ttl)
  | _ => (addresses, chain, min_ttl)
  end.

Definition soa_ttl (r : HRecord) : option Z :=
  match hr_data r with RdSOA minimum => Some (Z.min minimum (hr_ttl r)) | _ => None end.

Definition parse_bytes (wire : bytes) : DomainError + DnsResponse :=
  match message_from_vec wire with
  | inl e => inl (Error.InvalidDnsResponse ("Failed to parse DNS response: " +:+ e))
  | inr m =>
      let '(addresses, chain, min_ttl) := foldl read_record ([], [], None) (answers m) in
      inr (mkResponse addresses chain (response_code m) (truncation m) min_ttl
             (head (omap soa_ttl (authorities m))) m wire)
  end.

(** ** Queries *)

Definition CLIENT_COOKIE_LEN : nat := 8.
Definition MAX_QNAME_LEN : nat := 255.
Definition EDNS_MAX_PAYLOAD : Z := 1232.

Record HardeningOpts := mkHardening { opt_cookie : bool; opt_qname_0x20 : bool }.

(** A [QName] is what its buffer holds. *)
Definition bad_label {A} : DomainError + A :=
  inl (Error.InvalidDomainName "label empty, over 63 bytes, or name over 255 bytes").
Definition push_label (q label : bytes) : DomainError + bytes :=
  let end_ := (length q + 1 + length label)%nat in
  if bool_decide (label = []) || (63 <? length label)%nat || (MAX_QNAME_LEN <=? end_)%nat then bad_label
  else inr (q ++ Z.of_nat (length label) :: label).
Definition finish (q : bytes) : DomainError + bytes :=
  if (MAX_QNAME_LEN <=? length q)%nat then inl (Error.InvalidDomainName "name over 255 bytes")
  else inr (q ++ [0]).

Definition query_char (b : Z) : bool := is_ascii_alphanumeric b || (b =? 45) || (b =? 95) || (b =? 42).
Definition plain_query_label (label : str) : bool :=
  negb (bool_decide (label = [])) && forallb query_char label.

Definition or_none {E A} (r : E + A) : option A := match r with inr a => Some a | inl _ => None end.

Definition encode_plain (domain : str) : option bytes :=
  let trimmed := default domain (strip_suffix domain [46]) in
  let pushed : option bytes :=
    if bool_decide (trimmed = []) then Some []
    else if forallb plain_query_label (split 46 trimmed)
    then or_none (fold_try push_label [] (split 46 trimmed)) else None in
  match pushed with
  | Some q => (λ q : bytes, lower_byte <$> q) <$> or_none (finish q)
  | None => None
  end.

Definition qname_encode (domain : str) : DomainError + bytes :=
  match encode_plain domain with
  | Some q => inr q
  | None =>
      match name_from_str domain with
      | inl e =>
          inl (Error.InvalidDomainName ("Invalid domain '" +:+ to_string domain +:+ "': " +:+ e))
      | inr labels => q ← fold_try push_label [] labels; finish q
      end
  end.

Definition is_ascii_alphabetic (b : Z) : bool :=
  ((65 <=? b) && (b <=? 90)) || ((97 <=? b) && (b <=? 122)).

(** [bits] are 32 random bytes. *)
Definition flip_case (bits : bytes) (i : nat) (b : Z) : Z :=
  if is_ascii_alphabetic b && Z.testbit (nth (i / 8) bits 0) (Z.of_nat (i mod 8))
  then Z.lxor b 0x20 else b.
Definition randomize_case (bits : bytes) (q : bytes) : bytes := imap (flip_case bits) q.

Definition assemble_query (id : Z) (qname : bytes) (qtype : Z) (dnssec_ok : bool) (cookie : option bytes)
    : bytes :=
  let options_len := match cookie with Some c => (4 + length c)%nat | None => 0%nat end in
  u16_be id ++ [1; 0; 0; 1; 0; 0; 0; 0; 0; 1] ++ qname ++ u16_be qtype ++ u16_be 1
  ++ [0; 0; 41] ++ u16_be EDNS_MAX_PAYLOAD ++ [0; 0; (if dnssec_ok then 128 else 0); 0]
  ++ u16_be (Z.of_nat options_len)
  ++ match cookie with
     | Some c => u16_be COOKIE_OPTION_CODE ++ u16_be (Z.of_nat (length c)) ++ c
     | None => []
     end.

(** [id] is drawn at random. *)
Definition build_query (id : Z) (domain : str) (t : RecordType) (dnssec_ok : bool) : DomainError + bytes :=
  qname ← qname_encode domain;
  inr (assemble_query id qname (to_hickory t) dnssec_ok None).

Record ResponseValidator := mkValidator {
  v_id : Z; expected_qname : bytes; expected_qtype : Z; client_cookie : option bytes;
  case_sensitive : bool;
}.

(** The secrets are 2 + 8 random bytes, the bits those of the name's case. *)
Definition build_query_hardened (secrets bits : bytes) (domain : str) (t : RecordType) (dnssec_ok : bool)
    (opts : HardeningOpts) : DomainError + (bytes * ResponseValidator) :=
  qname ← qname_encode domain;
  let qname := if opt_qname_0x20 opts then randomize_case bits qname else qname in
  let id := be16 (nth 0 secrets 0) (nth 1 secrets 0) in
  let cookie := if opt_cookie opts then Some (drop 2 secrets) else None in
  inr (assemble_query id qname (to_hickory t) dnssec_ok cookie,
       mkValidator id qname (to_hickory t) cookie (opt_qname_0x20 opts)).

(** ** The check of a response *)

Definition is_do53 (p : DnsProtocol) : bool :=
  match p with PUdp _ | PTcp _ => true | _ => false end.

Definition spoof {A} (p : DnsProtocol) (reason : string) : DomainError + A :=
  inl (Error.SpoofedResponse (to_string (show_protocol p)) reason).

Fixpoint labels_match (eq : bytes → bytes → bool) (got : HName) (want : bytes) : bool :=
  match got with
  | [] => bool_decide (want = [0])
  | label :: got =>
      match want with
      | [] => false
      | len :: rest =>
          match slice rest 0 (Z.to_nat len) with
          | Some w => negb (len =? 0) && eq label w && labels_match eq got (drop (Z.to_nat len) rest)
          | None => false
          end
      end
  end.

Definition qname_matches (v : ResponseValidator) (name : HName) (p : DnsProtocol) : bool :=
  let exact := case_sensitive v && is_do53 p in
  labels_match (if exact then λ a b, bool_decide (a = b) else eq_ignore_case) name (expected_qname v).

Definition cookie_data (o : EdnsOption) : option bytes :=
  match o with EdnsUnknown code data => if code =? COOKIE_OPTION_CODE then Some data else None
             | EdnsOther => None end.
Definition extract_cookie (options : list EdnsOption) : option bytes := head (omap cookie_data options).

Definition validate_cookie (msg : Message) (p : DnsProtocol) (expected : bytes) : DomainError + unit :=
  match m_edns msg ≫= extract_cookie with
  | None => inr ()
  | Some data =>
      if (length data <? CLIENT_COOKIE_LEN)%nat then
        spoof p ("malformed cookie option (" +:+ pretty (length data) +:+ " bytes)")
      else if bool_decide (take CLIENT_COOKIE_LEN data = expected) then inr ()
      else spoof p "client cookie echo mismatch"
  end.

(** [{:#06x}]. *)
Definition hex4 (n : Z) : string :=
  to_string (of_string "0x" ++ ((λ k, hex_digit (n / k mod 16)) <$> [4096; 256; 16; 1])).

Definition validate (v : ResponseValidator) (resp : DnsResponse) (p : DnsProtocol) : DomainError + unit :=
  let msg := message resp in
  if negb (m_id msg =? v_id v) then
    spoof p ("transaction ID mismatch: expected " +:+ hex4 (v_id v) +:+ ", got " +:+ hex4 (m_id msg))
  else
    match queries msg with
    | [] => spoof p "response has no question section"
    | (name, qtype) :: _ =>
        if negb (qtype =? expected_qtype v) then
          spoof p ("question type mismatch: expected " +:+ type_debug (expected_qtype v) +:+ ", got "
                   +:+ type_debug qtype)
        else if negb (qname_matches v name p) then spoof p "question name mismatch"
        else match client_cookie v with
             | Some expected => if is_do53 p then validate_cookie msg p expected else inr ()
             | None => inr ()
             end
    end.

End forwarding.

(** ** Case *)

(** The library's [Name::to_lowercase]. *)
Definition name_to_lowercase (n : HName) : HName := map (map lower_byte) n.

(** A 16-bit field, if the message reaches that far. *)
Definition count (wire : bytes) (at_ : nat) : outcome Z :=
  hi ← get wire at_; lo ← get wire (at_ + 1); Ret (be16 hi lo).

(** One name of a message: the ranges of its labels, and where it ends. *)
Fixpoint walk_name_go (fuel : nat) (wire : bytes) (pos : nat) (labels : list (nat * nat))
    : outcome (nat * list (nat * nat)) :=
  match fuel with
  | O => Crash OutOfFuel
  | S fuel =>
      len ← get wire pos;
      if len =? 0 then Ret (S pos, labels)
      else if Z.land len 0xC0 =? 0xC0 then _ ← get wire (pos + 1); Ret ((pos + 2)%nat, labels)
      else if negb (Z.land len 0xC0 =? 0) then Decline
      else
        let start := (pos + 1)%nat in
        let end_ := (pos + 1 + Z.to_nat len)%nat in
        if (length wire <? end_)%nat then Decline
        else walk_name_go fuel wire end_ (labels ++ [(start, end_)])
  end.
Definition walk_name (wire : bytes) (pos : nat) (labels : list (nat * nat)) : outcome (nat * list (nat * nat)) :=
  walk_name_go (S (length wire)) wire pos labels.

Fixpoint walk_questions (n : nat) (wire : bytes) (pos : nat) (labels : list (nat * nat))
    : outcome (nat * list (nat * nat)) :=
  match n with
  | O => Ret (pos, labels)
  | S n => '(pos, labels) ← walk_name wire pos labels; walk_questions n wire (pos + 4) labels
  end.

Fixpoint walk_records (n : nat) (wire : bytes) (pos : nat) (labels : list (nat * nat))
    : outcome (nat * list (nat * nat)) :=
  match n with
  | O => Ret (pos, labels)
  | S n =>
      '(pos, labels) ← walk_name wire pos labels;
      rdlength ← count wire (pos + 8);
      walk_records n wire (pos + 8 + 2 + Z.to_nat rdlength) labels
  end.

Definition owner_labels (wire : bytes) : outcome (nat * list (nat * nat)) :=
  qdcount ← count wire 4;
  ancount ← count wire 6;
  nscount ← count wire 8;
  arcount ← count wire 10;
  '(pos, labels) ← walk_questions (Z.to_nat qdcount) wire 12 [];
  walk_records (Z.to_nat (ancount + nscount + arcount)) wire pos labels.

Definition has_upper (s : bytes) : bool := existsb is_ascii_uppercase s.

Fixpoint any_upper (wire : bytes) (labels : list (nat * nat)) : outcome bool :=
  match labels with
  | [] => Ret false
  | (s, e) :: labels =>
      l ← index_range wire s e;
      if has_upper l then Ret true else any_upper wire labels
  end.

Fixpoint lower_ranges (wire : bytes) (labels : list (nat * nat)) : outcome bytes :=
  match labels with
  | [] => Ret wire
  | (s, e) :: labels =>
      l ← index_range wire s e;
      lower_ranges (splice s (lower_byte <$> l) wire) labels
  end.

Definition lowercase_owner_names (wire : bytes) : outcome bytes :=
  '(pos, labels) ← owner_labels wire;
  if (length wire <? pos)%nat then Decline
  else
    upper ← any_upper wire labels;
    if upper : bool then lower_ranges wire labels else Decline.

Definition lower_owner (r : HRecord) : HRecord := mkRecord (name_to_lowercase (hr_name r)) (hr_ttl r) (hr_data r).

(** It is the caller's [?] that an unreadable message leaves the bytes alone. *)
Definition canonicalize (v : ResponseValidator) (resp : DnsResponse) : DnsResponse :=
  if negb (case_sensitive v) then resp
  else
    let m := message resp in
    mkResponse (resp_addresses resp) (resp_cname_chain resp) (rcode resp) (truncated resp)
      (resp_min_ttl resp) (resp_negative_soa_ttl resp)
      (mkMessage (m_id m) (response_code m) (truncation m)
         ((λ q : HName * Z, (name_to_lowercase q.1, q.2)) <$> queries m)
         (lower_owner <$> answers m) (lower_owner <$> authorities m) (lower_owner <$> additionals m)
         (m_edns m))
      (match lowercase_owner_names (raw_bytes resp) with Ret b => b | _ => raw_bytes resp end).

(** ** One round trip

    A transport is what a server sends back within a time, or an error, and how
    long that took; [remaining] is what a retry is left with. *)

Section exchange.
Context `{Hickory}.
Context (send : DnsProtocol → bytes → Z → DomainError + bytes).

Definition exchange (p : DnsProtocol) (query : bytes) (v : ResponseValidator) (timeout : Z)
    : DomainError + DnsResponse :=
  reply ← send p query timeout;
  response ← parse_bytes reply;
  _ ← validate v response p;
  inr (canonicalize v response).

Definition TC_RETRY_FLOOR : Z := 500.
Definition retry_budget (timeout spent : Z) : Z := if spent <=? timeout then timeout - spent else TC_RETRY_FLOOR.

Definition exchange_with_tc_retry (p : DnsProtocol) (query : bytes) (v : ResponseValidator)
    (timeout spent : Z) : DomainError + (DnsResponse * bool) :=
  response ← exchange p query v timeout;
  match p with
  | PUdp addr =>
      if negb (truncated response) then inr (response, false)
      else
        response ← exchange (PTcp addr) query v (retry_budget timeout spent);
        inr (response, true)
  | _ => inr (response, false)
  end.

(** [DnsForwarder::query]. *)
Definition forwarder_query (hardening : HardeningOpts) (secrets bits : bytes) (server : SocketAddr)
    (domain : str) (t : RecordType) (timeout spent : Z) : DomainError + DnsResponse :=
  '(query, v) ← build_query_hardened secrets bits domain t false hardening;
  '(response, _) ← exchange_with_tc_retry (PUdp (Resolved server)) query v timeout spent;
  inr response.

End exchange.
