(* ===== verification/ForwardCheck.v ===== *)
(** What a validated answer echoes, and what lowercasing an answer's owner names
    changes. *)

From Stdlib Require Import String.
From S2P Require Import Prelude Errors Text Net FastPath WireName CacheRecord Protocol Forwarding.

#[local] Set Default Proof Using "Type".

(** ** Record types *)

(** The mapping agrees with the domain's own codes. *)
Lemma to_hickory_code t : to_hickory t = to_u16 t.
Proof. by destruct t; vm_compute. Qed.

Lemma from_hickory_to t : from_hickory (to_hickory t) = Some t.
Proof. by destruct t; vm_compute. Qed.

(** ** Names sent *)

(** A name of labels of 1 to 63 bytes. *)
Definition labels_ok (labels : list bytes) : Prop :=
  Forall (λ l, (1 ≤ length l ≤ 63)%nat) labels.

Lemma push_label_inr q l q' : push_label q l = inr q' →
  (1 ≤ length l ≤ 63)%nat ∧ q' = q ++ Z.of_nat (length l) :: l.
Proof.
  unfold push_label. destruct (bool_decide (l = [])) eqn:E1; [done|].
  destruct (Nat.ltb_spec 63 (length l)); [done|]. cbn [orb].
  destruct (_ <=? _)%nat; [done|]. intros [= <-]. apply bool_decide_eq_false in E1.
  split; [|done]. destruct l; [done|]. cbn in *. lia.
Qed.

Lemma push_labels_inr labels q q' : fold_try push_label q labels = inr q' →
  labels_ok labels ∧ q' ++ [0] = q ++ wire_name labels.
Proof.
  revert q. induction labels as [|l labels IH]; intros q; cbn [fold_try].
  { intros [= <-]. split; [constructor|done]. }
  rewrite sum_bind_inr. intros (q1 & [Hl ->]%push_label_inr & [Hls E]%IH).
  split; [by constructor|]. rewrite E. cbn [wire_name]. by rewrite <-app_assoc.
Qed.

Lemma finish_inr q q' : finish q = inr q' → q' = q ++ [0].
Proof. unfold finish. destruct (_ <=? _)%nat; [done|]. by intros [= <-]. Qed.

Lemma lower_wire_name labels : labels_ok labels →
  lower_byte <$> wire_name labels = wire_name (map (map lower_byte) labels).
Proof.
  induction 1 as [|l labels Hl _ IH]; [done|]. cbn [wire_name map]. rewrite fmap_cons, fmap_app, IH.
  rewrite length_map. f_equal. unfold lower_byte.
  destruct (Z.leb_spec 65 (Z.of_nat (length l))); [lia|done].
Qed.

Lemma flip_case_small bits i b : 0 ≤ b ≤ 63 → flip_case bits i b = b.
Proof.
  intros Hb. unfold flip_case, is_ascii_alphabetic.
  destruct (Z.leb_spec 65 b); [lia|]. destruct (Z.leb_spec 97 b); [lia|]. done.
Qed.

Lemma imap_wire_name labels (f : nat → Z → Z) : (∀ i b, 0 ≤ b ≤ 63 → f i b = b) → labels_ok labels →
  ∃ labels', labels_ok labels' ∧ imap f (wire_name labels) = wire_name labels'.
Proof.
  revert f. induction labels as [|l labels IH]; intros f Hf Hl.
  { exists []. split; [constructor|]. cbn. by rewrite Hf. }
  inversion_clear Hl as [|? ? Hl1 Hls]. cbn [wire_name]. rewrite imap_cons, imap_app.
  destruct (IH ((f ∘ S) ∘ Nat.add (length l))) as (ls' & Hls' & E); [|done|].
  { intros i b Hb. by apply Hf. }
  exists (imap (f ∘ S) l :: ls'). split; [constructor; [by rewrite length_imap|done]|].
  cbn [wire_name]. rewrite length_imap, Hf by lia. f_equal. f_equal. exact E.
Qed.

Lemma randomized_wire_name bits labels : labels_ok labels →
  ∃ labels', labels_ok labels' ∧ randomize_case bits (wire_name labels) = wire_name labels'.
Proof. apply imap_wire_name. intros. by apply flip_case_small. Qed.

(** ** Names compared *)

Lemma labels_match_spec eq got want : labels_ok want →
  labels_match eq got (wire_name want) = true ↔ Forall2 (λ g w, eq g w = true) got want.
Proof.
  revert want. induction got as [|g got IH]; intros want Hw; cbn [labels_match].
  - rewrite bool_decide_eq_true. destruct want as [|w want]; cbn [wire_name].
    + split; [constructor|done].
    + inversion_clear Hw as [|? ? Hl _]. split; [|by inversion 1]. intros [= E1 E2]. lia.
  - destruct want as [|w want]; cbn [wire_name].
    + change (Z.to_nat 0) with 0%nat. cbn. split; [done|by inversion 1].
    + inversion_clear Hw as [|? ? Hl Hw']. rewrite Nat2Z.id.
      replace (slice (w ++ wire_name want) 0 (length w)) with (Some w); last first.
      { symmetry. apply slice_Some. rewrite drop_0, Nat.sub_0_r, take_app_length, length_app. split; [lia|done]. }
      rewrite drop_app_length. destruct (Z.eqb_spec (Z.of_nat (length w)) 0); [lia|]. cbn [negb andb].
      rewrite andb_true_iff, (IH want Hw'). split.
      * intros [? ?]. by constructor.
      * by inversion_clear 1.
Qed.

Section sent.
Context `{Hickory}.

(** Whichever way a name is encoded, it is labels on the wire. *)
Lemma qname_encode_inr domain q : qname_encode domain = inr q →
  ∃ labels, labels_ok labels ∧ q = wire_name labels.
Proof.
  unfold qname_encode. destruct (encode_plain domain) as [q0|] eqn:E.
  - intros [= <-]. unfold encode_plain in E.
    set (trimmed := default domain (strip_suffix domain [46])) in E.
    assert (Hp : ∃ ls q1, labels_ok ls ∧ finish q1 = inr (q1 ++ [0]) ∧ q1 ++ [0] = wire_name ls
                        ∧ q0 = lower_byte <$> (q1 ++ [0])).
    { destruct (bool_decide (trimmed = [])).
      - cbn in E. injection E as <-. exists [], []. split_and!; [constructor|done..].
      - destruct (forallb _ _); [|done]. destruct (fold_try push_label [] _) as [e|q1] eqn:F; [done|].
        apply push_labels_inr in F as [Hls Hq]. cbn [or_none] in E.
        destruct (finish q1) as [e|q2] eqn:G; [done|]. pose proof (finish_inr _ _ G) as ->.
        cbn in E. injection E as <-. by exists (split 46 trimmed), q1. }
    destruct Hp as (ls & q1 & Hls & _ & Hw & ->). exists (map (map lower_byte) ls).
    rewrite Hw, lower_wire_name by done. split; [|done].
    apply Forall_map. eapply Forall_impl; [exact Hls|]. intros l Hl. cbn. by rewrite length_map.
  - destruct (name_from_str domain) as [e|labels]; [done|]. rewrite sum_bind_inr.
    intros (q1 & F & ->%finish_inr). apply push_labels_inr in F as [Hls E'].
    exists labels. by rewrite E'.
Qed.

(** ** Answers accepted *)

(** The question a response repeats: exactly what was sent where the case was drawn at random
    and the transport is not encrypted, up to case elsewhere. *)
Definition same_label (exact : bool) (got sent : bytes) : Prop :=
  if exact then got = sent else eq_ignore_case got sent = true.
Definition echoes_question (exact : bool) (sent : HName) (qtype : Z) (m : Message) : Prop :=
  ∃ name rest, queries m = (name, qtype) :: rest ∧ Forall2 (same_label exact) name sent.
Definition echoes_cookie (cookie : bytes) (m : Message) : Prop :=
  match m_edns m ≫= extract_cookie with
  | None => True
  | Some data => (CLIENT_COOKIE_LEN ≤ length data)%nat ∧ take CLIENT_COOKIE_LEN data = cookie
  end.

Lemma qname_matches_spec v name sent p : labels_ok sent → expected_qname v = wire_name sent →
  qname_matches v name p = true ↔ Forall2 (same_label (case_sensitive v && is_do53 p)) name sent.
Proof.
  intros Hs Hv. unfold qname_matches. rewrite Hv, labels_match_spec by done.
  unfold same_label. destruct (case_sensitive v && is_do53 p); [|done].
  split; intros Hf; (eapply Forall2_impl; [exact Hf|]); cbn; intros a b; by rewrite bool_decide_eq_true.
Qed.

Lemma validate_cookie_spec m p cookie : validate_cookie m p cookie = inr () ↔ echoes_cookie cookie m.
Proof.
  unfold validate_cookie, echoes_cookie, spoof. destruct (m_edns m ≫= extract_cookie) as [data|]; [|done].
  destruct (Nat.ltb_spec (length data) CLIENT_COOKIE_LEN).
  - split; [done|lia].
  - destruct (bool_decide _) eqn:E.
    + apply bool_decide_eq_true in E. done.
    + apply bool_decide_eq_false in E. naive_solver.
Qed.

Lemma validate_spec v resp p sent : labels_ok sent → expected_qname v = wire_name sent →
  validate v resp p = inr () ↔
  m_id (message resp) = v_id v
  ∧ echoes_question (case_sensitive v && is_do53 p) sent (expected_qtype v) (message resp)
  ∧ ∀ cookie, client_cookie v = Some cookie → is_do53 p = true → echoes_cookie cookie (message resp).
Proof.
  intros Hs Hv. unfold validate, echoes_question, spoof.
  destruct (Z.eqb_spec (m_id (message resp)) (v_id v)) as [->|]; cbn [negb]; [|naive_solver].
  destruct (queries (message resp)) as [|[name qtype] rest]; [naive_solver|].
  destruct (Z.eqb_spec qtype (expected_qtype v)) as [->|]; cbn [negb]; [|naive_solver].
  destruct (qname_matches v name p) eqn:Em; cbn [negb].
  - apply (qname_matches_spec v name sent p Hs Hv) in Em.
    destruct (client_cookie v) as [c|]; [|naive_solver].
    destruct (is_do53 p); [|naive_solver]. rewrite validate_cookie_spec. naive_solver.
  - split; [done|]. intros (_ & (name' & rest' & [= <- <-] & Hn) & _).
    apply (qname_matches_spec v name sent p Hs Hv) in Hn. congruence.
Qed.


End sent.

(** ** Example *)

#[local] Instance no_hickory : Hickory := {
  message_from_vec := λ _, inl ""%string; name_from_str := λ _, inl ""%string;
  name_to_utf8 := λ _, []; type_debug := λ _, ""%string;
}.

Definition example_secrets : bytes := [18; 52; 1; 2; 3; 4; 5; 6; 7; 8].
Definition example_query : DomainError + (bytes * ResponseValidator) :=
  build_query_hardened example_secrets (replicate 32 0xAA) (of_string "Example.com.") A true (mkHardening true true).


(** ** Owner names lowercased *)

Definition covered (labels : list (nat * nat)) (i : nat) : Prop :=
  ∃ r, r ∈ labels ∧ (r.1 ≤ i < r.2)%nat.
Definition within (labels : list (nat * nat)) (lo hi : nat) : Prop :=
  Forall (λ r, (lo ≤ r.1 ∧ r.1 ≤ r.2 ∧ r.2 ≤ hi)%nat) labels.

(** [wire'] has the bytes of [wire] from [lo] to [hi], the labels apart. *)
Definition same_outside (wire wire' : bytes) (labels : list (nat * nat)) (lo hi : nat) : Prop :=
  length wire' = length wire ∧ ∀ i, (lo ≤ i < hi)%nat → ¬ covered labels i → wire' !! i = wire !! i.

Lemma within_weaken ls lo hi lo' hi' : (lo' ≤ lo)%nat → (hi ≤ hi')%nat → within ls lo hi → within ls lo' hi'.
Proof. intros ?? Hw. eapply Forall_impl; [exact Hw|]. cbn. lia. Qed.

Lemma same_outside_split wire wire' l1 l2 lo mid hi :
  within l1 lo mid → within l2 mid hi → (lo ≤ mid ≤ hi)%nat →
  same_outside wire wire' (l1 ++ l2) lo hi →
  same_outside wire wire' l1 lo mid ∧ same_outside wire wire' l2 mid hi.
Proof.
  intros H1 H2 Hm [Hl Ho]. unfold within in H1, H2. rewrite Forall_forall in H1, H2.
  split; (split; [done|]); intros i Hi Hc; apply Ho; try lia.
  - intros (r & [Hr|Hr]%elem_of_app & Hri); [by apply Hc; exists r|]. specialize (H2 r Hr). lia.
  - intros (r & [Hr|Hr]%elem_of_app & Hri); [|by apply Hc; exists r]. specialize (H1 r Hr). lia.
Qed.

(** What a walk reads and returns: a run from [pos] appends labels and stops at [pos'], and runs the
    same on any message that differs in those labels only. *)
Definition walk_ok (walk : bytes → nat → list (nat * nat) → outcome (nat * list (nat * nat)))
    (wire : bytes) : Prop :=
  ∀ pos acc pos' out, walk wire pos acc = Ret (pos', out) →
  ∃ new, out = acc ++ new ∧ within new pos pos' ∧ (pos ≤ pos')%nat
    ∧ Forall (λ r, (r.2 ≤ length wire)%nat) new
    ∧ ∀ wire' acc', same_outside wire wire' new pos pos' → walk wire' pos acc' = Ret (pos', acc' ++ new).

Lemma get_same wire wire' ls lo hi i b :
  same_outside wire wire' ls lo hi → (lo ≤ i < hi)%nat → ¬ covered ls i → get wire i = Ret b → get wire' i = Ret b.
Proof. intros [_ Hs] Hi Hc Hg. rewrite get_Ret in Hg |- *. by rewrite Hs. Qed.

Lemma get_same_nil wire wire' lo hi i b :
  same_outside wire wire' [] lo hi → (lo ≤ i < hi)%nat → get wire i = Ret b → get wire' i = Ret b.
Proof. intros Hs Hi. apply (get_same _ _ _ _ _ _ _ Hs Hi). intros (r & Hr & _). by inversion Hr. Qed.

Lemma not_covered ls lo hi i : within ls lo hi → (i < lo)%nat → ¬ covered ls i.
Proof. intros Hw Hi (r & Hr & Hri). unfold within in Hw. rewrite Forall_forall in Hw. specialize (Hw r Hr). lia. Qed.

Lemma walk_name_go_ok fuel wire : walk_ok (walk_name_go fuel) wire.
Proof.
  induction fuel as [|fuel IH]; intros pos acc pos' out; cbn [walk_name_go]; [done|].
  destruct (get wire pos) as [len| |] eqn:Eg; cbn [mbind outcome_bind]; [|done..].
  destruct (len =? 0) eqn:E0.
  { intros [= <- <-]. exists []. rewrite app_nil_r. split_and!; [done|constructor|lia|constructor|].
    intros wire' acc' Hs. cbn [walk_name_go].
    rewrite (get_same_nil _ _ _ _ pos len Hs), app_nil_r by (lia || done). cbn. by rewrite E0. }
  destruct (Z.land len 0xC0 =? 0xC0) eqn:E1.
  { destruct (get wire (pos + 1)) as [b| |] eqn:Eg1; cbn [mbind outcome_bind]; [|done..].
    intros [= <- <-]. exists []. rewrite app_nil_r. split_and!; [done|constructor|lia|constructor|].
    intros wire' acc' Hs. cbn [walk_name_go].
    rewrite (get_same_nil _ _ _ _ pos len Hs) by (lia || done). cbn. rewrite E0, E1.
    by rewrite (get_same_nil _ _ _ _ (pos + 1) b Hs), app_nil_r by (lia || done). }
  destruct (Z.land len 0xC0 =? 0) eqn:E2; cbn [negb]; [|done].
  destruct (Nat.ltb_spec (length wire) (pos + 1 + Z.to_nat len)); [done|].
  intros (new & -> & Hw & Hp & Hb & Hs)%IH.
  exists ((pos + 1, pos + 1 + Z.to_nat len)%nat :: new).
  assert (Hw' : within new (pos + 1) pos') by (by eapply within_weaken; [| |exact Hw]; lia).
  split_and!.
  - by rewrite <-app_assoc.
  - constructor; cbn; [lia|]. by eapply within_weaken; [| |exact Hw]; lia.
  - lia.
  - by constructor.
  - intros wire' acc' Hso. cbn [walk_name_go].
    assert (Hnc : ¬ covered ((pos + 1, pos + 1 + Z.to_nat len)%nat :: new) pos).
    { apply (not_covered _ (pos + 1) pos'); [|lia]. constructor; [cbn; lia|done]. }
    assert (Hg : get wire' pos = Ret len) by (apply (get_same _ _ _ _ _ _ _ Hso); [lia|done..]).
    rewrite Hg. cbn [mbind outcome_bind]. rewrite E0, E1, E2. cbn [negb].
    destruct Hso as [Hl Ho]. rewrite Hl. destruct (Nat.ltb_spec (length wire) (pos + 1 + Z.to_nat len)); [lia|].
    rewrite (Hs wire' (acc' ++ [_])); [by rewrite <-app_assoc|]. split; [done|].
    intros i Hi Hc. apply Ho; [lia|]. intros (r & [->|Hr]%elem_of_cons & Hri); [cbn in Hri; lia|].
    apply Hc. by exists r.
Qed.

(** Two walks one after the other, with reads of [skip] bytes after each. *)
Lemma walk_then (walk next : bytes → nat → list (nat * nat) → outcome (nat * list (nat * nat))) wire
    (after : bytes → nat → outcome nat) :
  walk_ok walk wire → walk_ok next wire →
  (∀ pos mid, after wire pos = Ret mid → (pos ≤ mid)%nat ∧
     ∀ wire' hi, (mid ≤ hi)%nat → (∀ i, (pos ≤ i < mid)%nat → wire' !! i = wire !! i) → length wire' = length wire →
       after wire' pos = Ret mid) →
  walk_ok (λ wire pos acc, '(p, ls) ← walk wire pos acc; q ← after wire p; next wire q ls) wire.
Proof.
  intros Hw Hn Ha pos acc pos' out E. cbn in E.
  destruct (walk wire pos acc) as [[p ls]| |] eqn:E1; cbn [mbind outcome_bind] in E; [|done..].
  destruct (after wire p) as [q| |] eqn:E2; cbn [mbind outcome_bind] in E; [|done..].
  destruct (Hw _ _ _ _ E1) as (n1 & -> & W1 & P1 & B1 & S1).
  destruct (Hn _ _ _ _ E) as (n2 & -> & W2 & P2 & B2 & S2).
  destruct (Ha _ _ E2) as [P3 S3].
  exists (n1 ++ n2). split_and!.
  - by rewrite <-app_assoc.
  - apply Forall_app. split; (eapply within_weaken; [| |eassumption]; lia).
  - lia.
  - by apply Forall_app.
  - intros wire' acc' Hs.
    assert (W1' : within n1 pos q) by (eapply within_weaken; [| |exact W1]; lia).
    destruct (same_outside_split _ _ _ _ _ q _ W1' W2 ltac:(lia) Hs) as [Hs1 Hs2].
    rewrite (S1 wire' acc'); last first.
    { destruct Hs1 as [Hl Hs1]. split; [done|]. intros i Hi. apply Hs1. lia. }
    cbn [mbind outcome_bind]. rewrite (S3 wire' q); [|lia| |by destruct Hs1].
    + cbn [mbind outcome_bind]. rewrite S2 by done. by rewrite <-app_assoc.
    + intros i Hi. apply Hs1; [lia|]. intros (r & Hr & Hri).
      unfold within in W1. rewrite Forall_forall in W1. specialize (W1 r Hr). lia.
Qed.

Lemma walk_ret wire : walk_ok (λ _ pos acc, Ret (pos, acc)) wire.
Proof.
  intros pos acc pos' out [= <- <-]. exists []. rewrite app_nil_r.
  split_and!; [done|constructor|lia|constructor|]. intros. by rewrite app_nil_r.
Qed.

Lemma walk_name_ok wire : walk_ok walk_name wire.
Proof.
  intros pos acc pos' out E. destruct (walk_name_go_ok _ _ _ _ _ _ E) as (new & ? & ? & ? & ? & Hs).
  exists new. split_and!; [done..|]. intros wire' acc' Hso. unfold walk_name. rewrite (proj1 Hso). by apply Hs.
Qed.

Lemma walk_questions_ok n wire : walk_ok (walk_questions n) wire.
Proof.
  induction n as [|n IH]; [apply walk_ret|].
  apply (walk_then walk_name (walk_questions n) wire (λ _ p, Ret (p + 4)%nat)); [apply walk_name_ok|done|].
  intros pos mid [= <-]. split; [lia|done].
Qed.

Lemma walk_records_ok n wire : walk_ok (walk_records n) wire.
Proof.
  induction n as [|n IH]; [apply walk_ret|]. intros pos acc pos' out E.
  destruct (walk_then walk_name (walk_records n) wire
    (λ w p, d ← count w (p + 8); Ret (p + 8 + 2 + Z.to_nat d)%nat)) with pos acc pos' out
    as (new & ? & ? & ? & ? & Hs); [apply walk_name_ok|done|..].
  - intros p mid Hm. destruct (count wire (p + 8)) as [d| |] eqn:Ed; cbn [mbind outcome_bind] in Hm; [|done..].
    injection Hm as <-. split; [lia|]. intros wire' hi _ Hsame _.
    replace (count wire' (p + 8)) with (Ret d); [done|]. rewrite <-Ed.
    unfold count, get. rewrite !Hsame by lia. done.
  - cbn [walk_records] in E. destruct (walk_name wire pos acc) as [[p ls]| |]; cbn [mbind outcome_bind] in *; [|done..].
    destruct (count wire (p + 8)); cbn [mbind outcome_bind] in *; done.
  - exists new. split_and!; [done..|]. intros wire' acc' Hso. specialize (Hs wire' acc' Hso).
    cbn [walk_records].
    destruct (walk_name wire' pos acc') as [[p ls]| |]; cbn [mbind outcome_bind] in *; [|done..].
    destruct (count wire' (p + 8)); cbn [mbind outcome_bind] in *; done.
Qed.

Lemma owner_labels_ok wire pos ls : owner_labels wire = Ret (pos, ls) →
  Forall (λ r, (12 ≤ r.1 ∧ r.1 ≤ r.2 ∧ r.2 ≤ length wire)%nat) ls
  ∧ ∀ wire', length wire' = length wire → (∀ i, ¬ covered ls i → wire' !! i = wire !! i) →
      owner_labels wire' = Ret (pos, ls).
Proof.
  unfold owner_labels. destruct (count wire 4) as [q| |] eqn:E4; cbn [mbind outcome_bind]; [|done..].
  destruct (count wire 6) as [a| |] eqn:E6; cbn [mbind outcome_bind]; [|done..].
  destruct (count wire 8) as [n| |] eqn:E8; cbn [mbind outcome_bind]; [|done..].
  destruct (count wire 10) as [r| |] eqn:E10; cbn [mbind outcome_bind]; [|done..].
  intros E. destruct (walk_then (walk_questions (Z.to_nat q)) (walk_records (Z.to_nat (a + n + r))) wire
    (λ _ p, Ret p)) with 12%nat (@nil (nat * nat)) pos ls as (new & -> & W & P & B & S).
  { apply walk_questions_ok. }
  { apply walk_records_ok. }
  { intros p mid [= <-]. by split. }
  { cbn in E |- *. by destruct (walk_questions _ _ _ _) as [[p l]| |]. }
  cbn [app] in *. unfold within in W. rewrite Forall_forall in W, B. split.
  { apply Forall_forall. intros x Hx. specialize (W x Hx). specialize (B x Hx). cbn in B. lia. }
  intros wire' Hl Ho. assert (Hc : ∀ i, (i < 11)%nat → count wire' i = count wire i).
  { intros i Hi. unfold count, get. rewrite !Ho; [done|..]; intros (x & Hx & Hi'); specialize (W x Hx); lia. }
  rewrite !Hc, E4, E6, E8, E10 by lia. cbn [mbind outcome_bind].
  specialize (S wire' []). cbn [app] in S. rewrite <-S; [|split; [done|intros; by apply Ho]].
  by destruct (walk_questions _ _ _ _) as [[p l]| |].
Qed.

Lemma walk_name_go_safe fuel wire pos acc : (length wire - pos < fuel)%nat → safe (walk_name_go fuel wire pos acc).
Proof.
  revert pos acc. induction fuel as [|fuel IH]; intros pos acc Hf; [lia|]. cbn [walk_name_go].
  destruct (get wire pos) as [len| |c] eqn:Eg; cbn [mbind outcome_bind]; [|done|].
  - apply get_Ret, lookup_lt_Some in Eg. destruct (len =? 0); [done|].
    destruct (Z.land len 0xC0 =? 0xC0).
    { unfold get. by destruct (wire !! (pos + 1)%nat). }
    destruct (negb _); [done|]. destruct (Nat.ltb_spec (length wire) (pos + 1 + Z.to_nat len)); [done|].
    apply IH. lia.
  - unfold get in Eg. by destruct (wire !! pos).
Qed.

Lemma walk_name_safe wire pos acc : safe (walk_name wire pos acc).
Proof. apply walk_name_go_safe. lia. Qed.

Lemma count_safe wire i : safe (count wire i).
Proof. unfold count, get. destruct (wire !! i); [|done]. by destruct (wire !! (i + 1)%nat). Qed.

Lemma owner_labels_safe wire : safe (owner_labels wire).
Proof.
  assert (Hq : ∀ n pos acc, safe (walk_questions n wire pos acc)).
  { induction n as [|n IH]; intros pos acc; cbn [walk_questions]; [done|].
    apply safe_bind; [apply walk_name_safe|]. intros [p l] _. apply IH. }
  assert (Hr : ∀ n pos acc, safe (walk_records n wire pos acc)).
  { induction n as [|n IH]; intros pos acc; cbn [walk_records]; [done|].
    apply safe_bind; [apply walk_name_safe|]. intros [p l] _.
    apply safe_bind; [apply count_safe|]. intros d _. apply IH. }
  unfold owner_labels. do 4 (apply safe_bind; [apply count_safe|]; intros ? _).
  apply safe_bind; [apply Hq|]. intros [p l] _. apply Hr.
Qed.

(** A label's range, read and lowered. *)
Lemma label_range (wire : bytes) r : (r.1 ≤ r.2 ∧ r.2 ≤ length wire)%nat →
  ∃ l, index_range wire r.1 r.2 = Ret l ∧ length l = (r.2 - r.1)%nat
    ∧ ∀ i, (r.1 ≤ i < r.2)%nat → l !! (i - r.1)%nat = wire !! i.
Proof.
  intros [H1 H2]. exists (take (r.2 - r.1) (drop r.1 wire)). split; [by apply index_range_Ret|].
  split; [rewrite length_take, length_drop; lia|].
  intros i Hi. rewrite lookup_take_lt, lookup_drop by lia. f_equal. lia.
Qed.

Lemma any_upper_spec wire ls : Forall (λ r, (r.1 ≤ r.2 ∧ r.2 ≤ length wire)%nat) ls →
  ∃ u, any_upper wire ls = Ret u ∧
    (u = false ↔ ∀ i b, covered ls i → wire !! i = Some b → is_ascii_uppercase b = false).
Proof.
  induction 1 as [|[s e] ls Hr _ (u & Eu & Hu)].
  { exists false. split; [done|]. split; [|done]. intros _ i b (r & Hr & _). by inversion Hr. }
  cbn [any_upper]. destruct (label_range wire (s, e) Hr) as (l & El & Hl & Hi). cbn [fst snd] in *.
  rewrite El. cbn [mbind outcome_bind]. destruct (has_upper l) eqn:Ex.
  - exists true. split; [done|]. split; [done|]. intros Hno. unfold has_upper in Ex.
    apply existsb_exists in Ex as (b & Hb%list_elem_of_In & Hup).
    apply list_elem_of_lookup in Hb as [k Hk]. pose proof (lookup_lt_Some _ _ _ Hk) as Hlt.
    rewrite (Hno (s + k)%nat b) in Hup; [done|exists (s, e); split; [by left|cbn; lia]|].
    rewrite <-(Hi (s + k)%nat) by lia. by replace (s + k - s)%nat with k by lia.
  - exists u. split; [done|]. rewrite Hu. split; intros Hn i b.
    + intros (r & [->|Hr']%elem_of_cons & Hri) Hb; [|by eapply Hn; [exists r|]]. cbn in Hri.
      rewrite <-(Hi i) in Hb by done. apply not_true_iff_false. intros Hup.
      apply not_true_iff_false in Ex. apply Ex. unfold has_upper. apply existsb_exists. exists b.
      split; [|done]. apply list_elem_of_In. by eapply list_elem_of_lookup_2.
    + intros (r & Hr' & Hri). apply Hn. exists r. split; [by right|done].
Qed.

Lemma lower_ranges_spec wire ls : Forall (λ r, (r.1 ≤ r.2 ∧ r.2 ≤ length wire)%nat) ls →
  ∃ out, lower_ranges wire ls = Ret out ∧ length out = length wire ∧
    (∀ i, covered ls i → out !! i = lower_byte <$> wire !! i) ∧ (∀ i, ¬ covered ls i → out !! i = wire !! i).
Proof.
  revert wire. induction ls as [|[s e] ls IH]; intros wire Hls.
  { exists wire. split_and!; [done..| |done]. intros i (r & Hr & _). by inversion Hr. }
  inversion_clear Hls as [|? ? Hr Hls']. destruct (label_range wire (s, e) Hr) as (l & El & Hl & Hi).
  cbn [lower_ranges fst snd] in *. rewrite El. cbn [mbind outcome_bind].
  set (w := splice s (lower_byte <$> l) wire).
  assert (Hw : length w = length wire) by (apply length_splice; rewrite length_fmap; lia).
  assert (Hin : ∀ i, (s ≤ i < e)%nat → w !! i = lower_byte <$> wire !! i).
  { intros i Hi'. unfold w. replace i with (s + (i - s))%nat at 1 by lia.
    rewrite lookup_splice_eq by (rewrite ?length_fmap; lia). by rewrite list_lookup_fmap, Hi by lia. }
  assert (Hout : ∀ i, ¬ (s ≤ i < e)%nat → w !! i = wire !! i).
  { intros i Hi'. unfold w. apply lookup_splice_ne; rewrite ?length_fmap; lia. }
  destruct (IH w) as (out & Eo & Lo & Co & No); [by rewrite Hw|]. exists out.
  split_and!; [done|lia|..]; intros i Hc.
  - destruct (decide (s ≤ i < e)%nat) as [Hse|Hse].
    + destruct (decide (Exists (λ r, (r.1 ≤ i < r.2)%nat) ls)) as [Hx|Hx].
      * apply Exists_exists in Hx as (r & Hr' & Hri). rewrite (Co i) by by exists r. rewrite Hin by done.
        destruct (wire !! i); cbn; [by rewrite lower_byte_idem|done].
      * rewrite (No i); [by apply Hin|]. intros (r & Hr' & Hri). apply Hx, Exists_exists. by exists r.
    + destruct Hc as (r & [->|Hr']%elem_of_cons & Hri); [done|]. rewrite (Co i) by by exists r.
      by rewrite Hout.
  - assert (Hse : ¬ (s ≤ i < e)%nat) by (intros Hse; apply Hc; exists (s, e); split; [by left|done]).
    rewrite (No i); [by apply Hout|]. intros (r & Hr' & Hri). apply Hc. exists r. split; [by right|done].
Qed.

Lemma lower_not_upper b : is_ascii_uppercase (lower_byte b) = false.
Proof.
  unfold is_ascii_uppercase, lower_byte. destruct ((65 <=? b) && (b <=? 90)) eqn:E; [|done].
  apply andb_true_iff in E as [?%Z.leb_le ?%Z.leb_le].
  destruct (Z.leb_spec (b + 32) 90); [lia|]. by rewrite andb_false_r.
Qed.

(** Lowercasing the owner names of an answer never panics or loops; what it returns differs
    from the answer in the letters of the owner names' labels only, has the same labels in the
    same places, all lowercase, so that doing it again changes nothing; and it declines only on
    a message it cannot read or that is lowercase already. *)
Theorem owner_names_lowercased wire :
  match lowercase_owner_names wire with
  | Crash _ => False
  | Decline =>
      ∀ pos ls, owner_labels wire = Ret (pos, ls) → (pos ≤ length wire)%nat →
      ∀ i b, covered ls i → wire !! i = Some b → is_ascii_uppercase b = false
  | Ret out =>
      lowercase_owner_names out = Decline ∧ length out = length wire
      ∧ ∃ pos ls, owner_labels wire = Ret (pos, ls) ∧ owner_labels out = Ret (pos, ls)
          ∧ (∀ i, covered ls i → out !! i = lower_byte <$> wire !! i)
          ∧ (∀ i, ¬ covered ls i → out !! i = wire !! i)
  end.
Proof.
  pose proof (owner_labels_safe wire) as Hsafe. unfold lowercase_owner_names at 1.
  destruct (owner_labels wire) as [[pos ls]| |c] eqn:El; cbn [mbind outcome_bind]; [|done..].
  destruct (Nat.ltb_spec (length wire) pos) as [Hp|Hp]; [intros ? ? [= <- <-]; lia|].
  destruct (owner_labels_ok _ _ _ El) as [Hls Hsame].
  assert (Hr : ∀ w : bytes, length w = length wire → Forall (λ r, (r.1 ≤ r.2 ∧ r.2 ≤ length w)%nat) ls).
  { intros w ->. eapply Forall_impl; [exact Hls|]. cbn. lia. }
  destruct (any_upper_spec wire ls (Hr wire eq_refl)) as (u & -> & Hu). cbn [mbind outcome_bind].
  destruct u.
  - destruct (lower_ranges_spec wire ls (Hr wire eq_refl)) as (out & -> & Lo & Co & No).
    pose proof (Hsame out Lo No) as Eo. split_and!; [|done|by exists pos, ls].
    unfold lowercase_owner_names. rewrite Eo. cbn [mbind outcome_bind]. rewrite Lo.
    destruct (Nat.ltb_spec (length wire) pos); [done|].
    destruct (any_upper_spec out ls (Hr out Lo)) as (u & -> & Hu'). cbn [mbind outcome_bind].
    destruct u; [|done]. exfalso. enough (true = false) by done. apply Hu'.
    intros i b Hc. rewrite (Co i Hc). intros (b' & _ & ->)%fmap_Some. apply lower_not_upper.
  - intros ? ? [= <- <-] _. by apply Hu.
Qed.
