(* ===== verification/Health.v ===== *)
(** Which upstream servers are in rotation:
    [infrastructure/src/dns/load_balancer/health.rs].  A probe's latency is an
    argument; the text of an error is kept as the error. *)

From Stdlib Require Import String.
From S2P Require Import Prelude Errors Text Net Protocol Forwarding.

#[local] Set Default Proof Using "Type".

Inductive ServerStatus := Healthy | Unhealthy | Unknown.

#[export] Instance ServerStatus_eq_dec : EqDecision ServerStatus.
Proof. solve_decision. Defined.

Inductive ProbeError := TimeoutAfter (ms : Z) | ProbeFailed (e : DomainError) | Declined (rcode : string).

Record ServerHealth := mkHealth {
  status : ServerStatus; consecutive_failures : Z; consecutive_successes : Z;
  last_check_latency_ms : option Z; last_error : option ProbeError;
}.
Definition health_default : ServerHealth := mkHealth Unknown 0 0 None None.

Record HealthChecker := mkChecker {
  health_map : gmap DnsProtocol ServerHealth; failure_threshold : Z; success_threshold : Z;
}.
Definition checker_new (failure success : Z) : HealthChecker := mkChecker ∅ failure success.

Definition health_of (h : HealthChecker) (p : DnsProtocol) : ServerHealth :=
  default health_default (health_map h !! p).
Definition set_health (h : HealthChecker) (p : DnsProtocol) (e : ServerHealth) : HealthChecker :=
  mkChecker (<[p := e]> (health_map h)) (failure_threshold h) (success_threshold h).

Definition mark_healthy (h : HealthChecker) (p : DnsProtocol) (latency_ms : Z) : HealthChecker :=
  let e := health_of h p in
  let successes := sat_add u16_max (consecutive_successes e) 1 in
  set_health h p (mkHealth (if success_threshold h <=? successes then Healthy else status e)
                    0 successes (Some latency_ms) None).

Definition mark_failed (h : HealthChecker) (p : DnsProtocol) (latency_ms : option Z) (error : ProbeError)
    : HealthChecker :=
  let e := health_of h p in
  let failures := sat_add u16_max (consecutive_failures e) 1 in
  set_health h p (mkHealth (if failure_threshold h <=? failures then Unhealthy else status e)
                    failures 0 latency_ms (Some error)).

Definition in_rotation (s : ServerStatus) : bool :=
  match s with Healthy | Unknown => true | Unhealthy => false end.
Definition is_healthy (h : HealthChecker) (p : DnsProtocol) : bool :=
  match health_map h !! p with Some e => in_rotation (status e) | None => true end.
Definition get_status (h : HealthChecker) (p : DnsProtocol) : ServerStatus :=
  match health_map h !! p with Some e => status e | None => Unknown end.
Definition get_health_info (h : HealthChecker) (p : DnsProtocol) : option ServerHealth := health_map h !! p.

(** A server to probe, and the zone it answers if it answers only some. *)
Definition HealthProbe : Type := DnsProtocol * option str.

Definition retain_live (h : HealthChecker) (probes : list HealthProbe) : HealthChecker :=
  mkChecker (filter (λ e : DnsProtocol * ServerHealth, e.1 ∈ probes.*1) (health_map h))
    (failure_threshold h) (success_threshold h).

Definition DEFAULT_PROBE_NAME : string := "google.com".

(** What came of a probe. *)
Inductive ProbeReply :=
  | NoTransport (e : DomainError) | ProbeTimeout | SendFailed (e : DomainError) | Replied (wire : bytes).

Section probes.
Context `{Hickory}.

(** What each server is asked; [id] is drawn at random. *)
Definition probe_query (id : Z) (default_query : bytes) (probe : HealthProbe) : bytes :=
  match probe.2 with
  | Some zone => match build_query id zone SOA false with inr q => q | inl _ => default_query end
  | None => default_query
  end.
Definition probe_queries (id : Z) (probes : list HealthProbe) : option (list bytes) :=
  match build_query id (of_string DEFAULT_PROBE_NAME) A false with
  | inl _ => None
  | inr default_query => Some (probe_query id default_query <$> probes)
  end.

Definition check_server (h : HealthChecker) (p : DnsProtocol) (reply : ProbeReply) (latency_ms timeout_ms : Z)
    : HealthChecker :=
  match reply with
  | NoTransport e => mark_failed h p None (ProbeFailed e)
  | ProbeTimeout => mark_failed h p None (TimeoutAfter timeout_ms)
  | SendFailed e => mark_failed h p (Some latency_ms) (ProbeFailed e)
  | Replied wire =>
      match parse_bytes wire with
      | inr r =>
          if is_server_error r then mark_failed h p (Some latency_ms) (Declined (rcode_to_status (rcode r)))
          else mark_healthy h p latency_ms
      | inl e => mark_failed h p (Some latency_ms) (ProbeFailed e)
      end
  end.

(** One round of the loop, in the order its probes end. *)
Definition check_round (h : HealthChecker) (probes : list HealthProbe)
    (ended : list (DnsProtocol * ProbeReply * Z)) (timeout_ms : Z) : HealthChecker :=
  foldl (λ h e, check_server h e.1.1 e.1.2 e.2 timeout_ms) (retain_live h probes) ended.

(** Whether a probe counts as a success. *)
Definition probe_ok (reply : ProbeReply) : bool :=
  match reply with
  | Replied wire => match parse_bytes wire with inr r => negb (is_server_error r) | inl _ => false end
  | _ => false
  end.

End probes.

(** ** Hysteresis *)

Section hysteresis.
Implicit Types (history : list bool) (h : HealthChecker).

Definition has_run (b : bool) (k : nat) history : Prop := ∃ l r, history = l ++ replicate k b ++ r.
Definition ends_in_run (b : bool) (k : nat) history : Prop := ∃ l, history = l ++ replicate k b.

Lemma replicate_snoc {A} (b : A) k : replicate (S k) b = replicate k b ++ [b].
Proof. by rewrite replicate_S_end. Qed.

Lemma ends_in_run_snoc b x k history :
  ends_in_run b (S k) (history ++ [x]) ↔ x = b ∧ ends_in_run b k history.
Proof.
  unfold ends_in_run. rewrite replicate_snoc. split.
  - intros [l E]. rewrite app_assoc in E. apply app_inj_tail in E as [-> ->]. eauto.
  - intros [-> [l ->]]. exists l. by rewrite app_assoc.
Qed.

Lemma has_run_snoc b k x history : (0 < k)%nat →
  has_run b k (history ++ [x]) ↔ has_run b k history ∨ ends_in_run b k (history ++ [x]).
Proof.
  intros Hk. unfold has_run, ends_in_run. split.
  - intros (l & r & E). destruct r as [|y r _] using rev_ind.
    + right. exists l. by rewrite app_nil_r in E.
    + left. rewrite !app_assoc in E. apply app_inj_tail in E as [-> _]. exists l, r. by rewrite app_assoc.
  - intros [(l & r & ->)|[l ->]].
    + exists l, (r ++ [x]). by rewrite <-!app_assoc.
    + exists l, []. by rewrite app_nil_r.
Qed.

(** The probes so far take the server out: enough failures in a row, and not enough successes in a
    row since. *)
Definition taken_out (failures successes : nat) history : Prop :=
  ∃ before since, history = before ++ replicate failures false ++ since ∧ ¬ has_run true successes since.

Lemma taken_out_fail f s history : (0 < f)%nat → (0 < s)%nat →
  taken_out f s (history ++ [false]) ↔ taken_out f s history ∨ ends_in_run false f (history ++ [false]).
Proof.
  intros Hf Hs. split.
  - intros (b & since & E & Hn). destruct since as [|y since _] using rev_ind.
    + right. exists b. by rewrite app_nil_r in E.
    + left. rewrite !app_assoc in E. apply app_inj_tail in E as [-> <-]. exists b, since.
      split; [by rewrite app_assoc|]. intros Hr. apply Hn, has_run_snoc; auto.
  - intros [(b & since & -> & Hn)|[b ->]].
    + exists b, (since ++ [false]). split; [by rewrite <-!app_assoc|].
      rewrite has_run_snoc by done. intros [?|Hr]; [done|].
      destruct s as [|s]; [lia|]. by apply ends_in_run_snoc in Hr as [? _].
    + exists b, []. split; [by rewrite app_nil_r|]. intros (l & r & E).
      destruct l, s; try done; lia.
Qed.

(** A run of successes that ends a history lies after its last failure. *)
Lemma run_after_failure k l since :
  ends_in_run true k (l ++ [false] ++ since) → ends_in_run true k since.
Proof.
  revert since. induction k as [|k IH]; intros since; [intros _; exists since; by rewrite app_nil_r|].
  destruct since as [|x since _] using rev_ind.
  - cbn [app]. intros [? _]%ends_in_run_snoc. done.
  - rewrite !app_assoc, ends_in_run_snoc, <-!app_assoc. intros [-> Hr%IH]. by apply ends_in_run_snoc.
Qed.

Lemma taken_out_success f s history : (0 < f)%nat → (0 < s)%nat →
  taken_out f s (history ++ [true]) ↔ taken_out f s history ∧ ¬ ends_in_run true s (history ++ [true]).
Proof.
  intros Hf Hs. destruct f as [|f]; [lia|]. split.
  - intros (b & since & E & Hn). destruct since as [|y since _] using rev_ind.
    + rewrite app_nil_r, replicate_snoc, app_assoc in E. by apply app_inj_tail in E as [_ ?].
    + assert (E' := E). rewrite !app_assoc in E. apply app_inj_tail in E as [-> <-]. split.
      * exists b, since. split; [by rewrite app_assoc|]. intros Hr. apply Hn, has_run_snoc; auto.
      * rewrite <-!app_assoc, replicate_snoc. intros Hr. apply Hn, has_run_snoc; [done|]. right.
        apply (run_after_failure _ (b ++ replicate f false)). by rewrite <-!app_assoc in *.
  - intros [(b & since & -> & Hn) Hr]. exists b, (since ++ [true]). split; [by rewrite <-!app_assoc|].
    rewrite has_run_snoc by done. intros [?|[l E]]; [done|]. apply Hr.
    rewrite <-!app_assoc, E. exists (b ++ replicate (S f) false ++ l). by rewrite <-!app_assoc.
Qed.

(** ** The checker over a history *)

(** A server's entry follows the probes of that server. *)
Record tracks (h : HealthChecker) (p : DnsProtocol) history : Prop := {
  tr_failures : ∀ k : nat, (k ≤ 255)%nat → Z.of_nat k ≤ consecutive_failures (health_of h p) ↔ ends_in_run false k history;
  tr_successes : ∀ k : nat, (k ≤ 255)%nat → Z.of_nat k ≤ consecutive_successes (health_of h p) ↔ ends_in_run true k history;
  tr_range : 0 ≤ consecutive_failures (health_of h p) ≤ u16_max ∧ 0 ≤ consecutive_successes (health_of h p) ≤ u16_max;
  tr_status : in_rotation (status (health_of h p)) = false ↔
    taken_out (Z.to_nat (Z.max 1 (failure_threshold h))) (Z.to_nat (Z.max 1 (success_threshold h))) history;
}.

Lemma health_of_set h p e q : health_of (set_health h p e) q = if decide (p = q) then e else health_of h q.
Proof. unfold health_of, set_health. cbn. rewrite lookup_insert. by case_decide. Qed.

Lemma is_healthy_health_of h p : is_healthy h p = in_rotation (status (health_of h p)).
Proof. unfold is_healthy, health_of. by destruct (health_map h !! p). Qed.

Lemma count_up k c : (k ≤ 255)%nat → 0 ≤ c → Z.of_nat (S k) ≤ sat_add u16_max c 1 ↔ Z.of_nat k ≤ c.
Proof. unfold sat_add. unfold_ints. lia. Qed.

Lemma no_run_after b x k history : x ≠ b → ends_in_run b k (history ++ [x]) ↔ k = 0%nat.
Proof.
  intros Hx. destruct k; [|rewrite ends_in_run_snoc; naive_solver].
  split; [done|]. intros _. exists (history ++ [x]). by rewrite app_nil_r.
Qed.

Lemma ends_in_run_0 b history : ends_in_run b 0 history.
Proof. exists history. by rewrite app_nil_r. Qed.

Lemma tracks_healthy h p latency history :
  0 ≤ success_threshold h ≤ u8_max → tracks h p history →
  tracks (mark_healthy h p latency) p (history ++ [true]).
Proof.
  intros Ht [Hf Hs Hr Hst]. unfold mark_healthy. split; cbn; rewrite ?health_of_set, ?decide_True by done; cbn.
  - intros k Hk. rewrite no_run_after by done. lia.
  - intros [|k] Hk.
    + split; [intros _; apply ends_in_run_0|]. unfold sat_add. unfold_ints. lia.
    + rewrite count_up, ends_in_run_snoc, Hs by lia. naive_solver.
  - unfold sat_add. unfold_ints. lia.
  - rewrite taken_out_success, <-Hst by lia. revert Ht Hs Hr. generalize (consecutive_successes (health_of h p)).
    intros c Ht Hs [_ Hr].
    assert (Hk : success_threshold h ≤ sat_add u16_max c 1
              ↔ ends_in_run true (Z.to_nat (Z.max 1 (success_threshold h))) (history ++ [true])).
    { destruct (Z.to_nat (Z.max 1 (success_threshold h))) as [|k] eqn:E; [lia|].
      rewrite ends_in_run_snoc, <-Hs by (unfold u8_max in Ht; lia). unfold sat_add. unfold_ints. lia. }
    destruct (Z.leb_spec (success_threshold h) (sat_add u16_max c 1)).
    + split; [done|]. intros [_ []]. by apply Hk.
    + split; [|by intros [? _]]. intros ?. split; [done|]. rewrite <-Hk. lia.
Qed.

Lemma tracks_failed h p latency e history :
  0 ≤ failure_threshold h ≤ u8_max → tracks h p history →
  tracks (mark_failed h p latency e) p (history ++ [false]).
Proof.
  intros Ht [Hf Hs Hr Hst]. unfold mark_failed. split; cbn; rewrite ?health_of_set, ?decide_True by done; cbn.
  - intros [|k] Hk.
    + split; [intros _; apply ends_in_run_0|]. unfold sat_add. unfold_ints. lia.
    + rewrite count_up, ends_in_run_snoc, Hf by lia. naive_solver.
  - intros k Hk. rewrite no_run_after by done. lia.
  - unfold sat_add. unfold_ints. lia.
  - rewrite taken_out_fail, <-Hst by lia. revert Ht Hf Hr. generalize (consecutive_failures (health_of h p)).
    intros c Ht Hf [Hr _].
    assert (Hk : failure_threshold h ≤ sat_add u16_max c 1
              ↔ ends_in_run false (Z.to_nat (Z.max 1 (failure_threshold h))) (history ++ [false])).
    { destruct (Z.to_nat (Z.max 1 (failure_threshold h))) as [|k] eqn:E; [lia|].
      rewrite ends_in_run_snoc, <-Hf by (unfold u8_max in Ht; lia). unfold sat_add. unfold_ints. lia. }
    destruct (Z.leb_spec (failure_threshold h) (sat_add u16_max c 1)).
    + split; [|done]. intros _. right. by apply Hk.
    + split; [by left|]. intros [?|Hx]; [done|]. apply Hk in Hx. lia.
Qed.

End hysteresis.

Section rotation.
Context `{Hickory}.

Lemma check_server_eq h p reply latency timeout :
  (probe_ok reply = true ∧ ∃ l, check_server h p reply latency timeout = mark_healthy h p l)
  ∨ (probe_ok reply = false ∧ ∃ l e, check_server h p reply latency timeout = mark_failed h p l e).
Proof.
  unfold check_server, probe_ok. destruct reply as [e| |e|wire]; [right; eauto..|].
  destruct (parse_bytes wire) as [e|r]; [right; eauto|]. destruct (is_server_error r); [right|left]; eauto.
Qed.

Lemma tracks_other h h' p q history :
  p ≠ q → (∃ e, h' = set_health h q e) → tracks h p history → tracks h' p history.
Proof.
  intros Hpq [e ->] [Hf Hs Hr Hst].
  assert (E : health_of (set_health h q e) p = health_of h p) by (rewrite health_of_set; by case_decide).
  split; rewrite ?E; done.
Qed.

Definition probes_of (p : DnsProtocol) (ended : list (DnsProtocol * ProbeReply * Z)) : list bool :=
  omap (λ e, if decide (e.1.1 = p) then Some (probe_ok e.1.2) else None) ended.

Lemma check_server_thresholds h p reply latency timeout :
  failure_threshold (check_server h p reply latency timeout) = failure_threshold h
  ∧ success_threshold (check_server h p reply latency timeout) = success_threshold h.
Proof. destruct (check_server_eq h p reply latency timeout) as [(_ & l & ->)|(_ & l & e & ->)]; done. Qed.

(** C31: A server is out of rotation exactly if its probes had as many failures in a row as the
    failure threshold and, since then, never as many successes in a row as the success threshold
    (a threshold of 0 counts as 1), whatever other servers' probes came between; a server not
    probed yet is in rotation, and the counters' saturation makes no difference. *)
Theorem health_hysteresis failure success (ended : list (DnsProtocol * ProbeReply * Z)) timeout p :
  0 ≤ failure ≤ u8_max → 0 ≤ success ≤ u8_max →
  is_healthy (foldl (λ h e, check_server h e.1.1 e.1.2 e.2 timeout) (checker_new failure success) ended) p = false
  ↔ taken_out (Z.to_nat (Z.max 1 failure)) (Z.to_nat (Z.max 1 success)) (probes_of p ended).
Proof.
  intros Hf Hs. rewrite is_healthy_health_of.
  set (h := foldl _ _ ended).
  enough (tracks h p (probes_of p ended) ∧ failure_threshold h = failure ∧ success_threshold h = success)
    as ([_ _ _ ->] & -> & ->) by done.
  unfold h. clear h. induction ended as [|[[q reply] latency] ended IH] using rev_ind.
  { assert (E : health_of (checker_new failure success) p = health_default)
      by (unfold health_of; cbn; by rewrite lookup_empty).
    split; [|done]. split; cbn [foldl]; rewrite ?E; clear E; cbn.
    - intros [|k] _; [split; [intros _; apply ends_in_run_0|done]|]. split; [lia|].
      intros [l E]. by destruct l.
    - intros [|k] _; [split; [intros _; apply ends_in_run_0|done]|]. split; [lia|].
      intros [l E]. by destruct l.
    - unfold_ints. lia.
    - split; [done|]. intros (b & since & E & _). destruct (Z.to_nat (Z.max 1 failure)) eqn:En; [lia|].
      by destruct b. }
  rewrite foldl_snoc. cbn [fst snd]. set (h := foldl _ _ ended) in *. destruct IH as (Ht & Eft & Est).
  destruct (check_server_thresholds h q reply latency timeout) as [-> ->]. split; [|done].
  unfold probes_of. rewrite omap_app. cbn. destruct (decide (q = p)) as [->|Hq].
  - destruct (check_server_eq h p reply latency timeout) as [(-> & l & ->)|(-> & l & e & ->)].
    + apply tracks_healthy; [by rewrite Est|done].
    + apply tracks_failed; [by rewrite Eft|done].
  - rewrite app_nil_r. apply (tracks_other h _ p q); [done| |done].
    destruct (check_server_eq h q reply latency timeout) as [(_ & l & ->)|(_ & l & e & ->)]; by eexists.
Qed.

End rotation.

(** ** Example: three failures take a server out, one success brings it back. *)

#[local] Instance no_messages : Hickory := {
  message_from_vec := λ _, inl "not a message"%string; name_from_str := λ _, inl ""%string;
  name_to_utf8 := λ _, []; type_debug := λ _, ""%string;
}.

Definition example_server : DnsProtocol := PUdp (Resolved (mkSocket (V4 134744072) 53 0)).

Lemma health_hysteresis_witness :
  let ended := replicate 3 (example_server, ProbeTimeout, 0) in
  is_healthy (foldl (λ h e, check_server h e.1.1 e.1.2 e.2 2000) (checker_new 3 1) ended) example_server = false
  ∧ taken_out 3 1 (probes_of example_server ended).
Proof.
  split; [by vm_compute|].
  apply (health_hysteresis 3 1 (replicate 3 (example_server, ProbeTimeout, 0)) 2000 example_server);
    [unfold u8_max; lia..|by vm_compute].
Defined.
