(* ===== verification/Balancer.v ===== *)
(** Asking the upstream pools: [infrastructure/src/dns/load_balancer/]
    ([strategy.rs], [failover.rs], [balanced.rs], [parallel.rs], [query.rs]) and
    the query paths of [pool.rs]; then the live pools: how a set is built,
    reloaded and refreshed ([pool.rs]), and the reload of every manager at once
    ([upstream_reload_adapter.rs]).

    A query is a program over what was asked so far ([Asked]): the attempts and
    their results in order, the round-robin counters and the fail-open flag.
    What a server sends back, how long that takes (until its first reply, and
    in all), the order in which raced servers end and the health map when a
    pool is considered are functions of the attempts so far.  Of a race the
    attempts are those that end before its result.  A lookup of a server's
    hostname is a function of its entry's position among those of the build.
    The live set carries a version, which stands for its address. *)

From Stdlib Require Import String.
From stdpp Require Import pretty.
From stdpp Require Import relations.
From S2P Require Import Prelude Errors Text Net Routes Protocol Forwarding Health.

#[local] Set Default Proof Using "Type".

(** ** Results *)

Record UpstreamResult := mkUpstream {
  u_response : DnsResponse; u_latency_ms : Z; u_pool_name : str; u_server_display : str; u_internal : bool;
}.

Definition is_servfail (e : DomainError) : bool :=
  match e with
  | Error.UpstreamServerFailure _ rcode => (rcode =? "SERVFAIL")%string
  | Error.AllUpstreamsServfail => true
  | _ => false
  end.
Definition all_servers_failed (all_servfail : bool) : DomainError :=
  if all_servfail then Error.AllUpstreamsServfail else Error.TransportAllServersUnreachable.
Definition pair_failure (first second : DomainError) : DomainError :=
  match is_servfail first, is_servfail second with
  | true, true => Error.AllUpstreamsServfail
  | false, true => Error.TransportAllServersUnreachable
  | _, _ => second
  end.

Inductive PoolFailure := Final (e : DomainError) | FellThrough (servfail : bool).

(** ** Pools in service *)

Inductive Resolution := Literal | ResolvedWith (ttl : option Z) | LookupFailed.
#[export] Instance Resolution_eq_dec : EqDecision Resolution.
Proof. solve_decision. Defined.
Record ServerGroup := mkGroup { original : str; protocols : list DnsProtocol; resolution : Resolution }.

Record PoolWithStrategy := mkPws {
  config : UpstreamPool; server_protocols : list DnsProtocol; server_groups : list ServerGroup;
  server_displays : gmap DnsProtocol str; probe_zone : option str;
}.
Record PoolSet := mkSet { set_pools : list PoolWithStrategy; set_routes : PoolRoutes; default_pools : list nat }.

(** ** What was asked *)

Abbreviation Attempt := (DnsProtocol * (DomainError + UpstreamResult))%type.
Record Asked := mkAsked { attempts : list Attempt; next : gmap nat Z; failing_open : bool }.

Definition Bal (A : Type) : Type := Asked → A * Asked.
#[export] Instance bal_ret : MRet Bal := λ A a s, (a, s).
#[export] Instance bal_bind : MBind Bal := λ A B f m s, let '(a, s) := m s in f a s.

Record QueryContext := mkContext {
  ctx_timeout : Z; ctx_query : bytes; ctx_validator : ResponseValidator; ctx_pool_name : str;
  ctx_displays : gmap DnsProtocol str;
}.

(** A walk ends with a result, or has tried its pools. *)
Record Walk := mkWalk { any_healthy : bool; any_tried : bool; all_servfail : bool }.
Abbreviation walked := ((DomainError + UpstreamResult) + Walk)%type.

Section balancer.
Context `{Hickory}.
Context (send : list Attempt → DnsProtocol → bytes → Z → DomainError + bytes).
Context (spent : list Attempt → DnsProtocol → Z * Z).
Context (arrivals : list Attempt → list DnsProtocol → list DnsProtocol).
Context (health : option (list Attempt → HealthChecker)).

Definition get_display (p : DnsProtocol) (cache : gmap DnsProtocol str) : str :=
  default (show_protocol p) (cache !! p).

Definition attempt (ctx : QueryContext) (asked : list Attempt) (p : DnsProtocol) : DomainError + UpstreamResult :=
  '(response, tcp_retry) ← exchange_with_tc_retry (send asked) p (ctx_query ctx) (ctx_validator ctx)
                             (ctx_timeout ctx) (spent asked p).1;
  let display := get_display p (ctx_displays ctx) in
  if negb (is_answer response) then
    inl (Error.UpstreamServerFailure (to_string display) (rcode_to_status (rcode response)))
  else
    inr (mkUpstream response (spent asked p).2 (ctx_pool_name ctx)
           (if tcp_retry : bool then display ++ of_string " (tcp retry)" else display) false).

Definition query_server (ctx : QueryContext) (p : DnsProtocol) : Bal (DomainError + UpstreamResult) := λ s,
  let r := attempt ctx (attempts s) p in
  (r, mkAsked (attempts s ++ [(p, r)]) (next s) (failing_open s)).

(** ** Strategies *)

Fixpoint try_each (ctx : QueryContext) (servers : list DnsProtocol) (all_servfail : bool)
    : Bal (DomainError + UpstreamResult) :=
  match servers with
  | [] => mret (inl (all_servers_failed all_servfail))
  | p :: servers =>
      r ← query_server ctx p;
      match r with
      | inr x => mret (inr x)
      | inl e => try_each ctx servers (all_servfail && is_servfail e)
      end
  end.

Definition failover (ctx : QueryContext) (servers : list DnsProtocol) : Bal (DomainError + UpstreamResult) :=
  if bool_decide (servers = []) then mret (inl Error.TransportNoHealthyServers)
  else try_each ctx servers true.

(** The servers from the round-robin position on, each once. *)
Definition rotated (servers : list DnsProtocol) (start : nat) : list DnsProtocol :=
  omap (λ i, servers !! ((start + i) mod length servers)%nat) (seq 0 (length servers)).

Definition fetch_next (pool : nat) : Bal Z := λ s,
  let n := default 0 (next s !! pool) in
  (n, mkAsked (attempts s) (<[pool := wrap64 (n + 1)]> (next s)) (failing_open s)).

Definition balanced (ctx : QueryContext) (pool : nat) (servers : list DnsProtocol)
    : Bal (DomainError + UpstreamResult) :=
  if bool_decide (servers = []) then mret (inl Error.TransportNoHealthyServers)
  else
    n ← fetch_next pool;
    try_each ctx (rotated servers (Z.to_nat (n mod Z.of_nat (length servers)))) true.

Definition race_timeout (n : nat) : DomainError :=
  Error.TransportTimeout ("parallel(" +:+ pretty n +:+ " servers)").

(** The first success among [ended], the servers that end in time of [n]. *)
Fixpoint first_success (ctx : QueryContext) (n : nat) (ended : list DnsProtocol) (remaining : nat)
    (all_servfail : bool) {struct remaining} : Bal (DomainError + UpstreamResult) :=
  match remaining with
  | O => mret (inl (all_servers_failed all_servfail))
  | S remaining =>
      match ended with
      | [] => mret (inl (race_timeout n))
      | p :: ended =>
          r ← query_server ctx p;
          match r with
          | inr x => mret (inr x)
          | inl e => first_success ctx n ended remaining (all_servfail && is_servfail e)
          end
      end
  end.

Definition race_pair (ctx : QueryContext) (ended : list DnsProtocol) : Bal (DomainError + UpstreamResult) :=
  match ended with
  | [] => mret (inl (race_timeout 2))
  | p :: rest =>
      r ← query_server ctx p;
      match r, rest with
      | inr x, _ => mret (inr x)
      | inl _, [] => mret (inl (race_timeout 2))
      | inl first, q :: _ =>
          r ← query_server ctx q;
          match r with inr x => mret (inr x) | inl second => mret (inl (pair_failure first second)) end
      end
  end.

Definition parallel (ctx : QueryContext) (servers : list DnsProtocol) : Bal (DomainError + UpstreamResult) := λ s,
  match servers with
  | [] => (inl Error.TransportNoHealthyServers, s)
  | [only] => query_server ctx only s
  | [_; _] => race_pair ctx (arrivals (attempts s) servers) s
  | _ => first_success ctx (length servers) (arrivals (attempts s) servers) (length servers) true s
  end.

Definition query_refs (ctx : QueryContext) (st : UpstreamStrategy) (pool : nat) (servers : list DnsProtocol)
    : Bal (DomainError + UpstreamResult) :=
  match st with
  | StParallel => parallel ctx servers
  | StBalanced => balanced ctx pool servers
  | StFailover => failover ctx servers
  end.

(** ** Pools *)

Definition classify (r : DomainError + UpstreamResult) : PoolFailure + UpstreamResult :=
  match r with
  | inr x => inr x
  | inl e =>
      if is_transport_error e then inl (FellThrough false)
      else match e with
           | Error.UpstreamServerFailure _ _ | Error.AllUpstreamsServfail => inl (FellThrough (is_servfail e))
           | _ => inl (Final e)
           end
  end.

(** [PoolWithStrategy::query], of the pool at a position of the set. *)
Definition pool_query (pool : nat) (p : PoolWithStrategy) (servers : list DnsProtocol)
    (timeout : Z) (query : bytes) (v : ResponseValidator) : Bal (PoolFailure + UpstreamResult) :=
  let ctx := mkContext timeout query v (pool_name (config p)) (server_displays p) in
  r ← query_refs ctx (pool_strategy (config p)) pool servers;
  mret (classify r).

Definition healthy_servers (p : PoolWithStrategy) : Bal (list DnsProtocol) := λ s,
  (match health with
   | Some checker => List.filter (is_healthy (checker (attempts s))) (server_protocols p)
   | None => server_protocols p
   end, s).

Definition query_routed (pool : nat) (p : PoolWithStrategy) (timeout : Z) (query : bytes)
    (v : ResponseValidator) : Bal (DomainError + UpstreamResult) :=
  healthy ← healthy_servers p;
  let servers := if bool_decide (healthy = []) then server_protocols p else healthy in
  if bool_decide (servers = []) then mret (inl (all_servers_failed false))
  else
    r ← pool_query pool p servers timeout query v;
    mret (match r with
          | inr x => inr x
          | inl (Final e) => inl e
          | inl (FellThrough servfail) => inl (all_servers_failed servfail)
          end).

Definition set_failing (b : bool) : Bal unit := λ s, ((), mkAsked (attempts s) (next s) b).

Definition after_pool (w : Walk) (r : PoolFailure + UpstreamResult) (continue : Walk → Bal walked) : Bal walked :=
  match r with
  | inr x => mret (inl (inr x))
  | inl (Final e) => mret (inl (inl e))
  | inl (FellThrough servfail) => continue (mkWalk (any_healthy w) true (all_servfail w && servfail))
  end.

Fixpoint walk_healthy (pools : list (nat * PoolWithStrategy)) (timeout : Z) (query : bytes)
    (v : ResponseValidator) (w : Walk) : Bal walked :=
  match pools with
  | [] => mret (inr w)
  | (i, p) :: pools =>
      healthy ← healthy_servers p;
      if bool_decide (healthy = []) then walk_healthy pools timeout query v w
      else
        _ ← (if any_healthy w then mret () else set_failing false);
        let w := mkWalk true (any_tried w) (all_servfail w) in
        r ← pool_query i p healthy timeout query v;
        after_pool w r (walk_healthy pools timeout query v)
  end.

Fixpoint walk_all (pools : list (nat * PoolWithStrategy)) (timeout : Z) (query : bytes)
    (v : ResponseValidator) (w : Walk) : Bal walked :=
  match pools with
  | [] => mret (inr w)
  | (i, p) :: pools =>
      if bool_decide (server_protocols p = []) then walk_all pools timeout query v w
      else
        r ← pool_query i p (server_protocols p) timeout query v;
        after_pool w r (walk_all pools timeout query v)
  end.

Definition walk_error (w : Walk) : DomainError := all_servers_failed (any_tried w && all_servfail w).

Definition query_default (pools : list (nat * PoolWithStrategy)) (timeout : Z) (query : bytes)
    (v : ResponseValidator) : Bal (DomainError + UpstreamResult) :=
  r ← walk_healthy pools timeout query v (mkWalk false false true);
  match r with
  | inl res => mret res
  | inr w =>
      if negb (any_healthy w) && bool_decide (is_Some health) then
        _ ← set_failing true;
        r ← walk_all pools timeout query v w;
        match r with
        | inl res => mret res
        | inr w => mret (inl (walk_error w))
        end
      else mret (inl (walk_error w))
  end.

(** The pools of the default walk; an index is always one of the set's. *)
Definition pools_at (set : PoolSet) (indexes : list nat) : list (nat * PoolWithStrategy) :=
  omap (λ i, (λ p, (i, p)) <$> set_pools set !! i) indexes.

Definition with_internal (internal : bool) (r : UpstreamResult) : UpstreamResult :=
  mkUpstream (u_response r) (u_latency_ms r) (u_pool_name r) (u_server_display r) internal.

Definition is_internal (routed : option (nat * Route)) : bool :=
  match routed with Some (_, r) => route_internal r | None => false end.

(** [query_for]: the outcome is a crash only if a route points outside the set. *)
Definition query_for (set : PoolSet) (hardening : HardeningOpts) (secrets bits : bytes) (group : option Z)
    (domain : str) (t : RecordType) (timeout : Z) (dnssec_ok : bool)
    : Bal (outcome (DomainError + UpstreamResult)) :=
  let routed := returned (routes_lookup (set_routes set) domain group) in
  let dnssec_ok := dnssec_ok && negb (is_internal routed) in
  match build_query_hardened secrets bits domain t dnssec_ok hardening with
  | inl e => mret (Ret (inl e))
  | inr (query, v) =>
      match routed with
      | Some (index, route) =>
          match set_pools set !! index with
          | None => mret (Crash Panicked)
          | Some p =>
              r ← query_routed index p timeout query v;
              mret (Ret (match r with inr x => inr (with_internal (route_internal route) x) | inl e => inl e end))
          end
      | None =>
          r ← query_default (pools_at set (default_pools set)) timeout query v;
          mret (Ret r)
      end
  end.

End balancer.

Section manager.
Context (domain_to_ascii : str → string + str).
Context (lookup_host : nat → str → Z → string + (list SocketAddr * option Z)).

(** ** Building a set *)

Definition MAX_ADDRS_PER_FAMILY : nat := 4.

Definition is_ipv4 (s : SocketAddr) : bool := match sa_ip s with V4 _ => true | V6 _ => false end.

(** At most four addresses of each family, the first ones. *)
Fixpoint limit_from (addrs : list SocketAddr) (v4 v6 : nat) : list SocketAddr :=
  match addrs with
  | [] => []
  | a :: addrs =>
      if is_ipv4 a && (v4 <? MAX_ADDRS_PER_FAMILY)%nat then a :: limit_from addrs (S v4) v6
      else if negb (is_ipv4 a) && (v6 <? MAX_ADDRS_PER_FAMILY)%nat then a :: limit_from addrs v4 (S v6)
      else limit_from addrs v4 v6
  end.
Definition limit_resolved_addrs (addrs : list SocketAddr) : list SocketAddr := limit_from addrs 0 0.

(** What an earlier lookup gave the server, if it gave it anything. *)
Definition groups_of_set (set : PoolSet) : list ServerGroup := set_pools set ≫= server_groups.
Definition kept_group (previous : option PoolSet) (orig : str) : option ServerGroup :=
  set ← previous;
  g ← find (λ g, bool_decide (original g = orig) && existsb (λ p, negb (needs_resolution p)) (protocols g))
        (groups_of_set set);
  Some (mkGroup (original g) (protocols g) LookupFailed).

Definition failed_group (previous : option PoolSet) (orig : str) (p : DnsProtocol) : ServerGroup :=
  default (mkGroup orig [p] LookupFailed) (kept_group previous orig).

Definition expand_entry (previous : option PoolSet) (n : nat) (e : str * DnsProtocol) : ServerGroup :=
  let '(orig, p) := e in
  if needs_resolution p then
    match p with
    | PUdp a | PTcp a | PTls a _ | PQuic a _ =>
        match unresolved_parts a with
        | None => mkGroup orig [p] Literal
        | Some (host, port) =>
            match lookup_host n host port with
            | inr (addrs, ttl) =>
                mkGroup orig (with_resolved_addr p <$> limit_resolved_addrs addrs) (ResolvedWith ttl)
            | inl _ => failed_group previous orig p
            end
        end
    | PHttps _ host port _ | PH3 _ host port _ =>
        match lookup_host n host port with
        | inr (addrs, ttl) => mkGroup orig [with_resolved_addrs p (limit_resolved_addrs addrs)] (ResolvedWith ttl)
        | inl _ => failed_group previous orig p
        end
    end
  else mkGroup orig [p] Literal.

(** [n] is the first entry's position. *)
Definition expand_hostnames (previous : option PoolSet) (n : nat) (entries : list (str * DnsProtocol))
    : list ServerGroup :=
  imap (λ i, expand_entry previous (n + i)%nat) entries.

(** [sort_by_key] on the priority, which keeps the order of equals. *)
Fixpoint insert_pool (p : PoolWithStrategy) (pools : list PoolWithStrategy) : list PoolWithStrategy :=
  match pools with
  | [] => [p]
  | q :: pools =>
      if pool_priority (config p) <=? pool_priority (config q) then p :: q :: pools
      else q :: insert_pool p pools
  end.
Definition sort_by_priority (pools : list PoolWithStrategy) : list PoolWithStrategy :=
  foldr insert_pool [] pools.

Definition displays_of (ps : list DnsProtocol) : gmap DnsProtocol str :=
  foldl (λ m p, <[p := show_protocol p]> m) ∅ ps.

Definition with_strategy (e : UpstreamPool * list ServerGroup) : DomainError + PoolWithStrategy :=
  let '(pool, groups) := e in
  let servers := groups ≫= protocols in
  domains ← normalized_domains domain_to_ascii pool;
  inr (mkPws pool servers groups (displays_of servers) (head domains)).

Definition default_indexes (pools : list PoolWithStrategy) : list nat :=
  omap (λ e : nat * PoolWithStrategy, if is_conditional (config e.2) then None else Some e.1) (imap pair pools).

Definition assemble (pools : list (UpstreamPool * list ServerGroup)) : DomainError + PoolSet :=
  pools ← mapM with_strategy pools;
  let pools := sort_by_priority pools in
  routes ← build domain_to_ascii (config <$> pools);
  inr (mkSet pools routes (default_indexes pools)).

Definition parse_server (s : str) : DomainError + (str * DnsProtocol) :=
  p ← protocol_from_str s; inr (s, p).

Fixpoint expand_pools (previous : option PoolSet) (n : nat) (pools : list UpstreamPool)
    : DomainError + list (UpstreamPool * list ServerGroup) :=
  match pools with
  | [] => inr []
  | pool :: pools =>
      entries ← mapM parse_server (pool_servers pool);
      rest ← expand_pools previous (n + length entries) pools;
      inr ((pool, expand_hostnames previous n entries) :: rest)
  end.

Definition build_pools (previous : option PoolSet) (pools : list UpstreamPool) : DomainError + PoolSet :=
  if bool_decide (pools = []) then inl (Error.ConfigError "At least one pool must be configured")
  else if forallb is_conditional pools then
    inl (Error.ConfigError "At least one pool must have no domains, to answer every other query")
  else expanded ← expand_pools previous 0 pools; assemble expanded.

(** ** The live set *)

Record PoolManager := mkManager { version : nat; live : PoolSet; group_flag : bool }.

Definition manager_new (pools : list UpstreamPool) : DomainError + PoolManager :=
  set ← build_pools None pools;
  inr (mkManager 0 set (has_group_routes (set_routes set))).

(** [prepare]: a failed build leaves the manager as it is. *)
Definition prepare (pm : PoolManager) (pools : list UpstreamPool) : DomainError + PoolSet :=
  build_pools (Some (live pm)) pools.

(** The three writes of [apply]. *)
Definition raise_flag (pm : PoolManager) (set : PoolSet) : PoolManager :=
  mkManager (version pm) (live pm) (group_flag pm || has_group_routes (set_routes set)).
Definition swap_set (pm : PoolManager) (set : PoolSet) : PoolManager :=
  mkManager (S (version pm)) set (group_flag pm).
Definition lower_flag (pm : PoolManager) (set : PoolSet) : PoolManager :=
  mkManager (version pm) (live pm) (group_flag pm && has_group_routes (set_routes set)).
Definition pm_apply (pm : PoolManager) (set : PoolSet) : PoolManager :=
  lower_flag (swap_set (raise_flag pm set) set) set.
Definition reload (pm : PoolManager) (pools : list UpstreamPool) : DomainError + PoolManager :=
  set ← prepare pm pools; inr (pm_apply pm set).
Definition routing_changes (pm : PoolManager) (prepared : PoolSet) : bool :=
  differs_from (set_routes (live pm)) (set_routes prepared).

(** [UpstreamReloadAdapter::reload_pools]: the managers, and whether the cache is cleared. *)
Definition reload_pools (managers : list PoolManager) (pools : list UpstreamPool)
    : DomainError + (list PoolManager * bool) :=
  prepared ← mapM (λ pm, prepare pm pools) managers;
  let changed := match managers, prepared with
                 | pm :: _, p :: _ => routing_changes pm p | _, _ => false end in
  inr (zip_with pm_apply managers prepared, changed).

Definition route (pm : PoolManager) (domain : str) (group : option Z) : option Route :=
  snd <$> returned (routes_lookup (set_routes (live pm)) domain group).

(** [PoolManager::view], with the flag and the set as read. *)
Definition view_from (flag : bool) (set : PoolSet) (domain : str) (group : option Z) : Z :=
  if bool_decide (group = None) || negb flag then 0
  else match returned (routes_lookup (set_routes set) domain group) with
       | Some (_, r) => route_view r
       | None => 0
       end.
Definition view (pm : PoolManager) (domain : str) (group : option Z) : Z :=
  view_from (group_flag pm) (live pm) domain group.

(** ** Hostname servers *)

Fixpoint first_of_each (seen : list str) (groups : list ServerGroup) : list (str * Resolution) :=
  match groups with
  | [] => []
  | g :: groups =>
      if bool_decide (original g ∈ seen) then first_of_each seen groups
      else (original g, resolution g) :: first_of_each (original g :: seen) groups
  end.
Definition hostname_servers (pm : PoolManager) : list (str * Resolution) :=
  first_of_each [] (List.filter (λ g, negb (bool_decide (resolution g = Literal))) (groups_of_set (live pm))).

Definition protocol_addresses (p : DnsProtocol) : list SocketAddr :=
  match p with
  | PHttps _ _ _ addrs | PH3 _ _ _ addrs => addrs
  | _ => match protocol_socket p with Some a => [a] | None => [] end
  end.
Definition addresses_of (g : ServerGroup) : gset SocketAddr := list_to_set (protocols g ≫= protocol_addresses).

Definition copies_of (set : PoolSet) (orig : str) : list ServerGroup :=
  List.filter (λ g, bool_decide (original g = orig)) (groups_of_set set).
Definition patch_group (new : ServerGroup) (g : ServerGroup) : ServerGroup :=
  if bool_decide (original g = original new) then new else g.
Definition patch_set (current : PoolSet) (new : ServerGroup) : DomainError + PoolSet :=
  assemble ((λ p, (config p, patch_group new <$> server_groups p)) <$> set_pools current).

(** What a refresh of a server finds: its resolution, and the set to swap in if the addresses
    changed.  [None] when no pool lists the server. *)
Definition refresh_patch (current : PoolSet) (orig : str) (n : nat) : option (Resolution * option PoolSet) :=
  let copies := copies_of current orig in
  first ← head copies;
  p ← match protocol_from_str orig with inr p => Some p | inl _ => None end;
  let new := expand_entry (Some current) n (original first, p) in
  if forallb (λ copy, bool_decide (addresses_of copy = addresses_of new)) copies then Some (resolution new, None)
  else match patch_set current new with
       | inl _ => Some (resolution new, None)
       | inr patched => Some (resolution new, Some patched)
       end.

(** The swap, skipped if the set is not the one the refresh started from. *)
Definition compare_and_swap (pm : PoolManager) (started : nat) (patched : PoolSet) : PoolManager :=
  if (version pm =? started)%nat then swap_set pm patched else pm.

(** The transports of the addresses a server no longer has. *)
Definition forgotten (current : PoolSet) (orig : str) (new : ServerGroup) : list DnsProtocol :=
  List.filter (λ p, negb (bool_decide (p ∈ protocols new))) (copies_of current orig ≫= protocols).

Definition get_all_servers (pm : PoolManager) : list SocketAddr :=
  set_pools (live pm) ≫= λ p, omap protocol_socket (server_protocols p).
Definition get_all_arc_protocols (pm : PoolManager) : list DnsProtocol :=
  set_pools (live pm) ≫= server_protocols.
Definition get_health_probes (pm : PoolManager) : list HealthProbe :=
  set_pools (live pm) ≫= λ p, (λ s, (s, probe_zone p)) <$> server_protocols p.

End manager.
