(* ===== verification/BalancerSpec.v ===== *)
(** What a query of the pools asks, and what its result says of the answers. *)

From Stdlib Require Import String.
From stdpp Require Import pretty.
From S2P Require Import Prelude Errors Text Net Routes Protocol Forwarding Health Balancer.

#[local] Set Default Proof Using "Type".

(** ** Attempts *)

Definition failed (a : Attempt) : Prop := ∃ e, a.2 = inl e.
Definition servfailed (a : Attempt) : Prop := ∃ e, a.2 = inl e ∧ is_servfail e = true.

(** A program adds attempts, of which and of its result [P] holds. *)
Definition runs {A} (m : Bal A) (P : list Attempt → A → Prop) : Prop :=
  ∀ s, ∃ new, attempts (m s).2 = attempts s ++ new ∧ P new (m s).1.

Lemma runs_ret {A} (a : A) (P : list Attempt → A → Prop) : P [] a → runs (mret a) P.
Proof. intros HP s. exists []. by rewrite app_nil_r. Qed.

Lemma runs_bind {A B} (m : Bal A) (k : A → Bal B) (P : list Attempt → A → Prop) (Q : list Attempt → B → Prop) :
  runs m P → (∀ new a, P new a → runs (k a) (λ new' b, Q (new ++ new') b)) → runs (m ≫= k) Q.
Proof.
  intros Hm Hk s. destruct (Hm s) as (new & E & HP). unfold mbind, bal_bind.
  destruct (m s) as [a s1]. cbn in *. destruct (Hk new a HP s1) as (new' & E' & HQ).
  exists (new ++ new'). by rewrite E', E, app_assoc.
Qed.

Lemma runs_mono {A} (m : Bal A) (P Q : list Attempt → A → Prop) :
  runs m P → (∀ new a, P new a → Q new a) → runs m Q.
Proof. intros Hm HQ s. destruct (Hm s) as (new & E & HP). exists new. eauto. Qed.

(** ** One pool *)

(** A strategy's outcome, on the servers it was given: a success is the last attempt, after failures
    only; on a failure every attempt failed; it reads as SERVFAIL only if each server answered so. *)
Record asked_well (servers : list DnsProtocol) (new : list Attempt) (r : DomainError + UpstreamResult) : Prop := {
  aw_servers : Forall (λ a : Attempt, a.1 ∈ servers) new;
  aw_result : match r with
    | inr x => ∃ init p, new = init ++ [(p, inr x)] ∧ Forall failed init
    | inl e => Forall failed new ∧ (is_servfail e = true → new ≠ [] ∧ servers ⊆ new.*1 ∧ Forall servfailed new)
    end;
}.

Section strategies.
Context `{Hickory}.
Context (send : list Attempt → DnsProtocol → bytes → Z → DomainError + bytes).
Context (spent : list Attempt → DnsProtocol → Z * Z).
Context (arrivals : list Attempt → list DnsProtocol → list DnsProtocol).
Context (health : option (list Attempt → HealthChecker)).
Context (arrivals_ok : ∀ asked servers, arrivals asked servers ⊆+ servers).
Abbreviation query_server := (query_server send spent).
Abbreviation try_each := (try_each send spent).
Abbreviation first_success := (first_success send spent).

Lemma query_server_runs ctx p : runs (query_server ctx p) (λ new r, new = [(p, r)]).
Proof. intros s. by eexists. Qed.

Lemma all_servers_failed_servfail b : is_servfail (all_servers_failed b) = b.
Proof. by destruct b. Qed.

(** One more failure in front of a run. *)
Lemma try_each_runs ctx servers b : runs (try_each ctx servers b) (λ new r,
  Forall (λ a : Attempt, a.1 ∈ servers) new ∧
  match r with
  | inr x => ∃ init p, new = init ++ [(p, inr x)] ∧ Forall failed init
  | inl e => new.*1 = servers ∧ Forall failed new ∧ (is_servfail e = true → b = true ∧ Forall servfailed new)
  end).
Proof.
  revert b. induction servers as [|p servers IH]; intros b; cbn [Balancer.try_each].
  { apply runs_ret. split; [constructor|]. rewrite all_servers_failed_servfail. split_and!; [done|constructor|].
    intros ->. split; [done|constructor]. }
  eapply runs_bind; [apply query_server_runs|]. intros ? r ->. destruct r as [e|x].
  - eapply runs_mono; [apply IH|]. cbn. intros new r [Hs Hr]. split.
    { constructor; [by left|]. eapply Forall_impl; [exact Hs|]. intros a Ha. by right. }
    destruct r as [e'|x].
    + destruct Hr as (E & Hf & Hsf). split_and!; [by f_equal|constructor; [by eexists|done]|].
      intros [[Hb He]%andb_true_iff Hall]%Hsf. split; [done|]. constructor; [by exists e|done].
    + destruct Hr as (init & q & -> & Hi). exists ((p, inl e) :: init), q. split; [done|].
      constructor; [by eexists|done].
  - apply runs_ret. cbn. split; [constructor; [by left|constructor]|]. exists [], p. split; [done|constructor].
Qed.

Lemma try_each_asked ctx order servers : order ⊆ servers → servers ⊆ order → servers ≠ [] →
  runs (try_each ctx order true) (asked_well servers).
Proof.
  intros Hos Hso Hne. eapply runs_mono; [apply try_each_runs|]. intros new r [Hs Hr]. split.
  { eapply Forall_impl; [exact Hs|]. intros a. apply Hos. }
  destruct r as [e|x]; [|done]. destruct Hr as (E & Hf & Hsf). split; [done|].
  intros [_ Hall]%Hsf. rewrite E. split_and!; [|done..]. intros ->. destruct servers as [|p servers]; [done|].
  specialize (Hso p ltac:(by left)). cbn in E. subst. by inversion Hso.
Qed.

Lemma elem_of_rotated servers start : servers ≠ [] → rotated servers start ⊆ servers ∧ servers ⊆ rotated servers start.
Proof.
  intros Hne. assert (Hl : length servers ≠ 0%nat) by (by destruct servers).
  unfold rotated. split; intros p Hp.
  - apply list_elem_of_omap in Hp as (i & _ & Hi). by eapply list_elem_of_lookup_2.
  - apply list_elem_of_lookup in Hp as [j Hj]. pose proof (lookup_lt_Some _ _ _ Hj) as Hlt.
    set (n := length servers) in *. apply list_elem_of_omap.
    exists ((j + (n - start mod n)) mod n)%nat. split.
    { apply elem_of_seq. split; [lia|]. apply Nat.mod_upper_bound. done. }
    rewrite <-Hj. f_equal. rewrite Nat.Div0.add_mod_idemp_r.
    rewrite <-(Nat.Div0.add_mod_idemp_l start).
    replace (start mod n + (j + (n - start mod n)))%nat with (j + 1 * n)%nat.
    + rewrite Nat.Div0.mod_add. by apply Nat.mod_small.
    + pose proof (Nat.mod_upper_bound start n Hl). lia.
Qed.

Lemma first_success_runs ctx n ended k b : runs (first_success ctx n ended k b) (λ new r,
  new.*1 `prefix_of` ended ∧
  match r with
  | inr x => ∃ init p, new = init ++ [(p, inr x)] ∧ Forall failed init
  | inl e => Forall failed new ∧ (is_servfail e = true → length new = k ∧ b = true ∧ Forall servfailed new)
  end).
Proof.
  revert ended b. induction k as [|k IH]; intros ended b; cbn [Balancer.first_success].
  { apply runs_ret. split; [apply prefix_nil|]. rewrite all_servers_failed_servfail. split; [constructor|].
    intros ->. split_and!; [done..|constructor]. }
  destruct ended as [|p ended].
  { apply runs_ret. split; [done|]. split; [constructor|done]. }
  eapply runs_bind; [apply query_server_runs|]. intros ? r ->. destruct r as [e|x].
  - eapply runs_mono; [apply IH|]. cbn. intros new r [Hp Hr]. split; [by apply prefix_cons|].
    destruct r as [e'|x].
    + destruct Hr as [Hf Hsf]. split; [constructor; [by eexists|done]|].
      intros (El & [Hb He]%andb_true_iff & Hall)%Hsf. split_and!; [by f_equal|done|].
      constructor; [by exists e|done].
    + destruct Hr as (init & q & -> & Hi). exists ((p, inl e) :: init), q. split; [done|].
      constructor; [by eexists|done].
  - apply runs_ret. cbn. split; [by apply prefix_cons, prefix_nil|]. exists [], p. split; [done|constructor].
Qed.

(** As many servers of a list as it has, each of it at most once, are all of it. *)
Lemma all_of (l k : list DnsProtocol) : l ⊆+ k → (length k ≤ length l)%nat → k ⊆ l.
Proof. intros Hs Hl p. rewrite (submseteq_length_Permutation _ _ Hs) by lia. done. Qed.

Lemma prefix_submseteq (l k : list DnsProtocol) : l `prefix_of` k → l ⊆+ k.
Proof. intros [r ->]. by apply submseteq_inserts_r. Qed.

Lemma pair_failure_servfail e e' : is_servfail (pair_failure e e') = true → is_servfail e = true ∧ is_servfail e' = true.
Proof. unfold pair_failure. destruct (is_servfail e) eqn:E, (is_servfail e') eqn:E'; cbn; intros Hs; split; congruence. Qed.

Lemma race_pair_asked ctx ended servers : length servers = 2%nat → ended ⊆+ servers →
  runs (race_pair send spent ctx ended) (asked_well servers).
Proof.
  intros Hl Hs. assert (Hin : ∀ p, p ∈ ended → p ∈ servers) by (intros p Hp; by eapply elem_of_submseteq).
  unfold race_pair. destruct ended as [|p rest].
  { apply runs_ret. split; [constructor|]. split; [constructor|done]. }
  eapply runs_bind; [apply query_server_runs|]. intros ? r ->. destruct r as [e|x].
  - destruct rest as [|q rest].
    { apply runs_ret. cbn. split; [constructor; [apply Hin; by left|constructor]|].
      split; [constructor; [by eexists|constructor]|done]. }
    eapply runs_bind; [apply query_server_runs|]. intros ? r ->. destruct r as [e'|x]; apply runs_ret; cbn;
      (split; [constructor; [apply Hin; by left|constructor; [apply Hin; right; by left|constructor]]|]).
    + split; [constructor; [by eexists|constructor; [by eexists|constructor]]|].
      intros [H1 H2]%pair_failure_servfail. split_and!; [done| |].
      * cbn. destruct rest as [|y rest]; [by apply all_of; [|cbn; lia]|].
        pose proof (submseteq_length _ _ Hs). cbn in *. lia.
      * constructor; [by exists e|]. constructor; [by exists e'|constructor].
    + exists [(p, inl e)], q. split; [done|]. constructor; [by eexists|constructor].
  - apply runs_ret. cbn. split; [constructor; [apply Hin; by left|constructor]|].
    exists [], p. split; [done|constructor].
Qed.

Lemma parallel_many ctx servers s : (2 < length servers)%nat →
  parallel send spent arrivals ctx servers s
  = first_success ctx (length servers) (arrivals (attempts s) servers) (length servers) true s.
Proof. destruct servers as [|p [|q [|r servers]]]; cbn; [lia..|done]. Qed.

Lemma query_refs_asked ctx st pool servers : servers ≠ [] →
  runs (query_refs send spent arrivals ctx st pool servers) (asked_well servers).
Proof using arrivals_ok.
  intros Hne. destruct st; cbn [query_refs].
  - intros s. cbn [query_refs]. destruct (decide (2 < length servers)%nat) as [Hm|Hm].
    { rewrite parallel_many by done.
      destruct (first_success_runs ctx (length servers) (arrivals (attempts s) servers) (length servers) true s)
        as (new & Ea & Hp & Hr).
      exists new. split; [done|]. pose proof (prefix_submseteq _ _ Hp) as Hsub.
      assert (Hsub' : new.*1 ⊆+ servers) by (by etrans). split.
      { apply Forall_forall. intros a Ha. eapply elem_of_submseteq; [|exact Hsub'].
        by apply list_elem_of_fmap_2. }
      destruct (first_success _ _ _ _ _ s).1 as [e|x]; [|done]. destruct Hr as [Hf Hsf]. split; [done|].
      intros (El & _ & Hall)%Hsf. split_and!; [|apply all_of; [done|by rewrite length_fmap, El]|done].
      intros ->. by destruct servers. }
    destruct servers as [|p [|q [|r servers]]]; [done|..|cbn in Hm; lia]; cbn [parallel].
    + destruct (query_server_runs ctx p s) as (new & Ea & ->). eexists. split; [exact Ea|].
      destruct (query_server ctx p s).1 as [e|x]; cbn.
      * split; [constructor; [by left|constructor]|]. split; [constructor; [by eexists|constructor]|].
        intros He. split_and!; [done|done|]. constructor; [by exists e|constructor].
      * split; [constructor; [by left|constructor]|]. exists [], p. split; [done|constructor].
    + by apply race_pair_asked.
  - unfold failover. rewrite bool_decide_false by done. by apply try_each_asked.
  - unfold balanced. rewrite bool_decide_false by done.
    apply (runs_bind _ _ (λ new _, new = [])); [intros s; exists []; by rewrite app_nil_r|].
    intros ? n ->. destruct (elem_of_rotated servers (Z.to_nat (n mod Z.of_nat (length servers))) Hne).
    by apply try_each_asked.
Qed.

(** ** Pools in turn *)

Definition all_failed (new : list Attempt) : Prop := Forall failed new.
Definition all_servfailed (new : list Attempt) : Prop := new ≠ [] ∧ Forall servfailed new.
Definition ends_in (x : UpstreamResult) (new : list Attempt) : Prop :=
  ∃ init p, new = init ++ [(p, inr x)] ∧ Forall failed init.
Definition asks (servers : DnsProtocol → Prop) (new : list Attempt) : Prop :=
  Forall (λ a : Attempt, servers a.1) new.

Lemma ends_in_app x new new' : all_failed new → ends_in x new' → ends_in x (new ++ new').
Proof.
  intros Hf (init & p & -> & Hi). exists (new ++ init), p. split; [by rewrite app_assoc|]. by apply Forall_app.
Qed.

Lemma pool_query_runs i p servers timeout query v : servers ≠ [] →
  runs (pool_query send spent arrivals i p servers timeout query v) (λ new r,
    asks (.∈ servers) new ∧
    match r with
    | inr x => ends_in x new
    | inl (Final e) => all_failed new ∧ is_servfail e = false
    | inl (FellThrough servfail) => all_failed new ∧ (servfail = true → all_servfailed new)
    end).
Proof using arrivals_ok.
  intros Hne. unfold pool_query. eapply runs_bind; [by apply query_refs_asked|].
  intros new r [Hs Hr]. apply runs_ret. rewrite app_nil_r. split; [done|].
  destruct r as [e|x]; cbn [classify]; [|done]. destruct Hr as [Hf Hsf].
  assert (Hsf' : is_servfail e = true → all_servfailed new) by (intros He; by destruct (Hsf He) as (? & _ & ?)).
  destruct (is_transport_error e) eqn:Et; [by split|].
  destruct e; try (split; [done|reflexivity]); by split.
Qed.

(** What a walk over [pools] has asked. *)
Definition served_by (pools : list (nat * PoolWithStrategy)) (p : DnsProtocol) : Prop :=
  ∃ i q, (i, q) ∈ pools ∧ p ∈ server_protocols q.
Definition result_ok (new : list Attempt) (r : DomainError + UpstreamResult) : Prop :=
  match r with
  | inr x => ends_in x new
  | inl e => all_failed new ∧ (is_servfail e = true → all_servfailed new)
  end.
Definition walk_ok (pools : list (nat * PoolWithStrategy)) (w : Walk) (new : list Attempt) (r : walked) : Prop :=
  asks (served_by pools) new ∧
  match r with
  | inl (inr x) => ends_in x new
  | inl (inl e) => all_failed new ∧ is_servfail e = false
  | inr w' => all_failed new
      ∧ (all_servfail w' = true → all_servfail w = true ∧ Forall servfailed new
           ∧ (any_tried w' = true → any_tried w = true ∨ new ≠ []))
  end.

Lemma asks_mono (P Q : DnsProtocol → Prop) new : asks P new → (∀ p, P p → Q p) → asks Q new.
Proof. intros Ha HPQ. eapply Forall_impl; [exact Ha|]. intros a. apply HPQ. Qed.

Lemma walk_ok_skip i p pools w new r : walk_ok pools w new r → walk_ok ((i, p) :: pools) w new r.
Proof.
  intros [Ha Hr]. split; [|done]. eapply asks_mono; [exact Ha|].
  intros x (j & q & Hq & Hx). exists j, q. split; [by right|done].
Qed.

Lemma walk_ok_nil w : walk_ok [] w [] (inr w).
Proof. split; [constructor|]. split; [constructor|]. intros ->. split_and!; [done|constructor|by left]. Qed.

(** One pool's outcome, and the walk after it. *)
Lemma after_pool_runs i p pools w servers timeout query v (continue : Walk → Bal walked) :
  servers ≠ [] → servers ⊆ server_protocols p →
  (∀ w', runs (continue w') (walk_ok pools w')) →
  runs (r ← pool_query send spent arrivals i p servers timeout query v; after_pool w r continue)
    (walk_ok ((i, p) :: pools) w).
Proof using arrivals_ok.
  intros Hne Hsub Hc. eapply runs_bind; [by apply pool_query_runs|]. intros new r [Hs Hr].
  assert (Hs' : asks (served_by ((i, p) :: pools)) new).
  { eapply asks_mono; [exact Hs|]. intros q Hq. exists i, p. split; [by left|by apply Hsub]. }
  unfold after_pool. destruct r as [[e|servfail]|x].
  - apply runs_ret. by rewrite app_nil_r.
  - eapply runs_mono; [apply Hc|]. intros new' r' [Ha' Hr']%(walk_ok_skip i p). destruct Hr as [Hf Hsf].
    split; [by apply Forall_app|]. destruct r' as [[e|x]|w'].
    + destruct Hr' as [? ?]. split; [by apply Forall_app|done].
    + by apply ends_in_app.
    + cbn in Hr'. destruct Hr' as (Hf' & Hsf'). split; [by apply Forall_app|].
      intros ([Hw Hsv]%andb_true_iff & Hall & _)%Hsf'. destruct (Hsf Hsv) as [Hnew Hall'].
      split_and!; [done|by apply Forall_app|]. intros _. right. by destruct new.
  - apply runs_ret. by rewrite app_nil_r.
Qed.

Lemma walk_healthy_runs pools timeout query v w :
  runs (walk_healthy send spent arrivals health pools timeout query v w) (walk_ok pools w).
Proof using arrivals_ok.
  revert w. induction pools as [|[i p] pools IH]; intros w; cbn [walk_healthy].
  { apply runs_ret, walk_ok_nil. }
  apply (runs_bind _ _ (λ new healthy, new = [] ∧ healthy ⊆ server_protocols p)).
  { intros s. exists []. rewrite app_nil_r. split; [done|]. split; [done|]. cbn.
    destruct health as [checker|]; [|done]. intros q [? _]%elem_of_filter_bool. done. }
  intros ? healthy [-> Hsub]. case_bool_decide as Hn.
  { eapply runs_mono; [apply IH|]. intros new r. apply walk_ok_skip. }
  apply (runs_bind _ _ (λ new _, new = [])).
  { destruct (any_healthy w); [by apply runs_ret|]. intros s. exists []. by rewrite app_nil_r. }
  intros ? [] ->. by apply (after_pool_runs i p pools (mkWalk true (any_tried w) (all_servfail w))).
Qed.

Lemma walk_all_runs pools timeout query v w :
  runs (walk_all send spent arrivals pools timeout query v w) (walk_ok pools w).
Proof using arrivals_ok.
  revert w. induction pools as [|[i p] pools IH]; intros w; cbn [walk_all].
  { apply runs_ret, walk_ok_nil. }
  case_bool_decide as Hn.
  { eapply runs_mono; [apply IH|]. intros new r. apply walk_ok_skip. }
  by apply after_pool_runs.
Qed.

Lemma query_default_runs pools timeout query v :
  runs (query_default send spent arrivals health pools timeout query v)
    (λ new r, asks (served_by pools) new ∧ result_ok new r).
Proof using arrivals_ok.
  unfold query_default. eapply runs_bind; [apply walk_healthy_runs|]. intros new r [Ha Hr].
  destruct r as [[e|x]|w]; [apply runs_ret; rewrite app_nil_r; split; [done|]..|].
  { destruct Hr as [Hf He]. split; [done|]. congruence. }
  { done. }
  destruct Hr as [Hf Hsf].
  assert (Hend : ∀ new' w', all_failed new' → (all_servfail w' = true → all_servfail w = true ∧ Forall servfailed new'
      ∧ (any_tried w' = true → any_tried w = true ∨ new' ≠ [])) →
    result_ok (new ++ new') (inl (walk_error w'))).
  { intros new' w' Hf' Hsf'. split; [by apply Forall_app|]. unfold walk_error.
    rewrite all_servers_failed_servfail. intros [Ht (Hw & Hall' & Hne')%Hsf']%andb_true_iff.
    destruct (Hsf Hw) as (_ & Hall & Hne). split; [|by apply Forall_app].
    destruct (Hne' Ht) as [Htw|Hn']; [destruct (Hne Htw) as [?|Hn]; [done|]|].
    - by destruct new.
    - by destruct new, new'. }
  destruct (_ && _).
  - apply (runs_bind _ _ (λ new _, new = [])); [intros s; exists []; by rewrite app_nil_r|].
    intros ? [] ->. eapply runs_bind; [apply walk_all_runs|]. intros new' r [Ha' Hr']. cbn [app].
    assert (Haa : asks (served_by pools) (new ++ new')) by by apply Forall_app.
    destruct r as [[e|x]|w']; apply runs_ret; rewrite app_nil_r; (split; [done|]).
    + destruct Hr' as [Hf' He]. split; [by apply Forall_app|congruence].
    + by apply ends_in_app.
    + destruct Hr' as [Hf' Hsf']. by apply Hend.
  - apply runs_ret. rewrite app_nil_r. split; [done|].
    rewrite <-(app_nil_r new). apply Hend; [constructor|]. intros Hw. split_and!; [done|constructor|by left].
Qed.

Lemma query_routed_runs i p timeout query v :
  runs (query_routed send spent arrivals health i p timeout query v)
    (λ new r, asks (.∈ server_protocols p) new ∧ result_ok new r).
Proof using arrivals_ok.
  unfold query_routed. apply (runs_bind _ _ (λ new healthy, new = [] ∧ healthy ⊆ server_protocols p)).
  { intros s. exists []. rewrite app_nil_r. split; [done|]. split; [done|]. cbn.
    destruct health as [checker|]; [|done]. intros q [? _]%elem_of_filter_bool. done. }
  intros ? healthy [-> Hsub].
  set (servers := if bool_decide (healthy = []) then server_protocols p else healthy).
  assert (Hs : servers ⊆ server_protocols p) by (unfold servers; by case_bool_decide).
  clearbody servers. case_bool_decide as Hn.
  { apply runs_ret. split; [constructor|]. split; [constructor|done]. }
  eapply runs_bind; [by apply pool_query_runs|]. intros new r [Ha Hr]. apply runs_ret.
  rewrite app_nil_r. cbn [app]. split; [eapply asks_mono; [exact Ha|]; intros x; apply Hs|].
  destruct r as [[e|servfail]|x]; [|split; [by destruct Hr|]|done].
  - destruct Hr as [? He]. split; [done|congruence].
  - rewrite all_servers_failed_servfail. by destruct Hr.
Qed.

(** ** Queries *)

Lemma build_error secrets bits domain t dnssec_ok hardening e :
  build_query_hardened secrets bits domain t dnssec_ok hardening = inl e → is_servfail e = false.
Proof.
  unfold build_query_hardened. destruct (qname_encode domain) as [e'|q] eqn:E; [|done]. intros [= <-].
  assert (Hf : ∀ q e, finish q = inl e → is_servfail e = false).
  { intros q e0. unfold finish. destruct (_ <=? _)%nat; [|done]. by intros [= <-]. }
  assert (Hp : ∀ ls q e, fold_try push_label q ls = inl e → is_servfail e = false).
  { induction ls as [|l ls IH]; intros q e0; cbn [fold_try]; [done|].
    destruct (push_label q l) as [e1|q1] eqn:Ep; [|apply IH]. intros [= <-].
    unfold push_label, bad_label in Ep. destruct (_ || _); [|done]. by injection Ep as <-. }
  unfold qname_encode in E. destruct (encode_plain domain); [done|].
  destruct (name_from_str domain) as [e1|ls]; [by injection E as <-|].
  destruct (fold_try push_label [] ls) as [e1|q1] eqn:Ef; [|by eapply Hf].
  injection E as <-. by eapply Hp.
Qed.

Context (domain_to_ascii : str → string + str).

Lemma assemble_ok pools set : assemble domain_to_ascii pools = inr set →
  build domain_to_ascii (config <$> set_pools set) = inr (set_routes set)
  ∧ default_pools set = default_indexes (set_pools set).
Proof.
  unfold assemble. rewrite sum_bind_inr. intros (ps & _ & E). rewrite sum_bind_inr in E.
  by destruct E as (t & Et & [= <-]).
Qed.

(** The pool and route the configuration gives a name. *)
Definition routed_pool (set : PoolSet) (domain : str) (group : option Z) : option (nat * Route) :=
  match lowered_name domain with
  | Ret name => route_of domain_to_ascii (config <$> set_pools set) group name
  | _ => None
  end.

Lemma lookup_routed_pool pools set domain group : assemble domain_to_ascii pools = inr set →
  returned (routes_lookup (set_routes set) domain group) = routed_pool set domain group
  ∧ ∀ i r, routed_pool set domain group = Some (i, r) → is_Some (set_pools set !! i).
Proof.
  intros [Hb _]%assemble_ok. rewrite (routes_lookup_eq _ _ _ _ _ Hb). unfold routed_pool.
  destruct (lowered_name domain) as [name| |]; cbn; [|done..]. split; [by destruct (route_of _ _ _ _)|].
  intros i r. unfold route_of. destruct (most_specific _ _ _ _) as [found|]; cbn; [|done].
  rewrite list_lookup_fmap. destruct (set_pools set !! found.1) eqn:E; cbn; [|done].
  intros [= <- <-]. by rewrite E.
Qed.

(** The default walk's pools have no domains. *)
Lemma default_pools_spec set i p : default_pools set = default_indexes (set_pools set) →
  (i, p) ∈ pools_at set (default_pools set) → set_pools set !! i = Some p ∧ is_conditional (config p) = false.
Proof.
  intros Ed. unfold pools_at. rewrite list_elem_of_omap. intros (j & Hj & E).
  apply fmap_Some in E as (q & Hq & [= -> ->]). split; [done|]. rewrite Ed in Hj.
  unfold default_indexes in Hj. apply list_elem_of_omap in Hj as ([k q'] & Hk & E).
  apply elem_of_lookup_imap in Hk as (k' & q'' & [= -> ->] & Hk). cbn in E.
  destruct (is_conditional (config q'')) eqn:Ec; [done|]. injection E as ->. congruence.
Qed.

Definition default_server (set : PoolSet) (s : DnsProtocol) : Prop :=
  ∃ p, p ∈ set_pools set ∧ is_conditional (config p) = false ∧ s ∈ server_protocols p.

(** Where a query for a name may go. *)
Definition may_ask (set : PoolSet) (domain : str) (group : option Z) (s : DnsProtocol) : Prop :=
  match routed_pool set domain group with
  | Some (i, _) => ∃ p, set_pools set !! i = Some p ∧ s ∈ server_protocols p
  | None => default_server set s
  end.

(** A routed answer carries its route's mark. *)
Definition marked (routed : option (nat * Route)) (x : UpstreamResult) : UpstreamResult :=
  match routed with Some (_, r) => with_internal (route_internal r) x | None => x end.

Lemma query_for_runs pools set hardening secrets bits group domain t timeout dnssec_ok :
  assemble domain_to_ascii pools = inr set →
  runs (query_for send spent arrivals health set hardening secrets bits group domain t timeout dnssec_ok)
    (λ new r, asks (may_ask set domain group) new ∧
       match r with
       | Ret (inr x) => ∃ y, ends_in y new ∧ x = marked (routed_pool set domain group) y
       | Ret (inl e) => all_failed new ∧ (is_servfail e = true → all_servfailed new)
       | _ => False
       end).
Proof using arrivals_ok.
  intros Ha. destruct (lookup_routed_pool _ _ domain group Ha) as [El Hp]. unfold query_for. rewrite El.
  destruct (build_query_hardened _ _ _ _ _ _) as [e|[query v]] eqn:Eb.
  { apply runs_ret. split; [constructor|]. split; [constructor|]. intros He.
    by rewrite (build_error _ _ _ _ _ _ _ Eb) in He. }
  unfold may_ask. destruct (routed_pool set domain group) as [[i r]|] eqn:Er.
  - destruct (Hp i r eq_refl) as [p Hip]. rewrite Hip. eapply runs_bind; [apply query_routed_runs|].
    intros new res [Hs Hres]. apply runs_ret. rewrite app_nil_r. split.
    { eapply asks_mono; [exact Hs|]. intros s Hin. by exists p. }
    destruct res as [e|x]; [done|]. by exists x.
  - eapply runs_bind; [apply query_default_runs|]. intros new res [Hs Hres]. apply runs_ret.
    rewrite app_nil_r. split.
    { eapply asks_mono; [exact Hs|]. intros s (i & p & Hin & Hsp).
      destruct (assemble_ok _ _ Ha) as [_ Hd].
      apply (default_pools_spec _ _ _ Hd) in Hin as [Hip Hc].
      exists p. split_and!; [by eapply list_elem_of_lookup_2|done..]. }
    destruct res as [e|x]; [done|]. by exists x.
Qed.

(** C10: Whatever the servers answer, and whichever strategy, health map or race order applies, every
    attempt of a query is at a server of the pool that the configuration routes the name to for the
    client's group, or, when no pool claims the name, of a pool without domains: a name claimed by
    a pool is never asked of another pool's servers, not even when that pool fails. *)
Theorem asked_where_routed pools set hardening secrets bits group domain t timeout dnssec_ok s :
  assemble domain_to_ascii pools = inr set →
  ∃ new, attempts (query_for send spent arrivals health set hardening secrets bits group domain t timeout
                     dnssec_ok s).2 = attempts s ++ new
    ∧ Forall (λ a : Attempt, may_ask set domain group a.1) new.
Proof using arrivals_ok.
  intros Ha. destruct (query_for_runs pools set hardening secrets bits group domain t timeout dnssec_ok Ha s)
    as (new & E & Hs & _).
  by exists new.
Qed.

(** The result of a query is what its attempts say: it never panics; an answer is the last
    attempt's, with the route's mark, after failures only; an error means that every attempt
    failed; and it reads as SERVFAIL only if something was asked and every attempt was answered
    with SERVFAIL, so that a timeout is never reported as one. *)
Theorem result_is_what_was_heard pools set hardening secrets bits group domain t timeout dnssec_ok s :
  assemble domain_to_ascii pools = inr set →
  let '(r, s') := query_for send spent arrivals health set hardening secrets bits group domain t timeout
                    dnssec_ok s in
  ∃ new, attempts s' = attempts s ++ new ∧
    match r with
    | Ret (inr x) => ∃ init p y, new = init ++ [(p, inr y)] ∧ Forall failed init
                       ∧ x = marked (routed_pool set domain group) y
    | Ret (inl e) => Forall failed new ∧ (is_servfail e = true → new ≠ [] ∧ Forall servfailed new)
    | _ => False
    end.
Proof using arrivals_ok.
  intros Ha. pose proof (query_for_runs pools set hardening secrets bits group domain t timeout dnssec_ok Ha s) as Hr.
  destruct (query_for _ _ _ _ _ _ _ _ _ _ _ _ _ s) as [r s']. destruct Hr as (new & E & _ & Hr).
  exists new. split; [done|]. destruct r as [[e|x]| |]; try done.
  destruct Hr as (y & (init & p & Hn & Hf) & Hx). by exists init, p, y.
Qed.

End strategies.

(** ** Examples *)

(** Messages that all read as SERVFAIL, to the query of the example. *)
#[local] Instance servfail_messages : Hickory := {
  message_from_vec := λ _, inr (mkMessage 0x1234 RcServFail false [([of_string "a"; of_string "corp"], 1)] [] [] [] None);
  name_from_str := λ _, inl ""%string; name_to_utf8 := λ _, []; type_debug := λ _, ""%string;
}.

Definition example_udp (last : Z) : DnsProtocol := PUdp (Resolved (mkSocket (V4 last) 53 0)).
Definition example_pools : list (UpstreamPool * list ServerGroup) :=
  [(default_pool, [mkGroup [] [example_udp 1] Literal]);
   (example_pool "office" ["corp"] [] true, [mkGroup [] [example_udp 2; example_udp 3; example_udp 4] Literal])].
Definition example_set : PoolSet :=
  match assemble no_idna example_pools with inr set => set | inl _ => mkSet [] (example_table []) [] end.
Definition example_result :=
  query_for (λ asked _ _ _, if (length asked =? 2)%nat then inl (Error.TransportTimeout "udp") else inr [])
    (λ _ _, (0, 0)) (λ _ servers, servers) None example_set (mkHardening false false) [18; 52] [] None (of_string "a.corp") A
    1000 false (mkAsked [] ∅ false).

Lemma example_assembled : assemble no_idna example_pools = inr example_set.
Proof.
  unfold example_set. destruct (assemble no_idna example_pools) eqn:E; [|done].
  assert (Hok : match assemble no_idna example_pools with inl _ => false | inr _ => true end = true) by by vm_compute.
  by rewrite E in Hok.
Qed.

Lemma asked_where_routed_witness :
  (attempts example_result.2).*1 = [example_udp 2; example_udp 3; example_udp 4]
  ∧ ∃ new, attempts example_result.2 = [] ++ new
      ∧ Forall (λ a : Attempt, may_ask no_idna example_set (of_string "a.corp") None a.1) new.
Proof.
  split; [by vm_compute|]. eapply asked_where_routed; [done|apply example_assembled].
Defined.

Lemma result_is_what_was_heard_witness :
  example_result.1 = Ret (inl Error.TransportAllServersUnreachable)
  ∧ let '(r, s') := example_result in
    ∃ new, attempts s' = [] ++ new ∧
      match r with
      | Ret (inr x) => ∃ init p y, new = init ++ [(p, inr y)] ∧ Forall failed init
                         ∧ x = marked (routed_pool no_idna example_set (of_string "a.corp") None) y
      | Ret (inl e) => Forall failed new ∧ (is_servfail e = true → new ≠ [] ∧ Forall servfailed new)
      | _ => False
      end.
Proof.
  split; [by vm_compute|]. eapply result_is_what_was_heard; [done|apply example_assembled].
Defined.
