(* ===== verification/PoolReload.v ===== *)
(** The live set under reloads and refreshes: the writes of [apply] and of a
    refresh as steps, in any order a run may take them. *)

From Stdlib Require Import String.
From stdpp Require Import relations sorting.
From S2P Require Import Prelude Errors Text Net Routes Protocol Forwarding.
From S2P Require Import Health Balancer BalancerSpec.

#[local] Set Default Proof Using "Type".

Section live.
Context (domain_to_ascii : str → string + str).
Abbreviation assemble := (assemble domain_to_ascii).
Abbreviation patch_set := (patch_set domain_to_ascii).

(** ** What an assembled set keeps of its configuration *)

Definition prio_le (p q : PoolWithStrategy) : Prop := pool_priority (config p) ≤ pool_priority (config q).

Lemma insert_pool_Permutation p pools : insert_pool p pools ≡ₚ p :: pools.
Proof.
  induction pools as [|q pools IH]; cbn; [done|]. destruct (_ <=? _); [done|]. rewrite IH. by constructor.
Qed.

Lemma sort_Permutation pools : sort_by_priority pools ≡ₚ pools.
Proof. induction pools as [|p pools IH]; cbn; [done|]. by rewrite insert_pool_Permutation, IH. Qed.

Lemma insert_pool_Sorted p pools : StronglySorted prio_le pools → StronglySorted prio_le (insert_pool p pools).
Proof.
  induction 1 as [|q pools Hs IH Hq]; cbn; [by repeat constructor|].
  destruct (Z.leb_spec (pool_priority (config p)) (pool_priority (config q))) as [Hle|Hlt].
  - constructor; [by constructor|]. constructor; [done|]. eapply Forall_impl; [exact Hq|].
    unfold prio_le. lia.
  - constructor; [done|]. rewrite insert_pool_Permutation. constructor; [unfold prio_le; lia|done].
Qed.

Lemma sort_Sorted pools : StronglySorted prio_le (sort_by_priority pools).
Proof. induction pools; cbn; [constructor|by apply insert_pool_Sorted]. Qed.

Lemma sort_sorted pools : StronglySorted prio_le pools → sort_by_priority pools = pools.
Proof.
  induction 1 as [|p pools _ IH Hp]; cbn; [done|]. unfold sort_by_priority in IH. rewrite IH.
  destruct pools as [|q pools]; [done|]. cbn. inversion_clear Hp as [|? ? Hpq _]. unfold prio_le in Hpq.
  by destruct (Z.leb_spec (pool_priority (config p)) (pool_priority (config q))); [|lia].
Qed.

Lemma with_strategy_config e p : with_strategy domain_to_ascii e = inr p → config p = e.1 ∧ server_groups p = e.2.
Proof. destruct e as [pool gs]. cbn. rewrite sum_bind_inr. by intros (ds & _ & [= <-]). Qed.

Lemma mapM_configs pools ps : mapM (with_strategy domain_to_ascii) pools = inr ps → config <$> ps = pools.*1.
Proof.
  intros Hf%mapM_inr. induction Hf as [|e p pools ps He _ IH]; [done|]. cbn.
  destruct (with_strategy_config _ _ He) as [-> _]. by f_equal.
Qed.

Lemma assemble_configs pools set : assemble pools = inr set →
  StronglySorted prio_le (set_pools set) ∧ config <$> set_pools set ≡ₚ pools.*1.
Proof.
  unfold Balancer.assemble. rewrite sum_bind_inr. intros (ps & Eps & E). rewrite sum_bind_inr in E.
  destruct E as (t & Et & [= <-]). cbn. split; [apply sort_Sorted|].
  by rewrite <-(mapM_configs _ _ Eps), (sort_Permutation ps).
Qed.

Lemma default_indexes_configs pools pools' : config <$> pools = config <$> pools' →
  default_indexes pools = default_indexes pools'.
Proof.
  assert (Hg : ∀ n pools, omap (λ e : nat * PoolWithStrategy, if is_conditional (config e.2) then None else Some e.1)
      (imap (λ i p, (n + i, p)%nat) pools)
    = omap (λ e : nat * UpstreamPool, if is_conditional e.2 then None else Some e.1)
      (imap (λ i c, (n + i, c)%nat) (config <$> pools))).
  { intros n l. revert n. induction l as [|p l IH]; intros n; [done|]. cbn.
    destruct (is_conditional (config p)) eqn:Ec;
      (rewrite (imap_ext _ (λ i p, (S n + i, p)%nat)) by (intros; cbn; f_equal; lia);
       rewrite (imap_ext ((λ i c, (n + i, c)%nat) ∘ S) (λ i c, (S n + i, c)%nat)) by (intros; cbn; f_equal; lia);
       by rewrite IH). }
  intros E. unfold default_indexes. pose proof (Hg 0%nat pools) as H1. pose proof (Hg 0%nat pools') as H2.
  cbn in H1, H2. rewrite E in H1. etrans; [exact H1|]. by symmetry.
Qed.

Lemma mapM_with_strategy_ok pools : (∀ e, e ∈ pools → ∃ ds, normalized_domains domain_to_ascii e.1 = inr ds) →
  ∃ ps, mapM (with_strategy domain_to_ascii) pools = inr ps.
Proof.
  induction pools as [|[c gs] pools IH]; intros Hok; [by exists []|].
  destruct (Hok (c, gs)) as [ds Eds]; [by left|]. destruct IH as [ps Eps]; [intros e He; apply Hok; by right|].
  cbn [mapM with_strategy]. cbn in Eds. rewrite Eds. cbn [mbind sum_bind]. rewrite Eps. by eexists.
Qed.

(** A refresh changes addresses, and nothing a query is routed by. *)
Lemma patch_keeps_routes pools current new patched :
  assemble pools = inr current → patch_set current new = inr patched →
  config <$> set_pools patched = config <$> set_pools current
  ∧ set_routes patched = set_routes current ∧ default_pools patched = default_pools current.
Proof.
  intros Ha Hp. destruct (assemble_configs _ _ Ha) as [Hs _].
  destruct (assemble_ok _ _ _ Ha) as [Hb Hd]. destruct (assemble_ok _ _ _ Hp) as [Hb' Hd'].
  assert (Hc : config <$> set_pools patched = config <$> set_pools current).
  { unfold Balancer.patch_set, Balancer.assemble in Hp. rewrite sum_bind_inr in Hp. destruct Hp as (ps & Eps & E).
    rewrite sum_bind_inr in E. destruct E as (t & _ & [= <-]). cbn.
    apply mapM_configs in Eps. rewrite <-list_fmap_compose in Eps. cbn in Eps.
    change (config <$> ps = config <$> set_pools current) in Eps. rewrite <-Eps, sort_sorted; [done|].
    clear -Hs Eps. revert ps Eps. induction Hs as [|p l _ IH Hp]; intros [|q ps] E; try done; [constructor|].
    injection E as Eq E. constructor; [by apply IH|]. apply Forall_forall. intros r Hr.
    assert (Hin : config r ∈ config <$> l) 
      by (change (list_fmap _ _ config ps = config <$> l) in E; rewrite <-E; by apply list_elem_of_fmap_2).
    apply list_elem_of_fmap in Hin as (r' & Er & Hr'). rewrite Forall_forall in Hp.
    specialize (Hp r' Hr'). unfold prio_le in *. by rewrite Eq, Er. }
  split_and!; [done| |].
  - rewrite Hc, Hb in Hb'. by injection Hb'.
  - rewrite Hd, Hd'. by apply default_indexes_configs.
Qed.

(** ** The fast path of a view *)

(** The view the routes of a set give a name, for clients of a group. *)
Definition routed_view (set : PoolSet) (domain : str) (group : option Z) : Z :=
  match group, returned (routes_lookup (set_routes set) domain group) with
  | Some _, Some (_, r) => route_view r
  | _, _ => 0
  end.

Lemma no_group_no_view pools set domain group : assemble pools = inr set →
  has_group_routes (set_routes set) = false → routed_view set domain group = 0.
Proof.
  intros Ha Hg. destruct (assemble_ok _ _ _ Ha) as [Hb _]. unfold routed_view.
  destruct group as [g|]; [|done]. rewrite (routes_lookup_eq _ _ _ _ _ Hb).
  destruct (lowered_name domain) as [name| |]; cbn [mbind outcome_bind returned]; [|done..].
  unfold route_of. destruct (most_specific _ _ _ _) as [found|] eqn:E; cbn; [|done].
  destruct (_ !! found.1); cbn; [|done].
  unfold most_specific in E. apply head_Some_elem_of, list_elem_of_omap in E as (d & _ & E).
  unfold owner in E. destruct (_ ≫= _) as [f|] eqn:F; [|by apply fmap_Some in E as (i & _ & ->)].
  exfalso. cbn [mbind option_bind] in F. destruct (u32_try_from g) as [h|]; cbn in F; [|done].
  apply fmap_Some in F as (i & Hc & _). apply claimed_Some in Hc as (p & Hp & Hr).
  enough (has_group_routes (set_routes set) = true) by congruence.
  apply (tb_groups _ _ _ (proj1 (build_ok _ _ _ Hb))). exists p. split; [by eapply list_elem_of_lookup_2|].
  unfold routes_domain in Hr. destruct (normalized_domains domain_to_ascii p) as [|ds] eqn:En; [done|].
  apply andb_true_iff in Hr as [Hd%bool_decide_eq_true Hs%bool_decide_eq_true]. split.
  - unfold is_conditional. destruct (pool_domains p) eqn:Ep; [|done].
    unfold normalized_domains in En. rewrite Ep in En. injection En as <-. by inversion Hd.
  - intros E'. rewrite E' in Hs. by inversion Hs.
Qed.

(** ** Reloads and refreshes as steps *)

(** How far a reload is; reloads take turns. *)
Inductive Reloading := Idle | Raised (set : PoolSet) | Swapped (set : PoolSet).

(** The manager, the reload and the sets the refreshes under way started from. *)
Record Managed := mkManaged { manager : PoolManager; reloading : Reloading; refreshing : list (nat * PoolSet) }.

Inductive managed_step : Managed → Managed → Prop :=
  | step_raise pm refreshes pools set : assemble pools = inr set →
      managed_step (mkManaged pm Idle refreshes) (mkManaged (raise_flag pm set) (Raised set) refreshes)
  | step_swap pm refreshes set :
      managed_step (mkManaged pm (Raised set) refreshes) (mkManaged (swap_set pm set) (Swapped set) refreshes)
  | step_lower pm refreshes set :
      managed_step (mkManaged pm (Swapped set) refreshes) (mkManaged (lower_flag pm set) Idle refreshes)
  | step_refresh pm r refreshes :
      managed_step (mkManaged pm r refreshes) (mkManaged pm r ((version pm, live pm) :: refreshes))
  | step_patch pm r refreshes before after v current new patched :
      refreshes = before ++ (v, current) :: after → patch_set current new = inr patched →
      managed_step (mkManaged pm r refreshes) (mkManaged (compare_and_swap pm v patched) r (before ++ after)).

Record managed_ok (m : Managed) : Prop := {
  mo_built : ∃ pools, assemble pools = inr (live (manager m));
  mo_flag : has_group_routes (set_routes (live (manager m))) = true → group_flag (manager m) = true;
  mo_reload : match reloading m with
    | Idle => True
    | Raised set => (∃ pools, assemble pools = inr set) ∧
        (has_group_routes (set_routes set) = true → group_flag (manager m) = true)
    | Swapped set => has_group_routes (set_routes (live (manager m))) = has_group_routes (set_routes set)
    end;
  mo_refresh : Forall (λ e : nat * PoolSet, (e.1 ≤ version (manager m))%nat
    ∧ (e.1 = version (manager m) → e.2 = live (manager m))) (refreshing m);
}.

Lemma refreshes_older pm set refreshes :
  Forall (λ e : nat * PoolSet, (e.1 ≤ version pm)%nat ∧ (e.1 = version pm → e.2 = live pm)) refreshes →
  Forall (λ e : nat * PoolSet, (e.1 ≤ S (version pm))%nat ∧ (e.1 = S (version pm) → e.2 = set)) refreshes.
Proof. intros Hf. eapply Forall_impl; [exact Hf|]. cbn. intros e [? _]. split; lia. Qed.

Lemma managed_step_ok m m' : managed_step m m' → managed_ok m → managed_ok m'.
Proof.
  intros Hs [Hb Hf Hr Hp]. destruct Hs as [pm rs pools set Ha|pm rs set|pm rs set|pm r rs|pm r rs l1 l2 v c new patched -> Hpatch];
    cbn [manager reloading refreshing] in *.
  - split; cbn; [done|by intros ->%Hf| |done]. split; [by exists pools|]. intros ->. apply orb_true_r.
  - destruct Hr as [Hset Hflag]. split; cbn; [done..|]. by apply refreshes_older.
  - split; cbn; [done| |done..]. intros Hg. by rewrite Hf, <-Hr, Hg.
  - split; cbn; [done..|]. constructor; [cbn; split; [lia|done]|done].
  - assert (Hp' := Hp). apply Forall_app in Hp' as [Hp1 [[Hv Hc] Hp2]%Forall_cons]. cbn in Hv, Hc.
    assert (Hrest : Forall (λ e : nat * PoolSet, (e.1 ≤ version pm)%nat ∧ (e.1 = version pm → e.2 = live pm)) (l1 ++ l2))
      by by apply Forall_app.
    unfold compare_and_swap. destruct (Nat.eqb_spec (version pm) v) as [<-|]; [|by split].
    specialize (Hc eq_refl). subst c. destruct Hb as [pools Ha].
    destruct (patch_keeps_routes _ _ _ _ Ha Hpatch) as (_ & Er & _).
    split; cbn; rewrite ?Er; [by eexists|done..|by apply refreshes_older].
Qed.

(** Started at the version the set was built with. *)
Definition managed_start (m : Managed) : Prop :=
  ∃ pools set, assemble pools = inr set
    ∧ m = mkManaged (mkManager 0 set (has_group_routes (set_routes set))) Idle [].

Lemma managed_reachable m0 m : managed_start m0 → rtc managed_step m0 m → managed_ok m.
Proof.
  intros (pools & set & Ha & ->) Hs.
  assert (H0 : managed_ok (mkManaged (mkManager 0 set (has_group_routes (set_routes set))) Idle [])).
  { split; cbn; [by exists pools|done|done|constructor]. }
  revert H0. induction Hs as [|x y z Hxy _ IH]; [done|]. intros Hx. apply IH. by eapply managed_step_ok.
Qed.

Lemma view_exact m domain group : managed_ok m → group_flag (manager m) = false →
  routed_view (live (manager m)) domain group = 0.
Proof.
  intros [[pools Ha] Hf _ _] Hflag. apply (no_group_no_view _ _ _ _ Ha).
  destruct (has_group_routes _); [|done]. rewrite Hf in Hflag; done.
Qed.

(** C29: In every order of the writes of reloads and refreshes, the flag is never down while the
    live set routes a domain for a group, and the view of a name, for which the flag is read
    first and the set later, is the one the live set's routes gave it when the flag was read or
    when the set was: the check of the flag never sends a client to another view. *)
Theorem view_is_routed m0 m1 m2 domain group :
  managed_start m0 → rtc managed_step m0 m1 → rtc managed_step m1 m2 →
  (has_group_routes (set_routes (live (manager m1))) = true → group_flag (manager m1) = true)
  ∧ ∃ m, (m = m1 ∨ m = m2)
    ∧ view_from (group_flag (manager m1)) (live (manager m2)) domain group = routed_view (live (manager m)) domain group.
Proof.
  intros H0 H1 H2. pose proof (managed_reachable _ _ H0 H1) as Hok. split; [apply Hok|].
  unfold view_from. destruct group as [g|]; cbn [negb orb]; [|exists m1; split; [by left|done]].
  rewrite bool_decide_false by done. destruct (group_flag (manager m1)) eqn:Ef; cbn [negb orb].
  - exists m2. split; [by right|]. unfold routed_view. by destruct (returned _) as [[]|].
  - exists m1. split; [by left|]. by rewrite view_exact.
Qed.

End live.

(** ** Example *)

Definition lab_pools : list (UpstreamPool * list ServerGroup) :=
  [(default_pool, [mkGroup [] [example_udp 1] Literal]); (lab, [mkGroup [] [example_udp 2] Literal])].
Definition lab_set : PoolSet :=
  match Balancer.assemble no_idna lab_pools with inr set => set | inl _ => mkSet [] (example_table []) [] end.
Definition lab_managed (flag : bool) (set : PoolSet) (v : nat) (r : Reloading) : Managed :=
  mkManaged (mkManager v set flag) r [].

Lemma lab_assembled : Balancer.assemble no_idna lab_pools = inr lab_set.
Proof.
  unfold lab_set. destruct (Balancer.assemble no_idna lab_pools) eqn:E; [|done].
  assert (Hok : match Balancer.assemble no_idna lab_pools with inl _ => false | inr _ => true end = true)
    by by vm_compute.
  by rewrite E in Hok.
Qed.

(** A reload to the lab's routes, between the raising of the flag and the swap. *)
Lemma view_is_routed_witness :
  let m0 := lab_managed false example_set 0 Idle in
  let m1 := lab_managed true example_set 0 (Raised lab_set) in
  let m2 := lab_managed true lab_set 1 (Swapped lab_set) in
  view_from (group_flag (manager m1)) (live (manager m2)) (of_string "lab.corp.example") (Some 7) = 7
  ∧ (has_group_routes (set_routes (live (manager m1))) = true → group_flag (manager m1) = true)
  ∧ ∃ m, (m = m1 ∨ m = m2)
    ∧ view_from (group_flag (manager m1)) (live (manager m2)) (of_string "lab.corp.example") (Some 7)
      = routed_view (live (manager m)) (of_string "lab.corp.example") (Some 7).
Proof.
  assert (Hl : has_group_routes (set_routes lab_set) = true) by by vm_compute.
  assert (He : has_group_routes (set_routes example_set) = false) by by vm_compute.
  split; [by vm_compute|]. apply (view_is_routed no_idna (lab_managed false example_set 0 Idle)).
  - exists example_pools, example_set. split; [apply example_assembled|]. by rewrite He.
  - apply rtc_once. pose proof (step_raise no_idna (mkManager 0 example_set false) [] _ _ lab_assembled) as Hs.
    unfold raise_flag in Hs. cbn in Hs. by rewrite Hl in Hs.
  - apply rtc_once. apply (step_swap no_idna (mkManager 0 example_set true) [] lab_set).
Defined.
