(* ===== verification/CacheSchedule.v ===== *)
(** Per-entry timers, [infrastructure/src/dns/cache/schedule.rs]: the inbox the
    cache leaves timers in, and the schedule the worker takes them from.

    A [BTreeMap] from seconds to keys is the list of its entries in ascending
    order of the second. *)

From stdpp Require Import sorting.
From S2P Require Import Prelude Net Float64 CacheRecord.

(** ** Timers *)

Definition INBOX_SHARDS : nat := 16.

Inductive TimerKind := Due | Retry | NegativeExpiry.

#[export] Instance TimerKind_eq_dec : EqDecision TimerKind.
Proof. solve_decision. Defined.

Record ScheduledRefresh := mkTimer { due_at_secs : Z; t_key : CacheKey; t_kind : TimerKind }.

#[export] Instance ScheduledRefresh_eq_dec : EqDecision ScheduledRefresh.
Proof. solve_decision. Defined.

(** ** The inbox *)

Abbreviation TimerInbox := (list (list ScheduledRefresh)).

Definition inbox_new : TimerInbox := replicate INBOX_SHARDS [].

(** Threads get the shards round-robin, in the order of their first push. *)
Definition inbox_shard (thread : nat) : nat := (thread mod INBOX_SHARDS)%nat.

Definition inbox_push (shards : TimerInbox) (thread : nat) (timer : ScheduledRefresh) : TimerInbox :=
  alter (λ timers, timers ++ [timer]) (inbox_shard thread) shards.

(** The timers handed over, and the emptied shards. *)
Definition inbox_drain (shards : TimerInbox) : list ScheduledRefresh * TimerInbox :=
  (mjoin shards, (λ _, []) <$> shards).

(** ** The schedule *)

Abbreviation lane := (list (Z * list CacheKey)).

Record RefreshSchedule := mkSchedule {
  timers : lane;
  retries : lane;
  negatives : lane;
  len : nat;
}.

Definition schedule_new : RefreshSchedule := mkSchedule [] [] [] 0.

(** [entry(second).or_default().push(key)]. *)
Fixpoint lane_push (l : lane) (second : Z) (key : CacheKey) : lane :=
  match l with
  | [] => [(second, [key])]
  | (s, keys) :: rest =>
      if second <? s then (second, [key]) :: l
      else if second =? s then (s, keys ++ [key]) :: rest
      else (s, keys) :: lane_push rest second key
  end.

Definition register (s : RefreshSchedule) (timer : ScheduledRefresh) : RefreshSchedule :=
  let second := due_at_secs timer in
  let key := t_key timer in
  match t_kind timer with
  | Due => mkSchedule (lane_push (timers s) second key) (retries s) (negatives s) (S (len s))
  | Retry => mkSchedule (timers s) (lane_push (retries s) second key) (negatives s) (S (len s))
  | NegativeExpiry =>
      mkSchedule (timers s) (retries s) (lane_push (negatives s) second key) (S (len s))
  end.

(** The loop over one lane: what is due, and the lane without it. *)
Fixpoint lane_take (l : lane) (now : Z) (kind : TimerKind) : list ScheduledRefresh * lane :=
  match l with
  | [] => ([], [])
  | (s, keys) :: rest =>
      if now <? s then ([], l)
      else
        let '(due, rest) := lane_take rest now kind in
        (((λ key, mkTimer s key kind) <$> keys) ++ due, rest)
  end.

(** [sort_by_key(|timer| timer.due_at_secs)], which is stable. *)
Fixpoint insert_by_due (t : ScheduledRefresh) (l : list ScheduledRefresh) : list ScheduledRefresh :=
  match l with
  | [] => [t]
  | u :: l => if due_at_secs t <=? due_at_secs u then t :: u :: l else u :: insert_by_due t l
  end.
Definition sort_by_due (l : list ScheduledRefresh) : list ScheduledRefresh :=
  foldr insert_by_due [] l.

Definition take_due (s : RefreshSchedule) (now : Z) : list ScheduledRefresh * RefreshSchedule :=
  let '(due1, timers) := lane_take (timers s) now Due in
  let '(due2, retries) := lane_take (retries s) now Retry in
  let '(due3, negatives) := lane_take (negatives s) now NegativeExpiry in
  let due := sort_by_due (due1 ++ due2 ++ due3) in
  (due, mkSchedule timers retries negatives (len s - length due)).

Definition schedule_is_empty (s : RefreshSchedule) : bool := (len s =? 0)%nat.

(** *** Sweeping *)

Record SweepFrom := mkSweepFrom { sf_kind : TimerKind; sf_second : Z }.

#[export] Instance SweepFrom_eq_dec : EqDecision SweepFrom.
Proof. solve_decision. Defined.

Definition START : SweepFrom := mkSweepFrom Due 0.

Definition keep_keys (keep : CacheKey → bool) (keys : list CacheKey) : list CacheKey :=
  List.filter keep keys.

(** [retain] over a lane: the lane and how many keys it dropped. *)
Fixpoint lane_retain (l : lane) (keep : CacheKey → bool) : lane * nat :=
  match l with
  | [] => ([], 0%nat)
  | (s, keys) :: rest =>
      let kept := keep_keys keep keys in
      let '(rest, removed) := lane_retain rest keep in
      let removed := (removed + (length keys - length kept))%nat in
      match kept with [] => (rest, removed) | _ => ((s, kept) :: rest, removed) end
  end.

Record swept := mkSwept { sw_lane : lane; sw_budget : nat; sw_removed : nat; sw_resume : option Z }.

Fixpoint sweep_lane (l : lane) (from : Z) (budget : nat) (keep : CacheKey → bool) : swept :=
  match l with
  | [] => mkSwept [] budget 0 None
  | (s, keys) :: rest =>
      if s <? from then
        let r := sweep_lane rest from budget keep in
        mkSwept ((s, keys) :: sw_lane r) (sw_budget r) (sw_removed r) (sw_resume r)
      else if (budget =? 0)%nat then mkSwept l budget 0 (Some s)
      else
        let kept := keep_keys keep keys in
        let r := sweep_lane rest from (budget - length keys) keep in
        mkSwept (match kept with [] => sw_lane r | _ => (s, kept) :: sw_lane r end)
          (sw_budget r) (sw_removed r + (length keys - length kept))%nat (sw_resume r)
  end.

Definition sweep (s : RefreshSchedule) (from : SweepFrom) (budget : nat)
    (keep : CacheKey → TimerKind → bool) : RefreshSchedule * option SweepFrom :=
  let '(retries', removed0) :=
    if decide (from = START) then lane_retain (retries s) (λ key, keep key Retry)
    else (retries s, 0%nat) in
  let r1 :=
    if decide (sf_kind from = Due)
    then sweep_lane (timers s) (sf_second from) budget (λ key, keep key Due)
    else mkSwept (timers s) budget 0 None in
  match sw_resume r1 with
  | Some second =>
      (mkSchedule (sw_lane r1) retries' (negatives s) (len s - (removed0 + sw_removed r1)),
       Some (mkSweepFrom Due second))
  | None =>
      let start := if decide (sf_kind from = NegativeExpiry) then sf_second from else 0 in
      let r2 := sweep_lane (negatives s) start (sw_budget r1) (λ key, keep key NegativeExpiry) in
      (mkSchedule (sw_lane r1) retries' (sw_lane r2)
         (len s - (removed0 + sw_removed r1 + sw_removed r2)),
       (λ second, mkSweepFrom NegativeExpiry second) <$> sw_resume r2)
  end.

(** ** The timers held *)

Definition lane_timers (kind : TimerKind) (l : lane) : list ScheduledRefresh :=
  mjoin ((λ e : Z * list CacheKey, (λ key, mkTimer e.1 key kind) <$> e.2) <$> l).

Definition held (s : RefreshSchedule) : list ScheduledRefresh :=
  lane_timers Due (timers s) ++ lane_timers Retry (retries s)
  ++ lane_timers NegativeExpiry (negatives s).

(** Ascending seconds, each with a timer. *)
Fixpoint lane_ok (after : option Z) (l : lane) : Prop :=
  match l with
  | [] => True
  | (s, keys) :: rest =>
      (∀ a, after = Some a → a < s) ∧ keys ≠ [] ∧ lane_ok (Some s) rest
  end.

Definition schedule_ok (s : RefreshSchedule) : Prop :=
  lane_ok None (timers s) ∧ lane_ok None (retries s) ∧ lane_ok None (negatives s) ∧
  len s = length (held s).

(** ** Lemmas *)

Lemma lane_ok_weaken a b l : lane_ok a l → (∀ x, b = Some x → ∃ y, a = Some y ∧ x ≤ y) → lane_ok b l.
Proof.
  destruct l as [|[s keys] rest]; simpl; [done|]. intros (Ha & Hk & Hr) Hab.
  split; [|done]. intros x Hx. destruct (Hab x Hx) as (y & Hy & ?). specialize (Ha y Hy). lia.
Qed.

Lemma lane_push_ok l second key : ∀ after,
  lane_ok after l → (∀ a, after = Some a → a < second) → lane_ok after (lane_push l second key).
Proof.
  induction l as [|[s keys] rest IH]; intros after H Ha; simpl in *.
  { split_and!; [done|discriminate|done]. }
  destruct H as (Hs & Hk & Hr). destruct (second <? s) eqn:E1; boolify.
  - simpl. split_and!; [done|discriminate|by intros a [= <-]|done|done].
  - destruct (second =? s) eqn:E2; boolify; simpl; split_and!; try done.
    + by destruct keys.
    + apply IH; [done|]. intros a [= <-]. lia.
Qed.

Lemma lane_push_timers kind l second key :
  lane_timers kind (lane_push l second key) ≡ₚ mkTimer second key kind :: lane_timers kind l.
Proof.
  unfold lane_timers. induction l as [|[s keys] rest IH]; simpl; [done|].
  destruct (second <? s); simpl; [done|].
  destruct (second =? s) eqn:E; boolify; simpl.
  - subst second. rewrite fmap_app, <-app_assoc. simpl. by rewrite Permutation_middle.
  - rewrite IH. by rewrite Permutation_middle.
Qed.

Lemma lane_timers_cons kind s keys l :
  lane_timers kind ((s, keys) :: l) = ((λ key, mkTimer s key kind) <$> keys) ++ lane_timers kind l.
Proof. done. Qed.

Lemma lane_timers_elem kind l t :
  t ∈ lane_timers kind l ↔ t_kind t = kind ∧ ∃ keys, (due_at_secs t, keys) ∈ l ∧ t_key t ∈ keys.
Proof.
  unfold lane_timers. rewrite list_elem_of_join. split.
  - intros (ts & Ht & ([s keys] & -> & He)%list_elem_of_fmap).
    apply list_elem_of_fmap in Ht as (key & -> & Hk). simpl. eauto.
  - intros (Hk & keys & He & Hin). destruct t as [s key kind']. simpl in *. subst kind'.
    eexists. split; [|apply list_elem_of_fmap; by exists (s, keys)].
    simpl. apply list_elem_of_fmap. by exists key.
Qed.

Lemma lane_ok_ge after l e : lane_ok after l → e ∈ l → ∀ a, after = Some a → a < e.1.
Proof.
  revert after. induction l as [|[s keys] rest IH]; intros after H He a Ha; [by apply elem_of_nil in He|].
  destruct H as (Hs & _ & Hr). specialize (Hs a Ha).
  apply elem_of_cons in He as [->|He]; [done|].
  specialize (IH (Some s) Hr He s eq_refl). lia.
Qed.

Lemma lane_take_spec kind now l : ∀ after,
  lane_ok after l →
  let '(due, rest) := lane_take l now kind in
  lane_timers kind l = due ++ lane_timers kind rest ∧
  Forall (λ t, due_at_secs t ≤ now ∧ t_kind t = kind) due ∧
  Forall (λ t, now < due_at_secs t) (lane_timers kind rest) ∧ lane_ok after rest.
Proof.
  induction l as [|[s keys] rest IH]; intros after H; simpl in *; [by split_and!|].
  destruct H as (Hs & Hk & Hr). destruct (now <? s) eqn:E; boolify.
  - split_and!; [done|done| |by split_and!].
    apply Forall_forall. intros t (_ & keys' & He & _)%lane_timers_elem.
    apply elem_of_cons in He as [[= -> _]|He]; [done|].
    pose proof (lane_ok_ge _ _ _ Hr He s eq_refl) as Hlt. simpl in Hlt. lia.
  - specialize (IH (Some s) Hr). destruct (lane_take rest now kind) as [due rest'].
    destruct IH as (Heq & Hdue & Hrest & Hok). split_and!.
    + by rewrite lane_timers_cons, Heq, app_assoc.
    + apply Forall_app. split; [|done]. apply Forall_fmap, Forall_forall. intros key _. by simpl.
    + done.
    + eapply lane_ok_weaken; [done|]. intros x Hx. exists s. split; [done|].
      specialize (Hs x Hx). lia.
Qed.

Lemma insert_by_due_perm t l : insert_by_due t l ≡ₚ t :: l.
Proof.
  induction l as [|u l IH]; simpl; [done|]. destruct (_ <=? _); [done|].
  rewrite IH. apply perm_swap.
Qed.

Lemma sort_by_due_perm l : sort_by_due l ≡ₚ l.
Proof.
  unfold sort_by_due. induction l as [|t l IH]; simpl; [done|]. by rewrite insert_by_due_perm, IH.
Qed.

Definition due_le (t u : ScheduledRefresh) : Prop := due_at_secs t ≤ due_at_secs u.

Lemma insert_by_due_sorted t l : StronglySorted due_le l → StronglySorted due_le (insert_by_due t l).
Proof.
  induction 1 as [|u l Hs IH Hf]; simpl; [by repeat constructor|].
  destruct (_ <=? _) eqn:E; boolify.
  - constructor; [by constructor|]. constructor; [done|].
    eapply Forall_impl; [exact Hf|]. unfold due_le. intros; lia.
  - constructor; [done|]. rewrite insert_by_due_perm. constructor; [unfold due_le; lia|done].
Qed.

Lemma sort_by_due_sorted l : StronglySorted due_le (sort_by_due l).
Proof. unfold sort_by_due. induction l; simpl; [constructor|]. by apply insert_by_due_sorted. Qed.

Lemma register_held s t : held (register s t) ≡ₚ t :: held s.
Proof.
  destruct t as [second key kind]. unfold register, held. simpl.
  destruct kind; simpl; rewrite lane_push_timers; simpl; try done;
    [by rewrite <-!Permutation_middle|by rewrite <-!Permutation_middle].
Qed.

Lemma register_ok s t : schedule_ok s → schedule_ok (register s t).
Proof.
  intros (H1 & H2 & H3 & Hl). unfold schedule_ok. rewrite register_held. simpl. rewrite <-Hl.
  destruct t as [second key kind]. unfold register. simpl.
  destruct kind; simpl; split_and!; auto using lane_push_ok; apply lane_push_ok; done.
Qed.

(** *** Sweeping: lemmas *)

Lemma keep_keys_elem keep keys k : k ∈ keep_keys keep keys ↔ k ∈ keys ∧ keep k = true.
Proof. unfold keep_keys. by rewrite !list_elem_of_In, filter_In. Qed.

Lemma keep_keys_length keep keys : (length (keep_keys keep keys) ≤ length keys)%nat.
Proof. unfold keep_keys. induction keys; simpl; [lia|]. case_match; simpl; lia. Qed.

(** [l'] is [l] without some of the keys [keep] rejects, [removed] of them. *)
Definition swept_ok (kind : TimerKind) (keep : CacheKey → bool) (l l' : lane) (removed : nat) : Prop :=
  (∀ t, t ∈ lane_timers kind l' → t ∈ lane_timers kind l) ∧
  (∀ t, t ∈ lane_timers kind l → keep (t_key t) = true → t ∈ lane_timers kind l') ∧
  length (lane_timers kind l) = (length (lane_timers kind l') + removed)%nat.

Lemma swept_cons kind keep s keys l l' removed :
  swept_ok kind keep l l' removed → swept_ok kind keep ((s, keys) :: l) ((s, keys) :: l') removed.
Proof.
  intros (H1 & H2 & H3). unfold swept_ok. rewrite !lane_timers_cons. split_and!.
  - intros t. rewrite !elem_of_app. naive_solver.
  - intros t. rewrite !elem_of_app. naive_solver.
  - rewrite !length_app. lia.
Qed.

Lemma swept_drop kind keep s keys l l' removed :
  swept_ok kind keep l l' removed →
  let kept := keep_keys keep keys in
  swept_ok kind keep ((s, keys) :: l)
    (match kept with [] => l' | _ => (s, kept) :: l' end)
    (removed + (length keys - length kept)).
Proof.
  intros (H1 & H2 & H3) kept.
  assert (E : lane_timers kind (match kept with [] => l' | _ => (s, kept) :: l' end)
    = ((λ key, mkTimer s key kind) <$> kept) ++ lane_timers kind l') by (by destruct kept).
  pose proof (keep_keys_length keep keys) as Hle. fold kept in Hle.
  unfold swept_ok. rewrite E, lane_timers_cons. split_and!.
  - intros t. rewrite !elem_of_app, !list_elem_of_fmap.
    intros [(k & -> & [Hk _]%keep_keys_elem)|Ht]; [left; eauto|right; auto].
  - intros t. rewrite !elem_of_app, !list_elem_of_fmap.
    intros [(k & -> & Hk)|Ht] Hkeep; [left|right; auto].
    exists k. split; [done|]. by apply keep_keys_elem.
  - rewrite !length_app, !length_fmap. lia.
Qed.

Lemma swept_refl kind keep l : swept_ok kind keep l l 0.
Proof. unfold swept_ok. split_and!; auto. Qed.

Lemma sweep_lane_swept kind keep l : ∀ from budget,
  let r := sweep_lane l from budget keep in
  swept_ok kind keep l (sw_lane r) (sw_removed r).
Proof.
  induction l as [|[s keys] rest IH]; intros from budget; simpl; [apply swept_refl|].
  destruct (s <? from); [apply swept_cons, IH|].
  destruct (budget =? 0)%nat; [apply swept_refl|]. apply swept_drop, IH.
Qed.

Lemma lane_retain_swept kind keep l :
  swept_ok kind keep l (lane_retain l keep).1 (lane_retain l keep).2.
Proof.
  induction l as [|[s keys] rest IH]; simpl; [apply swept_refl|].
  destruct (lane_retain rest keep) as [rest' removed]. simpl in *.
  pose proof (swept_drop kind keep s keys _ _ _ IH) as H. simpl in H. by destruct (keep_keys keep keys).
Qed.

Lemma lane_ok_drop keep s keys l after :
  (∀ a, after = Some a → a < s) → lane_ok (Some s) l →
  lane_ok after (match keep_keys keep keys with [] => l | _ => (s, keep_keys keep keys) :: l end).
Proof.
  intros Ha Hl. destruct (keep_keys keep keys) eqn:E; [|simpl; split_and!; try done; discriminate].
  eapply lane_ok_weaken; [done|]. intros x Hx. exists s. split; [done|]. specialize (Ha x Hx). lia.
Qed.

Lemma sweep_lane_ok keep l : ∀ after from budget,
  lane_ok after l → lane_ok after (sw_lane (sweep_lane l from budget keep)).
Proof.
  induction l as [|[s keys] rest IH]; intros after from budget H; simpl; [done|].
  destruct H as (Ha & Hk & Hr).
  destruct (s <? from); [simpl; split_and!; auto|].
  destruct (budget =? 0)%nat; [simpl; split_and!; auto|]. simpl. apply lane_ok_drop; auto.
Qed.

Lemma lane_retain_ok keep l : ∀ after, lane_ok after l → lane_ok after (lane_retain l keep).1.
Proof.
  induction l as [|[s keys] rest IH]; intros after H; simpl; [done|].
  destruct H as (Ha & Hk & Hr). specialize (IH _ Hr).
  destruct (lane_retain rest keep) as [rest' removed]. simpl in *.
  pose proof (lane_ok_drop keep s keys rest' after Ha IH). by destruct (keep_keys keep keys).
Qed.

Lemma take_due_spec s now :
  schedule_ok s →
  let '(due, s') := take_due s now in
  held s ≡ₚ due ++ held s' ∧ StronglySorted due_le due ∧
  Forall (λ t, due_at_secs t ≤ now) due ∧ Forall (λ t, now < due_at_secs t) (held s') ∧
  schedule_ok s'.
Proof.
  intros (H1 & H2 & H3 & Hl). unfold take_due.
  pose proof (lane_take_spec Due now _ _ H1) as T1.
  pose proof (lane_take_spec Retry now _ _ H2) as T2.
  pose proof (lane_take_spec NegativeExpiry now _ _ H3) as T3.
  destruct (lane_take (timers s) now Due) as [d1 l1], (lane_take (retries s) now Retry) as [d2 l2],
    (lane_take (negatives s) now NegativeExpiry) as [d3 l3].
  destruct T1 as (E1 & D1 & R1 & O1), T2 as (E2 & D2 & R2 & O2), T3 as (E3 & D3 & R3 & O3).
  set (s' := mkSchedule l1 l2 l3 _).
  assert (Hp : held s ≡ₚ sort_by_due (d1 ++ d2 ++ d3) ++ held s').
  { rewrite sort_by_due_perm. unfold held. simpl. rewrite E1, E2, E3. solve_Permutation. }
  split_and!; try done.
  - apply sort_by_due_sorted.
  - rewrite sort_by_due_perm, !Forall_app.
    split_and!; eapply Forall_impl; try eassumption; by intros t [? _].
  - unfold held. simpl. rewrite !Forall_app. done.
  - unfold schedule_ok. split_and!; try done. apply Permutation_length in Hp.
    rewrite length_app in Hp. subst s'. simpl in *. lia.
Qed.

Lemma sweep_spec s from budget (keep : CacheKey → TimerKind → bool) :
  schedule_ok s →
  let '(s', resume) := sweep s from budget keep in
  schedule_ok s' ∧
  (∀ t, t ∈ held s' → t ∈ held s) ∧
  (∀ t, t ∈ held s → keep (t_key t) (t_kind t) = true → t ∈ held s') ∧
  (∀ next, resume = Some next → sf_kind next ≠ Retry).
Proof.
  intros (H1 & H2 & H3 & Hl). unfold sweep.
  set (rr := if decide (from = START) then lane_retain (retries s) (λ key, keep key Retry)
    else (retries s, 0%nat)).
  assert (HR : swept_ok Retry (λ key, keep key Retry) (retries s) rr.1 rr.2 ∧ lane_ok None rr.1).
  { subst rr. case_decide; [|split; [apply swept_refl|done]].
    split; [apply lane_retain_swept|by apply lane_retain_ok]. }
  destruct rr as [retries' removed0]. simpl in HR. destruct HR as [HR HRok].
  set (r1 := if decide (sf_kind from = Due) then _ else _).
  assert (HD : swept_ok Due (λ key, keep key Due) (timers s) (sw_lane r1) (sw_removed r1) ∧
    lane_ok None (sw_lane r1)).
  { subst r1. case_decide; [|split; [apply swept_refl|done]].
    split; [apply sweep_lane_swept|by apply sweep_lane_ok]. }
  destruct HD as [HD HDok].
  assert (Hmain : ∀ l3 n3 resume, swept_ok NegativeExpiry (λ key, keep key NegativeExpiry)
      (negatives s) l3 n3 → lane_ok None l3 →
    (∀ next, resume = Some next → sf_kind next ≠ Retry) →
    let s' := mkSchedule (sw_lane r1) retries' l3 (len s - (removed0 + sw_removed r1 + n3)) in
    schedule_ok s' ∧ (∀ t, t ∈ held s' → t ∈ held s) ∧
    (∀ t, t ∈ held s → keep (t_key t) (t_kind t) = true → t ∈ held s') ∧
    (∀ next, resume = Some next → sf_kind next ≠ Retry)).
  { intros l3 n3 resume (N1 & N2 & N3) HN Hres. destruct HR as (A1 & A2 & A3), HD as (B1 & B2 & B3).
    simpl. split_and!; try done.
    - unfold schedule_ok, held in *. simpl in *. rewrite !length_app in *. split_and!; try done. lia.
    - intros t. unfold held. simpl. rewrite !elem_of_app. naive_solver.
    - intros t. unfold held. simpl. rewrite !elem_of_app.
      intros [Ht|[Ht|Ht]] Hk; pose proof (proj1 (proj1 (lane_timers_elem _ _ _) Ht)) as Hkind;
        rewrite Hkind in Hk; auto. }
  destruct (sw_resume r1) as [second|].
  - pose proof (Hmain (negatives s) 0%nat (Some (mkSweepFrom Due second)) (swept_refl _ _ _) H3) as Hm.
    rewrite Nat.add_0_r in Hm. apply Hm. by intros next [= <-].
  - apply Hmain; [apply sweep_lane_swept|by apply sweep_lane_ok|].
    intros next Hn. apply fmap_Some in Hn as (sec & _ & ->). done.
Qed.

(** ** Properties *)

(** The schedule gives back every timer exactly once, when it is due: what
    [take_due] returns is all that is held up to [now] (each timer as it was
    registered), earliest second first, and what stays held is all that is
    later; the count of timers stays exact. *)
Theorem take_due_exact (s : RefreshSchedule) (now : Z) :
  schedule_ok s →
  let '(due, s') := take_due s now in
  held s ≡ₚ due ++ held s' ∧ StronglySorted due_le due ∧
  Forall (λ t, due_at_secs t ≤ now) due ∧ Forall (λ t, now < due_at_secs t) (held s') ∧
  schedule_ok s'.
Proof. apply take_due_spec. Qed.

Lemma take_due_exact_witness :
  let key := mkKey [97] A 0 in
  let s := register (register (register schedule_new (mkTimer 7 key Due))
                      (mkTimer 5 key Retry)) (mkTimer 9 key NegativeExpiry) in
  take_due s 7 = ([mkTimer 5 key Retry; mkTimer 7 key Due],
                  mkSchedule [] [] [(9, [key])] 1) ∧
  let '(due, s') := take_due s 7 in
  held s ≡ₚ due ++ held s' ∧ StronglySorted due_le due ∧
  Forall (λ t, due_at_secs t ≤ 7) due ∧ Forall (λ t, 7 < due_at_secs t) (held s') ∧
  schedule_ok s'.
Proof.
  intros key s. split; [reflexivity|]. apply (take_due_exact s 7).
  repeat apply register_ok. repeat split.
Defined.

(** A sweep only ever drops timers its predicate rejects: every step keeps
    every timer of an entry that is still there, adds none, and keeps the lanes
    in order and the count exact; it never resumes among the retries. *)
Theorem sweep_sound (s : RefreshSchedule) (from : SweepFrom) (budget : nat)
    (keep : CacheKey → TimerKind → bool) :
  schedule_ok s →
  let '(s', resume) := sweep s from budget keep in
  schedule_ok s' ∧
  (∀ t, t ∈ held s' → t ∈ held s) ∧
  (∀ t, t ∈ held s → keep (t_key t) (t_kind t) = true → t ∈ held s') ∧
  (∀ next, resume = Some next → sf_kind next ≠ Retry).
Proof. apply sweep_spec. Qed.

Lemma sweep_sound_witness :
  let key := mkKey [97] A 0 in
  let gone := mkKey [98] A 0 in
  let s := register (register schedule_new (mkTimer 7 key Due)) (mkTimer 8 gone Due) in
  let keep (k : CacheKey) (_ : TimerKind) := bool_decide (k = key) in
  sweep s START 1 keep = (s, Some (mkSweepFrom Due 8)) ∧
  let '(s', resume) := sweep s START 1 keep in
  schedule_ok s' ∧
  (∀ t, t ∈ held s' → t ∈ held s) ∧
  (∀ t, t ∈ held s → keep (t_key t) (t_kind t) = true → t ∈ held s') ∧
  (∀ next, resume = Some next → sf_kind next ≠ Retry).
Proof.
  intros key gone s keep. split; [vm_compute; reflexivity|].
  apply (sweep_sound s START 1 keep).
  repeat apply register_ok. repeat split.
Defined.
