(* ===== verification/CacheNegative.v ===== *)
(** The counted map and the negative cache: [infrastructure/src/counted_map.rs]
    and [infrastructure/src/dns/cache/negative_cache.rs].

    A [DashMap] is a [gmap]; the order it is walked in is the library's, so it
    is a parameter, the class [IterOrder] of [Prelude]. *)

From S2P Require Import Prelude Net Float64 CacheRecord.

(** ** [CountedDashMap] *)

Record CountedMap (V : Type) := mkCounted { c_map : gmap CacheKey V; c_len : nat }.
Arguments mkCounted {V} _ _.
Arguments c_map {V} _.
Arguments c_len {V} _.

Definition counted_new {V} : CountedMap V := mkCounted ∅ 0.

Definition counted_get {V} (c : CountedMap V) (k : CacheKey) : option V := c_map c !! k.

Definition counted_insert {V} (c : CountedMap V) (k : CacheKey) (v : V) : CountedMap V :=
  let len := S (c_len c) in
  let previous := c_map c !! k in
  mkCounted (<[k := v]> (c_map c)) (match previous with Some _ => len - 1 | None => len end).

Definition counted_remove {V} (c : CountedMap V) (k : CacheKey) : CountedMap V * option V :=
  match c_map c !! k with
  | Some v => (mkCounted (delete k (c_map c)) (c_len c - 1), Some v)
  | None => (c, None)
  end.

Definition counted_remove_if {V} (c : CountedMap V) (k : CacheKey) (f : V → bool)
    : CountedMap V * bool :=
  match c_map c !! k with
  | Some v => if f v then ((counted_remove c k).1, true) else (c, false)
  | None => (c, false)
  end.

Definition counted_retain {V} (c : CountedMap V) (f : CacheKey → V → bool) : CountedMap V * nat :=
  let kept := filter (λ kv : CacheKey * V, f kv.1 kv.2 = true) (c_map c) in
  let removed := (size (c_map c) - size kept)%nat in
  (mkCounted kept (c_len c - removed), removed).

Definition counted_clear {V} (c : CountedMap V) : CountedMap V :=
  (counted_retain c (λ _ _, false)).1.

Definition evict_if_full `{IterOrder} {V} (batch : nat) (c : CountedMap V) (max : nat)
    (is_expired : V → bool) : CountedMap V :=
  if (c_len c <? max)%nat then c else
  let expired := fst <$> List.filter (λ kv, is_expired kv.2) (take batch (walk (c_map c))) in
  let c := foldl (λ c k, (counted_remove c k).1) c expired in
  if (max <=? c_len c)%nat then
    match walk (c_map c) with
    | (k, _) :: _ => (counted_remove c k).1
    | [] => c
    end
  else c.

(** *** The count under interleaving

    Each thread's [insert], [remove] or [retain] counts and changes the map in
    separate atomic steps.  A thread owes the count what it has yet to settle:
    an entry it counted and has not inserted, or removals (a replaced entry is
    one) it has not subtracted. *)

Inductive map_thread (V : Type) :=
  | Owing (n : nat)
  | Counting (k : CacheKey) (v : V).
Arguments Owing {V} _.
Arguments Counting {V} _ _.

Record map_state (V : Type) := mkMapState { ms_counted : CountedMap V; ms_threads : list (map_thread V) }.
Arguments mkMapState {V} _ _.
Arguments ms_counted {V} _.
Arguments ms_threads {V} _.

Inductive CountStep {V} : map_state V → map_state V → Prop :=
  | step_count i k v m n ts : ts !! i = Some (Owing 0) →
      CountStep (mkMapState (mkCounted m n) ts)
        (mkMapState (mkCounted m (S n)) (<[i := Counting k v]> ts))
  | step_land i k v m n ts : ts !! i = Some (Counting k v) →
      CountStep (mkMapState (mkCounted m n) ts)
        (mkMapState (mkCounted (<[k := v]> m) n)
           (<[i := Owing (match m !! k with Some _ => 1 | None => 0 end)%nat]> ts))
  | step_remove i k v m n d ts : ts !! i = Some (Owing d) → m !! k = Some v →
      CountStep (mkMapState (mkCounted m n) ts)
        (mkMapState (mkCounted (delete k m) n) (<[i := Owing (S d)]> ts))
  | step_settle i m n d ts : ts !! i = Some (Owing d) →
      CountStep (mkMapState (mkCounted m n) ts)
        (mkMapState (mkCounted m (n - d)) (<[i := Owing 0]> ts)).

Definition owes {V} (t : map_thread V) : nat := match t with Owing n => n | Counting _ _ => 1 end.
Definition owed {V} (ts : list (map_thread V)) : nat := sum_list_with owes ts.

(** ** The negative cache *)

Definition EVICTION_BATCH_SIZE : nat := 64.
Definition MIN_NEGATIVE_TTL : Z := 300.
Definition MAX_NEGATIVE_TTL : Z := 3600.

Definition negative_ttl (soa_ttl : option Z) : Z :=
  clamp (default MIN_NEGATIVE_TTL soa_ttl) MIN_NEGATIVE_TTL MAX_NEGATIVE_TTL.

Definition LOCAL_DNS_BIT : Z := Z.shiftl 1 63.

(** A [NegativeEntry] is its [expiry_and_source]. *)
Definition NegativeEntry : Type := Z.

Definition entry_new (expires_at_secs : Z) (local_dns : bool) : NegativeEntry :=
  Z.lor (Z.ldiff expires_at_secs LOCAL_DNS_BIT) (if local_dns then LOCAL_DNS_BIT else 0).
Definition entry_expires_at_secs (e : NegativeEntry) : Z := Z.ldiff e LOCAL_DNS_BIT.
Definition entry_is_local_dns (e : NegativeEntry) : bool := bit e LOCAL_DNS_BIT.

Record NegativeDnsCache := mkNegative { n_cache : CountedMap NegativeEntry; n_max_entries : nat }.

Definition negative_new (max_entries : nat) : NegativeDnsCache := mkNegative counted_new max_entries.

Definition with_cache (c : NegativeDnsCache) (m : CountedMap NegativeEntry) : NegativeDnsCache :=
  mkNegative m (n_max_entries c).

Definition negative_get (c : NegativeDnsCache) (domain : bytes) (t : RecordType) (view now : Z)
    : NegativeDnsCache * option (Z * bool) :=
  let key := in_view (from_lowercase domain t) view in
  match counted_get (n_cache c) key with
  | Some entry =>
      let expires := entry_expires_at_secs entry in
      if now <? expires then
        (c, Some (wrap32 (sat_sub expires now), entry_is_local_dns entry))
      else
        (with_cache c (counted_remove_if (n_cache c) key
                         (λ v, entry_expires_at_secs v <=? now)).1, None)
  | None => (c, None)
  end.

Definition negative_insert `{IterOrder} (c : NegativeDnsCache) (domain : bytes) (t : RecordType)
    (ttl : Z) (local_dns : bool) (view now : Z) : NegativeDnsCache * Z :=
  let ttl := negative_ttl (Some ttl) in
  let m := evict_if_full EVICTION_BATCH_SIZE (n_cache c) (n_max_entries c)
             (λ entry, entry_expires_at_secs entry <=? now) in
  let key := in_view (from_lowercase domain t) view in
  let expires_at_secs := now + ttl in
  (with_cache c (counted_insert m key (entry_new expires_at_secs local_dns)), expires_at_secs).

Definition negative_remove (c : NegativeDnsCache) (domain : bytes) (t : RecordType) (view : Z)
    : NegativeDnsCache :=
  with_cache c (counted_remove (n_cache c) (in_view (from_lowercase domain t) view)).1.

Definition negative_clear (c : NegativeDnsCache) : NegativeDnsCache :=
  with_cache c (counted_clear (n_cache c)).

Definition negative_contains (c : NegativeDnsCache) (key : CacheKey) : bool :=
  match counted_get (n_cache c) key with Some _ => true | None => false end.

Definition remove_expired (c : NegativeDnsCache) (key : CacheKey) (now : Z) : NegativeDnsCache * bool :=
  let '(m, removed) := counted_remove_if (n_cache c) key (λ e, entry_expires_at_secs e <=? now) in
  (with_cache c m, removed).

Definition negative_len (c : NegativeDnsCache) : nat := c_len (n_cache c).

(** ** Lemmas *)

Definition counted_ok {V} (c : CountedMap V) : Prop := c_len c = size (c_map c).

Lemma size_insert_dec {V} (m : gmap CacheKey V) k v :
  size (<[k := v]> m) = match m !! k with Some _ => size m | None => S (size m) end.
Proof.
  destruct (m !! k) as [w|] eqn:E; [by apply map_size_insert_Some|].
  apply map_size_insert_None; done.
Qed.

Lemma size_delete_Some {V} (m : gmap CacheKey V) k v :
  m !! k = Some v → size m = S (size (delete k m)).
Proof.
  intros H. rewrite map_size_delete_Some by done.
  assert (size m ≠ 0)%nat by (intros ->%map_size_empty_iff; by rewrite lookup_empty in H). lia.
Qed.

Lemma counted_insert_ok {V} (c : CountedMap V) k v : counted_ok c → counted_ok (counted_insert c k v).
Proof.
  unfold counted_ok, counted_insert. intros H. simpl. rewrite size_insert_dec, H.
  destruct (c_map c !! k); lia.
Qed.

Lemma counted_remove_ok {V} (c : CountedMap V) k : counted_ok c → counted_ok (counted_remove c k).1.
Proof.
  unfold counted_ok, counted_remove. intros H. destruct (c_map c !! k) eqn:E; simpl; [|done].
  rewrite H, (size_delete_Some _ _ _ E). lia.
Qed.

Lemma counted_remove_if_ok {V} (c : CountedMap V) k f :
  counted_ok c → counted_ok (counted_remove_if c k f).1.
Proof.
  intros H. unfold counted_remove_if. destruct (c_map c !! k); [|done].
  destruct (f v); [by apply counted_remove_ok|done].
Qed.

Lemma counted_retain_ok {V} (c : CountedMap V) f : counted_ok c → counted_ok (counted_retain c f).1.
Proof.
  unfold counted_ok, counted_retain. intros H. simpl. rewrite H.
  assert (Hle : (size (filter (λ kv : CacheKey * V, f kv.1 kv.2 = true) (c_map c)) ≤ size (c_map c))%nat)
    by (apply map_subseteq_size, map_filter_subseteq). lia.
Qed.

Lemma counted_remove_len {V} (c : CountedMap V) k :
  (c_len (counted_remove c k).1 ≤ c_len c)%nat.
Proof. unfold counted_remove. destruct (_ !! _); simpl; lia. Qed.

Lemma counted_remove_all_ok {V} ks : ∀ c : CountedMap V, counted_ok c →
  let c' := foldl (λ c k, (counted_remove c k).1) c ks in
  counted_ok c' ∧ (c_len c' ≤ c_len c)%nat ∧ c_map c' ⊆ c_map c.
Proof.
  induction ks as [|k ks IH]; intros c H; simpl; [done|].
  destruct (IH _ (counted_remove_ok c k H)) as (H1 & H2 & H3).
  pose proof (counted_remove_len c k). split_and!; [done|lia|].
  etrans; [done|]. unfold counted_remove. destruct (_ !! _); [apply delete_subseteq|done].
Qed.

Lemma evict_if_full_ok `{IterOrder} {V} batch (c : CountedMap V) max f : counted_ok c →
  let c' := evict_if_full batch c max f in
  counted_ok c' ∧ c_map c' ⊆ c_map c ∧
  (0 < max → c_len c ≤ max → c_len c' < max)%nat.
Proof.
  intros Hc. unfold evict_if_full. destruct (c_len c <? max)%nat eqn:E.
  { apply Nat.ltb_lt in E. simpl. split_and!; [done|done|lia]. }
  apply Nat.ltb_ge in E. set (ks := fst <$> _). simpl.
  destruct (counted_remove_all_ok ks c Hc) as (H1 & H2 & H3).
  set (c2 := foldl _ c ks) in *.
  destruct (max <=? c_len c2)%nat eqn:E2.
  2:{ apply Nat.leb_gt in E2. split_and!; [done|done|lia]. }
  apply Nat.leb_le in E2. destruct (walk (c_map c2)) as [|[k v] rest] eqn:Ew.
  - apply (f_equal length) in Ew. rewrite length_walk in Ew. simpl in Ew.
    unfold counted_ok in H1. split_and!; [done|done|lia].
  - assert (Hk : c_map c2 !! k = Some v) by (apply elem_of_walk; rewrite Ew; by left).
    split_and!; [by apply counted_remove_ok| |].
    + etrans; [|done]. unfold counted_remove. rewrite Hk. apply delete_subseteq.
    + intros. unfold counted_remove. rewrite Hk. simpl. lia.
Qed.

Lemma owed_insert {V} (ts : list (map_thread V)) i t u : ts !! i = Some t →
  (owed (<[i := u]> ts) + owes t = owed ts + owes u)%nat.
Proof.
  revert i. unfold owed. induction ts as [|t' ts IH]; intros [|i] H; simpl in *; try done.
  - injection H as ->. lia.
  - specialize (IH _ H). lia.
Qed.

(** The count is the map's size plus what the threads owe it. *)
Definition count_inv {V} (s : map_state V) : Prop :=
  c_len (ms_counted s) = (size (c_map (ms_counted s)) + owed (ms_threads s))%nat.

Lemma count_step_inv {V} (s s' : map_state V) : CountStep s s' → count_inv s → count_inv s'.
Proof.
  unfold count_inv. intros [i k v m n ts Hi|i k v m n ts Hi|i k v m n d ts Hi Hk|i m n d ts Hi] H;
    simpl in *.
  - pose proof (owed_insert ts i _ (Counting k v) Hi). simpl in *. lia.
  - rewrite size_insert_dec.
    destruct (m !! k); [pose proof (owed_insert ts i _ (Owing 1) Hi)
                       |pose proof (owed_insert ts i _ (Owing 0) Hi)]; simpl in *; lia.
  - rewrite (size_delete_Some m k v Hk) in H.
    pose proof (owed_insert ts i _ (Owing (S d)) Hi). simpl in *. lia.
  - pose proof (owed_insert ts i _ (Owing 0) Hi). simpl in *. lia.
Qed.

Lemma small_bit_63 e : 0 ≤ e < 2 ^ 63 → Z.testbit e 63 = false.
Proof.
  intros H. destruct (decide (e = 0)) as [->|]; [apply Z.bits_0|].
  apply Z.bits_above_log2; [lia|]. apply Z.log2_lt_pow2; lia.
Qed.

Lemma entry_new_expires e local : 0 ≤ e < 2 ^ 63 → entry_expires_at_secs (entry_new e local) = e.
Proof.
  intros He. pose proof (small_bit_63 e He) as H63. unfold entry_expires_at_secs, entry_new.
  change LOCAL_DNS_BIT with (2 ^ 63). apply Z.bits_inj'. intros n Hn.
  rewrite Z.ldiff_spec, Z.lor_spec, Z.ldiff_spec, Z.pow2_bits_eqb by lia.
  destruct (Z.eqb_spec 63 n) as [<-|]; [by rewrite andb_false_r|].
  rewrite !andb_true_r.
  destruct local; [rewrite Z.pow2_bits_false by lia|rewrite Z.bits_0]; by rewrite orb_false_r.
Qed.

Lemma entry_new_local e local : 0 ≤ e < 2 ^ 63 → entry_is_local_dns (entry_new e local) = local.
Proof.
  intros He. unfold entry_is_local_dns, entry_new. change LOCAL_DNS_BIT with (2 ^ 63).
  rewrite bit_testbit by lia. rewrite Z.lor_spec, Z.ldiff_spec, Z.pow2_bits_true by lia.
  rewrite andb_false_r. destruct local; [by rewrite Z.pow2_bits_true by lia|apply Z.bits_0].
Qed.

Lemma negative_ttl_range t : MIN_NEGATIVE_TTL ≤ negative_ttl t ≤ MAX_NEGATIVE_TTL.
Proof. apply clamp_bounds. unfold MIN_NEGATIVE_TTL, MAX_NEGATIVE_TTL. lia. Qed.

Definition negative_ok (c : NegativeDnsCache) : Prop :=
  counted_ok (n_cache c) ∧ (c_len (n_cache c) ≤ Nat.max 1 (n_max_entries c))%nat.

Lemma negative_remove_if_ok c k f :
  negative_ok c → negative_ok (with_cache c (counted_remove_if (n_cache c) k f).1).
Proof.
  intros [H1 H2]. split; [by apply counted_remove_if_ok|]. simpl. unfold counted_remove_if.
  destruct (_ !! _); simpl; [|lia]. destruct (f _); simpl; [|lia].
  pose proof (counted_remove_len (n_cache c) k). lia.
Qed.

Lemma negative_insert_ok `{IterOrder} c domain t ttl local view now :
  negative_ok c → negative_ok (negative_insert c domain t ttl local view now).1.
Proof.
  intros [Hc Hl]. unfold negative_insert, negative_ok. simpl.
  destruct (evict_if_full_ok EVICTION_BATCH_SIZE (n_cache c) (n_max_entries c)
    (λ entry, entry_expires_at_secs entry <=? now) Hc) as (H1 & H2 & H3).
  set (m := evict_if_full _ _ _ _) in *. split; [by apply counted_insert_ok|].
  assert (Hm : (c_len m ≤ c_len (n_cache c))%nat).
  { unfold counted_ok in *. rewrite H1, Hc. by apply map_subseteq_size. }
  unfold counted_insert. simpl.
  destruct (decide (n_max_entries c = 0)%nat) as [E|E].
  - (* no room configured: one entry at most *)
    destruct (c_map m !! _); [lia|]. unfold counted_ok in H1.
    assert (c_len m = 0%nat); [|lia]. subst m. unfold evict_if_full in *. rewrite E in *.
    rewrite (proj2 (Nat.ltb_ge _ _)) in * by lia. cbv zeta in *.
    set (c2 := foldl _ _ _) in *. rewrite (proj2 (Nat.leb_le 0 _)) in * by lia.
    destruct (counted_remove_all_ok (fst <$> List.filter (λ kv : CacheKey * NegativeEntry,
      entry_expires_at_secs kv.2 <=? now) (take EVICTION_BATCH_SIZE (walk (c_map (n_cache c)))))
      _ Hc) as (G1 & G2 & _). fold c2 in G1, G2.
    destruct (walk (c_map c2)) as [|[k v] rest] eqn:Ew.
    + apply (f_equal length) in Ew. rewrite length_walk in Ew. unfold counted_ok in G1.
      simpl in Ew. lia.
    + assert (Hk : c_map c2 !! k = Some v) by (apply elem_of_walk; rewrite Ew; by left).
      unfold counted_remove. rewrite Hk. simpl. lia.
  - destruct (decide (c_len (n_cache c) ≤ n_max_entries c)%nat); [|lia].
    specialize (H3 ltac:(lia) ltac:(lia)). destruct (c_map m !! _); lia.
Qed.

(** ** Properties *)

(** However the threads that insert, remove and retain interleave, the
    entry count is never below the size of the map, and it is exact whenever
    no thread is in the middle of an operation. *)
Theorem counted_map_never_undercounts {V} (s0 s : map_state V) :
  counted_ok (ms_counted s0) → Forall (λ t, t = Owing 0) (ms_threads s0) →
  rtc CountStep s0 s →
  (size (c_map (ms_counted s)) ≤ c_len (ms_counted s))%nat ∧
  (Forall (λ t, t = Owing 0) (ms_threads s) → counted_ok (ms_counted s)).
Proof.
  intros Hok H0 Hrun.
  assert (Howed : ∀ ts : list (map_thread V), Forall (λ t, t = Owing 0) ts → owed ts = 0%nat).
  { induction 1 as [|t ts -> _ IH]; [done|]. exact IH. }
  assert (Hinv : count_inv s).
  { assert (Hi0 : count_inv s0) by (unfold count_inv; rewrite Howed by done; unfold counted_ok in Hok; lia).
    clear Hok H0. induction Hrun as [|s0 s1 s Hstep _ IH]; [done|]. eauto using count_step_inv. }
  unfold count_inv in Hinv. split; [lia|]. intros Hq. rewrite Howed in Hinv by done.
  unfold counted_ok. lia.
Qed.

Lemma counted_map_never_undercounts_witness :
  let key := mkKey [97] A 0 in
  let s0 := mkMapState (V := Z) counted_new [Owing 0; Owing 0] in
  let s := mkMapState (mkCounted {[key := 5]} 2) [Owing 0; Counting key 6] in
  (size (c_map (ms_counted s)) ≤ c_len (ms_counted s))%nat ∧
  (Forall (λ t, t = Owing 0) (ms_threads s) → counted_ok (ms_counted s)).
Proof.
  intros key s0 s. apply (counted_map_never_undercounts s0 s); [reflexivity|repeat constructor|].
  eapply rtc_l; [by apply (step_count 0 key 5)|].
  eapply rtc_l; [by apply (step_land 0 key 5)|].
  eapply rtc_l; [by apply (step_count 1 key 6)|]. apply rtc_refl.
Defined.

(** A negative answer is served for exactly its SOA's TTL held to
    [[300, 3600]] seconds, with what is left of it and whether the local server
    gave it, from the second it is stored; then the lookup that finds it
    expired removes it.  Storing never lets the cache grow past its limit. *)
Theorem negative_answer_window `{IterOrder} (c : NegativeDnsCache) (domain : bytes)
    (t : RecordType) (ttl : Z) (local : bool) (view now later : Z) :
  negative_ok c → 0 ≤ now → now ≤ later ≤ clock_max →
  let '(c', expires) := negative_insert c domain t ttl local view now in
  expires = now + clamp ttl MIN_NEGATIVE_TTL MAX_NEGATIVE_TTL ∧ negative_ok c' ∧
  let '(c'', answer) := negative_get c' domain t view later in
  negative_ok c'' ∧
  (later < expires → answer = Some (expires - later, local) ∧ c'' = c') ∧
  (expires ≤ later → answer = None ∧ negative_contains c'' (mkKey domain t view) = false).
Proof.
  intros Hok Hnow Hlater.
  pose proof (negative_insert_ok c domain t ttl local view now Hok) as Hok'.
  destruct (negative_insert c domain t ttl local view now) as [c' expires] eqn:E.
  unfold negative_insert in E. injection E as E1 E2.
  assert (Hc' : counted_get (n_cache c') (mkKey domain t view) = Some (entry_new expires local)).
  { rewrite <-E1, <-E2. unfold counted_get, counted_insert. simpl. apply lookup_insert_eq. }
  split; [by rewrite <-E2|]. split; [done|].
  pose proof (negative_ttl_range (Some ttl)) as Hr.
  assert (Hexp : 0 ≤ expires < 2 ^ 63)
    by (unfold clock_max, MIN_NEGATIVE_TTL, MAX_NEGATIVE_TTL in *; lia).
  unfold negative_get. change (in_view (from_lowercase domain t) view) with (mkKey domain t view).
  rewrite Hc'. cbv zeta. rewrite entry_new_expires, entry_new_local by done.
  destruct (later <? expires) eqn:El; boolify.
  - split_and!; [done| |lia]. intros _. split; [|done]. do 2 f_equal.
    unfold wrap32, sat_sub. rewrite Z.mod_small;
      unfold clock_max, MIN_NEGATIVE_TTL, MAX_NEGATIVE_TTL in *; lia.
  - split_and!; [by apply negative_remove_if_ok|lia|].
    + intros _. split; [done|]. unfold negative_contains, counted_get, counted_remove_if. simpl.
      unfold counted_get in Hc'. rewrite Hc'. rewrite entry_new_expires by done.
      rewrite (proj2 (Z.leb_le _ _)) by lia. unfold counted_remove. rewrite Hc'. simpl.
      by rewrite lookup_delete_eq.
Qed.

Lemma negative_answer_window_witness :
  let I := map_to_list_order in
  (negative_insert (negative_new 10) [97] AAAA 60 true 0 1000).2 = 1300 ∧
  let '(c', expires) := negative_insert (negative_new 10) [97] AAAA 60 true 0 1000 in
  expires = 1000 + clamp 60 MIN_NEGATIVE_TTL MAX_NEGATIVE_TTL ∧ negative_ok c' ∧
  let '(c'', answer) := negative_get c' [97] AAAA 0 1100 in
  negative_ok c'' ∧
  (1100 < expires → answer = Some (expires - 1100, true) ∧ c'' = c') ∧
  (expires ≤ 1100 → answer = None ∧ negative_contains c'' (mkKey [97] AAAA 0) = false).
Proof.
  intros I. split; [vm_compute; reflexivity|].
  apply (@negative_answer_window I (negative_new 10) [97] AAAA 60 true 0 1000 1100).
  - split; [reflexivity|]. simpl. lia.
  - lia.
  - unfold clock_max. lia.
Defined.
