(* ===== verification/CacheBloom.v ===== *)
(** The two-slot ageing Bloom filter, [infrastructure/src/dns/cache/bloom.rs],
    and the interface the cache uses it through.

    [FxHasher] is a third-party hash, so the filter is a function of [fx], and
    its size is computed with [ln], a function of the platform.  Every hash
    function gives the same guarantees. *)

From S2P Require Import Prelude Net Float64 CacheRecord.

(** ** The interface

    A gate in front of the map: a key it does not admit is reported as a miss
    without a lookup, so it must admit every key set since the last rotation
    but one. *)

Class MembershipGate := {
  gate : Type;
  gate_ok : gate → Prop;
  gate_check : gate → list HashItem → bool;
  gate_set : gate → list HashItem → gate;
  gate_rotate : gate → gate;
  gate_clear : gate → gate;
  gate_set_ok g k : gate_ok g → gate_ok (gate_set g k);
  gate_rotate_ok g : gate_ok g → gate_ok (gate_rotate g);
  gate_clear_ok g : gate_ok g → gate_ok (gate_clear g);
  gate_check_set g k : gate_ok g → gate_check (gate_set g k) k = true;
  gate_check_mono g k k' : gate_ok g → gate_check g k' = true → gate_check (gate_set g k) k' = true;
}.

(** ** The filter *)

Record AtomicBloom := mkBloom {
  slots : list Z * list Z;
  active : bool;  (** [true] when the second slot is active *)
  mask : Z;
  num_hashes : nat;
}.

Section bloom.
  Context (fx : list HashItem → Z) (ln : f64 → f64).

(** *** Sizing *)

Definition f_ceil_to_u64 (x : f64) : Z :=
match x with
| S754_finite false m e =>
    Z.min u64_max
      (if 0 <=? e then Z.shiftl (Z.pos m) (Z.min e 64)
       else - Z.shiftr (- Z.pos m) (- e))
| _ => to_u64 x
end.

Definition next_power_of_two (m : Z) : Z := 2 ^ Z.log2_up (Z.max m 1).

Definition optimal_num_bits (capacity : Z) (fp_rate : f64) : Z :=
  let n := of_u64 capacity in
  let ln2 := ln (of_u64 2) in
  next_power_of_two (f_ceil_to_u64 (fdiv (SFopp (fmul n (ln fp_rate))) (fmul ln2 ln2))).

Definition optimal_num_hashes (capacity num_bits : Z) : Z :=
  f_ceil_to_u64 (fmul (fdiv (of_u64 num_bits) (of_u64 capacity)) (ln (of_u64 2))).

Definition bloom_new (capacity : Z) (fp_rate : f64) : AtomicBloom :=
  let capacity := Z.max capacity 1 in
  let num_bits := optimal_num_bits capacity fp_rate in
  let num_hashes := optimal_num_hashes capacity num_bits in
  let slot := replicate (Z.to_nat ((num_bits + 63) / 64)) 0 in
  mkBloom (slot, slot) false (num_bits - 1) (Z.to_nat num_hashes).

(** *** Hashing *)

Definition rotate_right_17 (x : Z) : Z := Z.lor (Z.shiftr x 17) (wrap64 (Z.shiftl x 47)).

Definition double_hash (key : list HashItem) : Z * Z :=
  let h1 := fx key in
  (h1, rotate_right_17 (wrap64 (h1 * 0x517cc1b727220a95))).

Definition nth_hash (h1 h2 n mask : Z) : Z := Z.land (wrap64 (h1 + wrap64 (n * h2))) mask.

(** *** Bits of a slot: [word] is [idx / 64], [bit] is [1 << (idx % 64)]. *)

Definition slot_get (slot : list Z) (idx : Z) : bool :=
  match slot !! Z.to_nat (idx / 64) with
  | Some word => bit word (Z.shiftl 1 (idx mod 64))
  | None => false
  end.
Definition slot_set (slot : list Z) (idx : Z) : list Z :=
  alter (λ word, Z.lor word (Z.shiftl 1 (idx mod 64))) (Z.to_nat (idx / 64)) slot.

Definition slot_of (b : AtomicBloom) (second : bool) : list Z :=
  if second then (slots b).2 else (slots b).1.
Definition with_slot (b : AtomicBloom) (second : bool) (s : list Z) : AtomicBloom :=
  mkBloom (if second then ((slots b).1, s) else (s, (slots b).2)) (active b) (mask b) (num_hashes b).

Definition check_both (b : AtomicBloom) (h1 h2 i : Z) : bool :=
  let idx := nth_hash h1 h2 i (mask b) in
  slot_get (slot_of b (active b)) idx || slot_get (slot_of b (negb (active b))) idx.

Definition bloom_check (b : AtomicBloom) (key : list HashItem) : bool :=
  let '(h1, h2) := double_hash key in
  if (num_hashes b =? 5)%nat then
    check_both b h1 h2 0 && check_both b h1 h2 1 && check_both b h1 h2 2
    && check_both b h1 h2 3 && check_both b h1 h2 4
  else forallb (λ i, check_both b h1 h2 (Z.of_nat i)) (seq 0 (num_hashes b)).

Definition set_nth (b : AtomicBloom) (h1 h2 i : Z) : AtomicBloom :=
  with_slot b (active b) (slot_set (slot_of b (active b)) (nth_hash h1 h2 i (mask b))).

Definition bloom_set (b : AtomicBloom) (key : list HashItem) : AtomicBloom :=
  let '(h1, h2) := double_hash key in
  if (num_hashes b =? 5)%nat then
    let b := set_nth b h1 h2 0 in let b := set_nth b h1 h2 1 in
    let b := set_nth b h1 h2 2 in let b := set_nth b h1 h2 3 in
    set_nth b h1 h2 4
  else foldl (λ b i, set_nth b h1 h2 (Z.of_nat i)) b (seq 0 (num_hashes b)).

Definition clear_slot (slot : list Z) : list Z := (λ _, 0) <$> slot.

Definition bloom_rotate (b : AtomicBloom) : AtomicBloom :=
  let new_active := negb (active b) in
  let b := with_slot b new_active (clear_slot (slot_of b new_active)) in
  mkBloom (slots b) new_active (mask b) (num_hashes b).

Definition bloom_clear (b : AtomicBloom) : AtomicBloom :=
  mkBloom (clear_slot (slots b).1, clear_slot (slots b).2) (active b) (mask b) (num_hashes b).

(** ** Lemmas

    Every index lies in both slots, so no access panics. *)

Definition bloom_ok (b : AtomicBloom) : Prop :=
  0 ≤ mask b < 64 * Z.of_nat (length (slots b).1) ∧ length (slots b).1 = length (slots b).2.

Lemma nth_hash_range h1 h2 i m : 0 ≤ m → 0 ≤ nth_hash h1 h2 i m ≤ m.
Proof.
  intros Hm. unfold nth_hash. split.
  - apply Z.land_nonneg. by right.
  - destruct (Z.eqb_spec m 0) as [->|]; [by rewrite Z.land_0_r|].
    assert (Hl : Z.ldiff (Z.land (wrap64 (h1 + wrap64 (i * h2))) m) m = 0).
    { apply Z.bits_inj'. intros k Hk. rewrite Z.ldiff_spec, Z.land_spec, Z.bits_0.
      by destruct (Z.testbit m k); rewrite ?andb_false_r. }
    apply Z.ldiff_le; [lia|done].
Qed.

Lemma slot_len_set slot idx : length (slot_set slot idx) = length slot.
Proof. apply length_alter. Qed.

Lemma slot_get_set_eq slot idx :
  0 ≤ idx < 64 * Z.of_nat (length slot) → slot_get (slot_set slot idx) idx = true.
Proof.
  intros Hi. unfold slot_get, slot_set.
  assert (Hlt : (Z.to_nat (idx / 64) < length slot)%nat) by zdiv.
  rewrite list_lookup_alter_eq. apply lookup_lt_is_Some in Hlt as [w ->]. simpl.
  assert (0 ≤ idx mod 64) by (apply Z.mod_pos_bound; lia).
  rewrite Z.shiftl_1_l, bit_lor by done. by rewrite Z.eqb_refl.
Qed.

Lemma slot_get_set_mono slot idx j : slot_get slot j = true → slot_get (slot_set slot idx) j = true.
Proof.
  unfold slot_get, slot_set. destruct (decide (Z.to_nat (j / 64) = Z.to_nat (idx / 64))) as [->|Hne].
  - rewrite list_lookup_alter_eq. destruct (slot !! _) as [w|]; [|done]. simpl. intros Hb.
    assert (0 ≤ idx mod 64) by (apply Z.mod_pos_bound; lia).
    assert (0 ≤ j mod 64) by (apply Z.mod_pos_bound; lia).
    rewrite !Z.shiftl_1_l in *. rewrite bit_lor by done. rewrite Hb. by rewrite orb_true_r.
  - by rewrite list_lookup_alter_ne.
Qed.

(** *** The loops

    Setting and checking, unrolled or not, go through the indices in order. *)

Definition indices (b : AtomicBloom) : list Z := Z.of_nat <$> seq 0 (num_hashes b).

Definition set_all (b : AtomicBloom) (h1 h2 : Z) (ids : list Z) : AtomicBloom :=
  foldl (λ b i, set_nth b h1 h2 i) b ids.

Lemma bloom_set_all b key :
  bloom_set b key = let '(h1, h2) := double_hash key in set_all b h1 h2 (indices b).
Proof.
  unfold bloom_set, set_all, indices. destruct (double_hash key) as [h1 h2].
  destruct (num_hashes b =? 5)%nat eqn:E.
  - apply Nat.eqb_eq in E. by rewrite E.
  - generalize (seq 0 (num_hashes b)) as ids. intros ids. revert b E.
    induction ids as [|i ids IH]; intros b E; [done|]. simpl. by apply IH.
Qed.

Lemma bloom_check_all b key :
  bloom_check b key = true ↔
  let '(h1, h2) := double_hash key in ∀ i, i ∈ indices b → check_both b h1 h2 i = true.
Proof.
  unfold bloom_check, indices. destruct (double_hash key) as [h1 h2].
  transitivity (forallb (λ i, check_both b h1 h2 (Z.of_nat i)) (seq 0 (num_hashes b)) = true).
  - destruct (num_hashes b =? 5)%nat eqn:E; [|done]. apply Nat.eqb_eq in E. rewrite E. simpl.
    by rewrite andb_true_r, !andb_assoc.
  - rewrite forallb_forall. split.
    + intros H i (n & -> & Hn)%list_elem_of_fmap. apply H. by apply list_elem_of_In.
    + intros H n Hn. apply H, list_elem_of_fmap. exists n. split; [done|]. by apply list_elem_of_In.
Qed.

Lemma slot_of_with_slot b a s c :
  slot_of (with_slot b a s) c = if Bool.eqb a c then s else slot_of b c.
Proof. by destruct a, c. Qed.

Lemma set_nth_ok b h1 h2 i : bloom_ok b → bloom_ok (set_nth b h1 h2 i).
Proof.
  unfold bloom_ok, set_nth, with_slot, slot_of. simpl. intros [Hm Hl].
  destruct (active b); simpl; rewrite slot_len_set; lia.
Qed.

Lemma set_nth_check b h1 h2 i k1 k2 j :
  check_both b k1 k2 j = true → check_both (set_nth b h1 h2 i) k1 k2 j = true.
Proof.
  unfold check_both, set_nth. rewrite !slot_of_with_slot. simpl.
  rewrite eqb_reflx. destruct (active b); simpl;
    rewrite !orb_true_iff; intros [H|H]; auto using slot_get_set_mono.
Qed.

Lemma set_nth_check_eq b h1 h2 i : bloom_ok b → check_both (set_nth b h1 h2 i) h1 h2 i = true.
Proof.
  intros [Hm Hl]. unfold check_both, set_nth. rewrite slot_of_with_slot. simpl.
  rewrite eqb_reflx. apply orb_true_iff. left. apply slot_get_set_eq.
  pose proof (nth_hash_range h1 h2 i (mask b)). unfold slot_of. destruct (active b); lia.
Qed.

Lemma set_all_spec h1 h2 ids : ∀ b, bloom_ok b →
  bloom_ok (set_all b h1 h2 ids) ∧ num_hashes (set_all b h1 h2 ids) = num_hashes b ∧
  active (set_all b h1 h2 ids) = active b ∧
  (∀ i, i ∈ ids → check_both (set_all b h1 h2 ids) h1 h2 i = true) ∧
  (∀ k1 k2 j, check_both b k1 k2 j = true → check_both (set_all b h1 h2 ids) k1 k2 j = true).
Proof.
  induction ids as [|i ids IH]; intros b Hok; simpl.
  { split_and!; try done. by intros i Hi%elem_of_nil. }
  destruct (IH (set_nth b h1 h2 i) (set_nth_ok _ _ _ _ Hok)) as (H1 & H2 & H3 & H4 & H5).
  split_and!; try done.
  - intros j [->|Hj]%elem_of_cons; [|by apply H4]. by apply H5, set_nth_check_eq.
  - intros k1 k2 j Hj. by apply H5, set_nth_check.
Qed.

Lemma bloom_set_ok b key : bloom_ok b → bloom_ok (bloom_set b key).
Proof.
  intros Hok. rewrite bloom_set_all. destruct (double_hash key). by apply set_all_spec.
Qed.

Lemma bloom_check_set b key : bloom_ok b → bloom_check (bloom_set b key) key = true.
Proof.
  intros Hok. apply bloom_check_all. rewrite bloom_set_all. destruct (double_hash key) as [h1 h2].
  destruct (set_all_spec h1 h2 (indices b) b Hok) as (_ & Hn & _ & H & _).
  unfold indices at 1. by rewrite Hn.
Qed.

Lemma bloom_check_mono b key key' :
  bloom_ok b → bloom_check b key' = true → bloom_check (bloom_set b key) key' = true.
Proof.
  intros Hok H. rewrite bloom_check_all in H |- *. rewrite bloom_set_all.
  destruct (double_hash key') as [k1 k2], (double_hash key) as [h1 h2].
  destruct (set_all_spec h1 h2 (indices b) b Hok) as (_ & Hn & _ & _ & Hm).
  unfold indices at 1. rewrite Hn. intros i Hi. by apply Hm, H.
Qed.

Lemma bloom_rotate_ok b : bloom_ok b → bloom_ok (bloom_rotate b).
Proof.
  unfold bloom_ok, bloom_rotate, with_slot, slot_of, clear_slot. simpl. intros [Hm Hl].
  destruct (active b); simpl; rewrite length_fmap; lia.
Qed.

Lemma bloom_clear_ok b : bloom_ok b → bloom_ok (bloom_clear b).
Proof.
  unfold bloom_ok, bloom_clear, clear_slot. simpl. rewrite !length_fmap. done.
Qed.

(** The bits of the active slot alone. *)
Definition check_active (b : AtomicBloom) (key : list HashItem) : Prop :=
  let '(h1, h2) := double_hash key in
  ∀ i, i ∈ indices b → slot_get (slot_of b (active b)) (nth_hash h1 h2 i (mask b)) = true.

Lemma set_all_active h1 h2 ids : ∀ b, bloom_ok b →
  mask (set_all b h1 h2 ids) = mask b ∧
  (∀ i, i ∈ ids → slot_get (slot_of (set_all b h1 h2 ids) (active b)) (nth_hash h1 h2 i (mask b)) = true) ∧
  (∀ j, slot_get (slot_of b (active b)) j = true →
    slot_get (slot_of (set_all b h1 h2 ids) (active b)) j = true).
Proof.
  induction ids as [|i ids IH]; intros b Hok; simpl.
  { split_and!; try done. by intros i Hi%elem_of_nil. }
  destruct (IH (set_nth b h1 h2 i) (set_nth_ok _ _ _ _ Hok)) as (H1 & H2 & H3).
  change (active (set_nth b h1 h2 i)) with (active b) in *.
  change (mask (set_nth b h1 h2 i)) with (mask b) in *.
  assert (Hslot : slot_of (set_nth b h1 h2 i) (active b)
    = slot_set (slot_of b (active b)) (nth_hash h1 h2 i (mask b))).
  { unfold set_nth. by rewrite slot_of_with_slot, eqb_reflx. }
  split_and!; try done.
  - intros j [->|Hj]%elem_of_cons; [|by apply H2]. apply H3. rewrite Hslot.
    apply slot_get_set_eq. destruct Hok. pose proof (nth_hash_range h1 h2 i (mask b)).
    unfold slot_of. destruct (active b); lia.
  - intros j Hj. apply H3. rewrite Hslot. by apply slot_get_set_mono.
Qed.

Lemma check_active_set b key : bloom_ok b → check_active (bloom_set b key) key.
Proof.
  intros Hok. unfold check_active. rewrite bloom_set_all.
  destruct (double_hash key) as [h1 h2].
  destruct (set_all_spec h1 h2 (indices b) b Hok) as (_ & Hn & Ha & _).
  destruct (set_all_active h1 h2 (indices b) b Hok) as (Hm & H & _).
  unfold indices at 1. rewrite Hn, Ha, Hm. done.
Qed.

Lemma check_active_mono b key key' : bloom_ok b → check_active b key' → check_active (bloom_set b key) key'.
Proof.
  intros Hok H. unfold check_active in *. rewrite bloom_set_all.
  destruct (double_hash key') as [k1 k2], (double_hash key) as [h1 h2].
  destruct (set_all_spec h1 h2 (indices b) b Hok) as (_ & Hn & Ha & _).
  destruct (set_all_active h1 h2 (indices b) b Hok) as (Hm & _ & Hmono).
  unfold indices at 1. rewrite Hn, Ha, Hm. auto.
Qed.

(** One rotation leaves what was set since the one before. *)
Lemma bloom_rotate_recent b key : check_active b key → bloom_check (bloom_rotate b) key = true.
Proof.
  intros H. apply bloom_check_all. unfold check_active in H.
  destruct (double_hash key) as [h1 h2]. intros i Hi. specialize (H i Hi).
  unfold check_both, bloom_rotate. simpl. apply orb_true_iff. right. rewrite negb_involutive.
  change (slot_get (slot_of (with_slot b (negb (active b)) (clear_slot (slot_of b (negb (active b)))))
    (active b)) (nth_hash h1 h2 i (mask b)) = true).
  rewrite slot_of_with_slot. by destruct (active b).
Qed.

(** The filter as the cache's gate. *)
#[local] Instance bloom_gate : MembershipGate :=
  {| gate := AtomicBloom; gate_ok := bloom_ok; gate_check := bloom_check; gate_set := bloom_set;
     gate_rotate := bloom_rotate; gate_clear := bloom_clear;
     gate_set_ok := bloom_set_ok; gate_rotate_ok := bloom_rotate_ok;
     gate_clear_ok := bloom_clear_ok; gate_check_set := bloom_check_set;
     gate_check_mono := bloom_check_mono |}.

Lemma bloom_new_ok capacity fp : bloom_ok (bloom_new capacity fp).
Proof.
  unfold bloom_ok, bloom_new. cbn [mask slots fst snd]. rewrite length_replicate.
  set (n := optimal_num_bits _ _).
  assert (1 ≤ n).
  { subst n. unfold optimal_num_bits, next_power_of_two.
    set (m := Z.max _ 1). assert (0 ≤ Z.log2_up m) by apply Z.log2_up_nonneg.
    pose proof (Z.pow_pos_nonneg 2 (Z.log2_up m)). lia. }
  split; [zdiv|done].
Qed.

Lemma set_many_ok keys : ∀ b, bloom_ok b → bloom_ok (foldl bloom_set b keys).
Proof. induction keys; intros b Hb; simpl; [done|]. by apply IHkeys, bloom_set_ok. Qed.

Lemma set_many_mono keys key : ∀ b, bloom_ok b →
  (bloom_check b key = true → bloom_check (foldl bloom_set b keys) key = true) ∧
  (check_active b key → check_active (foldl bloom_set b keys) key).
Proof.
  induction keys as [|k keys IH]; intros b Hb; simpl; [done|].
  destruct (IH _ (bloom_set_ok b k Hb)) as [H1 H2].
  split; [intros; by apply H1, bloom_check_mono|intros; by apply H2, check_active_mono].
Qed.

Lemma slot_get_cleared slot j : slot_get (clear_slot slot) j = false.
Proof.
  unfold slot_get, clear_slot. rewrite list_lookup_fmap. destruct (slot !! _); [|done].
  simpl. unfold bit. by rewrite Z.land_0_l.
Qed.

Lemma cleared_check b key : (0 < num_hashes b)%nat →
  (∀ c j, slot_get (slot_of b c) j = false) → bloom_check b key = false.
Proof.
  intros Hn Hc. apply not_true_iff_false. rewrite bloom_check_all.
  destruct (double_hash key) as [h1 h2]. intros H. specialize (H 0).
  unfold check_both in H. rewrite !Hc in H. discriminate H.
  unfold indices. apply list_elem_of_fmap. exists 0%nat. split; [done|]. apply elem_of_seq. lia.
Qed.

(** ** Properties *)

(** The filter has no false negatives: a key that was set passes the check
    whatever is set after it, and still does after a rotation and anything set
    since.  Two rotations in a row, or a clear, forget every key. *)
Theorem bloom_no_false_negatives (b : AtomicBloom) (key : list HashItem)
    (later latest : list (list HashItem)) :
  bloom_ok b →
  let b1 := foldl bloom_set (bloom_set b key) later in
  bloom_check b1 key = true ∧
  bloom_check (foldl bloom_set (bloom_rotate b1) latest) key = true ∧
  ((0 < num_hashes b)%nat → ∀ k,
    bloom_check (bloom_rotate (bloom_rotate b)) k = false ∧ bloom_check (bloom_clear b) k = false).
Proof.
  intros Hok b1. pose proof (bloom_set_ok b key Hok) as Hok1.
  assert (Hb1 : bloom_ok b1) by (by apply set_many_ok).
  split; [|split].
  - apply set_many_mono; [done|]. by apply bloom_check_set.
  - apply set_many_mono; [by apply bloom_rotate_ok|]. apply bloom_rotate_recent.
    apply set_many_mono; [done|]. by apply check_active_set.
  - intros Hn k. split; apply cleared_check; try done; intros c j;
      unfold bloom_rotate, bloom_clear, with_slot, slot_of; simpl;
      destruct (active b), c; simpl; apply slot_get_cleared.
Qed.

End bloom.

(** A small filter over a small hasher, for the examples. *)
Definition demo_fx (items : list HashItem) : Z := Z.of_nat (length items) * 0x9E3779B97F4A7C15.
Definition demo_gate : MembershipGate := bloom_gate demo_fx.
Definition demo_bloom : AtomicBloom := mkBloom (replicate 2 0, replicate 2 0) false 127 5.

Lemma demo_bloom_ok : bloom_ok demo_bloom.
Proof. split; [simpl; lia|done]. Qed.

Lemma bloom_no_false_negatives_witness :
  let fx (items : list HashItem) := Z.of_nat (length items) * 0x9E3779B97F4A7C15 in
  let key := hash_key (mkKey [97] A 0) in
  let b1 := foldl (bloom_set fx) (bloom_set fx demo_bloom key) [] in
  bloom_check fx b1 key = true ∧
  bloom_check fx (foldl (bloom_set fx) (bloom_rotate b1) []) key = true ∧
  ((0 < num_hashes demo_bloom)%nat → ∀ k,
    bloom_check fx (bloom_rotate (bloom_rotate demo_bloom)) k = false ∧
    bloom_check fx (bloom_clear demo_bloom) k = false).
Proof.
  intros fx key. apply (bloom_no_false_negatives fx demo_bloom key [] []).
  split; [simpl; lia|reflexivity].
Defined.
