(* ===== verification/CacheL1.v ===== *)
(** The per-thread first-level cache, [infrastructure/src/dns/cache/l1.rs].

    [LruCache] is a third-party map, so it is the class [Lru]: its operations,
    with the laws the code relies on.  An entry it evicts is simply gone. *)

From S2P Require Import Prelude Net Float64 CacheRecord.

(** ** Entries *)

Record L1Entry := mkL1Entry {
  l1_answer : CachedAddresses;
  l1_dnssec_status : CachedDnssecStatus;
  l1_local_dns : bool;
  pending_hits : Z;
  l1_expires_secs : Z;
  flushed_at_secs : Z;
}.

(** ** The LRU map *)

Class Lru := {
  lru : Type;
  lru_new : lru;
  lru_peek : lru → bytes → option L1Entry;
  (** The entry, now the most recently used, and the map with another one
      written through the reference. *)
  lru_get_mut : lru → bytes → option (L1Entry * (L1Entry → lru));
  (** The map, and the entry the key had. *)
  lru_put : lru → bytes → L1Entry → lru * option L1Entry;
  lru_peek_new k : lru_peek lru_new k = None;
  lru_get_mut_peek m k : fst <$> lru_get_mut m k = lru_peek m k;
  lru_get_mut_write m k e w f j : lru_get_mut m k = Some (e, w) →
    lru_peek (w f) j = if decide (j = k) then Some f else lru_peek m j;
  lru_put_old m k e : (lru_put m k e).2 = lru_peek m k;
  lru_put_peek m k e : lru_peek (lru_put m k e).1 k = Some e;
  lru_put_others m k e j f : j ≠ k → lru_peek (lru_put m k e).1 j = Some f → lru_peek m j = Some f;
}.

Definition L1_CAPACITY : nat := 1024.
Definition STACK_KEY_LEN : nat := 260.

(** ** Keys *)

Definition ascii_bytes (s : string) : bytes :=
  (λ c, Z.of_N (Ascii.N_of_ascii c)) <$> String.list_ascii_of_string s.

Definition stack_key (type_str domain : bytes) : option bytes :=
  if (length type_str + 1 + length domain <=? STACK_KEY_LEN)%nat
  then Some (type_str ++ [58] ++ (lower_byte <$> domain)) else None.

Definition heap_key (type_str domain : bytes) : bytes :=
  let key := type_str ++ [58] ++ domain in
  let from := (length type_str + 1)%nat in
  take from key ++ (lower_byte <$> drop from key).

Definition l1_key (domain : bytes) (t : RecordType) : bytes :=
  let type_str := ascii_bytes (as_str t) in
  match stack_key type_str domain with Some key => key | None => heap_key type_str domain end.

(** ** The threads' caches *)

Section l1.
  Context `{Lru}.

Record L1State := mkL1State { l1_cache : lru; generation : Z }.
Record L1 := mkL1 { global_generation : Z; threads : gmap nat L1State }.

Definition l1_new : L1 := mkL1 0 ∅.
Definition l1_state (s : L1) (thread : nat) : L1State :=
  default (mkL1State lru_new 0) (threads s !! thread).
Definition set_l1_state (s : L1) (thread : nat) (st : L1State) : L1 :=
  mkL1 (global_generation s) (<[thread := st]> (threads s)).

Definition L1Hit : Type := CachedAddresses * CachedDnssecStatus * bool * Z * Z.

(** A hit on a live entry: the entry with the hit counted, and the batch it
    hands over. *)
Definition l1_serve (e : L1Entry) (now : Z) : L1Entry * Z :=
  let pending := wrap16 (pending_hits e + 1) in
  let second := wrap32 now in
  if (flushed_at_secs e =? second) && (pending <? u16_max) then
    (mkL1Entry (l1_answer e) (l1_dnssec_status e) (l1_local_dns e) pending (l1_expires_secs e)
       (flushed_at_secs e), 0)
  else
    (mkL1Entry (l1_answer e) (l1_dnssec_status e) (l1_local_dns e) 0 (l1_expires_secs e) second,
     pending).

Definition lookup_l1 (s : L1) (thread : nat) (key : bytes) (now : Z) : L1 * option L1Hit :=
  let st := l1_state s thread in
  if negb (generation st =? global_generation s) then
    (set_l1_state s thread (mkL1State lru_new (global_generation s)), None)
  else
    match lru_get_mut (l1_cache st) key with
    | Some (e, write) =>
        if now <? l1_expires_secs e then
          let remaining := Z.min (l1_expires_secs e - now) u32_max in
          let '(e', flushed) := l1_serve e now in
          (set_l1_state s thread (mkL1State (write e') (generation st)),
           Some (l1_answer e, l1_dnssec_status e, l1_local_dns e, remaining, flushed))
        else (set_l1_state s thread (mkL1State (write e) (generation st)), None)
    | None => (s, None)
    end.

Definition l1_get (s : L1) (thread : nat) (domain : bytes) (t : RecordType) (now : Z)
    : L1 * option L1Hit :=
  lookup_l1 s thread (l1_key domain t) now.

Definition l1_insert (s : L1) (thread : nat) (domain : bytes) (t : RecordType)
    (answer : CachedAddresses) (status : CachedDnssecStatus) (local_dns : bool)
    (expires_secs now : Z) : L1 * Z :=
  let st := l1_state s thread in
  let e := mkL1Entry answer status local_dns 0 expires_secs (wrap32 now) in
  let '(m, replaced) := lru_put (l1_cache st) (l1_key domain t) e in
  (set_l1_state s thread (mkL1State m (generation st)),
   match replaced with Some e => pending_hits e | None => 0 end).

Definition l1_clear (s : L1) (thread : nat) : L1 :=
  let g := wrap64 (global_generation s + 1) in
  mkL1 g (<[thread := mkL1State lru_new g]> (threads s)).

(** ** Traces *)

Inductive L1Op :=
  | OpGet (domain : bytes) (t : RecordType)
  | OpInsert (domain : bytes) (t : RecordType) (answer : CachedAddresses)
      (status : CachedDnssecStatus) (local_dns : bool) (expires_secs : Z)
  | OpClear.

Definition l1_step (s : L1) (op : nat * Z * L1Op) : L1 :=
  let '(thread, now, op) := op in
  match op with
  | OpGet domain t => (l1_get s thread domain t now).1
  | OpInsert domain t answer status local expires =>
      (l1_insert s thread domain t answer status local expires now).1
  | OpClear => l1_clear s thread
  end.

Definition l1_run (s : L1) (ops : list (nat * Z * L1Op)) : L1 := foldl l1_step s ops.

(** What thread [thread] stored under [key] since the last clear of any
    thread, latest operation first in [ops]. *)
Fixpoint stored_since_clear (thread : nat) (key : bytes) (rev_ops : list (nat * Z * L1Op))
    : list (CachedAddresses * CachedDnssecStatus * bool * Z) :=
  match rev_ops with
  | [] => []
  | (_, _, OpClear) :: _ => []
  | (thread', _, OpInsert domain t answer status local expires) :: rest =>
      if decide (thread' = thread ∧ l1_key domain t = key)
      then (answer, status, local, expires) :: stored_since_clear thread key rest
      else stored_since_clear thread key rest
  | (_, _, OpGet _ _) :: rest => stored_since_clear thread key rest
  end.

Definition clears (ops : list (nat * Z * L1Op)) : nat :=
  length (List.filter (λ op, match op.2 with OpClear => true | _ => false end) ops).

(** ** Lemmas *)

Definition content (e : L1Entry) : CachedAddresses * CachedDnssecStatus * bool * Z :=
  (l1_answer e, l1_dnssec_status e, l1_local_dns e, l1_expires_secs e).

Lemma l1_serve_content e now : content (l1_serve e now).1 = content e.
Proof. unfold l1_serve. by case_match. Qed.

(** The state after the operations of [rev_ops], latest first: a thread is up
    to date only with entries stored since the last clear. *)
Definition l1_inv (s : L1) (rev_ops : list (nat * Z * L1Op)) : Prop :=
  global_generation s = Z.of_nat (clears rev_ops) ∧
  ∀ thread,
    generation (l1_state s thread) ≤ global_generation s ∧
    (generation (l1_state s thread) = global_generation s → ∀ key e,
      lru_peek (l1_cache (l1_state s thread)) key = Some e →
      content e ∈ stored_since_clear thread key rev_ops).

Lemma l1_state_set s thread st j :
  l1_state (set_l1_state s thread st) j = if decide (j = thread) then st else l1_state s j.
Proof.
  unfold l1_state, set_l1_state. simpl. case_decide; subst.
  - by rewrite lookup_insert_eq.
  - by rewrite lookup_insert_ne.
Qed.

Lemma l1_inv_init : l1_inv l1_new [].
Proof.
  split; [done|]. intros thread. unfold l1_state. simpl. rewrite lookup_empty. simpl.
  split; [lia|]. intros _ key e. by rewrite lru_peek_new.
Qed.

Lemma get_mut_peek m k e w : lru_get_mut m k = Some (e, w) → lru_peek m k = Some e.
Proof. intros E. by rewrite <-lru_get_mut_peek, E. Qed.

Lemma l1_inv_get s rev_ops thread now domain t :
  l1_inv s rev_ops → l1_inv (l1_get s thread domain t now).1 ((thread, now, OpGet domain t) :: rev_ops).
Proof.
  intros [Hg Hth]. unfold l1_get, lookup_l1.
  set (k := l1_key domain t). destruct (negb _) eqn:Egen.
  { split; [done|]. intros j. cbn [fst]. rewrite l1_state_set. case_decide; [|apply Hth]. subst. simpl.
    split; [lia|]. intros _ key e. by rewrite lru_peek_new. }
  destruct (lru_get_mut _ k) as [[e w]|] eqn:Em; [|by split].
  pose proof (get_mut_peek _ _ _ _ Em) as Hpk.
  assert (Hmain : ∀ f, content f = content e →
    l1_inv (set_l1_state s thread (mkL1State (w f) (generation (l1_state s thread))))
      ((thread, now, OpGet domain t) :: rev_ops)).
  { intros f Hf. split; [done|]. intros j. cbn [fst]. rewrite l1_state_set. case_decide; [|apply Hth]. subst j.
    simpl. destruct (Hth thread) as [Hle Hst]. split; [done|]. intros Heq key e0 Hp.
    rewrite (lru_get_mut_write _ _ _ _ _ _ Em) in Hp. case_decide; [|by apply Hst].
    injection Hp as <-. subst. rewrite Hf. by apply Hst. }
  case_match; [|by apply Hmain].
  destruct (l1_serve e now) as [e' flushed] eqn:Es. apply Hmain.
  change e' with (e', flushed).1. rewrite <-Es. apply l1_serve_content.
Qed.

Lemma l1_inv_step s rev_ops op :
  l1_inv s rev_ops → Z.of_nat (clears (op :: rev_ops)) ≤ u64_max →
  l1_inv (l1_step s op) (op :: rev_ops).
Proof.
  intros Hinv Hmax. destruct op as [[thread now] op]. destruct op as [domain t|domain t answer status local expires|].
  - by apply l1_inv_get.
  - destruct Hinv as [Hg Hth]. unfold l1_step, l1_insert.
    destruct (lru_put _ _ _) as [m replaced] eqn:Ep. split; [done|]. intros j.
    cbn [fst]. rewrite l1_state_set. destruct (Hth j) as [Hle Hst]. case_decide as Hj.
    + subst j. simpl. split; [done|]. intros Heq key e Hpk.
      assert (m = (lru_put (l1_cache (l1_state s thread)) (l1_key domain t)
        (mkL1Entry answer status local 0 expires (wrap32 now))).1) as -> by (by rewrite Ep).
      case_decide as Hk.
      * destruct Hk as [_ <-]. rewrite lru_put_peek in Hpk. injection Hpk as <-. by left.
      * apply Hst; [done|]. eapply lru_put_others; [|exact Hpk]. intros ->. by apply Hk.
    + simpl. split; [done|]. intros Heq key e Hpk. rewrite decide_False by naive_solver. by apply Hst.
  - destruct Hinv as [Hg Hth]. unfold l1_step, l1_clear.
    assert (Hw : wrap64 (global_generation s + 1) = global_generation s + 1).
    { apply wrap64_small. unfold clears in *. simpl in *. unfold_ints. lia. }
    rewrite Hw. split.
    + simpl. rewrite Hg. unfold clears. simpl. lia.
    + intros j. unfold l1_state. simpl. destruct (decide (j = thread)) as [->|Hj].
      * rewrite lookup_insert_eq. simpl. split; [lia|]. intros _ key e. by rewrite lru_peek_new.
      * rewrite lookup_insert_ne by done. destruct (Hth j) as [Hle _]. unfold l1_state in Hle.
        split; [lia|]. intros Heq. lia.
Qed.

Lemma clears_cons op ops : (clears ops ≤ clears (op :: ops))%nat.
Proof. unfold clears. simpl. case_match; simpl; lia. Qed.

Lemma l1_inv_run ops : ∀ s rev_ops,
  l1_inv s rev_ops → Z.of_nat (clears (rev ops ++ rev_ops)) ≤ u64_max →
  l1_inv (l1_run s ops) (rev ops ++ rev_ops).
Proof.
  induction ops as [|op ops IH]; intros s rev_ops Hinv Hmax; [done|]. simpl in *.
  rewrite <-app_assoc in *. simpl in *. apply IH; [|done]. apply l1_inv_step; [done|].
  etrans; [|exact Hmax]. apply inj_le. clear.
  induction (rev ops) as [|o l IH]; [done|]. simpl. etrans; [exact IH|apply clears_cons].
Qed.

(** ** Properties *)

(** A thread serves only what it stored itself since the last time any
    thread cleared the cache (a removal or a flush bumps the generation), and
    never past its expiry: the remaining TTL of a hit is the rest of that
    entry's life. *)
Theorem l1_serves_only_since_clear (ops : list (nat * Z * L1Op)) (thread : nat)
    (domain : bytes) (t : RecordType) (now : Z) (answer : CachedAddresses)
    (status : CachedDnssecStatus) (local : bool) (remaining flushed : Z) (s' : L1) :
  Z.of_nat (clears ops) ≤ u64_max →
  l1_get (l1_run l1_new ops) thread domain t now
    = (s', Some (answer, status, local, remaining, flushed)) →
  ∃ expires, (answer, status, local, expires) ∈ stored_since_clear thread (l1_key domain t) (rev ops)
    ∧ now < expires ∧ remaining = Z.min (expires - now) u32_max.
Proof.
  intros Hmax Hget.
  assert (Hinv : l1_inv (l1_run l1_new ops) (rev ops)).
  { rewrite <-(app_nil_r (rev ops)). apply l1_inv_run; [apply l1_inv_init|].
    rewrite app_nil_r. unfold clears in *. etrans; [|exact Hmax]. apply inj_le.
    rewrite filter_rev, length_rev. done. }
  destruct Hinv as [_ Hth]. destruct (Hth thread) as [_ Hst].
  unfold l1_get, lookup_l1 in Hget. destruct (negb _) eqn:Eg; [done|].
  apply negb_false_iff, Z.eqb_eq in Eg.
  destruct (lru_get_mut _ _) as [[e w]|] eqn:Em; [|done].
  destruct (now <? l1_expires_secs e) eqn:En; [|done]. boolify.
  destruct (l1_serve e now) as [e' fl] eqn:Es. injection Hget as _ <- <- <- <- _.
  exists (l1_expires_secs e). split; [|done].
  apply (Hst Eg _ e), (get_mut_peek _ _ _ _ Em).
Qed.

(** The hits of a run of lookups that all hit one entry. *)
Fixpoint serve_run (e : L1Entry) (times : list Z) : L1Entry * list Z :=
  match times with
  | [] => (e, [])
  | now :: times =>
      let '(e, flushed) := l1_serve e now in
      let '(e, rest) := serve_run e times in (e, flushed :: rest)
  end.

(** No hit is lost or counted twice in a copy's batches: what its hits
    handed over and what is still pending add up to the hits served, the
    pending count never overflows its 16 bits, and a hit in a second of its own
    hands over everything that was pending. *)
Theorem l1_hits_conserved (e : L1Entry) (times : list Z) :
  0 ≤ pending_hits e < u16_max →
  let '(e', batches) := serve_run e times in
  foldr Z.add 0 batches + pending_hits e' = pending_hits e + Z.of_nat (length times) ∧
  0 ≤ pending_hits e' < u16_max ∧ Forall (λ b, 0 ≤ b ≤ u16_max) batches ∧
  (∀ now, flushed_at_secs e' ≠ wrap32 now →
    l1_serve e' now = (mkL1Entry (l1_answer e) (l1_dnssec_status e) (l1_local_dns e) 0
      (l1_expires_secs e) (wrap32 now), pending_hits e' + 1)).
Proof.
  revert e. induction times as [|now times IH]; intros e He; simpl.
  - split_and!; [lia|lia|unfold_ints; lia|constructor|].
    intros now Hne. unfold l1_serve. rewrite (proj2 (Z.eqb_neq _ _)) by done. simpl.
    unfold wrap16. rewrite Z.mod_small by (unfold_ints; lia). done.
  - assert (Hw : wrap16 (pending_hits e + 1) = pending_hits e + 1)
      by (unfold wrap16; apply Z.mod_small; unfold_ints; lia).
    pose proof (l1_serve_content e now) as Hc.
    destruct (l1_serve e now) as [e1 flushed] eqn:Es.
    assert (Hs : flushed + pending_hits e1 = pending_hits e + 1 ∧ 0 ≤ pending_hits e1 < u16_max
      ∧ 0 ≤ flushed ≤ u16_max).
    { unfold l1_serve in Es. rewrite Hw in Es. destruct (_ && _) eqn:E; injection Es as <- <-;
        simpl; boolify; unfold_ints; lia. }
    destruct Hs as (H1 & H2 & H3). specialize (IH e1 H2).
    destruct (serve_run e1 times) as [e2 rest]. destruct IH as (I1 & I2 & I3 & I4).
    simpl. unfold content in Hc. simpl in Hc. injection Hc as C1 C2 C3 C4.
    rewrite C1, C2, C3, C4 in I4. split_and!; [lia|lia|lia|by constructor|done].
Qed.

End l1.

(** ** An LRU map: the entries, most recently used first *)

Fixpoint assoc (m : list (bytes * L1Entry)) (k : bytes) : option L1Entry :=
  match m with
  | [] => None
  | (j, e) :: m => if decide (j = k) then Some e else assoc m k
  end.

Definition without (k : bytes) (m : list (bytes * L1Entry)) : list (bytes * L1Entry) :=
  List.filter (λ je, negb (bool_decide (je.1 = k))) m.

Lemma assoc_without m k j : assoc (without k m) j = if decide (j = k) then None else assoc m j.
Proof.
  induction m as [|[i e] m IH]; simpl; [by case_decide|].
  case_bool_decide; simpl; repeat case_decide; subst; try done;
    rewrite IH; by repeat case_decide.
Qed.

Lemma assoc_take n m k e : assoc (take n m) k = Some e → assoc m k = Some e.
Proof.
  revert n. induction m as [|[i f] m IH]; intros [|n]; simpl; try done.
  case_decide; [done|]. apply IH.
Qed.

Definition assoc_lru : Lru.
Proof.
  refine {|
    lru := list (bytes * L1Entry);
    lru_new := [];
    lru_peek := assoc;
    lru_get_mut m k := (λ e, (e, λ f, (k, f) :: without k m)) <$> assoc m k;
    lru_put m k e := (take L1_CAPACITY ((k, e) :: without k m), assoc m k);
  |}.
  - done.
  - intros m k. by destruct (assoc m k).
  - intros m k e w f j H. apply fmap_Some in H as (e' & _ & [= -> ->]). simpl.
    repeat case_decide; subst; try done. by rewrite assoc_without, decide_False.
  - done.
  - intros m k e. change L1_CAPACITY with (S 1023). simpl. by rewrite decide_True.
  - intros m k e j f Hne H. apply assoc_take in H. simpl in H.
    rewrite decide_False, assoc_without, decide_False in H by done. done.
Defined.

Lemma l1_serves_only_since_clear_witness :
  let L := assoc_lru in
  let a := mkAddresses [V4 1] None in
  let ops := [(0%nat, 10, OpInsert [97] A (mkAddresses [V4 9] None) CUnknown false 99);
              (0%nat, 20, OpClear); (0%nat, 20, OpInsert [97] A a CUnknown false 50)] in
  (l1_get (l1_run l1_new ops) 0 [65] A 30).2 = Some (a, CUnknown, false, 20, 1) ∧
  ∃ expires, (a, CUnknown, false, expires) ∈ stored_since_clear 0 (l1_key [65] A) (rev ops)
    ∧ 30 < expires ∧ 20 = Z.min (expires - 30) u32_max.
Proof.
  intros L a ops. split; [vm_compute; reflexivity|].
  apply (@l1_serves_only_since_clear L ops 0 [65] A 30 a CUnknown false 20 1
    (l1_get (l1_run l1_new ops) 0 [65] A 30).1); [vm_compute; discriminate|].
  vm_compute. reflexivity.
Defined.

Lemma l1_hits_conserved_witness :
  let e := mkL1Entry (mkAddresses [V4 1] None) CUnknown false 0 100 10 in
  let '(e', batches) := serve_run e [10; 10; 11; 11] in
  foldr Z.add 0 batches + pending_hits e' = 0 + 4 ∧
  0 ≤ pending_hits e' < u16_max ∧ Forall (λ b, 0 ≤ b ≤ u16_max) batches ∧
  (∀ now, flushed_at_secs e' ≠ wrap32 now →
    l1_serve e' now = (mkL1Entry (l1_answer e) (l1_dnssec_status e) (l1_local_dns e) 0
      (l1_expires_secs e) (wrap32 now), pending_hits e' + 1)).
Proof.
  intros e. apply (l1_hits_conserved e [10; 10; 11; 11]). simpl. unfold_ints. lia.
Defined.
