(* ===== verification/Cache.v ===== *)
(** The DNS cache: [infrastructure/src/dns/cache/storage.rs], [refresh.rs],
    [expiry.rs], [metrics.rs] and [eviction/active.rs].

    Every operation takes the coarse clock's second [now] and, where the source
    reads a thread local, the calling [thread].  The cache is a client of the
    interfaces [MembershipGate] (the Bloom filter), [Lru] (the per-thread
    copies) and [IterOrder] (the order a [DashMap] is walked in). *)

From S2P Require Import Prelude Net Float64 CacheRecord CacheSchedule CacheNegative CacheBloom CacheL1.

(** ** Metrics *)

Inductive Metric :=
  | Hits | Misses | Insertions | Evictions | OptimisticRefreshes | StaleHits | LazyDeletions
  | Compactions | Expirations | BatchEvictions | TransientUpstreamErrors | StaleRefreshDrops
  | OptimisticRefreshShed.

#[export] Instance Metric_eq_dec : EqDecision Metric.
Proof. solve_decision. Defined.

(** Each counter wraps at 64 bits. *)
Definition CacheMetrics : Type := Metric → Z.
Definition metrics_default : CacheMetrics := λ _, 0.
Definition add_metric (ms : CacheMetrics) (x : Metric) (n : Z) : CacheMetrics :=
  λ y, if decide (y = x) then wrap64 (ms y + n) else ms y.
Definition store_metric (ms : CacheMetrics) (x : Metric) (n : Z) : CacheMetrics :=
  λ y, if decide (y = x) then n else ms y.

Definition hit_rate (ms : CacheMetrics) : f64 :=
  let hits := of_u64 (ms Hits) in
  let total := fadd hits (of_u64 (ms Misses)) in
  if SFltb f_zero total then fmul (fdiv hits total) (of_u64 100) else f_zero.

(** ** Eviction policies *)

Inductive EvictionStrategy := LRU | HitRate | LFU | LFUK.

Inductive ActiveEvictionPolicy :=
  | PolicyLru
  | PolicyHitRate
  | PolicyLfu (min_frequency : Z)
  | PolicyLfuk (min_lfuk_score k_value : f64).

Definition policy_from_config (s : EvictionStrategy) (min_frequency : Z)
    (min_lfuk_score lfuk_k_value : f64) : ActiveEvictionPolicy :=
  match s with
  | LRU => PolicyLru
  | HitRate => PolicyHitRate
  | LFU => PolicyLfu min_frequency
  | LFUK => PolicyLfuk min_lfuk_score lfuk_k_value
  end.

Definition f_half : f64 := fdiv f_one (of_u64 2).
(** [f64::EPSILON], 2^-52. *)
Definition f_epsilon : f64 := S754_finite false 4503599627370496 (-104).

(** [powf] is the platform's. *)
Definition score (powf : f64 → f64 → f64) (p : ActiveEvictionPolicy)
    (hit_count last_access inserted_at now : Z) : f64 :=
  match p with
  | PolicyLru => of_u64 last_access
  | PolicyHitRate =>
      let age_secs := of_u64 (sat_sub now last_access) in
      let recency := fdiv f_one (fadd age_secs f_one) in
      fmul (fdiv (of_u64 hit_count) (of_u64 (wrap64 (hit_count + 1)))) recency
  | PolicyLfu min_frequency =>
      if (0 <? min_frequency) && (hit_count <? min_frequency)
      then SFopp (fsub (of_u64 min_frequency) (of_u64 hit_count)) else of_u64 hit_count
  | PolicyLfuk min_lfuk_score k_value =>
      let hits := of_u64 hit_count in
      if SFeqb hits f_zero then min_lfuk_score else
      let age_secs := of_u64 (Z.max (sat_sub now inserted_at) 1) in
      let idle_secs := of_u64 (sat_sub now last_access) in
      let age_decay :=
        if SFltb (SFabs (fsub k_value f_half)) f_epsilon
        then fmax (fsqrt age_secs) f_one else fmax (powf age_secs k_value) f_one in
      let s := fmul (fdiv hits age_decay) (fdiv f_one (fadd idle_secs f_one)) in
      if SFltb f_zero min_lfuk_score && SFltb s min_lfuk_score
      then fsub s min_lfuk_score else s
  end.

(** ** Configuration *)

Record DnsCacheConfig := mkConfig {
  max_entries : nat;
  eviction_policy : ActiveEvictionPolicy;
  refresh_threshold : f64;
  batch_eviction_percentage : f64;
  access_window_secs : Z;
  eviction_sample_size : nat;
  cfg_min_ttl : Z;
  cfg_max_ttl : Z;
  renew_ahead : bool;
  retry_lapsed_after_secs : Z;
}.

(** A serve-stale repair: name, type and view. *)
Definition RefreshRequest : Type := bytes * RecordType * Z.

(** The bounded channel the worker receives the repairs from. *)
Record RepairQueue := mkQueue { repairs : list RefreshRequest; q_capacity : nat; q_open : bool }.

Definition try_send (q : RepairQueue) (r : RefreshRequest) : option RepairQueue :=
  if q_open q && (length (repairs q) <? q_capacity q)%nat
  then Some (mkQueue (repairs q ++ [r]) (q_capacity q) (q_open q)) else None.

(** A hit: data, DNSSEC status, remaining TTL, and whether the local DNS server
    gave the answer. *)
Definition Hit : Type := CachedData * option CachedDnssecStatus * option Z * bool.

Inductive LocalRecordStatus := NotLocal | Present | MissingType.

Section cache.
  Context `{Lru, IterOrder, MembershipGate} (powf : f64 → f64 → f64).

Record DnsCache := mkCache {
  config : DnsCacheConfig;
  cache : gmap CacheKey CachedRecord;
  metrics : CacheMetrics;
  bloom : gate;
  eviction_cursor : nat;
  negative : NegativeDnsCache;
  permanent_records : gmap bytes (list RecordType);
  inbox : TimerInbox;
  stale_repairs : option RepairQueue;
  l1 : L1;
}.

Definition cache_new (c : DnsCacheConfig) (empty : gate) : DnsCache :=
  mkCache c ∅ metrics_default empty 0 (negative_new (max_entries c)) ∅ inbox_new None l1_new.

(** *** Setters *)

Definition set_cache (c : DnsCache) (m : gmap CacheKey CachedRecord) : DnsCache :=
  mkCache (config c) m (metrics c) (bloom c) (eviction_cursor c) (negative c)
    (permanent_records c) (inbox c) (stale_repairs c) (l1 c).
Definition bump_by (c : DnsCache) (x : Metric) (n : Z) : DnsCache :=
  mkCache (config c) (cache c) (add_metric (metrics c) x n) (bloom c) (eviction_cursor c)
    (negative c) (permanent_records c) (inbox c) (stale_repairs c) (l1 c).
Definition bump (c : DnsCache) (x : Metric) : DnsCache := bump_by c x 1.
Definition reset_metric (c : DnsCache) (x : Metric) : DnsCache :=
  mkCache (config c) (cache c) (store_metric (metrics c) x 0) (bloom c) (eviction_cursor c)
    (negative c) (permanent_records c) (inbox c) (stale_repairs c) (l1 c).
Definition set_bloom (c : DnsCache) (b : gate) : DnsCache :=
  mkCache (config c) (cache c) (metrics c) b (eviction_cursor c) (negative c)
    (permanent_records c) (inbox c) (stale_repairs c) (l1 c).
Definition set_cursor (c : DnsCache) (n : nat) : DnsCache :=
  mkCache (config c) (cache c) (metrics c) (bloom c) n (negative c)
    (permanent_records c) (inbox c) (stale_repairs c) (l1 c).
Definition set_negative (c : DnsCache) (n : NegativeDnsCache) : DnsCache :=
  mkCache (config c) (cache c) (metrics c) (bloom c) (eviction_cursor c) n
    (permanent_records c) (inbox c) (stale_repairs c) (l1 c).
Definition set_permanent (c : DnsCache) (p : gmap bytes (list RecordType)) : DnsCache :=
  mkCache (config c) (cache c) (metrics c) (bloom c) (eviction_cursor c) (negative c)
    p (inbox c) (stale_repairs c) (l1 c).
Definition set_inbox (c : DnsCache) (i : TimerInbox) : DnsCache :=
  mkCache (config c) (cache c) (metrics c) (bloom c) (eviction_cursor c) (negative c)
    (permanent_records c) i (stale_repairs c) (l1 c).
Definition set_repairs (c : DnsCache) (q : option RepairQueue) : DnsCache :=
  mkCache (config c) (cache c) (metrics c) (bloom c) (eviction_cursor c) (negative c)
    (permanent_records c) (inbox c) q (l1 c).
Definition set_l1 (c : DnsCache) (l : L1) : DnsCache :=
  mkCache (config c) (cache c) (metrics c) (bloom c) (eviction_cursor c) (negative c)
    (permanent_records c) (inbox c) (stale_repairs c) l.
Definition put_record (c : DnsCache) (k : CacheKey) (r : CachedRecord) : DnsCache :=
  set_cache c (<[k := r]> (cache c)).

(** *** Small operations *)

Definition clamp_ttl (c : DnsCache) (ttl : Z) : Z :=
  clamp ttl (cfg_min_ttl (config c)) (cfg_max_ttl (config c)).
Definition cache_len (c : DnsCache) : nat := size (cache c).
Definition is_over_capacity (c : DnsCache) : bool :=
  (max_entries (config c) <=? size (cache c))%nat.

Definition renews_ahead (c : DnsCache) (ttl : Z) : bool :=
  renew_ahead (config c) && negb (ttl =? 0).

Definition arm_timer (c : DnsCache) (thread : nat) (key : CacheKey) (due : Z) (kind : TimerKind)
    : DnsCache :=
  set_inbox c (inbox_push (inbox c) thread (mkTimer due key kind)).

Definition first_timer_at (c : DnsCache) (r : CachedRecord) : CachedRecord * Z :=
  if renews_ahead c (ttl r) then
    let due := refresh_due_at_secs r (refresh_threshold (config c)) in
    (set_refresh_timer r due, due)
  else (lapse_refresh_timer r, refresh_deadline_secs r).

(** Arms a parked entry; the entry is [r], held by the caller. *)
Definition rearm_refresh (c : DnsCache) (thread : nat) (key : CacheKey) (r : CachedRecord)
    : DnsCache :=
  if negb (renews_ahead c (ttl r)) then c else
  let due := refresh_due_at_secs r (refresh_threshold (config c)) in
  let '(r, armed) := try_unpark_refresh r due in
  if armed : bool then arm_timer (put_record c key r) thread key due Due else c.

Definition schedule_retry (c : DnsCache) (thread : nat) (key : CacheKey) (in_secs now : Z)
    : DnsCache :=
  let due := now + in_secs in
  match cache c !! key with
  | Some r =>
      let '(r, armed) := try_rearm_lapsed_refresh r due in
      if armed : bool then arm_timer (put_record c key r) thread key due Retry else c
  | None => c
  end.

Definition holds (c : DnsCache) (key : CacheKey) : bool :=
  match cache c !! key with Some _ => true | None => false end.
Definition holds_negative (c : DnsCache) (key : CacheKey) : bool :=
  negative_contains (negative c) key.

Definition get_ttl (c : DnsCache) (domain : bytes) (t : RecordType) : option Z :=
  ttl <$> cache c !! key_new domain t.
Definition remaining_ttl_of (c : DnsCache) (key : CacheKey) (now : Z) : option Z :=
  (λ r, remaining_ttl_at_secs r now) <$> cache c !! key.
Definition get_remaining_ttl (c : DnsCache) (domain : bytes) (t : RecordType) (now : Z) : option Z :=
  remaining_ttl_of c (key_new domain t) now.

(** ** Lookup *)

Definition record_l1_hits (c : DnsCache) (thread : nat) (domain : bytes) (t : RecordType)
    (hits now : Z) : DnsCache :=
  let key := from_lowercase domain t in
  match cache c !! key with
  | Some r =>
      let r := record_hits r hits now in
      let c := put_record c key r in
      if is_refresh_parked r then rearm_refresh c thread key r else c
  | None => c
  end.

Definition promote_to_l1 (c : DnsCache) (thread : nat) (domain : bytes) (t : RecordType)
    (key : CacheKey) (r : CachedRecord) (now : Z) : DnsCache :=
  match data r with
  | IpAddresses entry =>
      if expires_at_secs r <=? now then c else
      let expires_secs := if is_permanent r then now + ttl r else expires_at_secs r in
      let '(l, batched) := l1_insert (l1 c) thread domain t entry (dnssec_status r)
                             (is_local_dns r) expires_secs now in
      let c := set_l1 c l in
      if 0 <? batched then put_record c key (record_hits r batched now) else c
  | _ => c
  end.

(** The negative cache's answer, or a miss. *)
Definition negative_or_miss (c : DnsCache) (domain : bytes) (t : RecordType) (view now : Z)
    : DnsCache * option Hit :=
  let '(n, answer) := negative_get (negative c) domain t view now in
  let c := set_negative c n in
  match answer with
  | Some (remaining_ttl, local_dns) =>
      (bump c Hits, Some (NegativeResponse, None, Some remaining_ttl, local_dns))
  | None => (bump c Misses, None)
  end.

(** A hit on a record past its TTL, still within its grace. *)
Definition stale_hit (c : DnsCache) (key : CacheKey) (r : CachedRecord) (now : Z)
    : DnsCache * option Hit :=
  let c := bump (bump c Hits) StaleHits in
  let r := record_hit r now in
  let c := match stale_repairs c with
    | Some queue =>
        let '(r', set) := try_set_refreshing r in
        if set : bool then
          match try_send queue (k_domain key, k_record_type key, k_view key) with
          | Some queue => set_repairs (put_record c key r') (Some queue)
          | None => bump (put_record c key (clear_refreshing r')) StaleRefreshDrops
          end
        else put_record c key r
    | None => put_record c key r
    end in
  (c, Some (data r, Some (dnssec_status r), Some STALE_SERVE_TTL, is_local_dns r)).

Definition fresh_hit (c : DnsCache) (thread : nat) (key : CacheKey) (r : CachedRecord) (now : Z)
    : DnsCache * option Hit :=
  let c := bump c Hits in
  let r := record_hit r now in
  let c := put_record c key r in
  let c := if is_refresh_parked r then rearm_refresh c thread key r else c in
  let r := default r (cache c !! key) in
  let remaining_ttl := remaining_ttl_at_secs r now in
  let c := if k_view key =? 0
    then promote_to_l1 c thread (k_domain key) (k_record_type key) key r now else c in
  (c, Some (data r, Some (dnssec_status r), Some remaining_ttl, is_local_dns r)).

Definition is_address_type (t : RecordType) : bool :=
  match t with A | AAAA => true | _ => false end.

(** The second-level lookup. *)
Definition get_l2 (c : DnsCache) (thread : nat) (domain : bytes) (t : RecordType) (view now : Z)
    : DnsCache * option Hit :=
  let borrowed := borrowed_in_view (borrowed_new domain t) view in
  if negb (gate_check (bloom c) (hash_borrowed borrowed))
  then negative_or_miss c domain t view now
  else
    let key := in_view (from_lowercase domain t) view in
    match cache c !! key with
    | Some r =>
        if is_stale_usable_at_secs r now then stale_hit c key r now
        else if is_expired_at_secs r now then
          let c := put_record c key (mark_for_deletion r) in
          negative_or_miss (bump c LazyDeletions) domain t view now
        else fresh_hit c thread key r now
    | None => negative_or_miss c domain t view now
    end.

Definition get_in (c : DnsCache) (thread : nat) (domain : bytes) (t : RecordType) (view now : Z)
    : DnsCache * option Hit :=
  let domain := normalize_domain domain in
  let '(c, l1_hit) :=
    if (view =? 0) && is_address_type t then
      let '(l, hit) := l1_get (l1 c) thread domain t now in (set_l1 c l, hit)
    else (c, None) in
  match l1_hit with
  | Some (answer, status, local_dns, remaining_ttl, l1_hits) =>
      let c := bump c Hits in
      let c := if 0 <? l1_hits then record_l1_hits c thread domain t l1_hits now else c in
      (c, Some (IpAddresses answer, Some status, Some remaining_ttl, local_dns))
  | None => get_l2 c thread domain t view now
  end.

(** ** Insertion *)

Definition store (c : DnsCache) (thread : nat) (key : BorrowedKey) (d : CachedData) (ttl : Z)
    (status : option CachedDnssecStatus) (local_dns : bool) (now : Z) : DnsCache :=
  let domain := b_domain key in
  let t := b_record_type key in
  let view := b_view key in
  let key := in_view (from_lowercase domain t) view in
  if is_negative d then
    let '(n, expires) := negative_insert (negative c) domain t ttl local_dns view now in
    arm_timer (set_negative c n) thread key expires NegativeExpiry
  else
    let ttl := clamp_ttl c ttl in
    match into_stored d ttl (cfg_min_ttl (config c)) (cfg_max_ttl (config c)) with
    | None => c
    | Some d =>
        let maybe_l1_answer := if view =? 0 then as_cached_addresses d else None in
        let r := record_new d ttl t status now in
        let r := if local_dns then with_local_dns r else r in
        let expires_secs := expires_at_secs r in
        let '(r, first) := first_timer_at c r in
        let c := set_bloom c (gate_set (bloom c) (hash_key key)) in
        match cache c !! key with
        | Some old =>
            if is_permanent old then c else
            let c := arm_timer (put_record c key r) thread key first Due in
            match maybe_l1_answer with
            | Some answer =>
                set_l1 c (l1_insert (l1 c) thread domain t answer (default CUnknown status)
                            local_dns expires_secs now).1
            | None => c
            end
        | None =>
            let c := bump (put_record c key r) Insertions in
            let c := arm_timer c thread key first Due in
            match maybe_l1_answer with
            | Some answer =>
                set_l1 c (l1_insert (l1 c) thread domain t answer (default CUnknown status)
                            local_dns expires_secs now).1
            | None => c
            end
        end
    end.

Definition insert (c : DnsCache) (thread : nat) (domain : bytes) (t : RecordType) (d : CachedData)
    (ttl : Z) (status : option CachedDnssecStatus) (now : Z) : DnsCache :=
  store c thread (borrowed_new (normalize_domain domain) t) d ttl status false now.

(** ** Eviction *)

Record RecordSnapshot := mkSnapshot {
  s_key : CacheKey;
  s_hit_count : Z;
  s_last_access : Z;
  s_inserted_at : Z;
  s_is_expired : bool;
}.

Definition snapshot (k : CacheKey) (r : CachedRecord) (now : Z) : RecordSnapshot :=
  mkSnapshot k (hit_count (counters r)) (last_access (counters r)) (inserted_at_secs r)
    (is_expired_at_secs r now).

(** The walk over [entries] until [total] of them are sampled: the sample and
    how many entries it looked at. *)
Fixpoint sample (entries : list (CacheKey * CachedRecord)) (total : nat) (now : Z)
    (snapshots : list RecordSnapshot) (walked : nat) : list RecordSnapshot * nat :=
  match entries with
  | [] => (snapshots, walked)
  | (k, r) :: entries =>
      if (total <=? length snapshots)%nat then (snapshots, walked)
      else if is_marked_for_deletion r || is_permanent r
      then sample entries total now snapshots (S walked)
      else sample entries total now (snapshots ++ [snapshot k r now]) (S walked)
  end.

Record EvictionCandidate := mkCandidate { c_score : f64; c_key : CacheKey }.

(** The heap as the list of its elements, greatest first: [push], where
    [peek] is the head and [pop] the tail. *)
Fixpoint heap_push (x : EvictionCandidate) (heap : list EvictionCandidate) : list EvictionCandidate :=
  match heap with
  | [] => [x]
  | y :: heap => if total_lt (c_score x) (c_score y) then y :: heap_push x heap else x :: y :: heap
  end.

Fixpoint select (p : ActiveEvictionPolicy) (count : nat) (window now : Z)
    (snapshots : list RecordSnapshot) (heap : list EvictionCandidate) (urgent : list CacheKey)
    : list EvictionCandidate * list CacheKey :=
  match snapshots with
  | [] => (heap, urgent)
  | s :: snapshots =>
      if s_is_expired s && negb (sat_sub now (s_last_access s) <=? window)
      then select p count window now snapshots heap (urgent ++ [s_key s])
      else
        let sc := score powf p (s_hit_count s) (s_last_access s) (s_inserted_at s) now in
        let candidate := mkCandidate sc (s_key s) in
        let heap :=
          if (length heap <? count)%nat then heap_push candidate heap
          else match heap with
            | top :: rest => if SFltb sc (c_score top) then heap_push candidate rest else heap
            | [] => heap
            end in
        select p count window now snapshots heap urgent
  end.

Definition mark_key (m : gmap CacheKey CachedRecord) (k : CacheKey) : gmap CacheKey CachedRecord :=
  match m !! k with Some r => <[k := mark_for_deletion r]> m | None => m end.

Definition evict_by_strategy (c : DnsCache) (count : nat) (now : Z) : DnsCache :=
  let len := size (cache c) in
  if (len =? 0)%nat then c else
  let total := Nat.min (count * eviction_sample_size (config c)) len in
  let start := (eviction_cursor c mod len)%nat in
  let order := walk (cache c) in
  let '(snapshots, walked) := sample (drop start order ++ take start order) total now [] 0 in
  let c := set_cursor c ((start + walked) mod len) in
  let '(heap, urgent) :=
    select (eviction_policy (config c)) count (access_window_secs (config c)) now snapshots [] [] in
  let c := set_cache c (foldl mark_key (cache c) urgent) in
  let evict_count := (count - length urgent)%nat in
  let scored := c_key <$> take evict_count (rev heap) in
  let before := size (cache c) in
  let c := set_cache c (foldl (λ m k, delete k m) (cache c) scored) in
  let scored_evicted := (before - size (cache c))%nat in
  let '(c, retain_removed) :=
    match urgent with
    | [] => (c, 0%nat)
    | _ =>
        let kept := filter (λ kv : CacheKey * CachedRecord, is_marked_for_deletion kv.2 = false) (cache c) in
        (set_cache c kept, size (cache c) - size kept)%nat
    end in
  bump (bump_by c Evictions (Z.of_nat (scored_evicted + retain_removed))) BatchEvictions.

Definition evict_entries (c : DnsCache) (now : Z) : DnsCache :=
  let len := size (cache c) in
  let max := max_entries (config c) in
  if (len <? max)%nat then c else
  let headroom :=
    to_u64 (fmul (of_u64 (Z.of_nat max)) (batch_eviction_percentage (config c))) in
  evict_by_strategy c (len - max + Z.to_nat (Z.max headroom 1)) now.

(** ** Local records *)

Definition claim_permanent (p : gmap bytes (list RecordType)) (domain : bytes) (t : RecordType)
    : gmap bytes (list RecordType) :=
  let types := default [] (p !! domain) in
  <[domain := if bool_decide (t ∈ types) then types else types ++ [t]]> p.

Definition insert_permanent (c : DnsCache) (thread : nat) (domain : bytes) (t : RecordType)
    (d : CachedData) (ttl now : Z) : DnsCache :=
  let domain := normalize_domain domain in
  match into_stored d ttl 0 u32_max with
  | None => c
  | Some d =>
      let key := from_lowercase domain t in
      let c := set_bloom c (gate_set (bloom c) (hash_key key)) in
      let c := if (max_entries (config c) <=? size (cache c))%nat then evict_entries c now else c in
      let c := set_permanent c (claim_permanent (permanent_records c) domain t) in
      let c := put_record c key (record_permanent d ttl t now) in
      match as_cached_addresses d with
      | Some answer =>
          set_l1 c (l1_insert (l1 c) thread domain t answer CUnknown false (now + ttl) now).1
      | None => c
      end
  end.

Definition cache_is_permanent (c : DnsCache) (domain : bytes) (t : RecordType) : bool :=
  match permanent_records c !! normalize_domain domain with
  | Some types => bool_decide (t ∈ types)
  | None => false
  end.

Definition local_record_status (c : DnsCache) (domain : bytes) (t : RecordType) : LocalRecordStatus :=
  match permanent_records c !! normalize_domain domain with
  | None => NotLocal
  | Some types =>
      if bool_decide (t ∈ types) then Present
      else if existsb is_address_type types then MissingType else NotLocal
  end.

(** [retain] of the other types, and the entry itself once it has none. *)
Definition release_permanent (p : gmap bytes (list RecordType)) (domain : bytes) (t : RecordType)
    : gmap bytes (list RecordType) :=
  match p !! domain with
  | Some types =>
      match List.filter (λ kind, negb (bool_decide (kind = t))) types with
      | [] => delete domain p
      | types => <[domain := types]> p
      end
  | None => p
  end.

Definition remove (c : DnsCache) (thread : nat) (domain : bytes) (t : RecordType)
    : DnsCache * bool :=
  let domain := normalize_domain domain in
  let key := from_lowercase domain t in
  match cache c !! key with
  | Some _ =>
      let c := set_cache c (delete key (cache c)) in
      let c := set_permanent c (release_permanent (permanent_records c) domain t) in
      let c := bump c Evictions in
      (set_l1 c (l1_clear (l1 c) thread), true)
  | None => (c, false)
  end.

Definition remove_in (c : DnsCache) (thread : nat) (domain : bytes) (t : RecordType) (view : Z)
    : DnsCache * bool :=
  if view =? 0 then remove c thread domain t else
  let key := in_view (key_new domain t) view in
  match cache c !! key with
  | None => (c, false)
  | Some _ => (bump (set_cache c (delete key (cache c))) Evictions, true)
  end.

Definition remove_record (c : DnsCache) (thread : nat) (domain : bytes) (t : RecordType)
    (group_id : option Z) : DnsCache * bool :=
  match group_id with
  | None => remove c thread domain t
  | Some id =>
      if (0 <=? id) && (id <=? u32_max) && negb (id =? 0)
      then remove_in c thread domain t id else (c, false)
  end.

(** The local records the cache holds, which [clear] puts back.  Their keys
    are distinct, so the order of the walk does not matter. *)
Definition preserved (c : DnsCache) : list (CacheKey * CachedData * Z) :=
  '(domain, types) ← map_to_list (permanent_records c);
  t ← types;
  let key := mkKey domain t 0 in
  match cache c !! key with
  | Some r => [(key, data r, ttl r)]
  | None => []
  end.

Definition restore (now : Z) (c : DnsCache) (saved : CacheKey * CachedData * Z) : DnsCache :=
  let '(key, d, ttl) := saved in
  let c := set_bloom c (gate_set (bloom c) (hash_key key)) in
  let c := set_permanent c
    (claim_permanent (permanent_records c) (k_domain key) (k_record_type key)) in
  put_record c key (record_permanent d ttl (k_record_type key) now).

Definition clear (c : DnsCache) (thread : nat) (now : Z) : DnsCache :=
  let saved := preserved c in
  let c := set_cache c ∅ in
  let c := set_bloom c (gate_clear (bloom c)) in
  let c := set_negative c (negative_clear (negative c)) in
  let c := set_permanent c ∅ in
  let c := set_l1 c (l1_clear (l1 c) thread) in
  let c := reset_metric (reset_metric (reset_metric c Hits) Misses) Evictions in
  foldl (restore now) c saved.

(** ** The Bloom filter *)

Definition seeds (c : DnsCache) (now : Z) : list CacheKey :=
  fst <$> List.filter (λ kr : CacheKey * CachedRecord,
    negb (is_marked_for_deletion kr.2)
    && negb (is_expired_at_secs kr.2 now && negb (is_stale_usable_at_secs kr.2 now)))
    (walk (cache c)).

Definition permanent_seeds (c : DnsCache) : list BorrowedKey :=
  '(domain, types) ← map_to_list (permanent_records c); t ← types; [borrowed_new domain t].

Definition rotate_bloom (c : DnsCache) (now : Z) : DnsCache * nat :=
  let b := gate_rotate (bloom c) in
  let keys := seeds c now in
  let b := foldl (λ b k, gate_set b (hash_key k)) b keys in
  let b := foldl (λ b k, gate_set b (hash_borrowed k)) b (permanent_seeds c) in
  (set_bloom c b, length keys).

(** ** Renewal *)

Definition refresh_record_of (c : DnsCache) (thread : nat) (key : CacheKey)
    (new_ttl : option Z) (new_data : CachedData) (status : option CachedDnssecStatus) (now : Z)
    : DnsCache * bool :=
  match (match new_ttl with Some t => Some t | None => ttl <$> cache c !! key end) with
  | None => (c, false)
  | Some t =>
      let t := clamp_ttl c t in
      match into_stored new_data t (cfg_min_ttl (config c)) (cfg_max_ttl (config c)) with
      | None => (c, false)
      | Some d =>
          match cache c !! key with
          | None => (c, false)
          | Some r =>
              if is_permanent r || is_marked_for_deletion r then (c, false) else
              let r := mkRecord d (default (dnssec_status r) status) (now + t) now (counters r) t
                         (record_type r) (flags r) in
              let r := clear_refreshing (note_refreshed r) in
              let maybe_l1_answer := if k_view key =? 0 then as_cached_addresses d else None in
              let '(c, r) :=
                match maybe_l1_answer with
                | Some answer =>
                    let '(l, batched) := l1_insert (l1 c) thread (k_domain key) (k_record_type key)
                      answer (dnssec_status r) (is_local_dns r) (expires_at_secs r) now in
                    (set_l1 c l, if 0 <? batched then record_hits r batched now else r)
                | None => (c, r)
                end in
              let c := set_bloom c (gate_set (bloom c) (hash_key key)) in
              let '(r, first) := first_timer_at c r in
              (arm_timer (put_record c key r) thread key first Due, true)
          end
      end
  end.

Definition refresh_record (c : DnsCache) (thread : nat) (domain : bytes) (t : RecordType)
    (new_ttl : option Z) (new_data : CachedData) (status : option CachedDnssecStatus) (now : Z) :=
  refresh_record_of c thread (from_lowercase (normalize_domain domain) t) new_ttl new_data status now.

(** *** Expiry *)

Definition remove_dead (c : DnsCache) (key : CacheKey) (now : Z) : DnsCache * bool :=
  match cache c !! key with
  | Some r =>
      if negb (is_permanent r) && (is_marked_for_deletion r || is_dead_at_secs r now) then
        (bump (bump (set_cache c (delete key (cache c))) Compactions) Expirations, true)
      else (c, false)
  | None => (c, false)
  end.

Definition expire_negative (c : DnsCache) (key : CacheKey) (now : Z) : DnsCache * bool :=
  let '(n, removed) := remove_expired (negative c) key now in
  let c := set_negative c n in
  (if removed : bool then bump c Compactions else c, removed).

(** *** Claims *)

Record ColdThresholds := mkCold { min_hit_rate : f64; min_frequency : Z }.

Record DueRefresh := mkDue { d_key : CacheKey; d_retry : bool; is_cold : bool; deadline_secs : Z }.

Definition has_died_by (d : DueRefresh) (now : Z) : bool := deadline_secs d <=? now.

(** [a] is more urgent than [b]: hot before cold, then the earlier deadline. *)
Definition more_urgent (a b : DueRefresh) : bool :=
  match is_cold a, is_cold b with
  | false, true => true
  | true, false => false
  | _, _ => deadline_secs a <? deadline_secs b
  end.

Definition is_worth_renewing (c : DnsCache) (r : CachedRecord) (now : Z) : bool :=
  let last := last_access (counters r) in
  if access_window_secs (config c) <? sat_sub now last then false
  else (REFRESH_LEAD_SECS <=? ttl r) || (inserted_at_secs r <=? last).

Definition claim_due_refresh (c : DnsCache) (thread : nat) (t : ScheduledRefresh) (now : Z)
    (thresholds : ColdThresholds) : DnsCache * option DueRefresh :=
  let key := t_key t in
  match cache c !! key with
  | None => (c, None)
  | Some r =>
      if is_permanent r then (c, None)
      else if is_marked_for_deletion r || is_dead_at_secs r now
      then ((remove_dead c key now).1, None)
      else
        let '(r, claimed) := try_claim_refresh_timer r (due_at_secs t) in
        if negb claimed then (c, None) else
        let '(r, parked) :=
          if is_worth_renewing c r now then (r, false)
          else
            let r := park_claimed_refresh r in
            if negb (is_worth_renewing c r now) then (r, true)
            else let '(r, reclaimed) := try_reclaim_parked_refresh r in (r, negb reclaimed) in
        let c := put_record c key r in
        if parked : bool then
          (arm_timer c thread key (refresh_deadline_secs r) Due, None)
        else
          (c, Some (mkDue key (bool_decide (t_kind t = Retry))
                 (SFltb (hits_per_minute_since_refresh r now) (min_hit_rate thresholds)
                  || (hit_count (counters r) <? min_frequency thresholds))
                 (refresh_deadline_secs r)))
  end.

Definition give_up_dead_claim (c : DnsCache) (key : CacheKey) (now : Z) : DnsCache :=
  (remove_dead (bump c OptimisticRefreshShed) key now).1.

Definition rearm_lapsed (c : DnsCache) (thread : nat) (key : CacheKey) (now : Z) : DnsCache :=
  match cache c !! key with
  | None => c
  | Some r =>
      if negb (renews_ahead c (ttl r)) then c else
      let due := Z.min (sat_add u64_max now (retry_lapsed_after_secs (config c)))
                       (refresh_deadline_secs r) in
      let '(r, armed) := try_rearm_lapsed_refresh r due in
      if armed : bool then arm_timer (put_record c key r) thread key due Due else c
  end.

Definition start_claimed_refresh (c : DnsCache) (thread : nat) (key : CacheKey) (now : Z)
    : DnsCache * bool :=
  match cache c !! key with
  | None => (c, false)
  | Some r =>
      let '(r, started) := try_start_claimed_refresh r in
      if negb started then (c, false) else
      let c := put_record c key r in
      if is_marked_for_deletion r || is_dead_at_secs r now
      then (give_up_dead_claim c key now, false)
      else
        let '(r, set) := try_set_refreshing r in
        if set : bool then (put_record c key r, true)
        else (rearm_lapsed c thread key now, false)
  end.

Definition reset_refreshing_of (c : DnsCache) (key : CacheKey) : DnsCache :=
  match cache c !! key with
  | Some r => put_record c key (clear_refreshing r)
  | None => c
  end.

End cache.
