(* ===== verification/CacheInvariant.v ===== *)
(** What every operation of the cache preserves.

    An operation is a sequence of the primitive changes [Micro]; the invariant
    of the cache is proved once, for each primitive change, and each operation
    is shown to be made of them: lookups first, then insertion, eviction,
    renewal and removal. *)

From stdpp Require Import relations.
From S2P Require Import Prelude Net Float64 CacheRecord CacheSchedule CacheNegative CacheBloom CacheL1 Cache.

(** ** Records that differ in counters only *)

(** [r'] is [r] but for its hits, its in-flight bit and a mark for deletion,
    which a permanent record never gets. *)
Record same_core (r r' : CachedRecord) : Prop := {
  sc_data : data r' = data r;
  sc_expires : expires_at_secs r' = expires_at_secs r;
  sc_inserted : inserted_at_secs r' = inserted_at_secs r;
  sc_ttl : ttl r' = ttl r;
  sc_timer : timer r' = timer r;
  sc_status : dnssec_status r' = dnssec_status r;
  sc_permanent : is_permanent r' = is_permanent r;
  sc_local_dns : is_local_dns r' = is_local_dns r;
  sc_marked : is_marked_for_deletion r = true → is_marked_for_deletion r' = true;
  sc_unmarked : is_permanent r = true → is_marked_for_deletion r' = is_marked_for_deletion r;
}.

Lemma same_core_refl r : same_core r r.
Proof. by split. Qed.

Lemma same_core_trans r1 r2 r3 : same_core r1 r2 → same_core r2 r3 → same_core r1 r3.
Proof.
  intros H1 H2. destruct H1, H2. split; try congruence; auto.
  intros Hp. rewrite sc_unmarked1; [by apply sc_unmarked0|congruence].
Qed.

Lemma same_core_hits r n now : same_core r (record_hits r n now).
Proof. by split. Qed.

Lemma same_core_mark r : is_permanent r = false → same_core r (mark_for_deletion r).
Proof. intros Hp. split; try done; flags; try done. intros; congruence. Qed.

Lemma same_core_set_refreshing r : same_core r (try_set_refreshing r).1.
Proof.
  unfold try_set_refreshing, try_set_flag. destruct (bit _ _); [apply same_core_refl|].
  split; try done; flags; done.
Qed.

Lemma same_core_clear_refreshing r : same_core r (clear_refreshing r).
Proof. split; try done; flags; done. Qed.

Lemma same_core_dead r r' now : same_core r r' → is_dead_at_secs r' now = is_dead_at_secs r now.
Proof.
  intros []. unfold is_dead_at_secs, is_expired_at_secs, is_stale_usable_at_secs.
  by rewrite sc_permanent0, sc_expires0, sc_inserted0, sc_ttl0.
Qed.

Lemma same_core_deadline r r' : same_core r r' → refresh_deadline_secs r' = refresh_deadline_secs r.
Proof. intros []. unfold refresh_deadline_secs. by rewrite sc_expires0, sc_ttl0. Qed.

Lemma same_core_ok r r' : same_core r r' → record_ok r → record_ok r'.
Proof.
  intros [] (H1 & H2 & H3 & H4). unfold record_ok. rewrite sc_ttl0, sc_inserted0, sc_expires0,
    sc_permanent0, sc_timer0. split_and!; auto; try lia.
  intros Hp. destruct (H4 Hp) as (Hx & Hm & Ht). by rewrite sc_unmarked0.
Qed.

Lemma dead_mono r now now' : is_dead_at_secs r now = true → now ≤ now' → is_dead_at_secs r now' = true.
Proof.
  unfold is_dead_at_secs, is_expired_at_secs, is_stale_usable_at_secs, sat_sub.
  destruct (is_permanent r); [done|].
  rewrite !andb_true_iff, !negb_true_iff, !andb_false_iff, !Z.leb_le, !Z.leb_gt, !Z.ltb_ge. lia.
Qed.

Lemma record_ok_timer r t : record_ok r → t ≠ TIMER_PARKED → record_ok (with_timer r t).
Proof.
  intros (H1 & H2 & H3 & H4) Ht. split_and!; try done; try (simpl; lia).
  intros Hp. destruct (H4 Hp) as (Hx & Hm & _). done.
Qed.

Lemma with_timer_timer r t : timer (with_timer r t) = t.
Proof. done. Qed.

Section invariant.
  Context `{Lru, IterOrder, MembershipGate} (powf : f64 → f64 → f64).

(** ** Primitive changes *)

Definition local (c : DnsCache) (domain : bytes) (t : RecordType) : Prop :=
  ∃ types, permanent_records c !! domain = Some types ∧ t ∈ types.

(** The state of a timer just armed: what the record holds is the due second. *)
Definition pending_at (c : DnsCache) (r : CachedRecord) (due now : Z) : Prop :=
  timer r = due ∧ 0 < due ≤ 2 * clock_max ∧
  (renews_ahead c (ttl r) = true ∨ refresh_deadline_secs r ≤ due) ∧
  due ≤ Z.max (refresh_deadline_secs r) now.

(** A record stored or renewed: its first timer is its renewal, or its death. *)
Definition first_timer (c : DnsCache) (r : CachedRecord) (due now : Z) : Prop :=
  pending_at c r due now ∨
  (timer r = TIMER_LAPSED ∧ renews_ahead c (ttl r) = false ∧ due = refresh_deadline_secs r).

Inductive Micro (now : Z) : DnsCache → DnsCache → Prop :=
  | micro_quiet c c' :
      config c' = config c → cache c' = cache c → bloom c' = bloom c →
      permanent_records c' = permanent_records c → inbox c' = inbox c →
      (negative_ok (negative c) → negative_ok (negative c')) →
      Micro now c c'
  | micro_touch c k r r' :
      cache c !! k = Some r → same_core r r' → Micro now c (put_record c k r')
  | micro_drop c m :
      m ⊆ cache c → (∀ k r, cache c !! k = Some r → m !! k = None → is_permanent r = false) →
      Micro now c (set_cache c m)
  | micro_arm c thread key due kind : kind = NegativeExpiry ∨ 0 < due →
      Micro now c (arm_timer c thread key due kind)
  | micro_rearm c thread k r due kind :
      cache c !! k = Some r → timer r = TIMER_PARKED ∨ timer r = TIMER_LAPSED →
      0 < due ≤ 2 * clock_max → kind ≠ NegativeExpiry →
      (is_permanent r = false → pending_at c (with_timer r due) due now) →
      Micro now c (arm_timer (put_record c k (with_timer r due)) thread k due kind)
  | micro_bloom c k : Micro now c (set_bloom c (gate_set (bloom c) (hash_key k)))
  | micro_store c thread k r due :
      (∀ old, cache c !! k = Some old → is_permanent old = false) →
      gate_check (bloom c) (hash_key k) = true →
      record_ok r → inserted_at_secs r ≤ now → is_permanent r = false →
      first_timer c r due now →
      Micro now c (arm_timer (put_record c k r) thread k due Due).

Definition micros (now : Z) : relation DnsCache := rtc (Micro now).

(** ** The invariant *)

Definition config_ok (cfg : DnsCacheConfig) : Prop :=
  0 ≤ cfg_min_ttl cfg ≤ cfg_max_ttl cfg ∧ cfg_max_ttl cfg ≤ u32_max ∧
  0 ≤ retry_lapsed_after_secs cfg ≤ clock_max ∧ (1 ≤ eviction_sample_size cfg)%nat.

Record cache_ok (now : Z) (c : DnsCache) : Prop := {
  ok_config : config_ok (config c);
  ok_records k r : cache c !! k = Some r →
    record_ok r ∧ inserted_at_secs r ≤ now ∧ (is_permanent r = true → k_view k = 0);
  ok_gate : gate_ok (bloom c);
  ok_reach k r : cache c !! k = Some r →
    gate_check (bloom c) (hash_key k) = true ∨
    (is_permanent r = false ∧ (is_marked_for_deletion r = true ∨ is_dead_at_secs r now = true));
  ok_local d t : local c d t ↔ ∃ r, cache c !! mkKey d t 0 = Some r ∧ is_permanent r = true;
  ok_negative : negative_ok (negative c);
}.

Lemma cache_ok_later now now' c : cache_ok now c → now ≤ now' → cache_ok now' c.
Proof.
  intros [] Hle. split; try done.
  - intros k r Hr. destruct (ok_records0 k r Hr) as (? & ? & ?). split_and!; auto. lia.
  - intros k r Hr. destruct (ok_reach0 k r Hr) as [?|(? & [?|?])]; eauto using dead_mono.
Qed.

(** Changing one record in a way that keeps it reachable and as local as it was. *)
Lemma cache_ok_put now c c' k r' :
  cache_ok now c →
  config c' = config c → bloom c' = bloom c → permanent_records c' = permanent_records c →
  negative c' = negative c → cache c' = <[k := r']> (cache c) →
  record_ok r' → inserted_at_secs r' ≤ now → (is_permanent r' = true → k_view k = 0) →
  (gate_check (bloom c) (hash_key k) = true ∨
   (is_permanent r' = false ∧ (is_marked_for_deletion r' = true ∨ is_dead_at_secs r' now = true))) →
  is_permanent r' = match cache c !! k with Some r => is_permanent r | None => false end →
  cache_ok now c'.
Proof.
  intros Hok Hc Hb Hp Hn Hm Hr Hi Hv Hreach Hperm. destruct Hok. split.
  - by rewrite Hc.
  - intros j r. rewrite Hm, lookup_insert_Some. intros [[<- <-]|[_ Hj]]; [done|by apply ok_records0].
  - by rewrite Hb.
  - intros j r. rewrite Hm, lookup_insert_Some, Hb.
    intros [[<- <-]|[_ Hj]]; [done|by apply ok_reach0].
  - intros d t. unfold local. rewrite Hp, Hm. rewrite (ok_local0 d t).
    destruct (decide (k = mkKey d t 0)) as [->|Hne].
    + rewrite lookup_insert_eq. split.
      * intros (r & Hr' & Hpr). rewrite Hr' in Hperm. exists r'. split; [done|congruence].
      * intros (r & [= <-] & Hpr). destruct (cache c !! mkKey d t 0) as [r|]; [|congruence].
        exists r. split; [done|congruence].
    + by rewrite lookup_insert_ne by done.
  - by rewrite Hn.
Qed.

Lemma micro_ok now c c' : Micro now c c' → cache_ok now c → cache_ok now c'.
Proof.
  intros Hstep Hok.
  destruct Hstep as [c c' Hcfg Hca Hbl Hpe _ Hneg|c k r r' Hr Hsc|c m Hsub Hp|c th key due kind _
    |c th k r due kind Hr Ht Hdue Hkind Hpend|c k|c th k r due Hold Hchk Hrok Hins Hperm Hfirst].
  - destruct Hok. split; unfold local in *; rewrite ?Hcfg, ?Hca, ?Hbl, ?Hpe; auto.
  - pose proof (ok_records _ _ Hok k r Hr) as (Hro & Hi & Hv).
    eapply cache_ok_put; try done.
    + by eapply same_core_ok.
    + destruct Hsc. by rewrite sc_inserted0.
    + destruct Hsc. by rewrite sc_permanent0.
    + destruct (ok_reach _ _ Hok k r Hr) as [?|(Hnp & Hd)]; [by left|right].
      rewrite (same_core_dead _ _ _ Hsc). destruct Hsc. rewrite sc_permanent0. split; [done|].
      destruct Hd; auto.
    + rewrite Hr. by destruct Hsc.
  - destruct Hok. split; try done; simpl.
    + intros j q Hj. apply (ok_records0 j). by eapply lookup_weaken.
    + intros j q Hj. apply (ok_reach0 j). by eapply lookup_weaken.
    + intros d t. unfold local in *. simpl. rewrite (ok_local0 d t).
      split; intros (q & Hq & Hpq); exists q; (split; [|done]); [|by eapply lookup_weaken].
      destruct (m !! mkKey d t 0) as [q'|] eqn:E; [|by rewrite (Hp _ q Hq E) in Hpq].
      pose proof (lookup_weaken _ _ _ _ E Hsub). congruence.
  - destruct Hok. by split.
  - pose proof (ok_records _ _ Hok k r Hr) as (Hro & Hi & Hv).
    eapply cache_ok_put; try done.
    + apply record_ok_timer; [done|]. unfold TIMER_PARKED, clock_max in *. unfold_ints. lia.
    + exact (ok_reach _ _ Hok k r Hr).
    + by rewrite Hr.
  - destruct Hok. split; try done; simpl.
    + by apply gate_set_ok.
    + intros j r Hj. destruct (ok_reach0 j r Hj); [left; by apply gate_check_mono|by right].
  - eapply cache_ok_put; try done.
    + congruence.
    + by left.
    + destruct (cache c !! k) as [old|]; [|done]. by rewrite Hperm, (Hold old).
Qed.

Lemma micros_ok now c c' : micros now c c' → cache_ok now c → cache_ok now c'.
Proof. induction 1; eauto using micro_ok. Qed.

Lemma micros_trans now c1 c2 c3 : micros now c1 c2 → micros now c2 c3 → micros now c1 c3.
Proof. intros. by etrans. Qed.

(** ** Operations as primitive changes *)

Lemma micro_quiet_ now c c' :
  config c' = config c → cache c' = cache c → bloom c' = bloom c →
  permanent_records c' = permanent_records c → inbox c' = inbox c →
  (negative_ok (negative c) → negative_ok (negative c')) → micros now c c'.
Proof. intros. by apply rtc_once, micro_quiet. Qed.

Ltac quiet := apply micro_quiet_; auto; done.

Lemma bump_micros now c x n : micros now c (bump_by c x n).
Proof. quiet. Qed.

Lemma touch_micros now c k r r' :
  cache c !! k = Some r → same_core r r' → micros now c (put_record c k r').
Proof. intros. eapply rtc_once, micro_touch; eauto. Qed.

Lemma set_l1_micros now c l : micros now c (set_l1 c l).
Proof. quiet. Qed.

Lemma due_pending c r now :
  record_ok r → inserted_at_secs r ≤ now ≤ clock_max → is_permanent r = false →
  renews_ahead c (ttl r) = true →
  let due := refresh_due_at_secs r (refresh_threshold (config c)) in
  pending_at c (with_timer r due) due now.
Proof.
  intros Hok Hi Hp Hra due.
  assert (Hd : refresh_deadline_secs (with_timer r due) = inserted_at_secs r + ttl r + ttl r)
    by (by apply (deadline_eq r)).
  pose proof Hok as (Ht & Hins & _).
  assert (Httl : ttl r ≠ 0).
  { unfold renews_ahead in Hra. apply andb_prop in Hra as [_ Hz].
    by apply negb_true_iff, Z.eqb_neq in Hz. }
  pose proof (refresh_due_at_range (inserted_at_secs r) (ttl r) (refresh_threshold (config c))
    ltac:(unfold_ints; lia)) as Hr.
  fold (refresh_due_at_secs r (refresh_threshold (config c))) in Hr. fold due in Hr.
  split_and!; [done|lia|unfold clock_max in *; unfold_ints; lia|by left|].
  rewrite Hd. unfold_ints. lia.
Qed.

Lemma rearm_refresh_micros now c thread k r :
  cache c !! k = Some r → is_refresh_parked r = true →
  record_ok r → inserted_at_secs r ≤ now ≤ clock_max →
  micros now c (rearm_refresh c thread k r).
Proof.
  intros Hr Hpark Hok Hi.
  assert (Hp : is_permanent r = false).
  { apply not_true_iff_false. intros Hp. destruct Hok as (_ & _ & _ & Hperm).
    destruct (Hperm Hp) as (_ & _ & Ht). by apply Ht, Z.eqb_eq. }
  unfold rearm_refresh.
  destruct (renews_ahead c (ttl r)) eqn:Hra; simpl; [|apply rtc_refl].
  unfold is_refresh_parked in Hpark. unfold try_unpark_refresh, swap_refresh_timer.
  pose proof (due_pending c r now Hok Hi Hp Hra) as Hd.
  rewrite Hpark. apply rtc_once, (micro_rearm _ _ _ _ r); try done.
  - left. by apply Z.eqb_eq.
  - by destruct Hd as (_ & Hd & _).
Qed.

(** *** Lookup *)

Lemma negative_get_ok n domain t view now :
  negative_ok n → negative_ok (negative_get n domain t view now).1.
Proof.
  intros Hok. unfold negative_get. destruct (counted_get _ _); [|done].
  destruct (_ <? _); [done|]. by apply negative_remove_if_ok.
Qed.

Lemma negative_or_miss_micros now c domain t view :
  micros now c (negative_or_miss c domain t view now).1.
Proof.
  unfold negative_or_miss. pose proof (negative_get_ok (negative c) domain t view now) as Hn.
  destruct (negative_get _ _ _ _ _) as [n answer]. simpl in Hn.
  destruct answer as [[ttl l]|]; apply micro_quiet_; auto; done.
Qed.

Lemma put_put c k r r' : put_record (put_record c k r) k r' = put_record c k r'.
Proof. unfold put_record, set_cache. simpl. by rewrite insert_insert_eq. Qed.

Lemma stale_hit_micros now c k r :
  cache c !! k = Some r → micros now c (stale_hit c k r now).1.
Proof.
  intros Hr. unfold stale_hit. cbn [fst].
  eapply micros_trans; [apply (bump_micros _ _ Hits 1)|].
  eapply micros_trans; [apply (bump_micros _ _ StaleHits 1)|].
  unfold bump. set (c2 := bump_by (bump_by c Hits 1) StaleHits 1).
  change (cache c2 !! k = Some r) in Hr. clearbody c2. clear c.
  pose proof (same_core_hits r 1 now) as Hh. fold (record_hit r now) in Hh.
  destruct (stale_repairs c2) as [q|]; [|by eapply touch_micros].
  pose proof (same_core_set_refreshing (record_hit r now)) as Hs.
  destruct (try_set_refreshing _) as [r' []]; simpl in Hs; [|by eapply touch_micros].
  destruct (try_send _ _) as [q'|].
  - eapply micros_trans; [eapply touch_micros; [done|by eapply same_core_trans]|].
    by apply micro_quiet_.
  - eapply micros_trans; [eapply touch_micros; [done|]|].
    + eapply same_core_trans; [done|]. eapply same_core_trans; [done|apply same_core_clear_refreshing].
    + by apply micro_quiet_.
Qed.

Lemma lookup_put c k r : cache (put_record c k r) !! k = Some r.
Proof. apply lookup_insert_eq. Qed.

(** What the invariant says of one record. *)
Definition rec_ok (now : Z) (r : CachedRecord) : Prop :=
  record_ok r ∧ inserted_at_secs r ≤ now ≤ clock_max.

Lemma rec_ok_core now r r' : same_core r r' → rec_ok now r → rec_ok now r'.
Proof.
  intros Hsc [H2 H3]. split; [by eapply same_core_ok|]. destruct Hsc. by rewrite sc_inserted0.
Qed.

Lemma ok_rec_ok now c k r : cache_ok now c → now ≤ clock_max → cache c !! k = Some r → rec_ok now r.
Proof. intros Hok Hn Hr. destruct (ok_records _ _ Hok k r Hr) as (? & ? & _). split; [done|lia]. Qed.

(** A counted hit re-arms a parked entry; what is at [k] is [r] but for that. *)
Lemma rearm_refresh_core now c thread k r :
  cache c !! k = Some r → is_refresh_parked r = true → rec_ok now r →
  let c' := rearm_refresh c thread k r in
  micros now c c' ∧ config c' = config c ∧
  ∃ t, cache c' !! k = Some (with_timer r t) ∧ t ≠ TIMER_PARKED ∨ cache c' !! k = Some r.
Proof.
  intros Hr Hpark [Hok Hi] c'. split; [by apply rearm_refresh_micros|].
  subst c'. unfold rearm_refresh. destruct (negb _) eqn:Hra; [split; [done|]; exists 0; by right|].
  unfold try_unpark_refresh, swap_refresh_timer. unfold is_refresh_parked in Hpark. rewrite Hpark.
  split; [done|]. exists (refresh_due_at_secs r (refresh_threshold (config c))). left.
  split; [apply lookup_put|].
  pose proof Hok as (Ht & Hins & _).
  pose proof (refresh_due_at_range (inserted_at_secs r) (ttl r) (refresh_threshold (config c))
    ltac:(unfold_ints; lia)) as Hrg.
  fold (refresh_due_at_secs r (refresh_threshold (config c))) in Hrg.
  unfold TIMER_PARKED, clock_max in *. unfold_ints. lia.
Qed.

Lemma record_l1_hits_micros now c thread domain t n :
  cache_ok now c → now ≤ clock_max → micros now c (record_l1_hits c thread domain t n now).
Proof.
  intros Hok Hn. unfold record_l1_hits. destruct (cache c !! _) as [r|] eqn:Hr; [|apply rtc_refl].
  pose proof (same_core_hits r n now) as Hsc.
  eapply micros_trans; [by eapply touch_micros|].
  destruct (is_refresh_parked _) eqn:Hp; [|apply rtc_refl].
  destruct (rec_ok_core now _ _ Hsc (ok_rec_ok _ _ _ _ Hok Hn Hr)) as [Hro Hi].
  apply rearm_refresh_micros; auto using lookup_put.
Qed.

Lemma promote_micros now c thread domain t k r :
  cache c !! k = Some r → micros now c (promote_to_l1 c thread domain t k r now).
Proof.
  intros Hr. unfold promote_to_l1. destruct (data r); try apply rtc_refl.
  destruct (_ <=? _); [apply rtc_refl|]. destruct (l1_insert _ _ _ _ _ _ _ _ _) as [l b].
  eapply micros_trans; [apply (set_l1_micros _ _ l)|]. destruct (0 <? b); [|apply rtc_refl].
  eapply touch_micros; [done|apply same_core_hits].
Qed.

Lemma fresh_hit_micros now c thread k r :
  cache_ok now c → now ≤ clock_max → cache c !! k = Some r →
  micros now c (fresh_hit c thread k r now).1.
Proof.
  intros Hok Hn Hr. unfold fresh_hit. cbn [fst].
  eapply micros_trans; [apply (bump_micros _ _ Hits 1)|].
  pose proof (ok_rec_ok _ _ _ _ Hok Hn Hr) as Hro. clear Hok.
  unfold bump. set (c1 := bump_by c Hits 1). change (cache c1 !! k = Some r) in Hr.
  clearbody c1. clear c.
  pose proof (same_core_hits r 1 now) as Hh. fold (record_hit r now) in Hh.
  pose proof (rec_ok_core _ _ _ Hh Hro) as Hro'.
  eapply micros_trans; [by eapply touch_micros|].
  set (c2 := put_record c1 k (record_hit r now)).
  assert (Hr2 : cache c2 !! k = Some (record_hit r now)) by apply lookup_put.
  clearbody c2. clear c1 Hr.
  destruct (is_refresh_parked (record_hit r now)) eqn:Hpk.
  - destruct (rearm_refresh_core now c2 thread k _ Hr2 Hpk Hro') as (Hm & _ & t & Hk).
    eapply micros_trans; [exact Hm|]. destruct (k_view k =? 0); [|apply rtc_refl].
    destruct Hk as [[Hk _]|Hk]; rewrite Hk; apply promote_micros; done.
  - destruct (k_view k =? 0); [|apply rtc_refl]. rewrite Hr2. by apply promote_micros.
Qed.

Lemma get_l2_micros now c thread domain t view :
  cache_ok now c → now ≤ clock_max → micros now c (get_l2 c thread domain t view now).1.
Proof.
  intros Hok Hn. unfold get_l2. destruct (negb _); [apply negative_or_miss_micros|].
  destruct (cache c !! _) as [r|] eqn:Hr; [|apply negative_or_miss_micros].
  destruct (is_stale_usable_at_secs r now) eqn:Es; [by apply stale_hit_micros|].
  destruct (is_expired_at_secs r now) eqn:Ex; [|by apply fresh_hit_micros].
  eapply micros_trans; [|apply negative_or_miss_micros].
  eapply micros_trans; [eapply touch_micros; [done|]|apply (bump_micros _ _ LazyDeletions 1)].
  apply same_core_mark. unfold is_expired_at_secs in Ex. by destruct (is_permanent r).
Qed.

Lemma get_in_micros now c thread domain t view :
  cache_ok now c → now ≤ clock_max → micros now c (get_in c thread domain t view now).1.
Proof.
  intros Hok Hn. unfold get_in.
  destruct ((view =? 0) && is_address_type t); [|by apply get_l2_micros].
  destruct (l1_get _ _ _ _ _) as [l hit].
  assert (Hm : micros now c (set_l1 c l)) by apply set_l1_micros.
  pose proof (micros_ok _ _ _ Hm Hok) as Hok1.
  destruct hit as [[[[[answer status] lo] rem] hits]|];
    [|eapply micros_trans; [exact Hm|by apply get_l2_micros]].
  cbn [fst]. eapply micros_trans; [exact Hm|].
  eapply micros_trans; [apply (bump_micros _ _ Hits 1)|]. fold (bump (set_l1 c l) Hits).
  destruct (0 <? hits); [|apply rtc_refl]. apply record_l1_hits_micros; [|done].
  eapply micros_ok; [apply (bump_micros _ _ Hits 1)|done].
Qed.

End invariant.

Ltac quiet := apply micro_quiet_; auto; done.

Section ops.
Context `{Lru, IterOrder, MembershipGate} (powf : f64 → f64 → f64).

(** ** Insertion *)

(** The first timer of a record that was just stored or renewed. *)
Lemma first_timer_at_spec c r now :
  rec_ok now r → is_permanent r = false →
  let r' := (first_timer_at c r).1 in
  let due := (first_timer_at c r).2 in
  (∃ t, r' = with_timer r t ∧ t ≠ TIMER_PARKED) ∧ first_timer c r' due now.
Proof.
  intros [Hok Hi] Hp. unfold first_timer_at. destruct (renews_ahead c (ttl r)) eqn:Hra; simpl.
  - pose proof (due_pending c r now Hok Hi Hp Hra) as Hd. simpl in Hd. split; [|by left].
    eexists. split; [done|]. destruct Hd as (_ & Hd & _). unfold TIMER_PARKED, clock_max in *.
    unfold_ints. lia.
  - split; [by exists TIMER_LAPSED|]. right. done.
Qed.

Lemma micro_store_ c thread k r0 now c0 :
  micros now c0 c → gate_check (bloom c) (hash_key k) = true →
  (∀ old, cache c !! k = Some old → is_permanent old = false) →
  rec_ok now r0 → is_permanent r0 = false → 
  let '(r, first) := first_timer_at c r0 in
  micros now c0 (arm_timer (put_record c k r) thread k first Due).
Proof.
  intros Hm Hg Hold Hr Hp. pose proof (first_timer_at_spec c r0 now Hr Hp) as Hf.
  destruct (first_timer_at c r0) as [r first]. simpl in Hf. destruct Hf as ((t & -> & Ht) & Hf).
  eapply micros_trans; [exact Hm|]. destruct Hr as [Hok Hi]. apply rtc_once, micro_store; try done.
  - by apply record_ok_timer.
  - simpl. lia.
Qed.

Lemma clamp_ttl_u32 now c t : cache_ok now c → is_u32 (clamp_ttl c t).
Proof.
  intros Hok. destruct (ok_config _ _ Hok) as (Hle & Hmax & _). unfold clamp_ttl.
  pose proof (clamp_bounds t (cfg_min_ttl (config c)) (cfg_max_ttl (config c)) ltac:(lia)).
  unfold_ints. lia.
Qed.

Lemma record_new_ok d t kind status now (local_dns : bool) :
  is_u32 t → 0 < now ≤ clock_max →
  let r := record_new d t kind status now in
  let r := if local_dns then with_local_dns r else r in
  rec_ok now r ∧ is_permanent r = false ∧ expires_at_secs r = now + t.
Proof.
  intros Ht Hn. destruct local_dns; (split; [|split]; [|done|done]); (split; [|simpl; lia]);
    unfold record_ok; simpl; split_and!; unfold_ints; try lia; done.
Qed.

Lemma store_micros now c thread key d t status local_dns :
  cache_ok now c → 0 < now ≤ clock_max →
  micros now c (store c thread key d t status local_dns now).
Proof.
  intros Hok Hn. unfold store. destruct (is_negative d).
  { pose proof (negative_insert_ok (negative c) (b_domain key) (b_record_type key) t local_dns
      (b_view key) now) as Hneg.
    destruct (negative_insert _ _ _ _ _ _ _) as [n expires]. simpl in Hneg.
    eapply micros_trans; [apply (micro_quiet_ _ _ (set_negative c n)); done|].
    apply rtc_once, micro_arm. by left. }
  destruct (into_stored _ _ _ _) as [d'|]; [|apply rtc_refl].
  pose proof (clamp_ttl_u32 now c t Hok) as Ht.
  destruct (record_new_ok d' (clamp_ttl c t) (b_record_type key) status now local_dns Ht Hn)
    as (Hr & Hp & _).
  set (r0 := if local_dns then _ else _) in *.
  set (k := in_view _ _). set (c1 := set_bloom c _).
  assert (Hm : micros now c c1) by apply rtc_once, micro_bloom.
  assert (Hg : gate_check (bloom c1) (hash_key k) = true) by apply gate_check_set, Hok.
  pose proof (micro_store_ c1 thread k r0 now c Hm Hg) as Hs.
  change (first_timer_at c1 r0) with (first_timer_at c r0) in Hs.
  destruct (first_timer_at c r0) as [r first].
  destruct (cache c1 !! k) as [old|] eqn:Ho.
  - destruct (is_permanent old) eqn:Hpo; [done|].
    specialize (Hs ltac:(congruence) Hr Hp). destruct (if b_view key =? 0 then _ else _); [|done].
    eapply micros_trans; [exact Hs|apply set_l1_micros].
  - specialize (Hs ltac:(congruence) Hr Hp).
    assert (Hb : micros now c (arm_timer (bump (put_record c1 k r) Insertions) thread k first Due)).
    { eapply micros_trans; [exact Hs|]. apply micro_quiet_; auto. }
    destruct (if b_view key =? 0 then _ else _); [|done].
    eapply micros_trans; [exact Hb|apply set_l1_micros].
Qed.

(** ** Renewal *)

Lemma refresh_record_of_micros now c thread k new_ttl d status :
  cache_ok now c → 0 < now ≤ clock_max →
  micros now c (refresh_record_of c thread k new_ttl d status now).1.
Proof.
  intros Hok Hn. unfold refresh_record_of.
  destruct (match new_ttl with Some _ => _ | None => _ end) as [t|]; [|apply rtc_refl].
  destruct (into_stored _ _ _ _) as [d'|]; [|apply rtc_refl].
  destruct (cache c !! k) as [old|] eqn:Ho; [|apply rtc_refl].
  destruct (is_permanent old || is_marked_for_deletion old) eqn:Hpm; [apply rtc_refl|].
  apply orb_false_iff in Hpm as [Hp _].
  set (r0 := clear_refreshing _).
  assert (Hr0 : rec_ok now r0 ∧ is_permanent r0 = false).
  { pose proof (clamp_ttl_u32 now c t Hok). subst r0. unfold rec_ok, record_ok.
    assert (Hpf : is_permanent (clear_refreshing (note_refreshed (mkRecord d'
      (default (dnssec_status old) status) (now + clamp_ttl c t) now (counters old)
      (clamp_ttl c t) (record_type old) (flags old)))) = false).
    { flags. exact Hp. }
    rewrite Hpf. simpl. split_and!; unfold_ints; try lia; try done. }
  clearbody r0. destruct Hr0 as [Hr0 Hp0].
  assert (Hl1 : ∀ (x : DnsCache * CachedRecord), micros now c x.1 → same_core r0 x.2 →
    bloom x.1 = bloom c → cache x.1 = cache c →
    micros now c (let '(c, r) := x in
      let c := set_bloom c (gate_set (bloom c) (hash_key k)) in
      let '(r, first) := first_timer_at c r in
      (arm_timer (put_record c k r) thread k first Due, true)).1).
  { intros [c1 r1] Hm Hsc Hb Hc. simpl in *. set (c2 := set_bloom c1 _).
    pose proof (micro_store_ c2 thread k r1 now c) as Hs.
    destruct (first_timer_at c2 r1) as [r first]. simpl. apply Hs.
    - eapply micros_trans; [exact Hm|apply rtc_once, micro_bloom].
    - apply gate_check_set. rewrite Hb. apply Hok.
    - simpl. rewrite Hc. congruence.
    - by eapply rec_ok_core.
    - destruct Hsc. congruence. }
  apply Hl1; destruct (if k_view k =? 0 then _ else _) as [a|]; simpl;
    try apply rtc_refl; try apply same_core_refl; try done;
    destruct (l1_insert _ _ _ _ _ _ _ _ _) as [l b]; simpl; try done; [apply set_l1_micros|].
  destruct (0 <? b); [apply same_core_hits|apply same_core_refl].
Qed.

(** ** Removal *)

Lemma drop_micros now c k r :
  cache c !! k = Some r → is_permanent r = false → micros now c (set_cache c (delete k (cache c))).
Proof.
  intros Hr Hp. apply rtc_once, micro_drop; [apply delete_subseteq|].
  intros j q Hq. rewrite lookup_delete_None. intros [->|E]; congruence.
Qed.

Lemma remove_dead_micros now c k : micros now c (remove_dead c k now).1.
Proof.
  unfold remove_dead. destruct (cache c !! k) as [r|] eqn:Hr; [|apply rtc_refl].
  destruct (negb (is_permanent r) && _) eqn:E; [|apply rtc_refl].
  apply andb_true_iff in E as [Hp _]. apply negb_true_iff in Hp.
  eapply micros_trans; [by eapply drop_micros|]. simpl.
  eapply micros_trans; [apply (bump_micros _ _ Compactions 1)|apply (bump_micros _ _ Expirations 1)].
Qed.

Lemma give_up_dead_claim_micros now c k : micros now c (give_up_dead_claim c k now).
Proof.
  unfold give_up_dead_claim.
  eapply micros_trans; [apply (bump_micros _ _ OptimisticRefreshShed 1)|apply remove_dead_micros].
Qed.

Lemma expire_negative_micros now c k : micros now c (expire_negative c k now).1.
Proof.
  unfold expire_negative, remove_expired.
  pose proof (negative_remove_if_ok (negative c) k (λ e, entry_expires_at_secs e <=? now)) as Hn.
  destruct (counted_remove_if _ _ _) as [m []]; apply micro_quiet_; auto; done.
Qed.

(** In a view of its own no record is local. *)
Lemma remove_in_view_micros now c thread domain t view :
  cache_ok now c → view ≠ 0 → micros now c (remove_in c thread domain t view).1.
Proof.
  intros Hok Hv. unfold remove_in. rewrite (proj2 (Z.eqb_neq _ _)) by done.
  destruct (cache c !! _) as [r|] eqn:Hr; [|apply rtc_refl]. simpl.
  destruct (ok_records _ _ Hok _ _ Hr) as (_ & _ & Hp).
  eapply micros_trans; [eapply drop_micros; [exact Hr|]|apply (bump_micros _ _ Evictions 1)].
  apply not_true_iff_false. intros E. by apply Hv, Hp.
Qed.

(** ** Timers *)

Lemma reset_refreshing_micros now c k : micros now c (reset_refreshing_of c k).
Proof.
  unfold reset_refreshing_of. destruct (cache c !! k) as [r|] eqn:Hr; [|apply rtc_refl].
  eapply touch_micros; [done|apply same_core_clear_refreshing].
Qed.

(** A pending second of a renewal that lapsed. *)
Lemma rearm_lapsed_micros now c thread k :
  cache_ok now c → 0 < now ≤ clock_max → micros now c (rearm_lapsed c thread k now).
Proof.
  intros Hok Hn. unfold rearm_lapsed. destruct (cache c !! k) as [r|] eqn:Hr; [|apply rtc_refl].
  destruct (renews_ahead c (ttl r)) eqn:Hra; simpl; [|apply rtc_refl].
  unfold try_rearm_lapsed_refresh, swap_refresh_timer.
  destruct (timer r =? TIMER_LAPSED) eqn:Ht; [|apply rtc_refl].
  destruct (ok_records _ _ Hok _ _ Hr) as ((Httl & Hins & He & Hp) & Hi & _).
  destruct (ok_config _ _ Hok) as (_ & _ & Hretry & _).
  assert (Hd : 0 < refresh_deadline_secs r) by (eapply deadline_pos, Hok; exact Hr).
  set (due := Z.min _ _).
  assert (Hdue : 0 < due ≤ 2 * clock_max ∧ due ≤ refresh_deadline_secs r).
  { subst due. unfold sat_add. unfold clock_max in *; unfold_ints; lia. }
  apply rtc_once, (micro_rearm _ _ _ _ r); try done; try tauto.
  - right. by apply Z.eqb_eq.
  - intros _. split_and!; try done; try tauto.
    change (refresh_deadline_secs (with_timer r due)) with (refresh_deadline_secs r). lia.
Qed.

Lemma remaining_ttl_bounds r now : record_ok r → inserted_at_secs r ≤ now →
  0 ≤ remaining_ttl_at_secs r now ≤ ttl r ∧
  (is_permanent r = false → now + remaining_ttl_at_secs r now ≤ Z.max now (expires_at_secs r)).
Proof.
  intros (Ht & Hi & He & Hp) Hn. unfold remaining_ttl_at_secs.
  destruct (is_permanent r); [unfold_ints; lia|]. rewrite He by done.
  unfold wrap32, sat_sub. rewrite Z.mod_small by (unfold_ints; lia). unfold_ints; lia.
Qed.

Lemma schedule_retry_micros now c thread k in_secs :
  cache_ok now c → 0 < now ≤ clock_max → renew_ahead (config c) = true →
  (∀ r, cache c !! k = Some r → 0 ≤ in_secs ≤ remaining_ttl_at_secs r now) →
  micros now c (schedule_retry c thread k in_secs now).
Proof.
  intros Hok Hn Hra Hin. unfold schedule_retry.
  destruct (cache c !! k) as [r|] eqn:Hr; [|apply rtc_refl].
  unfold try_rearm_lapsed_refresh, swap_refresh_timer.
  destruct (timer r =? TIMER_LAPSED) eqn:Ht; [|apply rtc_refl].
  destruct (ok_records _ _ Hok _ _ Hr) as (Hro & Hi & _).
  destruct (remaining_ttl_bounds r now Hro Hi) as (Hrem & Hmax).
  specialize (Hin r eq_refl). pose proof Hro as (Httl & Hins & He & _).
  assert (Hdue : 0 < now + in_secs ≤ 2 * clock_max) by (unfold clock_max in *; unfold_ints; lia).
  apply rtc_once, (micro_rearm _ _ _ _ r); try done.
  - right. by apply Z.eqb_eq.
  - intros Hp. specialize (Hmax Hp). pose proof (deadline_eq r Hro Hp) as Hd.
    rewrite He in Hmax by done.
    assert (Hd' : refresh_deadline_secs (with_timer r (now + in_secs)) = refresh_deadline_secs r)
      by done.
    split_and!; try done; try lia; rewrite Hd'; try (unfold_ints; lia).
    change (ttl (with_timer r (now + in_secs))) with (ttl r).
    destruct (decide (ttl r = 0)) as [E0|E0]; [right; lia|left].
    unfold renews_ahead. rewrite Hra. simpl. by apply negb_true_iff, Z.eqb_neq.
Qed.

End ops.
