(* ===== verification/CacheEvict.v ===== *)
(** Eviction: the sample, the heap of the lowest scores, and what a pass takes
    out of a full cache. *)

From stdpp Require Import relations sorting.
From S2P Require Import Prelude Net Float64 CacheRecord CacheSchedule CacheNegative.
From S2P Require Import CacheBloom CacheL1 Cache CacheInvariant.

(** ** Lists *)

Lemma list_not_nil_elem_of {A} (l : list A) : l ≠ [] → ∃ x, x ∈ l.
Proof. destruct l as [|x l]; [done|]. exists x. by left. Qed.

Section evict.
Context `{Lru, IterOrder, MembershipGate} (powf : f64 → f64 → f64).

(** ** The sample *)

Definition evictable (r : CachedRecord) : bool :=
  negb (is_marked_for_deletion r) && negb (is_permanent r).

(** The entries in the order of a pass that starts at [start]. *)
Definition pass_order (c : DnsCache) : list (CacheKey * CachedRecord) :=
  let start := (eviction_cursor c mod size (cache c))%nat in
  drop start (walk (cache c)) ++ take start (walk (cache c)).

Definition sampled (c : DnsCache) (count : nat) : list (CacheKey * CachedRecord) :=
  take (Nat.min (count * eviction_sample_size (config c)) (size (cache c)))
    (List.filter (λ kr, evictable kr.2) (pass_order c)).

Definition snap (now : Z) (kr : CacheKey * CachedRecord) : RecordSnapshot := snapshot kr.1 kr.2 now.

Lemma sample_spec entries total now snaps walked :
  (sample entries total now snaps walked).1
  = snaps ++ take (total - length snaps) (snap now <$> List.filter (λ kr, evictable kr.2) entries).
Proof.
  revert snaps walked. induction entries as [|[k r] entries IH]; intros snaps walked; simpl.
  { by rewrite take_nil, app_nil_r. }
  destruct (Nat.leb_spec total (length snaps)) as [Hle|Hlt]; simpl.
  { replace (total - length snaps)%nat with 0%nat by lia. by rewrite take_0, app_nil_r. }
  unfold evictable at 1. destruct (is_marked_for_deletion r), (is_permanent r); simpl; try apply IH.
  rewrite IH, length_app. simpl.
  replace (total - length snaps)%nat with (S (total - (length snaps + 1)))%nat by lia.
  simpl. by rewrite <-app_assoc.
Qed.

(** ** The heap *)

Definition stale_snap (window now : Z) (s : RecordSnapshot) : bool :=
  s_is_expired s && negb (sat_sub now (s_last_access s) <=? window).

Definition snap_score (p : ActiveEvictionPolicy) (now : Z) (s : RecordSnapshot) : f64 :=
  score powf p (s_hit_count s) (s_last_access s) (s_inserted_at s) now.
Definition candidate (p : ActiveEvictionPolicy) (now : Z) (s : RecordSnapshot) : EvictionCandidate :=
  mkCandidate (snap_score p now s) (s_key s).

Definition above (x y : EvictionCandidate) : Prop := total_lt (c_score x) (c_score y) = false.

Lemma heap_push_perm x heap : heap_push x heap ≡ₚ x :: heap.
Proof.
  induction heap as [|y heap IH]; simpl; [done|]. destruct (total_lt _ _); [|done].
  rewrite IH. constructor.
Qed.

Lemma heap_push_sorted x heap : StronglySorted above heap → StronglySorted above (heap_push x heap).
Proof.
  induction heap as [|y heap IH]; simpl; intros Hs; [by repeat constructor|].
  inversion Hs as [|? ? Hs' Hy]; subst. destruct (total_lt (c_score x) (c_score y)) eqn:E.
  - constructor; [by apply IH|]. rewrite heap_push_perm. constructor; [|done].
    by apply total_lt_asym.
  - constructor; [done|]. constructor; [done|]. eapply Forall_impl; [exact Hy|].
    intros z Hz. by eapply total_ge_trans.
Qed.

(** What the heap keeps of the candidates seen: at most [count] of them, in
    order, and none of those left [out] scores lower. *)
Definition is_num (x : EvictionCandidate) : Prop := c_score x ≠ S754_nan.

Definition heap_ok (count : nat) (seen heap : list EvictionCandidate) : Prop :=
  ∃ out, seen ≡ₚ heap ++ out ∧ length heap = Nat.min count (length seen) ∧
    StronglySorted above heap ∧
    (Forall is_num seen →
     ∀ x y, x ∈ heap → y ∈ out → SFltb (c_score y) (c_score x) = false).

Definition heap_step (count : nat) (x : EvictionCandidate) (heap : list EvictionCandidate) :=
  if (length heap <? count)%nat then heap_push x heap
  else match heap with
    | top :: rest => if SFltb (c_score x) (c_score top) then heap_push x rest else heap
    | [] => heap
    end.

Lemma above_num x y : above x y → SFltb (c_score x) (c_score y) = false.
Proof.
  unfold above. intros Hxy. apply not_true_iff_false. intros E. apply SFltb_total in E. congruence.
Qed.

Lemma heap_step_ok count seen heap x :
  heap_ok count seen heap → heap_ok count (seen ++ [x]) (heap_step count x heap).
Proof.
  intros (out & Hperm & Hlen & Hsort & Hlow). unfold heap_step, heap_ok.
  pose proof (Permutation_length Hperm) as Hl. rewrite length_app in Hl.
  rewrite length_app. simpl. destruct (Nat.ltb_spec (length heap) count) as [Hlt|Hge].
  { assert (out = []) as -> by (apply length_zero_iff_nil; lia).
    rewrite app_nil_r in Hperm. exists []. rewrite app_nil_r. split_and!.
    - rewrite heap_push_perm, Hperm. symmetry. apply Permutation_cons_append.
    - rewrite heap_push_perm. simpl. lia.
    - by apply heap_push_sorted.
    - intros _ y z _ Hz. by apply not_elem_of_nil in Hz. }
  destruct heap as [|top rest].
  { exists (out ++ [x]). simpl in *. split_and!; [by rewrite Hperm|lia|done|].
    intros _ y z Hy. by apply not_elem_of_nil in Hy. }
  inversion Hsort as [|? ? Hrest Htop]; subst. rewrite Forall_forall in Htop.
  destruct (SFltb (c_score x) (c_score top)) eqn:E.
  - exists (top :: out). split_and!.
    + rewrite heap_push_perm, Hperm, <-Permutation_cons_append. simpl.
      constructor. apply Permutation_middle.
    + rewrite heap_push_perm. simpl in *. lia.
    + by apply heap_push_sorted.
    + intros Hnum y z. apply Forall_app in Hnum as [Hnum _]. specialize (Hlow Hnum).
      rewrite heap_push_perm, !elem_of_cons. intros [->|Hy] [->|Hz].
      * apply not_true_iff_false. intros E'. pose proof (SFltb_total _ _ E) as T.
        apply total_lt_asym in T. apply SFltb_total in E'. congruence.
      * apply not_true_iff_false. intros E'.
        specialize (Hlow top z ltac:(by left) Hz).
        rewrite (SFltb_trans _ _ _ E' E) in Hlow. done.
      * by apply above_num, Htop.
      * apply Hlow; [by right|done].
  - exists (x :: out). split_and!.
    + rewrite Hperm, <-Permutation_cons_append. apply Permutation_middle.
    + simpl in *. lia.
    + done.
    + intros Hnum y z Hy. apply Forall_app in Hnum as [Hnum _]. specialize (Hlow Hnum).
      rewrite elem_of_cons. intros [->|Hz]; [|by apply Hlow].
      assert (Ht : c_score top ≠ S754_nan).
      { eapply Forall_forall in Hnum; [exact Hnum|]. rewrite Hperm. by left. }
      apply elem_of_cons in Hy as [->|Hy]; [done|].
      eapply SFltb_ge_trans; [exact Ht|done|]. by apply above_num, Htop.
Qed.

(** The whole pass over the sample. *)
Lemma select_spec p count window now snaps seen heap urgent :
  heap_ok count seen heap →
  let '(heap', urgent') := select powf p count window now snaps heap urgent in
  urgent' = urgent ++ (s_key <$> List.filter (stale_snap window now) snaps) ∧
  heap_ok count
    (seen ++ (candidate p now <$> List.filter (λ s, negb (stale_snap window now s)) snaps)) heap'.
Proof.
  revert seen heap urgent. induction snaps as [|s snaps IH]; intros seen heap urgent Hh; simpl.
  { by rewrite !app_nil_r. }
  change (s_is_expired s && _) with (stale_snap window now s).
  destruct (stale_snap window now s); simpl.
  - specialize (IH seen heap (urgent ++ [s_key s]) Hh).
    destruct (select powf p count window now snaps heap _) as [h u]. destruct IH as [-> IH].
    split; [|done]. by rewrite <-app_assoc.
  - specialize (IH _ _ urgent (heap_step_ok count seen heap (candidate p now s) Hh)).
    change (if (length heap <? count)%nat then _ else _) with
      (heap_step count (candidate p now s) heap).
    destruct (select powf p count window now snaps _ urgent) as [h u]. destruct IH as [-> IH].
    split; [done|]. by rewrite <-app_assoc in IH.
Qed.

(** ** A pass *)

(** The keys a pass takes out for their score, and those it takes out as stale
    and no longer asked for. *)
Definition victims (c : DnsCache) (count : nat) (now : Z) : list CacheKey * list CacheKey :=
  let '(heap, urgent) := select powf (eviction_policy (config c)) count
    (access_window_secs (config c)) now (snap now <$> sampled c count) [] [] in
  (c_key <$> take (count - length urgent) (rev heap), urgent).

Lemma mark_mark r : mark_for_deletion (mark_for_deletion r) = mark_for_deletion r.
Proof.
  unfold mark_for_deletion, with_flags. simpl. f_equal.
  by rewrite <-Z.lor_assoc, Z.lor_diag.
Qed.

Lemma in_cons_ne (k j : CacheKey) keys : k ≠ j →
  bool_decide (k ∈ j :: keys) = bool_decide (k ∈ keys).
Proof. intros. apply bool_decide_ext. rewrite elem_of_cons. naive_solver. Qed.

Lemma in_nil (k : CacheKey) : bool_decide (k ∈ []) = false.
Proof. apply bool_decide_eq_false_2, not_elem_of_nil. Qed.

Lemma in_cons_eq (k : CacheKey) keys : bool_decide (k ∈ k :: keys) = true.
Proof. apply bool_decide_eq_true_2. by left. Qed.

Lemma mark_all_lookup keys m k :
  foldl mark_key m keys !! k
  = (λ r, if bool_decide (k ∈ keys) then mark_for_deletion r else r) <$> m !! k.
Proof.
  revert m. induction keys as [|j keys IH]; intros m; cbn [foldl].
  { rewrite in_nil. by destruct (m !! k). }
  rewrite IH. unfold mark_key. destruct (decide (k = j)) as [->|Hne].
  - rewrite in_cons_eq. destruct (m !! j) as [r|] eqn:Ej; [|by rewrite Ej].
    rewrite lookup_insert_eq. cbn. destruct (bool_decide _); by rewrite ?mark_mark.
  - rewrite in_cons_ne by done. destruct (m !! j); [by rewrite lookup_insert_ne by done|done].
Qed.

Lemma delete_all_lookup {V} keys (m : gmap CacheKey V) k :
  foldl (λ m k, delete k m) m keys !! k = if bool_decide (k ∈ keys) then None else m !! k.
Proof.
  revert m. induction keys as [|j keys IH]; intros m; cbn [foldl].
  { by rewrite in_nil. }
  rewrite IH. destruct (decide (k = j)) as [->|Hne].
  - rewrite lookup_delete_eq, in_cons_eq. by destruct (bool_decide _).
  - by rewrite lookup_delete_ne, in_cons_ne by done.
Qed.

Definition taken_out (v : list CacheKey * list CacheKey) (k : CacheKey) (r : CachedRecord) : bool :=
  bool_decide (k ∈ v.1) || bool_decide (k ∈ v.2)
  || (negb (bool_decide (v.2 = [])) && is_marked_for_deletion r).

(** What a pass leaves of the cache: the entries it did not take out, as they
    were; the cursor and the metrics move, and nothing else changes. *)
Lemma evict_by_strategy_spec c count now :
  cache c ≠ ∅ →
  let c' := evict_by_strategy powf c count now in
  (∀ k, cache c' !! k =
    match cache c !! k with
    | Some r => if taken_out (victims c count now) k r then None else Some r
    | None => None
    end) ∧
  config c' = config c ∧ bloom c' = bloom c ∧ permanent_records c' = permanent_records c ∧
  inbox c' = inbox c ∧ negative c' = negative c.
Proof.
  intros Hne. unfold evict_by_strategy, victims.
  rewrite (proj2 (Nat.eqb_neq _ _)) by (by apply map_size_non_empty_iff).
  pose proof (sample_spec (pass_order c) (Nat.min (count * eviction_sample_size (config c))
    (size (cache c))) now [] 0) as Hs. unfold pass_order in Hs. cbv zeta.
  destruct (sample _ _ _ _ _) as [snaps walked]. cbn [fst app length] in Hs.
  rewrite Nat.sub_0_r, <-fmap_take in Hs. fold (pass_order c) in Hs. fold (sampled c count) in Hs.
  subst snaps. cbn [eviction_policy set_cursor config access_window_secs].
  destruct (select _ _ _ _ _ _ _ _) as [heap urgent].
  set (scored := c_key <$> take _ (rev heap)).
  destruct urgent as [|u us]; cbn [fst snd]; split_and!; try done; intros k; simpl.
  - rewrite delete_all_lookup. unfold taken_out. cbn [fst snd].
    rewrite in_nil, orb_false_r, (bool_decide_eq_true_2 ([] = [])) by done. simpl.
    destruct (cache c !! k), (bool_decide (k ∈ scored)); done.
  - set (urgent := u :: us). change (foldl mark_key (mark_key (cache c) u) us) with
      (foldl mark_key (cache c) urgent).
    unfold taken_out. cbn [fst snd]. rewrite (bool_decide_eq_false_2 (urgent = [])) by done.
    set (m := foldl _ _ scored).
    assert (Hm : m !! k = if bool_decide (k ∈ scored) then None else
      (λ r, if bool_decide (k ∈ urgent) then mark_for_deletion r else r) <$> cache c !! k)
      by (by subst m; rewrite delete_all_lookup, mark_all_lookup).
    clearbody m. destruct (cache c !! k) as [r|]; [|apply map_lookup_filter_None_2; left;
      by destruct (bool_decide (k ∈ scored))].
    destruct (bool_decide (k ∈ scored)); [by apply map_lookup_filter_None_2; left|].
    cbn in Hm. cbn [orb negb andb]. destruct (bool_decide (k ∈ urgent)); cbn [orb].
    + apply map_lookup_filter_None_2. right. intros x. rewrite Hm. intros [= <-]. simpl.
      intros E. revert E. flags. done.
    + destruct (is_marked_for_deletion r) eqn:E.
      * apply map_lookup_filter_None_2. right. intros x. rewrite Hm. intros [= <-]. simpl. congruence.
      * by apply map_lookup_filter_Some_2.
Qed.

Lemma pass_order_elem c k r : (k, r) ∈ pass_order c ↔ cache c !! k = Some r.
Proof.
  rewrite <-elem_of_walk. unfold pass_order. set (n := (_ mod _)%nat). rewrite elem_of_app. split.
  - intros [Hin|Hin]; [by eapply elem_of_drop_1|by eapply elem_of_take_1].
  - intros Hin. rewrite <-(take_drop n (walk (cache c))) in Hin.
    apply elem_of_app in Hin. tauto.
Qed.

Lemma sampled_elem c count k r :
  (k, r) ∈ sampled c count → cache c !! k = Some r ∧ evictable r = true.
Proof.
  intros Hin. apply elem_of_take_1, elem_of_filter_bool in Hin as [Hin He].
  by apply pass_order_elem in Hin.
Qed.

Lemma sampled_some c count k r :
  (1 ≤ eviction_sample_size (config c))%nat → (1 ≤ count)%nat →
  cache c !! k = Some r → evictable r = true → sampled c count ≠ [].
Proof.
  intros Hs Hc Hr He. unfold sampled.
  assert (Hsz : size (cache c) ≠ 0%nat) by (by eapply map_size_ne_0_lookup_2).
  assert (Hin : (k, r) ∈ List.filter (λ kr, evictable kr.2) (pass_order c))
    by (apply elem_of_filter_bool; split; [by apply pass_order_elem|done]).
  destruct (List.filter _ _) as [|x l]; [by apply not_elem_of_nil in Hin|].
  destruct (Nat.min _ _) eqn:E; [|done]. nia.
Qed.

(** A key taken out was sampled; [stale] or not says which way it went. *)
Lemma victims_spec c count now :
  let v := victims c count now in
  (∀ k, k ∈ v.2 ↔ ∃ r, (k, r) ∈ sampled c count ∧
    stale_snap (access_window_secs (config c)) now (snapshot k r now) = true) ∧
  (∀ k, k ∈ v.1 → ∃ r, (k, r) ∈ sampled c count ∧
    stale_snap (access_window_secs (config c)) now (snapshot k r now) = false) ∧
  (sampled c count ≠ [] → (1 ≤ count)%nat → v.1 ≠ [] ∨ v.2 ≠ []).
Proof.
  unfold victims. set (w := access_window_secs (config c)). set (p := eviction_policy (config c)).
  pose proof (select_spec p count w now (snap now <$> sampled c count) [] [] []) as Hs.
  specialize (Hs ltac:(exists []; split_and!; [done|simpl; lia|constructor|set_solver])).
  destruct (select _ _ _ _ _ _ _ _) as [heap urgent]. cbn [fst snd] in *.
  destruct Hs as (Hu & out & Hperm & Hlen & _ & _). simpl in Hu, Hperm, Hlen. subst urgent.
  set (snaps := snap now <$> sampled c count) in *.
  assert (Hsnap : ∀ s, s ∈ snaps ↔ ∃ k r, s = snapshot k r now ∧ (k, r) ∈ sampled c count).
  { intros s. subst snaps. rewrite list_elem_of_fmap. split.
    - intros ([k r] & -> & Hin). by exists k, r.
    - intros (k & r & -> & Hin). by exists (k, r). }
  split_and!.
  - intros k. rewrite list_elem_of_fmap. setoid_rewrite elem_of_filter_bool. split.
    + intros (s & -> & Hin & Hst). apply Hsnap in Hin as (k & r & -> & Hin). by exists r.
    + intros (r & Hin & Hst). exists (snapshot k r now). split; [done|]. split; [|done].
      apply Hsnap. by exists k, r.
  - intros k Hk. apply list_elem_of_fmap in Hk as (x & -> & Hx). apply elem_of_take_1 in Hx.
    apply list_elem_of_In, in_rev, list_elem_of_In in Hx.
    assert (Hx' : x ∈ heap ++ out) by (apply elem_of_app; by left).
    rewrite <-Hperm in Hx'. apply list_elem_of_fmap in Hx' as (s & -> & Hs).
    apply elem_of_filter_bool in Hs as [Hs Hst]. apply Hsnap in Hs as (k & r & -> & Hin).
    exists r. split; [done|]. by apply negb_true_iff in Hst.
  - intros Hne Hc. destruct (List.filter (stale_snap w now) snaps) as [|u us] eqn:Eu; [left|by right].
    simpl. rewrite Nat.sub_0_r. intros E. apply fmap_nil_inv in E.
    apply (f_equal length) in E. rewrite length_take, length_rev in E. simpl in E.
    rewrite length_fmap in Hlen.
    assert (Hf : List.filter (λ s, negb (stale_snap w now s)) snaps = snaps).
    { clear -Eu. induction snaps as [|s snaps IH]; [done|]. simpl in *.
      destruct (stale_snap w now s); [done|]. simpl. by rewrite IH. }
    rewrite Hf in Hlen. subst snaps. rewrite length_fmap in Hlen.
    destruct (sampled c count); [done|]. simpl in Hlen. lia.
Qed.

(** As long as some ordinary entry is left, a pass takes one out. *)
Lemma victims_lost c count now k r :
  (1 ≤ eviction_sample_size (config c))%nat → (1 ≤ count)%nat →
  cache c !! k = Some r → evictable r = true →
  ∃ j q, cache c !! j = Some q ∧ taken_out (victims c count now) j q = true.
Proof.
  intros Hsz Hcount Hr He. destruct (victims_spec c count now) as (Hv2 & Hv1 & Hsome).
  specialize (Hsome (sampled_some c _ k r Hsz Hcount Hr He) Hcount).
  assert (Hj : ∃ j, (j ∈ (victims c count now).1 ∨ j ∈ (victims c count now).2) ∧
    ∃ q, (j, q) ∈ sampled c count).
  { destruct Hsome as [Hn|Hn]; apply list_not_nil_elem_of in Hn as [j Hj]; exists j.
    - split; [by left|]. destruct (Hv1 j Hj) as (q & Hq & _). by exists q.
    - split; [by right|]. apply Hv2 in Hj as (q & Hq & _). by exists q. }
  destruct Hj as (j & Hj & q & Hq). apply sampled_elem in Hq as [Hq _].
  exists j, q. split; [done|]. unfold taken_out.
  destruct Hj as [Hj|Hj]; rewrite (bool_decide_eq_true_2 _ Hj), ?orb_true_r; done.
Qed.

Definition evict_count (c : DnsCache) : nat :=
  let headroom :=
    to_u64 (fmul (of_u64 (Z.of_nat (max_entries (config c)))) (batch_eviction_percentage (config c))) in
  (size (cache c) - max_entries (config c) + Z.to_nat (Z.max headroom 1))%nat.

Lemma evict_entries_cases c now :
  let c' := evict_entries powf c now in
  (c' = c ∧ ((size (cache c) < max_entries (config c))%nat ∨ cache c = ∅)) ∨
  (c' = evict_by_strategy powf c (evict_count c) now ∧ cache c ≠ ∅ ∧
   (max_entries (config c) ≤ size (cache c))%nat).
Proof.
  unfold evict_entries. destruct (Nat.ltb_spec (size (cache c)) (max_entries (config c)));
    [by left; split; [|left]|]. fold (evict_count c).
  destruct (decide (cache c = ∅)) as [E|E]; [left|by right]. split; [|by right].
  unfold evict_by_strategy. by rewrite E, map_size_empty.
Qed.

Lemma taken_out_ordinary now c count k r :
  cache_ok now c → cache c !! k = Some r → taken_out (victims c count now) k r = true →
  is_permanent r = false.
Proof.
  intros Hok Hr Ht. destruct (victims_spec c count now) as (H2 & H1' & _).
  assert (Hs : ∀ r', (k, r') ∈ sampled c count → is_permanent r = false).
  { intros r' Hin. apply sampled_elem in Hin as [Hr' He]. rewrite Hr in Hr'. simplify_eq.
    apply andb_true_iff in He as [_ He]. by apply negb_true_iff in He. }
  unfold taken_out in Ht. rewrite !orb_true_iff, !bool_decide_eq_true, andb_true_iff in Ht.
  destruct Ht as [[Hk|Hk]|[_ Hm]].
  - apply H1' in Hk as (r' & Hin & _). by eapply Hs.
  - apply H2 in Hk as (r' & Hin & _). by eapply Hs.
  - destruct (ok_records _ _ Hok _ _ Hr) as ((_ & _ & _ & Hp) & _).
    apply not_true_iff_false. intros E. destruct (Hp E) as (_ & Hm' & _). congruence.
Qed.

Lemma evict_entries_micros now c : cache_ok now c → micros now c (evict_entries powf c now).
Proof.
  intros Hok. destruct (evict_entries_cases c now) as [[-> _]|(-> & Hne & _)]; [apply rtc_refl|].
  destruct (evict_by_strategy_spec c (evict_count c) now Hne) as (Hc & Hcfg & Hb & Hp & Hi & Hn).
  set (c' := evict_by_strategy powf c (evict_count c) now) in *.
  assert (Hsub : cache c' ⊆ cache c).
  { apply map_subseteq_spec. intros k r. rewrite Hc. destruct (cache c !! k); [|done].
    by destruct (taken_out _ _ _). }
  apply (micros_trans _ _ (set_cache c (cache c'))).
  - apply rtc_once, micro_drop; [done|]. intros k r Hr. rewrite Hc, Hr.
    destruct (taken_out _ _ _) eqn:E; [|done]. intros _. by eapply taken_out_ordinary.
  - apply micro_quiet_; try done. by rewrite Hn.
Qed.

(** Of two sampled entries that are not stale, the one taken out never scores
    higher than the one that stays. *)
Lemma victims_lowest c count now k r j q :
  let sc r := snap_score (eviction_policy (config c)) now (snapshot k r now) in
  (∀ i x, (i, x) ∈ sampled c count → sc x ≠ S754_nan) →
  (k, r) ∈ sampled c count → (j, q) ∈ sampled c count →
  k ∈ (victims c count now).1 → j ∉ (victims c count now).1 → j ∉ (victims c count now).2 →
  SFltb (sc q) (sc r) = false.
Proof.
  intros sc Hnum Hk Hj. pose proof (proj1 (victims_spec c count now)) as Hst.
  revert Hst. unfold victims.
  set (w := access_window_secs (config c)). set (p := eviction_policy (config c)) in *.
  pose proof (select_spec p count w now (snap now <$> sampled c count) [] [] []) as Hs.
  specialize (Hs ltac:(exists []; split_and!; [done|simpl; lia|constructor|set_solver])).
  destruct (select _ _ _ _ _ _ _ _) as [heap urgent]. cbn [fst snd] in *.
  destruct Hs as (_ & out & Hperm & _ & Hsort & Hlow). simpl in Hperm, Hlow.
  set (n := (count - length urgent)%nat). intros Hst Hk1 Hj1 Hj2.
  set (seen := candidate p now <$> _) in *.
  assert (Hseen : ∀ x, x ∈ seen → ∃ i e, (i, e) ∈ sampled c count ∧ c_key x = i ∧ c_score x = sc e).
  { intros x Hx. apply list_elem_of_fmap in Hx as (s & -> & Hs).
    apply elem_of_filter_bool in Hs as [Hs _]. apply list_elem_of_fmap in Hs as ([i e] & -> & Hin).
    by exists i, e. }
  assert (Huniq : ∀ i e e', (i, e) ∈ sampled c count → (i, e') ∈ sampled c count → e = e').
  { intros i e e' H1' H2'. apply sampled_elem in H1' as [H1' _], H2' as [H2' _]. congruence. }
  assert (Hn' : Forall is_num seen).
  { apply Forall_forall. intros x Hx. destruct (Hseen x Hx) as (i & e & Hin & _ & Hsc).
    unfold is_num. rewrite Hsc. by eapply Hnum. }
  specialize (Hlow Hn').
  (* the one taken out *)
  apply list_elem_of_fmap in Hk1 as (x & -> & Hx).
  assert (Hxh : x ∈ heap) by (apply elem_of_take_1 in Hx; by rewrite list_elem_of_In, <-in_rev, <-list_elem_of_In in Hx).
  assert (Hxs : x ∈ seen) by (rewrite Hperm; apply elem_of_app; by left).
  destruct (Hseen x Hxs) as (i & e & Hin & Hki & Hsc). rewrite Hki in Hk.
  rewrite (Huniq i r e Hk Hin), <-Hsc.
  (* the one that stays *)
  assert (Hys : candidate p now (snapshot j q now) ∈ seen).
  { apply list_elem_of_fmap. exists (snapshot j q now). split; [done|].
    apply elem_of_filter_bool. split; [apply list_elem_of_fmap; by exists (j, q)|].
    apply negb_true_iff, not_true_iff_false. intros E. apply Hj2. rewrite Hst. by exists q. }
  change (sc q) with (c_score (candidate p now (snapshot j q now))).
  rewrite Hperm in Hys. apply elem_of_app in Hys as [Hyh|Hyo]; [|by apply Hlow].
  apply above_num. rewrite firstn_rev in Hj1, Hx. set (m := (length heap - n)%nat) in *.
  rewrite <-(take_drop m heap) in Hsort, Hyh. rewrite list_elem_of_In, <-in_rev, <-list_elem_of_In in Hx.
  apply elem_of_app in Hyh as [Hyh|Hyh]; [by eapply StronglySorted_app_1_elem_of|].
  destruct Hj1. apply list_elem_of_fmap. eexists. split; [|rewrite list_elem_of_In, <-in_rev,
    <-list_elem_of_In; exact Hyh]. done.
Qed.

End evict.
