(* ===== verification/CacheSafety.v ===== *)
(** Local records and the filter: the operations that are not made of the
    primitive changes of [CacheInvariant], and what every operation keeps. *)

From stdpp Require Import relations.
From S2P Require Import Prelude Net Float64 CacheRecord CacheSchedule CacheNegative.
From S2P Require Import CacheBloom CacheL1 Cache CacheInvariant CacheEvict.

Section safety.
Context `{Lru, IterOrder, MembershipGate} (powf : f64 → f64 → f64).

(** ** Local records *)

Definition types_at (p : gmap bytes (list RecordType)) (d : bytes) : list RecordType :=
  default [] (p !! d).

Lemma local_types c d t : local c d t ↔ t ∈ types_at (permanent_records c) d.
Proof.
  unfold local, types_at. destruct (permanent_records c !! d) as [types|]; simpl.
  - split; [by intros (ts & [= <-] & Hin)|]. intros Hin. by exists types.
  - split; [by intros (ts & [=] & _)|]. intros Hin. by apply not_elem_of_nil in Hin.
Qed.

Lemma types_at_claim p domain t d t' :
  t' ∈ types_at (claim_permanent p domain t) d ↔ (d = domain ∧ t' = t) ∨ t' ∈ types_at p d.
Proof.
  unfold claim_permanent, types_at. destruct (decide (d = domain)) as [->|Hne].
  - rewrite lookup_insert_eq. simpl. set (ts := default [] (p !! domain)).
    case_bool_decide; [naive_solver|]. rewrite elem_of_app, list_elem_of_singleton. naive_solver.
  - rewrite lookup_insert_ne by done. naive_solver.
Qed.

Lemma types_at_release p domain t d t' :
  t' ∈ types_at (release_permanent p domain t) d ↔ t' ∈ types_at p d ∧ ¬ (d = domain ∧ t' = t).
Proof.
  unfold release_permanent. destruct (p !! domain) as [types|] eqn:Ep.
  - assert (Hf : ∀ x, x ∈ List.filter (λ kind, negb (bool_decide (kind = t))) types ↔
      x ∈ types ∧ x ≠ t).
    { intros x. rewrite elem_of_filter_bool, negb_true_iff, bool_decide_eq_false. done. }
    assert (Ht : types_at p domain = types) by (unfold types_at; by rewrite Ep).
    destruct (decide (d = domain)) as [->|Hne].
    + rewrite Ht. destruct (List.filter _ types) as [|y ys]; unfold types_at.
      * rewrite lookup_delete_eq. cbn. rewrite Hf. naive_solver.
      * rewrite lookup_insert_eq. simpl. rewrite Hf. naive_solver.
    + destruct (List.filter _ types); unfold types_at;
        [rewrite lookup_delete_ne by done|rewrite lookup_insert_ne by done]; naive_solver.
  - assert (Ht : types_at p domain = []) by (unfold types_at; by rewrite Ep).
    split; [|tauto]. intros Hin. split; [done|]. intros [-> ->]. rewrite Ht in Hin.
    by apply not_elem_of_nil in Hin.
Qed.

(** What the cache answers for a local record: its data and TTL. *)
Definition local_answer (c : DnsCache) (d : bytes) (t : RecordType) : option (CachedData * Z) :=
  match cache c !! mkKey d t 0 with
  | Some r => if is_permanent r then Some (data r, ttl r) else None
  | None => None
  end.

Lemma micro_local_answer now c c' d t : Micro now c c' → local_answer c' d t = local_answer c d t.
Proof.
  unfold local_answer.
  intros [c1 c2 _ Hca _ _ _ _|c1 k r r' Hr []|c1 m Hsub Hp|c1 th key due kind _
    |c1 th k r due kind Hr Ht Hdue Hkind Hpend|c1 k|c1 th k r due Hold Hchk Hrok Hins Hperm Hfirst];
    simpl; try done.
  - by rewrite Hca.
  - destruct (decide (k = mkKey d t 0)) as [->|]; [|by rewrite lookup_insert_ne].
    rewrite lookup_insert_eq, Hr. by rewrite sc_permanent, sc_data, sc_ttl.
  - destruct (m !! mkKey d t 0) as [r|] eqn:E; [by rewrite (lookup_weaken _ _ _ _ E Hsub)|].
    destruct (cache c1 !! mkKey d t 0) as [r|] eqn:E'; [|done]. by rewrite (Hp _ _ E' E).
  - destruct (decide (k = mkKey d t 0)) as [->|]; [|by rewrite lookup_insert_ne].
    by rewrite lookup_insert_eq, Hr.
  - destruct (decide (k = mkKey d t 0)) as [->|]; [|by rewrite lookup_insert_ne].
    rewrite lookup_insert_eq, Hperm. destruct (cache c1 !! _) as [old|]; [|done].
    by rewrite (Hold old).
Qed.

Lemma micros_local_answer now c c' d t : micros now c c' → local_answer c' d t = local_answer c d t.
Proof. induction 1 as [|? ? ? Hm _ IH]; [done|]. rewrite IH. by eapply micro_local_answer. Qed.

Lemma local_answer_iff now c d t : cache_ok now c → local c d t ↔ local_answer c d t ≠ None.
Proof.
  intros Hok. rewrite (ok_local _ _ Hok d t). unfold local_answer.
  destruct (cache c !! _) as [r|]; [|by split; [intros (? & [=] & _)|]].
  destruct (is_permanent r) eqn:E; split; try done.
  - intros _. by exists r.
  - intros (? & [= <-] & ?). congruence.
Qed.

(** *** Storing a local record *)

Lemma record_permanent_ok d t kind now :
  is_u32 t → 0 < now ≤ clock_max → record_ok (record_permanent d t kind now).
Proof. intros Ht Hn. unfold record_ok. split_and!; try done; simpl; try lia; intros; try done. Qed.

Definition put_local (c : DnsCache) (domain : bytes) (t : RecordType) (d : CachedData) (ttl now : Z) :=
  put_record (set_permanent c (claim_permanent (permanent_records c) domain t))
    (mkKey domain t 0) (record_permanent d ttl t now).

Lemma put_local_ok now c domain t d ttl :
  cache_ok now c → is_u32 ttl → 0 < now ≤ clock_max →
  gate_check (bloom c) (hash_key (mkKey domain t 0)) = true →
  cache_ok now (put_local c domain t d ttl now).
Proof.
  intros Hok Ht Hn Hg. destruct Hok. split; try done; simpl.
  - intros k r. rewrite lookup_insert_Some. intros [[<- <-]|[_ Hr]]; [|by apply ok_records].
    split_and!; [by apply record_permanent_ok|simpl; lia|done].
  - intros k r. rewrite lookup_insert_Some. intros [[<- <-]|[_ Hr]]; [by left|by apply ok_reach].
  - intros d' t'. rewrite local_types. simpl. rewrite types_at_claim, <-local_types.
    rewrite ok_local. destruct (decide (mkKey domain t 0 = mkKey d' t' 0)) as [E|E].
    + rewrite E, lookup_insert_eq. simplify_eq. split; [|by left].
      intros _. eexists. split; done.
    + rewrite lookup_insert_ne by done. split; [|by right]. intros [[-> ->]|?]; done.
Qed.

Lemma put_local_answer c domain t d ttl now d' t' :
  local_answer (put_local c domain t d ttl now) d' t'
  = if decide (mkKey domain t 0 = mkKey d' t' 0) then Some (d, ttl) else local_answer c d' t'.
Proof.
  unfold local_answer, put_local. simpl. destruct (decide _) as [E|E].
  - by rewrite E, lookup_insert_eq.
  - by rewrite lookup_insert_ne by done.
Qed.

Lemma insert_permanent_spec now c thread domain t d ttl :
  cache_ok now c → is_u32 ttl → 0 < now ≤ clock_max →
  let c' := insert_permanent powf c thread domain t d ttl now in
  cache_ok now c' ∧
  ∀ d' t', local_answer c' d' t' =
    match into_stored d ttl 0 u32_max with
    | Some d => if decide (mkKey (normalize_domain domain) t 0 = mkKey d' t' 0)
                then Some (d, ttl) else local_answer c d' t'
    | None => local_answer c d' t'
    end.
Proof.
  intros Hok Ht Hn. unfold insert_permanent. destruct (into_stored d ttl 0 u32_max) as [d'|]; [|done].
  set (dom := normalize_domain domain). change (from_lowercase dom t) with (mkKey dom t 0).
  set (c1 := set_bloom c _). 
  assert (Hok1 : cache_ok now c1) by (eapply micros_ok; [apply rtc_once, micro_bloom|done]).
  assert (Hg1 : gate_check (bloom c1) (hash_key (mkKey dom t 0)) = true)
    by apply gate_check_set, Hok.
  set (c2 := if (_ <=? _)%nat then evict_entries powf c1 now else c1).
  assert (H2 : cache_ok now c2 ∧ bloom c2 = bloom c1 ∧ ∀ d t, local_answer c2 d t = local_answer c1 d t).
  { subst c2. destruct (_ <=? _)%nat; [|done]. pose proof (evict_entries_micros powf now c1 Hok1) as Hm.
    split_and!; [by eapply micros_ok| |intros; by eapply micros_local_answer].
    destruct (evict_entries_cases powf c1 now) as [[-> _]|(-> & Hne & _)]; [done|].
    by apply evict_by_strategy_spec. }
  destruct H2 as (Hok2 & Hb2 & Hla). change (put_record _ _ _) with (put_local c2 dom t d' ttl now).
  assert (H3 : cache_ok now (put_local c2 dom t d' ttl now)).
  { apply put_local_ok; try done. by rewrite Hb2. }
  destruct (as_cached_addresses d') as [a|]; (split; [|intros d2 t2]).
  - eapply micros_ok; [apply set_l1_micros|done].
  - change (local_answer (set_l1 ?c ?l) d2 t2) with (local_answer c d2 t2).
    rewrite put_local_answer. by rewrite Hla.
  - done.
  - rewrite put_local_answer. by rewrite Hla.
Qed.

(** *** Removing one *)

Lemma remove_spec now c thread domain t :
  cache_ok now c →
  let c' := (remove c thread domain t).1 in
  cache_ok now c' ∧
  ∀ d' t', local_answer c' d' t' =
    if decide (mkKey (normalize_domain domain) t 0 = mkKey d' t' 0) then None
    else local_answer c d' t'.
Proof.
  intros Hok. unfold remove. set (dom := normalize_domain domain).
  change (from_lowercase dom t) with (mkKey dom t 0).
  destruct (cache c !! mkKey dom t 0) as [r|] eqn:Hr; cbn [fst]; split.
  - destruct Hok. split; try done; simpl.
    + intros k q. rewrite lookup_delete_Some. intros [_ Hq]. by apply ok_records.
    + intros k q. rewrite lookup_delete_Some. intros [_ Hq]. by apply ok_reach.
    + intros d' t'. rewrite local_types. simpl. rewrite types_at_release, <-local_types, ok_local.
      setoid_rewrite lookup_delete_Some. split.
      * intros [(q & Hq & Hp) Hne]. exists q. split; [|done]. split; [|done].
        intros E. simplify_eq. naive_solver.
      * intros (q & (Hne & Hq) & Hp). split; [by exists q|]. intros [-> ->]. done.
  - intros d' t'. unfold local_answer. simpl. destruct (decide _) as [->|E];
      [by rewrite lookup_delete_eq|by rewrite lookup_delete_ne by done].
  - done.
  - intros d' t'. destruct (decide _) as [E|E]; [|done]. unfold local_answer. by rewrite <-E, Hr.
Qed.

Lemma remove_in_spec now c thread domain t view :
  cache_ok now c →
  let c' := (remove_in c thread domain t view).1 in
  cache_ok now c' ∧
  ∀ d' t', local_answer c' d' t' =
    if decide (view = 0 ∧ mkKey (normalize_domain domain) t 0 = mkKey d' t' 0) then None
    else local_answer c d' t'.
Proof.
  intros Hok. destruct (decide (view = 0)) as [->|Hv].
  - unfold remove_in. simpl. destruct (remove_spec now c thread domain t Hok) as [H2 H3].
    split; [done|]. intros d' t'. rewrite H3. by repeat case_decide; try tauto.
  - pose proof (remove_in_view_micros now c thread domain t view Hok Hv) as Hm.
    split; [by eapply micros_ok|]. intros d' t'. rewrite (micros_local_answer _ _ _ _ _ Hm).
    by rewrite decide_False by tauto.
Qed.

(** *** Clearing *)

Lemma key_view_0 k : k_view k = 0 → mkKey (k_domain k) (k_record_type k) 0 = k.
Proof. destruct k as [d t v]. simpl. by intros ->. Qed.

Lemma restore_put now c k d ttl :
  k_view k = 0 →
  restore now c (k, d, ttl)
  = put_local (set_bloom c (gate_set (bloom c) (hash_key k))) (k_domain k) (k_record_type k) d ttl now.
Proof. intros Hv. unfold restore, put_local. simpl. by destruct k as [? ? ?]; simpl in *; subst. Qed.

Definition saved_ok (saved : CacheKey * CachedData * Z) : Prop :=
  k_view saved.1.1 = 0 ∧ is_u32 saved.2.

Lemma restore_ok now c saved :
  cache_ok now c → saved_ok saved → 0 < now ≤ clock_max → cache_ok now (restore now c saved).
Proof.
  intros Hok [Hv Ht] Hn. destruct saved as [[k d] ttl]. cbn [fst snd] in *. rewrite restore_put by done.
  apply put_local_ok; try done.
  - eapply micros_ok; [apply rtc_once, micro_bloom|done].
  - simpl. rewrite key_view_0 by done.
    apply gate_check_set, Hok.
Qed.

Lemma restore_all now saved c :
  cache_ok now c → Forall saved_ok saved → 0 < now ≤ clock_max →
  let c' := foldl (restore now) c saved in
  cache_ok now c' ∧
  ∀ d t, local_answer c' d t =
    match last (List.filter (λ s : CacheKey * CachedData * Z, bool_decide (s.1.1 = mkKey d t 0)) saved) with
    | Some (_, x, ttl) => Some (x, ttl)
    | None => local_answer c d t
    end.
Proof.
  intros Hok Hs Hn. induction saved as [|s saved IH] using rev_ind; [done|].
  apply Forall_app in Hs as [Hs Hx]. apply Forall_inv in Hx.
  destruct (IH Hs) as [IH1 IH2]. rewrite foldl_app. cbv zeta. cbn [foldl]. split; [by apply restore_ok|].
  intros d t. rewrite List.filter_app. cbn [List.filter]. destruct s as [[k x] ttl]. destruct Hx as [Hv Ht].
  cbn [fst snd] in *. rewrite restore_put by done. rewrite put_local_answer.
  rewrite key_view_0 by done.
  destruct (decide (k = mkKey d t 0)) as [->|E].
  - rewrite bool_decide_eq_true_2 by done. by rewrite last_snoc.
  - rewrite bool_decide_eq_false_2 by done. rewrite app_nil_r.
    change (local_answer (set_bloom ?c ?b) d t) with (local_answer c d t). apply IH2.
Qed.

Lemma elem_of_preserved now c k d x : cache_ok now c →
  (k, d, x) ∈ preserved c ↔
  k_view k = 0 ∧ local_answer c (k_domain k) (k_record_type k) = Some (d, x).
Proof.
  intros Hok. unfold preserved. rewrite list_elem_of_bind. split.
  - intros ([dom types] & Hin & Hp). apply elem_of_map_to_list in Hp.
    apply list_elem_of_bind in Hin as (t & Hin & Ht).
    assert (Hl : local c dom t) by (by exists types).
    apply (ok_local _ _ Hok) in Hl as (r & Hr & Hpr). rewrite Hr in Hin.
    apply list_elem_of_singleton in Hin. simplify_eq. simpl. split; [done|].
    unfold local_answer. by rewrite Hr, Hpr.
  - intros [Hv Ha]. destruct k as [dom t v]. simpl in *. subst v.
    assert (Hl : local c dom t) by (apply (local_answer_iff now); [done|]; congruence).
    destruct Hl as (types & Hp & Ht). exists (dom, types). split; [|by apply elem_of_map_to_list].
    apply list_elem_of_bind. exists t. split; [|done]. unfold local_answer in Ha.
    destruct (cache c !! mkKey dom t 0) as [r|]; [|done]. destruct (is_permanent r); [|done].
    simplify_eq. by left.
Qed.

Lemma clear_spec now c thread :
  cache_ok now c → 0 < now ≤ clock_max →
  let c' := clear c thread now in
  cache_ok now c' ∧ ∀ d t, local_answer c' d t = local_answer c d t.
Proof.
  intros Hok Hn. unfold clear. set (base := reset_metric _ Evictions).
  assert (Hbase : cache_ok now base).
  { destruct Hok. split; try done; simpl.
    - by apply gate_clear_ok.
    - intros d t. rewrite local_types. unfold types_at. simpl. rewrite lookup_empty. simpl.
      rewrite lookup_empty. split; [intros Hin; by apply not_elem_of_nil in Hin|by intros (? & [=] & _)].
    - destruct ok_negative as [H2 H3]. split; [by apply counted_retain_ok|].
      unfold negative_clear, counted_clear, counted_retain. simpl. lia. }
  assert (Hs : Forall saved_ok (preserved c)).
  { apply Forall_forall. intros [[k d] x] Hin. apply (elem_of_preserved now) in Hin as [Hv Ha]; [|done].
    split; [done|]. unfold local_answer in Ha. destruct (cache c !! _) as [r|] eqn:Hr; [|done].
    destruct (is_permanent r); [|done]. simplify_eq. simpl.
    by destruct (ok_records _ _ Hok _ _ Hr) as ((? & _) & _). }
  destruct (restore_all now (preserved c) base Hbase Hs Hn) as [H2 H3]. split; [done|].
  intros d t. rewrite H3. destruct (last _) as [[[k x] ttl]|] eqn:El.
  - apply last_Some_elem_of, elem_of_filter_bool in El as [Hin Hk].
    simpl in Hk. apply bool_decide_eq_true in Hk as ->.
    by apply (elem_of_preserved now) in Hin as [_ Ha].
  - apply last_None in El. unfold local_answer at 1. simpl. rewrite lookup_empty.
    destruct (local_answer c d t) as [[x ttl]|] eqn:Ea; [|done].
    assert (Hin : (mkKey d t 0, x, ttl) ∈ preserved c) by (by apply (elem_of_preserved now)).
    assert (Hf : (mkKey d t 0, x, ttl) ∈ List.filter
      (λ s : CacheKey * CachedData * Z, bool_decide (s.1.1 = mkKey d t 0)) (preserved c)).
    { apply elem_of_filter_bool. split; [done|]. by apply bool_decide_eq_true. }
    rewrite El in Hf. by apply not_elem_of_nil in Hf.
Qed.

(** ** The filter *)

Lemma gate_set_all {A} (f : A → list HashItem) keys : ∀ g, gate_ok g →
  let g' := foldl (λ g k, gate_set g (f k)) g keys in
  gate_ok g' ∧ (∀ h, gate_check g h = true → gate_check g' h = true) ∧
  ∀ k, k ∈ keys → gate_check g' (f k) = true.
Proof.
  induction keys as [|k keys IH]; intros g Hg; simpl.
  { split_and!; try done. intros k Hk. by apply not_elem_of_nil in Hk. }
  destruct (IH _ (gate_set_ok g (f k) Hg)) as (H2 & H3 & H4). split_and!; [done| |].
  - intros h Hh. by apply H3, gate_check_mono.
  - intros j. rewrite elem_of_cons. intros [->|Hj]; [|by apply H4]. by apply H3, gate_check_set.
Qed.

Lemma elem_of_seeds c k now : k ∈ seeds c now ↔
  ∃ r, cache c !! k = Some r ∧ is_marked_for_deletion r = false ∧ is_dead_at_secs r now = false.
Proof.
  unfold seeds. rewrite list_elem_of_fmap. split.
  - intros ([j r] & -> & Hin). apply elem_of_filter_bool in Hin as [Hin Hf].
    apply elem_of_walk in Hin. apply andb_true_iff in Hf as [H2 H3].
    exists r. split; [done|]. by apply negb_true_iff in H2, H3.
  - intros (r & Hr & Hm & Hd). exists (k, r). split; [done|]. apply elem_of_filter_bool.
    split; [by apply elem_of_walk|]. simpl. rewrite Hm. simpl. by apply negb_true_iff.
Qed.

Lemma rotate_bloom_ok now c : cache_ok now c → cache_ok now (rotate_bloom c now).1.
Proof.
  intros Hok. unfold rotate_bloom. cbn [fst].
  destruct (gate_set_all hash_key (seeds c now) _ (gate_rotate_ok _ (ok_gate _ _ Hok))) as (H2 & H3 & H4).
  set (g1 := foldl _ (gate_rotate _) _) in *.
  destruct (gate_set_all hash_borrowed (permanent_seeds c) g1 H2) as (H5 & H6 & _).
  destruct Hok. split; try done. simpl. intros k r Hr.
  destruct (is_marked_for_deletion r || is_dead_at_secs r now) eqn:E.
  - right. apply orb_true_iff in E. split; [|done].
    destruct (ok_records k r Hr) as ((_ & _ & _ & Hp) & _).
    apply not_true_iff_false. intros Ep. destruct (Hp Ep) as (_ & Hm & _).
    pose proof (permanent_never_dead r now Ep). destruct E; congruence.
  - left. apply orb_false_iff in E as [Hm Hd]. apply H6, H4, elem_of_seeds. by exists r.
Qed.

(** ** Timers *)

Lemma timer_put_ok now c k r t :
  cache_ok now c → cache c !! k = Some r → t ≠ TIMER_PARKED ∨ is_permanent r = false →
  cache_ok now (put_record c k (with_timer r t)).
Proof.
  intros Hok Hr Ht. destruct (ok_records _ _ Hok _ _ Hr) as ((H2 & H3 & H4 & H5) & Hi & Hv).
  eapply cache_ok_put; try done.
  - split_and!; try done; simpl; try lia. intros Hp. destruct (H5 Hp) as (? & ? & _).
    split_and!; try done. destruct Ht; [done|]. change (is_permanent (with_timer r t)) with (is_permanent r) in Hp. congruence.
  - exact (ok_reach _ _ Hok k r Hr).
  - by rewrite Hr.
Qed.

(** What an operation keeps when it does not touch a local record. *)
Definition keeps (now : Z) (c c' : DnsCache) : Prop :=
  cache_ok now c' ∧ ∀ d t, local_answer c' d t = local_answer c d t.

Lemma keeps_refl now c : cache_ok now c → keeps now c c.
Proof. by split. Qed.

Lemma keeps_trans now c1 c2 c3 : keeps now c1 c2 → keeps now c2 c3 → keeps now c1 c3.
Proof. intros [_ H2] [H3 H4]. split; [done|]. intros. by rewrite H4, H2. Qed.

Lemma micros_keeps now c c' : cache_ok now c → micros now c c' → keeps now c c'.
Proof. intros Hok Hm. split; [by eapply micros_ok|]. intros. by eapply micros_local_answer. Qed.

Lemma timer_put_keeps now c k r t :
  cache_ok now c → cache c !! k = Some r → t ≠ TIMER_PARKED ∨ is_permanent r = false →
  keeps now c (put_record c k (with_timer r t)).
Proof.
  intros Hok Hr Ht. split; [by apply timer_put_ok|]. intros d x. unfold local_answer. simpl.
  destruct (decide (k = mkKey d x 0)) as [->|E]; [|by rewrite lookup_insert_ne].
  by rewrite lookup_insert_eq, Hr.
Qed.

(** A timer that fired, case by case. *)
Inductive claim_case (c : DnsCache) (thread : nat) (t : ScheduledRefresh) (now : Z)
    : DnsCache * option DueRefresh → Prop :=
  | claim_nothing : (∀ r, cache c !! t_key t = Some r → is_permanent r = true ∨
        (is_marked_for_deletion r = false ∧ is_dead_at_secs r now = false ∧
         timer r ≠ due_at_secs t)) →
      claim_case c thread t now (c, None)
  | claim_dead r : cache c !! t_key t = Some r → is_permanent r = false →
      is_marked_for_deletion r = true ∨ is_dead_at_secs r now = true →
      claim_case c thread t now ((remove_dead c (t_key t) now).1, None)
  | claim_parked r : cache c !! t_key t = Some r → is_permanent r = false →
      is_dead_at_secs r now = false → timer r = due_at_secs t →
      is_worth_renewing c r now = false →
      claim_case c thread t now
        (arm_timer (put_record c (t_key t) (with_timer r TIMER_PARKED)) thread (t_key t)
           (refresh_deadline_secs r) Due, None)
  | claim_taken r d : cache c !! t_key t = Some r → is_permanent r = false →
      is_marked_for_deletion r = false → is_dead_at_secs r now = false →
      timer r = due_at_secs t → is_worth_renewing c r now = true →
      d_key d = t_key t → deadline_secs d = refresh_deadline_secs r →
      d_retry d = bool_decide (t_kind t = Retry) →
      claim_case c thread t now (put_record c (t_key t) (with_timer r TIMER_CLAIMED), Some d).

Lemma claim_due_refresh_case c thread t now th :
  claim_case c thread t now (claim_due_refresh c thread t now th).
Proof.
  unfold claim_due_refresh. destruct (cache c !! t_key t) as [r|] eqn:Hr;
    [|apply claim_nothing; congruence].
  destruct (is_permanent r) eqn:Hp; [apply claim_nothing; intros; left; congruence|].
  destruct (is_marked_for_deletion r || is_dead_at_secs r now) eqn:Hd.
  { eapply claim_dead; [done|done|]. by apply orb_true_iff in Hd. }
  apply orb_false_iff in Hd as [Hm Hd]. unfold try_claim_refresh_timer, swap_refresh_timer.
  destruct (timer r =? due_at_secs t) eqn:Ht; cbn [negb].
  2: { apply Z.eqb_neq in Ht. apply claim_nothing. intros q Hq. right. rewrite Hr in Hq. by simplify_eq. }
  apply Z.eqb_eq in Ht.
  change (is_worth_renewing c (with_timer r TIMER_CLAIMED) now) with (is_worth_renewing c r now).
  destruct (is_worth_renewing c r now) eqn:Hw; [by eapply claim_taken|].
  change (park_claimed_refresh (with_timer r TIMER_CLAIMED)) with (with_timer r TIMER_PARKED).
  change (is_worth_renewing c (with_timer r TIMER_PARKED) now) with (is_worth_renewing c r now).
  rewrite Hw. by apply (claim_parked c thread t now r).
Qed.

Lemma claim_due_refresh_keeps now c thread t th :
  cache_ok now c → keeps now c (claim_due_refresh c thread t now th).1.
Proof.
  intros Hok. destruct (claim_due_refresh_case c thread t now th) as
    [|r Hr Hp _|r Hr Hp _ _ _|r d Hr Hp _ _ _ _ _ _ _]; cbn [fst].
  - by apply keeps_refl.
  - apply micros_keeps; [done|]. apply remove_dead_micros.
  - eapply keeps_trans; [apply (timer_put_keeps now c (t_key t) r); auto|].
    apply micros_keeps; [apply timer_put_ok; auto|]. apply rtc_once, micro_arm. right.
    eapply deadline_pos, Hok. exact Hr.
  - apply (timer_put_keeps now c (t_key t) r); auto.
Qed.

(** Starting a claimed renewal, case by case. *)
Lemma start_claimed_refresh_keeps now c thread k :
  cache_ok now c → 0 < now ≤ clock_max → keeps now c (start_claimed_refresh c thread k now).1.
Proof.
  intros Hok Hn. unfold start_claimed_refresh.
  destruct (cache c !! k) as [r|] eqn:Hr; [|by apply keeps_refl].
  unfold try_start_claimed_refresh, swap_refresh_timer.
  destruct (timer r =? TIMER_CLAIMED); cbn [negb]; [|by apply keeps_refl].
  set (r1 := with_timer r TIMER_LAPSED). set (c1 := put_record c k r1).
  assert (Hk : keeps now c c1) by (apply timer_put_keeps; [done|done|by left]).
  eapply keeps_trans; [exact Hk|]. destruct Hk as [Hok1 _].
  assert (Hr1 : cache c1 !! k = Some r1) by apply lookup_put.
  destruct (is_marked_for_deletion r1 || is_dead_at_secs r1 now); cbn [fst].
  { apply micros_keeps; [done|]. apply give_up_dead_claim_micros. }
  pose proof (same_core_set_refreshing r1) as Hs.
  destruct (try_set_refreshing r1) as [r2 []]; cbn [fst] in *; apply micros_keeps; try done.
  - by eapply touch_micros.
  - by apply rearm_lapsed_micros.
Qed.

(** A retry at any second, from a record's remaining TTL or not. *)
Lemma schedule_retry_keeps now c thread k in_secs :
  cache_ok now c → 0 < now ≤ clock_max → is_u32 in_secs →
  keeps now c (schedule_retry c thread k in_secs now).
Proof.
  intros Hok Hn Hin. unfold schedule_retry.
  destruct (cache c !! k) as [r|] eqn:Hr; [|by apply keeps_refl].
  unfold try_rearm_lapsed_refresh, swap_refresh_timer.
  destruct (timer r =? TIMER_LAPSED); [|by apply keeps_refl].
  assert (Hk : keeps now c (put_record c k (with_timer r (now + in_secs)))).
  { apply timer_put_keeps; [done|done|left]. unfold TIMER_PARKED, clock_max in *. unfold_ints. lia. }
  eapply keeps_trans; [exact Hk|]. apply micros_keeps; [apply Hk|]. apply rtc_once, micro_arm.
  right. unfold_ints. lia.
Qed.

End safety.
