(* ===== verification/CacheTrace.v ===== *)
(** What the cache answers: traces of its operations, the local records they
    leave, and the answer of a lookup. *)

From stdpp Require Import relations.
From S2P Require Import Prelude Net Float64 CacheRecord CacheSchedule CacheNegative.
From S2P Require Import CacheBloom CacheL1 Cache CacheInvariant CacheEvict CacheSafety.

Section trace.
Context `{Lru, IterOrder, MembershipGate} (powf : f64 → f64 → f64).

(** ** Operations *)

Inductive CacheOp :=
  | OpGet (domain : bytes) (t : RecordType) (view : Z)
  | OpStore (key : BorrowedKey) (d : CachedData) (ttl : Z)
      (status : option CachedDnssecStatus) (local_dns : bool)
  | OpInsertPermanent (domain : bytes) (t : RecordType) (d : CachedData) (ttl : Z)
  | OpRemoveRecord (domain : bytes) (t : RecordType) (group_id : option Z)
  | OpRemoveIn (domain : bytes) (t : RecordType) (view : Z)
  | OpClear | OpRotateBloom | OpEvict
  | OpRefresh (key : CacheKey) (new_ttl : option Z) (d : CachedData)
      (status : option CachedDnssecStatus)
  | OpClaim (timer : ScheduledRefresh) (thresholds : ColdThresholds)
  | OpStart (key : CacheKey)
  | OpGiveUp (key : CacheKey)
  | OpExpireNegative (key : CacheKey)
  | OpRearm (key : CacheKey)
  | OpRetry (key : CacheKey) (in_secs : Z)
  | OpReset (key : CacheKey).

Definition run_op (c : DnsCache) (thread : nat) (now : Z) (op : CacheOp) : DnsCache :=
  match op with
  | OpGet domain t view => (get_in c thread domain t view now).1
  | OpStore key d ttl status local_dns => store c thread key d ttl status local_dns now
  | OpInsertPermanent domain t d ttl => insert_permanent powf c thread domain t d ttl now
  | OpRemoveRecord domain t group_id => (remove_record c thread domain t group_id).1
  | OpRemoveIn domain t view => (remove_in c thread domain t view).1
  | OpClear => clear c thread now
  | OpRotateBloom => (rotate_bloom c now).1
  | OpEvict => evict_entries powf c now
  | OpRefresh key new_ttl d status => (refresh_record_of c thread key new_ttl d status now).1
  | OpClaim timer thresholds => (claim_due_refresh c thread timer now thresholds).1
  | OpStart key => (start_claimed_refresh c thread key now).1
  | OpGiveUp key => give_up_dead_claim c key now
  | OpExpireNegative key => (expire_negative c key now).1
  | OpRearm key => rearm_lapsed c thread key now
  | OpRetry key in_secs => schedule_retry c thread key in_secs now
  | OpReset key => reset_refreshing_of c key
  end.

(** Values of the source's integer types. *)
Definition op_ok (op : CacheOp) : Prop :=
  match op with
  | OpInsertPermanent _ _ _ ttl => is_u32 ttl
  | OpRetry _ in_secs => is_u32 in_secs
  | _ => True
  end.

(** *** The local records, as a map of their own *)

(** What an operation does to the local record of [(d, t)]. *)
Definition local_step (op : CacheOp) (d : bytes) (t : RecordType) (old : option (CachedData * Z))
    : option (CachedData * Z) :=
  match op with
  | OpInsertPermanent domain t' x ttl =>
      if decide (normalize_domain domain = d ∧ t' = t) then
        match into_stored x ttl 0 u32_max with Some x => Some (x, ttl) | None => old end
      else old
  | OpRemoveRecord domain t' None =>
      if decide (normalize_domain domain = d ∧ t' = t) then None else old
  | OpRemoveIn domain t' view =>
      if decide (view = 0 ∧ normalize_domain domain = d ∧ t' = t) then None else old
  | _ => old
  end.

Definition Step : Type := nat * Z * CacheOp.

Fixpoint run_ops (c : DnsCache) (ops : list Step) : DnsCache :=
  match ops with
  | [] => c
  | (thread, now, op) :: ops => run_ops (run_op c thread now op) ops
  end.

Fixpoint local_spec (ops : list Step) (d : bytes) (t : RecordType) (old : option (CachedData * Z))
    : option (CachedData * Z) :=
  match ops with
  | [] => old
  | (_, _, op) :: ops => local_spec ops d t (local_step op d t old)
  end.

(** The clock never goes back. *)
Fixpoint steps_ok (since : Z) (ops : list Step) : Prop :=
  match ops with
  | [] => True
  | (_, now, op) :: ops => since ≤ now ≤ clock_max ∧ op_ok op ∧ steps_ok now ops
  end.

Lemma key_eq_iff d t d' t' : mkKey d t 0 = mkKey d' t' 0 ↔ d = d' ∧ t = t'.
Proof. split; [by intros [=]|by intros [-> ->]]. Qed.

Lemma run_op_spec now c thread op :
  cache_ok now c → 0 < now ≤ clock_max → op_ok op →
  let c' := run_op c thread now op in
  cache_ok now c' ∧ ∀ d t, local_answer c' d t = local_step op d t (local_answer c d t).
Proof.
  intros Hok Hn Hop. assert (Hk : ∀ c', keeps now c c' → cache_ok now c' ∧
    ∀ d t, local_answer c' d t = local_answer c d t) by (intros c' [? ?]; done).
  assert (Hm : ∀ c', micros now c c' → cache_ok now c' ∧
    ∀ d t, local_answer c' d t = local_answer c d t) by (intros; by apply Hk, micros_keeps).
  destruct op as [domain t view|key d ttl status lo|domain t d ttl|domain t group|domain t view
    | | | |key new_ttl d status|timer th|key|key|key|key|key secs|key]; simpl.
  - apply Hm, get_in_micros; [done|lia].
  - by apply Hm, store_micros.
  - destruct (insert_permanent_spec powf now c thread domain t d ttl Hok Hop Hn) as [H2 H3].
    split; [done|]. intros d' t'. rewrite H3. destruct (into_stored d ttl 0 u32_max).
    + rewrite (decide_ext _ _ _ _ (key_eq_iff _ _ _ _)). done.
    + by destruct (decide _).
  - unfold remove_record. destruct group as [id|].
    + destruct (_ && _) eqn:E; [|by apply Hk, keeps_refl]. apply Hm.
      apply remove_in_view_micros; [done|]. apply andb_true_iff in E as [_ E].
      by apply negb_true_iff, Z.eqb_neq in E.
    + destruct (remove_spec now c thread domain t Hok) as [H2 H3]. split; [done|].
      intros d' t'. rewrite H3. by rewrite (decide_ext _ _ _ _ (key_eq_iff _ _ _ _)).
  - destruct (remove_in_spec now c thread domain t view Hok) as [H2 H3]. split; [done|].
    intros d' t'. rewrite H3. apply decide_ext. by rewrite key_eq_iff.
  - by apply clear_spec.
  - apply Hk. split; [by apply rotate_bloom_ok|done].
  - by apply Hm, evict_entries_micros.
  - by apply Hm, refresh_record_of_micros.
  - by apply Hk, claim_due_refresh_keeps.
  - by apply Hk, start_claimed_refresh_keeps.
  - apply Hm, give_up_dead_claim_micros.
  - apply Hm, expire_negative_micros.
  - by apply Hm, rearm_lapsed_micros.
  - by apply Hk, schedule_retry_keeps.
  - apply Hm, reset_refreshing_micros.
Qed.

Fixpoint ends_at (since : Z) (ops : list Step) : Z :=
  match ops with
  | [] => since
  | (_, now, _) :: ops => ends_at now ops
  end.

(** Any trace keeps the invariant and does to the local records what it says. *)
Lemma run_ops_spec ops : ∀ since c,
  cache_ok since c → 0 < since → steps_ok since ops →
  cache_ok (ends_at since ops) (run_ops c ops) ∧
  ∀ d t, local_answer (run_ops c ops) d t = local_spec ops d t (local_answer c d t).
Proof.
  induction ops as [|[[thread now] op] ops IH]; intros since c Hok Hs Hops; simpl; [done|].
  destruct Hops as (Hn & Hop & Hops).
  destruct (run_op_spec now c thread op (cache_ok_later since now c Hok ltac:(lia)) ltac:(lia) Hop)
    as [Hok' Hl].
  destruct (IH now _ Hok' ltac:(lia) Hops) as (Hok'' & Hl').
  split; [done|]. intros d t. by rewrite Hl', Hl.
Qed.

Lemma cache_new_ok now cfg g : config_ok cfg → gate_ok g → cache_ok now (cache_new cfg g).
Proof.
  intros Hc Hg. split; try done.
  - intros d t. rewrite local_types. unfold types_at. simpl. rewrite !lookup_empty. simpl.
    split; [intros Hin; by apply not_elem_of_nil in Hin|by intros (? & [=] & _)].
  - unfold negative_ok, counted_ok, negative_new. simpl. rewrite map_size_empty. lia.
Qed.

Lemma local_present now c d t : cache_ok now c →
  bool_decide (t ∈ types_at (permanent_records c) d)
  = match local_answer c d t with Some _ => true | None => false end.
Proof.
  intros Hok. pose proof (local_answer_iff now c d t Hok) as Hl. rewrite local_types in Hl.
  destruct (local_answer c d t); [apply bool_decide_eq_true|apply bool_decide_eq_false]; naive_solver.
Qed.

Lemma existsb_address types :
  existsb is_address_type types = bool_decide (A ∈ types) || bool_decide (AAAA ∈ types).
Proof.
  apply eq_true_iff_eq. rewrite orb_true_iff, !bool_decide_eq_true, existsb_exists. split.
  - intros (t & Hin & Ht). apply list_elem_of_In in Hin. destruct t; try done; auto.
  - intros [Hin|Hin]; apply list_elem_of_In in Hin; eexists; by split.
Qed.

(** What the resolver is told of a name: it is told the local record is there,
    or that the name is local but has no record of this type. *)
Lemma local_record_status_spec now c d t : cache_ok now c → normalize_domain d = d →
  let known t := match local_answer c d t with Some _ => true | None => false end in
  local_record_status c d t =
    if known t then Present else if known A || known AAAA then MissingType else NotLocal.
Proof.
  intros Hok Hd known. unfold local_record_status. rewrite Hd. unfold known.
  rewrite <-!(local_present now) by done. unfold types_at.
  destruct (permanent_records c !! d) as [types|]; cbv [from_option id].
  - by rewrite existsb_address.
  - by rewrite !bool_decide_eq_false_2 by apply not_elem_of_nil.
Qed.

(** ** Answers *)

Definition negative_answer (c : DnsCache) (key : CacheKey) (now : Z) : option Hit :=
  match (negative_get (negative c) (k_domain key) (k_record_type key) (k_view key) now).2 with
  | Some (remaining_ttl, local_dns) => Some (NegativeResponse, None, Some remaining_ttl, local_dns)
  | None => None
  end.

Definition entry_answer (r : CachedRecord) (now : Z) : option Hit :=
  Some (data r, Some (dnssec_status r),
        Some (if is_expired_at_secs r now then STALE_SERVE_TTL else remaining_ttl_at_secs r now),
        is_local_dns r).

Lemma negative_or_miss_answer c domain t view now :
  (negative_or_miss c domain t view now).2 = negative_answer c (mkKey domain t view) now.
Proof.
  unfold negative_or_miss, negative_answer. simpl.
  destruct (negative_get _ _ _ _ _) as [n [[ttl l]|]]; done.
Qed.

Lemma fresh_hit_answer now c thread k r :
  rec_ok now r → cache c !! k = Some r → is_expired_at_secs r now = false →
  (fresh_hit c thread k r now).2 = entry_answer r now.
Proof.
  intros Hr Hk He. unfold fresh_hit, entry_answer. rewrite He. cbn [snd].
  set (c1 := put_record _ _ _). set (r1 := record_hit r now).
  assert (Hk1 : cache c1 !! k = Some r1) by apply lookup_put.
  assert (Hr1 : rec_ok now r1) by (eapply rec_ok_core; [apply same_core_hits|done]).
  destruct (is_refresh_parked r1) eqn:Hp.
  - destruct (rearm_refresh_core now c1 thread k r1 Hk1 Hp Hr1) as (_ & _ & t & [[E _]|E]);
      by rewrite E.
  - by rewrite Hk1.
Qed.

Lemma stale_usable_iff now r : record_ok r → inserted_at_secs r ≤ now ≤ clock_max →
  is_stale_usable_at_secs r now = is_expired_at_secs r now && negb (is_dead_at_secs r now).
Proof.
  intros Hr Hn. destruct (is_permanent r) eqn:Hp.
  - rewrite permanent_never_dead by done. unfold is_expired_at_secs. rewrite Hp. simpl.
    destruct Hr as (_ & _ & _ & H2). destruct (H2 Hp) as (Hx & _).
    unfold is_stale_usable_at_secs. rewrite Hx, (proj2 (Z.leb_gt _ _)); [done|].
    unfold clock_max in *. unfold_ints. lia.
  - unfold is_dead_at_secs. destruct (is_stale_usable_at_secs r now) eqn:Es, (is_expired_at_secs r now) eqn:Ex;
      simpl; try done. unfold is_stale_usable_at_secs in Es. unfold is_expired_at_secs in Ex.
    rewrite Hp in Ex. by rewrite Ex in Es.
Qed.

Lemma get_l2_answer now c thread domain t view :
  cache_ok now c → now ≤ clock_max →
  let key := mkKey domain t view in
  (get_l2 c thread domain t view now).2 =
  match cache c !! key with
  | Some r => if negb (is_dead_at_secs r now) && gate_check (bloom c) (hash_key key)
              then entry_answer r now else negative_answer c key now
  | None => negative_answer c key now
  end.
Proof.
  intros Hok Hn key. unfold get_l2.
  change (hash_borrowed (borrowed_in_view (borrowed_new domain t) view)) with (hash_key key).
  change (in_view (from_lowercase domain t) view) with key.
  destruct (gate_check (bloom c) (hash_key key)); cbn [negb].
  2: { rewrite negative_or_miss_answer. fold key.
    destruct (cache c !! key); [by rewrite andb_false_r|done]. }
  destruct (cache c !! key) as [r|] eqn:Hr; [|by rewrite negative_or_miss_answer].
  pose proof (ok_rec_ok _ _ _ _ Hok Hn Hr) as Hro. pose proof Hro as [Hr1 Hr2].
  rewrite stale_usable_iff by done. rewrite andb_true_r.
  destruct (is_expired_at_secs r now) eqn:Ex; simpl.
  - destruct (is_dead_at_secs r now) eqn:Ed; simpl.
    + rewrite negative_or_miss_answer. done.
    + unfold entry_answer. by rewrite Ex.
  - unfold is_dead_at_secs. rewrite Ex. simpl. by apply fresh_hit_answer.
Qed.

Lemma first_timer_with c r : ∃ t, (first_timer_at c r).1 = with_timer r t.
Proof. unfold first_timer_at. destruct (renews_ahead c (ttl r)); by eexists. Qed.

(** What is stored at the key of an answer: its record, or the local record
    that was there. *)
Lemma store_lookup c thread key d d' t status (local_dns : bool) now :
  is_negative d = false →
  into_stored d (clamp_ttl c t) (cfg_min_ttl (config c)) (cfg_max_ttl (config c)) = Some d' →
  let r := record_new d' (clamp_ttl c t) (b_record_type key) status now in
  let new := (first_timer_at c (if local_dns then with_local_dns r else r)).1 in
  let k := mkKey (b_domain key) (b_record_type key) (b_view key) in
  cache (store c thread key d t status local_dns now) !! k =
  match cache c !! k with
  | Some old => if is_permanent old then Some old else Some new
  | None => Some new
  end.
Proof.
  intros Hneg Hst r new k. unfold store. rewrite Hneg, Hst. fold r.
  subst new. destruct (first_timer_at c _) as [r' first]. cbn [fst].
  change (in_view _ _) with k. cbn [cache set_bloom].
  destruct (cache c !! k) as [old|] eqn:Ho; [destruct (is_permanent old)|].
  - exact Ho.
  - destruct (if b_view key =? 0 then _ else _); apply lookup_insert_eq.
  - destruct (if b_view key =? 0 then _ else _); apply lookup_insert_eq.
Qed.

End trace.

(** ** A concrete cache

    The filter over a small hasher, copies in an association list and the
    map's own order, for the examples. *)

Definition demo_powf (x y : f64) : f64 := x.

Definition demo_config : DnsCacheConfig :=
  {| max_entries := 2; eviction_policy := PolicyLru; refresh_threshold := fdiv (of_u64 3) (of_u64 4);
     batch_eviction_percentage := f_zero; access_window_secs := 3600; eviction_sample_size := 4;
     cfg_min_ttl := 60; cfg_max_ttl := 86400; renew_ahead := true; retry_lapsed_after_secs := 600 |}.

Lemma demo_config_ok : config_ok demo_config.
Proof. unfold config_ok, demo_config. simpl. unfold_ints. unfold clock_max. lia. Qed.

Definition name_a : bytes := [97; 46; 120].
Definition name_b : bytes := [98; 46; 120].
Definition addr (a : Z) : CachedData := IpAddresses (mkAddresses [V4 a] None).
Definition insert_op (domain : bytes) (a : Z) : CacheOp :=
  OpStore (borrowed_new (normalize_domain domain) A) (addr a) 300 None false.

(** ** Properties *)

(** C33: A lookup answers what the cache holds, and the filter never hides it:
    but for a copy of the calling thread's own, an entry that is neither dead
    nor marked is the answer, fresh with what is left of its TTL or stale with
    the TTL for that; for a dead or missing entry it is the negative cache's
    answer.  The invariant holds afterwards. *)
Theorem get_in_spec `{Lru, IterOrder, MembershipGate} (c : DnsCache) (thread : nat)
    (domain : bytes) (t : RecordType) (view now : Z) :
  cache_ok now c → now ≤ clock_max →
  let key := mkKey (normalize_domain domain) t view in
  let '(c', answer) := get_in c thread domain t view now in
  cache_ok now c' ∧
  match (if (view =? 0) && is_address_type t
         then (l1_get (l1 c) thread (normalize_domain domain) t now).2 else None) with
  | Some (a, status, local_dns, remaining, _) =>
      answer = Some (IpAddresses a, Some status, Some remaining, local_dns)
  | None =>
      match cache c !! key with
      | Some r =>
          if is_dead_at_secs r now then answer = negative_answer c key now
          else is_marked_for_deletion r = false → answer = entry_answer r now
      | None => answer = negative_answer c key now
      end
  end.
Proof.
  intros Hok Hn key. pose proof (micros_ok _ _ _ (get_in_micros now c thread domain t view Hok Hn) Hok) as Hok'.
  destruct (get_in c thread domain t view now) as [c' answer] eqn:E. cbn [fst] in Hok'.
  split; [done|]. revert E. unfold get_in.
  set (dom := normalize_domain domain) in *.
  assert (Hl2 : ∀ c1, cache_ok now c1 → cache c1 = cache c → bloom c1 = bloom c →
    negative c1 = negative c → (get_l2 c1 thread dom t view now).2 = answer →
    match cache c !! key with
    | Some r => if is_dead_at_secs r now then answer = negative_answer c key now
                else is_marked_for_deletion r = false → answer = entry_answer r now
    | None => answer = negative_answer c key now
    end).
  { intros c1 Hok1 Hc Hb Hneg. rewrite (get_l2_answer now) by done. fold key. rewrite Hc, Hb.
    assert (Hna : negative_answer c1 key now = negative_answer c key now)
      by (unfold negative_answer; by rewrite Hneg).
    destruct (cache c !! key) as [r|] eqn:Hr; [|by rewrite Hna].
    destruct (is_dead_at_secs r now) eqn:Ed; simpl; [by rewrite Hna|]. intros Ha Hm.
    destruct (ok_reach _ _ Hok _ _ Hr) as [Hg|[_ [Hx|Hx]]]; [|congruence|congruence].
    by rewrite Hg in Ha. }
  destruct (_ && _); [|intros E; eapply (Hl2 c); by rewrite ?E].
  destruct (l1_get _ _ _ _ _) as [l [[[[[a st] lo] rem] n]|]]; simpl; intros E.
  - by simplify_eq.
  - eapply (Hl2 (set_l1 c l)); try done; [|by rewrite E].
    eapply micros_ok; [apply set_l1_micros|done].
Qed.

Lemma get_in_spec_witness :
  let L := assoc_lru in let I := map_to_list_order in let G := demo_gate in
  let c := run_ops demo_powf (cache_new demo_config demo_bloom) [(0%nat, 1000, insert_op name_a 7)] in
  let '(c', answer) := get_in c 1 [65; 46; 88] A 0 1350 in
  cache_ok 1350 c' ∧
  answer = Some (addr 7, Some CUnknown, Some STALE_SERVE_TTL, false).
Proof.
  intros L I G c. pose proof (run_ops_spec demo_powf [(0%nat, 1000, insert_op name_a 7)] 1
    (cache_new demo_config demo_bloom)) as Hok.
  destruct Hok as [Hok _]; [apply cache_new_ok; [apply demo_config_ok|apply demo_bloom_ok]|lia
    |repeat split; vm_compute; discriminate|].
  pose proof (get_in_spec c 1 [65; 46; 88] A 0 1350
    (cache_ok_later _ 1350 _ Hok ltac:(vm_compute; discriminate)) ltac:(vm_compute; discriminate)) as Hg.
  destruct (get_in c 1 [65; 46; 88] A 0 1350) as [c' answer]. destruct Hg as [Hok' Ha].
  split; [exact Hok'|]. vm_compute in Ha. apply Ha. reflexivity.
Defined.

(** C2: The local records are a map of their own: after any sequence of the
    cache's operations (lookups, answers stored and renewed, evictions, flushes,
    rotations, timers) at a clock that never goes back, a name's local record is
    what the last insertion or removal of that record left, the cache's reports
    of it agree, and a lookup past the thread's own copies answers with its data
    and its configured TTL, however long after. *)
Theorem local_records_refine `{Lru, IterOrder, MembershipGate} (powf : f64 → f64 → f64)
    (cfg : DnsCacheConfig) (g : gate) (ops : list Step) :
  config_ok cfg → gate_ok g → steps_ok 1 ops →
  let c := run_ops powf (cache_new cfg g) ops in
  let local t d := local_spec ops d t None in
  let known d t := match local t d with Some _ => true | None => false end in
  ∀ d t, normalize_domain d = d →
  cache_is_permanent c d t = known d t ∧
  local_record_status c d t =
    (if known d t then Present else if known d A || known d AAAA then MissingType else NotLocal) ∧
  (∀ x ttl thread now, local t d = Some (x, ttl) → ends_at 1 ops ≤ now ≤ clock_max →
   ∃ status local_dns,
     (get_l2 c thread d t 0 now).2 = Some (x, Some status, Some ttl, local_dns)).
Proof.
  intros Hcfg Hg Hops c local known d t Hd.
  destruct (run_ops_spec powf ops 1 (cache_new cfg g)) as [Hok Hl];
    [by apply cache_new_ok|lia|done|]. fold c in Hok, Hl.
  assert (Hla : ∀ t, local_answer c d t = local t d).
  { intros t'. rewrite Hl. unfold local_answer at 1. simpl. by rewrite lookup_empty. }
  split_and!.
  - unfold known. rewrite <-Hla, <-(local_present _ _ _ _ Hok). unfold cache_is_permanent, types_at.
    rewrite Hd. destruct (permanent_records c !! d); [done|]. cbv [from_option id].
    by rewrite bool_decide_eq_false_2 by apply not_elem_of_nil.
  - rewrite (local_record_status_spec _ _ _ _ Hok Hd). unfold known. by rewrite !Hla.
  - intros x ttl thread now Hx Hn. pose proof (cache_ok_later _ now _ Hok ltac:(lia)) as Hok'.
    rewrite (get_l2_answer now) by (done || lia).
    rewrite <-Hla in Hx. unfold local_answer in Hx.
    destruct (cache c !! mkKey d t 0) as [r|] eqn:Hr; [|done].
    destruct (is_permanent r) eqn:Hp; [|done]. simplify_eq.
    destruct (ok_reach _ _ Hok' _ _ Hr) as [Hgate|[? _]]; [|congruence].
    rewrite permanent_never_dead, Hgate by done. simpl. unfold entry_answer.
    exists (dnssec_status r), (is_local_dns r). unfold is_expired_at_secs, remaining_ttl_at_secs.
    by rewrite Hp.
Qed.

Definition demo_ops : list Step :=
  [(0%nat, 1000, OpInsertPermanent name_a A (addr 1) 500); (1%nat, 1000, insert_op name_b 7);
   (1%nat, 1001, insert_op name_a 9); (0%nat, 1001, OpClear); (2%nat, 1002, OpRotateBloom);
   (2%nat, 1003, OpEvict)].

Lemma local_records_refine_witness :
  let L := assoc_lru in let I := map_to_list_order in let G := demo_gate in
  let c := run_ops demo_powf (cache_new demo_config demo_bloom) demo_ops in
  local_spec demo_ops name_a A None = Some (addr 1, 500) ∧
  ∃ status local_dns,
    (get_l2 c 3 name_a A 0 9000).2 = Some (addr 1, Some status, Some 500, local_dns).
Proof.
  intros L I G c. split; [vm_compute; reflexivity|].
  destruct (@local_records_refine L I G demo_powf demo_config demo_bloom demo_ops demo_config_ok
    demo_bloom_ok ltac:(repeat split; vm_compute; discriminate) name_a A eq_refl) as (_ & _ & Hget).
  apply (Hget (addr 1) 500 3%nat 9000); [vm_compute; reflexivity|].
  split; vm_compute; discriminate.
Defined.



(** Eviction does nothing below capacity.  At capacity it only takes
    entries out, leaving the rest as they were; a local record always stays;
    and unless nothing but local or marked records is left it makes room.  Of
    two sampled entries that are not stale the policy scores no entry taken out
    higher than one that stays. *)
Theorem evict_entries_spec `{Lru, IterOrder, MembershipGate} (powf : f64 → f64 → f64)
    (c : DnsCache) (now : Z) :
  cache_ok now c →
  let c' := evict_entries powf c now in
  let sample := sampled c (evict_count c) in
  let rank r k := snap_score powf (eviction_policy (config c)) now (snapshot k r now) in
  ((size (cache c) < max_entries (config c))%nat → c' = c) ∧
  cache c' ⊆ cache c ∧
  (∀ k r, cache c !! k = Some r → is_permanent r = true → cache c' !! k = Some r) ∧
  ((max_entries (config c) ≤ size (cache c))%nat →
   (∃ k r, cache c !! k = Some r ∧ evictable r = true) →
   (size (cache c') < size (cache c))%nat) ∧
  (∀ k r j q, (k, r) ∈ sample → (j, q) ∈ sample →
   (∀ i x, (i, x) ∈ sample → rank x i ≠ S754_nan) →
   cache c' !! k = None → cache c' !! j = Some q →
   stale_snap (access_window_secs (config c)) now (snapshot k r now) = true ∨
   SFltb (rank q j) (rank r k) = false).
Proof.
  intros Hok c' sample rank.
  destruct (evict_entries_cases powf c now) as [[E Hcase]|(E & Hne & Hfull)]; fold c' in E.
  { rewrite E. split_and!; try done.
    - intros Hfull (k & r & Hr & _). destruct Hcase as [?|Hem]; [lia|].
      rewrite Hem in Hr. by rewrite lookup_empty in Hr.
    - intros k r j q Hk _ _ Hnone. apply sampled_elem in Hk as [Hk _]. congruence. }
  destruct (evict_by_strategy_spec powf c (evict_count c) now Hne) as (Hc & Hrest).
  rewrite <-E in Hc. clear Hrest. pose proof (victims_spec powf c (evict_count c) now) as Hv.
  cbv zeta in Hv. destruct Hv as (Hv2 & _ & _).
  assert (Hsub : cache c' ⊆ cache c).
  { apply map_subseteq_spec. intros k r. rewrite Hc. destruct (cache c !! k); [|done].
    by destruct (taken_out _ _ _). }
  split_and!; try done.
  - intros Hlt. lia.
  - intros k r Hr Hp. rewrite Hc, Hr. destruct (taken_out _ _ _) eqn:Et; [|done].
    pose proof (taken_out_ordinary powf now c (evict_count c) k r Hok Hr Et). congruence.
  - intros _ (k & r & Hr & He). apply map_subset_size. split; [done|]. intros Hsup.
    destruct (ok_config _ _ Hok) as (_ & _ & _ & Hsz).
    assert (Hcount : (1 ≤ evict_count c)%nat) by (unfold evict_count; lia).
    pose proof (victims_lost powf c (evict_count c) now k r Hsz Hcount Hr He) as Hlost.
    destruct Hlost as (j & q & Hq & Ht). assert (Hnone : cache c' !! j = None) by (by rewrite Hc, Hq, Ht).
    pose proof (lookup_weaken _ _ _ _ Hq Hsup). congruence.
  - intros k r j q Hk Hj Hnum Hnone Hstay.
    destruct (stale_snap _ _ _) eqn:Est; [by left|right].
    pose proof (sampled_elem _ _ _ _ Hk) as [Hkc Hke]. pose proof (sampled_elem _ _ _ _ Hj) as [Hjc _].
    rewrite Hc, Hkc in Hnone. rewrite Hc, Hjc in Hstay.
    destruct (taken_out _ k r) eqn:Et; [|done]. destruct (taken_out _ j q) eqn:Es; [done|].
    unfold taken_out in Et, Es. rewrite !orb_false_iff, !bool_decide_eq_false in Es.
    destruct Es as [[Es1 Es2] _].
    apply (victims_lowest powf c (evict_count c) now k r j q); try done.
    rewrite !orb_true_iff, !bool_decide_eq_true, andb_true_iff in Et.
    destruct Et as [[Et|Et]|[_ Et]]; [done| |].
    + apply Hv2 in Et as (r' & Hr' & Est'). apply sampled_elem in Hr' as [Hr' _]. congruence.
    + unfold evictable in Hke. rewrite Et in Hke. done.
Qed.

Definition full_ops : list Step :=
  [(1%nat, 1000, insert_op name_a 7); (0%nat, 1001, insert_op name_b 8)].

Lemma evict_entries_spec_witness :
  let L := assoc_lru in let I := map_to_list_order in let G := demo_gate in
  let c := run_ops demo_powf (cache_new demo_config demo_bloom) full_ops in
  let c' := evict_entries demo_powf c 1002 in
  (size (cache c') < 2)%nat ∧
  ∃ ra rb, cache c !! mkKey name_a A 0 = Some ra ∧ cache c' !! mkKey name_a A 0 = None ∧
    cache c' !! mkKey name_b A 0 = Some rb ∧
    SFltb (snap_score demo_powf PolicyLru 1002 (snapshot (mkKey name_b A 0) rb 1002))
      (snap_score demo_powf PolicyLru 1002 (snapshot (mkKey name_a A 0) ra 1002)) = false.
Proof.
  intros L I G c c'.
  assert (Hok : cache_ok 1002 c).
  { apply (cache_ok_later 1001); [|lia]. apply (run_ops_spec demo_powf full_ops 1);
      [apply cache_new_ok; [apply demo_config_ok|apply demo_bloom_ok]|lia|].
    repeat split; vm_compute; discriminate. }
  destruct (cache c !! mkKey name_a A 0) as [ra|] eqn:Ha; [|vm_compute in Ha; discriminate].
  destruct (cache c !! mkKey name_b A 0) as [rb|] eqn:Hb; [|vm_compute in Hb; discriminate].
  destruct (@evict_entries_spec L I G demo_powf c 1002 Hok) as (_ & _ & _ & Hroom & Hrank).
  split.
  - apply Hroom; [vm_compute; lia|]. exists (mkKey name_a A 0), ra. split; [exact Ha|].
    vm_compute in Ha. injection Ha as <-. reflexivity.
  - assert (Hgone : cache c' !! mkKey name_a A 0 = None) by (vm_compute; reflexivity).
    assert (Hstay : cache c' !! mkKey name_b A 0 = Some rb) by (rewrite <-Hb; vm_compute; reflexivity).
    assert (Hina : (mkKey name_a A 0, ra) ∈ sampled c (evict_count c)).
    { apply list_elem_of_lookup. exists 1%nat. vm_compute in Ha. injection Ha as <-.
      vm_compute. reflexivity. }
    assert (Hinb : (mkKey name_b A 0, rb) ∈ sampled c (evict_count c)).
    { apply list_elem_of_lookup. exists 0%nat. vm_compute in Hb. injection Hb as <-.
      vm_compute. reflexivity. }
    assert (Hall : forallb (λ ix, match snap_score demo_powf PolicyLru 1002
        (snapshot ix.1 ix.2 1002) with S754_nan => false | _ => true end)
        (sampled c (evict_count c)) = true) by (vm_compute; reflexivity).
    assert (Hnum : ∀ i x, (i, x) ∈ sampled c (evict_count c) →
      snap_score demo_powf PolicyLru 1002 (snapshot i x 1002) ≠ S754_nan).
    { intros i x Hi E. rewrite forallb_forall in Hall. apply list_elem_of_In in Hi.
      specialize (Hall _ Hi). cbn [fst snd] in Hall. rewrite E in Hall. discriminate Hall. }
    assert (Hpol : eviction_policy (config c) = PolicyLru) by (vm_compute; reflexivity).
    rewrite Hpol in Hrank. exists ra, rb. split; [reflexivity|]. split; [exact Hgone|]. split; [exact Hstay|].
    destruct (Hrank _ ra _ rb Hina Hinb Hnum Hgone Hstay) as [Hst|Hlow]; [|exact Hlow].
    exfalso. vm_compute in Ha. injection Ha as <-. vm_compute in Hst. discriminate Hst.
Defined.

Definition evicted_ops : list Step :=
  [(1%nat, 1000, insert_op name_a 7); (0%nat, 1001, insert_op name_b 8); (0%nat, 1002, OpEvict)].

(** A removal retires the threads' copies only of an entry the cache still
    holds: once an answer is evicted, removing it does nothing, and a thread
    that copied it goes on serving it over the local record inserted next, which
    the inserting thread already answers with. *)
Theorem removal_misses_copies :
  let L := assoc_lru in let I := map_to_list_order in let G := demo_gate in
  let c := run_ops demo_powf (cache_new demo_config demo_bloom) evicted_ops in
  let '(c1, removed) := remove c 0 name_a A in
  let c2 := insert_permanent demo_powf c1 0 name_a A (addr 1) 500 1003 in
  removed = false ∧
  local_answer c2 name_a A = Some (addr 1, 500) ∧
  (get_in c2 0 name_a A 0 1004).2 = Some (addr 1, Some CUnknown, Some 499, false) ∧
  (get_in c2 1 name_a A 0 1004).2 = Some (addr 7, Some CUnknown, Some 296, false).
Proof. vm_compute. repeat split. Qed.
