(* ===== verification/LocalRecords.v ===== *)
(** Local records: [domain/src/config/local_records.rs], the maps that answer
    for them ([infrastructure/src/dns/resolver/local_ptr.rs], [local_wildcard.rs])
    and the use cases that change them ([application/src/use_cases/local_records/]).

    The cache's local records are the trace of operations made on it, whose
    effect [CacheTrace.v] gives. *)

From Stdlib Require Import String.
From stdpp Require Import pretty.
From S2P Require Import Prelude Errors Text Net Protocol Routes CacheRecord Cache CacheTrace.

#[local] Set Default Proof Using "Type".

(** ** Records *)

Inductive LocalRecordType := LocalA | LocalAAAA.
#[export] Instance LocalRecordType_eq_dec : EqDecision LocalRecordType.
Proof. solve_decision. Defined.

Definition local_type_str (t : LocalRecordType) : string := match t with LocalA => "A" | LocalAAAA => "AAAA" end.
Definition record_type_of (t : LocalRecordType) : RecordType := match t with LocalA => A | LocalAAAA => AAAA end.
Definition local_type_from_str (s : str) : DomainError + LocalRecordType :=
  if eq_ignore_case (utf8 s) [65] then inr LocalA
  else if eq_ignore_case (utf8 s) [65; 65; 65; 65] then inr LocalAAAA
  else inl (Error.InvalidInput ("Invalid record type '" +:+ to_string s +:+ "' (must be A or AAAA)")).

Record LocalDnsRecord := mkLocal {
  lr_hostname : str; lr_domain : option str; lr_ip : IpAddr; lr_type : LocalRecordType; lr_ttl : option Z;
}.
#[export] Instance LocalDnsRecord_eq_dec : EqDecision LocalDnsRecord.
Proof. solve_decision. Defined.

Definition parse_address (ip type : str) : DomainError + (IpAddr * LocalRecordType) :=
  ip ← (match parse_ip ip with Some a => inr a | None => inl (Error.InvalidIpAddress (to_string ip)) end);
  t ← local_type_from_str type;
  inr (ip, t).

Definition local_parse (hostname : str) (domain : option str) (ip type : str) (ttl : option Z)
    : DomainError + LocalDnsRecord :=
  '(ip, t) ← parse_address ip type; inr (mkLocal hostname domain ip t ttl).

(** The record's own domain, or the default one. *)
Definition domain_or (r : LocalDnsRecord) (default_domain : option str) : option str :=
  match lr_domain r with Some d => Some d | None => default_domain end.

Definition fqdn (r : LocalDnsRecord) (default_domain : option str) : str :=
  match domain_or r default_domain with
  | Some domain => lr_hostname r ++ [46] ++ domain
  | None => lr_hostname r
  end.

Definition get_to (s : bytes) (n : nat) : option bytes := if (n <=? length s)%nat then Some (take n s) else None.
Definition get_from (s : bytes) (n : nat) : option bytes := if (n <=? length s)%nat then Some (drop n s) else None.
Definition is_some_and {A} (o : option A) (p : A → bool) : bool := match o with Some a => p a | None => false end.

Definition has_fqdn (r : LocalDnsRecord) (name : str) (default_domain : option str) : bool :=
  let host := utf8 (lr_hostname r) in
  let name := utf8 name in
  match domain_or r default_domain with
  | Some domain =>
      is_some_and (get_to name (length host)) (λ head, eq_ignore_case head host)
      && bool_decide (name !! length host = Some 46)
      && is_some_and (get_from name (length host + 1)) (λ tail, eq_ignore_case tail (utf8 domain))
  | None => eq_ignore_case name host
  end.

Definition ttl_or_default (r : LocalDnsRecord) : Z := default 300 (lr_ttl r).

Definition is_wildcard_hostname (hostname : str) : bool :=
  bool_decide (hostname = [42]) || starts_with [42; 46] hostname.
Definition is_wildcard (r : LocalDnsRecord) : bool := is_wildcard_hostname (lr_hostname r).

Definition wildcard_suffix (r : LocalDnsRecord) (default_domain : option str) : option str :=
  if negb (is_wildcard r) then None
  else to_ascii_lowercase <$> strip_prefix [42; 46] (fqdn r default_domain).

Definition validate_address (t : LocalRecordType) (ip : IpAddr) : string + unit :=
  match t, ip with
  | LocalA, V4 _ | LocalAAAA, V6 _ => inr ()
  | LocalA, V6 _ => inl ("an A record needs an IPv4 address, got " +:+ to_string (show_ip ip))
  | LocalAAAA, V4 _ => inl ("an AAAA record needs an IPv6 address, got " +:+ to_string (show_ip ip))
  end.

Definition validate_hostname (hostname : str) : string + unit :=
  if bool_decide (hostname = []) then inl "Hostname cannot be empty"
  else if (LOCAL_MAX_NAME_LEN <? utf8_len hostname)%nat then
    inl ("Hostname cannot exceed " +:+ pretty LOCAL_MAX_NAME_LEN +:+ " characters")
  else if contains_char 42 hostname && negb (is_wildcard_hostname hostname) then
    inl "Wildcard must be the leftmost label: use '*' or '*.sub'"
  else
    let remainder := default hostname (strip_prefix [42; 46] hostname) in
    if bool_decide (remainder = [42]) then inr () else validate_labels remainder "Hostname".

(** ** The wildcards *)

Record WildcardAnswer := mkWildcard { wa_a : option (IpAddr * Z); wa_aaaa : option (IpAddr * Z) }.
#[export] Instance WildcardAnswer_eq_dec : EqDecision WildcardAnswer.
Proof. solve_decision. Defined.

Definition wildcard_default : WildcardAnswer := mkWildcard None None.
Definition wildcard_get (w : WildcardAnswer) (t : RecordType) : option (IpAddr * Z) :=
  match t with A => wa_a w | AAAA => wa_aaaa w | _ => None end.
Definition wildcard_put (w : WildcardAnswer) (t : LocalRecordType) (x : option (IpAddr * Z)) : WildcardAnswer :=
  match t with LocalA => mkWildcard x (wa_aaaa w) | LocalAAAA => mkWildcard (wa_a w) x end.
Definition wildcard_set (w : WildcardAnswer) (t : LocalRecordType) (address : IpAddr) (ttl : Z) : WildcardAnswer :=
  wildcard_put w t (Some (address, ttl)).
Definition wildcard_clear (w : WildcardAnswer) (t : LocalRecordType) : WildcardAnswer := wildcard_put w t None.
Definition wildcard_is_empty (w : WildcardAnswer) : bool :=
  match wa_a w, wa_aaaa w with None, None => true | _, _ => false end.

Abbreviation WildcardMap := (gmap str WildcardAnswer).

(** [register_in], also [WildcardRegistry::register]. *)
Definition register_in (m : WildcardMap) (suffix : str) (t : LocalRecordType) (address : IpAddr) (ttl : Z)
    : WildcardMap :=
  match validate_address t address with
  | inl _ => m
  | inr _ =>
      let key := to_ascii_lowercase suffix in
      <[key := wildcard_set (default wildcard_default (m !! key)) t address ttl]> m
  end.

Definition wildcard_unregister (m : WildcardMap) (suffix : str) (t : LocalRecordType) : WildcardMap :=
  let key := to_ascii_lowercase suffix in
  match m !! key with
  | Some entry =>
      let entry := wildcard_clear entry t in
      if wildcard_is_empty entry then delete key m else <[key := entry]> m
  | None => m
  end.

Definition wildcards_from (records : list LocalDnsRecord) (default_domain : option str) : WildcardMap :=
  foldl (λ m r,
    match wildcard_suffix r default_domain with
    | Some suffix => register_in m suffix (lr_type r) (lr_ip r) (ttl_or_default r)
    | None => m
    end) ∅ (List.filter is_wildcard records).

(** The walk of [LocalWildcardResolver::lookup], from the name's parent up. *)
Fixpoint wildcard_above (m : WildcardMap) (candidate : str) : option WildcardAnswer :=
  match candidate with
  | [] => None
  | c :: parent =>
      if c =? 46 then match m !! parent with Some w => Some w | None => wildcard_above m parent end
      else wildcard_above m parent
  end.
Definition wildcard_lookup (m : WildcardMap) (domain : str) : option WildcardAnswer :=
  wildcard_above m (to_ascii_lowercase domain).

(** ** The reverse names *)

Abbreviation PtrMap := (gmap IpAddr (str * Z)).

Definition ptr_from (records : list LocalDnsRecord) (default_domain : option str) : PtrMap :=
  foldl (λ m r, <[lr_ip r := (fqdn r default_domain, ttl_or_default r)]> m) ∅
    (List.filter (λ r, negb (is_wildcard r)) records).

(** ** The cache *)

Definition local_data (ip : IpAddr) : CachedData := IpAddresses (mkAddresses [ip] None).

(** [preload_local_records_into_cache]. *)
Definition preload (at_ : nat * Z) (records : list LocalDnsRecord) (default_domain : option str) : list Step :=
  (λ r, (at_, OpInsertPermanent (utf8 (fqdn r default_domain)) (record_type_of (lr_type r))
           (local_data (lr_ip r)) (ttl_or_default r)))
    <$> List.filter (λ r, negb (is_wildcard r)) records.

(** ** What is live *)

(** [LiveRecordSinks]: the maps the resolvers answer from, and what was done to the cache. *)
Record Live := mkLive { live_ptr : option PtrMap; live_cache : option (list Step); live_wildcard : option WildcardMap }.

Definition find_last (p : LocalDnsRecord → bool) (records : list LocalDnsRecord) : option LocalDnsRecord :=
  find p (rev records).

Definition same_name (changed : LocalDnsRecord) (local_domain : option str) (r : LocalDnsRecord) : bool :=
  bool_decide (lr_type r = lr_type changed) && has_fqdn r (fqdn changed local_domain) local_domain.

Definition refresh_wildcard (changed : LocalDnsRecord) (records : list LocalDnsRecord) (local_domain : option str)
    (m : WildcardMap) : WildcardMap :=
  match wildcard_suffix changed local_domain with
  | None => m
  | Some suffix =>
      match find_last (same_name changed local_domain) records with
      | Some owner => register_in m suffix (lr_type owner) (lr_ip owner) (ttl_or_default owner)
      | None => wildcard_unregister m suffix (lr_type changed)
      end
  end.

Definition refresh_ptr (changed : LocalDnsRecord) (records : list LocalDnsRecord) (local_domain : option str)
    (m : PtrMap) : PtrMap :=
  match find_last (λ r, negb (is_wildcard r) && bool_decide (lr_ip r = lr_ip changed)) records with
  | Some owner => <[lr_ip changed := (fqdn owner local_domain, ttl_or_default owner)]> m
  | None => delete (lr_ip changed) m
  end.

Definition refresh_cache (at_ : nat * Z) (changed : LocalDnsRecord) (records : list LocalDnsRecord)
    (local_domain : option str) (ops : list Step) : list Step :=
  let name := utf8 (fqdn changed local_domain) in
  let t := record_type_of (lr_type changed) in
  ops ++ [(at_, OpRemoveRecord name t None)]
  ++ match find_last (same_name changed local_domain) records with
     | Some owner => [(at_, OpInsertPermanent name t (local_data (lr_ip owner)) (ttl_or_default owner))]
     | None => []
     end.

(** [LiveRecordSinks::refresh]. *)
Definition refresh (at_ : nat * Z) (changed : LocalDnsRecord) (records : list LocalDnsRecord)
    (local_domain : option str) (s : Live) : Live :=
  if is_wildcard changed then
    mkLive (live_ptr s) (live_cache s) (refresh_wildcard changed records local_domain <$> live_wildcard s)
  else
    mkLive (refresh_ptr changed records local_domain <$> live_ptr s)
      (refresh_cache at_ changed records local_domain <$> live_cache s) (live_wildcard s).

(** ** The use cases *)

Definition local_validate (r : LocalDnsRecord) (local_domain : option str) : DomainError + unit :=
  let map_err (f : string → DomainError) (x : string + unit) := match x with inl e => inl (f e) | inr u => inr u end in
  _ ← map_err Error.InvalidDomainName (validate_hostname (lr_hostname r));
  _ ← match lr_domain r with
      | Some d => map_err Error.InvalidDomainName (validate_domain d)
      | None => inr ()
      end;
  _ ← map_err Error.InvalidIpAddress (validate_address (lr_type r) (lr_ip r));
  if is_wildcard r && bool_decide (wildcard_suffix r local_domain = None) then
    inl (Error.InvalidDomainName
      "A wildcard record needs a domain to anchor it: set the domain field or dns.local_domain")
  else inr ().

Definition record_not_found (id : Z) : DomainError :=
  Error.NotFound ("Record with id " +:+ pretty id +:+ " not found").
Definition save_failed (e : string) : DomainError := Error.IoError ("Failed to save configuration: " +:+ e).

(** The configuration the use cases share and what is live. *)
Record Locals := mkLocals { records : list LocalDnsRecord; local_domain : option str; sinks : Live }.

(** [save] is the text of the error of the save, if it failed. *)
Definition create_record (at_ : nat * Z) (save : option string) (r : LocalDnsRecord) (s : Locals)
    : Locals * (DomainError + (LocalDnsRecord * nat)) :=
  match local_validate r (local_domain s) with
  | inl e => (s, inl e)
  | inr _ =>
      let pushed := records s ++ [r] in
      match save with
      | Some e => (mkLocals (removelast pushed) (local_domain s) (sinks s), inl (save_failed e))
      | None =>
          (mkLocals pushed (local_domain s) (refresh at_ r pushed (local_domain s) (sinks s)),
           inr (r, (length pushed - 1)%nat))
      end
  end.

Definition record_index (id : Z) (rs : list LocalDnsRecord) : option nat :=
  if (0 <=? id) && (id <? Z.of_nat (length rs)) then Some (Z.to_nat id) else None.

Definition delete_record (at_ : nat * Z) (save : option string) (id : Z) (s : Locals)
    : Locals * (DomainError + LocalDnsRecord) :=
  match (i ← record_index id (records s); r ← records s !! i; Some (i, r)) with
  | None => (s, inl (record_not_found id))
  | Some (i, removed) =>
      let rest := delete i (records s) in
      match save with
      | Some e => (mkLocals (take i rest ++ removed :: drop i rest) (local_domain s) (sinks s), inl (save_failed e))
      | None =>
          (mkLocals rest (local_domain s) (refresh at_ removed rest (local_domain s) (sinks s)), inr removed)
      end
  end.

Definition update_record (at_ : nat * Z) (save : option string) (id : Z) (r : LocalDnsRecord) (s : Locals)
    : Locals * (DomainError + (LocalDnsRecord * LocalDnsRecord)) :=
  match local_validate r (local_domain s) with
  | inl e => (s, inl e)
  | inr _ =>
      match (i ← record_index id (records s); old ← records s !! i; Some (i, old)) with
      | None => (s, inl (record_not_found id))
      | Some (i, old) =>
          let replaced := <[i := r]> (records s) in
          match save with
          | Some e => (mkLocals (<[i := old]> replaced) (local_domain s) (sinks s), inl (save_failed e))
          | None =>
              let live := refresh at_ old replaced (local_domain s) (sinks s) in
              (mkLocals replaced (local_domain s) (refresh at_ r replaced (local_domain s) live), inr (r, old))
          end
      end
  end.

(** Start-up: everything is loaded from the configuration. *)
Definition load (at_ : nat * Z) (rs : list LocalDnsRecord) (domain : option str) : Locals :=
  mkLocals rs domain
    (mkLive (Some (ptr_from rs domain)) (Some (preload at_ rs domain)) (Some (wildcards_from rs domain))).
