(* ===== verification/LocalRecordsSpec.v ===== *)
(** Local records after any changes are those a restart would load. *)

From Stdlib Require Import String.
From stdpp Require Import pretty.
From S2P Require Import Prelude Errors Text Net Protocol Routes CacheRecord CacheBloom.
From S2P Require Import CacheL1 Cache CacheInvariant CacheSafety CacheTrace LocalRecords.

#[local] Set Default Proof Using "Type".

(** ** Text and its bytes *)

Definition char_ok (c : Z) : Prop := 0 ≤ c < 0x110000.
Definition text_ok (s : str) : Prop := Forall char_ok s.

Lemma utf8_char_inj c c' l l' : char_ok c → char_ok c' →
  utf8_char c ++ l = utf8_char c' ++ l' → c = c' ∧ l = l'.
Proof.
  unfold char_ok, utf8_char. intros Hc Hc'.
  destruct (Z.ltb_spec c 0x80), (Z.ltb_spec c' 0x80); cbn [app];
    [by intros [= -> ->]| | |];
    destruct (Z.ltb_spec c 0x800), (Z.ltb_spec c' 0x800); cbn [app]; try lia;
    try destruct (Z.ltb_spec c 0x10000); try destruct (Z.ltb_spec c' 0x10000); cbn [app]; try lia;
    intros E; injection E; intros; subst; (split; [|done]) || exfalso; Z.to_euclidean_division_equations; lia.
Qed.

Lemma utf8_inj a b : text_ok a → text_ok b → utf8 a = utf8 b → a = b.
Proof.
  intros Ha. revert b. induction Ha as [|c a Hc _ IH]; intros b Hb; cbn.
  - destruct Hb as [|c b Hc _]; [done|]. cbn. intros E. exfalso.
    unfold utf8_char in E. repeat case_match; done.
  - destruct Hb as [|c' b Hc' Hb]; cbn.
    + intros E. exfalso. unfold utf8_char in E. repeat case_match; done.
    + intros [-> E]%utf8_char_inj; [|done..]. f_equal. by apply IH.
Qed.

Lemma lower_utf8 s : text_ok s → lower_byte <$> utf8 s = utf8 (to_ascii_lowercase s).
Proof.
  induction 1 as [|c s Hc _ IH]; [done|]. cbn. unfold utf8 in *. cbn [mbind list_bind] in *.
  rewrite fmap_app, IH. f_equal. clear -Hc. unfold char_ok in Hc.
  assert (Hhi : ∀ b, 0x80 ≤ b → lower_byte b = b).
  { intros b Hb. unfold lower_byte. destruct (Z.leb_spec b 90); [lia|]. by rewrite andb_false_r. }
  destruct (Z.ltb_spec c 0x80) as [Hlt|Hge].
  - assert (Hl : lower_byte c < 0x80).
    { unfold lower_byte. destruct (Z.leb_spec 65 c), (Z.leb_spec c 90); cbn; lia. }
    unfold utf8_char. by rewrite (proj2 (Z.ltb_lt _ _) Hlt), (proj2 (Z.ltb_lt _ _) Hl).
  - rewrite (Hhi c Hge). unfold utf8_char. destruct (Z.ltb_spec c 0x80); [lia|].
    repeat case_match; cbn; rewrite ?Hhi; try done; Z.to_euclidean_division_equations; lia.
Qed.

Lemma text_ok_lower s : text_ok s → text_ok (to_ascii_lowercase s).
Proof.
  intros Hs. apply Forall_fmap. eapply Forall_impl; [exact Hs|]. unfold char_ok, lower_byte. cbn.
  intros c Hc. destruct (Z.leb_spec 65 c), (Z.leb_spec c 90); cbn; lia.
Qed.

Lemma eq_ignore_case_utf8 a b : text_ok a → text_ok b →
  eq_ignore_case (utf8 a) (utf8 b) = bool_decide (to_ascii_lowercase a = to_ascii_lowercase b).
Proof.
  intros Ha Hb. unfold eq_ignore_case. apply bool_decide_ext. rewrite !lower_utf8 by done. split; [|by intros ->].
  intros E. apply utf8_inj; [by apply text_ok_lower..|done].
Qed.

Lemma utf8_app a b : utf8 (a ++ b) = utf8 a ++ utf8 b.
Proof. apply bind_app. Qed.

(** ** Names *)

Definition record_ok (r : LocalDnsRecord) : Prop :=
  text_ok (lr_hostname r) ∧ (∀ d, lr_domain r = Some d → text_ok d) ∧ validate_address (lr_type r) (lr_ip r) = inr ().

Section names.
Context (domain : option str) (domain_ok : ∀ d, domain = Some d → text_ok d).
Implicit Types (r : LocalDnsRecord) (rs : list LocalDnsRecord).

Lemma domain_or_ok r d : record_ok r → domain_or r domain = Some d → text_ok d.
Proof using domain_ok. intros (_ & Hd & _). unfold domain_or. destruct (lr_domain r) eqn:E; [intros [= ->]; by apply Hd|apply domain_ok]. Qed.

Lemma fqdn_ok r : record_ok r → text_ok (fqdn r domain).
Proof using domain_ok.
  intros Hr. unfold fqdn. destruct (domain_or r domain) as [d|] eqn:E; [|by destruct Hr].
  apply Forall_app. split; [by destruct Hr|]. apply Forall_app. split; [by repeat constructor|].
  by apply (domain_or_ok r).
Qed.

Lemma lower_dot b : lower_byte b = 46 → b = 46.
Proof. unfold lower_byte. destruct (Z.leb_spec 65 b), (Z.leb_spec b 90); cbn; lia. Qed.

(** A name that reads as host, dot, domain when case is ignored is cut at that dot. *)
Lemma cut_at_dot (name host dom : bytes) :
  is_some_and (get_to name (length host)) (λ head, eq_ignore_case head host)
    && bool_decide (name !! length host = Some 46)
    && is_some_and (get_from name (length host + 1)) (λ tail, eq_ignore_case tail dom)
  = eq_ignore_case name (host ++ [46] ++ dom).
Proof.
  apply eq_true_iff_eq. unfold eq_ignore_case. rewrite !andb_true_iff, !bool_decide_eq_true, !fmap_app. cbn.
  unfold get_to, get_from. split.
  - intros [[H1 H2] H3]. destruct (_ <=? _)%nat eqn:E1; [|done]. destruct (_ + 1 <=? _)%nat eqn:E2; [|done].
    cbn in H1, H3. apply bool_decide_eq_true in H1, H3.
    rewrite <-(take_drop_middle _ _ _ H2), fmap_app. cbn. rewrite H1, <-H3. by replace (S (length host)) with (length host + 1)%nat by lia.
  - intros E. assert (Hl : length name = (length host + S (length dom))%nat).
    { rewrite <-(length_fmap lower_byte name), E, length_app. cbn. by rewrite !length_fmap. }
    rewrite !(proj2 (Nat.leb_le _ _)) by lia. cbn. rewrite !bool_decide_eq_true.
    assert (Hd : name !! length host = Some 46).
    { destruct (lookup_lt_is_Some_2 name (length host)) as [b Hb]; [lia|]. rewrite Hb. f_equal. apply lower_dot.
      assert (Hf : (lower_byte <$> name) !! length host = Some (lower_byte b)) by (by rewrite list_lookup_fmap, Hb).
      rewrite E, lookup_app_r in Hf by (rewrite length_fmap; done). rewrite length_fmap, Nat.sub_diag in Hf. by injection Hf. }
    split_and!; [|done|].
    + rewrite fmap_take, E, take_app_le by (by rewrite length_fmap). apply take_ge. by rewrite length_fmap.
    + rewrite fmap_drop, E, drop_app_ge by (rewrite length_fmap; lia). rewrite length_fmap.
      by replace (length host + 1 - length host)%nat with 1%nat by lia.
Qed.

Lemma has_fqdn_spec r name : record_ok r → text_ok name →
  has_fqdn r name domain = bool_decide (to_ascii_lowercase (fqdn r domain) = to_ascii_lowercase name).
Proof using domain_ok.
  intros Hr Hn. transitivity (eq_ignore_case (utf8 name) (utf8 (fqdn r domain))).
  - unfold has_fqdn, fqdn. destruct (domain_or r domain) as [d|]; [|done]. rewrite cut_at_dot.
    rewrite !utf8_app. done.
  - rewrite eq_ignore_case_utf8 by (by try apply fqdn_ok). by apply bool_decide_ext.
Qed.

(** A record is a wildcard exactly when its full name says so. *)
Lemma is_wildcard_fqdn r : is_wildcard r = is_wildcard_hostname (fqdn r domain).
Proof.
  unfold is_wildcard, is_wildcard_hostname, fqdn, starts_with. destruct (domain_or r domain) as [d|]; [|done].
  destruct (lr_hostname r) as [|a [|b h]]; cbn.
  - rewrite !bool_decide_false; [done|..]; naive_solver.
  - apply eq_true_iff_eq. rewrite !orb_true_iff, !bool_decide_eq_true. naive_solver.
  - apply eq_true_iff_eq. rewrite !orb_true_iff, !bool_decide_eq_true. naive_solver.
Qed.

Lemma lower_char c b : c < 65 → lower_byte b = c → b = c.
Proof. unfold lower_byte. intros ?. destruct (Z.leb_spec 65 b), (Z.leb_spec b 90); cbn; lia. Qed.

Lemma is_wildcard_hostname_lower a b : to_ascii_lowercase a = to_ascii_lowercase b →
  is_wildcard_hostname a = is_wildcard_hostname b.
Proof.
  assert (Hone : ∀ a b, to_ascii_lowercase a = to_ascii_lowercase b →
    is_wildcard_hostname a = true → is_wildcard_hostname b = true).
  { clear. intros a b E. unfold is_wildcard_hostname, starts_with. rewrite !orb_true_iff, !bool_decide_eq_true.
    unfold to_ascii_lowercase in E. intros [->|H].
    - left. destruct b as [|x [|]]; cbn in E; try discriminate E. injection E as E.
      symmetry in E. by rewrite (lower_char 42 x) by (lia || done).
    - right. destruct a as [|x [|y a]]; cbn in H; try discriminate H. injection H as -> ->.
      destruct b as [|x [|y b]]; cbn in E; try discriminate E. injection E as E1 E2 _. symmetry in E1, E2.
      cbn. by rewrite (lower_char 42 x), (lower_char 46 y) by (lia || done). }
  intros E. apply eq_true_iff_eq. split; apply Hone; done.
Qed.

Lemma strip_star s s' : is_wildcard_hostname s = true →
  to_ascii_lowercase <$> strip_prefix [42; 46] s = Some s' ↔ to_ascii_lowercase s = 42 :: 46 :: s'.
Proof.
  unfold strip_prefix, starts_with, is_wildcard_hostname. rewrite orb_true_iff, !bool_decide_eq_true.
  destruct s as [|x [|y s]]; cbn; [by intros _; rewrite bool_decide_false by done..|].
  intros [?|H]; [done|]. unfold starts_with in H. rewrite bool_decide_eq_true in H. cbn in H. injection H as -> ->.
  rewrite bool_decide_true by done. cbn. rewrite drop_0. change (lower_byte <$> s) with (to_ascii_lowercase s).
  split; congruence.
Qed.

(** Which of the records bear the name of a changed one. *)
Lemma same_name_wildcard changed r suffix : record_ok changed → record_ok r →
  wildcard_suffix changed domain = Some suffix →
  same_name changed domain r = bool_decide (lr_type r = lr_type changed) && bool_decide (wildcard_suffix r domain = Some suffix).
Proof using domain_ok.
  intros Hc Hr. unfold wildcard_suffix, same_name. destruct (is_wildcard changed) eqn:Ew; cbn; [|done]. intros Es.
  f_equal. rewrite has_fqdn_spec by (by try apply fqdn_ok). apply bool_decide_ext.
  rewrite is_wildcard_fqdn in Ew. rewrite strip_star in Es by done. rewrite Es. split.
  - intros E. rewrite is_wildcard_fqdn, (is_wildcard_hostname_lower _ (fqdn changed domain)), Ew by (by rewrite E, Es).
    cbn. apply strip_star; [|done].
    rewrite (is_wildcard_hostname_lower _ (fqdn changed domain)); [done|by rewrite E, Es].
  - destruct (is_wildcard r) eqn:Ewr; cbn; [|done]. intros E. apply strip_star in E; [done|].
    by rewrite <-is_wildcard_fqdn.
Qed.

Lemma same_name_exact changed r : record_ok changed → record_ok r → is_wildcard changed = false →
  same_name changed domain r = bool_decide (lr_type r = lr_type changed) && negb (is_wildcard r)
    && bool_decide (to_ascii_lowercase (fqdn r domain) = to_ascii_lowercase (fqdn changed domain)).
Proof using domain_ok.
  intros Hc Hr Hw. unfold same_name. rewrite <-andb_assoc. f_equal.
  rewrite has_fqdn_spec by (by try apply fqdn_ok). case_bool_decide as E; [|by rewrite andb_false_r].
  by rewrite is_wildcard_fqdn, (is_wildcard_hostname_lower _ _ E), <-is_wildcard_fqdn, Hw.
Qed.

End names.

(** ** The last record of a kind *)

Lemma find_last_snoc p rs r : find_last p (rs ++ [r]) = if p r then Some r else find_last p rs.
Proof. unfold find_last. rewrite rev_app_distr. done. Qed.

Lemma find_last_ext p q rs : (∀ r, r ∈ rs → p r = q r) → find_last p rs = find_last q rs.
Proof.
  induction rs as [|r rs IH] using rev_ind; [done|]. intros Hpq. rewrite !find_last_snoc, Hpq by set_solver.
  rewrite IH; [done|]. intros x Hx. apply Hpq. set_solver.
Qed.

Lemma find_last_elem p rs r : find_last p rs = Some r → r ∈ rs ∧ p r = true.
Proof.
  intros Hf. apply find_some in Hf as [Hin Hp]. split; [|done]. apply list_elem_of_In. by apply in_rev.
Qed.

Lemma filter_snoc {A} (p : A → bool) l x : List.filter p (l ++ [x]) = List.filter p l ++ (if p x then [x] else []).
Proof. by rewrite List.filter_app. Qed.

(** ** What the records say *)

Section restart.
Context (domain : option str) (domain_ok : ∀ d, domain = Some d → text_ok d).
Implicit Types (r : LocalDnsRecord) (rs : list LocalDnsRecord).

Definition has_ip (ip : IpAddr) r : bool := negb (is_wildcard r) && bool_decide (lr_ip r = ip).
Definition ptr_at rs (ip : IpAddr) : option (str * Z) :=
  (λ r, (fqdn r domain, ttl_or_default r)) <$> find_last (has_ip ip) rs.

Lemma ptr_from_spec rs ip : ptr_from rs domain !! ip = ptr_at rs ip.
Proof.
  unfold ptr_from, ptr_at. induction rs as [|r rs IH] using rev_ind; [done|].
  rewrite filter_snoc, find_last_snoc. unfold has_ip at 1. destruct (is_wildcard r); cbn [negb andb].
  { by rewrite app_nil_r. }
  rewrite foldl_snoc, lookup_insert, IH. case_decide; [by rewrite bool_decide_true|by rewrite bool_decide_false].
Qed.

Lemma refresh_ptr_spec changed rs m ip :
  refresh_ptr changed rs domain m !! ip = if bool_decide (lr_ip changed = ip) then ptr_at rs ip else m !! ip.
Proof.
  unfold refresh_ptr, ptr_at. change (find_last _ rs) with (find_last (has_ip (lr_ip changed)) rs) at 1.
  case_bool_decide as E; [subst|].
  - destruct (find_last _ rs); cbn; by rewrite ?lookup_insert_eq, ?lookup_delete_eq.
  - destruct (find_last _ rs); by rewrite ?lookup_insert_ne, ?lookup_delete_ne.
Qed.

(** *** Wildcards *)

Definition covers (suffix : str) (t : LocalRecordType) r : bool :=
  bool_decide (lr_type r = t) && bool_decide (wildcard_suffix r domain = Some suffix).
Definition wildcard_at rs (suffix : str) (t : LocalRecordType) : option (IpAddr * Z) :=
  (λ r, (lr_ip r, ttl_or_default r)) <$> find_last (covers suffix t) rs.

Definition pick (w : WildcardAnswer) (t : LocalRecordType) : option (IpAddr * Z) :=
  match t with LocalA => wa_a w | LocalAAAA => wa_aaaa w end.
Definition slot (m : WildcardMap) (suffix : str) (t : LocalRecordType) : option (IpAddr * Z) :=
  pick (default wildcard_default (m !! suffix)) t.
Definition compact (m : WildcardMap) : Prop := ∀ suffix w, m !! suffix = Some w → wildcard_is_empty w = false.

Lemma pick_put w t x t' : pick (wildcard_put w t x) t' = if bool_decide (t = t') then x else pick w t'.
Proof. by destruct t, t'. Qed.

Lemma slots_eq m m' : compact m → compact m' → (∀ suffix t, slot m suffix t = slot m' suffix t) → m = m'.
Proof.
  intros Hm Hm' Hs. apply map_eq. intros k. pose proof (Hs k LocalA) as Ha. pose proof (Hs k LocalAAAA) as Haaaa.
  unfold slot in *. cbn in *. destruct (m !! k) as [[a b]|] eqn:E, (m' !! k) as [[a' b']|] eqn:E'; cbn in *; subst.
  - done.
  - by apply Hm in E.
  - by apply Hm' in E'.
  - done.
Qed.

Lemma register_spec m k t ip ttl : validate_address t ip = inr () → to_ascii_lowercase k = k → compact m →
  compact (register_in m k t ip ttl) ∧
  ∀ suffix t', slot (register_in m k t ip ttl) suffix t'
    = if bool_decide (k = suffix) && bool_decide (t = t') then Some (ip, ttl) else slot m suffix t'.
Proof.
  intros Hv Hk Hm. unfold register_in. rewrite Hv, Hk. split.
  - intros suffix w. rewrite lookup_insert. case_decide; [|apply Hm]. intros [= <-].
    unfold wildcard_is_empty, wildcard_set. destruct t; cbn; [done|]. by destruct (wa_a _).
  - intros suffix t'. unfold slot. rewrite lookup_insert. case_decide as E.
    + subst. cbn. unfold wildcard_set. rewrite pick_put, (bool_decide_true (suffix = suffix)) by done. cbn. by case_bool_decide.
    + by rewrite (bool_decide_false (k = suffix)).
Qed.

Lemma unregister_spec m k t : to_ascii_lowercase k = k → compact m →
  compact (wildcard_unregister m k t) ∧
  ∀ suffix t', slot (wildcard_unregister m k t) suffix t'
    = if bool_decide (k = suffix) && bool_decide (t = t') then None else slot m suffix t'.
Proof.
  intros Hk Hm. unfold wildcard_unregister. rewrite Hk. destruct (m !! k) as [w|] eqn:E.
  - destruct (wildcard_is_empty (wildcard_clear w t)) eqn:Ee.
    + split; [intros suffix w'; rewrite lookup_delete; case_decide; [done|apply Hm]|].
      intros suffix t'. unfold slot. rewrite lookup_delete. case_decide as Es; [subst|by rewrite bool_decide_false].
      rewrite E. cbn. rewrite (bool_decide_true (suffix = suffix)) by done. cbn. case_bool_decide; [by destruct t'|]. clear E Hm Hk.
      by destruct w as [[?|] [?|]], t, t'; cbn in *.
    + split; [intros suffix w'; rewrite lookup_insert; case_decide; [by intros [= <-]|apply Hm]|].
      intros suffix t'. unfold slot. rewrite lookup_insert. case_decide as Es; [subst|by rewrite bool_decide_false].
      rewrite E. cbn. unfold wildcard_clear. rewrite pick_put, (bool_decide_true (suffix = suffix)) by done. cbn. by case_bool_decide.
  - split; [done|]. intros suffix t'. case_bool_decide; [subst|done]. cbn. case_bool_decide; [|done].
    unfold slot. rewrite E. by destruct t'.
Qed.

Lemma suffix_lower r suffix : wildcard_suffix r domain = Some suffix → to_ascii_lowercase suffix = suffix.
Proof.
  unfold wildcard_suffix. destruct (negb _); [done|]. intros (s & _ & ->)%fmap_Some.
  unfold to_ascii_lowercase. rewrite <-list_fmap_compose. apply list_fmap_ext. intros ? ? _. apply lower_byte_idem.
Qed.

Lemma suffix_wildcard r suffix : wildcard_suffix r domain = Some suffix → is_wildcard r = true.
Proof. unfold wildcard_suffix. by destruct (is_wildcard r). Qed.

Lemma wildcards_from_spec rs : Forall record_ok rs →
  compact (wildcards_from rs domain) ∧ ∀ suffix t, slot (wildcards_from rs domain) suffix t = wildcard_at rs suffix t.
Proof.
  unfold wildcards_from, wildcard_at. induction rs as [|r rs IH] using rev_ind; intros Hok.
  { cbn [List.filter foldl]. split; [by intros ? ? ?%lookup_empty_Some|].
    intros suffix t. unfold slot. rewrite lookup_empty. by destruct t. }
  apply Forall_app in Hok as [Hrs [Hr _]%Forall_cons]. destruct (IH Hrs) as [Hc Hs]. rewrite filter_snoc.
  assert (Hskip : ∀ suffix t, wildcard_suffix r domain = None → find_last (covers suffix t) (rs ++ [r]) = find_last (covers suffix t) rs).
  { intros suffix t E. rewrite find_last_snoc. unfold covers at 1. by rewrite E, andb_false_r. }
  destruct (is_wildcard r) eqn:Ew.
  - rewrite foldl_snoc. destruct (wildcard_suffix r domain) as [k|] eqn:Ek.
    + destruct (register_spec _ k (lr_type r) (lr_ip r) (ttl_or_default r) (proj2 (proj2 Hr)) (suffix_lower _ _ Ek) Hc) as [Hc' Hs'].
      split; [done|]. intros suffix t. rewrite Hs', find_last_snoc, Hs. unfold covers at 2. rewrite Ek, andb_comm.
      assert (Hb : bool_decide (k = suffix) = bool_decide (Some k = Some suffix)) by (apply bool_decide_ext; naive_solver).
      rewrite Hb. by destruct (_ && _).
    + split; [done|]. intros suffix t. by rewrite Hskip.
  - rewrite app_nil_r. split; [done|]. intros suffix t. rewrite Hskip; [done|]. unfold wildcard_suffix. by rewrite Ew.
Qed.

Lemma refresh_wildcard_spec changed rs m : record_ok changed → Forall record_ok rs → compact m →
  compact (refresh_wildcard changed rs domain m) ∧
  ∀ suffix t, slot (refresh_wildcard changed rs domain m) suffix t
    = if covers suffix t changed then wildcard_at rs suffix t else slot m suffix t.
Proof using domain_ok.
  intros Hch Hok Hm. unfold refresh_wildcard, covers. destruct (wildcard_suffix changed domain) as [k|] eqn:Ek; last first.
  { split; [done|]. intros suffix t. by rewrite andb_false_r. }
  assert (Hlast : find_last (same_name changed domain) rs = find_last (covers k (lr_type changed)) rs).
  { apply find_last_ext. intros r Hr. rewrite Forall_forall in Hok.
    by rewrite (same_name_wildcard domain domain_ok changed r k) by auto. }
  pose proof (suffix_lower _ _ Ek) as Hk. rewrite Hlast.
  assert (Hcond : ∀ suffix t, bool_decide (lr_type changed = t) && bool_decide (Some k = Some suffix)
    = bool_decide (k = suffix) && bool_decide (lr_type changed = t)).
  { intros suffix t. rewrite andb_comm. f_equal. apply bool_decide_ext. naive_solver. }
  destruct (find_last (covers k (lr_type changed)) rs) as [owner|] eqn:Ef.
  - destruct (find_last_elem _ _ _ Ef) as [Hin Hcov]. unfold covers in Hcov.
    apply andb_true_iff in Hcov as [Ht%bool_decide_eq_true _]. rewrite Forall_forall in Hok.
    destruct (register_spec m k (lr_type owner) (lr_ip owner) (ttl_or_default owner)) as [Hc Hs];
      [apply (Hok owner Hin)|done..|]. split; [done|]. intros suffix t. rewrite Hs, Ht, Hcond.
    destruct (bool_decide (k = suffix)) eqn:E1, (bool_decide (lr_type changed = t)) eqn:E2; cbn; try done.
    apply bool_decide_eq_true in E1, E2. subst. unfold wildcard_at. by rewrite Ef.
  - destruct (unregister_spec m k (lr_type changed) Hk Hm) as [Hc Hs]. split; [done|]. intros suffix t.
    rewrite Hs, Hcond. destruct (bool_decide (k = suffix)) eqn:E1, (bool_decide (lr_type changed = t)) eqn:E2; cbn; try done.
    apply bool_decide_eq_true in E1, E2. subst. unfold wildcard_at. by rewrite Ef.
Qed.

(** *** The cache *)

Definition has_name (d : bytes) (t : RecordType) r : bool :=
  negb (is_wildcard r)
  && bool_decide (normalize_domain (utf8 (fqdn r domain)) = d ∧ record_type_of (lr_type r) = t).
Definition cache_at rs (d : bytes) (t : RecordType) : option (CachedData * Z) :=
  (λ r, (local_data (lr_ip r), ttl_or_default r)) <$> find_last (has_name d t) rs.

Lemma local_spec_app a b d t old : local_spec (a ++ b) d t old = local_spec b d t (local_spec a d t old).
Proof. revert old. induction a as [|[[? ?] op] a IH]; intros old; cbn; [done|apply IH]. Qed.

Lemma preload_spec at_ rs d t : local_spec (preload at_ rs domain) d t None = cache_at rs d t.
Proof.
  unfold preload, cache_at. induction rs as [|r rs IH] using rev_ind; [done|].
  rewrite filter_snoc, fmap_app, local_spec_app, IH, find_last_snoc. unfold has_name at 2.
  destruct at_ as [thread now]. destruct (is_wildcard r); cbn; [done|].
  case_decide as E; [by rewrite bool_decide_true|by rewrite bool_decide_false].
Qed.

Lemma normalize_lower s : text_ok s → normalize_domain (utf8 s) = utf8 (to_ascii_lowercase s).
Proof.
  intros Hs. rewrite <-lower_utf8 by done. unfold normalize_domain. destruct (forallb _ _) eqn:E; [|done].
  symmetry. rewrite <-(list_fmap_id (utf8 s)) at 2. apply list_fmap_ext. intros i b Hb.
  rewrite forallb_forall in E. specialize (E b (proj1 (list_elem_of_In _ _) (list_elem_of_lookup_2 _ _ _ Hb))).
  unfold is_ascii_uppercase in E. unfold lower_byte. by destruct (_ && _).
Qed.

Lemma refresh_cache_spec at_ changed rs ops d t : record_ok changed → Forall record_ok rs →
  is_wildcard changed = false →
  local_spec (refresh_cache at_ changed rs domain ops) d t None
  = if has_name d t changed then cache_at rs d t else local_spec ops d t None.
Proof using domain_ok.
  intros Hc Hok Hw. unfold refresh_cache, has_name. rewrite Hw. cbn [negb andb].
  assert (Hlast : find_last (same_name changed domain) rs
    = find_last (has_name (normalize_domain (utf8 (fqdn changed domain))) (record_type_of (lr_type changed))) rs).
  { apply find_last_ext. intros r Hr. rewrite Forall_forall in Hok. specialize (Hok r Hr).
    rewrite (same_name_exact domain domain_ok) by done. unfold has_name.
    rewrite !normalize_lower by (by apply fqdn_ok). rewrite (andb_comm (bool_decide (lr_type r = _))), <-andb_assoc.
    f_equal. apply eq_true_iff_eq. rewrite andb_true_iff, !bool_decide_eq_true. split.
    - by intros [-> ->].
    - intros [E1 E2]. split; [by destruct (lr_type r), (lr_type changed)|].
      by apply utf8_inj; [apply text_ok_lower, fqdn_ok..|]. }
  rewrite Hlast, local_spec_app. clear Hlast. destruct at_ as [thread now]. cbn [app local_spec local_step].
  case_decide as E; [rewrite bool_decide_true by done|rewrite bool_decide_false by done];
    [destruct E as [<- <-]; unfold cache_at|]; destruct (find_last _ rs) as [owner|]; cbn; [|done| |done].
  - by rewrite decide_True.
  - by rewrite decide_False.
Qed.

(** ** Changes *)

(** The records differ in the changed ones only. *)
Definition changes rs rs' (changed : list LocalDnsRecord) : Prop :=
  ∀ p, (∀ r, r ∈ changed → p r = false) → List.filter p rs' = List.filter p rs.

Lemma find_last_filter p rs : find_last p rs = last (List.filter p rs).
Proof.
  induction rs as [|r rs IH] using rev_ind; [done|]. rewrite find_last_snoc, filter_snoc.
  destruct (p r); [by rewrite last_snoc|]. by rewrite app_nil_r.
Qed.

Lemma changes_find rs rs' changed p : changes rs rs' changed → (∀ r, r ∈ changed → p r = false) →
  find_last p rs' = find_last p rs.
Proof. intros Hch Hp. by rewrite !find_last_filter, (Hch p Hp). Qed.

(** What is live is right for the keys that no record still to be refreshed bears. *)
Record agree rs (changed : list LocalDnsRecord) (s : Live) : Prop := {
  ag_ptr : ∃ m, live_ptr s = Some m ∧ ∀ ip, (∀ r, r ∈ changed → has_ip ip r = false) → m !! ip = ptr_at rs ip;
  ag_cache : ∃ ops, live_cache s = Some ops ∧ ∀ d t, (∀ r, r ∈ changed → has_name d t r = false) →
    local_spec ops d t None = cache_at rs d t;
  ag_wildcard : ∃ m, live_wildcard s = Some m ∧ compact m ∧ ∀ suffix t,
    (∀ r, r ∈ changed → covers suffix t r = false) → slot m suffix t = wildcard_at rs suffix t;
}.

Lemma agree_changes rs rs' changed s : agree rs [] s → changes rs rs' changed → agree rs' changed s.
Proof.
  intros [(m & Em & Hm) (ops & Eo & Ho) (w & Ew & Hc & Hw)] Hch. split.
  - exists m. split; [done|]. intros ip Hip. rewrite Hm by (by intros ? ?%not_elem_of_nil).
    unfold ptr_at. by rewrite (changes_find _ _ _ _ Hch Hip).
  - exists ops. split; [done|]. intros d t Hd. rewrite Ho by (by intros ? ?%not_elem_of_nil).
    unfold cache_at. by rewrite (changes_find _ _ _ _ Hch Hd).
  - exists w. split_and!; [done..|]. intros suffix t Hs. rewrite Hw by (by intros ? ?%not_elem_of_nil).
    unfold wildcard_at. by rewrite (changes_find _ _ _ _ Hch Hs).
Qed.

Lemma covers_not_wildcard suffix t r : is_wildcard r = false → covers suffix t r = false.
Proof. intros Hw. unfold covers, wildcard_suffix. rewrite Hw. by rewrite andb_false_r. Qed.

Lemma refresh_agree at_ rs changed r s : Forall record_ok rs → record_ok r →
  agree rs (r :: changed) s → agree rs changed (refresh at_ r rs domain s).
Proof using domain_ok.
  intros Hok Hr [(m & Em & Hm) (ops & Eo & Ho) (w & Ew & Hc & Hw)]. unfold refresh.
  destruct (is_wildcard r) eqn:Ewr; split; cbn; rewrite ?Em, ?Eo, ?Ew; cbn.
  - exists m. split; [done|]. intros ip Hip. apply Hm. intros x [->|?]%elem_of_cons; [|by apply Hip].
    unfold has_ip. by rewrite Ewr.
  - exists ops. split; [done|]. intros d t Hd. apply Ho. intros x [->|?]%elem_of_cons; [|by apply Hd].
    unfold has_name. by rewrite Ewr.
  - destruct (refresh_wildcard_spec r rs w Hr Hok Hc) as [Hc' Hs]. eexists. split_and!; [done..|].
    intros suffix t Hst. rewrite Hs. destruct (covers suffix t r) eqn:Ec; [done|]. apply Hw.
    intros x [->|?]%elem_of_cons; [done|by apply Hst].
  - eexists. split; [done|]. intros ip Hip. rewrite refresh_ptr_spec. case_bool_decide as E; [done|]. apply Hm.
    intros x [->|?]%elem_of_cons; [|by apply Hip]. unfold has_ip. by rewrite bool_decide_false, andb_false_r.
  - eexists. split; [done|]. intros d t Hd. rewrite refresh_cache_spec by done.
    destruct (has_name d t r) eqn:En; [done|]. apply Ho. intros x [->|?]%elem_of_cons; [done|by apply Hd].
  - exists w. split_and!; [done..|]. intros suffix t Hst. apply Hw. intros x [->|?]%elem_of_cons; [|by apply Hst].
    by apply covers_not_wildcard.
Qed.

End restart.

(** ** The use cases *)

Inductive RecordOp := Create (r : LocalDnsRecord) | Delete (id : Z) | Update (id : Z) (r : LocalDnsRecord).

(** What an operation leaves, and its error. *)
Definition run_record_op (s : Locals) (step : nat * Z * option string * RecordOp) : Locals * option DomainError :=
  let '(at_, save, op) := step in
  let error {A} (x : DomainError + A) := match x with inl e => Some e | inr _ => None end in
  match op with
  | Create r => let '(s, x) := create_record at_ save r s in (s, error x)
  | Delete id => let '(s, x) := delete_record at_ save id s in (s, error x)
  | Update id r => let '(s, x) := update_record at_ save id r s in (s, error x)
  end.

Definition op_text_ok (step : nat * Z * option string * RecordOp) : Prop :=
  match step.2 with
  | Create r | Update _ r => text_ok (lr_hostname r) ∧ ∀ d, lr_domain r = Some d → text_ok d
  | Delete _ => True
  end.

Definition in_step (s : Locals) : Prop :=
  Forall record_ok (records s) ∧ agree (local_domain s) (records s) [] (sinks s).

Lemma validated_ok r domain u : text_ok (lr_hostname r) → (∀ d, lr_domain r = Some d → text_ok d) →
  local_validate r domain = inr u → record_ok r.
Proof.
  intros Hh Hd. unfold local_validate. rewrite sum_bind_inr. intros (_ & _ & E). rewrite sum_bind_inr in E.
  destruct E as (_ & _ & E). rewrite sum_bind_inr in E. destruct E as ([] & Ev & _). split_and!; [done..|].
  by destruct (validate_address _ _) as [|[]].
Qed.

Lemma changes_push rs r : changes rs (rs ++ [r]) [r].
Proof. intros p Hp. rewrite filter_snoc, Hp by by left. apply app_nil_r. Qed.

Lemma changes_delete rs i r : rs !! i = Some r → changes rs (delete i rs) [r].
Proof.
  intros Hi p Hp. rewrite delete_take_drop. rewrite <-(take_drop_middle _ _ _ Hi) at 3.
  rewrite !List.filter_app. cbn. by rewrite Hp by by left.
Qed.

Lemma changes_replace rs i old r : rs !! i = Some old → changes rs (<[i := r]> rs) [old; r].
Proof.
  intros Hi p Hp. pose proof (lookup_lt_Some _ _ _ Hi) as Hl.
  rewrite insert_take_drop by done. rewrite <-(take_drop_middle _ _ _ Hi) at 3.
  rewrite !List.filter_app. cbn. rewrite !Hp by set_solver. done.
Qed.

Lemma put_back (rs : list LocalDnsRecord) i r : rs !! i = Some r →
  take i (delete i rs) ++ r :: drop i (delete i rs) = rs.
Proof.
  intros Hi. pose proof (lookup_lt_Some _ _ _ Hi) as Hl. rewrite delete_take_drop.
  rewrite take_app_le, drop_app_le by (rewrite length_take; lia).
  rewrite take_take, Nat.min_id, skipn_firstn_comm, Nat.sub_diag. cbn. by apply take_drop_middle.
Qed.

Lemma record_index_Some id rs i : record_index id rs = Some i → is_Some (rs !! i).
Proof.
  unfold record_index. destruct (_ && _) eqn:E; [|done]. intros [= <-]. apply lookup_lt_is_Some.
  apply andb_true_iff in E as [?%Z.leb_le ?%Z.ltb_lt]. lia.
Qed.

(** An operation keeps what is live in step; one that fails changes nothing. *)
Lemma run_record_op_ok s step : (∀ d, local_domain s = Some d → text_ok d) → op_text_ok step → in_step s →
  let '(s', e) := run_record_op s step in
  local_domain s' = local_domain s ∧ in_step s' ∧ (is_Some e → s' = s).
Proof.
  intros Hd Hop [Hok Hag]. destruct step as [[at_ save] op]. destruct s as [rs domain live]. cbn [records local_domain sinks in_step op_text_ok snd] in *.
  assert (Hin : in_step (mkLocals rs domain live)) by done.
  destruct op as [r|id|id r]; cbn [run_record_op].
  - unfold create_record. cbn [records local_domain sinks]. destruct Hop as [Hh Hrd].
    destruct (local_validate r domain) as [e|u] eqn:Ev; [by split_and!|]. pose proof (validated_ok _ _ _ Hh Hrd Ev) as Hr.
    destruct save as [e|]; cbn.
    { rewrite removelast_last. by split_and!. }
    assert (Hok' : Forall record_ok (rs ++ [r])) by (by apply Forall_app; split; [|apply Forall_singleton]).
    split_and!; [done| |by intros []]. split; [done|]. apply refresh_agree; [done..|].
    eapply agree_changes; [done|apply changes_push].
  - unfold delete_record. cbn [records local_domain sinks]. destruct (record_index id rs) as [i|] eqn:Ei; cbn; [|by split_and!].
    destruct (record_index_Some _ _ _ Ei) as [r Hr]. rewrite Hr. cbn.
    destruct save as [e|]; cbn.
    { rewrite (put_back _ _ _ Hr). by split_and!. }
    assert (Hok' : Forall record_ok (delete i rs)) by (by apply Forall_delete).
    split_and!; [done| |by intros []]. split; [done|]. apply refresh_agree; [done..| |].
    { rewrite Forall_forall in Hok. apply Hok. by eapply list_elem_of_lookup_2. }
    eapply agree_changes; [done|by apply changes_delete].
  - unfold update_record. cbn [records local_domain sinks]. destruct Hop as [Hh Hrd].
    destruct (local_validate r domain) as [e|u] eqn:Ev; [by split_and!|]. pose proof (validated_ok _ _ _ Hh Hrd Ev) as Hr.
    destruct (record_index id rs) as [i|] eqn:Ei; cbn; [|by split_and!].
    destruct (record_index_Some _ _ _ Ei) as [old Hold]. rewrite Hold. cbn. destruct save as [e|]; cbn.
    { rewrite list_insert_insert_eq, list_insert_id by done. by split_and!. }
    assert (Hok' : Forall record_ok (<[i := r]> rs)) by (by apply Forall_insert).
    assert (Ho : record_ok old) by (rewrite Forall_forall in Hok; apply Hok; by eapply list_elem_of_lookup_2).
    split_and!; [done| |by intros []]. split; [done|]. do 2 (apply refresh_agree; [done..|]).
    eapply agree_changes; [done|by apply changes_replace].
Qed.


(** ** Example *)

Definition printer (last : Z) : LocalDnsRecord :=
  mkLocal (of_string "Printer") None (V4 (0x0A000000 + last)) LocalA None.
Definition home_wildcard : LocalDnsRecord :=
  mkLocal (of_string "*") (Some (of_string "Home.lan")) (V4 0x0A000064) LocalA (Some 60).
Definition record_changes : list (nat * Z * option string * RecordOp) :=
  [((0%nat, 1), None, Create (printer 2)); ((1%nat, 2), None, Create home_wildcard);
   ((0%nat, 3), None, Create (printer 3)); ((0%nat, 4), Some "disk full"%string, Delete 0);
   ((0%nat, 5), None, Delete 2)].

