(* ===== verification/Resolver.v ===== *)
(** The resolver: [infrastructure/src/dns/resolver/].  Each layer wraps the one
    below it; a query run alone, in one thread.  Queries that run together share
    the in-flight table of [Coalescing.v]. *)

From Stdlib Require Import String.
From S2P Require Import Prelude Errors Text Net Guards Protocol Routes Forwarding Balancer.
From S2P Require Import WireResponse CacheRecord CacheNegative CacheBloom CacheL1 Cache CacheTrace LocalRecords.

#[local] Set Default Proof Using "Type".

(** ** What the layers ask of the pools *)

(** The upstream pools and their router, the forwarder to the local DNS server
    and the DNSSEC validator, over a state of their own that also has the clock.
    Asking the local DNS server does not change where names are routed. *)
Class UpstreamPort := {
  upstreams : Type;
  up_clock : upstreams → Z;
  up_query_for : upstreams → option Z → str → RecordType → bool → upstreams * (DomainError + UpstreamResult);
  up_forward : upstreams → SocketAddr → str → RecordType → upstreams * (DomainError + DnsResponse);
  up_validate : upstreams → str → RecordType → option Message → upstreams * (DomainError + DnssecStatus);
  up_route : upstreams → str → option Z → option Route;
  up_view : upstreams → str → option Z → Z;
  up_group_routes : upstreams → bool;
  forward_keeps_routes : ∀ u server d t d' g, up_route (up_forward u server d t).1 d' g = up_route u d' g;
}.

(** ** Filters *)

Inductive NonFqdn := NfBlock | NfQualify (local_domain : str) | NfPass.
Record QueryFilters := mkFilters { block_private_ptr : bool; non_fqdn : NonFqdn }.

Definition is_unvalidated (s : DnssecStatus) : bool :=
  match s with Bogus | Indeterminate => true | Secure | Insecure => false end.

(** The embedding of an address; the copy never panics. *)
Definition synthesize (prefix v4 : Z) : IpAddr := V6 (be_int (default [] (returned (nat64_synthesize prefix v4)))).
Definition extract_v4 (prefix v6 : Z) : option Z := be_int <$> returned (nat64_extract_v4 prefix v6).

(** [1.2.3.4] is [4.3.2.1.in-addr.arpa]. *)
Definition ipv4_to_arpa (v4 : Z) : str :=
  join [46] (show_dec <$> rev (v4_octets v4)) ++ of_string ".in-addr.arpa".

(** A hit as a resolution. *)
Definition hit_resolution (status : LocalRecordStatus) (hit : Hit) : DnsResolution :=
  let '(data, dnssec_status, ttl, local_answer) := hit in
  let '(addresses, chain, wire, local_nxdomain) :=
    match data with
    | IpAddresses a => (addresses a, default [] (a_cname_chain a), None, false)
    | CanonicalName name => ([], [name], None, false)
    | WireData w => ([], default [] (w_cname_chain w), Some (wire_bytes w), false)
    | NegativeResponse => ([], [], None, local_answer)
    end in
  mkResolution addresses true
    ((local_answer && negb local_nxdomain) || match status with NotLocal => false | _ => true end)
    local_nxdomain
    (match wire with Some w => is_nxdomain w | None => false end)
    None (dnssec_status ≫= to_domain) chain None None ttl None wire.

(** A cache hit as [resolve] reports it. *)
Definition cached_outcome (cached : DnsResolution) : DomainError + DnsResolution :=
  if has_response_data cached then inr cached
  else if r_local_nxdomain cached then inl Error.LocalNxDomain
  else inl Error.NxDomain.

Definition local_answer_of (addresses : list IpAddr) (ttl : option Z) : DnsResolution :=
  mkResolution addresses false true false false None None [] None None ttl None None.

Definition set_dnssec (status : DnssecStatus) (r : DnsResolution) : DnsResolution :=
  mkResolution (r_addresses r) (r_cache_hit r) (r_local_dns r) (r_local_nxdomain r) (r_upstream_nxdomain r)
    (r_coalesced r) (Some status) (r_cname_chain r) (r_upstream_server r) (r_upstream_pool r) (min_ttl r)
    (negative_soa_ttl r) (upstream_wire_data r).

Section resolver.
Context `{Lru, IterOrder, MembershipGate, Hickory, UpstreamPort}.
(** A PTR answer on the wire, and the thread the query runs on. *)
Context (emit_ptr : HName → list HName → Z → option bytes) (thread : nat).

(** What the layers share. *)
Record World := mkWorld { w_cache : DnsCache; w_ptr : PtrMap; w_wildcards : WildcardMap; w_up : upstreams }.
Definition set_w_cache (w : World) (c : DnsCache) : World := mkWorld c (w_ptr w) (w_wildcards w) (w_up w).
Definition set_w_up (w : World) (u : upstreams) : World := mkWorld (w_cache w) (w_ptr w) (w_wildcards w) u.

Record DnsResolver := mkResolver {
  rs_try_cache : World → DnsQuery → World * option DnsResolution;
  rs_try_cache_str : World → str → RecordType → option Z → World * option DnsResolution;
  rs_resolve : World → DnsQuery → World * (DomainError + DnsResolution);
}.

(** The trait's default bodies: no cache. *)
Definition uncached (resolve : World → DnsQuery → World * (DomainError + DnsResolution)) : DnsResolver :=
  mkResolver (λ w _, (w, None)) (λ w _ _ _, (w, None)) resolve.

(** ** The pools and the local DNS server *)

(** [local_suffix] is the local domain, lowercased, with and without a leading dot. *)
Record CoreResolver := mkCore {
  dnssec_enabled : bool; local_suffix : option (str * str); local_dns_server : option SocketAddr;
}.

Definition with_local_domain (to_lowercase : str → str) (domain : option str) : option (str * str) :=
  (λ d, let lower := to_lowercase d in (46 :: lower, lower)) <$> domain.

Definition is_local_tld (c : CoreResolver) (domain : str) : bool :=
  match local_suffix c with
  | None => false
  | Some (suffix, exact) =>
      let domain := utf8 domain in
      let suffix := utf8 suffix in
      eq_ignore_case domain (utf8 exact)
      || ((length suffix <? length domain)%nat
          && eq_ignore_case (drop (length domain - length suffix) domain) suffix)
  end.

Definition resolve_local_tld (c : CoreResolver) (w : World) (q : DnsQuery) : World * (DomainError + DnsResolution) :=
  match local_dns_server c with
  | None => (w, inl Error.NxDomain)
  | Some server =>
      let '(u, x) := up_forward (w_up w) server (dq_domain q) (dq_record_type q) in
      (set_w_up w u,
       match x with
       | inr resp =>
           if negb (resp_is_nxdomain resp) && negb (is_server_error resp) then
             inr (mkResolution (resp_addresses resp) false true false false None None [] (Some (show_socket server))
                    None (resp_min_ttl resp) (resp_negative_soa_ttl resp) (Some (raw_bytes resp)))
           else inl Error.LocalNxDomain
       | inl _ => inl Error.NxDomain
       end)
  end.

Definition is_local_query (c : CoreResolver) (domain : str) : bool :=
  (bool_decide (is_Some (local_dns_server c)) && is_private_ptr_query domain) || is_local_tld c domain.

Definition core_resolve (c : CoreResolver) (w : World) (q : DnsQuery) : World * (DomainError + DnsResolution) :=
  if is_local_query c (dq_domain q) && bool_decide (up_route (w_up w) (dq_domain q) (dq_group_id q) = None)
  then resolve_local_tld c w q
  else
    let '(u, x) := up_query_for (w_up w) (dq_group_id q) (dq_domain q) (dq_record_type q) (dnssec_enabled c) in
    (set_w_up w u,
     match x with
     | inl e => inl e
     | inr result =>
         let resp := u_response result in
         inr (mkResolution (resp_addresses resp) false (u_internal result) false
                (resp_is_nxdomain resp && bool_decide (resp_addresses resp = []))
                None None (resp_cname_chain resp) (Some (u_server_display result)) (Some (u_pool_name result))
                (resp_min_ttl resp) (resp_negative_soa_ttl resp) (Some (raw_bytes resp)))
     end).

(** ** DNSSEC *)

Definition parsed (wire : option bytes) : option Message :=
  b ← wire; match message_from_vec b with inr m => Some m | inl _ => None end.

Definition dnssec_resolve (inner : DnsResolver) (w : World) (q : DnsQuery) : World * (DomainError + DnsResolution) :=
  let '(w, x) := rs_resolve inner w q in
  match x with
  | inl e => (w, inl e)
  | inr r =>
      if r_cache_hit r || r_local_dns r then (w, inr r)
      else
        let message := parsed (upstream_wire_data r) in
        if bool_decide (r_addresses r = []) && bool_decide (message = None) then (w, inr r)
        else
          let '(u, status) := up_validate (w_up w) (dq_domain q) (dq_record_type q) message in
          (set_w_up w u,
           inr (set_dnssec (match status with inr s => s | inl _ => Indeterminate end) r))
  end.

(** ** DNS64 *)

Definition is_nodata (r : DnsResolution) : bool :=
  match parsed (upstream_wire_data r) with
  | Some m => bool_decide (response_code m = RcNoError)
  | None => false
  end.

Definition synthesized (prefix : Z) (addresses : list IpAddr) : list IpAddr :=
  omap (λ a, match a with
             | V4 v4 => if is_private_ip a then None else Some (synthesize prefix v4)
             | V6 _ => None
             end) addresses.

Definition dns64_aaaa (prefix : Z) (inner : DnsResolver) (w : World) (q : DnsQuery)
    : World * (DomainError + DnsResolution) :=
  let '(w, x) := rs_resolve inner w q in
  match x with
  | inl e => (w, inl e)
  | inr res =>
      if negb (bool_decide (r_addresses res = [])) || negb (is_nodata res) then (w, inr res)
      else
        let '(w, y) := rs_resolve inner w (mkQuery (dq_domain q) A (dq_group_id q)) in
        (w, match y with
            | inl _ => inr res
            | inr a_res =>
                let synth := synthesized prefix (r_addresses a_res) in
                if match r_dnssec_status a_res with Some s => is_unvalidated s | None => false end
                   || bool_decide (synth = [])
                then inr res
                else inr (mkResolution synth false false false false None None (r_cname_chain a_res)
                            (r_upstream_server a_res) (r_upstream_pool a_res) (min_ttl a_res) None None)
            end)
  end.

Definition ptr_targets (wire : option bytes) : list HName :=
  match parsed wire with
  | Some m => omap (λ r, match hr_data r with RdPTR n => Some n | _ => None end) (answers m)
  | None => []
  end.

Definition ptr_resolution (owner : str) (targets : list HName) (ttl : Z) (local_dns : bool) : option DnsResolution :=
  name ← (match name_from_str owner with inr n => Some n | inl _ => None end);
  wire ← emit_ptr name targets ttl;
  Some (mkResolution [] false local_dns false false None None [] None None (Some ttl) None (Some wire)).

Definition embedded_v4 (prefix : Z) (domain : str) : option Z :=
  match extract_ip_from_ptr domain with Some (V6 v6) => extract_v4 prefix v6 | _ => None end.

Definition dns64_ptr (prefix : Z) (inner : DnsResolver) (w : World) (q : DnsQuery)
    : World * (DomainError + DnsResolution) :=
  match embedded_v4 prefix (dq_domain q) with
  | None => rs_resolve inner w q
  | Some v4 =>
      let '(w, x) := rs_resolve inner w (mkQuery (ipv4_to_arpa v4) PTR (dq_group_id q)) in
      match x with
      | inl _ => rs_resolve inner w q
      | inr v4_res =>
          let targets := ptr_targets (upstream_wire_data v4_res) in
          if bool_decide (targets = []) then rs_resolve inner w q
          else match ptr_resolution (dq_domain q) targets (default 0 (min_ttl v4_res)) false with
               | Some r => (w, inr r)
               | None => rs_resolve inner w q
               end
      end
  end.

Definition dns64_resolve (prefix : Z) (inner : DnsResolver) (w : World) (q : DnsQuery)
    : World * (DomainError + DnsResolution) :=
  match dq_record_type q with
  | AAAA => dns64_aaaa prefix inner w q
  | PTR => dns64_ptr prefix inner w q
  | _ => rs_resolve inner w q
  end.

(** ** The cache *)

(** [CachedResolver], with the router the builder gives it. *)
Definition cache_view (w : World) (domain : str) (group : option Z) : Z :=
  if bool_decide (is_Some group) && up_group_routes (w_up w) then up_view (w_up w) domain group else 0.

Definition check_cache_str (w : World) (domain : str) (t : RecordType) (view : Z) : World * option DnsResolution :=
  let status := local_record_status (w_cache w) (utf8 domain) t in
  match status with
  | MissingType => (w, Some (hit_resolution status (NegativeResponse, None, None, false)))
  | _ =>
      let view := match status with Present => 0 | _ => view end in
      let '(c, hit) := get_in (w_cache w) thread (utf8 domain) t view (up_clock (w_up w)) in
      (set_w_cache w c, hit_resolution status <$> hit)
  end.

Definition check_cache (w : World) (q : DnsQuery) : World * option DnsResolution :=
  check_cache_str w (dq_domain q) (dq_record_type q) (cache_view w (dq_domain q) (dq_group_id q)).

Definition borrowed (key : CacheKey) : BorrowedKey :=
  borrowed_in_view (borrowed_new (k_domain key) (k_record_type key)) (k_view key).

Definition cache_insert (w : World) (key : CacheKey) (d : CachedData) (ttl : Z) (status : CachedDnssecStatus)
    (local_dns : bool) : World :=
  set_w_cache w (store (w_cache w) thread (borrowed key) d ttl (Some status) local_dns (up_clock (w_up w))).

Definition insert_negative (w : World) (key : CacheKey) (ttl : Z) (local_dns : bool) : World :=
  cache_insert w key NegativeResponse ttl CInsecure local_dns.

Definition store_in_cache (cache_ttl : Z) (w : World) (key : CacheKey) (r : DnsResolution) : World :=
  if match r_dnssec_status r with Some s => is_unvalidated s | None => false end then w
  else
    let status := match r_dnssec_status r with Some s => dnssec_from s | None => CUnknown end in
    match from_resolution r with
    | None => insert_negative w key (default MIN_NEGATIVE_TTL (negative_soa_ttl r)) (r_local_dns r)
    | Some data =>
        let ttl :=
          if bool_decide (r_addresses r = []) then
            match min_ttl r with Some ttl => Z.max ttl 1 | None => negative_ttl (negative_soa_ttl r) end
          else default cache_ttl (min_ttl r) in
        cache_insert w key data ttl status (r_local_dns r)
    end.

(** The key a query is coalesced and cached under. *)
Definition query_key (w : World) (q : DnsQuery) : CacheKey :=
  in_view (key_new (utf8 (dq_domain q)) (dq_record_type q))
    (match up_route (w_up w) (dq_domain q) (dq_group_id q) with Some r => route_view r | None => 0 end).

(** The leader's own look at the cache, and what it leaves there. *)
Definition leader_probe (w : World) (q : DnsQuery) (key : CacheKey) : World * option DnsResolution :=
  check_cache_str w (dq_domain q) (dq_record_type q) (k_view key).
Definition leader_store (cache_ttl : Z) (w : World) (key : CacheKey) (x : DomainError + DnsResolution) : World :=
  match x with
  | inr r => store_in_cache cache_ttl w key r
  | inl Error.NxDomain => insert_negative w key MIN_NEGATIVE_TTL false
  | inl Error.LocalNxDomain => insert_negative w key MIN_NEGATIVE_TTL true
  | inl _ => set_w_cache w (bump (w_cache w) TransientUpstreamErrors)
  end.

(** [resolve_as_leader] when no other query joins it. *)
Definition cached_resolve (cache_ttl : Z) (inner : DnsResolver) (w : World) (q : DnsQuery)
    : World * (DomainError + DnsResolution) :=
  let key := query_key w q in
  let '(w, cached) := leader_probe w q key in
  match cached with
  | Some r => (w, cached_outcome r)
  | None =>
      let '(w, x) := rs_resolve inner w q in
      (leader_store cache_ttl w key x, x)
  end.

Definition cached_layer (cache_ttl : Z) (inner : DnsResolver) : DnsResolver :=
  mkResolver check_cache (λ w domain t group, check_cache_str w domain t (cache_view w domain group))
    (cached_resolve cache_ttl inner).

(** ** Wildcards *)

Definition wildcard_resolve (inner : DnsResolver) (w : World) (q : DnsQuery) : World * (DomainError + DnsResolution) :=
  match wildcard_lookup (w_wildcards w) (dq_domain q) with
  | None => rs_resolve inner w q
  | Some answer =>
      let '(w, cached) := rs_try_cache inner w q in
      match cached with
      | Some r =>
          if has_response_data r then (w, inr r)
          else (w, inr match wildcard_get answer (dq_record_type q) with
                       | Some (address, ttl) => local_answer_of [address] (Some ttl)
                       | None => local_answer_of [] None
                       end)
      | None =>
          (w, inr match wildcard_get answer (dq_record_type q) with
                  | Some (address, ttl) => local_answer_of [address] (Some ttl)
                  | None => local_answer_of [] None
                  end)
      end
  end.
Definition wildcard_layer (inner : DnsResolver) : DnsResolver :=
  mkResolver (rs_try_cache inner) (rs_try_cache_str inner) (wildcard_resolve inner).

(** ** Filters *)

Definition decide_query (f : QueryFilters) (w : World) (domain : str) (group : option Z) : BlockSource + str :=
  if block_private_ptr f && is_private_ptr_query domain && bool_decide (up_route (w_up w) domain group = None)
  then inl Source.PrivatePtr
  else match non_fqdn f with
       | NfBlock => if is_local_hostname domain then inl Source.NonFqdn else inr domain
       | NfQualify local_domain =>
           if negb (contains_char 46 domain) then inr (domain ++ [46] ++ local_domain) else inr domain
       | NfPass => inr domain
       end.

Definition apply_filters (f : QueryFilters) (w : World) (q : DnsQuery) : DomainError + DnsQuery :=
  match decide_query f w (dq_domain q) (dq_group_id q) with
  | inr domain => inr (mkQuery domain (dq_record_type q) (dq_group_id q))
  | inl source => inl (Error.FilteredQuery source)
  end.

Definition apply_str (f : QueryFilters) (w : World) (domain : str) (group : option Z) : option str :=
  match decide_query f w domain group with inr d => Some d | inl _ => None end.

Definition filtered_layer (f : QueryFilters) (inner : DnsResolver) : DnsResolver :=
  mkResolver
    (λ w q, match apply_filters f w q with inr q => rs_try_cache inner w q | inl _ => (w, None) end)
    (λ w domain t group,
      match apply_str f w domain group with
      | Some domain => rs_try_cache_str inner w domain t group
      | None => (w, None)
      end)
    (λ w q, match apply_filters f w q with inr q => rs_resolve inner w q | inl e => (w, inl e) end).

(** ** Reverse names of local records *)

Definition ptr_resolve (inner : DnsResolver) (w : World) (q : DnsQuery) : World * (DomainError + DnsResolution) :=
  if negb (bool_decide (dq_record_type q = PTR)) then rs_resolve inner w q
  else match extract_ip_from_ptr (dq_domain q) with
       | None => rs_resolve inner w q
       | Some ip =>
           match (e ← w_ptr w !! ip;
                  target ← (match name_from_str e.1 with inr n => Some n | inl _ => None end);
                  ptr_resolution (dq_domain q) [target] e.2 true) with
           | Some r => (w, inr r)
           | None => rs_resolve inner w q
           end
       end.

Definition ptr_layer (inner : DnsResolver) : DnsResolver :=
  mkResolver
    (λ w q, if negb (bool_decide (dq_record_type q = PTR)) then rs_try_cache inner w q else (w, None))
    (λ w domain t group,
      if negb (bool_decide (t = PTR)) then rs_try_cache_str inner w domain t group else (w, None))
    (ptr_resolve inner).

(** ** The stack *)

(** [ResolverBuilder]: which layers there are. *)
Record ResolverBuilder := mkBuilder {
  rb_dnssec : bool; rb_cache_ttl : option Z; rb_local_suffix : option (str * str);
  rb_local_dns_server : option SocketAddr; rb_filters : option QueryFilters; rb_local_ptr : bool;
  rb_wildcards : bool; rb_dns64 : option Z;
}.

Definition wrap {A} (o : option A) (layer : A → DnsResolver → DnsResolver) (inner : DnsResolver) : DnsResolver :=
  match o with Some a => layer a inner | None => inner end.
Definition wrap_if (b : bool) (layer : DnsResolver → DnsResolver) (inner : DnsResolver) : DnsResolver :=
  if b then layer inner else inner.

Definition build_resolver (b : ResolverBuilder) : DnsResolver :=
  let core := mkCore (rb_dnssec b) (rb_local_suffix b) (rb_local_dns_server b) in
  let resolver := uncached (core_resolve core) in
  let resolver := wrap_if (rb_dnssec b) (λ r, uncached (dnssec_resolve r)) resolver in
  let resolver := wrap (rb_dns64 b) (λ prefix r, uncached (dns64_resolve prefix r)) resolver in
  let resolver := wrap (rb_cache_ttl b) cached_layer resolver in
  let resolver := wrap_if (rb_wildcards b) wildcard_layer resolver in
  let resolver := wrap (rb_filters b) filtered_layer resolver in
  wrap_if (rb_local_ptr b) ptr_layer resolver.

End resolver.
