(* ===== verification/ResolverSpec.v ===== *)
(** What the layers of the resolver promise: the trait's contract, local names
    that stay local, and the embedded addresses of DNS64. *)

From Stdlib Require Import String.
From stdpp Require Import relations.
From S2P Require Import Prelude Errors Text Net Guards Protocol Routes Forwarding Balancer.
From S2P Require Import WireResponse CacheRecord CacheNegative CacheBloom CacheL1 Cache CacheTrace LocalRecords Resolver.

#[local] Set Default Proof Using "Type".

(** ** Addresses embedded in a NAT64 prefix *)

Lemma u32_be_be32 a b c d : bytes_ok [a; b; c; d] → u32_be (be32 a b c d) = [a; b; c; d].
Proof.
  unfold bytes_ok. rewrite !Forall_cons. unfold_ints. intros (? & ? & ? & ? & _). unfold u32_be, be32.
  repeat f_equal; Z.to_euclidean_division_equations; lia.
Qed.

Lemma u32_be_high h x : u32_be (h * 2 ^ 32 + x) = u32_be x.
Proof.
  unfold u32_be.
  assert (Hd : ∀ k, 0 < k → (2 ^ 32 / (k * 256)) * (k * 256) = 2 ^ 32 → (h * 2 ^ 32 + x) / k mod 256 = x / k mod 256).
  { intros k Hk E. rewrite <-E. replace (h * (2 ^ 32 / (k * 256) * (k * 256)) + x)
      with (x + (h * (2 ^ 32 / (k * 256)) * 256) * k) by lia.
    rewrite Z.div_add by lia. by rewrite Z.mod_add. }
  assert (H1 : (h * 2 ^ 32 + x) mod 256 = x mod 256).
  { replace (h * 2 ^ 32 + x) with (x + h * 2 ^ 24 * 256) by lia. by rewrite Z.mod_add. }
  rewrite !Hd, H1 by (done || lia). done.
Qed.

Lemma be32_range a b c d : bytes_ok [a; b; c; d] → 0 ≤ be32 a b c d < 2 ^ 32.
Proof. unfold bytes_ok. rewrite !Forall_cons. unfold_ints. unfold be32. lia. Qed.

Lemma v6_octets_be_int l : length l = 16%nat → bytes_ok l → v6_octets (be_int l) = l.
Proof.
  intros Hl Hok. do 16 (destruct l as [|? l]; [done|]). destruct l; [|done].
  rename z into b0. unfold bytes_ok in Hok. rewrite !Forall_cons in Hok. destruct_and!.
  set (w0 := be32 b0 z0 z1 z2). set (w1 := be32 z3 z4 z5 z6). set (w2 := be32 z7 z8 z9 z10). set (w3 := be32 z11 z12 z13 z14).
  assert (Hw0 : bytes_ok [b0; z0; z1; z2]) by (unfold bytes_ok; by rewrite !Forall_cons, Forall_nil).
  assert (Hw1 : bytes_ok [z3; z4; z5; z6]) by (unfold bytes_ok; by rewrite !Forall_cons, Forall_nil).
  assert (Hw2 : bytes_ok [z7; z8; z9; z10]) by (unfold bytes_ok; by rewrite !Forall_cons, Forall_nil).
  assert (Hw3 : bytes_ok [z11; z12; z13; z14]) by (unfold bytes_ok; by rewrite !Forall_cons, Forall_nil).
  assert (R0 : 0 ≤ w0 < 2 ^ 32) by (by apply be32_range). assert (R1 : 0 ≤ w1 < 2 ^ 32) by (by apply be32_range).
  assert (R2 : 0 ≤ w2 < 2 ^ 32) by (by apply be32_range). assert (R3 : 0 ≤ w3 < 2 ^ 32) by (by apply be32_range).
  assert (E : be_int [b0; z0; z1; z2; z3; z4; z5; z6; z7; z8; z9; z10; z11; z12; z13; z14]
    = ((w0 * 2 ^ 32 + w1) * 2 ^ 32 + w2) * 2 ^ 32 + w3).
  { change [b0; z0; z1; z2; z3; z4; z5; z6; z7; z8; z9; z10; z11; z12; z13; z14]
      with (((([] ++ [b0; z0; z1; z2]) ++ [z3; z4; z5; z6]) ++ [z7; z8; z9; z10]) ++ [z11; z12; z13; z14]).
    by rewrite !be_int_word. }
  rewrite E. unfold v6_octets.
  assert (D : ∀ h x k, 0 ≤ x < 2 ^ k → 0 ≤ k → (h * 2 ^ k + x) / 2 ^ k = h).
  { intros h x k Hx Hk. rewrite Z.div_add_l by lia. rewrite Z.div_small by lia. lia. }
  set (x1 := w0 * 2 ^ 32 + w1). set (x2 := x1 * 2 ^ 32 + w2).
  assert (E1 : (x2 * 2 ^ 32 + w3) / 2 ^ 32 = x2) by (apply D; lia).
  assert (E2 : (x2 * 2 ^ 32 + w3) / 2 ^ 64 = x1).
  { replace (2 ^ 64) with (2 ^ 32 * 2 ^ 32) by lia. rewrite <-Z.div_div, E1 by lia. apply D; lia. }
  assert (E3 : (x2 * 2 ^ 32 + w3) / 2 ^ 96 = w0).
  { replace (2 ^ 96) with (2 ^ 64 * 2 ^ 32) by lia. rewrite <-Z.div_div, E2 by lia. apply D; lia. }
  rewrite E1, E2, E3. unfold x2, x1. rewrite !u32_be_high. unfold w0, w1, w2, w3. by rewrite !u32_be_be32.
Qed.

Lemma synthesize_eq prefix v4 : synthesize prefix v4 = V6 (be_int (take 12 (v6_octets prefix) ++ v4_octets v4)).
Proof. done. Qed.

(** An embedded address comes back out. *)
Lemma extract_synthesize prefix v4 : is_u32 v4 →
  ∃ v6, synthesize prefix v4 = V6 v6 ∧ extract_v4 prefix v6 = Some v4.
Proof.
  intros Hv. rewrite synthesize_eq. eexists. split; [done|]. unfold extract_v4, nat64_extract_v4, nat64_contains.
  rewrite v6_octets_be_int; last first.
  { apply Forall_app. split; [apply Forall_take, (octets_ok (V6 prefix))|apply (octets_ok (V4 v4))]. }
  { done. }
  rewrite bool_decide_true by done. change (Some (be_int (v4_octets v4)) = Some v4). f_equal.
  unfold be_int, v4_octets, u32_be. cbn [foldl]. pose proof (be32_u32_be v4 Hv) as E. unfold be32 in E. lia.
Qed.

(** ** The trait's contract *)

Section stack.
Context `{Lru, IterOrder, MembershipGate, Hickory, UpstreamPort}.
Context (emit_ptr : HName → list HName → Z → option bytes) (thread : nat).
Implicit Types (r : DnsResolver) (w : World) (q : DnsQuery).
Abbreviation build_resolver := (build_resolver emit_ptr thread).

(** A layer that keeps a property of the resolver below it, at every stack. *)
Lemma build_keeps (P : DnsResolver → Prop) :
  (∀ resolve, P (uncached resolve)) →
  (∀ ttl r, P r → P (cached_layer thread ttl r)) → (∀ r, P r → P (wildcard_layer r)) →
  (∀ f r, P r → P (filtered_layer f r)) → (∀ r, P r → P (ptr_layer emit_ptr r)) →
  ∀ b, P (build_resolver b).
Proof.
  intros Hu Hc Hw Hf Hp b. unfold Resolver.build_resolver. destruct b as [dnssec ttl suffix server filters ptr wild dns64].
  cbn [rb_dnssec rb_cache_ttl rb_local_suffix rb_local_dns_server rb_filters rb_local_ptr rb_wildcards rb_dns64].
  unfold wrap_if, wrap. destruct ptr; [apply Hp|]; (destruct filters; [apply Hf|]; (destruct wild; [apply Hw|];
    (destruct ttl; [apply Hc|]; (destruct dns64; [apply Hu|]; (destruct dnssec; apply Hu))))).
Qed.

(** Every stack the builder makes keeps the contract of the trait: a cache-only lookup by name
    is the lookup of the query of that name, filters, reverse names and views included, and a
    cached answer that relays an upstream's NXDOMAIN has no addresses. *)
Theorem stack_keeps_the_contract b w domain t group :
  rs_try_cache_str (build_resolver b) w domain t group = rs_try_cache (build_resolver b) w (mkQuery domain t group)
  ∧ ∀ cached, (rs_try_cache (build_resolver b) w (mkQuery domain t group)).2 = Some cached →
      r_upstream_nxdomain cached = true → r_addresses cached = [].
Proof.
  revert w domain t group. pattern (build_resolver b). apply build_keeps.
  - done.
  - intros ttl r _ w domain t group. split; [done|]. cbn [cached_layer rs_try_cache]. unfold check_cache, check_cache_str.
    assert (Hhit : ∀ status hit, r_upstream_nxdomain (hit_resolution status hit) = true →
      r_addresses (hit_resolution status hit) = []).
    { intros status [[[data ds] ttl'] local]. by destruct data. }
    destruct (local_record_status _ _ _); [destruct (get_in _ _ _ _ _ _) as [c [hit|]]..|];
      cbn [fst snd fmap option_fmap option_map]; try done; intros cached [= <-]; first [apply Hhit|done].
  - intros r Hr w domain t group. apply Hr.
  - intros f r Hr w domain t group. cbn. unfold apply_filters, apply_str.
    cbn [dq_domain dq_group_id dq_record_type]. destruct (decide_query f w domain group); [done|apply Hr].
  - intros r Hr w domain t group. cbn. destruct (negb _); [apply Hr|done].
Qed.

(** ** Local names stay local *)

(** Nothing was asked but the local DNS server. *)
Definition local_step (b : ResolverBuilder) (u u' : upstreams) : Prop :=
  ∃ server domain t, rb_local_dns_server b = Some server ∧ u' = (up_forward u server domain t).1.
Definition asked_at_home (b : ResolverBuilder) (w w' : World) : Prop := rtc (local_step b) (w_up w) (w_up w').

Lemma route_at_home b w w' domain group : asked_at_home b w w' →
  up_route (w_up w') domain group = up_route (w_up w) domain group.
Proof.
  unfold asked_at_home. induction 1 as [|u u' u'' (server & d & t & _ & ->) _ IH]; [done|].
  by rewrite IH, forward_keeps_routes.
Qed.

Definition core_of (b : ResolverBuilder) : CoreResolver :=
  mkCore (rb_dnssec b) (rb_local_suffix b) (rb_local_dns_server b).

(** A name the local DNS server answers for: a private reverse name, when there is a server, the
    local domain, and what is under it, in any case. *)
Definition local_name (b : ResolverBuilder) (domain : str) : Prop :=
  (is_Some (rb_local_dns_server b) ∧ is_private_ptr_query domain = true) ∨
  ∃ suffix exact, rb_local_suffix b = Some (suffix, exact) ∧
    (lower_byte <$> utf8 domain = lower_byte <$> utf8 exact ∨
     ∃ head tail, utf8 domain = head ++ tail ∧ head ≠ [] ∧ lower_byte <$> tail = lower_byte <$> utf8 suffix).
Definition local_query (b : ResolverBuilder) w q : Prop :=
  local_name b (dq_domain q) ∧ up_route (w_up w) (dq_domain q) (dq_group_id q) = None.

Lemma local_name_is_local b domain : local_name b domain → is_local_query (core_of b) domain = true.
Proof.
  unfold is_local_query, is_local_tld, core_of. cbn [local_dns_server local_suffix].
  intros [[Hs Hp]|(suffix & exact & Es & [E|(head & tail & Et & Hne & E)])].
  - by rewrite bool_decide_true, Hp.
  - rewrite Es. unfold eq_ignore_case. rewrite (bool_decide_true (_ = lower_byte <$> utf8 exact)) by done.
    by rewrite orb_true_r.
  - rewrite Es, Et. pose proof (f_equal length E) as Hl. rewrite !length_fmap in Hl.
    assert (Hlen : (0 < length head)%nat) by (destruct head; [done|cbn; lia]). rewrite length_app, <- Hl.
    replace (length head + length tail - length tail)%nat with (length head) by lia. rewrite drop_app_length.
    rewrite (proj2 (Nat.ltb_lt _ _)) by lia. unfold eq_ignore_case at 2. rewrite (bool_decide_true (_ = lower_byte <$> utf8 suffix)) by done.
    by rewrite !orb_true_r.
Qed.

(** The resolver asks no pool about the queries of [Q]. *)
Definition keeps_home (b : ResolverBuilder) (Q : World → DnsQuery → Prop) r : Prop :=
  ∀ w q, Q w q → asked_at_home b w (rs_resolve r w q).1.
Definition answers_as_local (Q : World → DnsQuery → Prop) r : Prop :=
  ∀ w q a, Q w q → (rs_resolve r w q).2 = inr a → r_local_dns a = true.
Definition cache_only (r : DnsResolver) : Prop := ∀ w q, w_up (rs_try_cache r w q).1 = w_up w.

Lemma core_home b : keeps_home b (local_query b) (uncached (core_resolve (core_of b)))
  ∧ answers_as_local (local_query b) (uncached (core_resolve (core_of b))).
Proof.
  assert (Hc : ∀ w q, local_query b w q → core_resolve (core_of b) w q = resolve_local_tld (core_of b) w q).
  { intros w q [Hl%local_name_is_local Hr]. unfold core_resolve. by rewrite Hl, bool_decide_true. }
  split.
  - intros w q Hq. cbn [rs_resolve uncached]. rewrite Hc by done. unfold resolve_local_tld, asked_at_home. cbn.
    destruct (rb_local_dns_server b) as [server|] eqn:Es; [|done].
    destruct (up_forward _ _ _ _) as [u x] eqn:Ef. apply rtc_once. exists server, (dq_domain q), (dq_record_type q).
    split; [done|]. by rewrite Ef.
  - intros w q a Hq. cbn [rs_resolve uncached]. rewrite Hc by done. unfold resolve_local_tld. cbn.
    destruct (rb_local_dns_server b) as [server|]; [|done]. destruct (up_forward _ _ _ _) as [u [e|resp]]; cbn; [done|].
    destruct (_ && _); [|done]. by intros [= <-].
Qed.

Lemma dnssec_home b inner : keeps_home b (local_query b) inner → answers_as_local (local_query b) inner →
  keeps_home b (local_query b) (uncached (dnssec_resolve inner))
  ∧ answers_as_local (local_query b) (uncached (dnssec_resolve inner)).
Proof.
  intros Hk Ha. assert (E : ∀ w q, local_query b w q → dnssec_resolve inner w q = rs_resolve inner w q).
  { intros w q Hq. unfold dnssec_resolve. specialize (Ha w q).
    destruct (rs_resolve inner w q) as [w' [e|r]]; [done|]. cbn in Ha. rewrite (Ha r Hq eq_refl).
    by rewrite orb_true_r. }
  split; intros w q; cbn; [intros Hq; rewrite (E w q Hq); by apply Hk|].
  intros a Hq. rewrite (E w q Hq). by apply Ha.
Qed.

(** DNS64 asks about a name and its addresses, or about the reverse name of an embedded address. *)
Definition not_embedded (b : ResolverBuilder) q : Prop :=
  ∀ prefix, rb_dns64 b = Some prefix → dq_record_type q = PTR → embedded_v4 prefix (dq_domain q) = None.
Definition home_query (b : ResolverBuilder) w q : Prop := local_query b w q ∧ not_embedded b q.

Lemma dns64_home b prefix inner : rb_dns64 b = Some prefix → keeps_home b (local_query b) inner →
  keeps_home b (home_query b) (uncached (dns64_resolve emit_ptr prefix inner)).
Proof.
  intros Ep Hk w q [Hl Hn]. cbn. pose proof (Hk w q Hl) as Hw0. unfold dns64_resolve.
  assert (Haaaa : asked_at_home b w (dns64_aaaa prefix inner w q).1).
  { unfold dns64_aaaa. destruct (rs_resolve inner w q) as [w1 [e|res]] eqn:E1; cbn in Hw0 |- *; [done|].
    destruct (_ || _); cbn; [done|].
    pose proof (Hk w1 (mkQuery (dq_domain q) A (dq_group_id q))) as Hw1.
    destruct (rs_resolve inner w1 _) as [w2 y]. cbn in *. unfold asked_at_home in *. etrans; [exact Hw0|].
    apply Hw1. split; [by destruct Hl|]. cbn. rewrite (route_at_home b w w1) by done. by destruct Hl. }
  destruct (dq_record_type q) eqn:Et; try exact Hw0; [exact Haaaa|].
  unfold dns64_ptr. by rewrite (Hn prefix Ep Et).
Qed.

Lemma check_cache_up w domain t view : w_up (check_cache_str thread w domain t view).1 = w_up w.
Proof.
  unfold check_cache_str. destruct (local_record_status _ _ _); [destruct (get_in _ _ _ _ _ _); done..|done].
Qed.

Lemma leader_store_up ttl w key x : w_up (leader_store thread ttl w key x) = w_up w.
Proof.
  unfold leader_store, store_in_cache, insert_negative, cache_insert.
  destruct x as [[]|r]; try done. destruct (match r_dnssec_status r with Some _ => _ | None => _ end); [done|].
  by destruct (from_resolution r).
Qed.

Lemma cached_home b (Q : World → DnsQuery → Prop) ttl inner :
  (∀ w w' q, w_up w = w_up w' → Q w q → Q w' q) → keeps_home b Q inner →
  keeps_home b Q (cached_layer thread ttl inner).
Proof.
  intros Hext Hk w q Hq. cbn. unfold cached_resolve, leader_probe.
  pose proof (check_cache_up w (dq_domain q) (dq_record_type q) (k_view (query_key w q))) as Hu.
  destruct (check_cache_str _ _ _ _ _) as [w1 [r|]]; cbn in Hu |- *; [unfold asked_at_home; by rewrite Hu|].
  pose proof (Hk w1 q (Hext _ _ _ (eq_sym Hu) Hq)) as Hw1. destruct (rs_resolve inner w1 q) as [w2 x]. cbn in *.
  unfold asked_at_home in *. rewrite leader_store_up. by rewrite <-Hu.
Qed.

(** What the layers from the cache down keep at home. *)
Definition below_wildcards (b : ResolverBuilder) : DnsResolver :=
  wrap (rb_cache_ttl b) (cached_layer thread)
    (wrap (rb_dns64 b) (λ prefix r, uncached (dns64_resolve emit_ptr prefix r))
       (wrap_if (rb_dnssec b) (λ r, uncached (dnssec_resolve r)) (uncached (core_resolve (core_of b))))).

Lemma below_wildcards_home b : keeps_home b (home_query b) (below_wildcards b) ∧ cache_only (below_wildcards b).
Proof.
  unfold below_wildcards. destruct (core_home b) as [Hc1 Hc2].
  assert (Hd : keeps_home b (local_query b) (wrap_if (rb_dnssec b) (λ r, uncached (dnssec_resolve r)) (uncached (core_resolve (core_of b))))).
  { unfold wrap_if. destruct (rb_dnssec b); [by apply dnssec_home|done]. }
  set (low := wrap_if _ _ _) in *.
  assert (H64 : keeps_home b (home_query b) (wrap (rb_dns64 b) (λ prefix r, uncached (dns64_resolve emit_ptr prefix r)) low)).
  { unfold wrap. destruct (rb_dns64 b) as [prefix|] eqn:Ep; [by apply dns64_home|]. intros w q [Hq _]. by apply Hd. }
  assert (Hu : cache_only (wrap (rb_dns64 b) (λ prefix r, uncached (dns64_resolve emit_ptr prefix r)) low)).
  { unfold wrap, low, wrap_if. by destruct (rb_dns64 b), (rb_dnssec b). }
  set (mid := wrap (rb_dns64 b) _ low) in *. unfold wrap. destruct (rb_cache_ttl b) as [ttl|]; [|done]. split.
  - apply cached_home; [|done]. intros w w' q E [[Hl Hr] Hn]. split; [|done]. split; [done|]. by rewrite <-E.
  - intros w q. cbn. unfold check_cache. apply check_cache_up.
Qed.

(** The query the filters pass on. *)
Definition past_filters (b : ResolverBuilder) w q : option DnsQuery :=
  match rb_filters b with
  | None => Some q
  | Some f => match apply_filters f w q with inr q => Some q | inl _ => None end
  end.

Definition stays_home (b : ResolverBuilder) w q : Prop :=
  match past_filters b w q with
  | None => True
  | Some q => (rb_wildcards b = true ∧ is_Some (wildcard_lookup (w_wildcards w) (dq_domain q))) ∨ home_query b w q
  end.


(** ** Synthesized answers *)

Lemma elem_of_synthesized prefix addresses a :
  a ∈ synthesized prefix addresses ↔ ∃ v4, V4 v4 ∈ addresses ∧ is_private_ip (V4 v4) = false ∧ a = synthesize prefix v4.
Proof.
  unfold synthesized. rewrite list_elem_of_omap. split.
  - intros ([v4|v6] & Hin & E); [|done]. destruct (is_private_ip (V4 v4)) eqn:Ep; [done|]. injection E as <-. by exists v4.
  - intros (v4 & Hin & Hp & ->). exists (V4 v4). by rewrite Hp.
Qed.

(** C32: A AAAA query through DNS64 is answered as without it, or else that answer was an empty
    NOERROR and the A query of the same name and group, asked after it, gave addresses that did
    not fail validation; the answer's addresses are then exactly the embeddings of the public ones
    among them, each of which gives its address back, and it is marked as neither validated nor
    relayed. *)
Theorem dns64_embeds_public_addresses prefix inner w domain group :
  let '(w1, plain) := rs_resolve inner w (mkQuery domain AAAA group) in
  let '(_, answer) := dns64_resolve emit_ptr prefix inner w (mkQuery domain AAAA group) in
  answer = plain
  ∨ ∃ (res a_res r : DnsResolution), plain = inr res ∧ r_addresses res = [] ∧ is_nodata res = true
      ∧ (rs_resolve inner w1 (mkQuery domain A group)).2 = inr a_res
      ∧ (∀ s, r_dnssec_status a_res = Some s → is_unvalidated s = false)
      ∧ answer = inr r ∧ r_addresses r ≠ [] ∧ r_dnssec_status r = None ∧ upstream_wire_data r = None
      ∧ ∀ a, a ∈ r_addresses r ↔ ∃ v4 v6, V4 v4 ∈ r_addresses a_res ∧ is_private_ip (V4 v4) = false
          ∧ a = V6 v6 ∧ synthesize prefix v4 = V6 v6 ∧ (is_u32 v4 → extract_v4 prefix v6 = Some v4).
Proof.
  unfold dns64_resolve, dns64_aaaa. cbn [dq_record_type dq_domain dq_group_id].
  destruct (rs_resolve inner w (mkQuery domain AAAA group)) as [w1 [e|res]]; [by left|].
  destruct (bool_decide_reflect (r_addresses res = [])) as [Ea|]; [|by left].
  destruct (is_nodata res) eqn:En; [|by left]. cbn [negb orb].
  destruct (rs_resolve inner w1 (mkQuery domain A group)) as [w2 [e|a_res]] eqn:E2; [by left|].
  destruct (match r_dnssec_status a_res with Some _ => _ | None => _ end) eqn:Eu; [by left|].
  destruct (bool_decide_reflect (synthesized prefix (r_addresses a_res) = [])) as [|Hne]; [by left|].
  right. exists res, a_res. eexists. cbn [orb]. split_and!; try done.
  - intros s Es. by rewrite Es in Eu.
  - cbn [r_addresses]. intros a. rewrite elem_of_synthesized. split.
    + intros (v4 & Hin & Hp & ->). destruct (synthesize prefix v4) as [|v6] eqn:Es; [by rewrite synthesize_eq in Es|].
      exists v4, v6. split_and!; [done..|]. intros Hv. destruct (extract_synthesize prefix v4 Hv) as (v6' & Ev & Ex).
      rewrite Es in Ev. by injection Ev as ->.
    + intros (v4 & v6 & Hin & Hp & -> & Es & _). exists v4. by rewrite Es.
Qed.

End stack.

(** ** Examples *)

(** Pools and a local server that answer nothing, and remember what they were asked. *)
Definition port_query (u : list str * list str) (name : str) : list str * list str := (u.1 ++ [name], u.2).
Definition port_forward (u : list str * list str) (name : str) : list str * list str := (u.1, u.2 ++ [name]).
#[local] Instance silent_port `{Hickory} : UpstreamPort := {
  upstreams := list str * list str;
  up_clock := λ _, 1000;
  up_query_for := λ u _ name _ _, (port_query u name, inl (Error.TransportTimeout "pool"));
  up_forward := λ u _ name _, (port_forward u name, inl (Error.TransportTimeout "router"));
  up_validate := λ u _ _ _, (u, inr Insecure);
  up_route := λ _ _ _, None; up_view := λ _ _ _, 0; up_group_routes := λ _, false;
  forward_keeps_routes := λ _ _ _ _ _ _, eq_refl;
}.

#[local] Instance mute_messages : Hickory := {
  message_from_vec := λ _, inl ""%string; name_from_str := λ _, inl ""%string;
  name_to_utf8 := λ _, []; type_debug := λ _, ""%string;
}.

Definition router_address : SocketAddr := mkSocket (V4 0xC0A80101) 53 0.
Definition home_stack : ResolverBuilder :=
  mkBuilder true None (Some (of_string ".lan", of_string "lan")) (Some router_address)
    (Some (mkFilters false (NfQualify (of_string "lan")))) true true (Some 0x0064FF9B000000000000000000000000).


(** The filter refuses private reverse names, but DNS64 asks for the one an address embeds. *)
Lemma dns64_reverse_leaves :
  let L := assoc_lru in let I := map_to_list_order in let G := demo_gate in
  let b := mkBuilder false None None None (Some (mkFilters true NfPass)) false false (Some 0x0064FF9B000000000000000000000000) in
  let reverse := of_string "1.0.1.0.8.a.0.c.0.0.0.0.0.0.0.0.0.0.0.0.0.0.0.0.b.9.f.f.4.6.0.0.ip6.arpa" in
  ∀ cache,
  let w := mkWorld cache ∅ ∅ ([], []) in
  let ask name := rs_resolve (build_resolver (λ _ _ _, None) 0 b) w (mkQuery name PTR None) in
  (w_up (ask (of_string "1.1.168.192.in-addr.arpa")).1).1 = []
  ∧ (w_up (ask reverse).1).1 = [of_string "1.1.168.192.in-addr.arpa"; reverse].
Proof. intros L I G b reverse cache w ask. split; by vm_compute. Qed.
