(* ===== verification/Coalescing.v ===== *)
(** Identical queries in flight share one resolution: the table of
    [infrastructure/src/dns/resolver/cache_layer.rs], as the steps its tasks
    take in any order; and what that promises: a follower gets the answer of a
    leader that asked the same question, one query per key is on its way below,
    and every query comes to an end. *)

From Stdlib Require Import String.
From stdpp Require Import relations.
From S2P Require Import Prelude Errors Text Net Guards Protocol Routes Forwarding Balancer WireResponse CacheRecord CacheNegative CacheBloom CacheL1 Cache LocalRecords Resolver CacheTrace ResolverSpec.

#[local] Set Default Proof Using "Type".

(** ** What a leader hands over *)

Record InflightResult := mkInflight {
  if_addresses : list IpAddr; if_cache_hit : bool; if_local_dns : bool; if_upstream_nxdomain : bool;
  if_cname_chain : list str; if_dnssec_status : option DnssecStatus; if_upstream_server : option str;
  if_upstream_pool : option str; if_min_ttl : option Z; if_wire : option bytes;
}.

Definition inflight_of (r : DnsResolution) : InflightResult :=
  mkInflight (r_addresses r) (r_cache_hit r) (r_local_dns r) (r_upstream_nxdomain r) (r_cname_chain r)
    (r_dnssec_status r) (r_upstream_server r) (r_upstream_pool r) (min_ttl r) (upstream_wire_data r).

Definition to_resolution (p : InflightResult) : DnsResolution :=
  mkResolution (if_addresses p) (if_cache_hit p) (if_local_dns p) false (if_upstream_nxdomain p) (Some Follower)
    (if_dnssec_status p) (if_cname_chain p) (if_upstream_server p) (if_upstream_pool p) (if_min_ttl p) None
    (if_wire p).

Definition set_leader (r : DnsResolution) : DnsResolution :=
  mkResolution (r_addresses r) (r_cache_hit r) (r_local_dns r) (r_local_nxdomain r) (r_upstream_nxdomain r)
    (Some Leader) (r_dnssec_status r) (r_cname_chain r) (r_upstream_server r) (r_upstream_pool r) (min_ttl r)
    (negative_soa_ttl r) (upstream_wire_data r).
Definition mark (followed : bool) (r : DnsResolution) : DnsResolution := if followed then set_leader r else r.

(** ** Tasks and flights *)

(** How a leader comes to its end: from the cache, from below, with an error, or dropped while it waits. *)
Inductive Ending := FromCache (r : DnsResolution) | Fetched (r : DnsResolution) | Failed (e : DomainError) | Cancelled.

(** A call of [resolve]: about to register; leading; waiting for the resolver below; with its
    answer; about to take its flight off the table; about to send; following; with a flight that
    came back empty. *)
Inductive Task :=
  | Starting (q : DnsQuery)
  | Leading (q : DnsQuery) (key : CacheKey)
  | Asking (q : DnsQuery) (key : CacheKey)
  | Storing (q : DnsQuery) (key : CacheKey) (x : DomainError + DnsResolution)
  | Handing (key : CacheKey) (e : Ending)
  | Sending (flight : nat) (e : Ending)
  | Following (q : DnsQuery) (key : CacheKey) (flight : nat)
  | Rechecking (q : DnsQuery)
  | Answered (x : DomainError + DnsResolution)
  | Dropped.

(** A channel: still in the table, taken off it, or closed with its last word. *)
Inductive FlightState := Registered | Taken | Sent (p : option InflightResult).
Record Flight := mkFlight { fl_key : CacheKey; fl_query : DnsQuery; fl_leader : nat; fl_state : FlightState }.

Definition handed (e : Ending) : option InflightResult :=
  match e with
  | FromCache r | Fetched r => if has_response_data r then Some (inflight_of r) else None
  | Failed _ | Cancelled => None
  end.

(** What the leader returns; a resolution some follower got is marked. *)
Definition final (e : Ending) (followed : bool) : Task :=
  match e with
  | FromCache r => Answered (cached_outcome (mark (followed && has_response_data r) r))
  | Fetched r => Answered (inr (mark (followed && has_response_data r) r))
  | Failed e => Answered (inl e)
  | Cancelled => Dropped
  end.

Definition follows (f : nat) (t : Task) : bool := match t with Following _ _ g => (f =? g)%nat | _ => false end.

Section coalescing.
Context `{Lru, IterOrder, MembershipGate, Hickory, UpstreamPort}.
Context (thread : nat) (cache_ttl : Z) (inner : DnsResolver).

Record System := mkSystem {
  sy_world : World; sy_table : gmap CacheKey nat; sy_flights : gmap nat Flight; sy_tasks : list Task;
}.

Definition set_task (s : System) (i : nat) (w : World) (t : Task) : System :=
  mkSystem w (sy_table s) (sy_flights s) (<[i := t]> (sy_tasks s)).

(** Who takes a step: a task, whoever drops a task's future, or anything else that changes the world. *)
Inductive Actor := Acts (i : nat) | Cancels (i : nat) | Outside.

Inductive coalesce_step : Actor → System → System → Prop :=
  | step_lead s i q f : sy_tasks s !! i = Some (Starting q) →
      sy_table s !! query_key (sy_world s) q = None → sy_flights s !! f = None →
      coalesce_step (Acts i) s
        (mkSystem (sy_world s) (<[query_key (sy_world s) q := f]> (sy_table s))
           (<[f := mkFlight (query_key (sy_world s) q) q i Registered]> (sy_flights s))
           (<[i := Leading q (query_key (sy_world s) q)]> (sy_tasks s)))
  | step_join s i q f : sy_tasks s !! i = Some (Starting q) →
      sy_table s !! query_key (sy_world s) q = Some f →
      coalesce_step (Acts i) s (set_task s i (sy_world s) (Following q (query_key (sy_world s) q) f))
  | step_hit s i q key w r : sy_tasks s !! i = Some (Leading q key) →
      leader_probe thread (sy_world s) q key = (w, Some r) →
      coalesce_step (Acts i) s (set_task s i w (Handing key (FromCache r)))
  | step_miss s i q key w : sy_tasks s !! i = Some (Leading q key) →
      leader_probe thread (sy_world s) q key = (w, None) →
      coalesce_step (Acts i) s (set_task s i w (Asking q key))
  | step_asked s i q key w x : sy_tasks s !! i = Some (Asking q key) →
      rs_resolve inner (sy_world s) q = (w, x) →
      coalesce_step (Acts i) s (set_task s i w (Storing q key x))
  | step_store s i q key x : sy_tasks s !! i = Some (Storing q key x) →
      coalesce_step (Acts i) s
        (set_task s i (leader_store thread cache_ttl (sy_world s) key x)
           (Handing key (match x with inr r => Fetched r | inl e => Failed e end)))
  | step_take s i key e f : sy_tasks s !! i = Some (Handing key e) → sy_table s !! key = Some f →
      coalesce_step (Acts i) s
        (mkSystem (sy_world s) (delete key (sy_table s))
           (alter (λ fl, mkFlight (fl_key fl) (fl_query fl) (fl_leader fl) Taken) f (sy_flights s))
           (<[i := Sending f e]> (sy_tasks s)))
  | step_none s i key e : sy_tasks s !! i = Some (Handing key e) → sy_table s !! key = None →
      coalesce_step (Acts i) s (set_task s i (sy_world s) (final e false))
  | step_send s i f e followed : sy_tasks s !! i = Some (Sending f e) →
      (* a follower may be gone before the receivers are counted *)
      (followed = true → existsb (follows f) (sy_tasks s) = true) →
      coalesce_step (Acts i) s
        (mkSystem (sy_world s) (sy_table s)
           (alter (λ fl, mkFlight (fl_key fl) (fl_query fl) (fl_leader fl) (Sent (handed e))) f (sy_flights s))
           (<[i := final e followed]> (sy_tasks s)))
  | step_follow s i q key f fl p : sy_tasks s !! i = Some (Following q key f) →
      sy_flights s !! f = Some fl → fl_state fl = Sent (Some p) →
      coalesce_step (Acts i) s (set_task s i (sy_world s) (Answered (inr (to_resolution p))))
  | step_empty s i q key f fl : sy_tasks s !! i = Some (Following q key f) →
      sy_flights s !! f = Some fl → fl_state fl = Sent None →
      coalesce_step (Acts i) s (set_task s i (sy_world s) (Rechecking q))
  | step_found s i q w r : sy_tasks s !! i = Some (Rechecking q) → check_cache thread (sy_world s) q = (w, Some r) →
      coalesce_step (Acts i) s (set_task s i w (Answered (cached_outcome r)))
  | step_again s i q w : sy_tasks s !! i = Some (Rechecking q) → check_cache thread (sy_world s) q = (w, None) →
      coalesce_step (Acts i) s (set_task s i w (Starting q))
  | step_cancel_asking s i q key : sy_tasks s !! i = Some (Asking q key) →
      coalesce_step (Cancels i) s (set_task s i (sy_world s) (Handing key Cancelled))
  | step_cancel s i t : sy_tasks s !! i = Some t →
      (match t with Starting _ | Following _ _ _ => True | _ => False end) →
      coalesce_step (Cancels i) s (set_task s i (sy_world s) Dropped)
  | step_world s w : coalesce_step Outside s (mkSystem w (sy_table s) (sy_flights s) (sy_tasks s)).

(** Runs, with the number of steps of their tasks, dropped ones included. *)
Definition counts (a : Actor) : nat := match a with Outside => 0 | _ => 1 end.

Inductive coalesce_run : nat → System → System → Prop :=
  | run_done s : coalesce_run 0 s s
  | run_step n a s s' s'' : coalesce_run n s s' → coalesce_step a s' s'' → coalesce_run (counts a + n) s s''.

(** Queries that arrive at an empty table. *)
Definition coalesce_start (w : World) (qs : list DnsQuery) : System := mkSystem w ∅ ∅ (Starting <$> qs).

Definition finished (t : Task) : bool := match t with Answered _ | Dropped => true | _ => false end.

(** A task that leads for [key], until it takes its flight off the table. *)
Definition owns (key : CacheKey) (t : Task) : bool :=
  match t with
  | Leading _ k | Asking _ k | Storing _ k _ | Handing k _ => bool_decide (k = key)
  | _ => false
  end.

(** A query that a resolution under [key] answers. *)
Definition asks (key : CacheKey) (q : DnsQuery) : Prop :=
  k_domain key = normalize_domain (utf8 (dq_domain q)) ∧ k_record_type key = dq_record_type q.

End coalescing.

(** ** Updates of one task *)

Lemma task_at {ts : list Task} {i t t'} :
  ts !! i = Some t → (<[i := t']> ts) !! i = Some t'.
Proof. intros E. apply list_lookup_insert_eq. by eapply lookup_lt_Some. Qed.

(** A task of the changed list is the changed one or an old one. *)
Lemma task_inv {ts : list Task} {i t t' j u} :
  ts !! i = Some t → (<[i := t']> ts) !! j = Some u → (j = i ∧ u = t') ∨ (j ≠ i ∧ ts !! j = Some u).
Proof.
  intros E. destruct (decide (j = i)) as [->|N].
  - rewrite (task_at E). intros [= ->]. by left.
  - rewrite list_lookup_insert_ne by done. by right.
Qed.

(** An old task other than the changed one stays. *)
Lemma task_stays {ts : list Task} {i t t' j u} :
  ts !! i = Some t → ts !! j = Some u → u ≠ t → (<[i := t']> ts) !! j = Some u.
Proof.
  intros E E' N. rewrite list_lookup_insert_ne; [done|]. intros ->. apply N. congruence.
Qed.

Lemma sum_decreases (f g : Task → nat) ts i t t' :
  ts !! i = Some t → (∀ j u, ts !! j = Some u → j ≠ i → (g u ≤ f u)%nat) → (g t' < f t)%nat →
  (sum_list_with g (<[i := t']> ts) < sum_list_with f ts)%nat.
Proof.
  revert i. induction ts as [|u ts IH]; intros i E Hle Hlt; [done|].
  assert (Hrest : (∀ j v, ts !! j = Some v → S j ≠ i → g v ≤ f v)%nat).
  { intros j v Ej. exact (Hle (S j) v Ej). }
  destruct i as [|i]; cbn.
  - injection E as ->. enough (sum_list_with g ts ≤ sum_list_with f ts)%nat by lia.
    clear -Hrest. induction ts as [|v ts IH]; cbn; [done|].
    pose proof (Hrest 0%nat v eq_refl ltac:(done)).
    enough (sum_list_with g ts ≤ sum_list_with f ts)%nat by lia.
    apply IH. intros j x Ej _. exact (Hrest (S j) x Ej ltac:(done)).
  - pose proof (Hle 0%nat u eq_refl ltac:(done)).
    apply Nat.add_le_lt_mono; [done|]. apply (IH i E); [|done].
    intros j v Ej N. apply (Hrest j v Ej). lia.
Qed.

Section spec.
Context `{Lru, IterOrder, MembershipGate, Hickory, UpstreamPort}.
Context (thread : nat) (cache_ttl : Z) (inner : DnsResolver).

(** ** The table, the flights and the tasks agree *)

Record flights_ok (s : System) : Prop := {
  fo_owner : ∀ i t key, sy_tasks s !! i = Some t → owns key t = true →
    ∃ f q, sy_table s !! key = Some f ∧ sy_flights s !! f = Some (mkFlight key q i Registered);
  fo_registered : ∀ f fl, sy_flights s !! f = Some fl → fl_state fl = Registered →
    sy_table s !! fl_key fl = Some f ∧ ∃ t, sy_tasks s !! fl_leader fl = Some t ∧ owns (fl_key fl) t = true;
  fo_table : ∀ key f, sy_table s !! key = Some f → ∃ q l, sy_flights s !! f = Some (mkFlight key q l Registered);
  fo_sending : ∀ i f e, sy_tasks s !! i = Some (Sending f e) →
    ∃ key q, sy_flights s !! f = Some (mkFlight key q i Taken);
  fo_taken : ∀ f fl, sy_flights s !! f = Some fl → fl_state fl = Taken →
    ∃ e, sy_tasks s !! fl_leader fl = Some (Sending f e);
  fo_sent : ∀ f fl p, sy_flights s !! f = Some fl → fl_state fl = Sent (Some p) →
    ∃ r b, p = inflight_of r ∧ has_response_data r = true
      ∧ sy_tasks s !! fl_leader fl = Some (Answered (inr (mark b r)));
  fo_following : ∀ i q key f, sy_tasks s !! i = Some (Following q key f) →
    asks key q ∧ ∃ fl, sy_flights s !! f = Some fl ∧ fl_key fl = key;
  fo_asks : ∀ f fl, sy_flights s !! f = Some fl → asks (fl_key fl) (fl_query fl);
}.

Lemma query_key_asks w q : asks (query_key w q) q.
Proof. done. Qed.

(** A step of a task that keeps its part in every flight. *)
Lemma plain_ok s w i t t' :
  flights_ok s → sy_tasks s !! i = Some t → (∀ key, owns key t' = owns key t) →
  (match t with Sending _ _ | Answered _ => False | _ => True end) →
  (match t' with
   | Sending _ _ => False
   | Following q key f => asks key q ∧ ∃ fl, sy_flights s !! f = Some fl ∧ fl_key fl = key
   | _ => True end) →
  flights_ok (set_task s i w t').
Proof.
  intros [] E Hown Ht Ht'. split; cbn; [..|done].
  - intros j u key Ej Ho. destruct (task_inv E Ej) as [[-> ->]|[_ Eu]]; [|eauto].
    rewrite Hown in Ho. eauto.
  - intros f fl Ef Es. destruct (fo_registered0 f fl Ef Es) as [Et (u & Eu & Ho)]. split; [done|].
    destruct (decide (fl_leader fl = i)) as [El|N].
    + exists t'. rewrite El, (task_at E), Hown. split; [done|]. congruence.
    + exists u. by rewrite list_lookup_insert_ne.
  - done.
  - intros j f e Ej. destruct (task_inv E Ej) as [[-> <-]|[_ Eu]]; [done|eauto].
  - intros f fl Ef Es. destruct (fo_taken0 f fl Ef Es) as [e Ee]. exists e.
    apply (task_stays E Ee). by intros <-.
  - intros f fl p Ef Es. destruct (fo_sent0 f fl p Ef Es) as (r & b & Ep & Hr & Er). exists r, b.
    split; [done|]. split; [done|]. apply (task_stays E Er). by intros <-.
  - intros j q key f Ej. destruct (task_inv E Ej) as [[-> <-]|[_ Eu]]; [done|eauto].
Qed.

Lemma lead_ok s i q f :
  flights_ok s → sy_tasks s !! i = Some (Starting q) →
  sy_table s !! query_key (sy_world s) q = None → sy_flights s !! f = None →
  flights_ok (mkSystem (sy_world s) (<[query_key (sy_world s) q := f]> (sy_table s))
    (<[f := mkFlight (query_key (sy_world s) q) q i Registered]> (sy_flights s))
    (<[i := Leading q (query_key (sy_world s) q)]> (sy_tasks s))).
Proof.
  intros [] E Hnone Hfresh. set (key := query_key (sy_world s) q) in *.
  assert (Hold : ∀ g fl, sy_flights s !! g = Some fl → f ≠ g) by (intros ? ? ? ->; congruence).
  split; cbn.
  - intros j u key' Ej Ho. destruct (task_inv E Ej) as [[-> ->]|[_ Eu]].
    + apply bool_decide_eq_true in Ho as <-. exists f, q. by rewrite !lookup_insert_eq.
    + destruct (fo_owner0 j u key' Eu Ho) as (g & q' & Et & Eg). exists g, q'.
      rewrite !lookup_insert_ne; [done|eauto|congruence].
  - intros g fl Eg Es. apply lookup_insert_Some in Eg as [[<- <-]|[N Eg]]; cbn.
    + rewrite lookup_insert_eq. split; [done|]. eexists. split; [apply (task_at E)|].
      by apply bool_decide_eq_true.
    + destruct (fo_registered0 g fl Eg Es) as [Et (u & Eu & Ho)]. split.
      * rewrite lookup_insert_ne; [done|congruence].
      * exists u. split; [|done]. apply (task_stays E Eu). by intros ->.
  - intros key' g Eg. apply lookup_insert_Some in Eg as [[<- <-]|[N Eg]].
    + exists q, i. by rewrite lookup_insert_eq.
    + destruct (fo_table0 key' g Eg) as (q' & l & El). exists q', l.
      rewrite lookup_insert_ne; [done|eauto].
  - intros j g e Ej. destruct (task_inv E Ej) as [[_ [=]]|[_ Eu]].
    destruct (fo_sending0 j g e Eu) as (k & q' & Ek). exists k, q'. rewrite lookup_insert_ne; [done|eauto].
  - intros g fl Eg Es. apply lookup_insert_Some in Eg as [[<- <-]|[N Eg]]; [done|].
    destruct (fo_taken0 g fl Eg Es) as [e Ee]. exists e. by apply (task_stays E Ee).
  - intros g fl p Eg Es. apply lookup_insert_Some in Eg as [[<- <-]|[N Eg]]; [done|].
    destruct (fo_sent0 g fl p Eg Es) as (r & b & Ep & Hr & Er). exists r, b.
    split; [done|]. split; [done|]. by apply (task_stays E Er).
  - intros j q' key' g Ej. destruct (task_inv E Ej) as [[_ [=]]|[_ Eu]].
    destruct (fo_following0 j q' key' g Eu) as [Ha (fl & Eg & Ek)]. split; [done|]. exists fl.
    rewrite lookup_insert_ne; [done|eauto].
  - intros g fl Eg. apply lookup_insert_Some in Eg as [[<- <-]|[N Eg]]; [apply query_key_asks|eauto].
Qed.

(** The owner of a key in flight: the flight is its own, and no other task owns the key. *)
Lemma owner_unique s i j t u key :
  flights_ok s → sy_tasks s !! i = Some t → sy_tasks s !! j = Some u →
  owns key t = true → owns key u = true → i = j.
Proof.
  intros Hok Ei Ej Hi Hj.
  destruct (fo_owner s Hok i t key Ei Hi) as (f & q & Ef & Efl).
  destruct (fo_owner s Hok j u key Ej Hj) as (g & q' & Eg & Egl). congruence.
Qed.

Definition at_state (x : FlightState) (fl : Flight) : Flight :=
  mkFlight (fl_key fl) (fl_query fl) (fl_leader fl) x.

Lemma at_state_inv m f x g fl :
  alter (at_state x) f m !! g = Some fl →
  (g = f ∧ ∃ old, m !! f = Some old ∧ fl = at_state x old) ∨ (g ≠ f ∧ (m : gmap nat Flight) !! g = Some fl).
Proof.
  rewrite lookup_alter_Some. intros [(<- & old & E & ->)|[N E]]; [left|right]; eauto.
Qed.

Lemma at_state_fl (m : gmap nat Flight) x f g fl :
  m !! g = Some fl → ∃ fl', alter (at_state x) f m !! g = Some fl' ∧ fl_key fl' = fl_key fl ∧ fl_query fl' = fl_query fl.
Proof.
  intros E. destruct (decide (f = g)) as [->|N].
  - rewrite lookup_alter_eq, E. by eexists.
  - rewrite lookup_alter_ne by done. by exists fl.
Qed.

Lemma take_ok s i key e f :
  flights_ok s → sy_tasks s !! i = Some (Handing key e) → sy_table s !! key = Some f →
  flights_ok (mkSystem (sy_world s) (delete key (sy_table s)) (alter (at_state Taken) f (sy_flights s))
    (<[i := Sending f e]> (sy_tasks s))).
Proof.
  intros Hok E Hf.
  assert (Hself : ∃ q, sy_flights s !! f = Some (mkFlight key q i Registered)).
  { destruct (fo_owner s Hok i _ key E (bool_decide_eq_true_2 _ eq_refl)) as (f' & q & Ef & Eq).
    exists q. congruence. }
  destruct Hself as [q Hself]. pose proof (λ j u, owner_unique s i j _ u key Hok E) as Hone.
  destruct Hok. split; cbn.
  - intros j u key' Ej Ho. destruct (task_inv E Ej) as [[-> ->]|[N Eu]]; [done|].
    destruct (fo_owner0 j u key' Eu Ho) as (g & q' & Et & Eg). exists g, q'.
    assert (key ≠ key'). { intros <-. apply N. symmetry. apply (Hone j u Eu); [|done]. by apply bool_decide_eq_true. }
    rewrite lookup_delete_ne, lookup_alter_ne by congruence. done.
  - intros g fl Eg Es. apply at_state_inv in Eg as [(-> & old & Eo & ->)|[N Eg]]; [done|].
    destruct (fo_registered0 g fl Eg Es) as [Et (u & Eu & Ho)].
    assert (key ≠ fl_key fl) by congruence. split; [by rewrite lookup_delete_ne|].
    exists u. split; [|done]. apply (task_stays E Eu). intros ->. by apply bool_decide_eq_true in Ho.
  - intros key' g Eg. apply lookup_delete_Some in Eg as [N Eg].
    destruct (fo_table0 key' g Eg) as (q' & l & El). exists q', l. rewrite lookup_alter_ne; [done|congruence].
  - intros j g e' Ej. destruct (task_inv E Ej) as [[-> [= -> ->]]|[_ Eu]].
    + exists key, q. by rewrite lookup_alter_eq, Hself.
    + destruct (fo_sending0 j g e' Eu) as (k & q' & Ek). exists k, q'.
      rewrite lookup_alter_ne; [done|congruence].
  - intros g fl Eg Es. apply at_state_inv in Eg as [(-> & old & Eo & ->)|[N Eg]]; cbn.
    + exists e. rewrite Hself in Eo. injection Eo as <-. apply (task_at E).
    + destruct (fo_taken0 g fl Eg Es) as [e' Ee]. exists e'. by apply (task_stays E Ee).
  - intros g fl p Eg Es. apply at_state_inv in Eg as [(-> & old & Eo & ->)|[N Eg]]; [done|].
    destruct (fo_sent0 g fl p Eg Es) as (r & b & Ep & Hr & Er). exists r, b.
    split; [done|]. split; [done|]. by apply (task_stays E Er).
  - intros j q' key' g Ej. destruct (task_inv E Ej) as [[_ [=]]|[_ Eu]].
    destruct (fo_following0 j q' key' g Eu) as [Ha (fl & Eg & <-)]. split; [done|].
    destruct (at_state_fl _ Taken f g fl Eg) as (fl' & ? & ? & _). eauto.
  - intros g fl Eg. apply at_state_inv in Eg as [(-> & old & Eo & ->)|[N Eg]]; [exact (fo_asks0 f old Eo)|eauto].
Qed.

Lemma cached_outcome_inr b r : has_response_data r = true → cached_outcome (mark b r) = inr (mark b r).
Proof. intros E. unfold cached_outcome. assert (has_response_data (mark b r) = true) as -> by by destruct b. done. Qed.

Lemma final_of_handed e followed p :
  handed e = Some p → ∃ r b, p = inflight_of r ∧ has_response_data r = true ∧ final e followed = Answered (inr (mark b r)).
Proof.
  destruct e as [r|r|x|]; cbn; try done; destruct (has_response_data r) eqn:Er; intros [= <-];
    exists r, (followed && true)%bool; rewrite ?cached_outcome_inr by done; done.
Qed.

Lemma final_finished e followed : finished (final e followed) = true.
Proof. by destruct e. Qed.

Lemma send_ok s i f e followed :
  flights_ok s → sy_tasks s !! i = Some (Sending f e) →
  flights_ok (mkSystem (sy_world s) (sy_table s) (alter (at_state (Sent (handed e))) f (sy_flights s))
    (<[i := final e followed]> (sy_tasks s))).
Proof.
  intros Hok E. destruct (fo_sending s Hok i f e E) as (key & q & Hself). destruct Hok.
  pose proof (final_finished e followed) as Hfin. split; cbn.
  - intros j u key' Ej Ho. destruct (task_inv E Ej) as [[-> ->]|[N Eu]]; [by destruct e|].
    destruct (fo_owner0 j u key' Eu Ho) as (g & q' & Et & Eg). exists g, q'.
    rewrite lookup_alter_ne by congruence. done.
  - intros g fl Eg Es. apply at_state_inv in Eg as [(-> & old & Eo & ->)|[N Eg]]; [done|].
    destruct (fo_registered0 g fl Eg Es) as [Et (u & Eu & Ho)]. split; [done|].
    exists u. split; [|done]. apply (task_stays E Eu). by intros ->.
  - intros key' g Eg. destruct (fo_table0 key' g Eg) as (q' & l & El). exists q', l.
    rewrite lookup_alter_ne; [done|congruence].
  - intros j g e' Ej. destruct (task_inv E Ej) as [[-> E']|[N Eu]]; [by rewrite <- E' in Hfin|].
    destruct (fo_sending0 j g e' Eu) as (k & q' & Ek). exists k, q'. rewrite lookup_alter_ne; [done|congruence].
  - intros g fl Eg Es. apply at_state_inv in Eg as [(-> & old & Eo & ->)|[N Eg]]; [done|].
    destruct (fo_taken0 g fl Eg Es) as [e' Ee]. exists e'. apply (task_stays E Ee). congruence.
  - intros g fl p Eg Es. apply at_state_inv in Eg as [(-> & old & Eo & ->)|[N Eg]]; cbn.
    + injection Es as Es. destruct (final_of_handed e followed p Es) as (r & b & Ep & Hr & Er).
      exists r, b. rewrite Hself in Eo. injection Eo as <-. cbn. by rewrite (task_at E), Er.
    + destruct (fo_sent0 g fl p Eg Es) as (r & b & Ep & Hr & Er). exists r, b.
      split; [done|]. split; [done|]. by apply (task_stays E Er).
  - intros j q' key' g Ej. destruct (task_inv E Ej) as [[-> E']|[_ Eu]]; [by rewrite <- E' in Hfin|].
    destruct (fo_following0 j q' key' g Eu) as [Ha (fl & Eg & <-)]. split; [done|].
    destruct (at_state_fl _ (Sent (handed e)) f g fl Eg) as (fl' & ? & ? & _). eauto.
  - intros g fl Eg. apply at_state_inv in Eg as [(-> & old & Eo & ->)|[N Eg]]; [exact (fo_asks0 f old Eo)|eauto].
Qed.

Lemma flights_step_ok a s s' :
  flights_ok s → coalesce_step thread cache_ttl inner a s s' → flights_ok s'.
Proof.
  intros Hok Hstep. destruct Hstep.
  all: try (eapply plain_ok; [done|eassumption|done|done|done]).
  - by apply lead_ok.
  - eapply plain_ok; [done|eassumption|done|done|]. cbn. split; [apply query_key_asks|].
    match goal with E : sy_table _ !! _ = Some _ |- _ => destruct (fo_table _ Hok _ _ E) as (? & ? & ->) end.
    by eexists.
  - by apply take_ok.
  - match goal with E : sy_tasks _ !! _ = Some (Handing _ _) |- _ =>
      destruct (fo_owner _ Hok _ _ _ E (bool_decide_eq_true_2 _ eq_refl)) as (? & ? & ? & _) end. congruence.
  - by apply send_ok.
  - match goal with t : Task |- _ => eapply (plain_ok _ _ _ t); [done|eassumption|by destruct t..] end.
  - destruct Hok. by split.
Qed.

Lemma flights_run_ok n w qs s : coalesce_run thread cache_ttl inner n (coalesce_start w qs) s → flights_ok s.
Proof.
  intros Hrun. remember (coalesce_start w qs) as s0 eqn:E.
  induction Hrun as [s|n a s s' s'' Hrun IH Hstep]; subst; [|eauto using flights_step_ok].
  assert (Htask : ∀ i t, (Starting <$> qs) !! i = Some t → ∃ q, t = Starting q).
  { intros i t Ei. apply list_lookup_fmap_Some in Ei as (q & -> & _). by exists q. }
  split; cbn; intros i; intros; try (rewrite lookup_empty in *; discriminate);
    edestruct (Htask i) as [? ?]; eauto; subst; discriminate.
Qed.

(** ** Every query comes to an end *)

(** Flights there may still be: one per task that may lead, and those in the table. *)
Definition may_lead (t : Task) : nat := match t with Starting _ | Following _ _ _ | Rechecking _ => 1 | _ => 0 end.
Definition flights_left (s : System) : nat := (sum_list_with may_lead (sy_tasks s) + size (sy_table s))%nat.

(** Steps a task has left, when no more than [left] flights come to an end. *)
Definition task_left (left : nat) (flights : gmap nat Flight) (t : Task) : nat :=
  match t with
  | Starting _ => 4 * left + 5
  | Leading _ _ => 5
  | Asking _ _ => 4
  | Storing _ _ _ => 3
  | Handing _ _ => 2
  | Sending _ _ => 1
  | Following _ _ f =>
      match fl_state <$> flights !! f with Some Registered | None => 4 * left + 4 | _ => 4 * left + 7 end
  | Rechecking _ => 4 * left + 6
  | Answered _ | Dropped => 0
  end%nat.
Definition steps_left (s : System) : nat :=
  sum_list_with (task_left (flights_left s) (sy_flights s)) (sy_tasks s).

Lemma task_left_mono l l' flights t : (l ≤ l')%nat → (task_left l flights t ≤ task_left l' flights t)%nat.
Proof. intros Hle. destruct t; cbn; try lia. destruct (fl_state <$> _) as [[]|]; lia. Qed.

Lemma may_lead_step ts i t t' :
  ts !! i = Some t → (sum_list_with may_lead (<[i := t']> ts) + may_lead t = sum_list_with may_lead ts + may_lead t')%nat.
Proof.
  revert i. induction ts as [|u ts IH]; intros [|i] E; try done.
  - injection E as ->. cbn. lia.
  - specialize (IH i E). change (<[S i:=t']> (u :: ts)) with (u :: <[i:=t']> ts). cbn [sum_list_with]. lia.
Qed.

(** A step of one task that leaves the table and the flights. *)
Lemma plain_decreases s w i t t' :
  sy_tasks s !! i = Some t → (may_lead t' ≤ may_lead t)%nat →
  (task_left (flights_left s) (sy_flights s) t' < task_left (flights_left s) (sy_flights s) t)%nat →
  (steps_left (set_task s i w t') < steps_left s)%nat.
Proof.
  intros E Hm Ht. pose proof (may_lead_step _ i t t' E) as Hs.
  assert (Hleft : (flights_left (set_task s i w t') ≤ flights_left s)%nat) by (unfold flights_left; cbn; lia).
  unfold steps_left. cbn [set_task sy_tasks sy_flights]. apply (sum_decreases _ _ _ i t); [done|..].
  - intros j u _ _. by apply task_left_mono.
  - eapply Nat.le_lt_trans; [|exact Ht]. by apply task_left_mono.
Qed.

Lemma lead_decreases s i q f key :
  flights_ok s → sy_tasks s !! i = Some (Starting q) → sy_table s !! key = None → sy_flights s !! f = None →
  (steps_left (mkSystem (sy_world s) (<[key := f]> (sy_table s))
     (<[f := mkFlight key q i Registered]> (sy_flights s)) (<[i := Leading q key]> (sy_tasks s))) < steps_left s)%nat.
Proof.
  intros Hok E Hn Hf. pose proof (may_lead_step _ i _ (Leading q key) E) as Hs. cbn in Hs.
  unfold steps_left. cbn [sy_tasks sy_flights].
  match goal with |- (sum_list_with (task_left ?l _) _ < _)%nat => assert (l = flights_left s) as -> end.
  { unfold flights_left. cbn [sy_tasks sy_table]. rewrite map_size_insert_None by done. lia. }
  apply (sum_decreases _ _ _ i (Starting q)); [done|..|cbn; unfold flights_left; lia].
  intros j u Eu _. destruct u as [| | | | | |q' key' g| | |]; cbn; try lia.
  rewrite lookup_insert_ne; [done|]. intros <-.
  destruct (fo_following s Hok j q' key' _ Eu) as [_ (fl & Eg & _)]. congruence.
Qed.

Lemma take_decreases s i key e f :
  sy_tasks s !! i = Some (Handing key e) → sy_table s !! key = Some f →
  (steps_left (mkSystem (sy_world s) (delete key (sy_table s)) (alter (at_state Taken) f (sy_flights s))
     (<[i := Sending f e]> (sy_tasks s))) < steps_left s)%nat.
Proof.
  intros E Hf. pose proof (may_lead_step _ i _ (Sending f e) E) as Hs. cbn in Hs.
  pose proof (map_size_delete_Some key (sy_table s) (ex_intro _ f Hf)) as Hsize.
  assert (size (sy_table s) ≠ 0%nat) as Hpos by (intros Hz; apply map_size_empty_iff in Hz; by rewrite Hz in Hf).
  unfold steps_left. cbn [sy_tasks sy_flights].
  match goal with |- (sum_list_with (task_left ?l _) _ < _)%nat => assert (S l = flights_left s) as Hl end.
  { unfold flights_left. cbn [sy_tasks sy_table]. lia. }
  apply (sum_decreases _ _ _ i (Handing key e)); [done|..|cbn; lia].
  intros j u Eu _. rewrite <- Hl. generalize (flights_left
    (mkSystem (sy_world s) (delete key (sy_table s)) (alter (at_state Taken) f (sy_flights s)) (<[i:=Sending f e]> (sy_tasks s)))).
  intros l. destruct u as [| | | | | |q' key' g| | |]; cbn [task_left]; try lia.
  destruct (decide (f = g)) as [<-|N].
  - rewrite lookup_alter_eq. destruct (sy_flights s !! f) as [fl|]; cbn; [|lia]. destruct (fl_state fl); lia.
  - rewrite lookup_alter_ne by done. destruct (fl_state <$> _) as [[]|]; lia.
Qed.

Lemma send_decreases s i f e followed :
  flights_ok s → sy_tasks s !! i = Some (Sending f e) →
  (steps_left (mkSystem (sy_world s) (sy_table s) (alter (at_state (Sent (handed e))) f (sy_flights s))
     (<[i := final e followed]> (sy_tasks s))) < steps_left s)%nat.
Proof.
  intros Hok E. destruct (fo_sending s Hok i f e E) as (key & q & Hself).
  pose proof (may_lead_step _ i _ (final e followed) E) as Hs.
  assert (may_lead (final e followed) = 0%nat) as Hz by by destruct e. rewrite Hz in Hs. cbn in Hs.
  unfold steps_left. cbn [sy_tasks sy_flights].
  match goal with |- (sum_list_with (task_left ?l _) _ < _)%nat => assert (l = flights_left s) as -> end.
  { unfold flights_left. cbn [sy_tasks sy_table]. lia. }
  apply (sum_decreases _ _ _ i (Sending f e)); [done|..|destruct e; cbn; lia].
  intros j u Eu _. destruct u as [| | | | | |q' key' g| | |]; cbn [task_left]; try lia.
  destruct (decide (f = g)) as [<-|N].
  - by rewrite lookup_alter_eq, Hself.
  - by rewrite lookup_alter_ne by done.
Qed.

Lemma step_decreases a s s' :
  flights_ok s → coalesce_step thread cache_ttl inner a s s' →
  (counts a + steps_left s' ≤ steps_left s)%nat.
Proof.
  intros Hok Hstep.
  assert (Hlt : a ≠ Outside → (steps_left s' < steps_left s)%nat);
    [|destruct a; cbn; [specialize (Hlt ltac:(done)); lia..|]].
  - destruct Hstep; intros Hne; try done.
    all: try (eapply plain_decreases; [eassumption|cbn; lia|cbn; lia]).
    + by apply lead_decreases.
    + eapply plain_decreases; [eassumption|cbn; lia|]. cbn.
      match goal with E : sy_table _ !! _ = Some _ |- _ => destruct (fo_table _ Hok _ _ E) as (? & ? & ->) end.
      cbn. lia.
    + by apply take_decreases.
    + eapply plain_decreases; [eassumption|destruct e; cbn; lia..].
    + by apply send_decreases.
    + eapply plain_decreases; [eassumption|cbn; lia|]. cbn.
      match goal with E : sy_flights _ !! _ = Some _, E' : fl_state _ = _ |- _ => rewrite E; cbn; rewrite E' end. lia.
    + eapply plain_decreases; [eassumption|cbn; lia|]. cbn.
      match goal with E : sy_flights _ !! _ = Some _, E' : fl_state _ = _ |- _ => rewrite E; cbn; rewrite E' end. lia.
    + eapply plain_decreases; [eassumption|cbn; lia|]. destruct t; try done; cbn; try lia.
      destruct (fl_state <$> _) as [[]|]; lia.
  - inversion Hstep. by subst.
Qed.

Lemma run_decreases n s0 s :
  flights_ok s0 → coalesce_run thread cache_ttl inner n s0 s → flights_ok s ∧ (n + steps_left s ≤ steps_left s0)%nat.
Proof.
  intros Hok Hrun. induction Hrun as [s|n a s s' s'' Hrun IH Hstep]; [auto|].
  destruct (IH Hok) as [Hok' Hle]. split; [by eapply flights_step_ok|].
  pose proof (step_decreases a s' s'' Hok' Hstep). lia.
Qed.

Lemma start_left w qs : steps_left (coalesce_start w qs) = (length qs * (4 * length qs + 5))%nat.
Proof.
  assert (Hsum : ∀ l m, sum_list_with (task_left l m) (Starting <$> qs) = (length qs * (4 * l + 5))%nat)
    by (intros l m; induction qs as [|q qs IH]; [done|]; rewrite fmap_cons; cbn [sum_list_with]; rewrite IH;
        cbn [task_left length]; lia).
  assert (Hlead : sum_list_with may_lead (Starting <$> qs) = length qs) 
    by (clear Hsum; induction qs as [|q qs IH]; [done|]; cbn; by f_equal).
  unfold steps_left, flights_left. cbn [coalesce_start sy_tasks sy_table sy_flights].
  by rewrite Hsum, Hlead, map_size_empty, Nat.add_0_r.
Qed.

(** A task that is not waiting for a flight has a step to take. *)
Lemma task_steps s i t :
  sy_tasks s !! i = Some t → finished t = false → (match t with Following _ _ _ => False | _ => True end) →
  ∃ s', coalesce_step thread cache_ttl inner (Acts i) s s'.
Proof.
  intros E Hf Hw. destruct t as [q|q key|q key|q key x|key e|f e|q key f|q|x|]; try done.
  - destruct (sy_table s !! query_key (sy_world s) q) as [f|] eqn:Ef; eexists.
    + by eapply step_join.
    + eapply (step_lead _ _ _ _ _ _ (fresh (dom (sy_flights s)))); [done|done|].
      apply not_elem_of_dom, is_fresh.
  - destruct (leader_probe thread (sy_world s) q key) as [w [r|]] eqn:Ep; eexists.
    + by eapply step_hit.
    + by eapply step_miss.
  - destruct (rs_resolve inner (sy_world s) q) as [w x] eqn:Ex. eexists. by eapply step_asked.
  - eexists. by eapply step_store.
  - destruct (sy_table s !! key) as [f|] eqn:Ef; eexists; [by eapply step_take|by eapply step_none].
  - eexists. by eapply (step_send _ _ _ _ _ _ _ false).
  - destruct (check_cache thread (sy_world s) q) as [w [r|]] eqn:Ec; eexists; [by eapply step_found|by eapply step_again].
Qed.

Lemma unfinished_steps s i t :
  flights_ok s → sy_tasks s !! i = Some t → finished t = false →
  ∃ j s', coalesce_step thread cache_ttl inner (Acts j) s s'.
Proof.
  intros Hok E Hf. destruct t as [| | | | | |q key f| | |]; try done; try (exists i; by eapply task_steps).
  destruct (fo_following s Hok i q key f E) as [_ (fl & Ef & Ek)].
  destruct (fl_state fl) as [| |[p|]] eqn:Es.
  - destruct (fo_registered s Hok f fl Ef Es) as [_ (t & Et & Ho)]. exists (fl_leader fl).
    eapply task_steps; [done|by destruct t..].
  - destruct (fo_taken s Hok f fl Ef Es) as [e Ee]. exists (fl_leader fl). by eapply task_steps.
  - exists i. eexists. by eapply step_follow.
  - exists i. eexists. by eapply step_empty.
Qed.

(** C14: queries that arrive together at the table all come to an end: whatever order their tasks
    run in, whatever the world does between their steps, and whichever of them are dropped while
    they wait, the tasks take at most quadratically many steps, and as long as one of them is
    not answered or dropped some task has a step to take. *)
Theorem every_query_ends n w qs s :
  coalesce_run thread cache_ttl inner n (coalesce_start w qs) s →
  (n ≤ length qs * (4 * length qs + 5))%nat ∧
  ((∀ i t, sy_tasks s !! i = Some t → finished t = true) ∨
   ∃ i s', coalesce_step thread cache_ttl inner (Acts i) s s').
Proof.
  intros Hrun. pose proof (flights_run_ok 0 w qs _ (run_done _ _ _ _)) as Hstart.
  destruct (run_decreases n _ s Hstart Hrun) as [Hok Hle]. rewrite start_left in Hle. split; [lia|].
  destruct (forallb finished (sy_tasks s)) eqn:Ef.
  - left. intros i t E. rewrite forallb_forall in Ef. apply Ef, list_elem_of_In. by eapply list_elem_of_lookup_2.
  - right. destruct (existsb (negb ∘ finished) (sy_tasks s)) eqn:Ex.
    + apply existsb_exists in Ex as (t & Ht & Hf). apply list_elem_of_In, list_elem_of_lookup in Ht as [i E].
      apply (unfinished_steps s i t Hok E). by apply negb_true_iff in Hf.
    + exfalso. apply not_true_iff_false in Ef. apply Ef, forallb_forall. intros t Ht.
      apply not_false_iff_true. intros Hf. apply not_true_iff_false in Ex. apply Ex, existsb_exists.
      exists t. split; [done|]. cbn. by rewrite Hf.
Qed.

(** ** What a follower gets *)

(** C13: a query that joins another gets what that one got: a follower of a flight that is handed
    a result is answered with the result of the flight's leader, a response with data, and the
    leader asked for the same name, whatever its case, the same type and the same view; and the
    leader itself is answered with it, at most marked as one that others followed. *)
Theorem followers_share n w qs s a s' i q key f x :
  coalesce_run thread cache_ttl inner n (coalesce_start w qs) s →
  coalesce_step thread cache_ttl inner a s s' →
  sy_tasks s !! i = Some (Following q key f) → sy_tasks s' !! i = Some (Answered x) →
  ∃ fl r b, sy_flights s !! f = Some fl ∧ fl_key fl = key ∧
    normalize_domain (utf8 (dq_domain (fl_query fl))) = normalize_domain (utf8 (dq_domain q)) ∧
    dq_record_type (fl_query fl) = dq_record_type q ∧
    has_response_data r = true ∧ x = inr (to_resolution (inflight_of r)) ∧
    sy_tasks s !! fl_leader fl = Some (Answered (inr (mark b r))).
Proof.
  intros Hrun Hstep E E'. pose proof (flights_run_ok n w qs s Hrun) as Hok.
  destruct (fo_following s Hok i q key f E) as [[Hn Ht] (fl & Ef & <-)].
  assert (Hp : ∃ p, fl_state fl = Sent (Some p) ∧ x = inr (to_resolution p)).
  { destruct Hstep; cbn in E'; try congruence;
      match goal with Et : sy_tasks _ !! ?j = Some ?t |- _ =>
        assert_fails (unify t (Following q (fl_key fl) f));
        destruct (task_inv Et E') as [[-> Eu]|[_ Eu]]; [|congruence]; rewrite E in Et; try discriminate
      end.
    exists p. split; congruence. }
  destruct Hp as (p & Es & ->).
  destruct (fo_sent s Hok f fl p Ef Es) as (r & b & -> & Hr & Er). destruct (fo_asks s Hok f fl Ef) as [Hn' Ht'].
  exists fl, r, b. repeat split; congruence.
Qed.

(** One query per question is on its way to the resolver below: of the tasks that lead for a
    key, or ask, or store their answer, there is never more than one. *)
Theorem one_leader_a_key n w qs s i j t u key :
  coalesce_run thread cache_ttl inner n (coalesce_start w qs) s →
  sy_tasks s !! i = Some t → sy_tasks s !! j = Some u → owns key t = true → owns key u = true → i = j.
Proof. intros Hrun. apply owner_unique. by eapply flights_run_ok. Qed.
End spec.

(** ** Examples *)

(** A resolver below that answers at once. *)
Definition quick_answer : DnsResolution := local_answer_of [V4 0x01020304] (Some 60).
Definition quick_resolver `{UpstreamPort, Lru, IterOrder, MembershipGate} : DnsResolver :=
  mkResolver (λ w _, (w, None)) (λ w _ _ _, (w, None)) (λ w _, (w, inr quick_answer)).

Definition first_query : DnsQuery := mkQuery (of_string "Nas.example") A None.
Definition second_query : DnsQuery := mkQuery (of_string "nas.example") A None.

Section example.
#[local] Existing Instances assoc_lru map_to_list_order demo_gate mute_messages silent_port.

Definition quiet_world : World := mkWorld (cache_new demo_config demo_bloom) ∅ ∅ ([], []).
Definition shared_start : System := coalesce_start quiet_world [first_query; second_query].
Definition shared_key : CacheKey := query_key quiet_world first_query.

(** The first query leads, the second joins, and the first is answered. *)
Lemma shared_run : ∃ s,
  coalesce_run 0 300 quick_resolver 7 shared_start s ∧
  sy_tasks s = [Answered (inr (set_leader quick_answer)); Following second_query shared_key 0] ∧
  sy_flights s = {[0%nat := mkFlight shared_key first_query 0 (Sent (Some (inflight_of quick_answer)))]}.
Proof.
  assert (Hprobe : (leader_probe 0 quiet_world first_query shared_key).2 = None) by by vm_compute.
  destruct (leader_probe 0 quiet_world first_query shared_key) as [w []] eqn:Ep; [done|].
  assert (Hkey : query_key quiet_world second_query = shared_key) by by vm_compute.
  unfold shared_key in *. set (key := query_key quiet_world first_query) in *.
  assert (Hrun := run_done 0 300 quick_resolver shared_start).
  eapply run_step in Hrun; [|apply (step_lead _ _ _ _ 0 first_query 0%nat); done].
  eapply run_step in Hrun; [|apply (step_join _ _ _ _ 1 second_query 0%nat);
    [done|cbn [sy_table sy_world shared_start coalesce_start]; by rewrite Hkey, lookup_insert_eq]].
  eapply run_step in Hrun; [|by apply (step_miss _ _ _ _ 0 first_query key w)].
  eapply run_step in Hrun; [|by apply (step_asked _ _ _ _ 0 first_query key w (inr quick_answer))].
  eapply run_step in Hrun; [|by apply (step_store _ _ _ _ 0 first_query key (inr quick_answer))].
  eapply run_step in Hrun; [|apply (step_take _ _ _ _ 0 key (Fetched quick_answer) 0%nat);
    [done|cbn [sy_table set_task]; by rewrite lookup_insert_eq]].
  eapply run_step in Hrun; [|by apply (step_send _ _ _ _ 0 0%nat (Fetched quick_answer) true)].
  eexists. split; [exact Hrun|]. split.
  - cbn. by rewrite Hkey.
  - cbn. by rewrite insert_empty, !alter_singleton.
Qed.

Lemma followers_share_witness : ∃ s s',
  coalesce_run 0 300 quick_resolver 7 shared_start s ∧
  coalesce_step 0 300 quick_resolver (Acts 1) s s' ∧
  sy_tasks s' !! 1%nat = Some (Answered (inr (to_resolution (inflight_of quick_answer)))) ∧
  ∃ fl r b, sy_flights s !! 0%nat = Some fl ∧ fl_key fl = shared_key ∧
    normalize_domain (utf8 (dq_domain (fl_query fl))) = normalize_domain (utf8 (of_string "nas.example")) ∧
    dq_record_type (fl_query fl) = A ∧ has_response_data r = true ∧
    inr (to_resolution (inflight_of quick_answer)) = inr (to_resolution (inflight_of r)) :> DomainError + DnsResolution ∧
    sy_tasks s !! fl_leader fl = Some (Answered (inr (mark b r))).
Proof.
  destruct shared_run as (s & Hrun & Ht & Hf).
  assert (E : sy_tasks s !! 1%nat = Some (Following second_query shared_key 0)) by by rewrite Ht.
  assert (Hstep := step_follow 0 300 quick_resolver s 1 second_query shared_key 0 _ (inflight_of quick_answer)
    E ltac:(by rewrite Hf, lookup_singleton_eq) eq_refl).
  assert (E' := @task_at _ _ _ (Answered (inr (to_resolution (inflight_of quick_answer)))) E).
  exists s. eexists. split; [exact Hrun|]. split; [exact Hstep|]. split; [exact E'|].
  exact (followers_share 0 300 quick_resolver 7 quiet_world [first_query; second_query] s _ _ 1
    second_query shared_key 0 _ Hrun Hstep E E').
Defined.

Lemma every_query_ends_witness : ∃ s,
  coalesce_run 0 300 quick_resolver 7 shared_start s ∧ (7 ≤ 2 * (4 * 2 + 5))%nat ∧
  ((∀ i t, sy_tasks s !! i = Some t → finished t = true) ∨
   ∃ i s', coalesce_step 0 300 quick_resolver (Acts i) s s').
Proof.
  destruct shared_run as (s & Hrun & _). exists s. split; [exact Hrun|].
  exact (every_query_ends 0 300 quick_resolver 7 quiet_world [first_query; second_query] s Hrun).
Defined.

Lemma one_leader_a_key_witness : ∃ s,
  coalesce_run 0 300 quick_resolver 1 shared_start s ∧
  ∀ j u, sy_tasks s !! j = Some u → owns shared_key u = true → 0%nat = j.
Proof.
  assert (Hrun := run_done 0 300 quick_resolver shared_start).
  eapply run_step in Hrun; [|apply (step_lead _ _ _ _ 0 first_query 0%nat); done].
  eexists. split; [exact Hrun|]. intros j u Ej Hu.
  exact (one_leader_a_key 0 300 quick_resolver 1 quiet_world [first_query; second_query] _ 0 j _ u shared_key
    Hrun eq_refl Ej (bool_decide_eq_true_2 _ eq_refl) Hu).
Defined.
End example.
