(* ===== verification/Worker.v ===== *)
(** The worker that keeps the cache renewed, bounded and clean:
    [infrastructure/src/dns/cache_maintenance.rs].

    A [World] is the cache, the worker and what runs beside it: the renewals in
    flight, and the eviction pass and the filter rotation on their blocking
    threads.  Each cache operation is one step, and so is one tick of the
    worker, and what a renewal does once its answer is there. *)

From stdpp Require Import relations.
From S2P Require Import Prelude Errors Net Float64 CacheRecord CacheSchedule CacheNegative.
From S2P Require Import CacheBloom CacheL1 Cache CacheInvariant CacheEvict CacheSafety CacheTrace.

Definition MIN_BLOOM_ROTATION_MINUTES : Z := 3.
Definition MAX_CONCURRENT_REFRESHES : nat := 16.
Definition SWEEP_FACTOR : nat := 2.
Definition SWEEP_BUDGET : nat := Z.to_nat 16384.

(** ** Renewals *)

Module Origin.
Inductive RefreshOrigin := Stale | Due | Retry.
End Origin.
Abbreviation RefreshOrigin := Origin.RefreshOrigin.

#[export] Instance RefreshOrigin_eq_dec : EqDecision RefreshOrigin.
Proof. solve_decision. Defined.

Inductive RefreshOutcome := Renewed | Declined | Removed | Kept.

Abbreviation RefreshResult := (RefreshOutcome + DomainError)%type.

Definition retry_in (origin : RefreshOrigin) (outcome : RefreshResult) (remaining_secs : Z)
    : option Z :=
  match origin, outcome with
  | Origin.Due, inl Declined =>
      if 2 <=? remaining_secs then Some (remaining_secs - 1) else Some remaining_secs
  | Origin.Retry, inl Declined => Some remaining_secs
  | Origin.Due, inr Error.AllUpstreamsServfail =>
      if 2 <=? remaining_secs then Some (remaining_secs / 2) else None
  | _, _ => None
  end.

(** The heap of claimed renewals. *)
Class DueHeap := {
  due_pop : list DueRefresh → option (DueRefresh * list DueRefresh);
  due_pop_perm l d rest : due_pop l = Some (d, rest) → l ≡ₚ d :: rest;
  due_pop_first l d rest e : due_pop l = Some (d, rest) → e ∈ rest → more_urgent e d = false;
  due_pop_none l : due_pop l = None ↔ l = [];
}.

Section worker.
Context `{Lru, IterOrder, MembershipGate, DueHeap} (powf : f64 → f64 → f64).

(** What one renewal does with the resolver's answer. *)
Definition refresh_entry (c : DnsCache) (thread : nat) (key : CacheKey) (origin : RefreshOrigin)
    (answer : DnsResolution + DomainError) (now : Z) : DnsCache * RefreshResult :=
  match answer with
  | inr e => (c, inr e)
  | inl resolution =>
      match r_dnssec_status resolution with
      | Some Bogus =>
          ((remove_in c thread (k_domain key) (k_record_type key) (k_view key)).1, inl Removed)
      | Some Indeterminate => (c, inl Kept)
      | status =>
          match from_resolution resolution with
          | None => (c, inl Kept)
          | Some new_data =>
              let dnssec_status := dnssec_from <$> status in
              let ttl := match min_ttl resolution with
                | Some ttl => ttl
                | None => negative_ttl (negative_soa_ttl resolution)
                end in
              let remaining := default 0 (remaining_ttl_of c key now) in
              if negb (bool_decide (origin = Origin.Stale))
                 && match min_ttl resolution with Some _ => true | None => false end
                 && (0 <? remaining) && (clamp_ttl c ttl <=? remaining)
              then (c, inl Declined)
              else
                let '(c, stored) :=
                  refresh_record_of c thread key (Some ttl) new_data dnssec_status now in
                (c, inl (if stored : bool then Renewed else Kept))
          end
      end
  end.

Definition follow_up (c : DnsCache) (thread : nat) (key : CacheKey) (origin : RefreshOrigin)
    (outcome : RefreshResult) (now : Z) : DnsCache :=
  match outcome with
  | inl Renewed =>
      if bool_decide (origin = Origin.Stale) then c else bump c OptimisticRefreshes
  | _ =>
      let remaining := default 0 (remaining_ttl_of c key now) in
      let c := match retry_in origin outcome remaining with
        | Some in_secs => schedule_retry c thread key in_secs now
        | None => rearm_lapsed c thread key now
        end in
      reset_refreshing_of c key
  end.

(** ** The worker *)

Record RefreshWorker := mkWorker {
  thresholds : ColdThresholds;
  schedule : RefreshSchedule;
  stale : list RefreshRequest;
  due : list DueRefresh;
  base_sweep_at : nat;
  sweep_at : nat;
  sweep_from : option SweepFrom;
  bloom_rotation_secs : Z;
  next_rotation_at_secs : Z;
  evicting : bool;
  rotating : bool;
}.

Definition worker_new (c : DnsCache) (th : ColdThresholds) (now : Z) : RefreshWorker :=
  let base := (max_entries (config c) * SWEEP_FACTOR)%nat in
  let secs := Z.max (cfg_min_ttl (config c) / 60) MIN_BLOOM_ROTATION_MINUTES * 60 in
  mkWorker th schedule_new [] [] base base None secs (now + secs) false false.

Definition with_schedule (w : RefreshWorker) (s : RefreshSchedule) : RefreshWorker :=
  mkWorker (thresholds w) s (stale w) (due w) (base_sweep_at w) (sweep_at w) (sweep_from w)
    (bloom_rotation_secs w) (next_rotation_at_secs w) (evicting w) (rotating w).
Definition with_due (w : RefreshWorker) (d : list DueRefresh) : RefreshWorker :=
  mkWorker (thresholds w) (schedule w) (stale w) d (base_sweep_at w) (sweep_at w) (sweep_from w)
    (bloom_rotation_secs w) (next_rotation_at_secs w) (evicting w) (rotating w).
Definition with_stale (w : RefreshWorker) (q : list RefreshRequest) : RefreshWorker :=
  mkWorker (thresholds w) (schedule w) q (due w) (base_sweep_at w) (sweep_at w) (sweep_from w)
    (bloom_rotation_secs w) (next_rotation_at_secs w) (evicting w) (rotating w).
Definition with_passes (w : RefreshWorker) (e r : bool) : RefreshWorker :=
  mkWorker (thresholds w) (schedule w) (stale w) (due w) (base_sweep_at w) (sweep_at w)
    (sweep_from w) (bloom_rotation_secs w) (next_rotation_at_secs w) e r.

(** The worker beside the cache. *)
Record World := mkWorld {
  w_cache : DnsCache;
  worker : RefreshWorker;
  flights : list (CacheKey * RefreshOrigin);
  w_now : Z;
}.

Definition with_cache_of (w : World) (c : DnsCache) : World :=
  mkWorld c (worker w) (flights w) (w_now w).

(** *** The tick *)

Definition collect_timers (w : World) : World :=
  let '(timers, i) := inbox_drain (inbox (w_cache w)) in
  mkWorld (set_inbox (w_cache w) i)
    (with_schedule (worker w) (foldl register (schedule (worker w)) timers)) (flights w) (w_now w).

Definition fire (th : ColdThresholds) (thread : nat) (now : Z) (c : DnsCache)
    (due : list DueRefresh) (t : ScheduledRefresh) : DnsCache * list DueRefresh :=
  if bool_decide (t_kind t = NegativeExpiry) then ((expire_negative c (t_key t) now).1, due)
  else
    let '(c, d) := claim_due_refresh c thread t now th in
    (c, match d with Some d => due ++ [d] | None => due end).

Fixpoint fire_all (th : ColdThresholds) (thread : nat) (now : Z) (c : DnsCache)
    (due : list DueRefresh) (ts : list ScheduledRefresh) : DnsCache * list DueRefresh :=
  match ts with
  | [] => (c, due)
  | t :: ts => let '(c, due) := fire th thread now c due t in fire_all th thread now c due ts
  end.

Definition fire_due (w : World) (thread : nat) (now : Z) : World :=
  let '(ts, s) := take_due (schedule (worker w)) now in
  let '(c, d) := fire_all (thresholds (worker w)) thread now (w_cache w) (due (worker w)) ts in
  mkWorld c (with_due (with_schedule (worker w) s) d) (flights w) (w_now w).

(** [retain]: what is kept of the heap, and the cache without the dead. *)
Fixpoint give_up_all (now : Z) (c : DnsCache) (due : list DueRefresh) : DnsCache * list DueRefresh :=
  match due with
  | [] => (c, [])
  | d :: due =>
      if negb (has_died_by d now) then
        let '(c, rest) := give_up_all now c due in (c, d :: rest)
      else give_up_all now (give_up_dead_claim c (d_key d) now) due
  end.

Definition give_up_dead_claims (w : World) (now : Z) : World :=
  match due (worker w) with
  | [] => w
  | _ =>
      let '(c, d) := give_up_all now (w_cache w) (due (worker w)) in
      mkWorld c (with_due (worker w) d) (flights w) (w_now w)
  end.

Definition still_there (c : DnsCache) (key : CacheKey) (kind : TimerKind) : bool :=
  if bool_decide (kind = NegativeExpiry) then holds_negative c key else holds c key.

Definition sweep_step (w : World) : World :=
  let r := worker w in
  let from := match sweep_from r with
    | Some from => Some from
    | None => if (sweep_at r <? len (schedule r))%nat then Some START else None
    end in
  match from with
  | None => w
  | Some from =>
      let '(s, from) := sweep (schedule r) from SWEEP_BUDGET (still_there (w_cache w)) in
      let at_ := match from with
        | None => Nat.max (base_sweep_at r) (len s * SWEEP_FACTOR)
        | Some _ => sweep_at r
        end in
      mkWorld (w_cache w)
        (mkWorker (thresholds r) s (stale r) (due r) (base_sweep_at r) at_ from
           (bloom_rotation_secs r) (next_rotation_at_secs r) (evicting r) (rotating r))
        (flights w) (w_now w)
  end.

(** Starts the passes that are wanted and not still running. *)
Definition maintain (w : World) (now : Z) : World :=
  let r := worker w in
  let over := is_over_capacity (w_cache w) in
  let rotate := next_rotation_at_secs r <=? now in
  let next := if rotate then now + bloom_rotation_secs r else next_rotation_at_secs r in
  mkWorld (w_cache w)
    (mkWorker (thresholds r) (schedule r) (stale r) (due r) (base_sweep_at r) (sweep_at r)
       (sweep_from r) (bloom_rotation_secs r) next (evicting r || over) (rotating r || rotate))
    (flights w) (w_now w).

Definition on_tick (w : World) (thread : nat) (now : Z) : World :=
  let w := mkWorld (w_cache w) (worker w) (flights w) now in
  let w := collect_timers w in
  let w := fire_due w thread now in
  let w := give_up_dead_claims w now in
  let w := sweep_step w in
  maintain w now.

(** *** Starting work *)

Definition start_next (w : World) (thread : nat) : World :=
  match stale (worker w) with
  | (domain, t, view) :: rest =>
      mkWorld (w_cache w) (with_stale (worker w) rest)
        (flights w ++ [(in_view (key_new domain t) view, Origin.Stale)]) (w_now w)
  | [] =>
      match due_pop (due (worker w)) with
      | None => w
      | Some (d, rest) =>
          let '(c, started) := start_claimed_refresh (w_cache w) thread (d_key d) (w_now w) in
          mkWorld c (with_due (worker w) rest)
            (if started : bool
             then flights w ++ [(d_key d, if d_retry d then Origin.Retry else Origin.Due)]
             else flights w)
            (w_now w)
      end
  end.

(** ** Steps *)

(** What the cache's clients do. *)
Definition is_client_op (op : CacheOp) : bool :=
  match op with
  | OpGet _ _ _ | OpStore _ _ _ _ _ | OpInsertPermanent _ _ _ _ | OpRemoveRecord _ _ _ | OpClear => true
  | _ => false
  end.

Inductive WorldStep : World → World → Prop :=
  | ws_clock w now :
      w_now w ≤ now ≤ clock_max →
      WorldStep w (mkWorld (w_cache w) (worker w) (flights w) now)
  | ws_client w thread op :
      is_client_op op = true → op_ok op →
      WorldStep w (with_cache_of w (run_op powf (w_cache w) thread (w_now w) op))
  | ws_receive w queue request rest :
      stale_repairs (w_cache w) = Some queue → repairs queue = request :: rest →
      WorldStep w
        (mkWorld (set_repairs (w_cache w) (Some (mkQueue rest (q_capacity queue) (q_open queue))))
           (with_stale (worker w) (stale (worker w) ++ [request])) (flights w) (w_now w))
  | ws_tick w thread now :
      w_now w ≤ now ≤ clock_max → WorldStep w (on_tick w thread now)
  | ws_start w thread :
      (length (flights w) < MAX_CONCURRENT_REFRESHES)%nat → WorldStep w (start_next w thread)
  | ws_answer w thread i key origin answer :
      flights w !! i = Some (key, origin) →
      WorldStep w
        (let '(c, outcome) := refresh_entry (w_cache w) thread key origin answer (w_now w) in
         mkWorld (follow_up c thread key origin outcome (w_now w)) (worker w)
           (delete i (flights w)) (w_now w))
  | ws_evict w :
      evicting (worker w) = true →
      WorldStep w
        (mkWorld (evict_entries powf (w_cache w) (w_now w))
           (with_passes (worker w) false (rotating (worker w))) (flights w) (w_now w))
  | ws_rotate w :
      rotating (worker w) = true →
      WorldStep w
        (mkWorld (rotate_bloom (w_cache w) (w_now w)).1
           (with_passes (worker w) (evicting (worker w)) false) (flights w) (w_now w)).

Definition world_new (cfg : DnsCacheConfig) (g : gate) (th : ColdThresholds) (queue : RepairQueue)
    (now : Z) : World :=
  let c := set_repairs (cache_new cfg g) (Some queue) in
  mkWorld c (worker_new c th now) [] now.

Definition reachable (w0 w : World) : Prop := rtc WorldStep w0 w.

End worker.
