(* ===== verification/WorkerInvariant.v ===== *)
(** No entry is forgotten: every ordinary entry has a timer, a claim or a
    renewal in flight that will see to it, and no tick leaves one dead. *)

From stdpp Require Import relations.
From S2P Require Import Prelude Errors Net Float64 CacheRecord CacheSchedule CacheNegative.
From S2P Require Import CacheBloom CacheL1 Cache CacheInvariant CacheEvict CacheSafety CacheTrace.
From S2P Require Import Worker.

Section covered.
Context `{Lru, IterOrder, MembershipGate, DueHeap} (powf : f64 → f64 → f64).

(** ** Coverage *)

(** A timer for [k] at second [s]. *)
Definition armed (pool : list ScheduledRefresh) (k : CacheKey) (s : Z) : Prop :=
  ∃ kind, kind ≠ NegativeExpiry ∧ mkTimer s k kind ∈ pool.

(** What will see to the entry [r] at [k]: the claim, the renewal in flight or
    the timer its own timer state calls for. *)
Inductive covered (c : DnsCache) (pool : list ScheduledRefresh) (claims : list DueRefresh)
    (fl : list (CacheKey * RefreshOrigin)) (now : Z) (k : CacheKey) (r : CachedRecord) : Prop :=
  | cov_claimed d : timer r = TIMER_CLAIMED → renews_ahead c (ttl r) = true →
      d ∈ claims → d_key d = k → deadline_secs d = refresh_deadline_secs r →
      covered c pool claims fl now k r
  | cov_parked : timer r = TIMER_PARKED → armed pool k (refresh_deadline_secs r) →
      covered c pool claims fl now k r
  | cov_flight o : timer r = TIMER_LAPSED → renews_ahead c (ttl r) = true → (k, o) ∈ fl →
      covered c pool claims fl now k r
  | cov_lapsed : timer r = TIMER_LAPSED → armed pool k (refresh_deadline_secs r) →
      covered c pool claims fl now k r
  | cov_pending : 0 < timer r ≤ 2 * clock_max → armed pool k (timer r) →
      renews_ahead c (ttl r) = true ∨ refresh_deadline_secs r ≤ timer r →
      timer r ≤ Z.max (refresh_deadline_secs r) now →
      covered c pool claims fl now k r.

(** Every timer not yet fired: those in the inbox, and [s]. *)
Definition pool (c : DnsCache) (s : list ScheduledRefresh) : list ScheduledRefresh :=
  mjoin (inbox c) ++ s.

Record cov (c : DnsCache) (s : list ScheduledRefresh) (claims : list DueRefresh)
    (fl : list (CacheKey * RefreshOrigin)) (now : Z) : Prop := {
  cov_inbox : length (inbox c) = INBOX_SHARDS;
  cov_seconds t : t ∈ pool c s → t_kind t ≠ NegativeExpiry → 0 < due_at_secs t;
  cov_entries k r : cache c !! k = Some r → is_permanent r = false →
    covered c (pool c s) claims fl now k r;
}.

Lemma armed_mono p p' k s : p ⊆ p' → armed p k s → armed p' k s.
Proof. intros Hp (kind & Hk & Hin). exists kind. auto. Qed.

Lemma covered_mono c c' p p' d d' f f' now now' k r :
  config c' = config c → p ⊆ p' → d ⊆ d' → f ⊆ f' → now ≤ now' →
  covered c p d f now k r → covered c' p' d' f' now' k r.
Proof.
  intros Hc Hp Hd Hf Hn.
  assert (Hra : ∀ t, renews_ahead c' t = renews_ahead c t) by (intros; unfold renews_ahead; by rewrite Hc).
  intros [x Ht Hr Hx Hk Hs|Ht Ha|o Ht Hr Ho|Ht Ha|Ht Ha Hr Hle].
  - eapply cov_claimed; rewrite ?Hra; eauto.
  - apply cov_parked; [done|by eapply armed_mono].
  - eapply cov_flight; rewrite ?Hra; eauto.
  - apply cov_lapsed; [done|by eapply armed_mono].
  - apply cov_pending; rewrite ?Hra; try done; [by eapply armed_mono|lia].
Qed.

(** Coverage looks only at what [same_core] keeps. *)
Lemma covered_core c p d f now k r r' : same_core r r' →
  covered c p d f now k r → covered c p d f now k r'.
Proof.
  intros Hsc. pose proof (same_core_deadline _ _ Hsc) as Hd. destruct Hsc.
  intros [x Ht Hr Hx Hk Hs|Ht Ha|o Ht Hr Ho|Ht Ha|Ht Ha Hr Hle].
  - eapply cov_claimed; rewrite ?Hd, ?sc_timer, ?sc_ttl; eauto.
  - apply cov_parked; rewrite ?Hd, ?sc_timer; done.
  - eapply cov_flight; rewrite ?sc_timer, ?sc_ttl; eauto.
  - apply cov_lapsed; rewrite ?Hd, ?sc_timer; done.
  - apply cov_pending; rewrite ?Hd, ?sc_timer, ?sc_ttl; done.
Qed.

Lemma inbox_push_elem i thread t x : length i = INBOX_SHARDS →
  x ∈ mjoin (inbox_push i thread t) ↔ x = t ∨ x ∈ mjoin i.
Proof.
  intros Hl. unfold inbox_push, inbox_shard. set (n := (_ mod _)%nat).
  assert (Hn : (n < length i)%nat) by (rewrite Hl; apply Nat.mod_upper_bound; done).
  clearbody n. clear Hl. revert n Hn.
  induction i as [|l i IH]; intros n Hn; simpl in *; [lia|]. destruct n as [|n]; simpl.
  - rewrite !elem_of_app, list_elem_of_singleton. tauto.
  - rewrite !elem_of_app. setoid_rewrite IH; [tauto|lia].
Qed.

Lemma pool_push c s thread k due kind x : length (inbox c) = INBOX_SHARDS →
  x ∈ pool (arm_timer c thread k due kind) s ↔ x = mkTimer due k kind ∨ x ∈ pool c s.
Proof.
  intros Hl. unfold pool. simpl. rewrite !elem_of_app, inbox_push_elem by done. tauto.
Qed.

Lemma length_inbox_push i thread t : length (inbox_push i thread t) = length i.
Proof. apply length_alter. Qed.

(** The same timers, claims and flights over fewer or other entries. *)
Lemma cov_change c c' s d f now :
  cov c s d f now → config c' = config c → inbox c' = inbox c →
  (∀ k r, cache c' !! k = Some r → is_permanent r = false →
    (∃ r0, cache c !! k = Some r0 ∧ same_core r0 r) ∨ covered c' (pool c' s) d f now k r) →
  cov c' s d f now.
Proof.
  intros [Hi Hs He] Hc Hin Hent. assert (Hp : pool c' s = pool c s) by (unfold pool; by rewrite Hin).
  split; rewrite ?Hp; [by rewrite Hin|done|]. intros k r Hr Hperm.
  destruct (Hent k r Hr Hperm) as [(r0 & Hr0 & Hsc)|Hcov]; [|by rewrite <-Hp].
  eapply covered_core; [exact Hsc|].
  apply (covered_mono c _ (pool c s) _ d _ f _ now); try done. apply He; [done|].
  destruct Hsc. congruence.
Qed.

Lemma cov_arm c s d f now thread k due kind :
  cov c s d f now → kind = NegativeExpiry ∨ 0 < due → cov (arm_timer c thread k due kind) s d f now.
Proof.
  intros [Hi Hs He] Hk. split.
  - simpl. by rewrite length_inbox_push.
  - intros t. rewrite pool_push by done. intros [->|Ht]; [|by apply Hs]. simpl. intros. by destruct Hk.
  - intros j r Hr Hperm. apply (covered_mono c _ (pool c s) _ d _ f _ now); try done; [|by apply He].
    intros t Ht. apply pool_push; [done|by right].
Qed.

(** One entry replaced together with a timer for it. *)
Lemma cov_put_arm c s d f now thread k r due kind :
  cov c s d f now → kind ≠ NegativeExpiry → 0 < due →
  (is_permanent r = false → armed [mkTimer due k kind] k due →
   ∀ p, armed p k due → covered c p d f now k r) →
  cov (arm_timer (put_record c k r) thread k due kind) s d f now.
Proof.
  intros [Hi Hs He] Hk Hdue Hcov. split.
  - simpl. by rewrite length_inbox_push.
  - intros t. rewrite pool_push by done. intros [->|Ht]; [done|by apply Hs].
  - intros j q. simpl. rewrite lookup_insert_Some. intros [[<- <-]|[_ Hq]] Hp.
    + apply (covered_mono c _ (pool (arm_timer (put_record c k r) thread k due kind) s) _ d _ f _ now);
        try done. apply (Hcov Hp).
      * exists kind. split; [done|by left].
      * exists kind. split; [done|]. apply pool_push; [done|by left].
    + apply (covered_mono c _ (pool c s) _ d _ f _ now); try done; [|by apply He].
      intros t Ht. apply pool_push; [done|by right].
Qed.

Lemma pending_covered c r due now k p d f :
  pending_at c r due now → armed p k due → covered c p d f now k r.
Proof. intros (Ht & Hb & Hra & Hle) Ha. subst due. by apply cov_pending. Qed.

Lemma micro_cov now c c' s d f : Micro now c c' → cov c s d f now → cov c' s d f now.
Proof.
  intros Hm Hc. destruct Hm as [c c' Hcfg Hca Hbl Hpe Hin Hneg|c k r r' Hr Hsc|c m Hsub Hp
    |c th k due kind Hk|c th k r due kind Hr Ht Hdue Hkind Hpend|c k|c th k r due Hold Hchk Hrok Hins Hperm Hf].
  - eapply cov_change; [done|done|done|]. intros j q Hq _. left. exists q. rewrite <-Hca. split; [done|apply same_core_refl].
  - eapply cov_change; [done|done|done|]. intros j q. simpl. rewrite lookup_insert_Some.
    intros [[<- <-]|[_ Hq]] _; left; [by exists r|exists q; split; [done|apply same_core_refl]].
  - eapply cov_change; [done|done|done|]. intros j q Hq _. left. exists q.
    split; [by eapply lookup_weaken|apply same_core_refl].
  - by apply cov_arm.
  - apply cov_put_arm; [done|done|lia|]. intros Hp _ p Ha. eapply pending_covered; [by apply Hpend|done].
  - eapply cov_change; [done|done|done|]. intros j q Hq _. left. exists q.
    split; [done|apply same_core_refl].
  - apply cov_put_arm; [done|done| |].
    + destruct Hf as [(_ & Hb & _)|(_ & _ & ->)]; [lia|by apply deadline_pos].
    + intros _ _ p Ha. destruct Hf as [Hpend|(Ht & _ & ->)]; [by eapply pending_covered|by apply cov_lapsed].
Qed.

Lemma micros_cov now c c' s d f : micros now c c' → cov c s d f now → cov c' s d f now.
Proof. induction 1; eauto using micro_cov. Qed.

Lemma micros_config now c c' : micros now c c' → config c' = config c.
Proof. induction 1 as [|? ? ? Hm _ IH]; [done|]. rewrite IH. by destruct Hm. Qed.

Lemma cov_later c s d f now now' : cov c s d f now → now ≤ now' → cov c s d f now'.
Proof. intros [Hi Hs He] Hn. split; try done. intros. eapply covered_mono; [..|by apply He]; done. Qed.

Lemma cov_flights c s d f f' now : cov c s d f now → f ⊆ f' → cov c s d f' now.
Proof. intros [Hi Hs He] Hf. split; try done. intros. eapply covered_mono; [..|by apply He]; done. Qed.

(** A flight that ends takes no coverage with it, once its entry has a timer. *)
Lemma cov_land c s d f now i k o :
  cov c s d f now → f !! i = Some (k, o) →
  (∀ r, cache c !! k = Some r → is_permanent r = false → timer r = TIMER_LAPSED →
    renews_ahead c (ttl r) = false) →
  cov c s d (delete i f) now.
Proof.
  intros [Hi Hs He] Hf Hk. split; try done. intros j r Hr Hp.
  destruct (He j r Hr Hp) as [x Ht Hra Hx Hkx Hsx|Ht Ha|o' Ht Hra Ho|Ht Ha|Ht Ha Hra Hle].
  - by eapply cov_claimed.
  - by apply cov_parked.
  - apply (cov_flight _ _ _ _ _ _ _ o'); [done|done|].
    apply list_elem_of_lookup in Ho as (n & Hn). apply list_elem_of_lookup.
    destruct (decide (n = i)) as [->|Hne].
    + rewrite Hf in Hn. simplify_eq. specialize (Hk r Hr Hp Ht). congruence.
    + destruct (decide (n < i)%nat).
      * exists n. by rewrite list_lookup_delete_lt by lia.
      * exists (n - 1)%nat. rewrite list_lookup_delete_ge by lia. by replace (S (n - 1))%nat with n by lia.
  - by apply cov_lapsed.
  - by apply cov_pending.
Qed.

(** *** The clients' operations *)

(** Nothing new but local records. *)
Lemma cov_less c c' s d f now :
  cov c s d f now → config c' = config c → inbox c' = inbox c →
  (∀ k r, cache c' !! k = Some r → is_permanent r = false → cache c !! k = Some r) →
  cov c' s d f now.
Proof.
  intros Hc Hcfg Hin Hent. eapply cov_change; [done|done|done|]. intros k r Hr Hp. left.
  exists r. split; [by apply Hent|apply same_core_refl].
Qed.

Lemma put_local_cov c domain t x ttl s d f now :
  cov c s d f now → cov (put_local c domain t x ttl now) s d f now.
Proof.
  intros Hc. eapply cov_less; [done|done|done|]. intros k r. simpl. rewrite lookup_insert_Some.
  intros [[<- <-]|[_ Hr]]; done.
Qed.

Lemma insert_permanent_cov c thread domain t x ttl s d f now :
  cache_ok now c → cov c s d f now →
  cov (insert_permanent powf c thread domain t x ttl now) s d f now.
Proof.
  intros Hok Hc. unfold insert_permanent. destruct (into_stored x ttl 0 u32_max) as [x'|]; [|done].
  set (c1 := set_bloom c _). assert (Hm : micros now c c1) by apply rtc_once, micro_bloom.
  assert (Hc1 : cov c1 s d f now) by (by eapply micros_cov).
  set (c2 := if (_ <=? _)%nat then evict_entries powf c1 now else c1).
  assert (Hc2 : cov c2 s d f now).
  { subst c2. destruct (_ <=? _)%nat; [|done]. eapply micros_cov; [|done].
    apply evict_entries_micros. by eapply micros_ok. }
  change (put_record _ _ _) with (put_local c2 (normalize_domain domain) t x' ttl now).
  pose proof (put_local_cov c2 (normalize_domain domain) t x' ttl s d f now Hc2) as Hc3.
  destruct (as_cached_addresses x'); [|done]. eapply micros_cov; [apply set_l1_micros|done].
Qed.

Lemma remove_cov c thread domain t s d f now :
  cov c s d f now → cov (remove c thread domain t).1 s d f now.
Proof.
  intros Hc. unfold remove. destruct (cache c !! _); [|done]. simpl.
  eapply cov_less; [done|done|done|]. intros k r. simpl. by intros [_ ?]%lookup_delete_Some.
Qed.

Lemma clear_cov c thread s d f now : cache_ok now c → cov c s d f now → cov (clear c thread now) s d f now.
Proof.
  intros Hok Hc. unfold clear. set (base := reset_metric _ Evictions).
  assert (Hb : cov base s d f now) by (by eapply cov_less).
  assert (Hv : Forall (λ x : CacheKey * CachedData * Z, k_view x.1.1 = 0) (preserved c)).
  { apply Forall_forall. intros [[k x] ttl] Hin. by apply (elem_of_preserved now) in Hin as [? _]. }
  clearbody base. revert base Hb. induction Hv as [|[[k x] ttl] l Hk _ IH]; intros base Hb; cbn [foldl]; [done|].
  apply IH. cbn [fst] in Hk. rewrite restore_put by done. apply put_local_cov.
  eapply micros_cov; [apply rtc_once, micro_bloom|done].
Qed.

Lemma rotate_cov c s d f now : cov c s d f now → cov (rotate_bloom c now).1 s d f now.
Proof. intros Hc. by eapply cov_less. Qed.

Lemma remove_in_cov c thread domain t view s d f now :
  cache_ok now c → cov c s d f now → cov (remove_in c thread domain t view).1 s d f now.
Proof.
  intros Hok Hc. destruct (decide (view = 0)) as [->|Hv]; [unfold remove_in; simpl; by apply remove_cov|].
  eapply micros_cov; [by apply remove_in_view_micros|done].
Qed.

Lemma client_cov c thread op s d f now :
  is_client_op op = true → cache_ok now c → 0 < now ≤ clock_max → cov c s d f now →
  cov (run_op powf c thread now op) s d f now.
Proof.
  intros Hop Hok Hn Hc. destruct op as [domain t view|key x ttl status lo|domain t x ttl|domain t group
    |domain t view| | | | | | | | | | |]; try done; simpl.
  - eapply micros_cov; [apply get_in_micros; [done|lia]|done].
  - eapply micros_cov; [by apply store_micros|done].
  - by apply insert_permanent_cov.
  - unfold remove_record. destruct group as [id|]; [|by apply remove_cov].
    destruct (_ && _); [by apply remove_in_cov|done].
  - by apply clear_cov.
Qed.

(** ** A tick *)

(** No timer in the inbox is due. *)
Definition inbox_later (c : DnsCache) (now : Z) : Prop :=
  ∀ t, t ∈ mjoin (inbox c) → t_kind t ≠ NegativeExpiry → now < due_at_secs t.

(** *** Firing *)

Lemma armed_drop c t s k due :
  armed (pool c (t :: s)) k due →
  t_kind t = NegativeExpiry ∨ t_key t ≠ k ∨ due_at_secs t ≠ due → armed (pool c s) k due.
Proof.
  intros (kind & Hk & Hin) Hne. exists kind. split; [done|]. unfold pool in *.
  rewrite elem_of_app, elem_of_cons in Hin. rewrite elem_of_app.
  destruct Hin as [?|[<-|?]]; auto. simpl in Hne. tauto.
Qed.

(** A timer that covers nothing any more can go. *)
Lemma covered_drop c t s d f now k r :
  covered c (pool c (t :: s)) d f now k r →
  t_kind t = NegativeExpiry ∨ t_key t ≠ k ∨
    (due_at_secs t ≠ refresh_deadline_secs r ∧ due_at_secs t ≠ timer r) →
  covered c (pool c s) d f now k r.
Proof.
  intros Hc Hne. assert (Hd : ∀ due, due = refresh_deadline_secs r ∨ due = timer r →
    armed (pool c (t :: s)) k due → armed (pool c s) k due).
  { intros due Hdue Ha. eapply armed_drop; [done|]. destruct Hne as [?|[?|[? ?]]]; auto.
    right. right. by destruct Hdue; subst. }
  destruct Hc as [x Ht Hra Hx Hkx Hsx|Ht Ha|o Ht Hra Ho|Ht Ha|Ht Ha Hra Hle].
  - by eapply cov_claimed.
  - apply cov_parked; auto.
  - by eapply cov_flight.
  - apply cov_lapsed; auto.
  - apply cov_pending; auto.
Qed.

Lemma cov_fired c c' t s d d' f now :
  cov c (t :: s) d f now → config c' = config c → length (inbox c') = length (inbox c) →
  (∀ x, x ∈ mjoin (inbox c) → x ∈ mjoin (inbox c')) →
  (∀ x, x ∈ mjoin (inbox c') → x ∈ mjoin (inbox c) ∨ 0 < due_at_secs x) → d ⊆ d' →
  (∀ j r, j ≠ t_key t → cache c' !! j = Some r → cache c !! j = Some r) →
  (∀ r, cache c' !! t_key t = Some r → is_permanent r = false →
    covered c' (pool c' s) d' f now (t_key t) r) →
  cov c' s d' f now.
Proof.
  intros [Hi Hs He] Hcfg Hlen Hin Hnew Hd Hother Hkey. split.
  - by rewrite Hlen.
  - intros x. unfold pool. rewrite elem_of_app. intros Hx Hk.
    assert (Hold : x ∈ pool c (t :: s) → 0 < due_at_secs x) by (intros; by apply Hs).
    unfold pool in Hold. rewrite elem_of_app, elem_of_cons in Hold.
    destruct Hx as [Hx|Hx]; [|tauto]. destruct (Hnew x Hx); tauto.
  - intros j r Hr Hp. destruct (decide (j = t_key t)) as [->|Hne]; [by apply Hkey|].
    apply (covered_mono c _ (pool c s) _ d _ f _ now); try done.
    + unfold pool. intros x. rewrite !elem_of_app. intros [?|?]; auto.
    + apply (covered_drop _ t); [by apply He; [apply Hother|]|]. right. left. congruence.
Qed.

Lemma remove_dead_inbox c k now : inbox (remove_dead c k now).1 = inbox c.
Proof. unfold remove_dead. destruct (cache c !! k); [|done]. by destruct (_ && _). Qed.
Lemma remove_dead_config c k now : config (remove_dead c k now).1 = config c.
Proof. unfold remove_dead. destruct (cache c !! k); [|done]. by destruct (_ && _). Qed.
Lemma expire_negative_same c k now :
  let c' := (expire_negative c k now).1 in
  inbox c' = inbox c ∧ config c' = config c ∧ cache c' = cache c.
Proof. unfold expire_negative. by destruct (remove_expired _ _ _) as [n []]. Qed.

Lemma remove_dead_cache c k now r :
  cache c !! k = Some r → is_permanent r = false →
  is_marked_for_deletion r = true ∨ is_dead_at_secs r now = true →
  cache (remove_dead c k now).1 = delete k (cache c).
Proof.
  intros Hr Hp Hd. unfold remove_dead. rewrite Hr, Hp. simpl.
  rewrite (proj2 (orb_true_iff _ _)) by done. done.
Qed.

(** What one fired timer leaves. *)
Record fired (c c' : DnsCache) (s : list ScheduledRefresh) (d d' : list DueRefresh)
    (f : list (CacheKey * RefreshOrigin)) (now : Z) : Prop := {
  fi_cov : cov c' s d' f now;
  fi_ok : cache_ok now c';
  fi_later : inbox_later c now → inbox_later c' now;
  fi_config : config c' = config c;
  fi_claims x : x ∈ d' → x ∈ d ∨ renew_ahead (config c) = true;
}.

Lemma fire_fired th thread now c d t s f :
  cov c (t :: s) d f now → cache_ok now c → 0 < now ≤ clock_max → due_at_secs t ≤ now →
  let '(c', d') := fire th thread now c d t in fired c c' s d d' f now.
Proof.
  intros Hc Hok Hn Ht. unfold fire. destruct (bool_decide (t_kind t = NegativeExpiry)) eqn:Ek.
  { apply bool_decide_eq_true in Ek. destruct (expire_negative_same c (t_key t) now) as (E1 & E2 & E3).
    split; try done; [| |by unfold inbox_later; rewrite E1|by left].
    - apply (cov_fired c _ t s d d f now Hc E2); rewrite ?E1; try done; [by left|by rewrite E3|].
      rewrite E3. intros r Hr Hp. pose proof (cov_entries _ _ _ _ _ Hc _ _ Hr Hp) as He.
      apply (covered_mono c _ (pool c s) _ d _ f _ now); try done; [unfold pool; by rewrite E1|].
      apply (covered_drop _ t); [done|by left].
    - eapply micros_ok; [apply expire_negative_micros|done]. }
  apply bool_decide_eq_false in Ek.
  assert (Hdead : ∀ r, cache c !! t_key t = Some r → is_permanent r = false →
    is_dead_at_secs r now = false → now < refresh_deadline_secs r).
  { intros r Hr Hp Hd. destruct (ok_records _ _ Hok _ _ Hr) as (Hro & _).
    apply Z.nle_gt. intros Hle. apply dead_iff_deadline in Hle; [congruence|done|done]. }
  assert (Hpend : ∀ r, cache c !! t_key t = Some r → is_permanent r = false →
    is_dead_at_secs r now = false → timer r = due_at_secs t → renews_ahead c (ttl r) = true).
  { intros r Hr Hp Hd Htm. specialize (Hdead r Hr Hp Hd).
    assert (Hpos : 0 < due_at_secs t)
      by (apply (cov_seconds _ _ _ _ _ Hc); [unfold pool; apply elem_of_app; right; by left|done]).
    destruct (cov_entries _ _ _ _ _ Hc _ _ Hr Hp) as [x Hx|Hx _|o Hx|Hx _|Hx _ Hra _];
      rewrite Htm in *; unfold TIMER_CLAIMED, TIMER_PARKED, TIMER_LAPSED, clock_max in *;
      unfold_ints; try lia. by destruct Hra; [|lia]. }
  pose proof (claim_due_refresh_keeps now c thread t th Hok) as [Hok' _].
  destruct (claim_due_refresh_case c thread t now th) as [Hno|r Hr Hp Hd|r Hr Hp Hd Htm Hw
    |r x Hr Hp Hm Hd Htm Hw Hkx Hsx _]; cbn [fst] in Hok'.
  - split; try done; [|by left]. apply (cov_fired c _ t s d d f now Hc); try done; [by left|].
    intros r Hr Hp. pose proof (cov_entries _ _ _ _ _ Hc _ _ Hr Hp) as He.
    apply (covered_drop _ t); [done|]. right. right.
    destruct (Hno r Hr) as [?|(_ & Hd & Htm)]; [congruence|].
    specialize (Hdead r Hr Hp Hd). split; [lia|congruence].
  - split; try done; [|unfold inbox_later; by rewrite remove_dead_inbox|apply remove_dead_config|by left].
    pose proof (remove_dead_cache c (t_key t) now r Hr Hp Hd) as Hca.
    apply (cov_fired c _ t s d d f now Hc); rewrite ?remove_dead_inbox, ?remove_dead_config; try done;
      [by left| |]; rewrite Hca.
    + intros j q Hne. by rewrite lookup_delete_ne.
    + intros q. by rewrite lookup_delete_eq.
  - specialize (Hdead r Hr Hp Hd). pose proof (cov_inbox _ _ _ _ _ Hc) as Hlen.
    split; try done; [| |by left].
    + apply (cov_fired c _ t s d d f now Hc); try done; simpl.
      * apply length_inbox_push.
      * intros x Hx. apply inbox_push_elem; auto.
      * intros x Hx. apply inbox_push_elem in Hx as [->|Hx]; [right; simpl; lia|by left|done].
      * intros j q Hne. by rewrite lookup_insert_ne.
      * intros q. rewrite lookup_insert_eq. intros [= <-] _.
        apply cov_parked; [done|]. exists Due. split; [done|]. apply elem_of_app. left.
        apply inbox_push_elem; [done|by left].
    + intros Hl x Hx. simpl in Hx. apply inbox_push_elem in Hx as [->|Hx]; [simpl; lia|by apply Hl|done].
  - specialize (Hpend r Hr Hp Hd Htm). split; try done.
    + apply (cov_fired c _ t s d (d ++ [x]) f now Hc); try done; simpl.
      * by left.
      * intros y Hy. apply elem_of_app. by left.
      * intros j q Hne. by rewrite lookup_insert_ne.
      * intros q. rewrite lookup_insert_eq. intros [= <-] _.
        apply (cov_claimed _ _ _ _ _ _ _ x); try done. apply elem_of_app. right. by left.
    + intros y. rewrite elem_of_app, list_elem_of_singleton. intros [Hy| ->]; [by left|right].
      unfold renews_ahead in Hpend. by apply andb_true_iff in Hpend as [? _].
Qed.

Lemma fire_all_fired th thread now ts : ∀ c d s f,
  cov c (ts ++ s) d f now → cache_ok now c → 0 < now ≤ clock_max →
  Forall (λ t, due_at_secs t ≤ now) ts →
  let '(c', d') := fire_all th thread now c d ts in fired c c' s d d' f now.
Proof.
  induction ts as [|t ts IH]; intros c d s f Hc Hok Hn Hts; simpl.
  { split; try done. by left. }
  inversion Hts as [|? ? Ht Hts']; subst.
  pose proof (fire_fired th thread now c d t (ts ++ s) f Hc Hok Hn Ht) as Hf.
  destruct (fire th thread now c d t) as [c1 d1]. destruct Hf as [Hc1 Hok1 Hl1 Hcfg1 Hcl1].
  specialize (IH c1 d1 s f Hc1 Hok1 Hn Hts').
  destruct (fire_all th thread now c1 d1 ts) as [c2 d2]. destruct IH as [Hc2 Hok2 Hl2 Hcfg2 Hcl2].
  split; auto; [congruence|]. intros x Hx. rewrite <-Hcfg1.
  destruct (Hcl2 x Hx) as [Hx'|?]; [|by right]. destruct (Hcl1 x Hx'); [by left|right; congruence].
Qed.

(** *** Giving up *)

Lemma give_up_spec c k now :
  let c' := give_up_dead_claim c k now in
  config c' = config c ∧ inbox c' = inbox c ∧
  (∀ j r, cache c' !! j = Some r → cache c !! j = Some r) ∧
  (∀ r, cache c' !! k = Some r → is_permanent r = false → is_dead_at_secs r now = false).
Proof.
  unfold give_up_dead_claim. set (c1 := bump _ _). split_and!.
  - exact (remove_dead_config c1 k now).
  - exact (remove_dead_inbox c1 k now).
  - intros j r. unfold remove_dead. destruct (cache c1 !! k); [|done].
    destruct (_ && _); [|done]. simpl. by intros [_ ?]%lookup_delete_Some.
  - intros r Hr Hp. apply not_true_iff_false. intros Hd.
    assert (Hr1 : cache c1 !! k = Some r).
    { revert Hr. unfold remove_dead. destruct (cache c1 !! k) as [q|] eqn:Hq;
        [|cbn [fst]; by rewrite Hq].
      destruct (_ && _); cbn [fst]; [|by rewrite Hq].
      change (cache (bump (bump (set_cache c1 (delete k (cache c1))) Compactions) Expirations))
        with (delete k (cache c1)). by rewrite lookup_delete_eq. }
    rewrite (remove_dead_cache c1 k now r) in Hr; [|done|done|by right].
    by rewrite lookup_delete_eq in Hr.
Qed.

(** The claims kept so far are [kept]. *)
Lemma give_up_all_spec now s f claims : ∀ c kept,
  cov c s (kept ++ claims) f now → cache_ok now c →
  let '(c', rest) := give_up_all now c claims in
  cov c' s (kept ++ rest) f now ∧ cache_ok now c' ∧ config c' = config c ∧ inbox c' = inbox c ∧
  rest ⊆ claims ∧ Forall (λ d, now < deadline_secs d) rest.
Proof.
  induction claims as [|d claims IH]; intros c kept Hc Hok; simpl; [done|].
  unfold has_died_by. destruct (Z.leb_spec (deadline_secs d) now) as [Hd|Hd]; simpl.
  - pose proof (give_up_spec c (d_key d) now) as Hg. set (c1 := give_up_dead_claim c (d_key d) now) in *.
    destruct Hg as (G1 & G2 & G3 & G4).
    assert (Hok1 : cache_ok now c1) by (eapply micros_ok; [apply give_up_dead_claim_micros|done]).
    assert (Hc1 : cov c1 s (kept ++ claims) f now).
    { destruct Hc as [Hi Hs He]. assert (Hp : pool c1 s = pool c s) by (unfold pool; by rewrite G2).
      split; rewrite ?Hp, ?G2; try done. intros k r Hr Hp'.
      pose proof (He k r (G3 k r Hr) Hp') as Hcv.
      apply (covered_mono c _ (pool c s) _ (kept ++ claims) _ f _ now); try done.
      destruct Hcv as [x Ht Hra Hx Hkx Hsx|?|?|?|?]; [|by constructor 2|by econstructor 3|by constructor 4|by constructor 5].
      apply elem_of_app in Hx as [Hx|Hx]; [eapply cov_claimed; eauto; apply elem_of_app; by left|].
      apply elem_of_cons in Hx as [->|Hx]; [|eapply cov_claimed; eauto; apply elem_of_app; by right].
      subst k. specialize (G4 r Hr Hp'). destruct (ok_records _ _ Hok1 _ _ Hr) as (Hro & _).
      exfalso. apply not_true_iff_false in G4. apply G4, dead_iff_deadline; [done|done|lia]. }
    specialize (IH c1 kept Hc1 Hok1). destruct (give_up_all now c1 claims) as [c2 rest].
    destruct IH as (I1 & I2 & I3 & I4 & I5 & I6). split_and!; try done; try congruence.
    intros x Hx. right. by apply I5.
  - specialize (IH c (kept ++ [d])). rewrite <-app_assoc in IH. specialize (IH Hc Hok).
    destruct (give_up_all now c claims) as [c2 rest]. destruct IH as (I1 & I2 & I3 & I4 & I5 & I6).
    rewrite <-app_assoc in I1. split_and!; try done.
    + intros x. rewrite !elem_of_cons. intros [->|Hx]; [by left|right; by apply I5].
    + by constructor.
Qed.

(** *** Sweeping *)

Lemma cov_swept c s s' d f now :
  cov c s d f now → (∀ t, t ∈ s' → t ∈ s) →
  (∀ t, t ∈ s → still_there c (t_key t) (t_kind t) = true → t ∈ s') →
  cov c s' d f now.
Proof.
  intros [Hi Hs He] Hsub Hkeep. split; try done.
  - intros t. unfold pool. rewrite elem_of_app. intros [Ht|Ht]; apply Hs, elem_of_app; auto.
  - intros k r Hr Hp.
    assert (Ha : ∀ due, armed (pool c s) k due → armed (pool c s') k due).
    { intros due (kind & Hk & Hin). exists kind. split; [done|]. unfold pool in *.
      rewrite elem_of_app in *. destruct Hin as [?|Hin]; [by left|right]. apply Hkeep; [done|].
      unfold still_there. simpl. rewrite bool_decide_eq_false_2 by done. unfold holds. by rewrite Hr. }
    destruct (He k r Hr Hp) as [x Ht Hra Hx Hkx Hsx|Ht Hx|o Ht Hra Ho|Ht Hx|Ht Hx Hra Hle].
    + by eapply cov_claimed.
    + apply cov_parked; auto.
    + by eapply cov_flight.
    + apply cov_lapsed; auto.
    + apply cov_pending; auto.
Qed.

(** ** The world *)

Record world_ok (w : World) : Prop := {
  wo_time : 0 < w_now w ≤ clock_max;
  wo_cache : cache_ok (w_now w) (w_cache w);
  wo_schedule : schedule_ok (schedule (worker w));
  wo_cov : cov (w_cache w) (held (schedule (worker w))) (due (worker w)) (flights w) (w_now w);
  wo_flights : (length (flights w) ≤ MAX_CONCURRENT_REFRESHES)%nat;
  wo_origins k o : (k, o) ∈ flights w → o ≠ Origin.Stale → renew_ahead (config (w_cache w)) = true;
  wo_claims d : d ∈ due (worker w) → renew_ahead (config (w_cache w)) = true;
}.

Lemma cov_pool c c' s s' d f now :
  cov c s d f now → config c' = config c → cache c' = cache c →
  length (inbox c') = length (inbox c) → (∀ t, t ∈ pool c' s' ↔ t ∈ pool c s) → cov c' s' d f now.
Proof.
  intros [Hi Hs He] Hcfg Hca Hlen Hp. split; [by rewrite Hlen| |].
  - intros t Ht. by apply Hs, Hp.
  - intros k r. rewrite Hca. intros Hr Hperm.
    apply (covered_mono c _ (pool c s) _ d _ f _ now); try done; [intros t; apply Hp|by apply He].
Qed.

Lemma register_all ts : ∀ s, schedule_ok s →
  schedule_ok (foldl register s ts) ∧ ∀ t, t ∈ held (foldl register s ts) ↔ t ∈ ts ∨ t ∈ held s.
Proof.
  induction ts as [|x ts IH]; intros s Hs; simpl.
  { split; [done|]. intros t. split; [by right|]. intros [Ht|Ht]; [by apply not_elem_of_nil in Ht|done]. }
  destruct (IH (register s x) (register_ok s x Hs)) as [I1 I2]. split; [done|].
  intros t. rewrite I2, register_held, !elem_of_cons. tauto.
Qed.

Lemma elem_of_emptied {A} (i : list (list A)) t : t ∉ mjoin ((λ _, []) <$> i : list (list A)).
Proof. induction i as [|l i IH]; simpl; [apply not_elem_of_nil|done]. Qed.

(** Everything about a tick but its passes: no ordinary entry it leaves dead
    is without a renewal in flight. *)
Definition dead_in_flight (w : World) : Prop :=
  ∀ k r, cache (w_cache w) !! k = Some r → is_permanent r = false →
  is_dead_at_secs r (w_now w) = true → ∃ o, (k, o) ∈ flights w.

Lemma collect_ok w : world_ok w →
  let w' := collect_timers w in
  world_ok w' ∧ inbox_later (w_cache w') (w_now w') ∧ w_now w' = w_now w ∧
  flights w' = flights w.
Proof.
  intros [Ht Hc Hs Hv Hf Ho Hd]. unfold collect_timers, inbox_drain. simpl.
  destruct (register_all (mjoin (inbox (w_cache w))) _ Hs) as [R1 R2].
  split_and!; try done.
  - split; try done; simpl.
    + destruct Hc. by split.
    + eapply cov_pool; [exact Hv|done|done| |].
      * simpl. by rewrite length_fmap.
      * intros t. unfold pool. simpl. rewrite !elem_of_app, R2.
        pose proof (elem_of_emptied (inbox (w_cache w)) t). tauto.
  - intros t Hin. simpl in Hin. by apply elem_of_emptied in Hin.
Qed.

Lemma fire_due_ok w thread : world_ok w → inbox_later (w_cache w) (w_now w) →
  let w' := fire_due w thread (w_now w) in
  world_ok w' ∧ w_now w' = w_now w ∧ flights w' = flights w ∧
  (∀ t, t ∈ pool (w_cache w') (held (schedule (worker w'))) → t_kind t ≠ NegativeExpiry →
    w_now w < due_at_secs t).
Proof.
  intros [Ht Hc Hs Hv Hf Ho Hd] Hl. unfold fire_due.
  pose proof (take_due_spec (schedule (worker w)) (w_now w) Hs) as Htd.
  destruct (take_due (schedule (worker w)) (w_now w)) as [ts s'].
  destruct Htd as (Hp & _ & Hts & Hlater & Hs').
  assert (Hv' : cov (w_cache w) (ts ++ held s') (due (worker w)) (flights w) (w_now w)).
  { eapply cov_pool; [exact Hv|done|done|done|]. intros t. unfold pool. by rewrite Hp. }
  pose proof (fire_all_fired (thresholds (worker w)) thread (w_now w) ts (w_cache w) (due (worker w))
    (held s') (flights w) Hv' Hc Ht Hts) as Hfa.
  destruct (fire_all _ _ _ _ _ _) as [c' d']. destruct Hfa as [F1 F2 F3 F4 F5].
  split_and!; try done.
  - split; try done; simpl.
    + intros k o Hin Hne. rewrite F4. by eapply Ho.
    + intros x Hx. rewrite F4. destruct (F5 x Hx); [by eapply Hd|done].
  - simpl. intros t Hin Hk. apply elem_of_app in Hin as [Hin|Hin]; [by apply F3|].
    rewrite Forall_forall in Hlater. by apply Hlater.
Qed.

Lemma give_up_ok w : world_ok w →
  (∀ t, t ∈ pool (w_cache w) (held (schedule (worker w))) → t_kind t ≠ NegativeExpiry →
    w_now w < due_at_secs t) →
  let w' := give_up_dead_claims w (w_now w) in
  world_ok w' ∧ w_now w' = w_now w ∧ flights w' = flights w ∧ dead_in_flight w'.
Proof.
  intros [Ht Hc Hs Hv Hf Ho Hd] Hl.
  assert (Hw : ∃ c' rest, give_up_dead_claims w (w_now w)
      = mkWorld c' (with_due (worker w) rest) (flights w) (w_now w) ∧
    give_up_all (w_now w) (w_cache w) (due (worker w)) = (c', rest)).
  { unfold give_up_dead_claims. destruct (due (worker w)) as [|d l] eqn:E.
    - exists (w_cache w), []. split; [|done]. destruct w as [wc ww wf wn]. simpl in *.
      unfold with_due. destruct ww. simpl in *. by subst.
    - destruct (give_up_all _ _ _) as [c' rest]. by exists c', rest. }
  destruct Hw as (c' & rest & -> & Eg).
  pose proof (give_up_all_spec (w_now w) (held (schedule (worker w))) (flights w) (due (worker w))
    (w_cache w) [] Hv Hc) as Hg. rewrite Eg in Hg. simpl in Hg.
  destruct Hg as (G1 & G2 & G3 & G4 & G5 & G6). split_and!; try done.
  - split; try done; simpl.
    + intros k o Hin Hne. rewrite G3. by eapply Ho.
    + intros x Hx. rewrite G3. by apply (Hd x), G5.
  - intros k r Hr Hp Hdead. simpl in *.
    destruct (ok_records _ _ G2 _ _ Hr) as (Hro & _). pose proof Hdead as Hdl.
    apply dead_iff_deadline in Hdl; [|done|done].
    assert (Hna : ∀ s, s ≤ w_now w → ¬ armed (pool c' (held (schedule (worker w)))) k s).
    { intros s Hle (kind & Hk & Hin). unfold pool in Hin. rewrite G4 in Hin. specialize (Hl _ Hin Hk).
      simpl in Hl. lia. }
    destruct (cov_entries _ _ _ _ _ G1 k r Hr Hp) as [x _ _ Hx _ Hsx|_ Ha|o _ _ Hin|_ Ha|_ Ha _ Hle].
    + rewrite Forall_forall in G6. specialize (G6 x Hx). lia.
    + destruct (Hna _ Hdl Ha).
    + by exists o.
    + destruct (Hna _ Hdl Ha).
    + destruct (Hna (timer r)); [lia|done].
Qed.

Lemma sweep_ok w : world_ok w → dead_in_flight w →
  world_ok (sweep_step w) ∧ dead_in_flight (sweep_step w) ∧ flights (sweep_step w) = flights w ∧
  w_now (sweep_step w) = w_now w.
Proof.
  intros [Ht Hc Hs Hv Hf Ho Hd] Hdf. unfold sweep_step.
  destruct (match sweep_from (worker w) with Some _ => _ | None => _ end) as [from|];
    [|by split_and!].
  pose proof (sweep_spec (schedule (worker w)) from SWEEP_BUDGET (still_there (w_cache w)) Hs) as Hsw.
  destruct (sweep _ _ _ _) as [s' resume]. destruct Hsw as (S1 & S2 & S3 & _).
  split_and!; try done. split; try done. simpl. by eapply cov_swept.
Qed.

Lemma tick_ok w thread now :
  world_ok w → w_now w ≤ now ≤ clock_max →
  let w' := on_tick w thread now in world_ok w' ∧ dead_in_flight w' ∧ w_now w' = now.
Proof.
  intros Hw Hn. unfold on_tick. set (w0 := mkWorld (w_cache w) (worker w) (flights w) now).
  assert (H0w : world_ok w0).
  { destruct Hw as [Ht Hc Hs Hv Hf Ho Hd]. split; try done; simpl.
    - lia.
    - eapply cache_ok_later; [done|lia].
    - eapply cov_later; [done|lia]. }
  destruct (collect_ok w0 H0w) as (H1w & Hl1 & N1 & _). set (w1 := collect_timers w0) in *.
  destruct (fire_due_ok w1 thread H1w Hl1) as (H2w & N2 & _ & Hl2). rewrite N1 in *.
  change (w_now w0) with now in *. set (w2 := fire_due w1 thread now) in *.
  rewrite <-N2 in Hl2. destruct (give_up_ok w2 H2w Hl2) as (H3w & N3 & _ & Hd3).
  rewrite N2 in *. set (w3 := give_up_dead_claims w2 now) in *.
  destruct (sweep_ok w3 H3w Hd3) as (H4w & Hd4 & _ & N4). set (w4 := sweep_step w3) in *.
  unfold maintain. split_and!; [|done|simpl; congruence].
  destruct H4w as [Ht Hc Hs Hv Hf Ho Hd]. by split.
Qed.

(** ** Starting and ending renewals *)

(** Once a renewal that did not renew the entry looked after its timer, no
    lapsed timer is left at its key. *)
Definition no_lapse (c : DnsCache) (k : CacheKey) : Prop :=
  ∀ r, cache c !! k = Some r → is_permanent r = false → timer r = TIMER_LAPSED →
  renews_ahead c (ttl r) = false.

Lemma rearm_lapsed_no_lapse c thread k now :
  cache_ok now c → 0 < now ≤ clock_max → no_lapse (rearm_lapsed c thread k now) k.
Proof.
  intros Hok Hn r. unfold rearm_lapsed. destruct (cache c !! k) as [q|] eqn:Hq; [|by rewrite Hq].
  destruct (renews_ahead c (ttl q)) eqn:Hra; simpl; [|rewrite Hq; congruence].
  unfold try_rearm_lapsed_refresh, swap_refresh_timer.
  destruct (timer q =? TIMER_LAPSED) eqn:Et; simpl; [|rewrite Hq; intros [= <-] _; by apply Z.eqb_neq in Et].
  rewrite lookup_insert_eq. intros [= <-] _. simpl. unfold timer, with_timer, TIMER_LAPSED. simpl.
  destruct (ok_records _ _ Hok _ _ Hq) as (Hro & _). pose proof (deadline_pos q Hro).
  destruct (ok_config _ _ Hok) as (_ & _ & Hretry & _).
  unfold sat_add. unfold clock_max in *. unfold_ints. lia.
Qed.

Lemma schedule_retry_no_lapse c thread k in_secs now :
  0 < now → 0 ≤ in_secs → no_lapse (schedule_retry c thread k in_secs now) k.
Proof.
  intros Hn Hin r. unfold schedule_retry. destruct (cache c !! k) as [q|] eqn:Hq; [|by rewrite Hq].
  unfold try_rearm_lapsed_refresh, swap_refresh_timer.
  destruct (timer q =? TIMER_LAPSED) eqn:Et; simpl; [|rewrite Hq; intros [= <-] _; by apply Z.eqb_neq in Et].
  rewrite lookup_insert_eq. intros [= <-] _. unfold timer, with_timer, TIMER_LAPSED. simpl. lia.
Qed.

Lemma no_lapse_reset c k : no_lapse c k → no_lapse (reset_refreshing_of c k) k.
Proof.
  intros Hn r. unfold reset_refreshing_of. destruct (cache c !! k) as [q|] eqn:Hq; [|by rewrite Hq].
  simpl. rewrite lookup_insert_eq. intros [= <-] Hp Ht. apply (Hn q Hq); [|exact Ht].
  revert Hp. flags. done.
Qed.

(** A renewal that stored its answer armed the next timer. *)
Lemma refresh_record_no_lapse c thread k new_ttl d status now c' :
  0 < now ≤ clock_max → cache_ok now c →
  refresh_record_of c thread k new_ttl d status now = (c', true) → no_lapse c' k.
Proof.
  intros Hn Hok. unfold refresh_record_of.
  destruct (match new_ttl with Some _ => _ | None => _ end) as [t|]; [|done].
  destruct (into_stored _ _ _ _) as [d'|]; [|done].
  destruct (cache c !! k) as [old|]; [|done]. destruct (_ || _); [done|].
  set (r0 := clear_refreshing _).
  assert (Hl1 : ∀ x : DnsCache * CachedRecord, config x.1 = config c →
    inserted_at_secs x.2 = now → 0 ≤ ttl x.2 →
    (let '(c, r) := x in
      let c := set_bloom c (gate_set (bloom c) (hash_key k)) in
      let '(r, first) := first_timer_at c r in
      (arm_timer (put_record c k r) thread k first Due, true)) = (c', true) → no_lapse c' k).
  { intros [c1 r1] Hc Hi Ht. cbn [fst snd] in *. unfold first_timer_at.
    set (c2 := set_bloom c1 _). destruct (renews_ahead c2 (ttl r1)) eqn:Hra; intros [= <-] q; simpl;
      rewrite lookup_insert_eq; intros [= <-] _; [|done].
    unfold timer, set_refresh_timer, with_timer. simpl. intros Hz.
    pose proof (refresh_due_at_range (inserted_at_secs r1) (ttl r1) (refresh_threshold (config c1)) Ht).
    unfold refresh_due_at_secs, TIMER_LAPSED in *. lia. }
  pose proof (clamp_ttl_u32 now c t Hok) as Ht.
  apply Hl1; destruct (if k_view k =? 0 then _ else _); simpl; try done;
    try destruct (l1_insert _ _ _ _ _ _ _ _ _) as [l b]; try done;
    try (destruct (0 <? b); try done); unfold_ints; simpl; lia.
Qed.

(** *** An answer *)

Lemma refresh_entry_spec c thread k o answer s d f now :
  cache_ok now c → 0 < now ≤ clock_max → cov c s d f now →
  let '(c', outcome) := refresh_entry c thread k o answer now in
  cache_ok now c' ∧ cov c' s d f now ∧ config c' = config c ∧
  (outcome = inl Renewed → no_lapse c' k).
Proof.
  intros Hok Hn Hc. unfold refresh_entry. destruct answer as [res|e]; [|done].
  assert (Hrm : let c' := (remove_in c thread (k_domain k) (k_record_type k) (k_view k)).1 in
    cache_ok now c' ∧ cov c' s d f now ∧ config c' = config c).
  { split_and!; [by apply remove_in_spec|by apply remove_in_cov|].
    unfold remove_in, remove. destruct (k_view k =? 0); by destruct (cache c !! _). }
  assert (Hst : ∀ ttl data status,
    let '(c', stored) := refresh_record_of c thread k (Some ttl) data status now in
    cache_ok now c' ∧ cov c' s d f now ∧ config c' = config c ∧
    ((inl (if stored : bool then Renewed else Kept) : RefreshResult) = inl Renewed → no_lapse c' k)).
  { intros ttl data status.
    pose proof (refresh_record_of_micros now c thread k (Some ttl) data status Hok Hn) as Hm.
    destruct (refresh_record_of _ _ _ _ _ _ _) as [c' stored] eqn:E. simpl in Hm.
    split_and!; [by eapply micros_ok|by eapply micros_cov|by eapply micros_config|].
    destruct stored; [|done]. intros _. by eapply refresh_record_no_lapse. }
  destruct (r_dnssec_status res) as [[]|] eqn:Es; try (split_and!; done || apply Hrm);
    (destruct (from_resolution res) as [nd|]; [|done]);
    (match goal with |- context [if ?b then _ else _] => destruct b; [done|] end);
    (match goal with |- context [refresh_record_of _ _ _ (Some ?t) ?x ?y _] => specialize (Hst t x y) end);
    destruct (refresh_record_of _ _ _ _ _ _ _); done.
Qed.

Lemma retry_in_bounds o outcome remaining x :
  0 ≤ remaining → retry_in o outcome remaining = Some x → 0 ≤ x ≤ remaining ∧ o ≠ Origin.Stale.
Proof.
  intros Hr. unfold retry_in. destruct o, outcome as [[]|[]]; try done;
    try destruct (2 <=? remaining) eqn:E; try done; intros [= <-]; boolify; split; try done; zdiv; lia.
Qed.

Lemma remaining_of now c k : cache_ok now c →
  0 ≤ default 0 (remaining_ttl_of c k now) ∧
  ∀ r, cache c !! k = Some r → default 0 (remaining_ttl_of c k now) = remaining_ttl_at_secs r now.
Proof.
  intros Hok. unfold remaining_ttl_of. destruct (cache c !! k) as [r|] eqn:Hr; simpl; [|done].
  destruct (ok_records _ _ Hok _ _ Hr) as (Hro & Hi & _).
  destruct (remaining_ttl_bounds r now Hro Hi) as ((? & _) & _). split; [done|]. by intros q [= <-].
Qed.

Lemma follow_up_spec c thread k o outcome s d f now :
  cache_ok now c → 0 < now ≤ clock_max → cov c s d f now →
  (o ≠ Origin.Stale → renew_ahead (config c) = true) →
  (outcome = inl Renewed → no_lapse c k) →
  let c' := follow_up c thread k o outcome now in
  cache_ok now c' ∧ cov c' s d f now ∧ config c' = config c ∧ no_lapse c' k.
Proof.
  intros Hok Hn Hc Ho Hren. unfold follow_up.
  assert (Hm : ∀ c', micros now c c' → no_lapse c' k →
    cache_ok now c' ∧ cov c' s d f now ∧ config c' = config c ∧ no_lapse c' k).
  { intros c' Hm Hnl. split_and!; [by eapply micros_ok|by eapply micros_cov|by eapply micros_config|done]. }
  assert (Hother : let c1 := match retry_in o outcome (default 0 (remaining_ttl_of c k now)) with
      | Some in_secs => schedule_retry c thread k in_secs now
      | None => rearm_lapsed c thread k now end in
    cache_ok now (reset_refreshing_of c1 k) ∧ cov (reset_refreshing_of c1 k) s d f now ∧
    config (reset_refreshing_of c1 k) = config c ∧ no_lapse (reset_refreshing_of c1 k) k).
  { destruct (remaining_of now c k Hok) as [Hrem Hremk].
    destruct (retry_in _ _ _) as [x|] eqn:Ex.
    - apply retry_in_bounds in Ex as [Hx Hs]; [|done]. apply Hm.
      + eapply micros_trans; [|apply reset_refreshing_micros].
        apply schedule_retry_micros; auto. intros r Hr. by rewrite <-(Hremk r Hr).
      + apply no_lapse_reset, schedule_retry_no_lapse; lia.
    - apply Hm; [|by apply no_lapse_reset, rearm_lapsed_no_lapse].
      eapply micros_trans; [by apply rearm_lapsed_micros|apply reset_refreshing_micros]. }
  destruct outcome as [[]|]; try exact Hother.
  specialize (Hren eq_refl). destruct (bool_decide _); [done|]. apply Hm; [apply bump_micros|done].
Qed.

Lemma flights_delete_elem (f : list (CacheKey * RefreshOrigin)) i x : x ∈ delete i f → x ∈ f.
Proof.
  rewrite !list_elem_of_lookup. intros (n & Hn). rewrite list_lookup_delete in Hn.
  case_decide; eauto.
Qed.

Lemma answer_ok w thread i k o answer :
  world_ok w → flights w !! i = Some (k, o) →
  world_ok (let '(c, outcome) := refresh_entry (w_cache w) thread k o answer (w_now w) in
    mkWorld (follow_up c thread k o outcome (w_now w)) (worker w) (delete i (flights w)) (w_now w)).
Proof.
  intros [Ht Hc Hs Hv Hf Ho Hd] Hi.
  pose proof (refresh_entry_spec (w_cache w) thread k o answer _ _ _ _ Hc Ht Hv) as He.
  destruct (refresh_entry _ _ _ _ _ _) as [c1 outcome]. destruct He as (E1 & E2 & E3 & E4).
  assert (Hko : o ≠ Origin.Stale → renew_ahead (config c1) = true).
  { intros Hne. rewrite E3. eapply Ho; [by eapply list_elem_of_lookup_2|done]. }
  destruct (follow_up_spec c1 thread k o outcome _ _ _ _ E1 Ht E2 Hko E4) as (U1 & U2 & U3 & U4).
  split; try done; simpl.
  - by eapply cov_land.
  - rewrite length_delete by (by eexists). lia.
  - intros k' o' Hin Hne. rewrite U3, E3. eapply Ho; [by eapply flights_delete_elem|done].
  - intros x Hx. rewrite U3, E3. by eapply Hd.
Qed.

(** *** A start *)

(** The claim taken off the heap is at [k]; a flight for it takes over. *)
Lemma cov_start c k r s d rest f o now x :
  cov c s d f now → d ≡ₚ x :: rest → d_key x = k →
  cache c !! k = Some r → timer r = TIMER_CLAIMED →
  cov (put_record c k (with_timer r TIMER_LAPSED)) s rest (f ++ [(k, o)]) now.
Proof.
  intros [Hi Hs He] Hd Hx Hr Ht. split; try done. intros j q. simpl. rewrite lookup_insert_Some.
  intros [[<- <-]|[Hne Hq]] Hp.
  - destruct (He k r Hr Hp) as [y _ Hra _ _ _|Hb|? Hb|Hb|Hb]; rewrite Ht in Hb || idtac;
      unfold TIMER_CLAIMED, TIMER_PARKED, TIMER_LAPSED, clock_max in *; unfold_ints; try lia.
    apply (cov_flight _ _ _ _ _ _ _ o); [done|exact Hra|]. apply elem_of_app. right. by left.
  - destruct (He j q Hq Hp) as [y Hb Hra Hy Hk Hsy|Hb Ha|o' Hb Hra Ho|Hb Ha|Hb Ha Hra Hle].
    + apply (cov_claimed _ _ _ _ _ _ _ y); try done. rewrite Hd in Hy.
      apply elem_of_cons in Hy as [->|Hy]; [congruence|done].
    + by apply cov_parked.
    + apply (cov_flight _ _ _ _ _ _ _ o'); [done|done|]. apply elem_of_app. by left.
    + by apply cov_lapsed.
    + by apply cov_pending.
Qed.

(** A claim that covers nothing goes. *)
Lemma cov_unclaim c s d rest f now x :
  cov c s d f now → d ≡ₚ x :: rest →
  (∀ r, cache c !! d_key x = Some r → timer r ≠ TIMER_CLAIMED) → cov c s rest f now.
Proof.
  intros [Hi Hs He] Hd Hx. split; try done. intros j q Hq Hp.
  destruct (He j q Hq Hp) as [y Hb Hra Hy Hk Hsy|Hb Ha|o' Hb Hra Ho|Hb Ha|Hb Ha Hra Hle].
  - apply (cov_claimed _ _ _ _ _ _ _ y); try done. rewrite Hd in Hy.
    apply elem_of_cons in Hy as [->|Hy]; [|done]. subst j. by specialize (Hx q Hq).
  - by apply cov_parked.
  - by apply (cov_flight _ _ _ _ _ _ _ o').
  - by apply cov_lapsed.
  - by apply cov_pending.
Qed.

Lemma start_claimed_cov c thread s d rest f o now x :
  cache_ok now c → 0 < now ≤ clock_max → cov c s d f now → d ≡ₚ x :: rest →
  let '(c', started) := start_claimed_refresh c thread (d_key x) now in
  config c' = config c ∧ cache_ok now c' ∧
  cov c' s rest (if started : bool then f ++ [(d_key x, o)] else f) now.
Proof.
  intros Hok Hn Hc Hd. set (k := d_key x).
  pose proof (start_claimed_refresh_keeps now c thread k Hok Hn) as [Hok' _]. revert Hok'.
  unfold start_claimed_refresh. destruct (cache c !! k) as [r|] eqn:Hr.
  2: { intros _. split_and!; [done|done|]. eapply cov_unclaim; [done|done|]. fold k. congruence. }
  unfold try_start_claimed_refresh, swap_refresh_timer.
  destruct (timer r =? TIMER_CLAIMED) eqn:Et; cbn [negb].
  2: { intros _. split_and!; [done|done|]. eapply cov_unclaim; [done|done|]. fold k.
    intros q Hq. rewrite Hr in Hq. injection Hq as <-. by apply Z.eqb_neq. }
  apply Z.eqb_eq in Et. set (r1 := with_timer r TIMER_LAPSED). set (c1 := put_record c k r1).
  pose proof (cov_start c k r s d rest f o now x Hc Hd eq_refl Hr Et) as Hc1. fold r1 c1 in Hc1.
  assert (Hok1 : cache_ok now c1) by (apply timer_put_ok; [done|done|by left]).
  assert (Hr1 : cache c1 !! k = Some r1) by apply lookup_put.
  assert (Hland : ∀ c2, cov c2 s rest (f ++ [(k, o)]) now → no_lapse c2 k → cov c2 s rest f now).
  { intros c2 Hc2 Hnl. replace f with (delete (length f) (f ++ [(k, o)])).
    - eapply cov_land; [done|by apply list_lookup_middle|done].
    - rewrite delete_middle. by rewrite app_nil_r. }
  destruct (is_marked_for_deletion r1 || is_dead_at_secs r1 now) eqn:Edead.
  { intros Hok'. cbn [fst] in Hok'. split_and!; [exact (proj1 (give_up_spec c1 k now))|done|].
    apply Hland; [eapply micros_cov; [apply give_up_dead_claim_micros|done]|].
    intros q Hq Hp. exfalso. revert Hq. unfold give_up_dead_claim.
    set (c2 := bump c1 OptimisticRefreshShed).
    pose proof (proj1 (proj2 (proj2 (give_up_spec c1 k now))) k q) as Hsame.
    intros Hq. specialize (Hsame Hq). rewrite Hr1 in Hsame. injection Hsame as <-.
    rewrite (remove_dead_cache c2 k now r1) in Hq;
      [by rewrite lookup_delete_eq in Hq|exact Hr1|done|by apply orb_true_iff]. }
  pose proof (same_core_set_refreshing r1) as Hs.
  destruct (try_set_refreshing r1) as [r2 []]; cbn [fst] in *; intros Hok'; split_and!; try done.
  - eapply micros_cov; [by eapply touch_micros|done].
  - change (config c) with (config c1). by apply (micros_config now), rearm_lapsed_micros.
  - apply Hland; [eapply micros_cov; [by apply rearm_lapsed_micros|done]|].
    by apply rearm_lapsed_no_lapse.
Qed.

Lemma start_ok w thread :
  world_ok w → (length (flights w) < MAX_CONCURRENT_REFRESHES)%nat → world_ok (start_next w thread).
Proof.
  intros [Ht Hc Hs Hv Hf Ho Hd] Hlt. unfold start_next.
  destruct (stale (worker w)) as [|[[domain t] view] rest].
  - destruct (due_pop (due (worker w))) as [[x rest]|] eqn:Ep; [|by split].
    pose proof (due_pop_perm _ _ _ Ep) as Hperm.
    set (o := if d_retry x then Origin.Retry else Origin.Due).
    pose proof (start_claimed_cov (w_cache w) thread _ _ rest _ o _ x Hc Ht Hv Hperm) as Hst.
    destruct (start_claimed_refresh _ _ _ _) as [c' started]. destruct Hst as (S1 & S2 & S3).
    assert (Hx : x ∈ due (worker w)) by (rewrite Hperm; by left).
    split; try done; simpl.
    + destruct started; [rewrite length_app; simpl; lia|done].
    + intros k' o' Hin Hne. rewrite S1. destruct started; [|by eapply Ho].
      apply elem_of_app in Hin as [Hin|_]; [by eapply Ho|by eapply Hd].
    + intros y Hy. rewrite S1. apply (Hd y). rewrite Hperm. by right.
  - split; try done; simpl.
    + eapply cov_flights; [done|]. intros y Hy. apply elem_of_app. by left.
    + rewrite length_app. simpl. lia.
    + intros k o. rewrite elem_of_app, list_elem_of_singleton. intros [Hin|Heq] Hne; [by eapply Ho|].
      injection Heq as _ ->. done.
Qed.

(** ** Every step *)

Lemma evict_config c now : config (evict_entries powf c now) = config c.
Proof.
  destruct (evict_entries_cases powf c now) as [[-> _]|(-> & Hne & _)]; [done|].
  by destruct (evict_by_strategy_spec powf c (evict_count c) now Hne) as (_ & ? & _).
Qed.

Lemma restore_config now saved : ∀ c, config (foldl (restore now) c saved) = config c.
Proof. induction saved as [|[[k x] ttl] l IH]; intros c; [done|]. cbn [foldl]. by rewrite IH. Qed.

Lemma client_config c thread now op :
  is_client_op op = true → cache_ok now c → 0 < now ≤ clock_max →
  config (run_op powf c thread now op) = config c.
Proof.
  intros Hop Hok Hn. destruct op as [domain t view|key x ttl status lo|domain t x ttl|domain t group
    |domain t view| | | | | | | | | | |]; try done; simpl.
  - apply (micros_config now), get_in_micros; [done|lia].
  - by apply (micros_config now), store_micros.
  - unfold insert_permanent. destruct (into_stored x ttl 0 u32_max) as [x'|]; [|done].
    set (c1 := set_bloom c _).
    assert (H2c : config (if (max_entries (config c1) <=? size (cache c1))%nat
      then evict_entries powf c1 now else c1) = config c)
      by (destruct (_ <=? _)%nat; [exact (evict_config c1 now)|done]).
    destruct (as_cached_addresses x'); exact H2c.
  - unfold remove_record, remove_in, remove. destruct group as [id|].
    + destruct (_ && _); [|done]. destruct (id =? 0); by destruct (cache c !! _).
    + by destruct (cache c !! _).
  - unfold clear. by rewrite restore_config.
Qed.

Lemma step_ok w w' : WorldStep powf w w' → world_ok w → world_ok w'.
Proof.
  intros Hstep Hw.
  destruct Hstep as [w now Hn|w thread op Hop Hopk|w queue request rest Hq Hr|w thread now Hn
    |w thread Hlt|w thread i k o answer Hi|w He|w Hr].
  - destruct Hw as [Ht Hc Hs Hv Hf Ho Hd]. split; try done; simpl; [lia| |].
    + eapply cache_ok_later; [done|lia].
    + eapply cov_later; [done|lia].
  - destruct Hw as [Ht Hc Hs Hv Hf Ho Hd].
    pose proof (client_config (w_cache w) thread (w_now w) op Hop Hc Ht) as Hcfg.
    split; try done; simpl.
    + by apply run_op_spec.
    + by apply client_cov.
    + intros k o Hin Hne. rewrite Hcfg. by eapply Ho.
    + intros x Hx. rewrite Hcfg. by eapply Hd.
  - destruct Hw as [Ht Hc Hs Hv Hf Ho Hd]. split; try done; simpl.
    + destruct Hc. by split.
    + eapply cov_pool; [exact Hv|done|done|done|done].
  - by apply tick_ok.
  - by apply start_ok.
  - by apply answer_ok.
  - destruct Hw as [Ht Hc Hs Hv Hf Ho Hd].
    pose proof (evict_entries_micros powf (w_now w) (w_cache w) Hc) as Hm.
    split; try done; simpl.
    + by eapply micros_ok.
    + by eapply micros_cov.
    + intros k o Hin Hne. rewrite evict_config. by eapply Ho.
    + intros x Hx. rewrite evict_config. by eapply Hd.
  - destruct Hw as [Ht Hc Hs Hv Hf Ho Hd]. split; try done; simpl.
    + by apply rotate_bloom_ok.
    + by apply rotate_cov.
Qed.

Lemma world_new_ok cfg g th queue now :
  config_ok cfg → gate_ok g → 0 < now ≤ clock_max → world_ok (world_new cfg g th queue now).
Proof.
  intros Hc Hg Hn. pose proof (cache_new_ok now cfg g Hc Hg) as Hok.
  split; simpl; try done.
  - destruct Hok. by split.
  - split; simpl; [done| |].
    + intros t Ht. exfalso. unfold pool in Ht. rewrite elem_of_app in Ht.
      destruct Ht as [Ht|Ht]; [|by apply not_elem_of_nil in Ht]. simpl in Ht. set_solver.
    + intros k r. by rewrite lookup_empty.
  - lia.
  - intros k o Hin. by apply not_elem_of_nil in Hin.
  - intros x Hin. by apply not_elem_of_nil in Hin.
Qed.

Lemma reachable_ok w0 w : reachable powf w0 w → world_ok w0 → world_ok w.
Proof. induction 1; eauto using step_ok. Qed.

(** The entries a tick leaves dead, by their flights. *)
Definition dead_entries (w : World) : gmap CacheKey CachedRecord :=
  filter (λ kr : CacheKey * CachedRecord,
    is_permanent kr.2 = false ∧ is_dead_at_secs kr.2 (w_now w) = true) (cache (w_cache w)).

Lemma size_list_to_set_le (l : list CacheKey) :
  (size (list_to_set l : gset CacheKey) ≤ length l)%nat.
Proof.
  induction l as [|x l IH]; simpl; [done|].
  rewrite size_union_alt, size_singleton.
  pose proof (subseteq_size ((list_to_set l : gset CacheKey) ∖ {[x]}) (list_to_set l) ltac:(set_solver)).
  lia.
Qed.

Lemma dead_entries_bound w : dead_in_flight w → (size (dead_entries w) ≤ length (flights w))%nat.
Proof.
  intros Hd. rewrite <-size_dom.
  assert (Hsub : dom (dead_entries w) ⊆ (list_to_set (fst <$> flights w) : gset CacheKey)).
  { intros k Hk. apply elem_of_dom in Hk as [r Hr]. apply map_lookup_filter_Some in Hr as (Hr & Hp & Hdead).
    destruct (Hd k r Hr Hp Hdead) as (o & Ho). apply elem_of_list_to_set, list_elem_of_fmap.
    by exists (k, o). }
  etrans; [by apply subseteq_size|]. etrans; [apply size_list_to_set_le|]. by rewrite length_fmap.
Qed.

End covered.

(** ** Properties *)

(** C1: No entry is forgotten.  In every state the worker and the cache's
    clients can reach, whatever the order of lookups, answers, removals,
    flushes, evictions, rotations, ticks and renewals, every ordinary entry has
    a timer, a claim or a renewal in flight that will see to it; right after a
    tick an entry that has died is still held only while its renewal is in
    flight, so there are never more of them than renewals may run at once. *)
Theorem no_entry_forgotten `{Lru, IterOrder, MembershipGate, DueHeap} (powf : f64 → f64 → f64)
    (cfg : DnsCacheConfig) (g : gate) (th : ColdThresholds) (queue : RepairQueue) (start : Z)
    (w : World) :
  config_ok cfg → gate_ok g → 0 < start ≤ clock_max →
  reachable powf (world_new cfg g th queue start) w →
  (∀ k r, cache (w_cache w) !! k = Some r → is_permanent r = false →
   covered (w_cache w) (pool (w_cache w) (held (schedule (worker w)))) (due (worker w)) (flights w)
     (w_now w) k r) ∧
  (length (flights w) ≤ MAX_CONCURRENT_REFRESHES)%nat ∧
  ∀ thread now, w_now w ≤ now ≤ clock_max →
  let w' := on_tick w thread now in
  dead_in_flight w' ∧ (size (dead_entries w') ≤ MAX_CONCURRENT_REFRESHES)%nat.
Proof.
  intros Hcfg Hg Hs Hw.
  assert (Hok : world_ok w) by (eapply reachable_ok; [exact Hw|by apply world_new_ok]).
  split_and!; [apply (cov_entries _ _ _ _ _ (wo_cov _ Hok))|apply Hok|].
  intros thread now Hn w'. destruct (tick_ok w thread now Hok Hn) as (Hok' & Hd & _).
  split; [done|]. etrans; [by apply dead_entries_bound|]. apply Hok'.
Qed.

(** *** A heap for the example: the first of the most urgent *)

Fixpoint pop_first (l : list DueRefresh) : option (DueRefresh * list DueRefresh) :=
  match l with
  | [] => None
  | d :: l =>
      match pop_first l with
      | None => Some (d, [])
      | Some (e, rest) => if more_urgent e d then Some (e, d :: rest) else Some (d, e :: rest)
      end
  end.

Lemma more_urgent_asym d e : more_urgent d e = true → more_urgent e d = false.
Proof.
  unfold more_urgent. destruct (is_cold d), (is_cold e); try done; rewrite Z.ltb_lt, Z.ltb_ge; lia.
Qed.

Lemma more_urgent_trans x e d :
  more_urgent x e = false → more_urgent e d = false → more_urgent x d = false.
Proof.
  unfold more_urgent. destruct (is_cold x), (is_cold e), (is_cold d); try done;
    rewrite !Z.ltb_ge; lia.
Qed.

Lemma pop_first_spec l d rest : pop_first l = Some (d, rest) →
  l ≡ₚ d :: rest ∧ ∀ e, e ∈ rest → more_urgent e d = false.
Proof.
  revert d rest. induction l as [|x l IH]; intros d rest; simpl; [done|].
  destruct (pop_first l) as [[y ys]|] eqn:E.
  - destruct (IH y ys eq_refl) as [Hp Hf]. destruct (more_urgent y x) eqn:Em; intros [= <- <-].
    + split; [rewrite Hp; apply perm_swap|]. intros e. rewrite elem_of_cons.
      intros [->|He]; [by apply more_urgent_asym|by apply Hf].
    + split; [by rewrite Hp|]. intros e. rewrite elem_of_cons.
      intros [->|He]; [done|]. eapply more_urgent_trans; [by apply Hf|done].
  - intros [= <- <-]. destruct l; [|simpl in E; destruct (pop_first l) as [[? ?]|]; by repeat case_match].
    split; [done|]. intros e He. by apply not_elem_of_nil in He.
Qed.

Definition first_heap : DueHeap.
Proof.
  refine {| due_pop := pop_first |}.
  - intros l d rest E. by apply pop_first_spec.
  - intros l d rest e E. by apply (proj2 (pop_first_spec l d rest E)).
  - intros [|x l]; simpl; [done|]. destruct (pop_first l) as [[y ys]|]; [|done].
    by destruct (more_urgent y x).
Defined.

Definition demo_thresholds : ColdThresholds := {| min_hit_rate := f_one; min_frequency := 1 |}.

Lemma no_entry_forgotten_witness :
  let L := assoc_lru in let I := map_to_list_order in let G := demo_gate in let Q := first_heap in
  let w0 := world_new demo_config demo_bloom demo_thresholds (mkQueue [] 8 true) 1000 in
  let w1 := with_cache_of w0 (run_op demo_powf (w_cache w0) 0 1000 (insert_op name_a 7)) in
  let w2 := start_next (on_tick w1 0 1225) 0 in
  let w3 := on_tick w2 0 1700 in
  size (dead_entries w3) = 1%nat ∧ dead_in_flight w3 ∧
  (size (dead_entries w3) ≤ MAX_CONCURRENT_REFRESHES)%nat.
Proof.
  intros L I G Q w0 w1 w2 w3. split; [vm_compute; reflexivity|].
  destruct (@no_entry_forgotten L I G Q demo_powf demo_config demo_bloom demo_thresholds
    (mkQueue [] 8 true) 1000 w2 demo_config_ok demo_bloom_ok) as (_ & _ & Htick);
    [split; vm_compute; [reflexivity|discriminate]| |].
  - eapply rtc_l; [apply (ws_client demo_powf w0 0 (insert_op name_a 7)); done|].
    eapply rtc_l; [apply (ws_tick demo_powf w1 0 1225); split; vm_compute; discriminate|].
    apply rtc_once. apply ws_start. vm_compute. lia.
  - apply (Htick 0%nat 1700). split; vm_compute; discriminate.
Defined.
