(* ===== verification/WorkerRenewal.v ===== *)
(** What one renewal does to its entry. *)

From stdpp Require Import relations.
From S2P Require Import Prelude Errors Net Float64 CacheRecord CacheSchedule CacheNegative.
From S2P Require Import CacheBloom CacheL1 Cache CacheInvariant CacheEvict CacheSafety CacheTrace.
From S2P Require Import Worker WorkerInvariant.

Section renewal.
Context `{Lru, IterOrder, MembershipGate}.

(** A record stored by a renewal. *)
Lemma refresh_record_of_stored c thread k t d status now c' :
  refresh_record_of c thread k (Some t) d status now = (c', true) →
  ∃ r', cache c' !! k = Some r' ∧ expires_at_secs r' = now + clamp_ttl c t ∧
    ttl r' = clamp_ttl c t ∧ is_refreshing r' = false ∧
    into_stored d (clamp_ttl c t) (cfg_min_ttl (config c)) (cfg_max_ttl (config c)) = Some (data r').
Proof.
  unfold refresh_record_of. destruct (into_stored _ _ _ _) as [d'|]; [|done].
  destruct (cache c !! k) as [old|]; [|done]. destruct (_ || _); [done|].
  set (r0 := clear_refreshing _).
  assert (Hr0 : expires_at_secs r0 = now + clamp_ttl c t ∧ ttl r0 = clamp_ttl c t ∧
    is_refreshing r0 = false ∧ data r0 = d').
  { split_and!; try done. subst r0. unfold is_refreshing, clear_refreshing, with_flags. simpl.
    apply (bit_ldiff _ 1 1); lia. }
  clearbody r0. destruct Hr0 as (E1 & E2 & E3 & <-).
  assert (Hx : ∀ x : DnsCache * CachedRecord,
    expires_at_secs x.2 = expires_at_secs r0 → ttl x.2 = ttl r0 → data x.2 = data r0 →
    is_refreshing x.2 = is_refreshing r0 →
    (let '(c, r) := x in
      let c := set_bloom c (gate_set (bloom c) (hash_key k)) in
      let '(r, first) := first_timer_at c r in
      (arm_timer (put_record c k r) thread k first CacheSchedule.Due, true)) = (c', true) →
    ∃ r', cache c' !! k = Some r' ∧ expires_at_secs r' = now + clamp_ttl c t ∧
      ttl r' = clamp_ttl c t ∧ is_refreshing r' = false ∧ Some (data r0) = Some (data r')).
  { intros [c1 r1] X1 X2 X3 X4. cbn [fst snd] in *. set (c2 := set_bloom c1 _).
    pose proof (first_timer_with c2 r1) as [tm Etm].
    destruct (first_timer_at c2 r1) as [r2 first]. cbn [fst] in Etm. subst r2. intros [= <-].
    exists (with_timer r1 tm). split; [apply lookup_insert_eq|]. simpl.
    split_and!; try congruence. change (is_refreshing (with_timer r1 tm)) with (is_refreshing r1).
    congruence. }
  apply Hx; destruct (if k_view k =? 0 then _ else _); simpl; try done;
    destruct (l1_insert _ _ _ _ _ _ _ _ _) as [l b]; try done; by destruct (0 <? b).
Qed.

Lemma refresh_record_of_refused c thread k t d status now c' :
  refresh_record_of c thread k (Some t) d status now = (c', false) → c' = c.
Proof.
  unfold refresh_record_of. destruct (into_stored _ _ _ _) as [d'|]; [|by intros [= ->]].
  destruct (cache c !! k) as [old|]; [|by intros [= ->]]. destruct (_ || _); [by intros [= ->]|].
  destruct (if k_view k =? 0 then _ else _); [|by destruct (first_timer_at _ _)].
  destruct (l1_insert _ _ _ _ _ _ _ _ _) as [l b]. by destruct (first_timer_at _ _).
Qed.

Lemma live_remaining r now :
  record_ok r → inserted_at_secs r ≤ now → is_permanent r = false →
  remaining_ttl_at_secs r now = Z.max 0 (expires_at_secs r - now).
Proof.
  intros (Ht & Hi & He & _) Hn Hp. unfold remaining_ttl_at_secs, wrap32, sat_sub. rewrite Hp.
  specialize (He Hp). apply Z.mod_small. unfold_ints. lia.
Qed.

(** Without life left no answer is declined. *)
Lemma expired_never_declines c thread k o answer now :
  default 0 (remaining_ttl_of c k now) = 0 →
  (refresh_entry c thread k o answer now).2 ≠ inl Declined.
Proof.
  intros Hr. unfold refresh_entry. rewrite Hr. destruct answer as [res|e]; [|done].
  destruct (r_dnssec_status res) as [[]|]; try done;
    (destruct (from_resolution res); [|done]); rewrite andb_false_r; simpl;
    by destruct (refresh_record_of _ _ _ _ _ _ _) as [? []].
Qed.

Lemma refresh_entry_declined c thread k o answer now c1 :
  refresh_entry c thread k o answer now = (c1, inl Declined) →
  c1 = c ∧ o ≠ Origin.Stale ∧ 0 < default 0 (remaining_ttl_of c k now).
Proof.
  unfold refresh_entry. destruct answer as [res|e]; [|done].
  destruct (r_dnssec_status res) as [[]|]; try done;
    (destruct (from_resolution res); [|done]);
    (match goal with |- context [if ?b then _ else _] => destruct b eqn:E end;
      [|destruct (refresh_record_of _ _ _ _ _ _ _) as [? []]; done]);
    intros [= <-]; rewrite !andb_true_iff, negb_true_iff, bool_decide_eq_false, Z.ltb_lt in E; tauto.
Qed.

End renewal.

(** ** Properties *)


Definition demo_resolution (a ttl : Z) : DnsResolution :=
  mkResolution [V4 a] false false false false None (Some Insecure) [] None None (Some ttl) None None.


(** Declining ends: an answer declined when the entry's renewal falls due
    is asked for again a second before expiry, and one declined then at expiry,
    as timers of their own; from expiry on no answer is declined.  So an entry
    is renewed or given up on in at most three queries, however its upstream
    caches. *)
Theorem declined_renewals_end `{Lru, IterOrder, MembershipGate} (c : DnsCache) (thread : nat)
    (key : CacheKey) (origin : RefreshOrigin) (answer : DnsResolution + DomainError) (now : Z)
    (r : CachedRecord) :
  cache_ok now c → now ≤ clock_max → length (inbox c) = INBOX_SHARDS →
  cache c !! key = Some r → is_permanent r = false → timer r = TIMER_LAPSED →
  let '(c1, outcome) := refresh_entry c thread key origin answer now in
  outcome = inl Declined →
  let c2 := follow_up c1 thread key origin outcome now in
  let due := match origin with
    | Origin.Due => Z.max (now + 1) (expires_at_secs r - 1)
    | _ => expires_at_secs r end in
  origin ≠ Origin.Stale ∧ now < due ≤ expires_at_secs r ∧
  (∃ r2, cache c2 !! key = Some r2 ∧ timer r2 = due ∧ data r2 = data r ∧
     expires_at_secs r2 = expires_at_secs r) ∧
  mkTimer due key CacheSchedule.Retry ∈ mjoin (inbox c2) ∧
  ∀ c3 origin' answer' later r3,
    cache c3 !! key = Some r3 → expires_at_secs r3 = expires_at_secs r →
    is_permanent r3 = false → expires_at_secs r ≤ later →
    (refresh_entry c3 thread key origin' answer' later).2 ≠ inl Declined.
Proof.
  intros Hok Hn Hlen Hr Hp Ht. destruct (refresh_entry _ _ _ _ _ _) as [c1 outcome] eqn:E.
  intros -> . apply refresh_entry_declined in E as (-> & Ho & Hrem).
  destruct (ok_records _ _ Hok _ _ Hr) as (Hro & Hi & _).
  assert (Hrk : remaining_ttl_of c key now = Some (Z.max 0 (expires_at_secs r - now))).
  { unfold remaining_ttl_of. rewrite Hr. simpl. by rewrite live_remaining. }
  rewrite Hrk in Hrem. simpl in Hrem. intros c2 due.
  assert (Hin : ∃ x, retry_in origin (inl Declined) (default 0 (remaining_ttl_of c key now)) = Some x ∧
    now + x = due).
  { rewrite Hrk. unfold retry_in, due. simpl. destruct origin; [done| |].
    - destruct (Z.leb_spec 2 (Z.max 0 (expires_at_secs r - now))); eexists; (split; [done|]); lia.
    - eexists. split; [done|]. lia. }
  destruct Hin as (x & Hx & Hdue).
  assert (Hc2 : c2 = reset_refreshing_of (arm_timer (put_record c key (with_timer r due)) thread key due
    CacheSchedule.Retry) key).
  { subst c2. unfold follow_up. rewrite Hx. unfold schedule_retry, try_rearm_lapsed_refresh,
      swap_refresh_timer. rewrite Hr, Ht. simpl. by rewrite Hdue. }
  assert (Hbound : now < due ≤ expires_at_secs r) by (subst due; destruct origin; lia).
  split_and!; try done; try lia.
  - rewrite Hc2. unfold reset_refreshing_of. simpl. rewrite lookup_insert_eq. simpl.
    rewrite lookup_insert_eq. by eexists.
  - rewrite Hc2. unfold reset_refreshing_of. simpl. rewrite lookup_insert_eq. simpl.
    apply inbox_push_elem; [done|by left].
  - intros c3 o' a' later r3 Hr3 Hx3 Hp3 Hl. apply expired_never_declines.
    unfold remaining_ttl_of. rewrite Hr3. simpl. unfold remaining_ttl_at_secs, wrap32, sat_sub.
    rewrite Hp3, Hx3. rewrite Z.max_l by lia. done.
Qed.

Definition lapsed_ops : list Step :=
  [(0%nat, 1000, insert_op name_a 7);
   (0%nat, 1225, OpClaim (mkTimer 1225 (mkKey name_a A 0) CacheSchedule.Due) demo_thresholds);
   (0%nat, 1225, OpStart (mkKey name_a A 0))].

Lemma declined_renewals_end_witness :
  let L := assoc_lru in let I := map_to_list_order in let G := demo_gate in
  let key := mkKey name_a A 0 in
  let c := run_ops demo_powf (cache_new demo_config demo_bloom) lapsed_ops in
  let '(c1, outcome) := refresh_entry c 0 key Origin.Due (inl (demo_resolution 8 70)) 1225 in
  outcome = inl Declined ∧
  mkTimer 1299 key CacheSchedule.Retry ∈ mjoin (inbox (follow_up c1 0 key Origin.Due outcome 1225)).
Proof.
  intros L I G key c. destruct (cache c !! key) as [r|] eqn:Hr; [|vm_compute in Hr; discriminate].
  assert (Hok : cache_ok 1225 c).
  { apply (run_ops_spec demo_powf lapsed_ops 1);
      [apply cache_new_ok; [apply demo_config_ok|apply demo_bloom_ok]|lia|].
    repeat split; vm_compute; discriminate. }
  assert (Hx : expires_at_secs r = 1300 ∧ is_permanent r = false ∧ timer r = TIMER_LAPSED)
    by (vm_compute in Hr; injection Hr as <-; done).
  destruct Hx as (Hx & Hp & Ht).
  pose proof (@declined_renewals_end L I G c 0 key Origin.Due (inl (demo_resolution 8 70)) 1225 r Hok
    ltac:(vm_compute; discriminate) ltac:(vm_compute; reflexivity) Hr Hp Ht) as Hs.
  assert (Ho : (refresh_entry c 0 key Origin.Due (inl (demo_resolution 8 70)) 1225).2 = inl Declined)
    by (vm_compute; reflexivity).
  destruct (refresh_entry c 0 key Origin.Due (inl (demo_resolution 8 70)) 1225) as [c1 outcome].
  cbn [snd] in Ho. subst outcome. split; [reflexivity|].
  destruct (Hs eq_refl) as (_ & _ & _ & Hin & _). rewrite Hx in Hin. exact Hin.
Defined.
