(* ===== verification/BlockIndex.v ===== *)
(** The compiled block filter: [infrastructure/src/dns/block_filter/block_index.rs].

    A regular expression and an Aho-Corasick automaton are third-party values:
    the class [Matchers] says what the filter asks of them. *)

From Stdlib Require Import String.
From stdpp Require Import pretty.
From S2P Require Import Prelude Text Errors Net Float64 CacheRecord CacheBloom SuffixTrie.

(** ** Data *)

Class Matchers := {
  Regex : Type;
  regex_new : str → option Regex;
  (** [None] is an error of the engine, on which the filter counts no match. *)
  regex_is_match : Regex → str → option bool;
  AhoCorasick : Type;
  ac_build : list str → option AhoCorasick;
  ac_is_match : AhoCorasick → str → bool;
}.

Definition MANUAL_SOURCE_BIT : Z := 2 ^ 63.
Definition MANUAL_SOURCE_BIT_INDEX : nat := 63.
Definition UNNAMED_ALLOW_BIT : Z := 2 ^ 63.

Inductive Verdict :=
  | ManualAllow
  | ManualDeny (source : BlockSource)
  | Block (source : BlockSource)
  | NoMatch.

#[export] Instance Verdict_eq_dec : EqDecision Verdict.
Proof. solve_decision. Defined.

Definition classify_deny (source : BlockSource) (matched_bits : Z) : Verdict :=
  if bit matched_bits MANUAL_SOURCE_BIT then ManualDeny source else Block source.

Record SourceDescriptor := mkSource { sd_id : Z; sd_name : str }.

Inductive MatchType := MtExact | MtWildcard | MtPattern | MtRegex.
Inductive BlockMatchKind := BmBlocklist | BmManual | BmManagedDomain | BmRegex.
Inductive AllowMatchKind := AmAllowlist | AmRegex.

Record BlockMatch := mkBlockMatch {
  bm_kind : BlockMatchKind; bm_source_id : option Z; bm_name : str; bm_match_type : MatchType;
}.
Record AllowMatch := mkAllowMatch {
  am_kind : AllowMatchKind; am_source_id : option Z; am_name : str; am_match_type : MatchType;
}.

Record FilterExplanation := mkExplanation {
  fe_domain : str; fe_group_id : Z; blocked : bool;
  allow_reasons : list AllowMatch; block_matches : list BlockMatch;
}.

(** *** The bits of a mask *)

Fixpoint trailing_zeros_pos (p : positive) : nat :=
  match p with xO p => S (trailing_zeros_pos p) | _ => 0%nat end.
Definition trailing_zeros (x : Z) : nat :=
  match x with Z.pos p => trailing_zeros_pos p | _ => 64%nat end.

(** The loop over the set bits of a [u64]: 64 rounds are enough. *)
Fixpoint bit_indices (fuel : nat) (remaining : Z) : list nat :=
  match fuel with
  | O => []
  | S fuel =>
      if remaining =? 0 then [] else
      trailing_zeros remaining :: bit_indices fuel (Z.land remaining (remaining - 1))
  end.

Section index.
Context `{Matchers, MembershipGate}.

Record RegexRule := mkRegexRule { rr_id : Z; rr_name : str; rr_regex : Regex }.

Record AllowlistIndex := mkAllowlists {
  global_exact : gset str;
  global_wildcard : SuffixTrie;
  group_exact : gmap Z (gmap str Z);
  group_wildcard : gmap Z SuffixTrie;
  al_bit_to_source : list (option SourceDescriptor);
}.

Record BlockIndex := mkIndex {
  group_masks : gmap Z Z;
  total_blocked_domains : nat;
  exact : gmap str Z;
  bi_bloom : gate;
  wildcard : SuffixTrie;
  patterns : list (AhoCorasick * Z);
  allowlists : AllowlistIndex;
  managed_denies : gmap Z (gset str);
  managed_deny_wildcards : gmap Z SuffixTrie;
  allow_regex_patterns : gmap Z (list RegexRule);
  block_regex_patterns : gmap Z (list RegexRule);
  groups_with_advanced_rules : gset Z;
  bit_to_source : list (option SourceDescriptor);
}.

Definition allowlists_default : AllowlistIndex := mkAllowlists ∅ trie_default ∅ ∅ [].

(** [bloom] is the empty filter of a thousand entries. *)
Definition index_empty (bloom : gate) : BlockIndex :=
  mkIndex ∅ 0 ∅ bloom trie_default [] allowlists_default ∅ ∅ ∅ ∅ ∅ [].

(** ** Classification *)

Definition in_group_set (m : gmap Z (gset str)) (group_id : Z) (domain : str) : bool :=
  match m !! group_id with Some set => bool_decide (domain ∈ set) | None => false end.
Definition in_group_trie (m : gmap Z SuffixTrie) (group_id : Z) (domain : str) : bool :=
  match m !! group_id with Some trie => negb (trie_lookup trie domain =? 0) | None => false end.

Definition in_group_map (m : gmap Z (gmap str Z)) (group_id : Z) (domain : str) : bool :=
  match m !! group_id with Some entries => bool_decide (is_Some (entries !! domain)) | None => false end.

Definition is_allowed_name (al : AllowlistIndex) (domain : str) (group_id : Z) : bool :=
  in_group_map (group_exact al) group_id domain
  || in_group_trie (group_wildcard al) group_id domain
  || bool_decide (domain ∈ global_exact al)
  || negb (trie_lookup (global_wildcard al) domain =? 0).

Definition group_mask (idx : BlockIndex) (group_id : Z) : Z :=
  default MANUAL_SOURCE_BIT (group_masks idx !! group_id).

Definition rule_matches (domain : str) (rule : RegexRule) : bool :=
  default false (regex_is_match (rr_regex rule) domain).
Definition any_rule (rules : option (list RegexRule)) (domain : str) : bool :=
  match rules with Some rules => existsb (rule_matches domain) rules | None => false end.

Definition has_suffix_or_substring_rules (idx : BlockIndex) : bool :=
  negb (trie_is_empty (wildcard idx)) || negb (bool_decide (length (patterns idx) = 0%nat)).

Fixpoint check_patterns (ps : list (AhoCorasick * Z)) (domain : str) (mask : Z) : option Z :=
  match ps with
  | [] => None
  | (ac, source_mask) :: ps =>
      let matched := Z.land source_mask mask in
      if negb (matched =? 0) && ac_is_match ac domain then Some matched
      else check_patterns ps domain mask
  end.

Definition check_wildcard_and_patterns (idx : BlockIndex) (domain : str) (mask : Z) : option Z :=
  let wildcard_bits := Z.land (trie_lookup (wildcard idx) domain) mask in
  if negb (wildcard_bits =? 0) then Some wildcard_bits
  else check_patterns (patterns idx) domain mask.

(** The rules the operator wrote for the group, if it has any. *)
Definition evaluate_advanced (idx : BlockIndex) (domain : str) (group_id : Z) : option Verdict :=
  if negb (bool_decide (group_id ∈ groups_with_advanced_rules idx)) then None
  else if any_rule (allow_regex_patterns idx !! group_id) domain then Some ManualAllow
  else if in_group_set (managed_denies idx) group_id domain
  then Some (ManualDeny Source.ManagedDomain)
  else if in_group_trie (managed_deny_wildcards idx) group_id domain
  then Some (ManualDeny Source.ManagedDomain)
  else if any_rule (block_regex_patterns idx !! group_id) domain
  then Some (ManualDeny Source.RegexFilter)
  else None.

(** The bits of the exact entry, if the filter lets the name through. *)
Definition check_exact (idx : BlockIndex) (domain : str) (mask : Z) : option Z :=
  if gate_check (bi_bloom idx) [HashStr domain] then
    match exact idx !! domain with
    | Some bits =>
        let matched := Z.land bits mask in
        if negb (matched =? 0) then Some matched else None
    | None => None
    end
  else None.

Definition evaluate (idx : BlockIndex) (domain : str) (group_id : Z) : Verdict :=
  if is_allowed_name (allowlists idx) domain group_id then ManualAllow
  else
    let mask := group_mask idx group_id in
    match evaluate_advanced idx domain group_id with
    | Some verdict => verdict
    | None =>
        match check_exact idx domain mask with
        | Some matched => classify_deny Source.Blocklist matched
        | None =>
            if has_suffix_or_substring_rules idx then
              match check_wildcard_and_patterns idx domain mask with
              | Some matched => classify_deny Source.Blocklist matched
              | None => NoMatch
              end
            else NoMatch
        end
    end.

(** ** Attribution *)

Definition block_match_of_bit (idx : BlockIndex) (match_type : MatchType) (i : nat) : BlockMatch :=
  if (i =? MANUAL_SOURCE_BIT_INDEX)%nat
  then mkBlockMatch BmManual None (of_string "Manual blocklist") match_type
  else match mjoin (bit_to_source idx !! i) with
    | Some desc => mkBlockMatch BmBlocklist (Some (sd_id desc)) (sd_name desc) match_type
    | None => mkBlockMatch BmBlocklist None (of_string ("source bit " +:+ pretty i)) match_type
    end.

Definition collect_bit_matches (idx : BlockIndex) (bits : Z) (match_type : MatchType)
    : list BlockMatch := block_match_of_bit idx match_type <$> bit_indices 64 bits.

Definition allow_match_of_bit (idx : BlockIndex) (match_type : MatchType) (i : nat) : AllowMatch :=
  let source := mjoin (al_bit_to_source (allowlists idx) !! i) in
  mkAllowMatch AmAllowlist (sd_id <$> source)
    (default (of_string "Group allowlist") (sd_name <$> source)) match_type.

Definition collect_allow_bits (idx : BlockIndex) (bits : Z) (match_type : MatchType)
    : list AllowMatch := allow_match_of_bit idx match_type <$> bit_indices 64 bits.

Definition matching_rules (rules : option (list RegexRule)) (domain : str) : list RegexRule :=
  List.filter (rule_matches domain) (default [] rules).

Definition collect_allow_matches (idx : BlockIndex) (domain : str) (group_id : Z) : list AllowMatch :=
  let al := allowlists idx in
  match group_exact al !! group_id with
  | Some entries =>
      match entries !! domain with Some bits => collect_allow_bits idx bits MtExact | None => [] end
  | None => []
  end
  ++ match group_wildcard al !! group_id with
     | Some trie => collect_allow_bits idx (trie_lookup trie domain) MtWildcard
     | None => []
     end
  ++ (if bool_decide (domain ∈ global_exact al)
      then [mkAllowMatch AmAllowlist None (of_string "Global allowlist") MtExact] else [])
  ++ (if negb (trie_lookup (global_wildcard al) domain =? 0)
      then [mkAllowMatch AmAllowlist None (of_string "Global allowlist") MtWildcard] else [])
  ++ ((λ rule, mkAllowMatch AmRegex (Some (rr_id rule)) (rr_name rule) MtRegex)
      <$> matching_rules (allow_regex_patterns idx !! group_id) domain).

Definition collect_pattern_matches (idx : BlockIndex) (domain : str) (mask : Z) : list BlockMatch :=
  p ← patterns idx;
  let bits := Z.land p.2 mask in
  if negb (bits =? 0) && ac_is_match p.1 domain then collect_bit_matches idx bits MtPattern else [].

Definition managed_match (match_type : MatchType) : BlockMatch :=
  mkBlockMatch BmManagedDomain None (of_string "Managed domain") match_type.

Definition collect_block_matches (idx : BlockIndex) (domain : str) (group_id : Z) : list BlockMatch :=
  let mask := group_mask idx group_id in
  (if in_group_set (managed_denies idx) group_id domain then [managed_match MtExact] else [])
  ++ (if in_group_trie (managed_deny_wildcards idx) group_id domain
      then [managed_match MtWildcard] else [])
  ++ match exact idx !! domain with
     | Some bits => collect_bit_matches idx (Z.land bits mask) MtExact
     | None => []
     end
  ++ collect_bit_matches idx (Z.land (trie_lookup (wildcard idx) domain) mask) MtWildcard
  ++ collect_pattern_matches idx domain mask
  ++ ((λ rule, mkBlockMatch BmRegex (Some (rr_id rule)) (rr_name rule) MtRegex)
      <$> matching_rules (block_regex_patterns idx !! group_id) domain).

Definition explain (idx : BlockIndex) (domain : str) (group_id : Z) : FilterExplanation :=
  let allow_reasons := collect_allow_matches idx domain group_id in
  let block_matches := collect_block_matches idx domain group_id in
  let blocked :=
    bool_decide (length allow_reasons = 0%nat) && negb (bool_decide (length block_matches = 0%nat)) in
  mkExplanation domain group_id blocked allow_reasons block_matches.

End index.

(** ** Lemmas *)

(** *** Set bits *)

Lemma land_pred_bit p i : 0 ≤ i →
  Z.testbit (Z.land (Z.pos p) (Z.pos p - 1)) i
  = Z.testbit (Z.pos p) i && negb (i =? Z.of_nat (trailing_zeros_pos p)).
Proof.
  revert i. induction p as [p IH|p IH|]; intros i Hi; cbn [trailing_zeros_pos].
  - rewrite Z.land_spec. replace (Z.pos p~1 - 1) with (2 * Z.pos p) by lia.
    replace (Z.pos p~1) with (2 * Z.pos p + 1) by lia.
    change (Z.of_nat 0) with 0. destruct (Z.eqb_spec i 0) as [->|Hn].
    + by rewrite Z.testbit_even_0, !andb_false_r.
    + replace i with (Z.succ (i - 1)) by lia.
      rewrite Z.testbit_odd_succ, Z.testbit_even_succ by lia. simpl. by rewrite andb_true_r, andb_diag.
  - rewrite Z.land_spec. replace (Z.pos p~0 - 1) with (2 * (Z.pos p - 1) + 1) by lia.
    replace (Z.pos p~0) with (2 * Z.pos p) by lia.
    destruct (Z.eqb_spec i 0) as [->|Hn].
    + by rewrite Z.testbit_even_0.
    + replace i with (Z.succ (i - 1)) by lia.
      rewrite Z.testbit_odd_succ, Z.testbit_even_succ, <-Z.land_spec, IH by lia.
      f_equal. f_equal. apply eq_true_iff_eq. rewrite !Z.eqb_eq. lia.
  - change (Z.of_nat 0) with 0. change (Z.land 1 (1 - 1)) with 0.
    destruct (Z.eqb_spec i 0) as [->|Hn]; [done|]. rewrite Z.bits_0, andb_true_r.
    symmetry. apply (Z.bits_above_log2 1); simpl; lia.
Qed.

Lemma trailing_zeros_bit p : Z.testbit (Z.pos p) (Z.of_nat (trailing_zeros_pos p)) = true ∧
  ∀ i, 0 ≤ i < Z.of_nat (trailing_zeros_pos p) → Z.testbit (Z.pos p) i = false.
Proof.
  induction p as [p IH|p IH|]; cbn [trailing_zeros_pos]; try (split; [done|intros; lia]).
  destruct IH as [IH1 IH2]. replace (Z.pos p~0) with (2 * Z.pos p) by lia. split.
  - rewrite Nat2Z.inj_succ, Z.testbit_even_succ by lia. done.
  - intros i Hi. destruct (Z.eqb_spec i 0) as [->|]; [apply Z.testbit_even_0|].
    replace i with (Z.succ (i - 1)) by lia. rewrite Z.testbit_even_succ by lia. apply IH2. lia.
Qed.

Lemma filter_seq_false (f : nat → bool) a n :
  (∀ i, (a ≤ i < a + n)%nat → f i = false) → List.filter f (seq a n) = [].
Proof.
  revert a. induction n as [|n IH]; intros a Hf; simpl; [done|].
  rewrite Hf, IH by (intros; try apply Hf; lia). done.
Qed.

(** The loop visits the set bits, each once and from the lowest. *)
Lemma bit_indices_spec fuel : ∀ k x, (64 ≤ k + fuel)%nat → (k ≤ 64)%nat → 0 ≤ x →
  (∀ i, 0 ≤ i < Z.of_nat k ∨ 64 ≤ i → Z.testbit x i = false) →
  bit_indices fuel x = List.filter (λ i, Z.testbit x (Z.of_nat i)) (seq k (64 - k)).
Proof.
  induction fuel as [|fuel IH]; intros k x Hk Hle Hx Hb; cbn [bit_indices].
  { replace (64 - k)%nat with 0%nat by lia. done. }
  destruct (Z.eqb_spec x 0) as [->|Hn].
  { rewrite filter_seq_false; [done|]. intros. apply Z.bits_0. }
  destruct x as [|p|]; [done| |lia]. destruct (trailing_zeros_bit p) as [Ht Hlow].
  cbn [trailing_zeros]. set (t := trailing_zeros_pos p) in *.
  assert (Hkt : (k ≤ t < 64)%nat).
  { split; [destruct (decide (k ≤ t)%nat) as [|E]; [done|rewrite Hb in Ht by (left; lia); done]|].
    destruct (decide (t < 64)%nat) as [|E]; [done|]. rewrite Hb in Ht by (right; lia). done. }
  replace (64 - k)%nat with ((t - k) + S (63 - t))%nat by lia.
  rewrite seq_app, List.filter_app. replace (k + (t - k))%nat with t by lia.
  rewrite filter_seq_false by (intros; apply Hlow; lia). cbn [seq List.filter app]. rewrite Ht. f_equal.
  rewrite (IH (S t)); try lia.
  - replace (64 - S t)%nat with (63 - t)%nat by lia. apply filter_ext_in. intros i Hi.
    apply in_seq in Hi. rewrite land_pred_bit by lia. fold t.
    rewrite (proj2 (Z.eqb_neq _ _)), andb_true_r by lia. done.
  - apply Z.land_nonneg. left. lia.
  - intros i Hi. rewrite land_pred_bit by lia. fold t. destruct Hi as [Hi|Hi].
    + destruct (Z.eqb_spec i (Z.of_nat t)); [by rewrite andb_false_r|].
      rewrite Hlow by lia. done.
    + by rewrite Hb by (by right).
Qed.

Lemma is_u64_high x i : is_u64 x → 64 ≤ i → Z.testbit x i = false.
Proof.
  intros Hx Hi. unfold_ints. destruct (Z.eqb_spec x 0) as [->|]; [apply Z.bits_0|].
  apply Z.bits_above_log2; [lia|]. apply Z.log2_lt_pow2; [lia|].
  assert (2 ^ 64 ≤ 2 ^ i) by (apply Z.pow_le_mono_r; lia). lia.
Qed.

Lemma bit_indices_all x : is_u64 x →
  bit_indices 64 x = List.filter (λ i, Z.testbit x (Z.of_nat i)) (seq 0 64).
Proof.
  intros Hx. apply (bit_indices_spec 64 0); [lia|lia|unfold_ints; lia|].
  intros i [Hi|Hi]; [lia|]. by apply is_u64_high.
Qed.

Lemma bit_indices_nil fuel x : bit_indices (S fuel) x = [] ↔ x = 0.
Proof. cbn [bit_indices]. by destruct (Z.eqb_spec x 0). Qed.

Lemma land_u64_r x y : is_u64 y → is_u64 (Z.land x y).
Proof.
  intros Hy. assert (Hn : 0 ≤ Z.land x y) by (apply Z.land_nonneg; right; unfold_ints; lia).
  split; [done|]. unfold u64_max. destruct (Z.eqb_spec (Z.land x y) 0) as [->|]; [lia|].
  enough (Z.land x y < 2 ^ 64) by lia. apply Z.log2_lt_pow2; [lia|].
  destruct (Z.le_gt_cases 64 (Z.log2 (Z.land x y))) as [Hl|]; [|done].
  pose proof (Z.bit_log2 (Z.land x y) ltac:(lia)) as Hb.
  rewrite Z.land_spec, (is_u64_high y) in Hb by done. by rewrite andb_false_r in Hb.
Qed.

(** Whether a verdict denies the name. *)
Definition denies (v : Verdict) : bool :=
  match v with ManualDeny _ | Block _ => true | _ => false end.

Lemma denies_spec v : (∃ s, v = ManualDeny s ∨ v = Block s) ↔ denies v = true.
Proof. destruct v; simpl; naive_solver. Qed.

Lemma denies_classify s bits : denies (classify_deny s bits) = true.
Proof. unfold classify_deny. by destruct (bit _ _). Qed.

Lemma classify_not_allow s bits : classify_deny s bits ≠ ManualAllow.
Proof. unfold classify_deny. by destruct (bit _ _). Qed.

Section agreement.
Context `{Matchers, MembershipGate}.

(** What the compiler guarantees of an index. *)
Record index_ok (idx : BlockIndex) : Prop := {
  io_advanced g :
    is_Some (allow_regex_patterns idx !! g) ∨ is_Some (managed_denies idx !! g)
    ∨ is_Some (managed_deny_wildcards idx !! g) ∨ is_Some (block_regex_patterns idx !! g) →
    g ∈ groups_with_advanced_rules idx;
  io_bloom d bits : exact idx !! d = Some bits → gate_check (bi_bloom idx) [HashStr d] = true;
  io_mask g : is_u64 (group_mask idx g);
  io_allow_bits g entries d bits :
    group_exact (allowlists idx) !! g = Some entries → entries !! d = Some bits →
    bits ≠ 0 ∧ is_u64 bits;
  io_allow_trie g trie d : group_wildcard (allowlists idx) !! g = Some trie → is_u64 (trie_lookup trie d);
}.

Lemma empty_trie_lookup t d : trie_is_empty t = true → trie_lookup t d = 0.
Proof.
  unfold trie_is_empty, trie_lookup. rewrite bool_decide_eq_true. intros Hc.
  destruct (rev (split DOT d)) as [|l labels]; cbn [lookup_labels]; [done|].
  by rewrite Hc, lookup_empty.
Qed.

Lemma fmap_nil {A B} (f : A → B) l : f <$> l = [] ↔ l = [].
Proof. by destruct l. Qed.

Lemma collect_bit_matches_nil idx bits mt : collect_bit_matches idx bits mt = [] ↔ bits = 0.
Proof. unfold collect_bit_matches. rewrite fmap_nil. apply bit_indices_nil. Qed.

Lemma collect_allow_bits_nil idx bits mt : collect_allow_bits idx bits mt = [] ↔ bits = 0.
Proof. unfold collect_allow_bits. rewrite fmap_nil. apply bit_indices_nil. Qed.

Lemma filter_nil_existsb {A} (f : A → bool) l : List.filter f l = [] ↔ existsb f l = false.
Proof.
  induction l as [|x l IH]; simpl; [done|]. destruct (f x); simpl; [done|]. exact IH.
Qed.

Lemma matching_rules_nil (rules : option (list RegexRule)) d :
  matching_rules rules d = [] ↔ any_rule rules d = false.
Proof. unfold matching_rules, any_rule. destruct rules; simpl; [apply filter_nil_existsb|done]. Qed.

Lemma if_singleton_nil {A} (b : bool) (x : A) : (if b then [x] else []) = [] ↔ b = false.
Proof. by destruct b. Qed.

(** Reasons to allow a name. *)
Lemma collect_allow_nil idx d g : index_ok idx →
  collect_allow_matches idx d g = [] ↔
  is_allowed_name (allowlists idx) d g = false ∧ any_rule (allow_regex_patterns idx !! g) d = false.
Proof.
  intros Hok. unfold collect_allow_matches, is_allowed_name.
  rewrite !app_nil, !if_singleton_nil, fmap_nil, matching_rules_nil, !orb_false_iff.
  assert (He : match group_exact (allowlists idx) !! g with
    | Some entries => match entries !! d with Some bits => collect_allow_bits idx bits MtExact | None => [] end
    | None => [] end = [] ↔
    in_group_map (group_exact (allowlists idx)) g d = false).
  { unfold in_group_map. destruct (group_exact _ !! g) as [entries|] eqn:Eg; [|done].
    destruct (entries !! d) as [bits|] eqn:Ed; [|by rewrite bool_decide_eq_false_2 by (by intros [? ?])].
    rewrite collect_allow_bits_nil, bool_decide_eq_true_2 by done.
    by destruct (io_allow_bits _ Hok _ _ _ _ Eg Ed). }
  assert (Hw : match group_wildcard (allowlists idx) !! g with
    | Some trie => collect_allow_bits idx (trie_lookup trie d) MtWildcard | None => [] end = [] ↔
    in_group_trie (group_wildcard (allowlists idx)) g d = false).
  { unfold in_group_trie. destruct (group_wildcard _ !! g); [|done]. by rewrite collect_allow_bits_nil, negb_false_iff, Z.eqb_eq. }
  rewrite He, Hw. tauto.
Qed.

Lemma check_patterns_None ps d mask :
  check_patterns ps d mask = None ↔
  existsb (λ p, negb (Z.land p.2 mask =? 0) && ac_is_match p.1 d) ps = false.
Proof.
  induction ps as [|[ac m] ps IH]; simpl; [done|]. destruct (_ && _); simpl; [done|]. exact IH.
Qed.

Lemma collect_patterns_nil idx d mask :
  collect_pattern_matches idx d mask = [] ↔ check_patterns (patterns idx) d mask = None.
Proof.
  rewrite check_patterns_None. unfold collect_pattern_matches.
  induction (patterns idx) as [|[ac m] ps IH]; simpl; [done|]. rewrite app_nil, IH, orb_false_iff.
  destruct (Z.eqb_spec (Z.land m mask) 0) as [E|E]; simpl; [naive_solver|].
  destruct (ac_is_match ac d); [rewrite collect_bit_matches_nil|]; naive_solver.
Qed.

(** What the lists alone say: the exact entry, then suffixes, then patterns. *)
Definition list_bits (idx : BlockIndex) (d : str) (mask : Z) : option Z :=
  match check_exact idx d mask with
  | Some matched => Some matched
  | None => check_wildcard_and_patterns idx d mask
  end.

Lemma evaluate_lists idx d g :
  evaluate idx d g =
  if is_allowed_name (allowlists idx) d g then ManualAllow else
  match evaluate_advanced idx d g with
  | Some verdict => verdict
  | None => match list_bits idx d (group_mask idx g) with
            | Some matched => classify_deny Source.Blocklist matched
            | None => NoMatch
            end
  end.
Proof.
  unfold evaluate, list_bits. destruct (is_allowed_name _ _ _); [done|].
  destruct (evaluate_advanced _ _ _); [done|]. destruct (check_exact _ _ _); [done|].
  unfold has_suffix_or_substring_rules. destruct (trie_is_empty (wildcard idx)) eqn:Et; [|done].
  destruct (patterns idx) as [|p ps] eqn:Ep; [|done]. simpl.
  unfold check_wildcard_and_patterns. by rewrite empty_trie_lookup, Ep by done.
Qed.

Lemma collect_list_matches_nil idx d g : index_ok idx →
  match exact idx !! d with
  | Some bits => collect_bit_matches idx (Z.land bits (group_mask idx g)) MtExact | None => [] end
  ++ collect_bit_matches idx (Z.land (trie_lookup (wildcard idx) d) (group_mask idx g)) MtWildcard
  ++ collect_pattern_matches idx d (group_mask idx g) = [] ↔
  list_bits idx d (group_mask idx g) = None.
Proof.
  intros Hok. rewrite !app_nil, collect_patterns_nil, collect_bit_matches_nil.
  unfold list_bits, check_exact, check_wildcard_and_patterns.
  destruct (exact idx !! d) as [bits|] eqn:Ed.
  - rewrite (io_bloom _ Hok _ _ Ed), collect_bit_matches_nil.
    destruct (Z.eqb_spec (Z.land bits (group_mask idx g)) 0); simpl; [|naive_solver].
    destruct (Z.eqb_spec (Z.land (trie_lookup (wildcard idx) d) (group_mask idx g)) 0); simpl; naive_solver.
  - assert (Hn : (if gate_check (bi_bloom idx) [HashStr d] then @None Z else None) = None)
      by (by destruct (gate_check _ _)). rewrite Hn.
    destruct (Z.eqb_spec (Z.land (trie_lookup (wildcard idx) d) (group_mask idx g)) 0); simpl; naive_solver.
Qed.

Lemma group_without_rules idx g : index_ok idx → g ∉ groups_with_advanced_rules idx →
  allow_regex_patterns idx !! g = None ∧ managed_denies idx !! g = None ∧
  managed_deny_wildcards idx !! g = None ∧ block_regex_patterns idx !! g = None.
Proof.
  intros Hok Hg. rewrite !eq_None_not_Some. pose proof (io_advanced _ Hok g). tauto.
Qed.

End agreement.

(** Matchers by substring, for the examples; a regex may begin with [(?i)]. *)

Fixpoint substring (p s : str) : bool :=
  starts_with p s || match s with [] => false | _ :: s => substring p s end.

Definition demo_matchers : Matchers :=
  {| Regex := str; regex_new := λ p, Some (default p (strip_prefix [40; 63; 105; 41] p));
     regex_is_match := λ p s, Some (substring p s);
     AhoCorasick := list str; ac_build := Some; ac_is_match := λ ps s, existsb (λ p, substring p s) ps |}.
