(* ===== verification/BlockList.v ===== *)
(** Reading block lists and building the index from them:
    [infrastructure/src/dns/block_filter/compiler.rs], up to one build by
    [compile_block_index].

    The database is the results of its queries, the downloads are a function
    from addresses to texts.  What the build writes back to the database is a
    log.  Lists of every source are parsed and inserted in whatever order the
    hash maps hold them. *)

From Stdlib Require Import String.
From stdpp Require Import sorting.
From S2P Require Import Prelude Text Errors Net Float64 CacheRecord CacheBloom SuffixTrie BlockIndex.

(** ** Parsing *)

Inductive ParsedEntry :=
  | Exact (domain : str)
  | Wildcard (pattern : str)
  | Pattern (pattern : str)
  | DomainAndSubdomains (domain : str).

Definition STAR_DOT : str := [42; DOT].

Section parse.
(** [str::to_lowercase], by the Unicode tables. *)
Context (to_lowercase : str → str).

Definition is_hosts_addr (addr : str) : bool :=
  existsb (λ s, bool_decide (addr = of_string s)) ["0.0.0.0"; "127.0.0.1"; "::"; "::1"]%string.
Definition is_local_name (domain : str) : bool :=
  existsb (λ s, bool_decide (domain = of_string s))
    ["localhost"; "0.0.0.0"; "broadcasthost"; "ip6-localhost"; "ip6-loopback"]%string.

Definition parse_adblock (inner : str) : option ParsedEntry :=
  let domain := match find_char 94 inner with Some pos => take pos inner | None => inner end in
  let domain := to_ascii_lowercase (trim domain) in
  if bool_decide (domain = []) || negb (contains_char DOT domain) then None
  else if starts_with STAR_DOT domain then Some (Wildcard domain)
  else Some (DomainAndSubdomains domain).

Definition parse_words (line : str) : option ParsedEntry :=
  match split_whitespace line with
  | addr :: domain :: _ =>
      if is_hosts_addr addr then
        if is_local_name domain then None
        else if negb (contains_char DOT domain) then None
        else Some (Exact (to_ascii_lowercase domain))
      else None
  | [word] => if contains_char DOT word then Some (Exact (to_ascii_lowercase word)) else None
  | [] => None
  end.

Definition parse_list_line (line : str) : option ParsedEntry :=
  let line := trim line in
  if bool_decide (line = []) || starts_with [35] line || starts_with [33] line then None
  else if starts_with [64; 64] line then None
  else if starts_with [47] line && ends_with [47] line && (2 <? length line)%nat then
    Some (Pattern (to_lowercase (take (length line - 2) (drop 1 line))))
  else if starts_with [124; 124] line then
    parse_adblock (default [] (strip_prefix [124; 124] line))
  else if starts_with STAR_DOT line then Some (Wildcard (to_ascii_lowercase line))
  else parse_words line.

Definition parse_list_text (text : str) : list ParsedEntry := omap parse_list_line (lines text).

End parse.

(** ** What the database and the downloads hold *)

Inductive DomainAction := ActionAllow | ActionDeny.

#[export] Instance DomainAction_eq_dec : EqDecision DomainAction.
Proof. solve_decision. Defined.

Definition action_from_str (s : str) : option DomainAction :=
  if bool_decide (s = of_string "allow") then Some ActionAllow
  else if bool_decide (s = of_string "deny") then Some ActionDeny
  else None.

Record SourceRow := mkSourceRow { sr_id : Z; sr_name : str; sr_url : option str }.
Record ManagedRow := mkManagedRow { mr_domain : str; mr_action : str; mr_group_id : Z }.
Record RegexRow := mkRegexRow {
  rx_id : Z; rx_name : str; rx_pattern : str; rx_action : str; rx_group_id : Z;
}.
Record AllowRow := mkAllowRow { ar_source_id : Z; ar_group_id : Z; ar_url : str; ar_name : str }.

Record SourceMeta := mkMeta { sm_group_id : Z; sm_bit : nat }.

Inductive ListFetch := ReuseHeld | Redownload.
Inductive ListSyncStatus := Updated | Unchanged | FailedKeptCopy | FailedNoCopy.

#[export] Instance ListFetch_eq_dec : EqDecision ListFetch.
Proof. solve_decision. Defined.
#[export] Instance ListSyncStatus_eq_dec : EqDecision ListSyncStatus.
Proof. solve_decision. Defined.

Definition downloaded (s : ListSyncStatus) : bool :=
  match s with Updated | Unchanged => true | FailedKeptCopy | FailedNoCopy => false end.

Abbreviation HeldLists := (gmap str str).

(** ** Downloads *)

Definition source_bit (b : nat) : Z := wrap64 (Z.shiftl 1 (Z.of_nat b)).

Section compile.
Context `{Matchers, MembershipGate, IterOrder}.
Context (to_lowercase : str → str).
(** [AtomicBloom::new(capacity, 0.001)]. *)
Context (bloom_of : Z → gate).

(** One URL of a build: whether it is downloaded, and what is held after. *)
Definition to_download (held : HeldLists) (fetch : ListFetch) (url : str) : bool :=
  match held !! url with Some _ => negb (bool_decide (fetch = ReuseHeld)) | None => true end.

Definition reuse_list (held : HeldLists) (fetch : ListFetch) (next : HeldLists) (url : str)
    : HeldLists :=
  if to_download held fetch url then next
  else match held !! url with Some text => <[url := text]> next | None => next end.

Definition fetched (download : str → option str) (held : HeldLists)
    (acc : HeldLists * gmap str ListSyncStatus) (url : str) : HeldLists * gmap str ListSyncStatus :=
  let '(next, outcomes) := acc in
  let '(next, status) :=
    match download url, held !! url with
    | Some text, old =>
        (<[url := text]> next,
         if bool_decide (old = Some text) then Unchanged else Updated)
    | None, Some text => (<[url := text]> next, FailedKeptCopy)
    | None, None => (next, FailedNoCopy)
    end in
  (next, <[url := status]> outcomes).

(** [urls] in the order the set holds them; downloads end in any order, and
    each concerns its own URL only. *)
Definition fetch_lists (urls : list str) (download : str → option str) (held : HeldLists)
    (fetch : ListFetch) (next : HeldLists) : HeldLists * gmap str ListSyncStatus :=
  let next := foldl (reuse_list held fetch) next urls in
  foldl (fetched download held) (next, ∅) (List.filter (to_download held fetch) urls).

(** ** Building *)

Definition build_group_masks (sources : list SourceMeta) (all_group_ids : list Z) : gmap Z Z :=
  let masks := foldl (λ m gid, <[gid := MANUAL_SOURCE_BIT]> m) ∅ all_group_ids in
  foldl (λ m src,
    <[sm_group_id src :=
        Z.lor (default MANUAL_SOURCE_BIT (m !! sm_group_id src)) (source_bit (sm_bit src))]> m)
    masks sources.

Record BlockIndexData := mkData {
  total_exact : nat; total_wildcard : nat; total_names : nat;
  bd_bloom : gate; bd_exact : gmap str Z; bd_wildcard : SuffixTrie;
  bd_patterns : list (AhoCorasick * Z);
}.

(** [entry(key).and_modify(|b| *b |= bits).or_insert(bits)]. *)
Definition or_bits (m : gmap str Z) (domain : str) (bits : Z) : gmap str Z :=
  <[domain := match m !! domain with Some old => Z.lor old bits | None => bits end]> m.

Definition insert_exact (acc : gate * gmap str Z) (item : str * Z) : gate * gmap str Z :=
  (gate_set acc.1 [HashStr item.1], or_bits acc.2 item.1 item.2).

Definition exact_name (e : ParsedEntry) : option str :=
  match e with Exact d | DomainAndSubdomains d => Some d | Wildcard _ | Pattern _ => None end.

Definition is_suffix_name (domain : str) : bool := starts_with STAR_DOT domain.

Definition insert_suffix (ex : gmap str Z) (acc : SuffixTrie * nat) (rule : Rule) : SuffixTrie * nat :=
  let name := suffix_of rule.1 in
  let '(t, is_new) := insert_wildcard acc.1 rule.1 rule.2 in
  (t, if is_new && negb (bool_decide (is_Some (ex !! name))) then S acc.2 else acc.2).

Definition suffix_pattern (e : ParsedEntry) : option str :=
  match e with
  | Wildcard p => Some p
  | DomainAndSubdomains d => Some d
  | Exact _ | Pattern _ => None
  end.

Definition pattern_text (e : ParsedEntry) : option str :=
  match e with Pattern p => Some p | _ => None end.

Definition patterns_of (bit : nat) (entries : list ParsedEntry) : option (AhoCorasick * Z) :=
  match omap pattern_text entries with
  | [] => None
  | pats => match ac_build pats with Some ac => Some (ac, source_bit bit) | None => None end
  end.

Definition build_exact_and_wildcard (manual_domains : list str)
    (source_entries : gmap nat (list ParsedEntry)) : BlockIndexData :=
  let sources := walk source_entries in
  let exact_count :=
    (length manual_domains + length (sources ≫= λ s, omap exact_name s.2))%nat in
  let bloom_capacity := Z.max (Z.of_nat exact_count + 100) 1000 in
  let acc := foldl insert_exact (bloom_of bloom_capacity, ∅)
    ((λ d, (d, MANUAL_SOURCE_BIT)) <$> List.filter (λ d, negb (is_suffix_name d)) manual_domains) in
  let '(bloom, ex) := foldl (λ acc s,
    foldl insert_exact acc ((λ d, (d, source_bit s.1)) <$> omap exact_name s.2)) acc sources in
  let suf := foldl (insert_suffix ex) (trie_default, 0%nat)
    ((λ d, (d, MANUAL_SOURCE_BIT)) <$> List.filter is_suffix_name manual_domains) in
  let '(trie, suffix_only_names) := foldl (λ suf s,
    foldl (insert_suffix ex) suf ((λ p, (p, source_bit s.1)) <$> omap suffix_pattern s.2)) suf sources in
  mkData (size ex) (trie_len trie) (size ex + suffix_only_names) bloom ex trie
    (omap (λ s, patterns_of s.1 s.2) sources).

(** Rules by group. *)
Definition push_rule (m : gmap Z (list RegexRule)) (group_id : Z) (rule : RegexRule)
    : gmap Z (list RegexRule) :=
  <[group_id := default [] (m !! group_id) ++ [rule]]> m.

Definition compile_regex (row : RegexRow) : option RegexRule :=
  match regex_new (of_string "(?i)" ++ rx_pattern row) with
  | Some regex => Some (mkRegexRule (rx_id row) (rx_name row) regex)
  | None => None
  end.

(** The block patterns and the allow patterns. *)
Definition add_regex (acc : gmap Z (list RegexRule) * gmap Z (list RegexRule)) (row : RegexRow)
    : gmap Z (list RegexRule) * gmap Z (list RegexRule) :=
  let '(block, allow) := acc in
  match action_from_str (rx_action row) with
  | None => (block, allow)
  | Some action =>
      match compile_regex row with
      | None => (block, allow)
      | Some rule =>
          match action with
          | ActionDeny => (push_rule block (rx_group_id row) rule, allow)
          | ActionAllow => (block, push_rule allow (rx_group_id row) rule)
          end
      end
  end.

Definition build_regex_filters (rows : list RegexRow)
    : gmap Z (list RegexRule) * gmap Z (list RegexRule) := foldl add_regex (∅, ∅) rows.

Record ManagedDomainEntry := mkManaged { me_domain : str; me_action : DomainAction; me_group_id : Z }.

Definition managed_entry (row : ManagedRow) : option ManagedDomainEntry :=
  match action_from_str (mr_action row) with
  | Some action => Some (mkManaged (to_ascii_lowercase (mr_domain row)) action (mr_group_id row))
  | None => None
  end.

Definition add_to_group_trie (m : gmap Z SuffixTrie) (group_id : Z) (rule : Rule) : gmap Z SuffixTrie :=
  <[group_id := trie_add (default trie_default (m !! group_id)) rule]> m.

Definition add_managed_deny (acc : gmap Z (gset str) * gmap Z SuffixTrie) (entry : ManagedDomainEntry)
    : gmap Z (gset str) * gmap Z SuffixTrie :=
  let '(denies, wildcards) := acc in
  match me_action entry with
  | ActionAllow => (denies, wildcards)
  | ActionDeny =>
      if is_suffix_name (me_domain entry)
      then (denies, add_to_group_trie wildcards (me_group_id entry) (me_domain entry, 1))
      else (<[me_group_id entry := {[me_domain entry]} ∪ default ∅ (denies !! me_group_id entry)]> denies,
            wildcards)
  end.

(** *** Allowlists *)

Definition with_global (al : AllowlistIndex) (ex : gset str) (w : SuffixTrie) : AllowlistIndex :=
  mkAllowlists ex w (group_exact al) (group_wildcard al) (al_bit_to_source al).
Definition with_groups (al : AllowlistIndex) (ex : gmap Z (gmap str Z)) (w : gmap Z SuffixTrie)
    : AllowlistIndex :=
  mkAllowlists (global_exact al) (global_wildcard al) ex w (al_bit_to_source al).

Definition insert_allow (al : AllowlistIndex) (group_id : Z) (domain : str) (bits : Z) : AllowlistIndex :=
  with_groups al
    (<[group_id := or_bits (default ∅ (group_exact al !! group_id)) domain bits]> (group_exact al))
    (group_wildcard al).

Definition insert_allow_suffix (al : AllowlistIndex) (group_id : Z) (pattern : str) (bits : Z)
    : AllowlistIndex :=
  with_groups al (group_exact al) (add_to_group_trie (group_wildcard al) group_id (pattern, bits)).

Definition allow_entry (group_id bits : Z) (al : AllowlistIndex) (e : ParsedEntry) : AllowlistIndex :=
  match e with
  | Exact domain => insert_allow al group_id domain bits
  | Wildcard pattern => insert_allow_suffix al group_id pattern bits
  | DomainAndSubdomains domain =>
      insert_allow_suffix (insert_allow al group_id domain bits) group_id domain bits
  | Pattern _ => al
  end.

Definition add_manual_allow (al : AllowlistIndex) (row : str) : AllowlistIndex :=
  let domain := to_ascii_lowercase row in
  if is_suffix_name domain
  then with_global al (global_exact al) (trie_add (global_wildcard al) (domain, 1))
  else with_global al ({[domain]} ∪ global_exact al) (global_wildcard al).

Definition add_managed_allow (al : AllowlistIndex) (entry : ManagedDomainEntry) : AllowlistIndex :=
  match me_action entry with
  | ActionAllow =>
      if is_suffix_name (me_domain entry)
      then insert_allow_suffix al (me_group_id entry) (me_domain entry) UNNAMED_ALLOW_BIT
      else insert_allow al (me_group_id entry) (me_domain entry) UNNAMED_ALLOW_BIT
  | ActionDeny => al
  end.

Definition id_le (a b : Z * str) : Prop := a.1 ≤ b.1.
#[local] Instance id_le_dec a b : Decision (id_le a b).
Proof. unfold id_le. apply _. Defined.

Record AllowlistLoad := mkAllowLoad {
  al_manual_rows : list str;
  al_sources : list (list (Z * Z) * str);
  al_names : list (Z * str);
}.

(** The bit of the [idx]th source in the order of their ids. *)
Definition allow_bit (idx : nat) : Z :=
  if (idx <? MANUAL_SOURCE_BIT_INDEX)%nat then source_bit idx else UNNAMED_ALLOW_BIT.

Definition sorted_names (names : list (Z * str)) : list (Z * str) := merge_sort id_le names.

Definition allow_bits_of (names : list (Z * str)) : gmap Z Z :=
  foldl (λ m x, <[x.2.1 := allow_bit x.1]> m) ∅ (imap pair (sorted_names names)).

Definition allow_descriptors (names : list (Z * str)) : list (option SourceDescriptor) :=
  let named := take MANUAL_SOURCE_BIT_INDEX (sorted_names names) in
  ((λ n : Z * str, Some (mkSource n.1 n.2)) <$> named) ++ replicate (64 - length named) None.

Definition group_bits_of (bit_of : gmap Z Z) (assignments : list (Z * Z)) : gmap Z Z :=
  foldl (λ m a, <[a.2 := Z.lor (default 0 (m !! a.2)) (default UNNAMED_ALLOW_BIT (bit_of !! a.1))]> m)
    ∅ assignments.

Definition add_allow_source (bit_of : gmap Z Z) (al : AllowlistIndex) (source : list (Z * Z) * str)
    : AllowlistIndex :=
  let entries := parse_list_text to_lowercase source.2 in
  foldl (λ al gb, foldl (allow_entry gb.1 gb.2) al entries) al
    (walk (group_bits_of bit_of source.1)).

Definition build_allowlist_index (loaded : AllowlistLoad) (managed : list ManagedDomainEntry)
    : AllowlistIndex :=
  let bit_of := allow_bits_of (al_names loaded) in
  let al := mkAllowlists ∅ trie_default ∅ ∅ (allow_descriptors (al_names loaded)) in
  let al := foldl add_manual_allow al (al_manual_rows loaded) in
  let al := foldl add_managed_allow al managed in
  foldl (add_allow_source bit_of) al (al_sources loaded).

End compile.

(** ** Reading and writing the database

    A query ends in rows or in the database's message; a write is logged. *)

Inductive SourceTable := TableBlocklist | TableWhitelist.

Inductive DbWrite :=
  | MarkSynced (table : SourceTable) (ids : gset Z) (at_ : str)
  | RecordStatus (table : SourceTable) (id : Z) (status : ListSyncStatus).

Definition load (A : Type) : Type := (DomainError + A) * list DbWrite.

#[global] Instance load_ret : MRet load := λ A a, (inr a, []).
#[global] Instance load_bind : MBind load := λ A B f m,
  match m.1 with
  | inl e => (inl e, m.2)
  | inr a => let n := f a in (n.1, m.2 ++ n.2)
  end.

Definition query {A} (rows : string + A) : load A :=
  match rows with inl e => (inl (Error.DatabaseError e), []) | inr a => (inr a, []) end.
Definition write (ws : list DbWrite) : load unit := (inr tt, ws).

Record Database := mkDatabase {
  db_blocklist_sources : string + list SourceRow;
  db_source_groups : string + list (Z * Z);
  db_groups : string + list Z;
  db_blocklist : string + list str;
  db_managed : string + list ManagedRow;
  db_regex : string + list RegexRow;
  db_whitelist : string + list str;
  db_whitelist_sources : string + list AllowRow;
}.

(** ** Loading *)

Record SourceLoad := mkSourceLoad {
  sl_sources : list SourceMeta;
  sl_url_tasks : list (nat * str);
  sl_all_group_ids : list Z;
  sl_bit_to_source : list (option SourceDescriptor);
}.

Definition load_sources (db : Database) : load SourceLoad :=
  source_rows ← query (db_blocklist_sources db);
  let used := imap pair (take 63 source_rows) in
  let id_to_bit : gmap Z nat := foldl (λ m x, <[sr_id x.2 := x.1]> m) ∅ used in
  let bit_to_source :=
    ((λ row, Some (mkSource (sr_id row) (sr_name row))) <$> take 63 source_rows)
    ++ replicate (64 - length (take 63 source_rows)) None in
  assignment_rows ← query (db_source_groups db);
  let sources := omap (λ a : Z * Z, mkMeta a.2 <$> id_to_bit !! a.1) assignment_rows in
  let url_tasks := omap (λ x, pair x.1 <$> sr_url x.2) used in
  all_group_ids ← query (db_groups db);
  mret (mkSourceLoad sources url_tasks all_group_ids bit_to_source).

(** [mark_sources_synced] and [record_list_status], whose errors are logged. *)
Definition record_downloads (table : SourceTable) (statuses : list (Z * ListSyncStatus)) (at_ : str)
    : load unit :=
  let synced : gset Z := list_to_set (fst <$> List.filter (λ s, downloaded s.2) statuses) in
  _ ← write (if decide (synced = ∅) then [] else [MarkSynced table synced at_]);
  write ((λ s, RecordStatus table s.1 s.2) <$> statuses).

Section compile.
Context `{Matchers, MembershipGate, IterOrder}.
Context (to_lowercase : str → str) (bloom_of : Z → gate).

(** Each URL with the assignments that use it, and the sources' names. *)
Definition allow_urls (rows : list AllowRow) : gmap str (list (Z * Z)) := foldl (λ m row,
  <[ar_url row := default [] (m !! ar_url row) ++ [(ar_source_id row, ar_group_id row)]]> m) ∅ rows.
Definition allow_names (rows : list AllowRow) : gmap Z str :=
  foldl (λ m row, <[ar_source_id row := ar_name row]> m) ∅ rows.

Definition allow_statuses (urls : gmap str (list (Z * Z))) (outcomes : gmap str ListSyncStatus)
    : gmap Z ListSyncStatus := foldl (λ m ua,
  match outcomes !! ua.1 with
  | Some status => foldl (λ m a, <[a.1 := status]> m) m ua.2
  | None => m
  end) ∅ (walk urls).

Definition allow_texts (urls : gmap str (list (Z * Z))) (next : HeldLists)
    : list (list (Z * Z) * str) := omap (λ ua : str * list (Z * Z),
  match next !! ua.1 with Some text => Some (ua.2, text) | None => None end) (walk urls).

Definition load_allowlists (db : Database) (download : str → option str) (held : HeldLists)
    (fetch : ListFetch) (next : HeldLists) (at_ : str) : load (AllowlistLoad * HeldLists) :=
  manual_rows ← query (db_whitelist db);
  source_rows ← query (db_whitelist_sources db);
  let urls := allow_urls source_rows in
  let lists := fetch_lists (fst <$> walk urls) download held fetch next in
  _ ← record_downloads TableWhitelist (walk (allow_statuses urls lists.2)) at_;
  mret (mkAllowLoad manual_rows (allow_texts urls lists.1) (walk (allow_names source_rows)), lists.1).

(** The rows and texts a build works from. *)
Record BuildInput := mkInput {
  bi_sources : list SourceMeta;
  bi_all_group_ids : list Z;
  bi_bit_to_source : list (option SourceDescriptor);
  bi_source_texts : gmap nat str;
  bi_manual_rows : list str;
  bi_managed_rows : list ManagedRow;
  bi_regex_rows : list RegexRow;
  bi_allowlists : AllowlistLoad;
}.

Definition groups_of (managed_denies : gmap Z (gset str)) (wildcards : gmap Z SuffixTrie)
    (allow block : gmap Z (list RegexRule)) : gset Z :=
  dom managed_denies ∪ dom wildcards ∪ dom allow ∪ dom block.

Definition build_index (i : BuildInput) : BlockIndex :=
  let masks := build_group_masks (bi_sources i) (bi_all_group_ids i) in
  let source_entries := parse_list_text to_lowercase <$> bi_source_texts i in
  let manual_domains := to_ascii_lowercase <$> bi_manual_rows i in
  let managed := omap managed_entry (bi_managed_rows i) in
  let '(block, allow) := build_regex_filters (bi_regex_rows i) in
  let d := build_exact_and_wildcard bloom_of manual_domains source_entries in
  let '(denies, wildcards) := foldl add_managed_deny (∅, ∅) managed in
  let allowlists := build_allowlist_index to_lowercase (bi_allowlists i) managed in
  mkIndex masks (total_names d) (bd_exact d) (bd_bloom d) (bd_wildcard d) (bd_patterns d) allowlists
    denies wildcards allow block (groups_of denies wildcards allow block) (bi_bit_to_source i).

(** The index, and the lists held from now on. *)
Definition compile_block_index (db : Database) (download : str → option str) (held : HeldLists)
    (fetch : ListFetch) (at_ : str) : load (BlockIndex * HeldLists) :=
  loaded ← load_sources db;
  let urls : gset str := list_to_set (snd <$> sl_url_tasks loaded) in
  let lists := fetch_lists (elements urls) download held fetch ∅ in
  let next := lists.1 in
  let outcomes := lists.2 in
  let source_texts : gmap nat str := foldl (λ m task,
    match next !! task.2 with Some text => <[task.1 := text]> m | None => m end)
    ∅ (sl_url_tasks loaded) in
  let statuses := omap (λ task : nat * str,
    match mjoin (sl_bit_to_source loaded !! task.1), outcomes !! task.2 with
    | Some source, Some status => Some (sd_id source, status)
    | _, _ => None
    end) (sl_url_tasks loaded) in
  _ ← record_downloads TableBlocklist statuses at_;
  manual_rows ← query (db_blocklist db);
  managed_rows ← query (db_managed db);
  regex_rows ← query (db_regex db);
  allow ← load_allowlists db download held fetch next at_;
  mret (build_index (mkInput (sl_sources loaded) (sl_all_group_ids loaded) (sl_bit_to_source loaded)
    source_texts manual_rows managed_rows regex_rows allow.1), allow.2).

End compile.
