(* ===== verification/BlockRules.v ===== *)
(** What the compiled index holds, in terms of the rows and texts it was built
    from. *)

From S2P Require Import Prelude Text Errors Net Float64 CacheRecord CacheBloom SuffixTrie BlockIndex.
From S2P Require Import BlockList.

#[local] Set Default Proof Using "Type".

(** ** Bits *)

Lemma source_bit_spec b : (b < 64)%nat → source_bit b = 2 ^ Z.of_nat b.
Proof.
  intros Hb. unfold source_bit, wrap64. rewrite Z.shiftl_1_l. apply Z.mod_small.
  split; [by apply Z.pow_nonneg|].
  change 18446744073709551616 with (2 ^ 64). apply Z.pow_lt_mono_r; lia.
Qed.

Lemma source_bit_u64 b : (b < 64)%nat → is_u64 (source_bit b) ∧ source_bit b ≠ 0.
Proof.
  intros Hb. rewrite source_bit_spec by done.
  assert (0 < 2 ^ Z.of_nat b < 2 ^ 64) by (split; [apply Z.pow_pos_nonneg; lia|apply Z.pow_lt_mono_r; lia]).
  unfold_ints. lia.
Qed.

Lemma testbit_neg_false x i : Z.testbit x i = true → 0 ≤ i.
Proof. destruct (Z.lt_ge_cases i 0); [by rewrite Z.testbit_neg_r|done]. Qed.

Lemma source_bit_bit b i : (b < 64)%nat → Z.testbit (source_bit b) i = true ↔ i = Z.of_nat b.
Proof.
  intros Hb. rewrite source_bit_spec by done. split.
  - intros Hi. pose proof (testbit_neg_false _ _ Hi). rewrite Z.pow2_bits_eqb in Hi by lia.
    apply Z.eqb_eq in Hi. lia.
  - intros ->. rewrite Z.pow2_bits_eqb by lia. apply Z.eqb_refl.
Qed.

Lemma manual_bit_bit i : Z.testbit MANUAL_SOURCE_BIT i = true ↔ i = 63.
Proof. apply (source_bit_bit 63). lia. Qed.
Lemma unnamed_bit_u64 : is_u64 UNNAMED_ALLOW_BIT ∧ UNNAMED_ALLOW_BIT ≠ 0.
Proof. split; [split|]; done. Qed.

(** ** Exact entries *)

Section exact.
Context `{MembershipGate}.

Abbreviation Items := (list (str * Z)).

Lemma or_bits_lookup m d bits k :
  or_bits m d bits !! k = if decide (k = d)
    then Some (Z.lor (default 0 (m !! d)) bits) else m !! k.
Proof.
  unfold or_bits. case_decide as Hk.
  - subst k. rewrite lookup_insert_eq. by destruct (m !! d).
  - by rewrite lookup_insert_ne.
Qed.

Lemma insert_exact_bits (items : Items) acc d i :
  Z.testbit (default 0 ((foldl insert_exact acc items).2 !! d)) i = true ↔
  Z.testbit (default 0 (acc.2 !! d)) i = true ∨
  ∃ it, it ∈ items ∧ it.1 = d ∧ Z.testbit it.2 i = true.
Proof.
  revert acc. induction items as [|it items IH]; intros acc; cbn [foldl].
  { split; [by left|]. intros [Hb|(x & Hx & _)]; [done|]. by apply not_elem_of_nil in Hx. }
  rewrite IH. unfold insert_exact at 1. cbn [snd]. rewrite or_bits_lookup. case_decide as Hd.
  - cbn [from_option id]. rewrite Z.lor_spec, orb_true_iff. subst d. split.
    + intros [[Hb|Hb]|(x & Hx & Hb)]; [by left|right|right].
      * exists it. split; [by left|done].
      * exists x. split; [by right|done].
    + intros [Hb|(x & [->|Hx]%elem_of_cons & Hb1 & Hb2)]; [by left; left|by left; right|right; by exists x].
  - split.
    + intros [Hb|(x & Hx & Hb)]; [by left|right]. exists x. split; [by right|done].
    + intros [Hb|(x & [->|Hx]%elem_of_cons & Hb1 & Hb2)]; [by left|by destruct Hd|right; by exists x].
Qed.

Lemma insert_exact_bits_empty (items : Items) g d i :
  Z.testbit (default 0 ((foldl insert_exact (g, ∅) items).2 !! d)) i = true ↔
  ∃ it, it ∈ items ∧ it.1 = d ∧ Z.testbit it.2 i = true.
Proof.
  rewrite insert_exact_bits. cbn [snd]. rewrite lookup_empty. cbn [from_option]. rewrite Z.bits_0.
  split; [by intros [?|?]|by right].
Qed.

Lemma insert_exact_dom (items : Items) acc d :
  is_Some ((foldl insert_exact acc items).2 !! d) ↔
  is_Some (acc.2 !! d) ∨ d ∈ items.*1.
Proof.
  revert acc. induction items as [|it items IH]; intros acc; cbn [foldl fmap list_fmap].
  { split; [by left|]. intros [Hb|Hx]; [done|]. by apply not_elem_of_nil in Hx. }
  rewrite IH, elem_of_cons. unfold insert_exact at 1. cbn [snd]. rewrite or_bits_lookup.
  case_decide as Hd; [|naive_solver]. split; [|by left; eexists]. intros _. right. by left.
Qed.

Lemma insert_exact_dom_empty (items : Items) g :
  dom (foldl insert_exact (g, ∅) items).2 = list_to_set items.*1.
Proof.
  apply set_eq. intros x. rewrite elem_of_dom, insert_exact_dom, elem_of_list_to_set. cbn [snd].
  rewrite lookup_empty. split; [by intros [[? ?]|?]|by right].
Qed.

(** Every entry is in the filter. *)
Definition gated (acc : gate * gmap str Z) : Prop :=
  gate_ok acc.1 ∧ ∀ d bits, acc.2 !! d = Some bits → gate_check acc.1 [HashStr d] = true.

Lemma gated_empty g : gate_ok g → gated (g, ∅).
Proof. split; [done|]. intros d bits. cbn [snd]. by rewrite lookup_empty. Qed.

Lemma insert_exact_gated (items : Items) acc : gated acc → gated (foldl insert_exact acc items).
Proof.
  revert acc. induction items as [|it items IH]; intros acc Hg; cbn [foldl]; [done|].
  apply IH. destruct Hg as [Hok Hg]. unfold insert_exact. split; cbn [fst snd].
  - by apply gate_set_ok.
  - intros d bits. rewrite or_bits_lookup. case_decide as Hd.
    + intros _. subst d. by apply gate_check_set.
    + intros Hl. apply gate_check_mono; [done|]. by eapply Hg.
Qed.

End exact.

(** ** Suffixes *)

Lemma insert_suffix_trie ex rules acc :
  (foldl (insert_suffix ex) acc rules).1 = foldl trie_add acc.1 rules.
Proof.
  rewrite (foldl_proj fst (insert_suffix ex) trie_add (λ r, [r]) rules acc).
  - f_equal. induction rules as [|r rules IH]; [done|]. cbn [mbind list_bind app]. by f_equal.
  - intros [t n] r. unfold insert_suffix, trie_add. cbn [fst snd foldl].
    by destruct (insert_wildcard t r.1 r.2).
Qed.

(** Names that only a suffix carries. *)
Lemma insert_suffix_count ex rules : Forall (λ r : Rule, r.2 ≠ 0) rules →
  (foldl (insert_suffix ex) (trie_default, 0%nat) rules).2 =
  size (list_to_set (suffix_names rules) ∖ dom ex : gset str).
Proof.
  induction rules as [|r rules IH] using rev_ind; intros Hnz.
  { simpl. by replace (∅ ∖ dom ex) with (∅ : gset str) by set_solver. }
  apply Forall_app in Hnz as [Hnz Hr]. rewrite foldl_app. cbn [foldl].
  pose proof (insert_suffix_trie ex rules (trie_default, 0%nat)) as Ht.
  destruct (foldl (insert_suffix ex) _ rules) as [t n]. cbn [fst snd] in *.
  change (foldl trie_add trie_default rules) with (trie_of rules) in Ht. subst t.
  unfold insert_suffix. cbn [fst snd].
  pose proof (insert_wildcard_holds _ _ r.1 r.2 (trie_of_holds rules)) as Hi.
  destruct (insert_wildcard _ _ _) as [t is_new]. destruct Hi as (_ & -> & _). cbn [snd].
  rewrite IH by done. unfold suffix_names. rewrite fmap_app, list_to_set_app_L. simpl.
  rewrite union_empty_r_L, difference_union_distr_l_L. set (N := list_to_set _ : gset str).
  assert (HN : suffix_of r.1 ∈ suffix_names rules ↔ suffix_of r.1 ∈ N)
    by (subst N; by rewrite elem_of_list_to_set).
  destruct (Z.eqb_spec (bits_on rules (suffix_of r.1)) 0) as [E|E].
  - rewrite bits_on_zero, HN in E by done. simpl. case_bool_decide as Hex; simpl.
    + rewrite <-elem_of_dom in Hex. replace ({[suffix_of r.1]} ∖ dom ex) with (∅ : gset str) by set_solver.
      by rewrite union_empty_r_L.
    + rewrite <-elem_of_dom in Hex. replace ({[suffix_of r.1]} ∖ dom ex) with ({[suffix_of r.1]} : gset str) by set_solver.
      assert (Hdis : N ∖ dom ex ## {[suffix_of r.1]}) by set_solver.
      rewrite (size_union _ _ Hdis), size_singleton. lia.
  - rewrite bits_on_zero, HN in E by done. apply dec_stable in E. simpl. f_equal.
    symmetry. set_solver.
Qed.

(** ** Groups *)

Section groups.

(** The rules of a group among [(group, rule)] items. *)
Definition of_group {A} (g : Z) (items : list (Z * A)) : list A :=
  omap (λ it : Z * A, if decide (it.1 = g) then Some it.2 else None) items.

Lemma elem_of_group {A} g (items : list (Z * A)) x : x ∈ of_group g items ↔ (g, x) ∈ items.
Proof.
  unfold of_group. rewrite list_elem_of_omap. split.
  - intros ([g' y] & Hin & E). simpl in E. case_decide; by simplify_eq.
  - intros Hin. exists (g, x). split; [done|]. simpl. by rewrite decide_True.
Qed.

Lemma of_group_app {A} g (a b : list (Z * A)) : of_group g (a ++ b) = of_group g a ++ of_group g b.
Proof. apply omap_app. Qed.

Definition group_tries (items : list (Z * Rule)) : gmap Z SuffixTrie :=
  foldl (λ m it, add_to_group_trie m it.1 it.2) ∅ items.

Lemma group_tries_lookup items g :
  group_tries items !! g = match of_group g items with [] => None | rules => Some (trie_of rules) end.
Proof.
  unfold group_tries. induction items as [|[g' r] items IH] using rev_ind; [apply lookup_empty|].
  rewrite foldl_app, of_group_app. cbn [foldl fst snd]. unfold add_to_group_trie at 1.
  cbn [of_group omap list_omap fst snd]. case_decide as Hg.
  - subst g'. rewrite lookup_insert_eq, IH.
    destruct (of_group g items) as [|r' rules]; [done|]. cbn [from_option id app].
    f_equal. symmetry. apply (trie_of_app (r' :: rules)).
  - rewrite lookup_insert_ne, app_nil_r by done. apply IH.
Qed.

Lemma trie_of_lookup rules d : trie_lookup (trie_of rules) d = bits_below rules d.
Proof. apply holds_rules_lookup, trie_of_holds. Qed.

Lemma bits_below_u64 rules d : Forall (λ r : Rule, is_u64 r.2) rules → is_u64 (bits_below rules d).
Proof.
  induction 1 as [|r rules Hr _ IH]; simpl; [done|]. case_decide; [by apply lor_u64|done].
Qed.

Lemma bits_below_nonzero rules d : Forall (λ r : Rule, r.2 ≠ 0) rules →
  bits_below rules d ≠ 0 ↔ ∃ r, r ∈ rules ∧ is_below d (suffix_of r.1).
Proof.
  induction 1 as [|r rules Hr _ IH]; simpl.
  { split; [done|]. intros (x & Hx & _). by apply not_elem_of_nil in Hx. }
  setoid_rewrite elem_of_cons. case_decide as Hd.
  - split; [|intros _; apply lor_nonzero; by left]. intros _. exists r. split; [by left|done].
  - rewrite IH. naive_solver.
Qed.

Lemma in_group_tries items g d : Forall (λ it : Z * Rule, it.2.2 ≠ 0) items →
  in_group_trie (group_tries items) g d = true ↔ ∃ r, (g, r) ∈ items ∧ is_below d (suffix_of r.1).
Proof.
  intros Hnz. unfold in_group_trie. rewrite group_tries_lookup.
  assert (Hr : Forall (λ r : Rule, r.2 ≠ 0) (of_group g items)).
  { apply Forall_forall. intros r Hr. apply elem_of_group in Hr.
    rewrite Forall_forall in Hnz. by apply (Hnz (g, r)). }
  assert (Hiff : (∃ r : Rule, (g, r) ∈ items ∧ is_below d (suffix_of r.1)) ↔
    ∃ r, r ∈ of_group g items ∧ is_below d (suffix_of r.1)) by (by setoid_rewrite elem_of_group).
  rewrite Hiff. clear Hiff. destruct (of_group g items) as [|r rules].
  - split; [done|]. intros (x & Hx & _). by apply not_elem_of_nil in Hx.
  - by rewrite negb_true_iff, Z.eqb_neq, trie_of_lookup, bits_below_nonzero.
Qed.

Lemma group_tries_u64 items g t d : Forall (λ it : Z * Rule, is_u64 it.2.2) items →
  group_tries items !! g = Some t → is_u64 (trie_lookup t d).
Proof.
  intros Hu. rewrite group_tries_lookup. destruct (of_group g items) as [|r rules] eqn:E; [done|].
  intros [= <-]. rewrite trie_of_lookup. apply bits_below_u64. rewrite <-E.
  apply Forall_forall. intros x Hx. apply elem_of_group in Hx. rewrite Forall_forall in Hu.
  by apply (Hu (g, x)).
Qed.

(** Exact entries by group. *)
Definition group_or (m : gmap Z (gmap str Z)) (it : Z * (str * Z)) : gmap Z (gmap str Z) :=
  <[it.1 := or_bits (default ∅ (m !! it.1)) it.2.1 it.2.2]> m.
Definition group_exacts (items : list (Z * (str * Z))) : gmap Z (gmap str Z) := foldl group_or ∅ items.

Lemma in_group_exacts items g d :
  in_group_map (group_exacts items) g d = true ↔ ∃ bits, (g, (d, bits)) ∈ items.
Proof.
  unfold group_exacts. induction items as [|[g' [d' bits]] items IH] using rev_ind.
  { split; [done|]. intros (x & Hx). by apply not_elem_of_nil in Hx. }
  rewrite foldl_app. cbn [foldl]. unfold group_or at 1, in_group_map. cbn [fst snd].
  setoid_rewrite elem_of_app. setoid_rewrite list_elem_of_singleton.
  destruct (decide (g = g')) as [<-|Hg].
  - rewrite lookup_insert_eq. rewrite bool_decide_eq_true, or_bits_lookup. case_decide as Hd.
    + subst d'. split; [intros _; exists bits; by right|by eexists].
    + unfold in_group_map in IH. destruct (foldl group_or ∅ items !! g) as [entries|]; simpl in *.
      * rewrite bool_decide_eq_true in IH. rewrite IH. naive_solver.
      * rewrite lookup_empty. split; [by intros [? ?]|]. intros [b [Hb|?]]; [|naive_solver].
        assert (false = true) by (apply IH; by exists b). done.
  - rewrite lookup_insert_ne by done. unfold in_group_map in IH. rewrite IH. naive_solver.
Qed.

Lemma group_exacts_bits items : Forall (λ it : Z * (str * Z), it.2.2 ≠ 0 ∧ is_u64 it.2.2) items →
  ∀ g entries d bits, group_exacts items !! g = Some entries → entries !! d = Some bits →
  bits ≠ 0 ∧ is_u64 bits.
Proof.
  unfold group_exacts. induction items as [|[g' [d' b]] items IH] using rev_ind.
  { intros _ g entries d bits Hg. cbn [foldl] in Hg. by rewrite lookup_empty in Hg. }
  intros Hall. apply Forall_app in Hall as [Hall Hb]. apply Forall_inv in Hb as [Hb1 Hb2].
  specialize (IH Hall). rewrite foldl_app. cbn [foldl]. unfold group_or at 1. cbn [fst snd] in *.
  intros g entries d bits. destruct (decide (g = g')) as [<-|Hg].
  - rewrite lookup_insert_eq. intros [= <-]. rewrite or_bits_lookup. case_decide as Hd.
    + intros [= <-]. subst d'. destruct (foldl group_or ∅ items !! g) as [entries|] eqn:Eg; simpl.
      * destruct (entries !! d) as [old|] eqn:Ed; simpl; [|by rewrite Z.lor_0_l].
        destruct (IH _ _ _ _ Eg Ed). split; [apply lor_nonzero; by left|by apply lor_u64].
      * by rewrite lookup_empty; simpl; rewrite Z.lor_0_l.
    + destruct (foldl group_or ∅ items !! g) as [entries|] eqn:Eg; simpl; [by eapply IH|].
      by rewrite lookup_empty.
  - rewrite lookup_insert_ne by done. apply IH.
Qed.

End groups.
