(* ===== verification/BlockEnforce.v ===== *)
(** What the compiled index enforces: the verdict of a name, from the rows and
    the texts the index was built from. *)

From Stdlib Require Import String.
From S2P Require Import Prelude Text Errors Net Float64 CacheRecord CacheBloom SuffixTrie BlockIndex.
From S2P Require Import BlockList BlockRules.

#[local] Set Default Proof Using "Type".

(** ** The rules, declared *)

(** A name on a manual list: [*.x] covers the names below [x]. *)
Definition name_covers (n d : str) : Prop :=
  if is_suffix_name n then is_below d (suffix_of n) else d = n.

(** A line of a downloaded list; patterns are for the automata. *)
Definition entry_covers (e : ParsedEntry) (d : str) : Prop :=
  match e with
  | Exact n => d = n
  | Wildcard p => is_below d (suffix_of p)
  | DomainAndSubdomains n => d = n ∨ is_below d (suffix_of n)
  | Pattern _ => False
  end.

Section enforce.
Context `{Matchers, MembershipGate, IterOrder}.
Context (to_lowercase : str → str) (bloom_of : Z → gate).

Definition pattern_hits (entries : list ParsedEntry) (d : str) : Prop :=
  ∃ ac, omap pattern_text entries ≠ [] ∧ ac_build (omap pattern_text entries) = Some ac ∧
    ac_is_match ac d = true.

Definition regex_rule (i : BuildInput) (action : DomainAction) (g : Z) (d : str) : Prop :=
  ∃ row, row ∈ bi_regex_rows i ∧ action_from_str (rx_action row) = Some action ∧
    rx_group_id row = g ∧ ∃ rule, compile_regex row = Some rule ∧ rule_matches d rule = true.

Definition managed_rule (i : BuildInput) (action : DomainAction) (g : Z) (d : str) : Prop :=
  ∃ row, row ∈ bi_managed_rows i ∧ action_from_str (mr_action row) = Some action ∧
    mr_group_id row = g ∧ name_covers (to_ascii_lowercase (mr_domain row)) d.

Definition allow_list_rule (i : BuildInput) (g : Z) (d : str) : Prop :=
  (∃ row, row ∈ al_manual_rows (bi_allowlists i) ∧ name_covers (to_ascii_lowercase row) d) ∨
  (∃ source e, source ∈ al_sources (bi_allowlists i) ∧ g ∈ source.1.*2 ∧
     e ∈ parse_list_text to_lowercase source.2 ∧ entry_covers e d).

Definition allow_rule (i : BuildInput) (g : Z) (d : str) : Prop :=
  allow_list_rule i g d ∨ managed_rule i ActionAllow g d ∨ regex_rule i ActionAllow g d.

(** The block lists of the group: the manual one is every group's. *)
Definition manual_block (i : BuildInput) (d : str) : Prop :=
  ∃ row, row ∈ bi_manual_rows i ∧ name_covers (to_ascii_lowercase row) d.
Definition list_block (i : BuildInput) (g : Z) (d : str) : Prop :=
  ∃ bit text, bi_source_texts i !! bit = Some text ∧ mkMeta g bit ∈ bi_sources i ∧
    let entries := parse_list_text to_lowercase text in
    (∃ e, e ∈ entries ∧ entry_covers e d) ∨ pattern_hits entries d.

Definition block_rule (i : BuildInput) (g : Z) (d : str) : Prop :=
  managed_rule i ActionDeny g d ∨ regex_rule i ActionDeny g d ∨ manual_block i d ∨ list_block i g d.

(** Bit 63 is the manual list's, in blocks; the filter starts empty. *)
Record input_ok (i : BuildInput) : Prop := {
  in_sources s : s ∈ bi_sources i → (sm_bit s < 63)%nat;
  in_texts bit text : bi_source_texts i !! bit = Some text → (bit < 63)%nat;
  in_bloom n : gate_ok (bloom_of n);
}.

(** ** Exact entries and suffixes *)

Abbreviation entries_of i := (parse_list_text to_lowercase <$> bi_source_texts i).
Abbreviation manual_of i := (to_ascii_lowercase <$> bi_manual_rows i).

Definition exact_items (manual : list str) (sources : list (nat * list ParsedEntry)) : list (str * Z) :=
  ((λ d, (d, MANUAL_SOURCE_BIT)) <$> List.filter (λ d, negb (is_suffix_name d)) manual)
  ++ (sources ≫= λ s, (λ d, (d, source_bit s.1)) <$> omap exact_name s.2).
Definition suffix_items (manual : list str) (sources : list (nat * list ParsedEntry)) : list Rule :=
  ((λ d, (d, MANUAL_SOURCE_BIT)) <$> List.filter is_suffix_name manual)
  ++ (sources ≫= λ s, (λ p, (p, source_bit s.1)) <$> omap suffix_pattern s.2).

Lemma build_exact_spec manual srcs : (∀ n, gate_ok (bloom_of n)) →
  let d := build_exact_and_wildcard bloom_of manual srcs in
  gated (bd_bloom d, bd_exact d) ∧
  (∀ n i, Z.testbit (default 0 (bd_exact d !! n)) i = true ↔
     ∃ it, it ∈ exact_items manual (walk srcs) ∧ it.1 = n ∧ Z.testbit it.2 i = true) ∧
  dom (bd_exact d) = list_to_set (exact_items manual (walk srcs)).*1 ∧
  bd_wildcard d = trie_of (suffix_items manual (walk srcs)) ∧
  bd_patterns d = omap (λ s, patterns_of s.1 s.2) (walk srcs) ∧
  (Forall (λ r : Rule, r.2 ≠ 0) (suffix_items manual (walk srcs)) →
   total_names d = size (list_to_set (exact_items manual (walk srcs)).*1
     ∪ list_to_set (suffix_names (suffix_items manual (walk srcs))) : gset str)).
Proof.
  intros Hok d. unfold d, build_exact_and_wildcard. set (cap := Z.max _ 1000).
  rewrite <-!foldl_bind, <-!foldl_app. fold (exact_items manual (walk srcs)).
  pose proof (insert_exact_bits_empty (exact_items manual (walk srcs)) (bloom_of cap)) as Hbits.
  pose proof (insert_exact_dom_empty (exact_items manual (walk srcs)) (bloom_of cap)) as Hd.
  pose proof (insert_exact_gated (exact_items manual (walk srcs)) (bloom_of cap, ∅)) as Hg.
  destruct (foldl insert_exact _ _) as [bloom ex]. rewrite <-!foldl_bind, <-!foldl_app.
  fold (suffix_items manual (walk srcs)).
  pose proof (insert_suffix_trie ex (suffix_items manual (walk srcs)) (trie_default, 0%nat)) as Ht.
  pose proof (insert_suffix_count ex (suffix_items manual (walk srcs))) as Hc.
  destruct (foldl (insert_suffix ex) _ _) as [trie n]. cbn [fst snd] in *.
  cbn [bd_bloom bd_exact bd_wildcard bd_patterns total_names].
  split_and!; try done.
  - apply Hg, gated_empty, Hok.
  - intros Hnz. rewrite Hc, <-Hd, <-size_dom by done. set (S := list_to_set _ : gset str).
    clearbody S. clear. rewrite <-size_union by set_solver. f_equal.
    by rewrite (union_comm_L (dom ex)), difference_union_L, union_comm_L.
Qed.

Lemma items_u64 manual (sources : list (nat * list ParsedEntry)) :
  (∀ s, s ∈ sources → (s.1 < 63)%nat) →
  Forall (λ r : Rule, r.2 ≠ 0) (suffix_items manual sources).
Proof.
  intros Hs. apply Forall_forall. intros r [Hr|Hr]%elem_of_app.
  - apply list_elem_of_fmap in Hr as (x & -> & _). done.
  - apply list_elem_of_bind in Hr as (s & Hr & Hin). apply list_elem_of_fmap in Hr as (x & -> & _).
    apply source_bit_u64. specialize (Hs _ Hin). lia.
Qed.

End enforce.

(** The items of the lists, a source at a time. *)
Lemma elem_of_source_items `{IterOrder} (f : ParsedEntry → option str)
    (srcs : gmap nat (list ParsedEntry)) (it : str * Z) :
  it ∈ (walk srcs ≫= λ s, (λ p, (p, source_bit s.1)) <$> omap f s.2) ↔
  ∃ b es e, srcs !! b = Some es ∧ e ∈ es ∧ f e = Some it.1 ∧ it.2 = source_bit b.
Proof.
  rewrite list_elem_of_bind. split.
  - intros ([b es] & Hit & Hin). apply elem_of_walk in Hin. apply list_elem_of_fmap in Hit as (p & -> & Hp).
    apply list_elem_of_omap in Hp as (e & He & Ep). by exists b, es, e.
  - destruct it as [p m]. cbn [fst snd]. intros (b & es & e & Hl & He & Ep & ->). exists (b, es).
    split; [|by apply elem_of_walk]. apply list_elem_of_fmap. exists p. split; [done|].
    apply list_elem_of_omap. by exists e.
Qed.

Lemma elem_of_manual_items (f : str → bool) manual (it : str * Z) :
  it ∈ ((λ d, (d, MANUAL_SOURCE_BIT)) <$> List.filter f manual) ↔
  it.1 ∈ manual ∧ f it.1 = true ∧ it.2 = MANUAL_SOURCE_BIT.
Proof.
  rewrite list_elem_of_fmap. destruct it as [n m]. cbn [fst snd]. split.
  - intros (x & [= -> ->] & Hx). by apply elem_of_filter_bool in Hx as [??].
  - intros (Hn & Hf & ->). exists n. by rewrite elem_of_filter_bool.
Qed.

Lemma entry_covers_items e d : entry_covers e d ↔
  exact_name e = Some d ∨ ∃ p, suffix_pattern e = Some p ∧ is_below d (suffix_of p).
Proof.
  destruct e as [n|p|p|n]; cbn [entry_covers exact_name suffix_pattern]; split.
  - intros ->. by left.
  - intros [[= ->]|(? & [=] & _)]; done.
  - right. by exists p.
  - intros [[=]|(? & [= <-] & ?)]; done.
  - done.
  - intros [[=]|(? & [=] & _)].
  - intros [->|Hb]; [by left|right; by exists n].
  - intros [[= ->]|(? & [= <-] & ?)]; [by left|by right].
Qed.

(** The bits of a name: who lists it, exactly or by a suffix. *)
Lemma list_items_bit `{IterOrder} manual (srcs : gmap nat (list ParsedEntry)) d i :
  (∀ b es, srcs !! b = Some es → (b < 63)%nat) →
  ((∃ it, it ∈ exact_items manual (walk srcs) ∧ it.1 = d ∧ Z.testbit it.2 i = true) ∨
   (∃ r : Rule, r ∈ suffix_items manual (walk srcs) ∧ is_below d (suffix_of r.1) ∧
      Z.testbit r.2 i = true)) ↔
  (i = 63 ∧ ∃ n, n ∈ manual ∧ name_covers n d) ∨
  (∃ b es, srcs !! b = Some es ∧ i = Z.of_nat b ∧ ∃ e, e ∈ es ∧ entry_covers e d).
Proof.
  intros Hb. unfold exact_items, suffix_items, name_covers.
  setoid_rewrite elem_of_app. setoid_rewrite elem_of_source_items. setoid_rewrite elem_of_manual_items.
  setoid_rewrite entry_covers_items.
  assert (Hbit : ∀ b es, srcs !! b = Some es → Z.testbit (source_bit b) i = true ↔ i = Z.of_nat b)
    by (intros b es Hl; specialize (Hb _ _ Hl); apply source_bit_bit; lia).
  split.
  - intros [([n m] & [(Hn & Hf & Hm)|(b & es & e & Hl & He & Ep & Hm)] & Hd & Hi)
           |([n m] & [(Hn & Hf & Hm)|(b & es & e & Hl & He & Ep & Hm)] & Hd & Hi)]; cbn [fst snd] in *; subst m.
    + left. split; [by apply manual_bit_bit|]. exists n. split; [done|].
      apply negb_true_iff in Hf. by rewrite Hf.
    + right. exists b, es. split_and!; [done|by eapply Hbit|]. exists e. split; [done|left; by subst n].
    + left. split; [by apply manual_bit_bit|]. exists n. by rewrite Hf.
    + right. exists b, es. split_and!; [done|by eapply Hbit|]. exists e. split; [done|right; by exists n].
  - intros [(-> & n & Hn & Hc)|(b & es & Hl & -> & e & He & [Hc|(p & Hp & Hc)])].
    + destruct (is_suffix_name n) eqn:Ef; [right|left]; exists (n, MANUAL_SOURCE_BIT); cbn [fst snd].
      * split_and!; [left; by rewrite Ef|done|by apply manual_bit_bit].
      * split_and!; [left; by rewrite Ef|done|by apply manual_bit_bit].
    + left. exists (d, source_bit b). cbn [fst snd].
      split_and!; [right; by exists b, es, e|done|by eapply Hbit].
    + right. exists (p, source_bit b). cbn [fst snd].
      split_and!; [right; by exists b, es, e|done|by eapply Hbit].
Qed.

(** ** Groups *)

Lemma group_masks_bit sources gids g i : (∀ s, s ∈ sources → (sm_bit s < 63)%nat) →
  Z.testbit (default MANUAL_SOURCE_BIT (build_group_masks sources gids !! g)) i = true ↔
  i = 63 ∨ ∃ b, mkMeta g b ∈ sources ∧ i = Z.of_nat b.
Proof.
  intros Hs. unfold build_group_masks.
  pose proof (manual_bit_bit i) as Hm.
  set (m0 := foldl (λ m gid, <[gid := MANUAL_SOURCE_BIT]> m) ∅ gids).
  assert (Hzero : default MANUAL_SOURCE_BIT (m0 !! g) = MANUAL_SOURCE_BIT).
  { subst m0. induction gids as [|x gids IH] using rev_ind; [cbn [foldl]; by rewrite lookup_empty|].
    rewrite foldl_app. cbn [foldl]. destruct (decide (x = g)) as [->|]; [by rewrite lookup_insert_eq|].
    by rewrite lookup_insert_ne. }
  clearbody m0. induction sources as [|s sources IH] using rev_ind.
  { cbn [foldl]. rewrite Hzero, Hm. split; [by left|]. intros [?|(b & Hb & _)]; [done|].
    by apply not_elem_of_nil in Hb. }
  rewrite foldl_app. cbn [foldl].
  assert (IH' := IH ltac:(intros s' Hs'; apply Hs, elem_of_app; by left)). clear IH.
  assert (Hsb : (sm_bit s < 63)%nat) by (apply Hs, elem_of_app; right; by left).
  setoid_rewrite elem_of_app. setoid_rewrite list_elem_of_singleton.
  destruct s as [g' b]. cbn [sm_group_id sm_bit] in *. destruct (decide (g' = g)) as [->|Hg].
  - rewrite lookup_insert_eq. cbn [from_option id]. rewrite Z.lor_spec, orb_true_iff, IH'. split.
    + intros [[?|(b' & Hb' & ->)]|Hb]; [by left|right; exists b'; split; [by left|done]|right].
      exists b. split; [by right|]. apply source_bit_bit; [lia|done].
    + intros [?|(b' & [Hb'|[= ->]] & ->)]; [left; by left|left; right; by exists b'|right].
      apply source_bit_bit; lia.
  - rewrite lookup_insert_ne, IH' by done. naive_solver.
Qed.

Lemma group_masks_u64 sources gids g : (∀ s, s ∈ sources → (sm_bit s < 63)%nat) →
  is_u64 (default MANUAL_SOURCE_BIT (build_group_masks sources gids !! g)).
Proof.
  intros Hs. unfold build_group_masks.
  assert (Hmu : is_u64 MANUAL_SOURCE_BIT) by (apply unnamed_bit_u64).
  set (m0 := foldl (λ m gid, <[gid := MANUAL_SOURCE_BIT]> m) ∅ gids).
  assert (Hzero : ∀ g, is_u64 (default MANUAL_SOURCE_BIT (m0 !! g))).
  { subst m0. clear g. intros g. induction gids as [|x gids IH] using rev_ind;
      [cbn [foldl]; by rewrite lookup_empty|].
    rewrite foldl_app. cbn [foldl]. destruct (decide (x = g)) as [->|]; [by rewrite lookup_insert_eq|].
    by rewrite lookup_insert_ne. }
  clearbody m0. revert g. induction sources as [|s sources IH] using rev_ind; [done|].
  intros g. rewrite foldl_app. cbn [foldl].
  assert (IH' := IH ltac:(intros s' Hs'; apply Hs, elem_of_app; by left)). clear IH.
  destruct (decide (sm_group_id s = g)) as [<-|Hg]; [|rewrite lookup_insert_ne by done; apply IH'].
  rewrite lookup_insert_eq. cbn [from_option id]. apply lor_u64; [apply IH'|].
  apply source_bit_u64. specialize (Hs s ltac:(apply elem_of_app; right; by left)). lia.
Qed.

(** Rows of a group's managed deny list. *)
Definition deny_rules (es : list ManagedDomainEntry) : list (Z * Rule) :=
  es ≫= λ e, if decide (me_action e = ActionDeny ∧ is_suffix_name (me_domain e) = true)
              then [(me_group_id e, (me_domain e, 1))] else [].

Lemma managed_deny_wildcards_spec es acc :
  (foldl add_managed_deny acc es).2 =
  foldl (λ m it, add_to_group_trie m it.1 it.2) acc.2 (deny_rules es).
Proof.
  apply (foldl_proj snd). intros [ds ws] e. unfold add_managed_deny. cbn [snd].
  destruct (me_action e); [by rewrite decide_False by (by intros [? ?])|].
  destruct (is_suffix_name (me_domain e)); [by rewrite decide_True|].
  by rewrite decide_False by (by intros [? ?]).
Qed.

Lemma managed_denies_spec es acc g d :
  in_group_set (foldl add_managed_deny acc es).1 g d = true ↔
  in_group_set acc.1 g d = true ∨
  ∃ e, e ∈ es ∧ me_action e = ActionDeny ∧ me_group_id e = g ∧
    is_suffix_name (me_domain e) = false ∧ me_domain e = d.
Proof.
  revert acc. induction es as [|e es IH]; intros [ds ws]; cbn [foldl].
  { rewrite exists_elem_nil. tauto. }
  rewrite IH, exists_elem_cons. clear IH. unfold add_managed_deny at 1. cbn [fst].
  destruct (me_action e) eqn:Ea; [cbn [fst]; intuition congruence|].
  destruct (is_suffix_name (me_domain e)) eqn:Ef; [cbn [fst]; intuition congruence|].
  assert (Hi : in_group_set (<[me_group_id e := {[me_domain e]} ∪ default ∅ (ds !! me_group_id e)]> ds) g d = true
    ↔ in_group_set ds g d = true ∨ (me_group_id e = g ∧ me_domain e = d)).
  { unfold in_group_set. destruct (decide (me_group_id e = g)) as [<-|Hg].
    - rewrite lookup_insert_eq. destruct (ds !! me_group_id e); simpl;
        rewrite ?bool_decide_eq_true; set_solver.
    - rewrite lookup_insert_ne by done. naive_solver. }
  cbn [fst]. rewrite Hi. tauto.
Qed.

(** *** Regular expressions *)

Section regex.
Context `{Matchers}.

Lemma push_rule_lookup m g rule k :
  push_rule m g rule !! k = if decide (k = g) then Some (default [] (m !! g) ++ [rule]) else m !! k.
Proof.
  unfold push_rule. case_decide as Hk; [subst; by rewrite lookup_insert_eq|by rewrite lookup_insert_ne].
Qed.

Lemma any_rule_push m g rule k d :
  any_rule (push_rule m g rule !! k) d = true ↔
  any_rule (m !! k) d = true ∨ (k = g ∧ rule_matches d rule = true).
Proof.
  rewrite push_rule_lookup. case_decide as Hk; [subst k|naive_solver].
  unfold any_rule. rewrite existsb_app. simpl. rewrite orb_false_r, orb_true_iff.
  destruct (m !! g); simpl; naive_solver.
Qed.

Lemma regex_filters_spec rows acc g d :
  let r := foldl add_regex acc rows in
  let hit action := ∃ row, row ∈ rows ∧ action_from_str (rx_action row) = Some action ∧
    rx_group_id row = g ∧ ∃ rule, compile_regex row = Some rule ∧ rule_matches d rule = true in
  (any_rule (r.1 !! g) d = true ↔ any_rule (acc.1 !! g) d = true ∨ hit ActionDeny) ∧
  (any_rule (r.2 !! g) d = true ↔ any_rule (acc.2 !! g) d = true ∨ hit ActionAllow).
Proof.
  cbv zeta. revert acc. induction rows as [|row rows IH]; intros [block allow]; cbn [foldl].
  { cbn [fst snd]. rewrite !exists_elem_nil. tauto. }
  destruct (IH (add_regex (block, allow) row)) as [IH1 IH2].
  rewrite IH1, IH2, !exists_elem_cons. clear IH IH1 IH2. unfold add_regex. cbn [fst snd].
  destruct (action_from_str (rx_action row)) as [action|] eqn:Ea; [|intuition congruence].
  destruct (compile_regex row) as [rule|] eqn:Ec.
  - assert (Hr : (∃ r, Some rule = Some r ∧ rule_matches d r = true) ↔ rule_matches d rule = true)
      by (split; [by intros (? & [= ->] & ?)|by exists rule]).
    rewrite Hr. destruct action; cbn [fst snd]; rewrite any_rule_push; intuition congruence.
  - assert (Hr : ¬ ∃ r, None = Some r ∧ rule_matches d r = true) by (by intros (? & ? & _)).
    cbn [fst snd]. tauto.
Qed.

End regex.
