(* ===== verification/BlockAllow.v ===== *)
(** The allowlists of the compiled index, in terms of the rows and texts. *)

From Stdlib Require Import String.
From S2P Require Import Prelude Text Errors Net Float64 CacheRecord CacheBloom SuffixTrie BlockIndex.
From S2P Require Import BlockList BlockRules BlockEnforce.

#[local] Set Default Proof Using "Type".

Section allow.
Context `{Matchers, IterOrder}.
Context (to_lowercase : str → str).

Abbreviation allow_list_rule := (allow_list_rule to_lowercase).

(** *** Allowlists *)

Definition opt_items {A B} (f : A → B) (o : option A) : list B :=
  match o with Some x => [f x] | None => [] end.

Definition is_mask (b : Z) : Prop := b ≠ 0 ∧ is_u64 b.

Lemma is_mask_lor a b : is_u64 a → is_mask b → is_mask (Z.lor a b).
Proof. intros Ha [Hb1 Hb2]. split; [apply lor_nonzero; by right|by apply lor_u64]. Qed.

Lemma allow_bit_mask idx : is_mask (allow_bit idx).
Proof.
  unfold allow_bit. destruct (Nat.ltb_spec idx MANUAL_SOURCE_BIT_INDEX) as [Hlt|_].
  - unfold MANUAL_SOURCE_BIT_INDEX in Hlt. destruct (source_bit_u64 idx); [lia|done].
  - by destruct unnamed_bit_u64.
Qed.

Lemma allow_bits_mask names s b : allow_bits_of names !! s = Some b → is_mask b.
Proof.
  unfold allow_bits_of. set (l := imap pair (sorted_names names)). clearbody l.
  induction l as [|x l IH] using rev_ind; [cbn [foldl]; by rewrite lookup_empty|].
  rewrite foldl_app. cbn [foldl]. destruct (decide (x.2.1 = s)) as [->|Hs].
  - rewrite lookup_insert_eq. intros [= <-]. apply allow_bit_mask.
  - by rewrite lookup_insert_ne.
Qed.

Lemma group_bits_spec bit_of assignments : (∀ s b, bit_of !! s = Some b → is_mask b) →
  (∀ g b, group_bits_of bit_of assignments !! g = Some b → is_mask b) ∧
  (∀ g, is_Some (group_bits_of bit_of assignments !! g) ↔ g ∈ assignments.*2).
Proof.
  intros Hb. unfold group_bits_of.
  induction assignments as [|a l [IH1 IH2]] using rev_ind.
  { cbn [foldl]. split; [intros g b; by rewrite lookup_empty|]. intros g. rewrite lookup_empty.
    split; [by intros [? ?]|]. by intros ?%not_elem_of_nil. }
  rewrite foldl_app, fmap_app. cbn [foldl fmap list_fmap].
  set (m := foldl _ ∅ l) in *. clearbody m.
  assert (Hd : is_mask (default UNNAMED_ALLOW_BIT (bit_of !! a.1))).
  { destruct (bit_of !! a.1) as [b|] eqn:E; [by eapply Hb|]. by destruct unnamed_bit_u64. }
  split.
  - intros g b. destruct (decide (a.2 = g)) as [<-|Hg]; [|rewrite lookup_insert_ne by done; apply IH1].
    rewrite lookup_insert_eq. intros [= <-]. apply is_mask_lor; [|done].
    destruct (m !! a.2) as [b|] eqn:E; [by eapply IH1|done].
  - intros g. rewrite elem_of_app, list_elem_of_singleton, <-IH2.
    destruct (decide (a.2 = g)) as [<-|Hg].
    + rewrite lookup_insert_eq. split; [by right|by eexists].
    + rewrite lookup_insert_ne by done. split; [by left|]. by intros [?|?].
Qed.

Lemma allow_entry_exact g b al e :
  group_exact (allow_entry g b al e)
  = foldl group_or (group_exact al) (opt_items (λ d, (g, (d, b))) (exact_name e)).
Proof. by destruct e. Qed.
Lemma allow_entry_wildcard g b al e :
  group_wildcard (allow_entry g b al e)
  = foldl (λ m it, add_to_group_trie m it.1 it.2) (group_wildcard al)
      (opt_items (λ p, (g, (p, b))) (suffix_pattern e)).
Proof. by destruct e. Qed.

Definition source_items (f : ParsedEntry → option str) (bit_of : gmap Z Z)
    (source : list (Z * Z) * str) : list (Z * (str * Z)) :=
  walk (group_bits_of bit_of source.1) ≫= λ gb,
    parse_list_text to_lowercase source.2 ≫= λ e, opt_items (λ p, (gb.1, (p, gb.2))) (f e).

Lemma add_allow_source_exact bit_of al source :
  group_exact (add_allow_source to_lowercase bit_of al source)
  = foldl group_or (group_exact al) (source_items exact_name bit_of source).
Proof.
  apply (foldl_proj group_exact). intros al' gb. apply (foldl_proj group_exact).
  intros. apply allow_entry_exact.
Qed.
Lemma add_allow_source_wildcard bit_of al source :
  group_wildcard (add_allow_source to_lowercase bit_of al source)
  = foldl (λ m it, add_to_group_trie m it.1 it.2) (group_wildcard al)
      (source_items suffix_pattern bit_of source).
Proof.
  apply (foldl_proj group_wildcard). intros al' gb. apply (foldl_proj group_wildcard).
  intros. apply allow_entry_wildcard.
Qed.

Definition managed_items (suffix : bool) (e : ManagedDomainEntry) : list (Z * (str * Z)) :=
  if decide (me_action e = ActionAllow ∧ is_suffix_name (me_domain e) = suffix)
  then [(me_group_id e, (me_domain e, UNNAMED_ALLOW_BIT))] else [].

Lemma add_managed_allow_exact al e :
  group_exact (add_managed_allow al e) = foldl group_or (group_exact al) (managed_items false e).
Proof.
  unfold add_managed_allow, managed_items. destruct (me_action e).
  - destruct (is_suffix_name (me_domain e)); [by rewrite decide_False by (by intros [? ?])|].
    by rewrite decide_True.
  - by rewrite decide_False by (by intros [? ?]).
Qed.
Lemma add_managed_allow_wildcard al e :
  group_wildcard (add_managed_allow al e)
  = foldl (λ m it, add_to_group_trie m it.1 it.2) (group_wildcard al) (managed_items true e).
Proof.
  unfold add_managed_allow, managed_items. destruct (me_action e).
  - destruct (is_suffix_name (me_domain e)); [by rewrite decide_True|].
    by rewrite decide_False by (by intros [? ?]).
  - by rewrite decide_False by (by intros [? ?]).
Qed.

(** What only the manual rows change. *)
Lemma manual_allow_groups rows al :
  let al' := foldl add_manual_allow al rows in
  group_exact al' = group_exact al ∧ group_wildcard al' = group_wildcard al.
Proof.
  revert al. induction rows as [|row rows IH]; intros al; [done|]. cbn [foldl].
  destruct (IH (add_manual_allow al row)) as [-> ->]. unfold add_manual_allow.
  by destruct (is_suffix_name _).
Qed.

Lemma allow_sources_globals bit_of sources al :
  let al' := foldl (add_allow_source to_lowercase bit_of) al sources in
  global_exact al' = global_exact al ∧ global_wildcard al' = global_wildcard al.
Proof.
  assert (He : ∀ g b es al, let al' := foldl (allow_entry g b) al es in
    global_exact al' = global_exact al ∧ global_wildcard al' = global_wildcard al).
  { intros g b es. induction es as [|e es IH]; intros al'; [done|]. cbn [foldl].
    destruct (IH (allow_entry g b al' e)) as [-> ->]. by destruct e. }
  revert al. induction sources as [|s sources IH]; intros al; [done|]. cbn [foldl].
  destruct (IH (add_allow_source to_lowercase bit_of al s)) as [-> ->]. clear IH.
  unfold add_allow_source. generalize (walk (group_bits_of bit_of s.1)). intros l. revert al.
  induction l as [|gb l IH]; intros al; [done|]. cbn [foldl].
  destruct (IH (foldl (allow_entry gb.1 gb.2) al (parse_list_text to_lowercase s.2))) as [-> ->].
  apply He.
Qed.

Lemma managed_allow_globals es al :
  let al' := foldl add_managed_allow al es in
  global_exact al' = global_exact al ∧ global_wildcard al' = global_wildcard al.
Proof.
  revert al. induction es as [|e es IH]; intros al; [done|]. cbn [foldl].
  destruct (IH (add_managed_allow al e)) as [-> ->]. unfold add_managed_allow.
  destruct (me_action e); [by destruct (is_suffix_name _)|done].
Qed.

Definition global_rules (rows : list str) : list Rule :=
  rows ≫= λ row, let n := to_ascii_lowercase row in if is_suffix_name n then [(n, 1)] else [].

Lemma manual_allow_wildcard rows al :
  global_wildcard (foldl add_manual_allow al rows) = foldl trie_add (global_wildcard al) (global_rules rows).
Proof.
  apply (foldl_proj global_wildcard). intros al' row. unfold add_manual_allow.
  by destruct (is_suffix_name _).
Qed.

Lemma manual_allow_exact rows al d :
  d ∈ global_exact (foldl add_manual_allow al rows) ↔
  d ∈ global_exact al ∨ ∃ row, row ∈ rows ∧ is_suffix_name (to_ascii_lowercase row) = false ∧
    d = to_ascii_lowercase row.
Proof.
  clear to_lowercase. revert al. induction rows as [|row rows IH]; intros al; cbn [foldl].
  { rewrite exists_elem_nil. tauto. }
  rewrite IH, exists_elem_cons. unfold add_manual_allow.
  destruct (is_suffix_name (to_ascii_lowercase row)); cbn [global_exact with_global].
  - intuition congruence.
  - rewrite elem_of_union, elem_of_singleton. intuition congruence.
Qed.

Lemma managed_items_elem es sfx g p b :
  (g, (p, b)) ∈ (es ≫= managed_items sfx) ↔
  ∃ e, e ∈ es ∧ me_action e = ActionAllow ∧ is_suffix_name (me_domain e) = sfx ∧ me_group_id e = g ∧
    me_domain e = p ∧ b = UNNAMED_ALLOW_BIT.
Proof.
  rewrite list_elem_of_bind. unfold managed_items. split.
  - intros (e & Hin & He). exists e. split; [done|]. case_decide as Hd; [|by apply not_elem_of_nil in Hin].
    apply list_elem_of_singleton in Hin. by destruct Hd; simplify_eq.
  - intros (e & He & H1' & H2' & <- & <- & ->). exists e. split; [|done].
    rewrite decide_True by done. by left.
Qed.

Lemma source_items_elem f bit_of sources g p b :
  (g, (p, b)) ∈ (sources ≫= source_items f bit_of) ↔
  ∃ source, source ∈ sources ∧ group_bits_of bit_of source.1 !! g = Some b ∧
    ∃ e, e ∈ parse_list_text to_lowercase source.2 ∧ f e = Some p.
Proof.
  rewrite list_elem_of_bind. unfold source_items. split.
  - intros (source & Hin & Hs). exists source. split; [done|].
    apply list_elem_of_bind in Hin as ([g' b'] & Hin & Hgb). apply elem_of_walk in Hgb.
    apply list_elem_of_bind in Hin as (e & Hin & He). cbn [fst snd] in Hin.
    unfold opt_items in Hin. destruct (f e) as [p'|] eqn:Ef; [|by apply not_elem_of_nil in Hin].
    apply list_elem_of_singleton in Hin. simplify_eq. split; [done|]. by exists e.
  - intros (source & Hs & Hgb & e & He & Ef). exists source. split; [|done].
    apply list_elem_of_bind. exists (g, b). split; [|by apply elem_of_walk].
    apply list_elem_of_bind. exists e. split; [|done]. unfold opt_items. rewrite Ef. by left.
Qed.

Definition exact_allows (loaded : AllowlistLoad) (es : list ManagedDomainEntry) :=
  (es ≫= managed_items false) ++
  (al_sources loaded ≫= source_items exact_name (allow_bits_of (al_names loaded))).
Definition suffix_allows (loaded : AllowlistLoad) (es : list ManagedDomainEntry) : list (Z * Rule) :=
  (es ≫= managed_items true) ++
  (al_sources loaded ≫= source_items suffix_pattern (allow_bits_of (al_names loaded))).

Lemma build_allowlist_spec loaded es :
  let al := build_allowlist_index to_lowercase loaded es in
  group_exact al = group_exacts (exact_allows loaded es) ∧
  group_wildcard al = group_tries (suffix_allows loaded es) ∧
  global_wildcard al = trie_of (global_rules (al_manual_rows loaded)) ∧
  ∀ d, d ∈ global_exact al ↔ ∃ row, row ∈ al_manual_rows loaded ∧
    is_suffix_name (to_ascii_lowercase row) = false ∧ d = to_ascii_lowercase row.
Proof.
  unfold build_allowlist_index. set (al0 := mkAllowlists _ _ _ _ _).
  destruct (allow_sources_globals (allow_bits_of (al_names loaded)) (al_sources loaded)
    (foldl add_managed_allow (foldl add_manual_allow al0 (al_manual_rows loaded)) es)) as [-> ->].
  destruct (managed_allow_globals es (foldl add_manual_allow al0 (al_manual_rows loaded))) as [-> ->].
  rewrite (foldl_proj group_exact _ group_or _ _ _ (add_allow_source_exact _)).
  rewrite (foldl_proj group_exact _ group_or _ _ _ add_managed_allow_exact).
  rewrite (foldl_proj group_wildcard _ _ _ _ _ (add_allow_source_wildcard _)).
  rewrite (foldl_proj group_wildcard _ _ _ _ _ add_managed_allow_wildcard).
  destruct (manual_allow_groups (al_manual_rows loaded) al0) as [-> ->].
  rewrite manual_allow_wildcard. unfold exact_allows, suffix_allows, group_exacts, group_tries.
  rewrite !foldl_app. split_and!; try done. intros d. rewrite manual_allow_exact. split; [|by right].
  intros [Hd|?]; [|done]. by apply not_elem_of_empty in Hd.
Qed.

Lemma allow_items_masks loaded es :
  Forall (λ it : Z * (str * Z), is_mask it.2.2) (exact_allows loaded es) ∧
  Forall (λ it : Z * (str * Z), is_mask it.2.2) (suffix_allows loaded es).
Proof.
  assert (Hs : ∀ f, Forall (λ it : Z * (str * Z), is_mask it.2.2)
    (al_sources loaded ≫= source_items f (allow_bits_of (al_names loaded)))).
  { intros f. apply Forall_forall. intros [g [p b]] Hin. apply source_items_elem in Hin
      as (source & _ & Hb & _). cbn [fst snd].
    by eapply (group_bits_spec _ source.1 (allow_bits_mask (al_names loaded))). }
  assert (Hm : ∀ sfx, Forall (λ it : Z * (str * Z), is_mask it.2.2) (es ≫= managed_items sfx)).
  { intros sfx. apply Forall_forall. intros [g [p b]] Hin.
    apply managed_items_elem in Hin as (e & _ & _ & _ & _ & _ & ->). by destruct unnamed_bit_u64. }
  split; apply Forall_app; by split.
Qed.

(** A managed row, as the entry it becomes. *)
Lemma managed_entries_elem i action (P : Z → str → Prop) :
  (∃ e, e ∈ omap managed_entry (bi_managed_rows i) ∧ me_action e = action ∧ P (me_group_id e) (me_domain e)) ↔
  ∃ row, row ∈ bi_managed_rows i ∧ action_from_str (mr_action row) = Some action ∧
    P (mr_group_id row) (to_ascii_lowercase (mr_domain row)).
Proof.
  split.
  - intros (e & He & Ha & HP). apply list_elem_of_omap in He as (row & Hr & E). exists row.
    unfold managed_entry in E. destruct (action_from_str (mr_action row)); [|done]. by simplify_eq/=.
  - intros (row & Hr & Ha & HP). eexists. split_and!; [apply list_elem_of_omap; exists row; split; [done|]|..].
    + unfold managed_entry. rewrite Ha. done.
    + done.
    + done.
Qed.

(** A name the group's items allow, exactly or by a suffix. *)
Lemma group_items_cover loaded es g d :
  (∃ b, (g, (d, b)) ∈ exact_allows loaded es) ∨
  (∃ r, (g, r) ∈ suffix_allows loaded es ∧ is_below d (suffix_of r.1)) ↔
  (∃ s e, s ∈ al_sources loaded ∧ g ∈ s.1.*2 ∧ e ∈ parse_list_text to_lowercase s.2 ∧ entry_covers e d) ∨
  (∃ e, e ∈ es ∧ me_action e = ActionAllow ∧ me_group_id e = g ∧ name_covers (me_domain e) d).
Proof.
  unfold exact_allows, suffix_allows. setoid_rewrite elem_of_app.
  pose proof (λ s : list (Z * Z) * str, proj2 (group_bits_spec _ s.1 (allow_bits_mask (al_names loaded)))) as Hgb.
  split.
  - intros [(b & [Hin|Hin])|([p b] & [Hin|Hin] & Hb)].
    + apply managed_items_elem in Hin as (e & He & Ha & Hf & Hg & Hd & _). right. exists e.
      unfold name_covers. by rewrite Hf.
    + apply source_items_elem in Hin as (s & Hs & Hb & e & He & Ee). left. exists s, e.
      split_and!; try done; [by apply Hgb; eexists|]. destruct e; simplify_eq/=; [done|by left].
    + apply managed_items_elem in Hin as (e & He & Ha & Hf & Hg & Hd & _). right. exists e.
      unfold name_covers. rewrite Hf. by subst.
    + apply source_items_elem in Hin as (s & Hs & Hb' & e & He & Ee). left. exists s, e.
      split_and!; try done; [by apply Hgb; eexists|]. destruct e; simplify_eq/=; [done|by right].
  - intros [(s & e & Hs & Hg & He & Hc)|(e & He & Ha & Hg & Hc)].
    + apply Hgb in Hg as [b Hb].
      assert (Hx : ∀ f p, f e = Some p → (g, (p, b)) ∈ (al_sources loaded ≫= source_items f
        (allow_bits_of (al_names loaded)))).
      { intros f p Ef. apply source_items_elem. exists s. split_and!; [done..|]. by exists e. }
      destruct e as [n|p|p|n]; simpl in Hc; [|right; exists (p, b)|done|destruct Hc as [Hc|Hc];
        [|right; exists (n, b)]]; try (split; [right; by apply Hx|done]);
        subst d; left; exists b; right; by apply Hx.
    + unfold name_covers in Hc. destruct (is_suffix_name (me_domain e)) eqn:Ef.
      * right. exists (me_domain e, UNNAMED_ALLOW_BIT). split; [|done].
        left. apply managed_items_elem. by exists e.
      * left. exists UNNAMED_ALLOW_BIT. left. apply managed_items_elem. by exists e.
Qed.

(** A name the rows of every group allow. *)
Lemma global_rows_cover rows d :
  (∃ row, row ∈ rows ∧ is_suffix_name (to_ascii_lowercase row) = false ∧ d = to_ascii_lowercase row) ∨
  (∃ r, r ∈ global_rules rows ∧ is_below d (suffix_of r.1)) ↔
  ∃ row, row ∈ rows ∧ name_covers (to_ascii_lowercase row) d.
Proof.
  unfold name_covers. split.
  - intros [(row & Hr & Hf & Hd)|(r & Hr & Hb)]; [exists row; by rewrite Hf|].
    apply list_elem_of_bind in Hr as (row & Hr & Hin). exists row. split; [done|].
    cbv zeta in Hr. destruct (is_suffix_name _); [|by apply not_elem_of_nil in Hr].
    by apply list_elem_of_singleton in Hr as ->.
  - intros (row & Hr & Hc). destruct (is_suffix_name _) eqn:Ef; [right|left; by exists row].
    exists (to_ascii_lowercase row, 1). split; [|done]. apply list_elem_of_bind. exists row.
    cbv zeta. rewrite Ef. split; [by left|done].
Qed.

Lemma global_rules_nonzero rows : Forall (λ r : Rule, r.2 ≠ 0) (global_rules rows).
Proof.
  apply Forall_forall. intros r Hr. apply list_elem_of_bind in Hr as (row & Hr & _).
  cbv zeta in Hr. destruct (is_suffix_name _); [|by apply not_elem_of_nil in Hr].
  by apply list_elem_of_singleton in Hr as ->.
Qed.

Lemma allowed_spec i g d :
  is_allowed_name (build_allowlist_index to_lowercase (bi_allowlists i)
    (omap managed_entry (bi_managed_rows i))) d g = true ↔
  allow_list_rule i g d ∨ managed_rule i ActionAllow g d.
Proof.
  set (es := omap managed_entry (bi_managed_rows i)).
  destruct (build_allowlist_spec (bi_allowlists i) es) as (Hge & Hgw & Hw & He).
  destruct (allow_items_masks (bi_allowlists i) es) as [_ Hm].
  assert (Hman : managed_rule i ActionAllow g d ↔ ∃ e, e ∈ es ∧ me_action e = ActionAllow ∧
    me_group_id e = g ∧ name_covers (me_domain e) d).
  { unfold es. by rewrite (managed_entries_elem i ActionAllow (λ g' n, g' = g ∧ name_covers n d)). }
  unfold is_allowed_name, allow_list_rule.
  rewrite Hman, <-global_rows_cover, !orb_true_iff, Hge, Hgw, Hw, in_group_exacts, in_group_tries,
    trie_of_lookup, negb_true_iff, Z.eqb_neq, bits_below_nonzero, bool_decide_eq_true, He.
  - pose proof (group_items_cover (bi_allowlists i) es g d). tauto.
  - apply global_rules_nonzero.
  - eapply Forall_impl; [exact Hm|]. by intros ? [].
Qed.

End allow.
