(* ===== verification/BlockVerdict.v ===== *)
(** The verdict of the compiled index, in terms of the rows and texts. *)

From Stdlib Require Import String.
From S2P Require Import Prelude Text Errors Net Float64 CacheRecord CacheBloom SuffixTrie BlockIndex.
From S2P Require Import BlockList BlockRules BlockEnforce BlockAllow.

#[local] Set Default Proof Using "Type".

Section verdict.
Context `{Matchers, MembershipGate, IterOrder}.
(** ** The lists *)

Lemma land_nonzero a m : 0 ≤ m →
  Z.land a m ≠ 0 ↔ ∃ i, Z.testbit a i = true ∧ Z.testbit m i = true.
Proof.
  intros Hm. rewrite testbit_nonzero by (apply Z.land_nonneg; by right).
  setoid_rewrite Z.land_spec. by setoid_rewrite andb_true_iff.
Qed.

Lemma list_bits_None idx d mask :
  gated (bi_bloom idx, exact idx) →
  list_bits idx d mask ≠ None ↔
  Z.land (default 0 (exact idx !! d)) mask ≠ 0 ∨ Z.land (trie_lookup (wildcard idx) d) mask ≠ 0 ∨
  ∃ p, p ∈ patterns idx ∧ Z.land p.2 mask ≠ 0 ∧ ac_is_match p.1 d = true.
Proof.
  intros [_ Hg]. cbn [fst snd] in Hg. unfold list_bits, check_exact, check_wildcard_and_patterns.
  assert (Hp : check_patterns (patterns idx) d mask ≠ None ↔
    ∃ p, p ∈ patterns idx ∧ Z.land p.2 mask ≠ 0 ∧ ac_is_match p.1 d = true).
  { rewrite check_patterns_None, not_false_iff_true, existsb_exists. setoid_rewrite <-list_elem_of_In.
    setoid_rewrite andb_true_iff. setoid_rewrite negb_true_iff. by setoid_rewrite Z.eqb_neq. }
  rewrite <-Hp. clear Hp. set (w := Z.land (trie_lookup _ _) mask).
  assert (Hw : (if negb (w =? 0) then Some w else check_patterns (patterns idx) d mask) ≠ None ↔
    w ≠ 0 ∨ check_patterns (patterns idx) d mask ≠ None).
  { destruct (Z.eqb_spec w 0); simpl; intuition congruence. }
  destruct (exact idx !! d) as [bits|] eqn:E; cbn [from_option id].
  - rewrite (Hg _ _ E). destruct (Z.eqb_spec (Z.land bits mask) 0); simpl; [|intuition congruence].
    rewrite Hw. tauto.
  - assert (Hn : (if gate_check (bi_bloom idx) [HashStr d] then @None Z else None) = None)
      by (by destruct (gate_check _ _)).
    rewrite Hn, Hw, Z.land_0_l. tauto.
Qed.

Lemma pattern_spec (srcs : gmap nat (list ParsedEntry)) d mask : 0 ≤ mask →
  (∀ b es, srcs !! b = Some es → (b < 63)%nat) →
  (∃ p, p ∈ omap (λ s, patterns_of s.1 s.2) (walk srcs) ∧ Z.land p.2 mask ≠ 0 ∧ ac_is_match p.1 d = true) ↔
  ∃ b es, srcs !! b = Some es ∧ Z.testbit mask (Z.of_nat b) = true ∧ pattern_hits es d.
Proof.
  intros Hm Hb.
  assert (Hbit : ∀ b es, srcs !! b = Some es →
    Z.land (source_bit b) mask ≠ 0 ↔ Z.testbit mask (Z.of_nat b) = true).
  { intros b es Hl. specialize (Hb _ _ Hl). rewrite land_nonzero by done. split.
    - intros (i & Hi & Hmi). apply source_bit_bit in Hi as ->; [done|lia].
    - intros Hi. exists (Z.of_nat b). split; [apply source_bit_bit; lia|done]. }
  split.
  - intros ([ac m] & Hp & Hmask & Hac). apply list_elem_of_omap in Hp as ([b es] & Hin & Hp).
    apply elem_of_walk in Hin. unfold patterns_of in Hp. cbn [fst snd] in *.
    exists b, es. split; [done|]. destruct (omap pattern_text es) as [|x xs] eqn:Ex; [done|].
    destruct (ac_build (x :: xs)) as [ac'|] eqn:Eb; [|done]. simplify_eq. split; [by eapply Hbit|].
    exists ac. by rewrite Ex.
  - intros (b & es & Hl & Hi & ac & Hne & Hbuild & Hac). exists (ac, source_bit b).
    split_and!; [|by eapply Hbit|done]. apply list_elem_of_omap. exists (b, es).
    split; [by apply elem_of_walk|]. unfold patterns_of. cbn [fst snd].
    destruct (omap pattern_text es) as [|x xs]; [done|]. by rewrite Hbuild.
Qed.

Lemma advanced_none idx d g : index_ok idx → g ∉ groups_with_advanced_rules idx →
  any_rule (allow_regex_patterns idx !! g) d = false ∧ in_group_set (managed_denies idx) g d = false ∧
  in_group_trie (managed_deny_wildcards idx) g d = false ∧
  any_rule (block_regex_patterns idx !! g) d = false.
Proof.
  intros Hok Hg. destruct (group_without_rules idx g Hok Hg) as (E1 & E2 & E3 & E4).
  unfold in_group_set, in_group_trie. by rewrite E1, E2, E3, E4.
Qed.

(** The verdict by cases, whether or not the group has rules of its own. *)
Lemma evaluate_cases idx d g : index_ok idx →
  evaluate idx d g =
  if is_allowed_name (allowlists idx) d g || any_rule (allow_regex_patterns idx !! g) d then ManualAllow
  else if in_group_set (managed_denies idx) g d || in_group_trie (managed_deny_wildcards idx) g d
  then ManualDeny Source.ManagedDomain
  else if any_rule (block_regex_patterns idx !! g) d then ManualDeny Source.RegexFilter
  else match list_bits idx d (group_mask idx g) with
       | Some matched => classify_deny Source.Blocklist matched
       | None => NoMatch
       end.
Proof.
  intros Hok. rewrite evaluate_lists. destruct (is_allowed_name _ _ _); [done|].
  unfold evaluate_advanced. case_bool_decide as Hg; cbn [negb orb].
  - destruct (any_rule _ _); [done|]. destruct (in_group_set _ _ _); [done|].
    destruct (in_group_trie _ _ _); [done|]. by destruct (any_rule _ _).
  - destruct (advanced_none idx d g Hok Hg) as (-> & -> & -> & ->). done.
Qed.

(** The rules of every kind that deny a name, as reported. *)
Lemma collect_block_nil idx d g : index_ok idx →
  collect_block_matches idx d g = [] ↔
  in_group_set (managed_denies idx) g d = false ∧ in_group_trie (managed_deny_wildcards idx) g d = false ∧
  any_rule (block_regex_patterns idx !! g) d = false ∧ list_bits idx d (group_mask idx g) = None.
Proof.
  intros Hok. pose proof (collect_list_matches_nil idx d g Hok) as Hl. rewrite !app_nil in Hl.
  unfold collect_block_matches. rewrite !app_nil, !if_singleton_nil, fmap_nil, matching_rules_nil.
  rewrite <-Hl. tauto.
Qed.

Context (to_lowercase : str → str) (bloom_of : Z → gate).

Abbreviation entries_of i := (parse_list_text to_lowercase <$> bi_source_texts i).
Abbreviation manual_of i := (to_ascii_lowercase <$> bi_manual_rows i).
Abbreviation allow_list_rule := (allow_list_rule to_lowercase).
Abbreviation list_block := (list_block to_lowercase).
Abbreviation input_ok := (input_ok bloom_of).

Lemma entries_lookup i b es : entries_of i !! b = Some es ↔
  ∃ text, bi_source_texts i !! b = Some text ∧ es = parse_list_text to_lowercase text.
Proof.
  rewrite lookup_fmap. split.
  - intros E. apply fmap_Some in E as (t & Ht & ->). by exists t.
  - intros (t & -> & ->). done.
Qed.

Lemma lists_spec i d g : input_ok i →
  let x := build_exact_and_wildcard bloom_of (manual_of i) (entries_of i) in
  let mask := default MANUAL_SOURCE_BIT (build_group_masks (bi_sources i) (bi_all_group_ids i) !! g) in
  Z.land (default 0 (bd_exact x !! d)) mask ≠ 0 ∨ Z.land (trie_lookup (bd_wildcard x) d) mask ≠ 0 ∨
  (∃ p, p ∈ bd_patterns x ∧ Z.land p.2 mask ≠ 0 ∧ ac_is_match p.1 d = true) ↔
  manual_block i d ∨ list_block i g d.
Proof.
  intros [Hs Ht Hok] x mask.
  destruct (build_exact_spec bloom_of (manual_of i) (entries_of i) Hok) as (_ & Hex & _ & Hw & Hp & _).
  fold x in Hex, Hw, Hp.
  assert (Hb : ∀ b es, entries_of i !! b = Some es → (b < 63)%nat).
  { intros b es E. apply entries_lookup in E as (t & E & _). by eapply Ht. }
  destruct (group_masks_u64 (bi_sources i) (bi_all_group_ids i) g Hs) as [Hm _]. fold mask in Hm.
  pose proof (λ j, group_masks_bit (bi_sources i) (bi_all_group_ids i) g j Hs) as Hbit. fold mask in Hbit.
  rewrite Hp, pattern_spec by done. rewrite !land_nonzero by done. rewrite Hw.
  setoid_rewrite Hex. setoid_rewrite (holds_rules_lookup_bit _ _ d _ (trie_of_holds _)).
  pose proof (λ j, list_items_bit (manual_of i) (entries_of i) d j Hb) as Hitems.
  assert (Hnat : ∀ b, (b < 63)%nat → Z.testbit mask (Z.of_nat b) = true ↔ mkMeta g b ∈ bi_sources i).
  { intros b Hb63. rewrite Hbit. split; [intros [?|(b' & ? & ?)]; [lia|]|by right; exists b].
    by assert (b = b') as -> by lia. }
  split.
  - intros [(j & Hj & Hmj)|[(j & Hj & Hmj)|(b & es & Hl & Hmj & Hac)]].
    3: { right. pose proof (Hb _ _ Hl). apply entries_lookup in Hl as (t & Hl & ->).
         exists b, t. split_and!; [done|by apply Hnat|by right]. }
    all: assert (Hh := proj1 (Hitems j) ltac:(tauto)); destruct Hh as [(-> & n & Hn & Hc)|(b & es & Hl & -> & He)];
      [left; apply list_elem_of_fmap in Hn as (row & -> & Hr); by exists row|right];
      pose proof (Hb _ _ Hl); apply entries_lookup in Hl as (t & Hl & ->);
      exists b, t; split_and!; [done|by apply Hnat|by left].
  - intros [(row & Hr & Hc)|(b & t & Hl & Hg & [He|Hac])].
    + destruct (proj2 (Hitems 63)) as [Hh|Hh];
        [left; split; [done|]; exists (to_ascii_lowercase row); split; [|done]; apply list_elem_of_fmap; by exists row
        |left|right; left]; exists 63; (split; [done|]); apply Hbit; by left.
    + destruct (proj2 (Hitems (Z.of_nat b))) as [Hh|Hh];
        [right; exists b, (parse_list_text to_lowercase t); split_and!; [apply entries_lookup; by exists t|done|done]
        |left|right; left]; exists (Z.of_nat b); (split; [done|]); apply Hbit; right; by exists b.
    + right; right. exists b, (parse_list_text to_lowercase t).
      split_and!; [apply entries_lookup; by exists t|apply Hbit; right; by exists b|done].
Qed.

(** ** The managed rules *)

Lemma empty_group_set g d : in_group_set ∅ g d = false.
Proof. unfold in_group_set. by rewrite lookup_empty. Qed.

Lemma managed_deny_spec i g d :
  let acc := foldl add_managed_deny (∅, ∅) (omap managed_entry (bi_managed_rows i)) in
  in_group_set acc.1 g d = true ∨ in_group_trie acc.2 g d = true ↔ managed_rule i ActionDeny g d.
Proof.
  set (es := omap managed_entry (bi_managed_rows i)). cbv zeta.
  assert (Hman : managed_rule i ActionDeny g d ↔ ∃ e, e ∈ es ∧ me_action e = ActionDeny ∧
    me_group_id e = g ∧ name_covers (me_domain e) d).
  { unfold es. by rewrite (managed_entries_elem i ActionDeny (λ g' n, g' = g ∧ name_covers n d)). }
  rewrite Hman, managed_denies_spec, managed_deny_wildcards_spec. cbn [fst snd].
  rewrite empty_group_set. fold (group_tries (deny_rules es)). rewrite in_group_tries.
  - unfold name_covers, deny_rules. split.
    + intros [[?|(e & He & Ha & Hg & Hf & <-)]|(r & Hr & Hb)]; [done|exists e; by rewrite Hf|].
      apply list_elem_of_bind in Hr as (e & Hr & He). exists e. split; [done|].
      case_decide as Hd; [|by apply not_elem_of_nil in Hr]. destruct Hd as [Ha Hf].
      apply list_elem_of_singleton in Hr. simplify_eq. by rewrite Hf.
    + intros (e & He & Ha & Hg & Hc). destruct (is_suffix_name (me_domain e)) eqn:Ef.
      * right. exists (me_domain e, 1). split; [|done]. apply list_elem_of_bind. exists e.
        rewrite decide_True by done. subst g. split; [by left|done].
      * left. right. by exists e.
  - apply Forall_forall. intros x Hx. apply list_elem_of_bind in Hx as (e & Hx & _).
    case_decide; [by apply list_elem_of_singleton in Hx as ->|by apply not_elem_of_nil in Hx].
Qed.

Lemma build_index_ok i : input_ok i → index_ok (build_index to_lowercase bloom_of i).
Proof.
  intros Hi. unfold build_index.
  destruct (build_regex_filters (bi_regex_rows i)) as [block allow].
  destruct (foldl add_managed_deny _ _) as [ds ws].
  destruct (build_exact_spec bloom_of (manual_of i) (entries_of i) (in_bloom _ _ Hi)) as ([_ Hg] & _).
  destruct (build_allowlist_spec to_lowercase (bi_allowlists i) (omap managed_entry (bi_managed_rows i)))
    as (Hge & Hgw & _ & _).
  destruct (allow_items_masks to_lowercase (bi_allowlists i) (omap managed_entry (bi_managed_rows i))) as [Hm1 Hm2].
  constructor; cbn [allow_regex_patterns managed_denies managed_deny_wildcards block_regex_patterns
    groups_with_advanced_rules exact bi_bloom allowlists group_masks].
  - intros g Hs. unfold groups_of. rewrite !elem_of_union, !elem_of_dom. tauto.
  - exact Hg.
  - intros g. apply group_masks_u64, Hi.
  - rewrite Hge. by apply group_exacts_bits.
  - intros g t d Ht. rewrite Hgw in Ht. eapply group_tries_u64; [|exact Ht].
    eapply Forall_impl; [exact Hm2|]. by intros ? [].
Qed.

(** The tests of a compiled index are its rules. *)
Lemma build_index_tests i d g : input_ok i →
  let idx := build_index to_lowercase bloom_of i in
  (is_allowed_name (allowlists idx) d g = true ↔ allow_list_rule i g d ∨ managed_rule i ActionAllow g d) ∧
  (any_rule (allow_regex_patterns idx !! g) d = true ↔ regex_rule i ActionAllow g d) ∧
  (in_group_set (managed_denies idx) g d = true ∨ in_group_trie (managed_deny_wildcards idx) g d = true
     ↔ managed_rule i ActionDeny g d) ∧
  (any_rule (block_regex_patterns idx !! g) d = true ↔ regex_rule i ActionDeny g d) ∧
  (list_bits idx d (group_mask idx g) ≠ None ↔ manual_block i d ∨ list_block i g d).
Proof.
  intros Hi idx. pose proof (allowed_spec to_lowercase i g d) as Hal. pose proof (managed_deny_spec i g d) as Hmd.
  pose proof (regex_filters_spec (bi_regex_rows i) (∅, ∅) g d) as Hre.
  destruct (build_exact_spec bloom_of (manual_of i) (entries_of i) (in_bloom _ _ Hi)) as (Hgated & _).
  pose proof (lists_spec i d g Hi) as Hls. pose proof (list_bits_None idx d (group_mask idx g)) as Hlb.
  revert Hlb. unfold idx, build_index, build_regex_filters.
  destruct (foldl add_regex (∅, ∅) (bi_regex_rows i)) as [block allow].
  destruct (foldl add_managed_deny (∅, ∅) _) as [ds ws]. intros Hlb. specialize (Hlb Hgated).
  split; [exact Hal|]. destruct Hre as [Hrb Hra]. cbn [fst snd] in Hrb, Hra.
  rewrite lookup_empty in Hrb, Hra. cbn [any_rule] in Hrb, Hra.
  split; [etrans; [exact Hra|]; split; [by intros [?|?]|by right]|].
  split; [exact Hmd|]. split; [etrans; [exact Hrb|]; split; [by intros [?|?]|by right]|].
  etrans; [exact Hlb|exact Hls].
Qed.

End verdict.

(** ** The compiled index enforces its input

    A name is allowed exactly by an allowlist row or line, a managed allow or an
    allow regex of its group; otherwise it is denied exactly by a managed deny, a
    deny regex, the manual blocklist, or a line or pattern of a list the group
    subscribes to, and a managed deny or a deny regex denies by hand. *)
Lemma index_enforces_rules `{Matchers, MembershipGate, IterOrder} (to_lowercase : str → str)
    (bloom_of : Z → gate) (i : BuildInput) (d : str) (g : Z) :
  input_ok bloom_of i →
  let verdict := evaluate (build_index to_lowercase bloom_of i) d g in
  (verdict = ManualAllow ↔ allow_rule to_lowercase i g d) ∧
  (denies verdict = true ↔ ¬ allow_rule to_lowercase i g d ∧ block_rule to_lowercase i g d) ∧
  (managed_rule i ActionDeny g d ∨ regex_rule i ActionDeny g d → ¬ allow_rule to_lowercase i g d →
     ∃ source, verdict = ManualDeny source).
Proof.
  intros Hi verdict. unfold verdict.
  rewrite (evaluate_cases _ d g (build_index_ok to_lowercase bloom_of i Hi)).
  destruct (build_index_tests to_lowercase bloom_of i d g Hi) as (H1' & H2' & H3' & H4' & H5').
  set (idx := build_index to_lowercase bloom_of i) in *.
  assert (Ha : allow_rule to_lowercase i g d ↔ is_allowed_name (allowlists idx) d g = true ∨
    any_rule (allow_regex_patterns idx !! g) d = true) by (unfold allow_rule; tauto).
  assert (Hb : block_rule to_lowercase i g d ↔ in_group_set (managed_denies idx) g d = true ∨
    in_group_trie (managed_deny_wildcards idx) g d = true ∨
    any_rule (block_regex_patterns idx !! g) d = true ∨ list_bits idx d (group_mask idx g) ≠ None)
    by (unfold block_rule; tauto).
  rewrite Ha, Hb, <-H3', <-H4'. clear H1' H2' H3' H4' H5' Ha Hb. clearbody idx.
  destruct (is_allowed_name _ _ _); [simpl; intuition congruence|].
  destruct (any_rule (allow_regex_patterns _ !! _) _); [simpl; intuition congruence|].
  destruct (in_group_set _ _ _); [simpl; intuition eauto; congruence|].
  destruct (in_group_trie _ _ _); [simpl; intuition eauto; congruence|].
  destruct (any_rule (block_regex_patterns _ !! _) _); [simpl; intuition eauto; congruence|].
  cbn [orb]. destruct (list_bits _ _ _) as [bits|].
  - pose proof (classify_not_allow Source.Blocklist bits). rewrite denies_classify. intuition congruence.
  - simpl. intuition congruence.
Qed.

(** ** Properties *)

(** The explanation of a name and its classification agree: the name is
    reported blocked exactly when the filter denies or blocks it, and a reason
    to allow it is reported exactly when the filter allows it by hand; and each
    bit of a hit is attributed once, to the source that owns it. *)
Theorem explain_agrees `{Matchers, MembershipGate} (idx : BlockIndex) (d : str) (g : Z) :
  index_ok idx →
  let e := explain idx d g in
  (blocked e = true ↔
     ∃ s, evaluate idx d g = ManualDeny s ∨ evaluate idx d g = Block s) ∧
  (allow_reasons e ≠ [] ↔ evaluate idx d g = ManualAllow) ∧
  (∀ bits mt, is_u64 bits →
     collect_bit_matches idx bits mt =
     block_match_of_bit idx mt <$> List.filter (λ i, Z.testbit bits (Z.of_nat i)) (seq 0 64)).
Proof.
  intros Hok e.
  assert (Hattr : ∀ bits mt, is_u64 bits → collect_bit_matches idx bits mt =
    block_match_of_bit idx mt <$> List.filter (λ i, Z.testbit bits (Z.of_nat i)) (seq 0 64)).
  { intros bits mt Hb. unfold collect_bit_matches. by rewrite bit_indices_all. }
  assert (Ha : allow_reasons e = [] ↔ is_allowed_name (allowlists idx) d g = false ∧
    any_rule (allow_regex_patterns idx !! g) d = false) by exact (collect_allow_nil idx d g Hok).
  pose proof (collect_block_nil idx d g Hok) as Hm. change (collect_block_matches idx d g) with (block_matches e) in Hm.
  assert (Hb : blocked e = true ↔ allow_reasons e = [] ∧ block_matches e ≠ []).
  { unfold e, explain. cbn [blocked allow_reasons block_matches].
    rewrite andb_true_iff, negb_true_iff, bool_decide_eq_true, bool_decide_eq_false.
    by rewrite !length_zero_iff_nil. }
  match goal with |- ?A ∧ ?B ∧ _ => cut (A ∧ B); [by intros [? ?]|] end.
  rewrite Hb, Ha, Hm, denies_spec, (evaluate_cases idx d g Hok). clear Hattr Hb Ha Hm. clearbody e.
  destruct (is_allowed_name _ _ _); [simpl; intuition congruence|].
  destruct (any_rule (allow_regex_patterns _ !! _) _); [simpl; intuition congruence|].
  destruct (in_group_set _ _ _); [simpl; intuition congruence|].
  destruct (in_group_trie _ _ _); [simpl; intuition congruence|].
  destruct (any_rule (block_regex_patterns _ !! _) _); [simpl; intuition congruence|].
  cbn [orb]. destruct (list_bits _ _ _) as [bits|]; [|simpl; intuition congruence].
  pose proof (classify_not_allow Source.Blocklist bits). rewrite denies_classify. intuition congruence.
Qed.

(** ** Witnesses

    A list with a comment, a hosts line, a blocked domain and a pattern, to
    which group 1 subscribes; a manual wildcard, a managed allow of group 1
    and a deny regex of group 2. *)

Definition demo_text : str :=
  join [10] [of_string "# ads"; of_string "0.0.0.0 ads.evil.example"; of_string "||track.example^";
             of_string "/banner/"].
Definition demo_input : BuildInput := {|
  bi_sources := [mkMeta 1 0]; bi_all_group_ids := [1; 2];
  bi_bit_to_source := [Some (mkSource 10 (of_string "ads"))];
  bi_source_texts := {[0%nat := demo_text]};
  bi_manual_rows := [of_string "*.Evil.example"];
  bi_managed_rows := [mkManagedRow (of_string "ok.track.example") (of_string "allow") 1];
  bi_regex_rows := [mkRegexRow 7 (of_string "bets") (of_string "casino") (of_string "deny") 2];
  bi_allowlists := mkAllowLoad [] [] [] |}.

Definition demo_index : @BlockIndex demo_matchers demo_gate :=
  @build_index demo_matchers demo_gate map_to_list_order to_ascii_lowercase (λ _, demo_bloom) demo_input.

Lemma demo_input_ok : @input_ok demo_gate (λ _, demo_bloom) demo_input.
Proof.
  constructor.
  - intros s Hs. apply list_elem_of_singleton in Hs as ->. simpl. lia.
  - intros b t Hb. cbn [bi_source_texts demo_input] in Hb. apply lookup_singleton_Some in Hb as [<- _]. lia.
  - intros n. apply demo_bloom_ok.
Qed.

Lemma explain_agrees_witness :
  let M := demo_matchers in let G := demo_gate in
  let e := explain demo_index (of_string "ads.evil.example") 1 in
  block_matches e =
    [mkBlockMatch BmBlocklist (Some 10) (of_string "ads") MtExact;
     mkBlockMatch BmManual None (of_string "Manual blocklist") MtWildcard] ∧
  (blocked e = true ↔ ∃ s, evaluate demo_index (of_string "ads.evil.example") 1 = ManualDeny s
     ∨ evaluate demo_index (of_string "ads.evil.example") 1 = Block s).
Proof.
  intros M G e. split; [vm_compute; reflexivity|].
  destruct (@explain_agrees M G demo_index (of_string "ads.evil.example") 1
    (@build_index_ok M G map_to_list_order to_ascii_lowercase (λ _, demo_bloom) demo_input demo_input_ok))
    as (Hb & _). exact Hb.
Defined.
