(* ===== verification/BlockBuild.v ===== *)
(** What a build works from: the queries' rows, the lists in force, and the
    rules of the database that the compiled index enforces. *)

From Stdlib Require Import String.
From S2P Require Import Prelude Text Errors Net Float64 CacheRecord CacheBloom SuffixTrie BlockIndex.
From S2P Require Import BlockList BlockRules BlockEnforce BlockAllow BlockVerdict.

#[local] Set Default Proof Using "Type".

(** ** Lists in force *)

(** The text of a list after a build: a held copy where copies are reused or
    the download fails, what was downloaded otherwise. *)
Definition list_in_force (held : HeldLists) (fetch : ListFetch) (download : str → option str) (url : str)
    : option str :=
  match fetch, held !! url with
  | ReuseHeld, Some text => Some text
  | _, old => match download url with Some text => Some text | None => old end
  end.

Section lists.
Context (held : HeldLists) (fetch : ListFetch) (download : str → option str).
Abbreviation in_force := (list_in_force held fetch download).

Lemma to_download_reuse url : to_download held fetch url = false →
  ∃ text, held !! url = Some text ∧ in_force url = Some text.
Proof.
  unfold to_download, list_in_force. destruct (held !! url) as [text|]; [|done].
  rewrite negb_false_iff, bool_decide_eq_true. intros ->. by exists text.
Qed.

Lemma to_download_force url : to_download held fetch url = true →
  in_force url = match download url with Some text => Some text | None => held !! url end.
Proof.
  unfold to_download, list_in_force. destruct (held !! url) as [text|]; [|by destruct fetch].
  rewrite negb_true_iff, bool_decide_eq_false. by destruct fetch.
Qed.

Lemma reuse_lists_lookup urls next url :
  foldl (reuse_list held fetch) next urls !! url =
  if decide (url ∈ urls ∧ to_download held fetch url = false) then in_force url else next !! url.
Proof.
  revert next. induction urls as [|u urls IH]; intros next; cbn [foldl].
  { rewrite decide_False; [done|]. intros [Hu _]. by apply not_elem_of_nil in Hu. }
  rewrite IH. unfold reuse_list. destruct (decide (url ∈ urls ∧ _)) as [Hd|Hd].
  { rewrite decide_True; [done|]. destruct Hd. split; [by right|done]. }
  destruct (to_download held fetch u) eqn:Eu.
  - rewrite decide_False; [done|]. intros [[->|?]%elem_of_cons ?]; [congruence|tauto].
  - destruct (to_download_reuse u Eu) as (text & Hh & Hf). rewrite Hh.
    destruct (decide (url = u)) as [->|Hne].
    + rewrite lookup_insert_eq, decide_True; [done|]. split; [by left|done].
    + rewrite lookup_insert_ne by done. rewrite decide_False; [done|].
      intros [[->|?]%elem_of_cons ?]; [done|tauto].
Qed.

Lemma fetched_lists_lookup urls acc url : (∀ u, u ∈ urls → to_download held fetch u = true) →
  (foldl (fetched download held) acc urls).1 !! url =
  if decide (url ∈ urls) then match in_force url with Some text => Some text | None => acc.1 !! url end
  else acc.1 !! url.
Proof.
  revert acc. induction urls as [|u urls IH]; intros acc Hu; cbn [foldl].
  { by rewrite decide_False by apply not_elem_of_nil. }
  rewrite IH by (intros; apply Hu; by right). clear IH.
  assert (Hstep : (fetched download held acc u).1 !! url =
    if decide (url = u) then match in_force url with Some text => Some text | None => acc.1 !! url end
    else acc.1 !! url).
  { unfold fetched. destruct acc as [next outcomes]. cbn [fst].
    pose proof (to_download_force u (Hu u (list_elem_of_here _ _))) as Hf.
    destruct (download u) as [text|] eqn:Ed; [|destruct (held !! u) as [text|] eqn:Eh]; cbn [fst];
      destruct (decide (url = u)) as [->|Hne];
      rewrite ?lookup_insert_eq, ?lookup_insert_ne, ?Hf by done; done. }
  rewrite Hstep. destruct (decide (url ∈ urls)) as [Hin|Hin].
  - rewrite (decide_True (P := url ∈ u :: urls)) by (by right). destruct (in_force url); [done|]. by case_decide.
  - destruct (decide (url = u)) as [->|Hne].
    + by rewrite decide_True by (by left).
    + rewrite decide_False; [done|]. by rewrite not_elem_of_cons.
Qed.

Lemma fetch_lists_lookup urls next url :
  (fetch_lists urls download held fetch next).1 !! url =
  if decide (url ∈ urls) then match in_force url with Some text => Some text | None => next !! url end
  else next !! url.
Proof.
  unfold fetch_lists. rewrite fetched_lists_lookup by (intros u; rewrite elem_of_filter_bool; tauto).
  cbn [fst]. rewrite reuse_lists_lookup.
  assert (Hfil : url ∈ List.filter (to_download held fetch) urls ↔ url ∈ urls ∧ to_download held fetch url = true)
    by apply elem_of_filter_bool.
  destruct (decide (url ∈ urls)) as [Hin|Hin].
  - destruct (to_download held fetch url) eqn:Et.
    + rewrite (decide_True (P := url ∈ List.filter _ _)) by tauto.
      by rewrite (decide_False (P := url ∈ urls ∧ true = false)) by (intros [_ ?]; done).
    + rewrite (decide_False (P := url ∈ List.filter _ _)) by (rewrite Hfil; intros [_ ?]; done).
      rewrite decide_True by done. destruct (to_download_reuse url Et) as (text & _ & ->). done.
  - rewrite (decide_False (P := url ∈ List.filter _ _)) by tauto. by rewrite decide_False by tauto.
Qed.
End lists.

(** ** Rows *)

Definition rows_of {A} (q : string + list A) : list A := match q with inr rows => rows | inl _ => [] end.

(** The message of the first query that fails, in the order of the build. *)
Definition failure {A} (q : string + list A) : option string :=
  match q with inl e => Some e | inr _ => None end.
Definition first_failure (db : Database) : option string :=
  head (omap id [failure (db_blocklist_sources db); failure (db_source_groups db); failure (db_groups db);
    failure (db_blocklist db); failure (db_managed db); failure (db_regex db); failure (db_whitelist db);
    failure (db_whitelist_sources db)]).

(** The sources that have a bit. *)
Definition used_rows (db : Database) : list SourceRow := take 63 (rows_of (db_blocklist_sources db)).

Lemma id_to_bit_lookup rows id b : NoDup (sr_id <$> rows) →
  foldl (λ m x, <[sr_id x.2 := x.1]> m) (∅ : gmap Z nat) (imap pair rows) !! id = Some b ↔
  ∃ row, rows !! b = Some row ∧ sr_id row = id.
Proof.
  induction rows as [|row rows IH] using rev_ind; intros Hnd.
  { cbn [imap foldl]. rewrite lookup_empty. split; [done|]. by intros (? & ? & _). }
  rewrite fmap_app in Hnd. apply NoDup_app in Hnd as (Hnd & Hdis & _). specialize (IH Hnd).
  rewrite imap_app, foldl_app. cbn [imap foldl fst snd]. rewrite Nat.add_0_r.
  destruct (decide (sr_id row = id)) as [<-|Hne].
  - rewrite lookup_insert_eq. split.
    + intros [= <-]. exists row. split; [|done]. by apply list_lookup_middle.
    + intros (row' & Hr & Hid). apply lookup_app_Some in Hr as [Hr|[Hge Hr]].
      * exfalso. apply (Hdis (sr_id row')); [|rewrite Hid; by left].
        apply list_elem_of_fmap. exists row'. split; [done|by eapply list_elem_of_lookup_2].
      * apply list_lookup_singleton_Some in Hr as [Hr _]. f_equal. lia.
  - rewrite lookup_insert_ne, IH by done. split.
    + intros (row' & Hr & Hid). exists row'. split; [by apply lookup_app_l_Some|done].
    + intros (row' & Hr & Hid). exists row'. split; [|done]. apply lookup_app_Some in Hr as [Hr|[_ Hr]]; [done|].
      apply list_lookup_singleton_Some in Hr as [_ ->]. done.
Qed.

Definition url_tasks_of (rows : list SourceRow) : list (nat * str) :=
  omap (λ x : nat * SourceRow, pair x.1 <$> sr_url x.2) (imap pair rows).

Lemma elem_of_url_tasks rows b url : (b, url) ∈ url_tasks_of rows ↔
  ∃ row, rows !! b = Some row ∧ sr_url row = Some url.
Proof.
  unfold url_tasks_of. rewrite list_elem_of_omap. split.
  - intros ([i row] & Hin & E). apply elem_of_lookup_imap_1 in Hin as (j & r & [= <- <-] & Hr).
    cbn [fst snd] in E. apply fmap_Some in E as (u & Eu & [= -> ->]). by exists row.
  - intros (row & Hr & Eu). exists (b, row). split; [|cbn [fst snd]; by rewrite Eu].
    by apply (elem_of_lookup_imap_2 pair rows row b).
Qed.

Lemma url_tasks_nodup rows : NoDup (url_tasks_of rows).*1.
Proof.
  unfold url_tasks_of. induction rows as [|row rows IH] using rev_ind; [constructor|].
  rewrite imap_app, omap_app, fmap_app. apply NoDup_app. split; [done|]. split.
  - intros b Hb. apply list_elem_of_fmap in Hb as ([b' url] & -> & Hb). apply elem_of_url_tasks in Hb as (r & Hr & _).
    apply lookup_lt_Some in Hr. cbn [imap omap list_omap fst snd]. destruct (sr_url row); cbn [fmap option_fmap option_map].
    + intros Hx. apply list_elem_of_singleton in Hx. cbn [fst] in *. lia.
    + apply not_elem_of_nil.
  - cbn [imap omap list_omap fst snd]. destruct (sr_url row); cbn [fmap option_fmap option_map list_fmap];
      [apply NoDup_singleton|constructor].
Qed.

Definition texts_of (next : HeldLists) (tasks : list (nat * str)) : gmap nat str := foldl (λ m task,
  match next !! task.2 with Some text => <[task.1 := text]> m | None => m end) ∅ tasks.

Lemma texts_of_lookup next tasks b text : NoDup tasks.*1 →
  texts_of next tasks !! b = Some text ↔ ∃ url, (b, url) ∈ tasks ∧ next !! url = Some text.
Proof.
  unfold texts_of. induction tasks as [|[b' url'] tasks IH] using rev_ind; intros Hnd.
  { cbn [foldl]. rewrite lookup_empty. split; [done|]. intros (? & Hin & _). by apply not_elem_of_nil in Hin. }
  rewrite fmap_app in Hnd. apply NoDup_app in Hnd as (Hnd & Hdis & _). specialize (IH Hnd).
  rewrite foldl_app. cbn [foldl fst snd]. setoid_rewrite elem_of_app. setoid_rewrite list_elem_of_singleton.
  destruct (decide (b' = b)) as [->|Hne].
  - assert (Hno : ∀ url, (b, url) ∉ tasks).
    { intros url Hin. apply (Hdis b); [|by left]. apply list_elem_of_fmap. by exists (b, url). }
    destruct (next !! url') as [t|] eqn:En.
    + rewrite lookup_insert_eq. split.
      * intros [= ->]. exists url'. split; [by right|done].
      * intros (url & [Hin|[= ->]] & Hx); [by destruct (Hno url)|congruence].
    + rewrite IH. split.
      * intros (url & Hin & _). by destruct (Hno url).
      * intros (url & [Hin|[= ->]] & Hx); [by destruct (Hno url)|congruence].
  - set (m := foldl _ _ tasks) in *.
    assert (Hstep : ∀ t, <[b' := t]> m !! b = m !! b) by (intros t; by apply lookup_insert_ne).
    assert (Hiff : (∃ url, ((b, url) ∈ tasks ∨ (b, url) = (b', url')) ∧ next !! url = Some text) ↔
      ∃ url, (b, url) ∈ tasks ∧ next !! url = Some text).
    { split; [intros (url & [Hin|[= -> _]] & Hx); [by exists url|done]|].
      intros (url & Hin & Hx). exists url. split; [by left|done]. }
    destruct (next !! url'); by rewrite ?Hstep, IH.
Qed.

(** ** Allowlist sources *)

Lemma allow_urls_spec rows url sid g :
  (sid, g) ∈ default [] (allow_urls rows !! url) ↔
  ∃ row, row ∈ rows ∧ ar_url row = url ∧ ar_source_id row = sid ∧ ar_group_id row = g.
Proof.
  unfold allow_urls. induction rows as [|row rows IH] using rev_ind.
  { cbn [foldl]. rewrite lookup_empty, exists_elem_nil. cbn [from_option id]. split; [apply not_elem_of_nil|done]. }
  rewrite foldl_app. cbn [foldl]. rewrite exists_elem_app, exists_elem_cons, exists_elem_nil.
  destruct (decide (ar_url row = url)) as [<-|Hne].
  - rewrite lookup_insert_eq. cbn [from_option id]. rewrite elem_of_app, IH, list_elem_of_singleton.
    split; [intros [?|[= -> ->]]; [by left|right; by left]|]. intros [?|[(_ & <- & <-)|[]]]; [by left|by right].
  - rewrite lookup_insert_ne, IH by done. split; [by left|]. intros [?|[(? & _)|[]]]; done.
Qed.

Lemma allow_urls_dom rows url : is_Some (allow_urls rows !! url) ↔ ∃ row, row ∈ rows ∧ ar_url row = url.
Proof.
  unfold allow_urls. induction rows as [|row rows IH] using rev_ind.
  { cbn [foldl]. rewrite lookup_empty, exists_elem_nil. split; [by intros [? ?]|done]. }
  rewrite foldl_app. cbn [foldl]. rewrite exists_elem_app, exists_elem_cons, exists_elem_nil.
  destruct (decide (ar_url row = url)) as [<-|Hne].
  - rewrite lookup_insert_eq. split; [right; by left|by eexists].
  - rewrite lookup_insert_ne, IH by done. split; [by left|]. intros [?|[?|[]]]; done.
Qed.

(** A line of an allowlist some source of the group uses. *)
Lemma allow_texts_spec `{IterOrder} rows next (P : Z → str → Prop) :
  (∃ source, source ∈ allow_texts (allow_urls rows) next ∧ ∃ g, g ∈ source.1.*2 ∧ P g source.2) ↔
  ∃ row, row ∈ rows ∧ ∃ text, next !! ar_url row = Some text ∧ P (ar_group_id row) text.
Proof.
  split.
  - intros ([l text] & Hs & g & Hg & HP). cbn [fst snd] in *. unfold allow_texts in Hs.
    apply list_elem_of_omap in Hs as ([url l'] & Hin & E). apply elem_of_walk in Hin. cbn [fst snd] in E.
    destruct (next !! url) as [t|] eqn:En; [|done]. injection E as -> ->.
    apply list_elem_of_fmap in Hg as ([sid g'] & -> & Hig). cbn [snd] in *.
    assert (Hd : (sid, g') ∈ default [] (allow_urls rows !! url)) by (by rewrite Hin).
    apply allow_urls_spec in Hd as (row & Hr & <- & _ & <-). exists row. split; [done|by exists text].
  - intros (row & Hr & text & En & HP).
    assert (Hd : (ar_source_id row, ar_group_id row) ∈ default [] (allow_urls rows !! ar_url row))
      by (apply allow_urls_spec; by exists row).
    destruct (proj2 (allow_urls_dom rows (ar_url row)) (ex_intro _ row (conj Hr eq_refl))) as [l El].
    rewrite El in Hd. cbn [from_option id] in Hd. exists (l, text). split.
    + unfold allow_texts. apply list_elem_of_omap. exists (ar_url row, l). rewrite elem_of_walk.
      split; [done|]. cbn [fst snd]. by rewrite En.
    + exists (ar_group_id row). split; [|done]. apply list_elem_of_fmap. by exists (ar_source_id row, ar_group_id row).
Qed.

(** ** The rules of the database *)

Section build.
Context `{Matchers, MembershipGate, IterOrder}.
Context (to_lowercase : str → str) (bloom_of : Z → gate).
Context (db : Database) (in_force : str → option str).

(** The rows of managed domains and of regex filters, as the rules read them. *)
Definition managed_row (action : DomainAction) (g : Z) (d : str) : Prop :=
  ∃ row, row ∈ rows_of (db_managed db) ∧ action_from_str (mr_action row) = Some action ∧
    mr_group_id row = g ∧ name_covers (to_ascii_lowercase (mr_domain row)) d.
Definition regex_row (action : DomainAction) (g : Z) (d : str) : Prop :=
  ∃ row, row ∈ rows_of (db_regex db) ∧ action_from_str (rx_action row) = Some action ∧
    rx_group_id row = g ∧ ∃ rule, compile_regex row = Some rule ∧ rule_matches d rule = true.

(** A line of a list's text. *)
Definition line_covers (text d : str) : Prop :=
  ∃ e, e ∈ parse_list_text to_lowercase text ∧ entry_covers e d.

Definition db_allows (g : Z) (d : str) : Prop :=
  (∃ row, row ∈ rows_of (db_whitelist db) ∧ name_covers (to_ascii_lowercase row) d) ∨
  (∃ row, row ∈ rows_of (db_whitelist_sources db) ∧ ∃ text, in_force (ar_url row) = Some text ∧
     ar_group_id row = g ∧ line_covers text d) ∨
  managed_row ActionAllow g d ∨ regex_row ActionAllow g d.

Definition db_denies (g : Z) (d : str) : Prop :=
  managed_row ActionDeny g d ∨ regex_row ActionDeny g d ∨
  (∃ row, row ∈ rows_of (db_blocklist db) ∧ name_covers (to_ascii_lowercase row) d) ∨
  (∃ row url text, row ∈ used_rows db ∧ sr_url row = Some url ∧ in_force url = Some text ∧
     (sr_id row, g) ∈ rows_of (db_source_groups db) ∧
     (line_covers text d ∨ pattern_hits (parse_list_text to_lowercase text) d)).

(** ** The input of a build *)

Definition build_input (next next' : HeldLists) (bits : list (option SourceDescriptor)) : BuildInput := {|
  bi_sources := omap (λ a : Z * Z, mkMeta a.2 <$>
    foldl (λ m x, <[sr_id x.2 := x.1]> m) (∅ : gmap Z nat) (imap pair (used_rows db)) !! a.1)
    (rows_of (db_source_groups db));
  bi_all_group_ids := rows_of (db_groups db);
  bi_bit_to_source := bits;
  bi_source_texts := texts_of next (url_tasks_of (used_rows db));
  bi_manual_rows := rows_of (db_blocklist db);
  bi_managed_rows := rows_of (db_managed db);
  bi_regex_rows := rows_of (db_regex db);
  bi_allowlists := mkAllowLoad (rows_of (db_whitelist db))
    (allow_texts (allow_urls (rows_of (db_whitelist_sources db))) next')
    (walk (allow_names (rows_of (db_whitelist_sources db)))) |}.

Lemma build_input_ok next next' bits : (∀ n, gate_ok (bloom_of n)) → NoDup (sr_id <$> used_rows db) →
  input_ok bloom_of (build_input next next' bits).
Proof.
  intros Hb Hnd. assert (Hlt : ∀ b row, used_rows db !! b = Some row → (b < 63)%nat).
  { intros b row Hr. apply lookup_lt_Some in Hr. unfold used_rows in Hr. rewrite length_take in Hr. lia. }
  constructor; cbn [build_input bi_sources bi_source_texts]; [| |done].
  - intros s Hs. apply list_elem_of_omap in Hs as (a & _ & E). apply fmap_Some in E as (b & Eb & ->).
    apply (id_to_bit_lookup _ _ _ Hnd) in Eb as (row & Hr & _). cbn [sm_bit]. by eapply Hlt.
  - intros b text Ht. apply texts_of_lookup in Ht as (url & Hin & _); [|apply url_tasks_nodup].
    apply elem_of_url_tasks in Hin as (row & Hr & _). by eapply Hlt.
Qed.

Lemma build_input_sources next next' bits b g : NoDup (sr_id <$> used_rows db) →
  mkMeta g b ∈ bi_sources (build_input next next' bits) ↔
  ∃ row, used_rows db !! b = Some row ∧ (sr_id row, g) ∈ rows_of (db_source_groups db).
Proof.
  intros Hnd. cbn [build_input bi_sources]. rewrite list_elem_of_omap. split.
  - intros ([i g'] & Hin & E). cbn [fst snd] in E. apply fmap_Some in E as (b' & Eb & [= -> ->]).
    apply (id_to_bit_lookup _ _ _ Hnd) in Eb as (row & Hr & <-). by exists row.
  - intros (row & Hr & Hin). exists (sr_id row, g). split; [done|]. cbn [fst snd].
    rewrite (proj2 (id_to_bit_lookup _ (sr_id row) b Hnd)); [done|by exists row].
Qed.

(** The texts of a build are those in force, for the lists it uses. *)
Definition texts_agree (next next' : HeldLists) : Prop :=
  (∀ b row url, used_rows db !! b = Some row → sr_url row = Some url → next !! url = in_force url) ∧
  (∀ row, row ∈ rows_of (db_whitelist_sources db) → next' !! ar_url row = in_force (ar_url row)).

Lemma build_input_allows next next' bits g d : texts_agree next next' →
  allow_rule to_lowercase (build_input next next' bits) g d ↔ db_allows g d.
Proof.
  intros [_ Hallow]. unfold allow_rule, db_allows, allow_list_rule. cbn [build_input bi_allowlists al_manual_rows al_sources].
  assert (Hs : (∃ source e, source ∈ allow_texts (allow_urls (rows_of (db_whitelist_sources db))) next' ∧
      g ∈ source.1.*2 ∧ e ∈ parse_list_text to_lowercase source.2 ∧ entry_covers e d) ↔
    ∃ row, row ∈ rows_of (db_whitelist_sources db) ∧ ∃ text, in_force (ar_url row) = Some text ∧
      ar_group_id row = g ∧ line_covers text d).
  { etrans; [|etrans; [apply (allow_texts_spec (rows_of (db_whitelist_sources db)) next' (λ g' text, g' = g ∧ line_covers text d))|]]; split.
    - intros (source & e & Hs & Hg & He). exists source. split; [done|]. exists g. split; [done|].
      split; [done|by exists e].
    - intros (source & Hs & g' & Hg & -> & e & He). by exists source, e.
    - intros (row & Hr & text & Ht & Hx). exists row. split; [done|]. exists text. by rewrite <-Hallow.
    - intros (row & Hr & text & Ht & Hx). exists row. split; [done|]. exists text. by rewrite Hallow. }
  rewrite Hs. unfold managed_rule, managed_row, regex_rule, regex_row. cbn [bi_managed_rows bi_regex_rows].
  clear. tauto.
Qed.

Lemma build_input_denies next next' bits g d : texts_agree next next' → NoDup (sr_id <$> used_rows db) →
  block_rule to_lowercase (build_input next next' bits) g d ↔ db_denies g d.
Proof.
  intros [Hblock _] Hnd. unfold block_rule, db_denies, manual_block, list_block.
  assert (Hl : (∃ b text, bi_source_texts (build_input next next' bits) !! b = Some text ∧
      mkMeta g b ∈ bi_sources (build_input next next' bits) ∧
      ((∃ e, e ∈ parse_list_text to_lowercase text ∧ entry_covers e d) ∨
       pattern_hits (parse_list_text to_lowercase text) d)) ↔
    ∃ row url text, row ∈ used_rows db ∧ sr_url row = Some url ∧ in_force url = Some text ∧
      (sr_id row, g) ∈ rows_of (db_source_groups db) ∧
      (line_covers text d ∨ pattern_hits (parse_list_text to_lowercase text) d)).
  { setoid_rewrite (build_input_sources next next' bits _ g Hnd). cbn [build_input bi_source_texts].
    setoid_rewrite (texts_of_lookup next _ _ _ (url_tasks_nodup _)). setoid_rewrite elem_of_url_tasks. split.
    - intros (b & text & (url & (row & Hr & Hu) & Ht) & (row' & Hr' & Hin) & Hx).
      assert (row' = row) as -> by congruence. exists row, url, text. rewrite <-(Hblock b row url) by done.
      split; [by eapply list_elem_of_lookup_2|done].
    - intros (row & url & text & Hr & Hu & Ht & Hin & Hx). apply list_elem_of_lookup in Hr as [b Hr].
      exists b, text. split; [|split; [by exists row|done]]. exists url. split; [by exists row|].
      by rewrite (Hblock b row url). }
  cbv zeta. rewrite Hl. unfold managed_rule, managed_row, regex_rule, regex_row.
  cbn [build_input bi_managed_rows bi_regex_rows bi_manual_rows]. done.
Qed.

End build.

(** ** A build *)

Section compile.
Context `{Matchers, MembershipGate, IterOrder}.
Context (to_lowercase : str → str) (bloom_of : Z → gate).

Lemma compile_block_index_spec db download held fetch at_ :
  let force := list_in_force held fetch download in
  match first_failure db with
  | Some e => (compile_block_index to_lowercase bloom_of db download held fetch at_).1 = inl (Error.DatabaseError e)
  | None => ∃ next next' bits,
      (compile_block_index to_lowercase bloom_of db download held fetch at_).1 =
        inr (build_index to_lowercase bloom_of (build_input db next next' bits), next') ∧
      texts_agree db force next next' ∧
      ∀ b row url, used_rows db !! b = Some row → sr_url row = Some url → next' !! url = force url
  end.
Proof.
  intros force. destruct db as [[e|rows] [e'|assigns] [e0|gids] [e1|manual] [e2|managed] [e3|regex] [e4|white] [e5|wsrc]];
    try reflexivity.
  set (db := mkDatabase (inr rows) (inr assigns) (inr gids) (inr manual) (inr managed) (inr regex) (inr white) (inr wsrc)).
  cbn [first_failure failure omap list_omap head id].
  set (urls := elements (list_to_set (snd <$> url_tasks_of (used_rows db)) : gset str)).
  set (lists := fetch_lists urls download held fetch ∅).
  set (lists' := fetch_lists (fst <$> walk (allow_urls wsrc)) download held fetch lists.1).
  eexists lists.1, lists'.1, _. split; [reflexivity|].
  assert (Hurls : ∀ url, url ∈ urls ↔ ∃ b row, used_rows db !! b = Some row ∧ sr_url row = Some url).
  { intros url. unfold urls. rewrite elem_of_elements, elem_of_list_to_set, list_elem_of_fmap. split.
    - intros ([b u] & -> & Hin). apply elem_of_url_tasks in Hin as (row & Hr & Hu). by exists b, row.
    - intros (b & row & Hr & Hu). exists (b, url). split; [done|]. apply elem_of_url_tasks. by exists row. }
  assert (Hnext : ∀ url, lists.1 !! url = if decide (url ∈ urls) then force url else None).
  { intros url. unfold lists. rewrite fetch_lists_lookup, lookup_empty. fold force.
    case_decide; [by destruct (force url)|done]. }
  split; [split|].
  - intros b row url Hr Hu. rewrite Hnext, decide_True; [done|]. apply Hurls. by exists b, row.
  - intros row Hr. unfold lists'. rewrite fetch_lists_lookup, Hnext. fold force.
    rewrite decide_True.
    + destruct (force (ar_url row)) as [t|]; [done|]. by case_decide.
    + destruct (proj2 (allow_urls_dom wsrc (ar_url row)) (ex_intro _ row (conj Hr eq_refl))) as [l El].
      apply list_elem_of_fmap. exists (ar_url row, l). split; [done|]. by apply elem_of_walk.
  - intros b row url Hr Hu. unfold lists'. rewrite fetch_lists_lookup, Hnext. fold force.
    rewrite (decide_True (P := url ∈ urls)) by (apply Hurls; by exists b, row).
    case_decide; [by destruct (force url)|done].
Qed.

End compile.

(** ** Properties *)

(** C3: A build fails exactly when one of the database's queries does, with the
    database's message; a download never fails it.  Otherwise the index it
    returns enforces the database: a name is allowed exactly by the allowlist,
    a line of an allowlist source of its group, a managed allow or an allow
    regex, and denied exactly by a managed deny, a deny regex, the manual
    blocklist or a list its group subscribes to, when nothing allows it.  The
    list texts are those in force: a held copy stays when its download fails,
    and is still held for the next build. *)
Theorem build_enforces_database `{Matchers, MembershipGate, IterOrder} (to_lowercase : str → str)
    (bloom_of : Z → gate) (db : Database) (download : str → option str) (held : HeldLists)
    (fetch : ListFetch) (at_ : str) :
  (∀ n, gate_ok (bloom_of n)) → NoDup (sr_id <$> used_rows db) →
  let force := list_in_force held fetch download in
  let built := (compile_block_index to_lowercase bloom_of db download held fetch at_).1 in
  match first_failure db with
  | Some e => built = inl (Error.DatabaseError e)
  | None => ∃ index lists, built = inr (index, lists) ∧
      (∀ g d,
        (evaluate index d g = ManualAllow ↔ db_allows to_lowercase db force g d) ∧
        (denies (evaluate index d g) = true ↔
           ¬ db_allows to_lowercase db force g d ∧ db_denies to_lowercase db force g d) ∧
        (managed_row db ActionDeny g d ∨ regex_row db ActionDeny g d → ¬ db_allows to_lowercase db force g d →
           ∃ source, evaluate index d g = ManualDeny source)) ∧
      (∀ row url, row ∈ used_rows db → sr_url row = Some url → lists !! url = force url)
  end.
Proof.
  intros Hb Hnd force built. pose proof (compile_block_index_spec to_lowercase bloom_of db download held fetch at_) as Hc.
  destruct (first_failure db) as [e|]; [exact Hc|].
  destruct Hc as (next & next' & bits & Hc & Ht & Hl). exists (build_index to_lowercase bloom_of (build_input db next next' bits)), next'.
  split; [exact Hc|]. split.
  - intros g d. pose proof (index_enforces_rules to_lowercase bloom_of (build_input db next next' bits) d g
      (build_input_ok bloom_of db next next' bits Hb Hnd)) as Hi. cbv zeta in Hi.
    rewrite (build_input_allows to_lowercase db force next next' bits g d Ht),
      (build_input_denies to_lowercase db force next next' bits g d Ht Hnd) in Hi. exact Hi.
  - intros row url Hr Hu. apply list_elem_of_lookup in Hr as [b Hr]. by eapply Hl.
Qed.

(** ** Examples

    A database with a downloaded list for group 1, a manual wildcard and a
    managed allow. *)

Definition demo_db : Database :=
  {| db_blocklist_sources := inr [mkSourceRow 10 (of_string "ads") (Some (of_string "https://l.example"))];
     db_source_groups := inr [(10, 1)]; db_groups := inr [1; 2];
     db_blocklist := inr [of_string "*.evil.example"];
     db_managed := inr [mkManagedRow (of_string "ok.track.example") (of_string "allow") 1];
     db_regex := inr []; db_whitelist := inr []; db_whitelist_sources := inr [] |}.
Definition demo_list : str :=
  join [10] [of_string "0.0.0.0 ads.evil.example"; of_string "||track.example^"].
Definition demo_download (url : str) : option str :=
  if bool_decide (url = of_string "https://l.example") then Some demo_list else None.


Lemma build_enforces_database_witness :
  let M := demo_matchers in let G := demo_gate in let I := map_to_list_order in
  let held := {[of_string "https://l.example" := demo_list]} in
  let force := list_in_force held Redownload (λ _, None) in
  let d := of_string "ads.evil.example" in
  first_failure demo_db = None ∧ force (of_string "https://l.example") = Some demo_list ∧
  ∃ index lists,
    (compile_block_index to_ascii_lowercase (λ _, demo_bloom) demo_db (λ _, None) held Redownload []).1
      = inr (index, lists) ∧
    (denies (evaluate index d 1) = true ↔
       ¬ db_allows to_ascii_lowercase demo_db force 1 d ∧ db_denies to_ascii_lowercase demo_db force 1 d).
Proof.
  intros M G I held force d. split; [reflexivity|]. split; [vm_compute; reflexivity|].
  assert (Hnd : NoDup (sr_id <$> used_rows demo_db)) by (apply (bool_decide_unpack _); vm_compute; exact Logic.I).
  destruct (@build_enforces_database M G I to_ascii_lowercase (λ _, demo_bloom) demo_db (λ _, None) held Redownload []
    (λ _, demo_bloom_ok) Hnd) as (index & lists & Hc & Hv & _).
  exists index, lists. split; [exact Hc|]. apply (Hv 1 d).
Defined.
