(* ===== verification/BlockDecision.v ===== *)
(** The memory of filter verdicts: [infrastructure/src/dns/block_filter/decision_cache.rs].

    A shared cache of 64 locked shards (L1) in front of the index, and a copy
    per thread (L0) whose entries an epoch retires.  [LruCache] is a
    third-party map: the class [LruMaps] says what the code relies on. *)

From S2P Require Import Prelude Errors Text Net Float64 CacheRecord CacheBloom SuffixTrie BlockIndex.

(** ** Bounded maps

    What a map holds ([lm_peek]) is the view the laws are stated in; an entry
    may go at any insertion, the one just inserted excepted. *)

Class LruMaps := {
  lmap : ∀ K V : Type, EqDecision K → Type;
  lm_new {K V} `{HK : EqDecision K} : nat → lmap K V HK;
  lm_peek {K V} `{HK : EqDecision K} : lmap K V HK → K → option V;
  (** The value, and the map with the entry as the most recently used. *)
  lm_get {K V} `{HK : EqDecision K} : lmap K V HK → K → option V * lmap K V HK;
  lm_pop {K V} `{HK : EqDecision K} : lmap K V HK → K → lmap K V HK;
  lm_put {K V} `{HK : EqDecision K} : lmap K V HK → K → V → lmap K V HK;
  lm_clear {K V} `{HK : EqDecision K} : lmap K V HK → lmap K V HK;
  lm_peek_new {K V} `{HK : EqDecision K} cap k : lm_peek (lm_new cap : lmap K V HK) k = None;
  lm_get_value {K V} `{HK : EqDecision K} (m : lmap K V HK) k : (lm_get m k).1 = lm_peek m k;
  lm_get_peek {K V} `{HK : EqDecision K} (m : lmap K V HK) k j : lm_peek (lm_get m k).2 j = lm_peek m j;
  lm_pop_peek {K V} `{HK : EqDecision K} (m : lmap K V HK) k j :
    lm_peek (lm_pop m k) j = if decide (j = k) then None else lm_peek m j;
  lm_put_peek {K V} `{HK : EqDecision K} (m : lmap K V HK) k v : lm_peek (lm_put m k v) k = Some v;
  lm_put_others {K V} `{HK : EqDecision K} (m : lmap K V HK) k v j w :
    j ≠ k → lm_peek (lm_put m k v) j = Some w → lm_peek m j = Some w;
  lm_clear_peek {K V} `{HK : EqDecision K} (m : lmap K V HK) k : lm_peek (lm_clear m) k = None;
}.

(** An association list, most recent first. *)
Section assoc_maps.
Context {K V : Type} `{EqDecision K}.

Fixpoint al_find (m : list (K * V)) (k : K) : option V :=
  match m with
  | [] => None
  | (j, v) :: m => if decide (k = j) then Some v else al_find m k
  end.
Definition al_without (m : list (K * V)) (k : K) : list (K * V) := filter (λ e, e.1 ≠ k) m.

Lemma al_find_without m k j : al_find (al_without m k) j = if decide (j = k) then None else al_find m j.
Proof.
  unfold al_without. induction m as [|[i v] m IH]; [by case_decide|].
  destruct (decide (i = k)) as [->|Hne].
  - rewrite filter_cons_False by (simpl; tauto). rewrite IH. simpl. by destruct (decide (j = k)).
  - rewrite filter_cons_True by done. simpl. rewrite IH.
    destruct (decide (j = i)) as [->|]; [|done]. by rewrite decide_False.
Qed.

Lemma al_find_take n m k v : al_find (take n m) k = Some v → al_find m k = Some v.
Proof.
  revert n. induction m as [|[i w] m IH]; intros [|n]; simpl; [done..|]. case_decide; [done|]. apply IH.
Qed.

Definition al_touch (m : list (K * V)) (k : K) : list (K * V) :=
  match al_find m k with Some v => (k, v) :: al_without m k | None => m end.

Lemma al_find_touch m k j : al_find (al_touch m k) j = al_find m j.
Proof.
  unfold al_touch. destruct (al_find m k) as [v|] eqn:E; [|done]. simpl. rewrite al_find_without.
  by destruct (decide (j = k)) as [->|].
Qed.
End assoc_maps.

Definition assoc_maps : LruMaps.
Proof.
  refine {|
    lmap K V _ := (nat * list (K * V))%type;
    lm_new K V _ cap := (cap, []);
    lm_peek K V _ m k := al_find m.2 k;
    lm_get K V _ m k := (al_find m.2 k, (m.1, al_touch m.2 k));
    lm_pop K V _ m k := (m.1, al_without m.2 k);
    lm_put K V _ m k v := (m.1, take (S (m.1 - 1)) ((k, v) :: al_without m.2 k));
    lm_clear K V _ m := (m.1, []);
  |}; try done; intros K V HK [cap m] k; cbn [fst snd].
  - apply al_find_touch.
  - apply al_find_without.
  - intros v. simpl. by rewrite decide_True.
  - intros v j w Hne Hw. simpl in Hw. rewrite decide_False in Hw by done.
    apply al_find_take in Hw. by rewrite al_find_without, decide_False in Hw.
Defined.

(** ** Verdicts in a byte *)

Definition TTL_SECS : Z := 60.
Definition CACHE_ALLOW : Z := 0.
Definition CACHE_MANUAL : Z := 0x80.

Definition encode_verdict (v : Verdict) : Z :=
  match v with
  | NoMatch => CACHE_ALLOW
  | ManualAllow => CACHE_MANUAL
  | Block s => source_as_u8 s + 1
  | ManualDeny s => Z.lor CACHE_MANUAL (source_as_u8 s + 1)
  end.

Definition decode_verdict (val : Z) : Verdict :=
  let manual := negb (Z.land val CACHE_MANUAL =? 0) in
  let encoded := Z.land val (255 - CACHE_MANUAL) in
  if encoded =? CACHE_ALLOW then (if manual then ManualAllow else NoMatch)
  else match source_from_u8 (encoded - 1) with
       | Some s => if manual then ManualDeny s else Block s
       | None => NoMatch
       end.

Lemma decode_encode v : decode_verdict (encode_verdict v) = v ∧ is_u8 (encode_verdict v).
Proof. destruct v as [|s|s|]; try destruct s; (split; [done|split; by vm_compute]). Qed.

(** ** The two caches *)

Section caches.
Context `{LruMaps}.

Definition L0_CAPACITY : nat := 256.
Definition L1_TOTAL : nat := Z.to_nat 100000.
Definition L1_SHARDS : nat := 64.

Abbreviation L1Shard := (lmap Z (Z * Z) _).
Abbreviation L0Cache := (lmap Z (Z * Z * Z) _).

Definition div_ceil (a b : nat) : nat := (a / b + if (a mod b =? 0)%nat then 0 else 1)%nat.

Definition with_capacity (total_capacity : nat) : list L1Shard :=
  replicate L1_SHARDS (lm_new (Nat.max 1 (div_ceil total_capacity L1_SHARDS))).

Definition shard_index (key : Z) : nat :=
  Z.to_nat (Z.land (Z.shiftr (wrap64 (key * 0x9E3779B97F4A7C15)) 56) (Z.of_nat L1_SHARDS - 1)).

(** The shards, and the threads' copies with the epoch that retires them. *)
Record DecisionCaches := mkCaches {
  dc_shards : list L1Shard;
  decision_epoch : Z;
  dc_threads : nat → L0Cache;
}.

Definition caches_new : DecisionCaches := mkCaches (with_capacity L1_TOTAL) 0 (λ _, lm_new L0_CAPACITY).

Definition set_shard (c : DecisionCaches) (i : nat) (s : L1Shard) : DecisionCaches :=
  mkCaches (<[i := s]> (dc_shards c)) (decision_epoch c) (dc_threads c).
Definition set_l0 (c : DecisionCaches) (thread : nat) (m : L0Cache) : DecisionCaches :=
  mkCaches (dc_shards c) (decision_epoch c)
    (λ t, if decide (t = thread) then m else dc_threads c t).

Definition decision_l0_get_by_key (c : DecisionCaches) (thread : nat) (key now : Z)
    : option Verdict * DecisionCaches :=
  let '(found, m) := lm_get (dc_threads c thread) key in
  match found with
  | Some (encoded, expires_at, epoch) =>
      if (epoch =? decision_epoch c) && (now <? expires_at)
      then (Some (decode_verdict encoded), set_l0 c thread m)
      else (None, set_l0 c thread (lm_pop m key))
  | None => (None, set_l0 c thread m)
  end.

Definition decision_l0_set_by_key (c : DecisionCaches) (thread : nat) (key : Z) (v : Verdict)
    (expires_at : Z) : DecisionCaches :=
  set_l0 c thread (lm_put (dc_threads c thread) key (encode_verdict v, expires_at, decision_epoch c)).

Definition decision_l0_clear (c : DecisionCaches) : DecisionCaches :=
  mkCaches (dc_shards c) (wrap64 (decision_epoch c + 1)) (dc_threads c).

Definition get_by_key (c : DecisionCaches) (key now : Z) : option (Verdict * Z) * DecisionCaches :=
  let i := shard_index key in
  match dc_shards c !! i with
  | Some shard =>
      let '(found, m) := lm_get shard key in
      match found with
      | Some (encoded, expires_at) =>
          if now <? expires_at then (Some (decode_verdict encoded, expires_at), set_shard c i m)
          else (None, set_shard c i (lm_pop m key))
      | None => (None, set_shard c i m)
      end
  | None => (None, c)
  end.

Definition set_by_key_with_ttl (c : DecisionCaches) (key : Z) (v : Verdict) (ttl_secs now : Z)
    : Z * DecisionCaches :=
  let expires_at := sat_add u64_max now ttl_secs in
  let i := shard_index key in
  (expires_at,
   match dc_shards c !! i with
   | Some shard => set_shard c i (lm_put shard key (encode_verdict v, expires_at))
   | None => c
   end).

Definition set_by_key (c : DecisionCaches) (key : Z) (v : Verdict) (now : Z) : Z * DecisionCaches :=
  set_by_key_with_ttl c key v TTL_SECS now.

Definition caches_clear (c : DecisionCaches) : DecisionCaches :=
  mkCaches (lm_clear <$> dc_shards c) (decision_epoch c) (dc_threads c).

(** A key always has a shard. *)
Lemma shard_index_lt key : (shard_index key < L1_SHARDS)%nat.
Proof.
  unfold shard_index, L1_SHARDS. set (x := Z.shiftr _ _).
  change (Z.of_nat 64 - 1) with (Z.ones 6). rewrite Z.land_ones by lia.
  pose proof (Z.mod_pos_bound x (2 ^ 6)). lia.
Qed.

(** ** What the caches hold *)

(** [P k v expires]: what may be held of [k], until when. *)
Definition holds_only (P : Z → Verdict → Z → Prop) (c : DecisionCaches) : Prop :=
  (∀ i m k encoded expires, dc_shards c !! i = Some m → lm_peek m k = Some (encoded, expires) →
     P k (decode_verdict encoded) expires) ∧
  (∀ t k encoded expires epoch, lm_peek (dc_threads c t) k = Some (encoded, expires, epoch) →
     epoch ≤ decision_epoch c ∧ (epoch = decision_epoch c → P k (decode_verdict encoded) expires)).

Lemma holds_only_new P : holds_only P caches_new.
Proof.
  split.
  - intros i m k enc ex Hi Hk. apply lookup_replicate in Hi as [-> _]. by rewrite lm_peek_new in Hk.
  - intros t k enc ex ep Hk. unfold caches_new in Hk. cbn [dc_threads] in Hk. by rewrite lm_peek_new in Hk.
Qed.

Lemma holds_only_mono P Q c : (∀ k v ex, P k v ex → Q k v ex) → holds_only P c → holds_only Q c.
Proof.
  intros HPQ [H1 H2]. split; [intros; eapply HPQ, H1; eauto|].
  intros t k enc ex ep Hk. destruct (H2 _ _ _ _ _ Hk). split; [done|]. auto.
Qed.

(** A thread's map replaced by one that holds no more. *)
Lemma holds_only_set_l0 P c thread m : holds_only P c →
  (∀ k enc ex ep, lm_peek m k = Some (enc, ex, ep) →
     lm_peek (dc_threads c thread) k = Some (enc, ex, ep)
     ∨ ep = decision_epoch c ∧ P k (decode_verdict enc) ex) →
  holds_only P (set_l0 c thread m).
Proof.
  intros [H1 H2] Hm. split; [exact H1|]. intros t k enc ex ep. cbn [set_l0 dc_threads decision_epoch].
  destruct (decide (t = thread)) as [->|]; [|by apply H2].
  intros Hk. destruct (Hm _ _ _ _ Hk) as [Hk'|[-> ?]]; [by eapply H2|done].
Qed.

Lemma holds_only_set_shard P c i m : holds_only P c →
  (∀ k enc ex, lm_peek m k = Some (enc, ex) →
     (∃ s, dc_shards c !! i = Some s ∧ lm_peek s k = Some (enc, ex)) ∨ P k (decode_verdict enc) ex) →
  holds_only P (set_shard c i m).
Proof.
  intros [H1 H2] Hm. split; [|exact H2]. intros j s k enc ex Hj Hk.
  cbn [set_shard dc_shards] in Hj. apply list_lookup_insert_Some in Hj as [(<- & -> & _)|[_ Hj]].
  - destruct (Hm _ _ _ Hk) as [(s' & Hs & Hk')|]; [by eapply H1|done].
  - by eapply H1.
Qed.

Lemma l0_get_spec P c thread key now : holds_only P c →
  let r := decision_l0_get_by_key c thread key now in
  holds_only P r.2 ∧ (∀ v, r.1 = Some v → ∃ ex, now < ex ∧ P key v ex) ∧
  decision_epoch r.2 = decision_epoch c.
Proof.
  intros Hc r. unfold r, decision_l0_get_by_key.
  pose proof (lm_get_value (dc_threads c thread) key) as Hv.
  pose proof (λ j, lm_get_peek (dc_threads c thread) key j) as Hp.
  destruct (lm_get (dc_threads c thread) key) as [found m]. cbn [fst snd] in Hv, Hp. subst found.
  destruct (lm_peek (dc_threads c thread) key) as [[[enc ex] ep]|] eqn:E.
  - destruct ((ep =? decision_epoch c) && (now <? ex)) eqn:Eb; cbn [fst snd].
    + apply andb_true_iff in Eb as [Eep%Z.eqb_eq Elt%Z.ltb_lt].
      split; [apply holds_only_set_l0; [done|]; intros k' enc' ex' ep'; rewrite Hp; by left|].
      split; [|done]. intros v [= <-]. exists ex. split; [done|]. destruct Hc as [_ Hc]. by apply (Hc _ _ _ _ _ E).
    + split; [apply holds_only_set_l0; [done|]|done].
      intros k' enc' ex' ep'. rewrite lm_pop_peek, Hp. case_decide; [done|by left].
  - split; [apply holds_only_set_l0; [done|]; intros k' enc' ex' ep'; rewrite Hp; by left|done].
Qed.

Lemma l0_set_spec P c thread key v ex : holds_only P c → P key v ex →
  let c' := decision_l0_set_by_key c thread key v ex in
  holds_only P c' ∧ decision_epoch c' = decision_epoch c.
Proof.
  intros Hc Hv c'. split; [|done]. apply holds_only_set_l0; [done|]. intros k enc ex' ep Hk.
  destruct (decide (k = key)) as [->|Hne]; [|left; by eapply lm_put_others].
  rewrite lm_put_peek in Hk. injection Hk as <- <- <-. right. split; [done|].
  by rewrite (proj1 (decode_encode v)).
Qed.

Lemma get_by_key_spec P c key now : holds_only P c →
  let r := get_by_key c key now in
  holds_only P r.2 ∧ (∀ v ex, r.1 = Some (v, ex) → now < ex ∧ P key v ex) ∧
  decision_epoch r.2 = decision_epoch c.
Proof.
  intros Hc r. unfold r, get_by_key. destruct (dc_shards c !! shard_index key) as [s|] eqn:Es; [|done].
  pose proof (lm_get_value s key) as Hv. pose proof (λ j, lm_get_peek s key j) as Hp.
  destruct (lm_get s key) as [found m]. cbn [fst snd] in Hv, Hp. subst found.
  destruct (lm_peek s key) as [[enc ex]|] eqn:E.
  - destruct (Z.ltb_spec now ex); cbn [fst snd].
    + split; [apply holds_only_set_shard; [done|]; intros k' enc' ex'; rewrite Hp; left; by exists s|].
      split; [|done]. intros v ex' [= <- <-]. split; [done|]. destruct Hc as [Hc _]. by eapply Hc.
    + split; [apply holds_only_set_shard; [done|]|done].
      intros k' enc' ex'. rewrite lm_pop_peek, Hp. case_decide; [done|left; by exists s].
  - split; [apply holds_only_set_shard; [done|]; intros k' enc' ex'; rewrite Hp; left; by exists s|done].
Qed.

Lemma set_by_key_spec P c key v ttl now : holds_only P c →
  let r := set_by_key_with_ttl c key v ttl now in
  P key v r.1 → holds_only P r.2 ∧ decision_epoch r.2 = decision_epoch c.
Proof.
  intros Hc r Hv. unfold r, set_by_key_with_ttl in *. cbn [fst snd] in *.
  destruct (dc_shards c !! shard_index key) as [s|] eqn:Es; [|done]. split; [|done].
  apply holds_only_set_shard; [done|]. intros k enc ex Hk.
  destruct (decide (k = key)) as [->|Hne]; [|left; exists s; split; [done|by eapply lm_put_others]].
  rewrite lm_put_peek in Hk. injection Hk as <- <-. right. by rewrite (proj1 (decode_encode v)).
Qed.

(** After a clear of both caches nothing is held. *)
Lemma cleared_holds_nothing P Q c : holds_only P c → 0 ≤ decision_epoch c < u64_max →
  let c' := decision_l0_clear (caches_clear c) in
  holds_only Q c' ∧ decision_epoch c' = decision_epoch c + 1.
Proof.
  intros [H1 H2] Hep. assert (Hw : wrap64 (decision_epoch c + 1) = decision_epoch c + 1)
    by (apply wrap64_small; unfold_ints; unfold u64_max in Hep; lia).
  unfold decision_l0_clear, caches_clear, holds_only. cbn [dc_shards dc_threads decision_epoch]. rewrite Hw.
  split; [split|done].
  - intros i m k enc ex Hi Hk. rewrite list_lookup_fmap in Hi.
    destruct (dc_shards c !! i); [|done]. injection Hi as <-. by rewrite lm_clear_peek in Hk.
  - intros t k enc ex ep Hk. destruct (H2 _ _ _ _ _ Hk). split; lia.
Qed.

End caches.
