(* ===== verification/SubnetMatcher.v ===== *)
(** Client subnets: [domain/src/entities/client_subnet.rs].

    An [IpNetwork] is a value of the [ipnetwork] crate: the class [Networks]
    says what the code asks of it. *)

From Stdlib Require Import String.
From S2P Require Import Prelude Errors Text Net.

Class Networks := {
  IpNetwork : Type;
  net_parse : str → str + IpNetwork;
  net_new : IpAddr → Z → str + IpNetwork;
  net_network : IpNetwork → IpAddr;
  net_prefix : IpNetwork → Z;
  net_contains : IpNetwork → IpAddr → bool;
}.

Record ClientSubnet := mkSubnet { subnet_cidr : str; cs_group_id : Z }.

Section subnets.
Context `{Networks}.

Definition parse_cidr (cidr : str) : str + IpNetwork :=
  let describe (r : str + IpNetwork) := match r with
    | inl e => inl (cidr ++ of_string ": " ++ e)
    | inr n => inr n
    end in
  if bool_decide (cidr = []) then inl (of_string "CIDR cannot be empty")
  else if negb (contains_char 47 cidr) then
    inl (of_string "CIDR must include prefix (e.g., 192.168.1.0/24)")
  else match describe (net_parse cidr) with
       | inl e => inl e
       | inr parsed => describe (net_new (net_network parsed) (net_prefix parsed))
       end.

Record SubnetMatcher := mkMatcher { subnets : list (IpNetwork * Z) }.

Fixpoint parse_subnets (rows : list ClientSubnet) (networks : list (IpNetwork * Z)) : str + SubnetMatcher :=
  match rows with
  | [] => inr (mkMatcher networks)
  | row :: rows =>
      match net_parse (subnet_cidr row) with
      | inl e => inl (of_string "Invalid CIDR " ++ subnet_cidr row ++ of_string ": " ++ e)
      | inr network => parse_subnets rows (networks ++ [(network, cs_group_id row)])
      end
  end.
Definition matcher_new (rows : list ClientSubnet) : str + SubnetMatcher := parse_subnets rows [].

(** [Iterator::min_by_key] on [Reverse(prefix)]: the first of the longest. *)
Definition longer (best : option (IpNetwork * Z)) (s : IpNetwork * Z) : option (IpNetwork * Z) :=
  match best with
  | Some b => if net_prefix b.1 <? net_prefix s.1 then Some s else Some b
  | None => Some s
  end.
Definition find_group_for_ip (m : SubnetMatcher) (ip : IpAddr) : option Z :=
  snd <$> foldl longer None (List.filter (λ s, net_contains s.1 ip) (subnets m)).

(** The longest network wins, and the first of them. *)
Definition best_subnet (nets : list (IpNetwork * Z)) (ip : IpAddr) (i : nat) (s : IpNetwork * Z) : Prop :=
  nets !! i = Some s ∧ net_contains s.1 ip = true ∧
  ∀ j s', nets !! j = Some s' → net_contains s'.1 ip = true →
    net_prefix s'.1 ≤ net_prefix s.1 ∧ (net_prefix s'.1 = net_prefix s.1 → (i ≤ j)%nat).

Lemma find_group_snoc nets s ip :
  foldl longer None (List.filter (λ s, net_contains s.1 ip) (nets ++ [s])) =
  let best := foldl longer None (List.filter (λ s, net_contains s.1 ip) nets) in
  if net_contains s.1 ip then longer best s else best.
Proof. rewrite List.filter_app. simpl. destruct (net_contains s.1 ip); by rewrite ?foldl_app, ?app_nil_r. Qed.

Lemma find_group_spec nets ip :
  match foldl longer None (List.filter (λ s, net_contains s.1 ip) nets) with
  | Some s => ∃ i, best_subnet nets ip i s
  | None => ∀ s, s ∈ nets → net_contains s.1 ip = false
  end.
Proof.
  induction nets as [|s nets IH] using rev_ind; [intros s Hs; by apply not_elem_of_nil in Hs|].
  rewrite find_group_snoc. cbv zeta.
  destruct (foldl longer None (List.filter _ nets)) as [b|].
  - destruct IH as (i & Hi & Hc & Hbest). pose proof (lookup_lt_Some _ _ _ Hi) as Hlt.
    assert (Hkeep : (net_contains s.1 ip = true → net_prefix s.1 ≤ net_prefix b.1) →
      best_subnet (nets ++ [s]) ip i b).
    { intros Hs. split; [by rewrite lookup_app_l|]. split; [done|]. intros j s' Hj Hc'.
      apply lookup_app_Some in Hj as [Hj|[Hj Hs']]; [by apply Hbest|].
      apply list_lookup_singleton_Some in Hs' as [? <-]. split; [by apply Hs|lia]. }
    destruct (net_contains s.1 ip) eqn:Es; [|exists i; by apply Hkeep]. unfold longer.
    destruct (Z.ltb_spec (net_prefix b.1) (net_prefix s.1)); [|exists i; by apply Hkeep].
    exists (length nets). split; [by rewrite list_lookup_middle|]. split; [done|]. intros j s' Hj Hc'.
    apply lookup_app_Some in Hj as [Hj|[Hj Hs']].
    + destruct (Hbest _ _ Hj Hc'). split; [lia|lia].
    + apply list_lookup_singleton_Some in Hs' as [? <-]. split; lia.
  - destruct (net_contains s.1 ip) eqn:Es.
    + exists (length nets). split; [by rewrite list_lookup_middle|]. split; [done|]. intros j s' Hj Hc'.
      apply lookup_app_Some in Hj as [Hj|[Hj Hs']].
      * assert (s' ∈ nets) as Hin by (by eapply list_elem_of_lookup_2). rewrite (IH _ Hin) in Hc'. done.
      * apply list_lookup_singleton_Some in Hs' as [? <-]. split; lia.
    + intros s' [Hs'|Hs']%elem_of_app; [by apply IH|]. by apply list_elem_of_singleton in Hs' as ->.
Qed.

End subnets.
