(* ===== verification/Connections.v ===== *)
(** Who is connected: the client address a PROXY Protocol v2 header carries
    ([infrastructure/src/dns/proxy_protocol.rs]), a stream being the bytes that
    arrive and, after them, the reason there are no more;
    [cli/src/server/dns/connection_limiter.rs], the addresses of
    [cli/src/server/dns/pktinfo.rs], and the client a DoH request is attributed
    to ([cli/src/server/doh.rs]).

    The limiter's map holds its shard's lock over an acquisition, over the
    decrement of a release and over the removal of an idle entry, so each is
    one step ([LimiterStep]); a release is two. *)

From Stdlib Require Import String.
From stdpp Require Import pretty.
From stdpp Require Import relations.
From S2P Require Import Prelude Errors Net Guards Text Protocol SubnetMatcher.

#[local] Set Default Proof Using "Type".

Definition PROXY_V2_SIGNATURE : bytes := [13; 10; 13; 10; 0; 13; 10; 81; 85; 73; 84; 10].
Definition FIXED_HEADER_LEN : nat := 16.
Definition MAX_ADDITIONAL_LEN : nat := 536.
Definition COMMAND_LOCAL : Z := 0x00.
Definition COMMAND_PROXY : Z := 0x01.
Definition FAMILY_TCP4 : Z := 0x11.
Definition FAMILY_TCP6 : Z := 0x21.

Record Stream := mkStream { arriving : bytes; ending : string }.

Definition read_error {A} (e : string) : DomainError + A :=
  inl (Error.IoError ("reading PROXY Protocol v2 header: " +:+ e)).
Definition invalid_header {A} (reason : string) : DomainError + A :=
  inl (Error.InvalidInput ("PROXY Protocol v2 header: " +:+ reason)).

(** [read_exact]: so many bytes, or the error that ends the stream. *)
Definition read_exact (n : nat) (s : Stream) : DomainError + (bytes * Stream) :=
  if (length (arriving s) <? n)%nat then read_error (ending s)
  else inr (take n (arriving s), mkStream (drop n (arriving s)) (ending s)).

Definition extract_source_ip (family : Z) (additional : bytes) (peer_addr : IpAddr) : IpAddr :=
  if family =? FAMILY_TCP4 then
    if (length additional <? 4)%nat then peer_addr else V4 (be_int (take 4 additional))
  else if family =? FAMILY_TCP6 then
    if (length additional <? 16)%nat then peer_addr
    else let v6 := be_int (take 16 additional) in
         match to_ipv4_mapped v6 with Some v4 => V4 v4 | None => V6 v6 end
  else peer_addr.

(** The address, and the stream after the header. *)
Definition read_proxy_v2_client_ip (s : Stream) (peer_addr : IpAddr) : DomainError + (IpAddr * Stream) :=
  '(header, s) ← read_exact FIXED_HEADER_LEN s;
  let byte (i : nat) : Z := default 0 (header !! i) in
  if negb (bool_decide (take 12 header = PROXY_V2_SIGNATURE)) then invalid_header "invalid signature"
  else if negb (Z.shiftr (byte 12%nat) 4 =? 2) then invalid_header "unsupported version (expected 2)"
  else
    let command := Z.land (byte 12%nat) 0x0F in
    let family := byte 13%nat in
    let additional_len := Z.to_nat (be16 (byte 14%nat) (byte 15%nat)) in
    if (MAX_ADDITIONAL_LEN <? additional_len)%nat then
      inl (Error.InvalidInput ("PROXY Protocol v2 header: additional length exceeds " +:+ pretty MAX_ADDITIONAL_LEN
                               +:+ " bytes"))
    else
      '(additional, s) ← (if (0 <? additional_len)%nat then read_exact additional_len s else inr ([], s));
      if command =? COMMAND_LOCAL then inr (peer_addr, s)
      else if command =? COMMAND_PROXY then inr (extract_source_ip family additional peer_addr, s)
      else invalid_header "unknown command".

(** ** What a proxy sends *)

(** The header of a connection from one address to another, with what follows the addresses; an IPv4
    client of a dual-stack frontend may come mapped. *)
Inductive proxy_header : IpAddr → bytes → Prop :=
  | header_v4 a rest : is_u32 a → (length rest <= 532)%nat →
      proxy_header (V4 a) (PROXY_V2_SIGNATURE ++ [0x21; FAMILY_TCP4] ++ u16_be (Z.of_nat (4 + length rest))
                           ++ v4_octets a ++ rest)
  | header_mapped a rest : is_u32 a → (length rest <= 520)%nat →
      proxy_header (V4 a) (PROXY_V2_SIGNATURE ++ [0x21; FAMILY_TCP6] ++ u16_be (Z.of_nat (16 + length rest))
                           ++ v6_octets (0xFFFF * 2^32 + a) ++ rest)
  | header_v6 a rest : is_u u128_max a → to_ipv4_mapped a = None → (length rest <= 520)%nat →
      proxy_header (V6 a) (PROXY_V2_SIGNATURE ++ [0x21; FAMILY_TCP6] ++ u16_be (Z.of_nat (16 + length rest))
                           ++ v6_octets a ++ rest).

Lemma read_exact_app n l rest e : length l = n → read_exact n (mkStream (l ++ rest) e) = inr (l, mkStream rest e).
Proof.
  intros <-. unfold read_exact. cbn [arriving ending]. rewrite (proj2 (Nat.ltb_ge _ _)) by (rewrite length_app; lia).
  by rewrite take_app_length, drop_app_length.
Qed.

(** A PROXY header with the family and the addresses [block] before whatever follows. *)
Lemma read_proxied family block payload e peer : (length block <= MAX_ADDITIONAL_LEN)%nat →
  read_proxy_v2_client_ip
    (mkStream ((PROXY_V2_SIGNATURE ++ [0x21; family] ++ u16_be (Z.of_nat (length block)) ++ block) ++ payload) e) peer
  = inr (extract_source_ip family block peer, mkStream payload e).
Proof.
  unfold MAX_ADDITIONAL_LEN. intros Hl. set (n := Z.of_nat (length block)).
  replace ((PROXY_V2_SIGNATURE ++ [0x21; family] ++ u16_be n ++ block) ++ payload)
    with ((PROXY_V2_SIGNATURE ++ [0x21; family] ++ u16_be n) ++ block ++ payload) by (by rewrite <-!app_assoc).
  unfold read_proxy_v2_client_ip. rewrite read_exact_app by done. cbn [mbind sum_bind].
  change (default 0 (_ !! 12%nat)) with 0x21. change (default 0 (_ !! 13%nat)) with family.
  change (default 0 (_ !! 14%nat)) with (n / 256 mod 256). change (default 0 (_ !! 15%nat)) with (n mod 256).
  rewrite bool_decide_true by done. cbn [negb]. change (Z.shiftr 0x21 4 =? 2) with true. cbn [negb].
  assert (Eb : be16 (n / 256 mod 256) (n mod 256) = n).
  { unfold be16. assert (0 ≤ n ≤ 536) by (unfold n; lia). rewrite (Z.mod_small (n / 256)) by (Z.to_euclidean_division_equations; lia).
    Z.to_euclidean_division_equations. lia. }
  cbv zeta. rewrite Eb. unfold n. rewrite Nat2Z.id. unfold MAX_ADDITIONAL_LEN. rewrite (proj2 (Nat.ltb_ge _ _)) by lia.
  change (Z.land 0x21 0x0F) with 1. destruct block as [|b block]; [done|].
  rewrite (proj2 (Nat.ltb_lt 0 _)) by (cbn; lia). by rewrite read_exact_app.
Qed.

(** The client a proxy names is the client the server sees, whatever address the proxy itself has and
    whatever follows the addresses in the header, and what is read next is what the client sent. *)
Theorem proxied_clients_are_seen ip header payload e peer :
  proxy_header ip header → read_proxy_v2_client_ip (mkStream (header ++ payload) e) peer = inr (ip, mkStream payload e).
Proof.
  destruct 1 as [a rest Ha Hl|a rest Ha Hl|a rest Ha Hm Hl].
  - replace (Z.of_nat (4 + length rest)) with (Z.of_nat (length (v4_octets a ++ rest))) by (by rewrite length_app).
    rewrite read_proxied by (unfold MAX_ADDITIONAL_LEN; rewrite length_app; cbn; lia). do 2 f_equal. unfold extract_source_ip.
    cbn [Z.eqb]. rewrite (proj2 (Nat.ltb_ge _ _)) by (rewrite length_app; cbn; lia).
    change (take 4 (v4_octets a ++ rest)) with (v4_octets a). by rewrite be_int_v4_octets.
  - replace (Z.of_nat (16 + length rest)) with (Z.of_nat (length (v6_octets (0xFFFF * 2^32 + a) ++ rest))) by (by rewrite length_app).
    rewrite read_proxied by (unfold MAX_ADDITIONAL_LEN; rewrite length_app; cbn; lia). do 2 f_equal. unfold extract_source_ip.
    cbn [Z.eqb]. rewrite (proj2 (Nat.ltb_ge _ _)) by (rewrite length_app; cbn; lia).
    change (take 16 (v6_octets ?x ++ rest)) with (v6_octets x).
    unfold is_u, u32_max in Ha. rewrite be_int_v6_octets by (unfold is_u, u128_max; lia). unfold to_ipv4_mapped.
    rewrite Z.shiftr_div_pow2, Z.div_add_l, Z.div_small, Z.eqb_refl by lia. do 2 f_equal. unfold u32_max.
    change 4294967295 with (Z.ones 32). rewrite Z.land_ones by lia. rewrite Z.add_comm, Z.mod_add, Z.mod_small by lia. done.
  - replace (Z.of_nat (16 + length rest)) with (Z.of_nat (length (v6_octets a ++ rest))) by (by rewrite length_app).
    rewrite read_proxied by (unfold MAX_ADDITIONAL_LEN; rewrite length_app; cbn; lia). do 2 f_equal. unfold extract_source_ip.
    cbn [Z.eqb]. rewrite (proj2 (Nat.ltb_ge _ _)) by (rewrite length_app; cbn; lia).
    change (take 16 (v6_octets a ++ rest)) with (v6_octets a). rewrite be_int_v6_octets by done. by rewrite Hm.
Qed.

Lemma read_exact_spec n s :
  match read_exact n s with
  | inr (_, s') => arriving s' = drop n (arriving s) ∧ ending s' = ending s
  | inl e => (length (arriving s) < n)%nat ∧ ∃ t, e = Error.IoError t
  end.
Proof. unfold read_exact. destruct (Nat.ltb_spec (length (arriving s)) n); [split; [done|by eexists]|done]. Qed.

(** No more than a header is ever read, and what is refused is refused for a reason. *)
Theorem proxy_reads_are_bounded s peer :
  match read_proxy_v2_client_ip s peer with
  | inr (_, s') => ∃ n, (16 <= n <= 552)%nat ∧ arriving s' = drop n (arriving s) ∧ ending s' = ending s
  | inl (Error.IoError _) => (length (arriving s) < 552)%nat
  | inl e => ∃ reason, e = Error.InvalidInput ("PROXY Protocol v2 header: " +:+ reason)
  end.
Proof.
  unfold read_proxy_v2_client_ip. pose proof (read_exact_spec FIXED_HEADER_LEN s) as Hh. unfold FIXED_HEADER_LEN in *.
  destruct (read_exact 16 s) as [e|[header s1]]; cbn [mbind sum_bind]; [destruct Hh as [Hl [t ->]]; lia|].
  destruct Hh as [Ha He]. destruct (negb _); [by eexists|]. destruct (negb _); [by eexists|]. cbv zeta.
  set (n := Z.to_nat _). destruct (Nat.ltb_spec MAX_ADDITIONAL_LEN n) as [|Hn]; [by eexists|]. unfold MAX_ADDITIONAL_LEN in Hn.
  assert (Hr : match (if (0 <? n)%nat then read_exact n s1 else inr ([], s1)) with
    | inr (_, s') => arriving s' = drop (16 + n) (arriving s) ∧ ending s' = ending s
    | inl e => (length (arriving s) < 552)%nat ∧ ∃ t, e = Error.IoError t
    end).
  { destruct (Nat.ltb_spec 0 n); [|replace n with 0%nat by lia; done]. pose proof (read_exact_spec n s1) as Hr.
    rewrite Ha, He, drop_drop in Hr. destruct (read_exact n s1) as [e|[l s']]; [|done].
    destruct Hr as [Hl Ht]. rewrite length_drop in Hl. split; [lia|done]. }
  destruct (if (0 <? n)%nat then _ else _) as [e|[additional s']]; cbn [mbind sum_bind].
  - destruct Hr as [Hl [t ->]]. exact Hl.
  - destruct (_ =? _); [exists (16 + n)%nat; split; [lia|done]|].
    destruct (_ =? _); [exists (16 + n)%nat; split; [lia|done]|]. by eexists.
Qed.

Lemma proxied_clients_are_seen_witness :
  let header := PROXY_V2_SIGNATURE ++ [0x21; FAMILY_TCP6; 0; 18] ++ v6_octets 0xFFFFC0A80001 ++ [4; 0] in
  read_proxy_v2_client_ip (mkStream (header ++ [0; 29]) "closed") (V4 1) = inr (V4 0xC0A80001, mkStream [0; 29] "closed").
Proof. apply proxied_clients_are_seen, (header_mapped 0xC0A80001 [4; 0]); [by vm_compute|by vm_compute; lia]. Defined.

(** ** Addresses *)

(** [IpAddr::to_canonical]. *)
Definition to_canonical (ip : IpAddr) : IpAddr :=
  match ip with
  | V4 _ => ip
  | V6 v6 => match to_ipv4_mapped v6 with Some v4 => V4 v4 | None => ip end
  end.

Definition unmap_socket_addr (addr : SocketAddr) : SocketAddr :=
  match sa_ip addr with
  | V6 v6 => match to_ipv4_mapped v6 with Some v4 => mkSocket (V4 v4) (sa_port addr) 0 | None => addr end
  | V4 _ => addr
  end.

Definition to_ipv6_mapped (v4 : Z) : Z := 0xFFFF * 2 ^ 32 + v4.
Definition v6_mapped_bind_addr (addr : SocketAddr) : SocketAddr :=
  match sa_ip addr with
  | V4 v4 => mkSocket (V6 (to_ipv6_mapped v4)) (sa_port addr) 0
  | V6 _ => addr
  end.

Lemma mapped_back v4 : is_u32 v4 → to_ipv4_mapped (to_ipv6_mapped v4) = Some v4.
Proof.
  unfold is_u, u32_max. intros Hv. unfold to_ipv4_mapped, to_ipv6_mapped.
  rewrite Z.shiftr_div_pow2, Z.div_add_l, Z.div_small, Z.eqb_refl by lia. f_equal. unfold u32_max.
  change 4294967295 with (Z.ones 32). rewrite Z.land_ones by lia.
  by rewrite Z.add_comm, Z.mod_add, Z.mod_small by lia.
Qed.

(** ** The connection limiter *)

Record ConnectionLimiter := mkLimiter { counts : gmap IpAddr Z; max_per_ip : Z }.
Inductive ConnectionGuard := GuardFree | GuardOf (ip : IpAddr).

Definition limiter_new (max_per_ip : Z) : ConnectionLimiter := mkLimiter ∅ max_per_ip.
Definition set_count (l : ConnectionLimiter) (ip : IpAddr) (n : Z) : ConnectionLimiter :=
  mkLimiter (<[ip := n]> (counts l)) (max_per_ip l).

Definition try_acquire (l : ConnectionLimiter) (ip : IpAddr) : ConnectionLimiter * option ConnectionGuard :=
  if max_per_ip l =? 0 then (l, Some GuardFree)
  else
    let prev := default 0 (counts l !! ip) in
    let counted := set_count l ip (wrap32 (prev + 1)) in
    if max_per_ip l <=? prev then (set_count counted ip (wrap32 (wrap32 (prev + 1) - 1)), None)
    else (counted, Some (GuardOf ip)).

(** A guard drops: the decrement, and the address whose entry may be idle. *)
Definition drop_guard (l : ConnectionLimiter) (guard : ConnectionGuard) : ConnectionLimiter * option IpAddr :=
  match guard with
  | GuardFree => (l, None)
  | GuardOf ip =>
      match counts l !! ip with
      | None => (l, None)
      | Some prev => (set_count l ip (wrap32 (prev - 1)), if prev <=? 1 then Some ip else None)
      end
  end.
Definition remove_if_idle (l : ConnectionLimiter) (ip : IpAddr) : ConnectionLimiter :=
  if bool_decide (counts l !! ip = Some 0) then mkLimiter (delete ip (counts l)) (max_per_ip l) else l.

(** Connections: open under a guard, closing with an entry to look at, closed. *)
Inductive Connection := Open (guard : ConnectionGuard) | Closing (ip : IpAddr) | Closed.

#[export] Instance ConnectionGuard_eq_dec : EqDecision ConnectionGuard.
Proof. solve_decision. Defined.
#[export] Instance Connection_eq_dec : EqDecision Connection.
Proof. solve_decision. Defined.

Record Listening := mkListening { limiter : ConnectionLimiter; connections : list Connection }.

Inductive LimiterStep : Listening → Listening → Prop :=
  | step_accept l cs ip l' g : try_acquire l ip = (l', Some g) →
      LimiterStep (mkListening l cs) (mkListening l' (cs ++ [Open g]))
  | step_refuse l cs ip l' : try_acquire l ip = (l', None) →
      LimiterStep (mkListening l cs) (mkListening l' cs)
  | step_close l cs i g l' idle : cs !! i = Some (Open g) → drop_guard l g = (l', idle) →
      LimiterStep (mkListening l cs)
        (mkListening l' (<[i := match idle with Some ip => Closing ip | None => Closed end]> cs))
  | step_remove l cs i ip : cs !! i = Some (Closing ip) →
      LimiterStep (mkListening l cs) (mkListening (remove_if_idle l ip) (<[i := Closed]> cs)).

(** The connections open from an address. *)
Definition holds (ip : IpAddr) (c : Connection) : nat := if bool_decide (c = Open (GuardOf ip)) then 1 else 0.
Definition open_from (ip : IpAddr) (cs : list Connection) : nat := sum_list_with (holds ip) cs.

(** The map counts the open connections of each address, within the limit, and
    an entry that counts none is about to be removed. *)
Definition counts_open (s : Listening) : Prop :=
  ∀ ip, match counts (limiter s) !! ip with
        | Some n => n = Z.of_nat (open_from ip (connections s)) ∧ n ≤ max_per_ip (limiter s)
                    ∧ (n = 0 → Closing ip ∈ connections s)
        | None => open_from ip (connections s) = 0%nat
        end.

Lemma open_snoc ip cs c : open_from ip (cs ++ [c]) = (open_from ip cs + holds ip c)%nat.
Proof. unfold open_from. rewrite sum_list_with_app. cbn. lia. Qed.

Lemma open_insert ip cs i c c' : cs !! i = Some c →
  (open_from ip (<[i := c']> cs) + holds ip c = open_from ip cs + holds ip c')%nat.
Proof.
  intros Hi. apply lookup_lt_Some in Hi as Hl. rewrite insert_take_drop by done.
  rewrite <-(take_drop_middle cs i c Hi) at 3. unfold open_from. rewrite !sum_list_with_app. cbn. lia.
Qed.

Lemma holds_other ip c : (∀ ip', c ≠ Open (GuardOf ip')) → holds ip c = 0%nat.
Proof. intros Hc. unfold holds. by rewrite bool_decide_false. Qed.
Lemma holds_own ip : holds ip (Open (GuardOf ip)) = 1%nat.
Proof. unfold holds. by rewrite bool_decide_true. Qed.
Lemma holds_ne ip ip' : ip ≠ ip' → holds ip (Open (GuardOf ip')) = 0%nat.
Proof. intros Hne. unfold holds. rewrite bool_decide_false; congruence. Qed.

Lemma wrap32_small n : 0 ≤ n ≤ u32_max → wrap32 n = n.
Proof. unfold u32_max, wrap32. intros ?. apply Z.mod_small. lia. Qed.

Lemma elem_of_insert_other (cs : list Connection) i c c' x : cs !! i = Some c → x ∈ cs → x ≠ c → x ∈ <[i := c']> cs.
Proof.
  intros Hi [j Hj]%list_elem_of_lookup Hne. apply list_elem_of_lookup. exists j.
  rewrite list_lookup_insert_ne; [done|]. intros ->. congruence.
Qed.

Section steps.
Context (max : Z) (Hmax : 0 ≤ max ≤ u32_max).
#[local] Set Default Proof Using "All".

Definition limited (s : Listening) : Prop := max_per_ip (limiter s) = max ∧ counts_open s.

(** The entry of [ip] alone changes, and so does what is open from it. *)
Lemma limited_set l cs cs' ip n :
  limited (mkListening l cs) → n = Z.of_nat (open_from ip cs') → n ≤ max → (n = 0 → Closing ip ∈ cs') →
  (∀ ip', ip' ≠ ip → open_from ip' cs' = open_from ip' cs ∧ (Closing ip' ∈ cs → Closing ip' ∈ cs')) →
  limited (mkListening (set_count l ip n) cs').
Proof.
  intros [Hm Hc] Hn Hle H0 Hother. split; [done|]. intros ip'. cbn [limiter connections counts set_count max_per_ip].
  destruct (decide (ip' = ip)) as [->|Hne].
  - rewrite lookup_insert_eq. rewrite <-Hm in Hle. done.
  - rewrite lookup_insert_ne by done. specialize (Hc ip'). destruct (Hother ip' Hne) as [-> Hcl].
    cbn [limiter connections] in Hc. destruct (counts l !! ip'); naive_solver.
Qed.

Lemma accept_limited l cs ip l' g : limited (mkListening l cs) → try_acquire l ip = (l', Some g) →
  limited (mkListening l' (cs ++ [Open g])).
Proof.
  intros Hl. pose proof Hl as [Hm Hc]. specialize (Hc ip). cbn [limiter connections] in Hm, Hc. unfold try_acquire.
  destruct (Z.eqb_spec (max_per_ip l) 0) as [Hz|Hz].
  - intros [= <- <-]. split; [done|]. intros ip'. destruct Hl as [_ Hc']. specialize (Hc' ip').
    cbn [limiter connections] in *. rewrite open_snoc, holds_other, Nat.add_0_r by (intros ? [=]).
    destruct (counts l !! ip') as [n|]; [|done]. destruct Hc' as (? & ? & Hcl). split_and!; [done..|].
    intros Hn. apply elem_of_app. auto.
  - destruct (Z.leb_spec (max_per_ip l) (default 0 (counts l !! ip))) as [|Hlt]; [by intros [=]|]. intros [= <- <-].
    assert (default 0 (counts l !! ip) = Z.of_nat (open_from ip cs)) as Hp.
    { destruct (counts l !! ip); cbn; [apply Hc|]. by rewrite Hc. }
    eapply limited_set; [exact Hl|..].
    + rewrite open_snoc, holds_own, Hp, wrap32_small; lia.
    + rewrite wrap32_small; lia.
    + rewrite wrap32_small; lia.
    + intros ip' Hne. rewrite open_snoc, holds_ne, Nat.add_0_r by done. split; [done|]. rewrite elem_of_app. auto.
Qed.

Lemma refuse_limited l cs ip l' : limited (mkListening l cs) → try_acquire l ip = (l', None) →
  limited (mkListening l' cs).
Proof.
  intros Hl. pose proof Hl as [Hm Hc]. specialize (Hc ip). cbn [limiter connections] in Hm, Hc. unfold try_acquire.
  destruct (Z.eqb_spec (max_per_ip l) 0) as [Hz|Hz]; [by intros [=]|].
  destruct (Z.leb_spec (max_per_ip l) (default 0 (counts l !! ip))) as [Hle|]; [|by intros [=]]. intros [= <-].
  destruct (counts l !! ip) as [n|] eqn:En; cbn [default from_option id] in *; [|unfold u32_max in *; lia].
  destruct Hc as (Hn & Hnm & Hcl).
  assert (wrap32 (wrap32 (n + 1) - 1) = n) as ->.
  { unfold wrap32, u32_max in *. rewrite Zminus_mod_idemp_l. replace (n + 1 - 1) with n by lia. apply Z.mod_small. lia. }
  assert (set_count (set_count l ip (wrap32 (n + 1))) ip n = set_count l ip n) as ->.
  { unfold set_count. cbn [counts max_per_ip]. by rewrite insert_insert_eq. }
  eapply limited_set; [exact Hl|done|lia|exact Hcl|done].
Qed.

Lemma close_limited l cs i g l' idle : limited (mkListening l cs) → cs !! i = Some (Open g) →
  drop_guard l g = (l', idle) →
  limited (mkListening l' (<[i := match idle with Some ip => Closing ip | None => Closed end]> cs)).
Proof.
  intros Hl Hi. destruct g as [|ip]; cbn [drop_guard].
  - intros [= <- <-]. destruct Hl as [Hm Hc]. split; [done|]. intros ip. specialize (Hc ip). cbn [limiter connections] in *.
    pose proof (open_insert ip cs i (Open GuardFree) Closed Hi) as Ho. rewrite !holds_other in Ho by (intros ? [=]).
    rewrite !Nat.add_0_r in Ho. rewrite Ho. destruct (counts l !! ip) as [n|]; [|done].
    destruct Hc as (? & ? & Hcl). split_and!; [done..|]. intros Hn. eapply elem_of_insert_other; [done|auto|done].
  - pose proof Hl as [Hm Hc]. specialize (Hc ip). cbn [limiter connections] in Hm, Hc.
    set (c' := match idle with Some ip => Closing ip | None => Closed end).
    assert (∀ ip', holds ip' c' = 0%nat) as H0 by (intros ip'; apply holds_other; unfold c'; by destruct idle).
    pose proof (open_insert ip cs i _ c' Hi) as Ho. rewrite holds_own, H0 in Ho.
    destruct (counts l !! ip) as [n|] eqn:En; [|rewrite Hc in Ho; lia]. destruct Hc as (Hn & Hnm & _).
    intros [= <- Hidle]. assert (wrap32 (n - 1) = Z.of_nat (open_from ip (<[i := c']> cs))) as Hw.
    { rewrite wrap32_small; lia. }
    eapply limited_set; [exact Hl|exact Hw|lia| |].
    + rewrite Hw. intros Hz. apply list_elem_of_lookup. exists i. rewrite list_lookup_insert_eq by (by eapply lookup_lt_Some).
      unfold c'. rewrite <-Hidle. by destruct (Z.leb_spec n 1); [|lia].
    + intros ip' Hne. pose proof (open_insert ip' cs i _ c' Hi) as Ho'. rewrite holds_ne, H0 in Ho' by done.
      split; [lia|]. intros Hcl. eapply elem_of_insert_other; [done|done|done].
Qed.

Lemma remove_limited l cs i ip : limited (mkListening l cs) → cs !! i = Some (Closing ip) →
  limited (mkListening (remove_if_idle l ip) (<[i := Closed]> cs)).
Proof.
  intros [Hm Hc] Hi. split; [unfold remove_if_idle; cbn; by case_bool_decide|]. intros ip'.
  pose proof (open_insert ip' cs i _ Closed Hi) as Ho. rewrite !holds_other in Ho by (intros ? [=]). rewrite !Nat.add_0_r in Ho.
  specialize (Hc ip'). cbn [limiter connections] in *. rewrite Ho. unfold remove_if_idle.
  destruct (decide (ip' = ip)) as [->|Hne].
  - case_bool_decide as H0; cbn [counts max_per_ip].
    + rewrite lookup_delete_eq. rewrite H0 in Hc. lia.
    + destruct (counts l !! ip) as [n|]; [|done]. destruct Hc as (? & ? & _). split_and!; [done..|]. intros ->. done.
  - assert (∀ n, counts l !! ip' = Some n → n = 0 → Closing ip' ∈ cs → Closing ip' ∈ <[i:=Closed]> cs) as Hk.
    { intros n _ _ Hcl. eapply elem_of_insert_other; [done|done|congruence]. }
    case_bool_decide; cbn [counts max_per_ip]; [rewrite lookup_delete_ne by done|];
      destruct (counts l !! ip') as [n|]; naive_solver.
Qed.

Lemma step_limited s s' : LimiterStep s s' → limited s → limited s'.
Proof.
  intros [] Hl; eauto using accept_limited, refuse_limited, close_limited, remove_limited.
Qed.
End steps.

(** C24: However the listeners' threads interleave, no address ever has more
    connections open than the limit; the map counts them exactly, so a
    connection below the limit is accepted and one at it refused; and once all
    are closed the map is empty, so an address that is gone leaves nothing. *)
Theorem connections_are_limited max s : 0 ≤ max ≤ u32_max →
  rtc LimiterStep (mkListening (limiter_new max) []) s →
  (∀ ip, 0 < max → Z.of_nat (open_from ip (connections s)) ≤ max
     ∧ (is_Some (try_acquire (limiter s) ip).2 ↔ Z.of_nat (open_from ip (connections s)) < max))
  ∧ (Forall (λ c, c = Closed) (connections s) → counts (limiter s) = ∅).
Proof.
  intros Hmax Hsteps. assert (limited max s) as [Hm Hc].
  { assert (limited max (mkListening (limiter_new max) [])) as Hl by (split; [done|]; intros ip; done).
    revert Hl. induction Hsteps as [|s1 s2 s3 Hs _ IH]; [done|]. intros Hl. eapply IH, step_limited; done. }
  split.
  - intros ip Hpos. specialize (Hc ip). unfold try_acquire. rewrite (proj2 (Z.eqb_neq _ _)) by lia.
    assert (Z.of_nat (open_from ip (connections s)) ≤ max
      ∧ default 0 (counts (limiter s) !! ip) = Z.of_nat (open_from ip (connections s))) as [Hle Hp].
    { destruct (counts (limiter s) !! ip); cbn; [destruct Hc as (-> & ? & _)|rewrite Hc]; lia. }
    split; [done|]. rewrite Hp, Hm. destruct (Z.leb_spec max (Z.of_nat (open_from ip (connections s)))) as [Hge|Hlt]; cbn.
    + split; [by intros []|lia].
    + split; [done|by eexists].
  - intros Hall. apply map_eq. intros ip. rewrite lookup_empty. specialize (Hc ip).
    destruct (counts (limiter s) !! ip) as [n|]; [|done].
    assert (open_from ip (connections s) = 0%nat) as H0.
    { clear Hc. induction Hall as [|c cs ->]; [done|]. cbn. unfold open_from in IHHall. by rewrite IHHall. }
    destruct Hc as (Hn & _ & Hcl). rewrite H0 in Hn. specialize (Hcl Hn).
    rewrite Forall_forall in Hall. by specialize (Hall _ Hcl).
Qed.

Definition demo_ip : IpAddr := V4 0xC0A80101.
Definition demo_listening : Listening :=
  mkListening (mkLimiter {[ demo_ip := 1 ]} 2) [Open (GuardOf demo_ip); Closed].

Lemma connections_are_limited_witness :
  rtc LimiterStep (mkListening (limiter_new 2) []) demo_listening
  ∧ Z.of_nat (open_from demo_ip (connections demo_listening)) ≤ 2
  ∧ is_Some (try_acquire (limiter demo_listening) demo_ip).2.
Proof.
  assert (Hs : rtc LimiterStep (mkListening (limiter_new 2) []) demo_listening).
  { eapply rtc_l; [apply (step_accept _ _ demo_ip); vm_compute; reflexivity|].
    eapply rtc_l; [apply (step_accept _ _ demo_ip); vm_compute; reflexivity|].
    eapply rtc_l; [apply (step_close _ _ 1 (GuardOf demo_ip)); [reflexivity|vm_compute; reflexivity]|]. apply rtc_refl. }
  split; [exact Hs|].
  destruct (connections_are_limited 2 demo_listening ltac:(unfold u32_max; lia) Hs) as [Hl _].
  destruct (Hl demo_ip ltac:(lia)) as [Hle Hacc]. split; [exact Hle|]. apply Hacc. vm_compute. reflexivity.
Defined.

(** ** The client of a DoH request *)

(** A forwarded address: an IP, [ip:port] or [[v6]:port]. *)
Definition parse_forwarded_ip (text : str) : option IpAddr :=
  let text := trim text in
  to_canonical <$> match parse_ip text with
                   | Some ip => Some ip
                   | None => sa_ip <$> parse_socket text
                   end.

(** The headers as received; a value that is not text is [None]. *)
Record Headers := mkHeaders { x_forwarded_for : list (option str); x_real_ip : option (option str) }.

Section doh.
Context `{Networks}.

Definition is_trusted (trusted : list IpNetwork) (ip : IpAddr) : bool := existsb (λ net, net_contains net ip) trusted.

(** The hops from the nearest to the farthest. *)
Definition hops (headers : Headers) : list str :=
  concat ((λ value, rev (split 44 (default [] value))) <$> rev (x_forwarded_for headers)).

Fixpoint walk_hops (trusted : list IpNetwork) (client : IpAddr) (hops : list str) : IpAddr :=
  match hops with
  | [] => client
  | hop :: hops =>
      match parse_forwarded_ip hop with
      | None => client
      | Some ip => if is_trusted trusted ip then walk_hops trusted ip hops else ip
      end
  end.

Definition client_ip (peer : IpAddr) (headers : Headers) (trusted : list IpNetwork) : IpAddr :=
  let peer := to_canonical peer in
  if negb (is_trusted trusted peer) then peer
  else if bool_decide (hops headers = []) then
    default peer (x_real_ip headers ≫= (λ value, value ≫= parse_forwarded_ip))
  else walk_hops trusted peer (hops headers).

(** *** Specification

    The chain of addresses a request came through, nearest first: the peer and
    the hops before the first that is not an address.  The client is the first
    of them that is not a trusted proxy, or else the last. *)

Fixpoint addresses_of (hops : list str) : list IpAddr :=
  match hops with
  | [] => []
  | hop :: hops => match parse_forwarded_ip hop with Some ip => ip :: addresses_of hops | None => [] end
  end.

Fixpoint first_untrusted (trusted : list IpNetwork) (nearest : IpAddr) (chain : list IpAddr) : IpAddr :=
  if is_trusted trusted nearest
  then match chain with [] => nearest | ip :: chain => first_untrusted trusted ip chain end
  else nearest.

Lemma walk_hops_eq trusted hops : ∀ nearest, is_trusted trusted nearest = true →
  walk_hops trusted nearest hops = first_untrusted trusted nearest (addresses_of hops).
Proof.
  induction hops as [|hop hops IH]; intros nearest Hn; cbn [walk_hops addresses_of]; [cbn; by rewrite Hn|].
  destruct (parse_forwarded_ip hop) as [ip|]; cbn [first_untrusted]; rewrite Hn; [|done].
  destruct (is_trusted trusted ip) eqn:E; [by apply IH|]. destruct (addresses_of hops); cbn; by rewrite E.
Qed.

Lemma first_untrusted_app trusted before ip : ∀ nearest after,
  Forall (λ a, is_trusted trusted a = true) (nearest :: before) → is_trusted trusted ip = false →
  first_untrusted trusted nearest (before ++ ip :: after) = ip.
Proof.
  induction before as [|a before IH]; intros nearest after [Hn Hb]%Forall_cons Hip; cbn; rewrite Hn.
  - destruct after; cbn; by rewrite Hip.
  - by apply IH.
Qed.

(** C25: The client of a DoH request is the nearest address of its chain that is
    not a trusted proxy, or the farthest when all are, or the peer's
    [X-Real-IP] when no hop is named. So a client that a trusted proxy reports
    is the client whatever it wrote itself: nothing it adds to the chain behind
    its own address changes the outcome, and an untrusted peer names no one. *)
Theorem clients_name_only_themselves peer headers trusted :
  client_ip peer headers trusted
  = (let chain := addresses_of (hops headers) in
     if is_trusted trusted (to_canonical peer) && bool_decide (hops headers = [])
     then default (to_canonical peer) (x_real_ip headers ≫= (λ value, value ≫= parse_forwarded_ip))
     else first_untrusted trusted (to_canonical peer) chain)
  ∧ (is_trusted trusted (to_canonical peer) = false → client_ip peer headers trusted = to_canonical peer)
  ∧ ∀ before ip forged, addresses_of (hops headers) = before ++ ip :: forged →
      Forall (λ a, is_trusted trusted a = true) (to_canonical peer :: before) → is_trusted trusted ip = false →
      client_ip peer headers trusted = ip.
Proof.
  assert (client_ip peer headers trusted
    = (let chain := addresses_of (hops headers) in
       if is_trusted trusted (to_canonical peer) && bool_decide (hops headers = [])
       then default (to_canonical peer) (x_real_ip headers ≫= (λ value, value ≫= parse_forwarded_ip))
       else first_untrusted trusted (to_canonical peer) chain)) as He.
  { unfold client_ip. cbv zeta. destruct (is_trusted trusted (to_canonical peer)) eqn:Et; cbn [negb andb].
    - case_bool_decide; [done|]. by apply walk_hops_eq.
    - destruct (addresses_of _); cbn; by rewrite Et. }
  split; [exact He|]. rewrite He. cbv zeta. split.
  - intros Ht. rewrite Ht. cbn [andb]. destruct (addresses_of _); cbn; by rewrite Ht.
  - intros before ip forged Hc Hb Hip. rewrite bool_decide_false, andb_false_r.
    + rewrite Hc. by apply first_untrusted_app.
    + intros Hn. rewrite Hn in Hc. by destruct before.
Qed.
End doh.

(** Networks of one address. *)
Definition host_networks : Networks := {|
  IpNetwork := IpAddr;
  net_parse s := match parse_ip s with Some ip => inr ip | None => inl s end;
  net_new ip _ := inr ip;
  net_network n := n;
  net_prefix n := match n with V4 _ => 32 | V6 _ => 128 end;
  net_contains n ip := bool_decide (n = ip);
|}.

(** The client 203.0.113.9 sends a header of its own through the proxy 10.0.0.1. *)
Lemma clients_name_only_themselves_witness :
  let proxy := V4 0x0A000001 in
  let headers := mkHeaders [Some (of_string "127.0.0.1, 203.0.113.9")] None in
  addresses_of (hops headers) = [V4 0xCB007109; V4 0x7F000001]
  ∧ client_ip (H := host_networks) (V6 (to_ipv6_mapped 0x0A000001)) headers [proxy] = V4 0xCB007109.
Proof.
  intros proxy headers. assert (Ha : addresses_of (hops headers) = [V4 0xCB007109; V4 0x7F000001])
    by (vm_compute; reflexivity). split; [exact Ha|].
  destruct (clients_name_only_themselves (H := host_networks) (V6 (to_ipv6_mapped 0x0A000001)) headers [proxy])
    as (_ & _ & Hc).
  apply (Hc [] (V4 0xCB007109) [V4 0x7F000001] Ha); [repeat constructor; vm_compute; reflexivity|vm_compute; reflexivity].
Defined.
