(* ===== verification/BlockEngine.v ===== *)
(** The block filter in service: [infrastructure/src/dns/block_filter/engine.rs].

    A check asks the decision caches, then the index, and applies the tiers:
    manual rules, the blocking toggle, schedule overrides, downloaded lists.
    Each operation reads the coarse clock once ([now]); an atomic or a lock is
    one step of the state. *)

From Stdlib Require Import String.
From S2P Require Import Prelude Errors Text Net Float64 CacheRecord CacheBloom SuffixTrie BlockIndex.
From S2P Require Import BlockList Schedule BlockDecision SubnetMatcher.

#[local] Set Default Proof Using "Type".

#[export] Instance IpAddr_countable : Countable IpAddr.
Proof.
  refine (inj_countable' (λ ip, match ip with V4 a => inl a | V6 a => inr a end)
    (λ s, match s with inl a => V4 a | inr a => V6 a end) _). by intros [].
Defined.

Inductive FilterDecision := FdBlock (s : BlockSource) | FdAllow | FdExplicitAllow.

#[export] Instance FilterDecision_eq_dec : EqDecision FilterDecision.
Proof. solve_decision. Defined.

(** The tiers of a check. *)
Definition filter_decision (verdict : Verdict) (blocking_enabled : bool)
    (schedule_override : option GroupOverride) (now : Z) : FilterDecision :=
  match verdict with
  | ManualAllow => FdExplicitAllow
  | ManualDeny source => FdBlock source
  | Block _ | NoMatch =>
      if negb blocking_enabled then FdAllow
      else
        let lists := match verdict with Block source => FdBlock source | _ => FdAllow end in
        match schedule_override with
        | Some OvBlockAll => FdBlock Source.Schedule
        | Some OvAllowAll => FdAllow
        | Some (TimedBypassUntil t) => if now <? t then FdAllow else lists
        | Some (TimedBlockUntil t) => if now <? t then FdBlock Source.Schedule else lists
        | None => lists
        end
  end.

Section engine.
Context `{Matchers, MembershipGate, IterOrder, LruMaps, Networks}.
Context (to_lowercase : str → str) (bloom_of : Z → gate).
(** [ahash] of a name and a group; [str::parse::<IpAddr>]. *)
Context (decision_key : str → Z → Z) (parse_ip : str → option IpAddr).

Abbreviation GroupL0 := (lmap IpAddr (Z * Z * Z) _).

Record BlockFilterEngine := mkEngine {
  eng_index : BlockIndex;
  reload_tickets : Z;
  published_ticket : Z;
  held_lists : HeldLists;
  decisions : DecisionCaches;
  group_epoch : Z;
  group_l0 : nat → GroupL0;
  client_groups : gmap IpAddr Z;
  subnet_matcher : option SubnetMatcher;
  schedule_state : Overrides;
  blocking_enabled : bool;
  default_group_id : Z;
}.

Definition engine_new (default_group_id : Z) (blocking_enabled : bool) : BlockFilterEngine :=
  mkEngine (index_empty (bloom_of 1000)) 0 0 ∅ caches_new 0 (λ _, lm_new 256) ∅ None ∅
    blocking_enabled default_group_id.

Definition with_decisions (e : BlockFilterEngine) (c : DecisionCaches) : BlockFilterEngine :=
  mkEngine (eng_index e) (reload_tickets e) (published_ticket e) (held_lists e) c (group_epoch e)
    (group_l0 e) (client_groups e) (subnet_matcher e) (schedule_state e) (blocking_enabled e)
    (default_group_id e).
Definition with_overrides (e : BlockFilterEngine) (s : Overrides) : BlockFilterEngine :=
  mkEngine (eng_index e) (reload_tickets e) (published_ticket e) (held_lists e) (decisions e)
    (group_epoch e) (group_l0 e) (client_groups e) (subnet_matcher e) s (blocking_enabled e)
    (default_group_id e).
Definition with_clients (e : BlockFilterEngine) (m : gmap IpAddr Z) (s : option SubnetMatcher) :=
  mkEngine (eng_index e) (reload_tickets e) (published_ticket e) (held_lists e) (decisions e)
    (group_epoch e) (group_l0 e) m s (schedule_state e) (blocking_enabled e) (default_group_id e).
Definition with_group_l0 (e : BlockFilterEngine) (thread : nat) (m : GroupL0) : BlockFilterEngine :=
  mkEngine (eng_index e) (reload_tickets e) (published_ticket e) (held_lists e) (decisions e)
    (group_epoch e) (λ t, if decide (t = thread) then m else group_l0 e t) (client_groups e)
    (subnet_matcher e) (schedule_state e) (blocking_enabled e) (default_group_id e).

Definition set_blocking_enabled (e : BlockFilterEngine) (enabled : bool) : BlockFilterEngine :=
  mkEngine (eng_index e) (reload_tickets e) (published_ticket e) (held_lists e) (decisions e)
    (group_epoch e) (group_l0 e) (client_groups e) (subnet_matcher e) (schedule_state e) enabled
    (default_group_id e).

(** ** Reloading *)

Definition issue_reload_ticket (e : BlockFilterEngine) : Z * BlockFilterEngine :=
  let tickets := wrap64 (reload_tickets e + 1) in
  (tickets, mkEngine (eng_index e) tickets (published_ticket e) (held_lists e) (decisions e)
    (group_epoch e) (group_l0 e) (client_groups e) (subnet_matcher e) (schedule_state e)
    (blocking_enabled e) (default_group_id e)).

(** The new index in service, and no verdict of the old one. *)
Definition publish (e : BlockFilterEngine) (index : BlockIndex) (lists : HeldLists) (covered : Z)
    : BlockFilterEngine :=
  mkEngine index (reload_tickets e) covered lists (decision_l0_clear (caches_clear (decisions e)))
    (group_epoch e) (group_l0 e) (client_groups e) (subnet_matcher e) (schedule_state e)
    (blocking_enabled e) (default_group_id e).

(** Under the build lock: whether to build, then the build itself, which
    covers the tickets issued when it starts. *)
Definition rebuild_needed (e : BlockFilterEngine) (ticket : Z) (fetch : ListFetch) : bool :=
  negb (bool_decide (fetch = ReuseHeld) && (ticket <=? published_ticket e)).

Definition rebuild_from (e : BlockFilterEngine) (covered : Z) (fetch : ListFetch) (db : Database)
    (download : str → option str) (at_ : str) : (DomainError + unit) * BlockFilterEngine :=
  match (compile_block_index to_lowercase bloom_of db download (held_lists e) fetch at_).1 with
  | inl err => (inl err, e)
  | inr built => (inr tt, publish e built.1 built.2 covered)
  end.

Definition rebuild_through (e : BlockFilterEngine) (ticket : Z) (fetch : ListFetch) (db : Database)
    (download : str → option str) (at_ : str) : (DomainError + unit) * BlockFilterEngine :=
  if rebuild_needed e ticket fetch then rebuild_from e (reload_tickets e) fetch db download at_
  else (inr tt, e).

(** [reload] and [refresh_lists], when no other build runs in between. *)
Definition reload (e : BlockFilterEngine) (fetch : ListFetch) (db : Database)
    (download : str → option str) (at_ : str) : (DomainError + unit) * BlockFilterEngine :=
  let '(ticket, e) := issue_reload_ticket e in
  rebuild_through e ticket fetch db download at_.

(** ** Client groups *)

Definition resolve_group_uncached (e : BlockFilterEngine) (ip : IpAddr) : Z :=
  match client_groups e !! ip with
  | Some gid => gid
  | None => default (default_group_id e) (m ← subnet_matcher e; find_group_for_ip m ip)
  end.

Definition resolve_group (e : BlockFilterEngine) (thread : nat) (ip : IpAddr) (now : Z)
    : Z * BlockFilterEngine :=
  let current_epoch := group_epoch e in
  let '(found, m) := lm_get (group_l0 e thread) ip in
  let miss (m : GroupL0) :=
    let gid := resolve_group_uncached e ip in
    (gid, with_group_l0 e thread (lm_put m ip (gid, wrap64 (now + 60), current_epoch))) in
  match found with
  | Some (gid, expires, epoch) =>
      if (epoch =? current_epoch) && (now <? expires) then (gid, with_group_l0 e thread m)
      else miss (lm_pop m ip)
  | None => miss m
  end.

Definition client_map (rows : list (str * Z)) : gmap IpAddr Z :=
  foldl (λ m row, match parse_ip row.1 with Some ip => <[ip := row.2]> m | None => m end) ∅ rows.

(** The rows of [clients] with a group, then of [client_subnets], longest
    text first. *)
Definition load_client_groups_inner (e : BlockFilterEngine) (client_rows : string + list (str * Z))
    (subnet_rows : string + list ClientSubnet) : (DomainError + unit) * BlockFilterEngine :=
  match client_rows with
  | inl err => (inl (Error.DatabaseError err), e)
  | inr clients =>
      let e := with_clients e (client_map clients) (subnet_matcher e) in
      match subnet_rows with
      | inl err => (inl (Error.DatabaseError err), e)
      | inr rows =>
          let matcher := match matcher_new rows with inr m => Some m | inl _ => None end in
          (inr tt, with_clients e (client_groups e) matcher)
      end
  end.

Definition load_client_groups (e : BlockFilterEngine) (client_rows : string + list (str * Z))
    (subnet_rows : string + list ClientSubnet) : (DomainError + unit) * BlockFilterEngine :=
  match load_client_groups_inner e client_rows subnet_rows with
  | (inl err, e) => (inl err, e)
  | (inr _, e) =>
      (inr tt, mkEngine (eng_index e) (reload_tickets e) (published_ticket e) (held_lists e)
        (decision_l0_clear (caches_clear (decisions e))) (wrap64 (group_epoch e + 1)) (group_l0 e)
        (client_groups e) (subnet_matcher e) (schedule_state e) (blocking_enabled e)
        (default_group_id e))
  end.

(** ** Checking a name *)

(** What the caches say, unless they are to be skipped. *)
Definition cached_verdict (e : BlockFilterEngine) (thread : nat) (key : Z) (skip_cache : bool) (now : Z)
    : option Verdict * BlockFilterEngine :=
  if skip_cache then (None, e)
  else
    match decision_l0_get_by_key (decisions e) thread key now with
    | (Some cached, c) => (Some cached, with_decisions e c)
    | (None, c) =>
        match get_by_key c key now with
        | (Some (cached, expires_at), c) =>
            (Some cached, with_decisions e (decision_l0_set_by_key c thread key cached expires_at))
        | (None, c) => (None, with_decisions e c)
        end
    end.

Definition store_verdict (e : BlockFilterEngine) (thread : nat) (key : Z) (verdict : Verdict)
    (ttl_secs now : Z) : BlockFilterEngine :=
  let '(expires_at, c) := set_by_key_with_ttl (decisions e) key verdict ttl_secs now in
  with_decisions e (decision_l0_set_by_key c thread key verdict expires_at).

Definition resolve_verdict (e : BlockFilterEngine) (thread : nat) (domain : str) (group_id key : Z)
    (skip_cache : bool) (now : Z) : Verdict * BlockFilterEngine :=
  match cached_verdict e thread key skip_cache now with
  | (Some cached, e) => (cached, e)
  | (None, e) =>
      let verdict := evaluate (eng_index e) domain group_id in
      (verdict, store_verdict e thread key verdict TTL_SECS now)
  end.

Definition skip_decision_cache (o : option GroupOverride) (now : Z) : bool :=
  match o with Some (TimedBypassUntil t) => t <=? now | _ => false end.

Definition filter_check (e : BlockFilterEngine) (thread : nat) (domain : str) (group_id now : Z)
    : FilterDecision * BlockFilterEngine :=
  let schedule_override := store_get (schedule_state e) group_id in
  let skip := skip_decision_cache schedule_override now in
  let key := decision_key domain group_id in
  let '(verdict, e) := resolve_verdict e thread domain group_id key skip now in
  (filter_decision verdict (blocking_enabled e) schedule_override now, e).

Definition store_cname_decision (e : BlockFilterEngine) (thread : nat) (domain : str)
    (group_id ttl_secs now : Z) : BlockFilterEngine :=
  store_verdict e thread (decision_key domain group_id) (Block Source.CnameCloaking) ttl_secs now.

Definition engine_explain (e : BlockFilterEngine) (domain : str) (group_id : Z) : FilterExplanation :=
  explain (eng_index e) domain group_id.
Definition compiled_domain_count (e : BlockFilterEngine) : nat := total_blocked_domains (eng_index e).

(** ** Trying a candidate list *)

(** [Regex::new] of each, the first that does not compile being the error. *)
Fixpoint compile_candidates (regexes : list str) : str + list Regex :=
  match regexes with
  | [] => inr []
  | p :: rest =>
      match regex_new (of_string "(?i)" ++ p) with
      | None => inl p
      | Some re =>
          match compile_candidates rest with
          | inl e => inl e
          | inr res => inr (re :: res)
          end
      end
  end.

Definition candidate_entry (acc : gset str * SuffixTrie * list str) (entry : ParsedEntry)
    : gset str * SuffixTrie * list str :=
  let '(ex, suffixes, patterns) := acc in
  match entry with
  | Exact domain => ({[domain]} ∪ ex, suffixes, patterns)
  | Wildcard pattern => (ex, (insert_wildcard suffixes pattern 1).1, patterns)
  | DomainAndSubdomains domain => ({[domain]} ∪ ex, (insert_wildcard suffixes domain 1).1, patterns)
  | Pattern pattern => (ex, suffixes, patterns ++ [pattern])
  end.

Definition match_candidate (domains list_lines regexes : list str) : str + list bool :=
  let entries := parse_list_text to_lowercase (join [10] list_lines) in
  let '(ex, suffixes, patterns) := foldl candidate_entry (∅, trie_default, []) entries in
  let substrings := match patterns with [] => None | _ => ac_build patterns end in
  match compile_candidates regexes with
  | inl p => inl p
  | inr compiled =>
      inr ((λ d,
        let domain := to_ascii_lowercase d in
        bool_decide (domain ∈ ex)
        || negb (trie_lookup suffixes domain =? 0)
        || match substrings with Some ac => ac_is_match ac domain | None => false end
        || existsb (λ re, default false (regex_is_match re domain)) compiled) <$> domains)
  end.

(** ** Operations *)

Inductive EngineOp :=
  | OpCheck (domain : str) (group_id : Z)
  | OpStoreCname (domain : str) (group_id ttl_secs : Z)
  | OpReload (fetch : ListFetch) (db : Database) (download : str → option str) (at_ : str)
  | OpLoadGroups (client_rows : string + list (str * Z)) (subnet_rows : string + list ClientSubnet)
  | OpResolve (ip : IpAddr)
  | OpSetBlocking (enabled : bool)
  | OpSetOverride (group_id : Z) (o : GroupOverride)
  | OpClearOverride (group_id : Z)
  | OpSweep.

(** An operation of a thread, at a reading of the clock. *)
Definition engine_step (e : BlockFilterEngine) (s : nat * Z * EngineOp) : BlockFilterEngine :=
  let '(thread, now, op) := s in
  match op with
  | OpCheck domain group_id => (filter_check e thread domain group_id now).2
  | OpStoreCname domain group_id ttl => store_cname_decision e thread domain group_id ttl now
  | OpReload fetch db download at_ => (reload e fetch db download at_).2
  | OpLoadGroups clients subnets => (load_client_groups e clients subnets).2
  | OpResolve ip => (resolve_group e thread ip now).2
  | OpSetBlocking enabled => set_blocking_enabled e enabled
  | OpSetOverride group_id o => with_overrides e (store_set (schedule_state e) group_id o)
  | OpClearOverride group_id => with_overrides e (store_clear (schedule_state e) group_id)
  | OpSweep => with_overrides e (sweep_expired (schedule_state e) now)
  end.

Definition engine_run (e : BlockFilterEngine) (ops : list (nat * Z * EngineOp)) : BlockFilterEngine :=
  foldl engine_step e ops.

End engine.
