(* ===== verification/QueryHandler.v ===== *)
(** A client's query: [application/src/use_cases/dns/handle_dns_query.rs].

    The handler is a program over the server's state with errors ([M]); its
    ports are the interfaces [FilterPort] and [ResolverPort].  The clocks are
    read once for a query.  The block filter's engine is an instance of the
    first; small ports serve the examples. *)

From Stdlib Require Import String.
From S2P Require Import Prelude Errors Text DropCounter Net RateLimiter Float64 Heuristics Guards CookieGuard BlockDecision BlockEngine CacheBloom BlockIndex BlockList SubnetMatcher.

#[local] Set Default Proof Using "Type".

(** ** Requests and the log *)

Record DnsRequest := mkRequest {
  rq_domain : str;
  rq_record_type : RecordType;
  rq_client_ip : IpAddr;
  rq_edns_cookie : option EdnsCookie;
  rq_checking_disabled : bool;
  rq_protocol : option ClientProtocol;
}.

Inductive QuerySource := SrcClient | SrcInternal | SrcDnssecValidation.

(** Without the fields the handler leaves at their default ([id],
    [client_hostname], [cache_refresh], [timestamp]). *)
Record QueryLog := mkLog {
  ql_domain : str;
  ql_record_type : RecordType;
  ql_client_ip : IpAddr;
  ql_blocked : bool;
  ql_response_time_us : option Z;
  ql_cache_hit : bool;
  ql_dnssec_status : option DnssecStatus;
  ql_dns64_synthesized : bool;
  ql_answers : option (list IpAddr);
  ql_upstream_server : option str;
  ql_upstream_pool : option str;
  ql_response_status : option string;
  ql_query_source : QuerySource;
  ql_protocol : option ClientProtocol;
  ql_group_id : option Z;
  ql_block_source : option BlockSource;
  ql_coalesced : option CoalescedRole;
  ql_cookie : option CookieStatus;
}.

(** The struct updates the handler writes. *)
Definition log_block (status : string) (source : BlockSource) (q : QueryLog) : QueryLog :=
  {| ql_domain := ql_domain q; ql_record_type := ql_record_type q; ql_client_ip := ql_client_ip q;
     ql_blocked := true; ql_response_time_us := ql_response_time_us q; ql_cache_hit := ql_cache_hit q;
     ql_dnssec_status := ql_dnssec_status q; ql_dns64_synthesized := ql_dns64_synthesized q;
     ql_answers := ql_answers q; ql_upstream_server := ql_upstream_server q;
     ql_upstream_pool := ql_upstream_pool q; ql_response_status := Some status;
     ql_query_source := ql_query_source q; ql_protocol := ql_protocol q; ql_group_id := ql_group_id q;
     ql_block_source := Some source; ql_coalesced := ql_coalesced q; ql_cookie := ql_cookie q |}.

(** What an answer adds: where it came from, its status and what it says. *)
Definition log_answer (status : string) (hit : bool) (dnssec : option DnssecStatus) (dns64 : bool)
    (answers : option (list IpAddr)) (server pool : option str) (coalesced : option CoalescedRole)
    (q : QueryLog) : QueryLog :=
  {| ql_domain := ql_domain q; ql_record_type := ql_record_type q; ql_client_ip := ql_client_ip q;
     ql_blocked := ql_blocked q; ql_response_time_us := ql_response_time_us q; ql_cache_hit := hit;
     ql_dnssec_status := dnssec; ql_dns64_synthesized := dns64; ql_answers := answers;
     ql_upstream_server := server; ql_upstream_pool := pool; ql_response_status := Some status;
     ql_query_source := ql_query_source q; ql_protocol := ql_protocol q; ql_group_id := ql_group_id q;
     ql_block_source := ql_block_source q; ql_coalesced := coalesced; ql_cookie := ql_cookie q |}.

Definition log_status (status : string) (q : QueryLog) : QueryLog :=
  log_answer status (ql_cache_hit q) (ql_dnssec_status q) (ql_dns64_synthesized q) (ql_answers q)
    (ql_upstream_server q) (ql_upstream_pool q) (ql_coalesced q) q.

Record TunnelingEvent := mkTunnelingEvent {
  te_domain : str; te_record_type : RecordType; te_client_ip : IpAddr; te_was_nxdomain : bool;
}.
Record DgaEvent := mkDgaEvent { de_domain : str; de_client_ip : IpAddr }.

(** ** Ports *)

(** The block filter, over its own state; the last argument is its clock. *)
Class FilterPort := {
  filter_state : Type;
  port_resolve_group : filter_state → IpAddr → Z → filter_state * Z;
  port_check : filter_state → str → Z → Z → filter_state * FilterDecision;
  port_store_cname : filter_state → str → Z → Z → Z → filter_state;
}.

(** The resolver.  Looking up by name is looking up the query of that name, as
    the trait's default body says; an answer that relays an upstream's NXDOMAIN
    has no addresses, as [DnsResolution::upstream_nxdomain] says. *)
Class ResolverPort := {
  resolver_state : Type;
  port_try_cache : resolver_state → DnsQuery → resolver_state * option DnsResolution;
  port_try_cache_str : resolver_state → str → RecordType → option Z → resolver_state * option DnsResolution;
  port_resolve : resolver_state → DnsQuery → resolver_state * (DomainError + DnsResolution);
  try_cache_str_eq : ∀ s d t g, port_try_cache_str s d t g = port_try_cache s (mkQuery d t g);
  cached_nxdomain_empty : ∀ s q r, (port_try_cache s q).2 = Some r →
    r_upstream_nxdomain r = true → r_addresses r = [];
}.

(** The clocks: monotonic nanoseconds, Unix seconds, the filter's seconds, and
    the microseconds since the query arrived. *)
Record Clocks := mkClocks { now_ns : Z; unix_secs : Z; filter_secs : Z; elapsed : Z }.

Record Screening := mkScreening { sc_group_id : Z; sc_cloaking : bool; sc_detectors : bool }.

Inductive NameHit := HitTunneling (signal : string) | HitDga (signal : string).

(** ** Outcomes *)

Inductive result (A : Type) := Ok (a : A) | Err (e : DomainError) | Panic (c : crash).
Arguments Ok {A} _.
Arguments Err {A} _.
Arguments Panic {A} _.

Section handler.
Context `{FilterPort, ResolverPort, LruMaps, Hmac} (log2 : f32 → f32).

(** The parts that do not change while the server runs. *)
Record HandleDnsQueryUseCase := mkUseCase {
  safe_search : option (str → Z → option str);
  client_tracking : option Z;
  rebinding_guard : option RebindingGuard;
  tunneling_guard : TunnelingGuard;
  tunneling_events : bool;
  tunneling_flags : option (str → bool);
  nxdomain_hijack_guard : IpGuard;
  response_ip_filter_guard : IpGuard;
  dga_guard : DgaGuard;
  dga_events : bool;
  dga_flags : option (str → bool);
  malware_exemptions : option (Z → bool);
  dnssec_enforce : bool;
  dns64_prefix : option Z;
  log_queries : bool;
}.

(** The parts that do.  The log, the events and the updates are what has been
    handed to their channels, which may drop it. *)
Record Server := mkServer {
  sv_filter : filter_state;
  sv_resolver : resolver_state;
  sv_limiter : DnsRateLimiter;
  sv_cookies : option DnsCookieGuard;
  sv_admission : option UpstreamAdmission;
  sv_last_seen : lmap IpAddr Z _;
  sv_seen : list IpAddr;
  sv_log : list QueryLog;
  sv_tunneling : list TunnelingEvent;
  sv_dga : list DgaEvent;
}.

Definition M (A : Type) : Type := Server → result A * Server.
#[export] Instance M_ret : MRet M := λ A a s, (Ok a, s).
#[export] Instance M_bind : MBind M := λ A B f m s,
  match m s with
  | (Ok a, s) => f a s
  | (Err e, s) => (Err e, s)
  | (Panic c, s) => (Panic c, s)
  end.

Definition fails {A} (e : DomainError) : M A := λ s, (Err e, s).
Definition ask : M Server := λ s, (Ok s, s).
Definition lift {A} (o : outcome A) : M A := λ s,
  match o with Ret a => (Ok a, s) | Decline => (Panic Panicked, s) | Crash c => (Panic c, s) end.

Definition set_filter (f : filter_state) (s : Server) : Server :=
  mkServer f (sv_resolver s) (sv_limiter s) (sv_cookies s) (sv_admission s) (sv_last_seen s) (sv_seen s)
    (sv_log s) (sv_tunneling s) (sv_dga s).
Definition set_resolver (r : resolver_state) (s : Server) : Server :=
  mkServer (sv_filter s) r (sv_limiter s) (sv_cookies s) (sv_admission s) (sv_last_seen s) (sv_seen s)
    (sv_log s) (sv_tunneling s) (sv_dga s).
Definition set_limiter (l : DnsRateLimiter) (s : Server) : Server :=
  mkServer (sv_filter s) (sv_resolver s) l (sv_cookies s) (sv_admission s) (sv_last_seen s) (sv_seen s)
    (sv_log s) (sv_tunneling s) (sv_dga s).
Definition set_cookies (g : DnsCookieGuard) (s : Server) : Server :=
  mkServer (sv_filter s) (sv_resolver s) (sv_limiter s) (Some g) (sv_admission s) (sv_last_seen s) (sv_seen s)
    (sv_log s) (sv_tunneling s) (sv_dga s).
Definition set_admission (a : UpstreamAdmission) (s : Server) : Server :=
  mkServer (sv_filter s) (sv_resolver s) (sv_limiter s) (sv_cookies s) (Some a) (sv_last_seen s) (sv_seen s)
    (sv_log s) (sv_tunneling s) (sv_dga s).
Definition set_seen (m : lmap IpAddr Z _) (ip : IpAddr) (s : Server) : Server :=
  mkServer (sv_filter s) (sv_resolver s) (sv_limiter s) (sv_cookies s) (sv_admission s) m (sv_seen s ++ [ip])
    (sv_log s) (sv_tunneling s) (sv_dga s).
Definition add_log (q : QueryLog) (s : Server) : Server :=
  mkServer (sv_filter s) (sv_resolver s) (sv_limiter s) (sv_cookies s) (sv_admission s) (sv_last_seen s) (sv_seen s)
    (sv_log s ++ [q]) (sv_tunneling s) (sv_dga s).
Definition add_tunneling (t : TunnelingEvent) (s : Server) : Server :=
  mkServer (sv_filter s) (sv_resolver s) (sv_limiter s) (sv_cookies s) (sv_admission s) (sv_last_seen s) (sv_seen s)
    (sv_log s) (sv_tunneling s ++ [t]) (sv_dga s).
Definition add_dga (d : DgaEvent) (s : Server) : Server :=
  mkServer (sv_filter s) (sv_resolver s) (sv_limiter s) (sv_cookies s) (sv_admission s) (sv_last_seen s) (sv_seen s)
    (sv_log s) (sv_tunneling s) (sv_dga s ++ [d]).

(** ** The log *)

Definition log (uc : HandleDnsQueryUseCase) (q : QueryLog) : M unit := λ s,
  if log_queries uc then (Ok tt, add_log q s) else (Ok tt, s).

(** What the request's cookie showed. *)
Definition request_cookie_status (k : Clocks) (rq : DnsRequest) : M (option CookieStatus) := λ s,
  match rq_edns_cookie rq with
  | None => (Ok None, s)
  | Some c =>
      match sv_cookies s with
      | Some g =>
          let '(g, status) := cookie_status g (rq_client_ip rq) (as_bytes c) (unix_secs k) in
          (c ← lift status; mret (Some c)) (set_cookies g s)
      | None => (Ok (Some (status_without_guard (as_bytes c))), s)
      end
  end.

Definition base_query_log (k : Clocks) (rq : DnsRequest) (group_id : Z) : M QueryLog :=
  cookie ← request_cookie_status k rq;
  mret {| ql_domain := rq_domain rq; ql_record_type := rq_record_type rq; ql_client_ip := rq_client_ip rq;
          ql_blocked := false; ql_response_time_us := Some (elapsed k); ql_cache_hit := false;
          ql_dnssec_status := None; ql_dns64_synthesized := false; ql_answers := None;
          ql_upstream_server := None; ql_upstream_pool := None; ql_response_status := Some "NOERROR"%string;
          ql_query_source := SrcClient; ql_protocol := rq_protocol rq; ql_group_id := Some group_id;
          ql_block_source := None; ql_coalesced := None; ql_cookie := cookie |}.

(** [self.log(&QueryLog { .., ..self.base_query_log(..) })]. *)
Definition log_with (uc : HandleDnsQueryUseCase) (k : Clocks) (rq : DnsRequest) (group_id : Z)
    (update : QueryLog → QueryLog) : M unit :=
  base ← base_query_log k rq group_id; log uc (update base).

(** ** Detectors *)

Definition emit_tunneling_event (uc : HandleDnsQueryUseCase) (rq : DnsRequest) (was_nxdomain : bool)
    : M unit := λ s,
  if tunneling_events uc then
    (Ok tt, add_tunneling (mkTunnelingEvent (rq_domain rq) (rq_record_type rq) (rq_client_ip rq) was_nxdomain) s)
  else (Ok tt, s).

Definition emit_dga_event (uc : HandleDnsQueryUseCase) (rq : DnsRequest) : M unit := λ s,
  if dga_events uc then (Ok tt, add_dga (mkDgaEvent (rq_domain rq) (rq_client_ip rq)) s) else (Ok tt, s).

Definition apply_tunneling_action (uc : HandleDnsQueryUseCase) (k : Clocks) (rq : DnsRequest) (group_id : Z)
    : M unit :=
  match tg_action (tunneling_guard uc) with
  | ActBlock =>
      log_with uc k rq group_id (log_block "TUNNELING_BLOCKED" Source.DnsTunneling);;
      fails Error.DnsTunnelingDetected
  | ActAlert => mret tt
  end.

Definition apply_dga_action (uc : HandleDnsQueryUseCase) (k : Clocks) (rq : DnsRequest) (group_id : Z)
    : M unit :=
  match dga_action (dga_guard uc) with
  | ActBlock =>
      log_with uc k rq group_id (log_block "DGA_BLOCKED" Source.DgaDetection);;
      fails Error.DgaDomainDetected
  | ActAlert => mret tt
  end.

Definition flagged (flags : option (str → bool)) (domain : str) : bool :=
  match flags with Some is_flagged => is_flagged domain | None => false end.

(** The hits, in the order [on_hit] is handed them. *)
Definition screen_name (uc : HandleDnsQueryUseCase) (domain : str) (t : RecordType) : list NameHit :=
  match tunneling_check (tunneling_guard uc) domain t with
  | TunnelingDetected signal => [HitTunneling signal]
  | TunnelingClean => []
  end
  ++ (if flagged (tunneling_flags uc) domain then [HitTunneling "flagged_domain"] else [])
  ++ match dga_check log2 (dga_guard uc) domain with
     | DgaDetected signal _ _ => [HitDga signal]
     | DgaClean => []
     end
  ++ (if flagged (dga_flags uc) domain then [HitDga "flagged_domain"] else []).

Fixpoint apply_hits (uc : HandleDnsQueryUseCase) (k : Clocks) (rq : DnsRequest) (group_id : Z)
    (hits : list NameHit) : M unit :=
  match hits with
  | [] => mret tt
  | HitTunneling _ :: hits => apply_tunneling_action uc k rq group_id;; apply_hits uc k rq group_id hits
  | HitDga _ :: hits => apply_dga_action uc k rq group_id;; apply_hits uc k rq group_id hits
  end.

Definition is_block (d : FilterDecision) : bool := match d with FdBlock _ => true | _ => false end.

Definition screen_query (uc : HandleDnsQueryUseCase) (group_id : Z) (d : FilterDecision) : Screening :=
  let explicitly_allowed := bool_decide (d = FdExplicitAllow) in
  mkScreening group_id (negb explicitly_allowed)
    (negb explicitly_allowed
     && negb match malware_exemptions uc with Some is_exempt => is_exempt group_id | None => false end).

(** ** Calls to the ports *)

Definition resolve_client_group (k : Clocks) (ip : IpAddr) : M Z := λ s,
  let '(f, g) := port_resolve_group (sv_filter s) ip (filter_secs k) in (Ok g, set_filter f s).

Definition filter_domain (k : Clocks) (domain : str) (group_id : Z) : M FilterDecision := λ s,
  let '(f, d) := port_check (sv_filter s) domain group_id (filter_secs k) in (Ok d, set_filter f s).

Definition try_cache (q : DnsQuery) : M (option DnsResolution) := λ s,
  let '(r, o) := port_try_cache (sv_resolver s) q in (Ok o, set_resolver r s).

Definition try_cache_str (domain : str) (t : RecordType) (group_id : option Z) : M (option DnsResolution) := λ s,
  let '(r, o) := port_try_cache_str (sv_resolver s) domain t group_id in (Ok o, set_resolver r s).

(** [resolver.resolve(q).await], whose error the caller handles. *)
Definition resolve (q : DnsQuery) : M (DomainError + DnsResolution) := λ s,
  let '(r, o) := port_resolve (sv_resolver s) q in (Ok o, set_resolver r s).

Definition rate_limited (spend : DnsRateLimiter → DnsRateLimiter * RateLimitDecision) : M RateLimitDecision := λ s,
  let '(l, d) := spend (sv_limiter s) in (Ok d, set_limiter l s).

Fixpoint is_cname_cloaked (k : Clocks) (chain : list str) (group_id : Z) : M bool :=
  match chain with
  | [] => mret false
  | domain :: chain =>
      d ← filter_domain k domain group_id;
      if is_block d then mret true else is_cname_cloaked k chain group_id
  end.

Definition maybe_track_client (uc : HandleDnsQueryUseCase) (k : Clocks) (ip : IpAddr) : M unit := λ s,
  match client_tracking uc with
  | None => (Ok tt, s)
  | Some interval_ns =>
      let fresh := match lm_peek (sv_last_seen s) ip with
        | Some last_ns => sat_sub (now_ns k) last_ns <? interval_ns
        | None => false
        end in
      if fresh then (Ok tt, s) else (Ok tt, set_seen (lm_put (sv_last_seen s) ip (now_ns k)) ip s)
  end.

(** ** Budgets *)

Definition apply_rate_limit (uc : HandleDnsQueryUseCase) (k : Clocks) (rq : DnsRequest) (group_id : Z)
    (decision : RateLimitDecision) : M unit :=
  match decision with
  | Allow | DryRunWouldRefuse => mret tt
  | Refuse =>
      log_with uc k rq group_id (log_block "RATE_LIMITED" Source.RateLimit);; fails Error.DnsRateLimited
  | Slip =>
      log_with uc k rq group_id (log_block "RATE_LIMITED_TC" Source.RateLimit);; fails Error.DnsRateLimitedSlip
  end.

Definition charge_nxdomain_budget (uc : HandleDnsQueryUseCase) (k : Clocks) (rq : DnsRequest) (group_id : Z)
    : M unit :=
  d ← rate_limited (λ l, charge_nxdomain l (rq_client_ip rq) (rq_protocol rq) (now_ns k));
  apply_rate_limit uc k rq group_id d.

Definition spends_nxdomain_budget (r : DnsResolution) : bool := r_upstream_nxdomain r && negb (r_local_dns r).

(** A slot for [m], held until it ends. *)
Definition with_upstream_slot {A} (k : Clocks) (m : M A) : M A := λ s,
  match sv_admission s with
  | None => m s
  | Some a =>
      let '(a, admitted) := try_admit a (now_ns k) in
      if (admitted : bool) then
        let '(r, s) := m (set_admission a s) in
        (r, match sv_admission s with Some a => set_admission (release a) s | None => s end)
      else (Err Error.UpstreamCapacityExhausted, set_admission a s)
  end.

(** ** Judging answers *)

Definition is_dns64_synthesized (uc : HandleDnsQueryUseCase) (t : RecordType) (addresses : list IpAddr) : bool :=
  bool_decide (t = AAAA)
  && match dns64_prefix uc with
     | Some prefix =>
         negb (bool_decide (addresses = []))
         && forallb (λ a, match a with V6 v6 => nat64_contains prefix v6 | V4 _ => false end) addresses
     | None => false
     end.

Definition is_rebinding (uc : HandleDnsQueryUseCase) (domain : str) (r : DnsResolution) : bool :=
  match rebinding_guard uc with Some g => is_rebinding_attempt g domain r | None => false end.

Definition is_suspicious_cached_answer (uc : HandleDnsQueryUseCase) (domain : str) (r : DnsResolution) : bool :=
  is_hijacked_response (nxdomain_hijack_guard uc) r
  || has_blocked_ip (response_ip_filter_guard uc) r
  || is_rebinding uc domain r.

(** Logs the block, stores the verdict, and is the error. *)
Definition block_cname_cloaking {A} (uc : HandleDnsQueryUseCase) (k : Clocks) (rq : DnsRequest)
    (r : DnsResolution) (group_id : Z) : M A :=
  let ttl := Z.max (default 60 (min_ttl r)) 5 in
  (λ s, (Ok tt, set_filter (port_store_cname (sv_filter s) (rq_domain rq) group_id ttl (filter_secs k)) s));;
  log_with uc k rq group_id (log_block "BLOCKED" Source.CnameCloaking);;
  fails Error.Blocked.

(** The COOKIE option to answer with, and what the query's showed. *)
Definition answer_cookie (k : Clocks) (client_ip : IpAddr) (opt_data : bytes)
    : M (option EdnsCookie * option CookieStatus) := λ s,
  match sv_cookies s with
  | None => (Ok (None, Some (status_without_guard opt_data)), s)
  | Some g =>
      match slice opt_data 0 CLIENT_COOKIE_LEN with
      | None => (Ok (None, None), s)
      | Some client_cookie =>
          let '(g, answered) := answer g client_ip client_cookie opt_data (unix_secs k) in
          ('(server_cookie, status) ← lift answered;
           c ← lift (cookie_from_bytes (client_cookie ++ server_cookie));
           mret (c, Some status)) (set_cookies g s)
      end
  end.

(** ** The cache probes *)

Definition cache_gate (uc : HandleDnsQueryUseCase) (k : Clocks) (domain : str) (t : RecordType)
    (client_ip : IpAddr) : M (option Screening) :=
  s ← ask;
  if match sv_cookies s with Some g => is_strict g | None => false end then mret None
  else
    group_id ← resolve_client_group k client_ip;
    decision ← filter_domain k domain group_id;
    if is_block decision then mret None
    else
      s ← ask;
      if negb (is_allowed (sv_limiter s) client_ip) then mret None
      else
        let screening := screen_query uc group_id decision in
        if sc_detectors screening && negb (length (screen_name uc domain t) =? 0)%nat then mret None
        else mret (Some screening).

Definition cache_hit_log (k : Clocks) (domain : str) (t : RecordType) (client_ip : IpAddr)
    (protocol : ClientProtocol) (group_id : Z) (dnssec : option DnssecStatus) : QueryLog :=
  {| ql_domain := domain; ql_record_type := t; ql_client_ip := client_ip; ql_blocked := false;
     ql_response_time_us := Some (elapsed k); ql_cache_hit := true; ql_dnssec_status := dnssec;
     ql_dns64_synthesized := false; ql_answers := None; ql_upstream_server := None;
     ql_upstream_pool := None; ql_response_status := Some "NOERROR"%string; ql_query_source := SrcClient;
     ql_protocol := Some protocol; ql_group_id := Some group_id; ql_block_source := None;
     ql_coalesced := None; ql_cookie := None |}.

Definition with_cookie (c : option CookieStatus) (q : QueryLog) : QueryLog :=
  {| ql_domain := ql_domain q; ql_record_type := ql_record_type q; ql_client_ip := ql_client_ip q;
     ql_blocked := ql_blocked q; ql_response_time_us := ql_response_time_us q;
     ql_cache_hit := ql_cache_hit q; ql_dnssec_status := ql_dnssec_status q;
     ql_dns64_synthesized := ql_dns64_synthesized q; ql_answers := ql_answers q;
     ql_upstream_server := ql_upstream_server q; ql_upstream_pool := ql_upstream_pool q;
     ql_response_status := ql_response_status q; ql_query_source := ql_query_source q;
     ql_protocol := ql_protocol q; ql_group_id := ql_group_id q; ql_block_source := ql_block_source q;
     ql_coalesced := ql_coalesced q; ql_cookie := c |}.

(** Hands a hit to [respond], and logs it if it is answered. *)
Definition respond_and_log {R} (uc : HandleDnsQueryUseCase) (k : Clocks) (client_ip : IpAddr)
    (cookie : option bytes) (entry : QueryLog) (respond : option bytes → option R) : M (option R) :=
  '(reply_cookie, status) ← match cookie with
    | Some opt_data => answer_cookie k client_ip opt_data
    | None => mret (None, None)
    end;
  match respond (as_bytes <$> reply_cookie) with
  | None => mret None
  | Some reply => log uc (with_cookie status entry);; mret (Some reply)
  end.

Definition try_cache_wire_direct {R} (uc : HandleDnsQueryUseCase) (k : Clocks) (domain : str)
    (t : RecordType) (client_ip : IpAddr) (protocol : ClientProtocol) (cookie : option bytes)
    (respond : bytes → Z → option bytes → option R) : M (option R) :=
  gate ← cache_gate uc k domain t client_ip;
  match gate with
  | None => mret None
  | Some screening =>
      let group_id := sc_group_id screening in
      hit ← try_cache_str domain t (Some group_id);
      match hit with
      | None => mret None
      | Some r =>
          s ← ask;
          if spends_nxdomain_budget r && limits_nxdomain (sv_limiter s) then mret None
          else
            cloaked ← (if sc_cloaking screening then is_cname_cloaked k (r_cname_chain r) group_id else mret false);
            if (cloaked : bool) then mret None
            else match upstream_wire_data r, min_ttl r with
            | Some wire, Some remaining =>
                respond_and_log uc k client_ip cookie
                  (log_status (rcode_name r)
                     (cache_hit_log k domain t client_ip protocol group_id (r_dnssec_status r)))
                  (respond wire remaining)
            | _, _ => mret None
            end
      end
  end.

Definition try_cache_direct {R} (uc : HandleDnsQueryUseCase) (k : Clocks) (domain : str)
    (t : RecordType) (client_ip : IpAddr) (protocol : ClientProtocol) (cookie : option bytes)
    (respond : list IpAddr → Z → option bytes → option R) : M (option R) :=
  gate ← cache_gate uc k domain t client_ip;
  match gate with
  | None => mret None
  | Some screening =>
      let group_id := sc_group_id screening in
      hit ← try_cache_str domain t (Some group_id);
      match hit with
      | None => mret None
      | Some r =>
          if bool_decide (r_addresses r = []) then mret None
          else
            cloaked ← (if sc_cloaking screening then is_cname_cloaked k (r_cname_chain r) group_id else mret false);
            if (cloaked : bool) || (sc_detectors screening && is_suspicious_cached_answer uc domain r)
            then mret None
            else
              respond_and_log uc k client_ip cookie
                (log_answer "NOERROR" true (r_dnssec_status r) (is_dns64_synthesized uc t (r_addresses r))
                   (Some (r_addresses r)) None None None
                   (cache_hit_log k domain t client_ip protocol group_id (r_dnssec_status r)))
                (respond (r_addresses r) (default 60 (min_ttl r)))
      end
  end.

(** ** A query in full *)

(** Strict cookies: a query that must carry a valid one and does not. *)
Definition check_cookie (uc : HandleDnsQueryUseCase) (k : Clocks) (rq : DnsRequest) (group_id : Z) : M unit :=
  s ← ask;
  if match sv_cookies s with Some g => requires_cookie g (rq_protocol rq) | None => false end then
    base ← base_query_log k rq group_id;
    if bool_decide (ql_cookie base = Some Valid) then mret tt
    else
      let rcode := match rq_edns_cookie rq with Some _ => "BADCOOKIE" | None => "REFUSED" end%string in
      log uc (log_block rcode Source.DnsCookie base);;
      fails Error.DnsCookieInvalid
  else mret tt.

Definition raise {A} (r : DomainError + A) : M A := match r with inl e => fails e | inr a => mret a end.

(** The answer a Safe Search rule redirects to. *)
Definition answer_safe_search (uc : HandleDnsQueryUseCase) (k : Clocks) (rq : DnsRequest) (group_id : Z)
    (cname_target : str) : M DnsResolution :=
  let safe_query := mkQuery cname_target (rq_record_type rq) (Some group_id) in
  let upstream := with_upstream_slot k (r ← resolve safe_query; raise r) in
  cached ← try_cache safe_query;
  resolution ← match cached with
    | Some cached => if has_response_data cached then mret cached else upstream
    | None => upstream
    end;
  log_with uc k rq group_id (λ base,
    log_answer "SAFE_SEARCH" (r_cache_hit resolution) (ql_dnssec_status base) (ql_dns64_synthesized base)
      (ql_answers base) (r_upstream_server resolution) (r_upstream_pool resolution) (r_coalesced resolution) base);;
  mret resolution.

(** The cache's word on the query: [None] falls through to the upstreams. *)
Definition probe_cache (uc : HandleDnsQueryUseCase) (k : Clocks) (rq : DnsRequest) (screening : Screening)
    (q : DnsQuery) : M (option DnsResolution) :=
  let group_id := sc_group_id screening in
  hit ← try_cache q;
  match hit with
  | None => mret None
  | Some cached =>
      if has_response_data cached then
        cloaked ← (if sc_cloaking screening then is_cname_cloaked k (r_cname_chain cached) group_id else mret false);
        if (cloaked : bool) then block_cname_cloaking uc k rq cached group_id
        else if sc_detectors screening && is_suspicious_cached_answer uc (rq_domain rq) cached then mret None
        else
          (if spends_nxdomain_budget cached then charge_nxdomain_budget uc k rq group_id else mret tt);;
          log_with uc k rq group_id (λ base,
            log_answer (rcode_name cached) true (r_dnssec_status cached) (ql_dns64_synthesized base)
              (Some (r_addresses cached)) (ql_upstream_server base) (ql_upstream_pool base) (ql_coalesced base) base);;
          mret (Some cached)
      else if r_cache_hit cached then
        (if negb (r_local_nxdomain cached) then charge_nxdomain_budget uc k rq group_id else mret tt);;
        log_with uc k rq group_id (λ base,
          log_answer "NXDOMAIN" true (ql_dnssec_status base) (ql_dns64_synthesized base) (ql_answers base)
            (ql_upstream_server base) (ql_upstream_pool base) (ql_coalesced base) base);;
        fails Error.NxDomain
      else mret None
  end.

(** DNSSEC enforcement: the status logged and the error. *)
Definition dnssec_refusal (uc : HandleDnsQueryUseCase) (rq : DnsRequest) (r : DnsResolution)
    : option (string * DomainError) :=
  if negb (dnssec_enforce uc) || rq_checking_disabled rq then None
  else match r_dnssec_status r with
  | Some Bogus => Some ("SERVFAIL_BOGUS"%string, Error.DnssecBogus)
  | Some Indeterminate => Some ("SERVFAIL_INDETERMINATE"%string, Error.DnssecIndeterminate)
  | Some (Secure | Insecure) | None => None
  end.

(** The guards of an upstream's answer: hijack and C2 addresses, rebinding. *)
Definition screen_answer (uc : HandleDnsQueryUseCase) (k : Clocks) (rq : DnsRequest) (group_id : Z)
    (r : DnsResolution) : M unit :=
  (if is_rebinding uc (rq_domain rq) r then
     log_with uc k rq group_id (log_block "BLOCKED" Source.DnsRebinding);; fails Error.Blocked
   else mret tt);;
  (if is_hijacked_response (nxdomain_hijack_guard uc) r then
     match ig_action (nxdomain_hijack_guard uc) with
     | ActBlock =>
         charge_nxdomain_budget uc k rq group_id;;
         log_with uc k rq group_id (log_block "NXDOMAIN_HIJACK" Source.NxdomainHijack);;
         fails Error.NxDomain
     | ActAlert => mret tt
     end
   else mret tt);;
  (if has_blocked_ip (response_ip_filter_guard uc) r then
     match ig_action (response_ip_filter_guard uc) with
     | ActBlock =>
         log_with uc k rq group_id (log_block "RESPONSE_IP_BLOCKED" Source.ResponseIpFilter);;
         fails Error.Blocked
     | ActAlert => mret tt
     end
   else mret tt).

Definition emit_events (uc : HandleDnsQueryUseCase) (rq : DnsRequest) (was_nxdomain : bool) : M unit :=
  emit_tunneling_event uc rq was_nxdomain;; emit_dga_event uc rq.

(** What an upstream's answer becomes. *)
Definition relay_resolution (uc : HandleDnsQueryUseCase) (k : Clocks) (rq : DnsRequest) (screening : Screening)
    (r : DnsResolution) : M DnsResolution :=
  let group_id := sc_group_id screening in
  cloaked ← (if sc_cloaking screening then is_cname_cloaked k (r_cname_chain r) group_id else mret false);
  if (cloaked : bool) then block_cname_cloaking uc k rq r group_id
  else
    (if sc_detectors screening then screen_answer uc k rq group_id r else mret tt);;
    match dnssec_refusal uc rq r with
    | Some (status, error) =>
        log_with uc k rq group_id (λ base,
          log_answer status (ql_cache_hit base) (r_dnssec_status r) (ql_dns64_synthesized base) (ql_answers base)
            (ql_upstream_server base) (ql_upstream_pool base) (ql_coalesced base) base);;
        fails error
    | None =>
        let status := if r_local_dns r then "LOCAL_DNS"%string else rcode_name r in
        let nxdomain := spends_nxdomain_budget r in
        (if sc_detectors screening then emit_events uc rq nxdomain else mret tt);;
        (if nxdomain then charge_nxdomain_budget uc k rq group_id else mret tt);;
        log_with uc k rq group_id (
          log_answer status (r_cache_hit r) (r_dnssec_status r)
            (is_dns64_synthesized uc (rq_record_type rq) (r_addresses r)) (Some (r_addresses r))
            (r_upstream_server r) (r_upstream_pool r) (r_coalesced r));;
        mret r
    end.

(** What an upstream's failure becomes. *)
Definition relay_error (uc : HandleDnsQueryUseCase) (k : Clocks) (rq : DnsRequest) (screening : Screening)
    (e : DomainError) : M DnsResolution :=
  let group_id := sc_group_id screening in
  match e with
  | Error.LocalNxDomain =>
      log_with uc k rq group_id (log_status "LOCAL_DNS");; fails Error.NxDomain
  | Error.FilteredQuery source =>
      log_with uc k rq group_id (log_block "BLOCKED" source);; fails (Error.FilteredQuery source)
  | Error.NxDomain =>
      (if sc_detectors screening then emit_events uc rq true else mret tt);;
      charge_nxdomain_budget uc k rq group_id;;
      log_with uc k rq group_id (log_status "NXDOMAIN");; fails e
  | Error.QueryTimeout => log_with uc k rq group_id (log_status "TIMEOUT");; fails e
  | _ => log_with uc k rq group_id (log_status "SERVFAIL");; fails e
  end.

(** What happens once the rules and the detectors have let the name through. *)
Definition answer_query (uc : HandleDnsQueryUseCase) (k : Clocks) (rq : DnsRequest) (screening : Screening)
    : M DnsResolution :=
  let group_id := sc_group_id screening in
  let q := mkQuery (rq_domain rq) (rq_record_type rq) (Some group_id) in
  match (match safe_search uc with Some cname_for => cname_for (rq_domain rq) group_id | None => None end) with
  | Some cname_target => answer_safe_search uc k rq group_id cname_target
  | None =>
      cached ← probe_cache uc k rq screening q;
      match cached with
      | Some r => mret r
      | None =>
          with_upstream_slot k (
            answered ← resolve q;
            match answered with
            | inr r => relay_resolution uc k rq screening r
            | inl e => relay_error uc k rq screening e
            end)
      end
  end.

Definition execute (uc : HandleDnsQueryUseCase) (k : Clocks) (rq : DnsRequest) : M DnsResolution :=
  maybe_track_client uc k (rq_client_ip rq);;
  group_id ← resolve_client_group k (rq_client_ip rq);
  decision ← rate_limited (λ l, check l (rq_client_ip rq) (rq_protocol rq) (now_ns k));
  apply_rate_limit uc k rq group_id decision;;
  check_cookie uc k rq group_id;;
  filter_decision ← filter_domain k (rq_domain rq) group_id;
  match filter_decision with
  | FdBlock source =>
      log_with uc k rq group_id (log_block "BLOCKED" source);;
      fails Error.Blocked
  | _ =>
      let screening := screen_query uc group_id filter_decision in
      (if sc_detectors screening
       then apply_hits uc k rq group_id (screen_name uc (rq_domain rq) (rq_record_type rq))
       else mret tt);;
      answer_query uc k rq screening
  end.
End handler.

(** The engine implements the port, on the thread the query runs on. *)
Section engine.
Context `{Matchers, MembershipGate, IterOrder, LruMaps, Networks}.
Context (decision_key : str → Z → Z) (thread : nat).

Definition engine_port : FilterPort := {|
  filter_state := BlockFilterEngine;
  port_resolve_group e ip now := let '(g, e) := resolve_group e thread ip now in (e, g);
  port_check e domain g now := let '(d, e) := filter_check decision_key e thread domain g now in (e, d);
  port_store_cname e domain g ttl now := store_cname_decision decision_key e thread domain g ttl now;
|}.
End engine.

(** ** Small ports *)

Definition blocked_name : str := of_string "ads.example".
Definition allowed_name : str := of_string "allowed.example".
Definition cached_name : str := of_string "www.example".
Definition video_name : str := of_string "video.example".
Definition safe_name : str := of_string "safe.example".

(** Every client is in group 1; one name is blocked, one explicitly allowed. *)
Definition demo_filter : FilterPort := {|
  filter_state := list (str * Z);
  port_resolve_group f ip now := (f, 1);
  port_check f domain g now := (f,
    if bool_decide (domain = blocked_name) then FdBlock Source.Blocklist
    else if bool_decide (domain = allowed_name) then FdExplicitAllow else FdAllow);
  port_store_cname f domain g ttl now := (domain, g) :: f;
|}.

Definition demo_addresses (domain : str) : option (list IpAddr) :=
  if bool_decide (domain = cached_name) then Some [V4 0x5DB8D822]
  else if bool_decide (domain = video_name) then Some [V4 0x01010101]
  else None.

Definition demo_cached (q : DnsQuery) : option DnsResolution :=
  match dq_record_type q, demo_addresses (dq_domain q) with
  | A, Some addresses =>
      Some (mkResolution addresses true false false false None (Some Insecure) [] None None (Some 30) None None)
  | _, _ => None
  end.

(** What the upstream answers: the safe name's answer does not validate. *)
Definition demo_relayed (q : DnsQuery) : DnsResolution :=
  mkResolution [V4 0x02020202] false false false false None (Some Bogus) [] None None (Some 60) None None.

(** The queries that went upstream. *)
Definition demo_resolver : ResolverPort.
Proof.
  refine {|
    resolver_state := list DnsQuery;
    port_try_cache s q := (s, demo_cached q);
    port_try_cache_str s d t g := (s, demo_cached (mkQuery d t g));
    port_resolve s q := (s ++ [q], inr (demo_relayed q));
  |}; [done|].
  intros s q r. cbn. unfold demo_cached. destruct (dq_record_type q), (demo_addresses (dq_domain q)); intros [= <-]; done.
Defined.

Definition demo_use_case (safe : option (str → Z → option str)) (enforce : bool) : HandleDnsQueryUseCase :=
  {| safe_search := safe; client_tracking := None; rebinding_guard := None;
     tunneling_guard := mkTunneling true ActBlock 120 50 true; tunneling_events := true;
     tunneling_flags := None; nxdomain_hijack_guard := mkIpGuard ActBlock None;
     response_ip_filter_guard := mkIpGuard ActBlock None; dga_guard := dga_default; dga_events := true;
     dga_flags := None; malware_exemptions := None; dnssec_enforce := enforce; dns64_prefix := None;
     log_queries := true |}.

Definition demo_server : Server (H := demo_filter) (H0 := demo_resolver) (H1 := assoc_maps) (H2 := demo_hmac) :=
  {| sv_filter := ([] : @filter_state demo_filter); sv_resolver := ([] : @resolver_state demo_resolver);
     sv_limiter := demo_limiter; sv_cookies := None; sv_admission := Some (mkAdmission 4 counter_new);
     sv_last_seen := lm_new (LruMaps := assoc_maps) 8; sv_seen := []; sv_log := []; sv_tunneling := []; sv_dga := [] |}.

Definition demo_clocks : Clocks := mkClocks 77 1000 50 3.
Definition demo_request (domain : str) : DnsRequest :=
  mkRequest domain A (V4 167772161) None false (Some Udp).

(** A Safe Search rule for group 1. *)
Definition demo_rule (domain : str) (g : Z) : option str :=
  if bool_decide (domain = video_name) && (g =? 1) then Some safe_name else None.
