(* ===== verification/BlockService.v ===== *)
(** What the filter answers in service: any sequence of checks, reloads and
    changes of the settings, and what each check may rely on. *)

From Stdlib Require Import String.
From S2P Require Import Prelude Errors Text Net Float64 CacheRecord CacheBloom SuffixTrie BlockIndex.
From S2P Require Import BlockList BlockBuild Schedule BlockDecision SubnetMatcher BlockEngine.

#[local] Set Default Proof Using "Type".

Section service.
Context `{Matchers, MembershipGate, IterOrder, LruMaps, Networks}.
Context (to_lowercase : str → str) (bloom_of : Z → gate).
Context (decision_key : str → Z → Z) (parse_ip : str → option IpAddr).

Abbreviation engine_step := (engine_step to_lowercase bloom_of decision_key parse_ip).
Abbreviation Step := (nat * Z * EngineOp)%type.

(** ** The CNAME verdicts on record

    A name, its group and the expiry, since the caches were last cleared. *)

Abbreviation CnameLog := (list (str * Z * Z)).

Definition log_step (e e' : BlockFilterEngine) (l : CnameLog) (s : Step) : CnameLog :=
  if decision_epoch (decisions e') =? decision_epoch (decisions e) then
    match s with
    | (_, now, OpStoreCname domain group_id ttl) => (domain, group_id, sat_add u64_max now ttl) :: l
    | _ => l
    end
  else [].

Definition logged_step (st : BlockFilterEngine * CnameLog) (s : Step) : BlockFilterEngine * CnameLog :=
  let e' := engine_step st.1 s in (e', log_step st.1 e' st.2 s).

(** The names a step's key stands for. *)
Definition names_of (s : Step) : list (str * Z) :=
  match s.2 with
  | OpCheck domain group_id | OpStoreCname domain group_id _ => [(domain, group_id)]
  | _ => []
  end.

Definition no_collisions (names : list (str * Z)) : Prop :=
  ∀ p q, p ∈ names → q ∈ names → decision_key p.1 p.2 = decision_key q.1 q.2 → p = q.

Lemma no_collisions_check names :
  forallb (λ p, forallb (λ q, negb (decision_key p.1 p.2 =? decision_key q.1 q.2) || bool_decide (p = q)) names)
    names = true → no_collisions names.
Proof.
  rewrite forallb_forall. setoid_rewrite forallb_forall. intros Hc p q Hp Hq Hk.
  specialize (Hc p (proj1 (list_elem_of_In _ _) Hp) q (proj1 (list_elem_of_In _ _) Hq)).
  rewrite Hk, Z.eqb_refl in Hc. by apply bool_decide_eq_true in Hc.
Qed.

(** ** The invariant *)

(** A verdict held under a key: the index's for a name with that key, or a
    CNAME verdict on record. *)
Definition justified (names : list (str * Z)) (idx : BlockIndex) (l : CnameLog)
    (k : Z) (v : Verdict) (expires : Z) : Prop :=
  ∃ d g, (d, g) ∈ names ∧ k = decision_key d g ∧
    (v = evaluate idx d g ∨ v = Block Source.CnameCloaking ∧ (d, g, expires) ∈ l).

Record service_ok (names : list (str * Z)) (n : Z) (st : BlockFilterEngine * CnameLog) : Prop := {
  so_held : holds_only (justified names (eng_index st.1) st.2) (decisions st.1);
  so_epoch : 0 ≤ decision_epoch (decisions st.1) ≤ n;
}.

Lemma justified_log names idx l l' k v ex : (∀ x, x ∈ l → x ∈ l') →
  justified names idx l k v ex → justified names idx l' k v ex.
Proof.
  intros Hl (d & g & Hn & Hk & Hv). exists d, g. split; [done|]. split; [done|].
  destruct Hv as [?|[? ?]]; [by left|right; split; [done|by apply Hl]].
Qed.

Lemma service_ok_new names default_group enabled :
  service_ok names 0 (engine_new bloom_of default_group enabled, []).
Proof. split; [apply holds_only_new|done]. Qed.

(** ** The caches of an engine *)

Lemma cached_verdict_spec P e thread key skip now : holds_only P (decisions e) →
  let r := cached_verdict e thread key skip now in
  (∃ c, r.2 = with_decisions e c ∧ holds_only P c ∧ decision_epoch c = decision_epoch (decisions e)) ∧
  ∀ v, r.1 = Some v → skip = false ∧ ∃ ex, now < ex ∧ P key v ex.
Proof.
  intros He r. unfold r, cached_verdict. destruct skip.
  { split; [|done]. exists (decisions e). split; [by destruct e|done]. }
  destruct (l0_get_spec P (decisions e) thread key now He) as (H1' & Hv1 & Hep1).
  destruct (decision_l0_get_by_key (decisions e) thread key now) as [[v|] c1]; cbn [fst snd] in *.
  { split; [by exists c1|]. intros v' [= <-]. split; [done|]. by apply Hv1. }
  destruct (get_by_key_spec P c1 key now H1') as (H2' & Hv2 & Hep2).
  destruct (get_by_key c1 key now) as [[[v ex]|] c2]; cbn [fst snd] in *.
  - destruct (Hv2 v ex eq_refl) as [Hlt Hp].
    destruct (l0_set_spec P c2 thread key v ex H2' Hp) as [H3' Hep3].
    split; [eexists; split; [done|]; split; [done|by rewrite Hep3, Hep2]|].
    intros v' [= <-]. split; [done|by exists ex].
  - split; [|done]. exists c2. split; [done|]. split; [done|by rewrite Hep2].
Qed.

Lemma store_verdict_spec P e thread key v ttl now : holds_only P (decisions e) →
  P key v (sat_add u64_max now ttl) →
  ∃ c, store_verdict e thread key v ttl now = with_decisions e c ∧ holds_only P c ∧
    decision_epoch c = decision_epoch (decisions e).
Proof.
  intros He Hp. unfold store_verdict.
  destruct (set_by_key_spec P (decisions e) key v ttl now He) as [H1' Hep1]; [exact Hp|].
  unfold set_by_key_with_ttl in *. cbn [fst snd] in *.
  destruct (l0_set_spec P _ thread key v _ H1' Hp) as [H2' Hep2].
  eexists. split; [done|]. split; [done|]. by rewrite Hep2.
Qed.

(** A check: its verdict, and the caches it leaves. *)
Lemma resolve_verdict_spec names e l thread d g skip now : (d, g) ∈ names → no_collisions names →
  holds_only (justified names (eng_index e) l) (decisions e) →
  let r := resolve_verdict e thread d g (decision_key d g) skip now in
  (∃ c, r.2 = with_decisions e c ∧ holds_only (justified names (eng_index e) l) c ∧
     decision_epoch c = decision_epoch (decisions e)) ∧
  (r.1 = evaluate (eng_index e) d g ∨
   skip = false ∧ r.1 = Block Source.CnameCloaking ∧ ∃ ex, (d, g, ex) ∈ l ∧ now < ex).
Proof.
  intros Hin Hinj He r. unfold r, resolve_verdict.
  destruct (cached_verdict_spec _ e thread (decision_key d g) skip now He) as [(c & Ec & Hc & Hep) Hv].
  destruct (cached_verdict e thread (decision_key d g) skip now) as [[v|] e1]; cbn [fst snd] in *; subst e1.
  - split; [by exists c|]. destruct (Hv v eq_refl) as (Hs & ex & Hlt & d' & g' & Hin' & Hk & Hd).
    assert ((d, g) = (d', g')) as [= <- <-] by (by apply Hinj).
    destruct Hd as [->|[-> Hl]]; [by left|right]. split; [done|]. split; [done|by exists ex].
  - cbn [with_decisions eng_index decisions]. split; [|by left].
    destruct (store_verdict_spec (justified names (eng_index e) l) (with_decisions e c) thread
      (decision_key d g) (evaluate (eng_index e) d g) TTL_SECS now) as (c' & Ec' & Hc' & Hep').
    + exact Hc.
    + exists d, g. split; [done|]. split; [done|by left].
    + exists c'. split; [by rewrite Ec'|]. split; [done|]. cbn [with_decisions decisions] in Hep'.
      by rewrite Hep', Hep.
Qed.

(** ** Every step keeps it *)

(** A step that leaves the index and the caches as they are. *)
Lemma service_ok_same names n e l s e' : service_ok names n (e, l) →
  eng_index e' = eng_index e → decisions e' = decisions e →
  service_ok names (n + 1) (e', log_step e e' l s).
Proof.
  intros [Hh Hep] Hi Hd. cbn [fst snd] in *. split; cbn [fst snd]; rewrite Hd; [|lia]. rewrite Hi.
  eapply holds_only_mono; [|exact Hh]. intros k v ex. apply justified_log. intros x Hx.
  unfold log_step. rewrite Hd, Z.eqb_refl. destruct s as [[? ?] []]; try done. by right.
Qed.

(** A step that clears both caches. *)
Lemma service_ok_cleared names n e l s e' : service_ok names n (e, l) → n < u64_max →
  decisions e' = decision_l0_clear (caches_clear (decisions e)) →
  service_ok names (n + 1) (e', log_step e e' l s).
Proof.
  intros [Hh Hep] Hn Hd. cbn [fst snd] in *.
  destruct (cleared_holds_nothing _ (justified names (eng_index e') (log_step e e' l s)) (decisions e) Hh)
    as [Hc Hep']; [lia|]. split; cbn [fst snd]; rewrite Hd; [done|lia].
Qed.

(** A step that only moves entries of the caches. *)
Lemma service_ok_caches names n e l s c : service_ok names n (e, l) →
  holds_only (justified names (eng_index e) (log_step e (with_decisions e c) l s)) c →
  decision_epoch c = decision_epoch (decisions e) →
  service_ok names (n + 1) (with_decisions e c, log_step e (with_decisions e c) l s).
Proof. intros [_ Hep] Hc Hd. cbn [fst snd] in *. split; cbn [fst snd with_decisions decisions eng_index]; [done|lia]. Qed.

Lemma rebuild_caches e ticket fetch db download at_ :
  let r := rebuild_through to_lowercase bloom_of e ticket fetch db download at_ in
  (r.2 = e) ∨ decisions r.2 = decision_l0_clear (caches_clear (decisions e)).
Proof.
  intros r. unfold r, rebuild_through, rebuild_from. destruct (rebuild_needed _ _ _); [|by left].
  destruct (compile_block_index _ _ _ _ _ _ _).1; [by left|by right].
Qed.

Lemma logged_step_ok names n st s : (∀ p, p ∈ names_of s → p ∈ names) → no_collisions names →
  n < u64_max → service_ok names n st → service_ok names (n + 1) (logged_step st s).
Proof.
  destruct st as [e l], s as [[thread now] op]. intros Hnames Hinj Hn Hok.
  unfold logged_step. cbn [fst snd]. destruct op; cbn [engine_step].
  - assert (Hin : (domain, group_id) ∈ names) by (apply Hnames; by left).
    unfold filter_check. set (skip := skip_decision_cache _ _).
    destruct (resolve_verdict_spec names e l thread domain group_id skip now Hin Hinj (so_held _ _ _ Hok))
      as [(c & Ec & Hc & Hep) _].
    destruct (resolve_verdict e thread domain group_id _ skip now) as [v e1]. cbn [fst snd] in *. subst e1.
    apply service_ok_caches; [done| |done]. unfold log_step. cbn [with_decisions decisions].
    by rewrite Hep, Z.eqb_refl.
  - assert (Hin : (domain, group_id) ∈ names) by (apply Hnames; by left).
    set (x := (domain, group_id, sat_add u64_max now ttl_secs)).
    destruct (store_verdict_spec (justified names (eng_index e) (x :: l)) e thread
      (decision_key domain group_id) (Block Source.CnameCloaking) ttl_secs now) as (c & Ec & Hc & Hep).
    + eapply holds_only_mono; [|exact (so_held _ _ _ Hok)]. intros k v ex. apply justified_log. by right.
    + exists domain, group_id. split; [done|]. split; [done|]. right. split; [done|by left].
    + unfold store_cname_decision. rewrite Ec. apply service_ok_caches; [done| |done].
      unfold log_step. cbn [with_decisions decisions]. by rewrite Hep, Z.eqb_refl.
  - unfold reload. cbn [issue_reload_ticket].
    set (e1 := mkEngine _ _ _ _ _ _ _ _ _ _ _ _).
    destruct (rebuild_caches e1 (wrap64 (reload_tickets e + 1)) fetch db download at_) as [->|Hd];
      [by apply service_ok_same|by apply service_ok_cleared].
  - unfold load_client_groups, load_client_groups_inner. destruct client_rows; [by apply service_ok_same|].
    destruct subnet_rows; [by apply service_ok_same|by apply service_ok_cleared].
  - apply service_ok_same; [done|..]; unfold resolve_group;
      destruct (lm_get _ _) as [[[[? ?] ?]|] ?]; try destruct (_ && _); done.
  - by apply service_ok_same.
  - by apply service_ok_same.
  - by apply service_ok_same.
  - by apply service_ok_same.
Qed.

Lemma logged_run_ok names n st ops : (∀ s p, s ∈ ops → p ∈ names_of s → p ∈ names) → no_collisions names →
  n + Z.of_nat (length ops) ≤ u64_max → service_ok names n st →
  service_ok names (n + Z.of_nat (length ops)) (foldl logged_step st ops).
Proof.
  intros Hnames Hinj. revert n st. induction ops as [|s ops IH]; intros n st Hn Hok; cbn [foldl length] in *.
  { by rewrite Z.add_0_r. }
  replace (n + Z.of_nat (S (length ops))) with ((n + 1) + Z.of_nat (length ops)) by lia.
  apply IH; [intros s' p Hs'; by apply Hnames; right|lia|].
  apply logged_step_ok; [intros p; by apply Hnames; left|done|lia|done].
Qed.

(** ** Client groups *)

(** A group held for an address, in the current epoch, is the address's. *)
Record groups_ok (n : Z) (e : BlockFilterEngine) : Prop := {
  go_held t ip gid expires epoch : lm_peek (group_l0 e t) ip = Some (gid, expires, epoch) →
    epoch ≤ group_epoch e ∧ (epoch = group_epoch e → gid = resolve_group_uncached e ip);
  go_epoch : 0 ≤ group_epoch e ≤ n;
}.

(** A load of the client groups that does not fail between its two queries. *)
Definition whole_load (s : Step) : bool :=
  match s.2 with OpLoadGroups (inr _) (inl _) => false | _ => true end.

Lemma groups_ok_new default_group enabled : groups_ok 0 (engine_new bloom_of default_group enabled).
Proof.
  split; [|done]. intros t ip gid ex ep Hp. cbn [engine_new group_l0] in Hp. by rewrite lm_peek_new in Hp.
Qed.

Lemma groups_ok_same n e e' : groups_ok n e →
  group_l0 e' = group_l0 e → group_epoch e' = group_epoch e → client_groups e' = client_groups e →
  subnet_matcher e' = subnet_matcher e → default_group_id e' = default_group_id e → groups_ok (n + 1) e'.
Proof.
  intros [Hh Hep] El Ee Ec Es Ed. split; [|rewrite Ee; lia]. intros t ip gid ex ep.
  unfold resolve_group_uncached. rewrite El, Ee, Ec, Es, Ed. apply Hh.
Qed.

Lemma groups_ok_set_l0 n e thread m : groups_ok n e →
  (∀ ip gid ex ep, lm_peek m ip = Some (gid, ex, ep) →
     lm_peek (group_l0 e thread) ip = Some (gid, ex, ep)
     ∨ ep = group_epoch e ∧ gid = resolve_group_uncached e ip) →
  groups_ok n (with_group_l0 e thread m).
Proof.
  intros [Hh Hep] Hm. split; [|exact Hep]. intros t ip gid ex ep. cbn [with_group_l0 group_l0 group_epoch].
  destruct (decide (t = thread)) as [->|]; [|apply Hh].
  intros Hp. destruct (Hm _ _ _ _ Hp) as [Hp'|[-> ->]]; [by eapply Hh|done].
Qed.

Lemma resolve_group_spec n e thread ip now : groups_ok n e →
  let r := resolve_group e thread ip now in
  r.1 = resolve_group_uncached e ip ∧ groups_ok n r.2.
Proof.
  intros He r. unfold r, resolve_group.
  pose proof (lm_get_value (group_l0 e thread) ip) as Hv.
  pose proof (λ j, lm_get_peek (group_l0 e thread) ip j) as Hp.
  destruct (lm_get (group_l0 e thread) ip) as [found m]. cbn [fst snd] in Hv, Hp. subst found.
  assert (Hmiss : ∀ m', (∀ j x, lm_peek m' j = Some x → lm_peek (group_l0 e thread) j = Some x) →
    groups_ok n (with_group_l0 e thread
      (lm_put m' ip (resolve_group_uncached e ip, wrap64 (now + 60), group_epoch e)))).
  { intros m' Hm'. apply groups_ok_set_l0; [done|]. intros j gid ex ep Hj.
    destruct (decide (j = ip)) as [->|Hne]; [|left; by eapply Hm', lm_put_others].
    rewrite lm_put_peek in Hj. injection Hj as <- <- <-. by right. }
  destruct (lm_peek (group_l0 e thread) ip) as [[[gid ex] ep]|] eqn:E.
  - destruct ((ep =? group_epoch e) && (now <? ex)) eqn:Eb; cbn [fst snd].
    + apply andb_true_iff in Eb as [Eep%Z.eqb_eq _]. split; [by apply (go_held _ _ He _ _ _ _ _ E)|].
      apply groups_ok_set_l0; [done|]. intros j gid' ex' ep'. rewrite Hp. by left.
    + split; [done|]. apply Hmiss. intros j x. rewrite lm_pop_peek, Hp. by case_decide.
  - cbn [fst snd]. split; [done|]. apply Hmiss. intros j x. by rewrite Hp.
Qed.

(** A check and a CNAME verdict touch the decision caches only. *)
Lemma store_verdict_frame e thread key v ttl now :
  ∃ c, store_verdict e thread key v ttl now = with_decisions e c.
Proof. unfold store_verdict. destruct (set_by_key_with_ttl _ _ _ _ _). by eexists. Qed.

Lemma filter_check_frame e thread d g now :
  ∃ c, (filter_check decision_key e thread d g now).2 = with_decisions e c.
Proof.
  unfold filter_check, resolve_verdict. set (skip := skip_decision_cache _ _).
  assert (Hc : ∃ c, (cached_verdict e thread (decision_key d g) skip now).2 = with_decisions e c).
  { unfold cached_verdict. destruct skip; [exists (decisions e); by destruct e|].
    destruct (decision_l0_get_by_key _ _ _ _) as [[v|] c]; [by eexists|].
    destruct (get_by_key _ _ _) as [[[v ex]|] c']; by eexists. }
  destruct (cached_verdict _ _ _ _ _) as [[v|] e1]; destruct Hc as [c Hc]; cbn [snd] in Hc; subst e1; [by exists c|].
  cbn [fst snd]. destruct (store_verdict_frame (with_decisions e c) thread (decision_key d g)
    (evaluate (eng_index (with_decisions e c)) d g) TTL_SECS now) as [c' Hc'].
  exists c'. by rewrite Hc'.
Qed.

Lemma groups_step_ok n e s : whole_load s = true → n < u64_max → groups_ok n e →
  groups_ok (n + 1) (engine_step e s).
Proof.
  destruct s as [[thread now] op]. intros Hw Hn Hok.
  destruct op; cbn [BlockEngine.engine_step].
  - destruct (filter_check_frame e thread domain group_id now) as [c ->]. by apply (groups_ok_same n e).
  - unfold store_cname_decision. destruct (store_verdict_frame e thread (decision_key domain group_id)
      (Block Source.CnameCloaking) ttl_secs now) as [c ->]. by apply (groups_ok_same n e).
  - unfold reload, rebuild_through, rebuild_from. cbn [issue_reload_ticket].
    destruct (rebuild_needed _ _ _); [|by apply (groups_ok_same n e)].
    destruct (compile_block_index _ _ _ _ _ _ _).1; by apply (groups_ok_same n e).
  - unfold load_client_groups, load_client_groups_inner.
    destruct client_rows as [?|clients]; [by apply (groups_ok_same n e)|].
    destruct subnet_rows as [?|rows]; [by destruct (Bool.diff_false_true Hw)|].
    destruct Hok as [Hh Hep]. assert (Hwr : wrap64 (group_epoch e + 1) = group_epoch e + 1)
      by (apply wrap64_small; unfold_ints; unfold u64_max in Hn; lia).
    cbn [snd with_clients group_epoch]. split; cbn [group_l0 group_epoch with_clients]; rewrite Hwr; [|lia].
    intros t ip gid ex ep Hp. destruct (Hh _ _ _ _ _ Hp). split; lia.
  - apply (groups_ok_same n (resolve_group e thread ip now).2); [|done..].
    by apply (resolve_group_spec n).
  - by apply (groups_ok_same n e).
  - by apply (groups_ok_same n e).
  - by apply (groups_ok_same n e).
  - by apply (groups_ok_same n e).
Qed.

Lemma groups_run_ok n e ops : forallb whole_load ops = true → n + Z.of_nat (length ops) ≤ u64_max →
  groups_ok n e →
  groups_ok (n + Z.of_nat (length ops)) (engine_run to_lowercase bloom_of decision_key parse_ip e ops).
Proof.
  revert n e. induction ops as [|s ops IH]; intros n e Hw Hn Hok; cbn [length] in *; [by rewrite Z.add_0_r|].
  cbn [forallb] in Hw. apply andb_true_iff in Hw as [Hs Hw].
  replace (n + Z.of_nat (S (length ops))) with ((n + 1) + Z.of_nat (length ops)) by lia.
  unfold engine_run. cbn [foldl]. apply IH; [done|lia|]. apply groups_step_ok; [done|lia|done].
Qed.

Lemma logged_run_engine st ops :
  (foldl logged_step st ops).1 = engine_run to_lowercase bloom_of decision_key parse_ip st.1 ops.
Proof. revert st. induction ops as [|s ops IH]; intros st; [done|]. cbn [foldl]. apply IH. Qed.

End service.

(** ** Properties *)


(** ** Examples

    The database of [BlockBuild.v]; names hashed to a small number; networks
    of a /24. *)

Definition demo_networks : Networks :=
  {| IpNetwork := IpAddr * Z; net_parse s := inr (V4 (nth 0 s 0), 24); net_new a p := inr (a, p);
     net_network := fst; net_prefix := snd;
     net_contains n ip := match n.1, ip with V4 a, V4 b => a / 256 =? b / 256 | _, _ => false end |}.

Definition demo_key (d : str) (g : Z) : Z := be_int d mod 1000003 * 16 + g.
Definition demo_parse_ip (s : str) : option IpAddr := V4 <$> head s.

Definition track : str := of_string "a.track.example".

(** A check before the lists are in, the reload, a CNAME verdict for group 2,
    the groups, and a bypass window for group 1. *)
Definition demo_engine_ops : list (nat * Z * EngineOp) :=
  [(0%nat, 100, OpCheck track 1); (0%nat, 101, OpReload ReuseHeld demo_db demo_download []);
   (1%nat, 102, OpStoreCname track 2 300); (0%nat, 102, OpLoadGroups (inr [([7], 2)]) (inr [mkSubnet [9] 1]));
   (1%nat, 103, OpStoreCname track 2 300); (0%nat, 103, OpSetOverride 1 (TimedBypassUntil 200));
   (1%nat, 104, OpCheck track 1)].

