(* ===== verification/BlockReload.v ===== *)
(** Reloads of the filter under concurrent changes of the database, and the
    places where a verdict does not follow the rules. *)

From Stdlib Require Import String.
From S2P Require Import Prelude Errors Text Net Float64 CacheRecord CacheBloom SuffixTrie BlockIndex.
From S2P Require Import BlockList BlockBuild BlockVerdict Schedule BlockDecision SubnetMatcher.
From S2P Require Import BlockEngine BlockService.

#[local] Set Default Proof Using "Type".

(** ** Tickets

    Clients commit changes and then take a ticket; builds are serialised by a
    lock, and read the database at some point after they start. *)

Section reload.
Context `{Matchers, MembershipGate, IterOrder, LruMaps, Networks}.
Context (to_lowercase : str → str) (bloom_of : Z → gate).

(** The states of the database in the order committed, the engine, how many
    commits each ticket followed, how many the index in force has seen, and the
    build that runs: its ticket, its mode and the tickets it covers. *)
Record ReloadWorld := mkWorld {
  rw_dbs : list Database;
  rw_engine : BlockFilterEngine;
  rw_issued : list nat;
  rw_version : nat;
  rw_running : option (Z * ListFetch * Z);
}.

Definition rw_new (db : Database) (default_group : Z) (enabled : bool) : ReloadWorld :=
  mkWorld [db] (engine_new bloom_of default_group enabled) [] 0 None.

Definition end_build (w : ReloadWorld) (fetch : ListFetch) (covered : Z) (db : Database)
    (download : str → option str) (at_ : str) : ReloadWorld :=
  let r := rebuild_from to_lowercase bloom_of (rw_engine w) covered fetch db download at_ in
  mkWorld (rw_dbs w) r.2 (rw_issued w)
    (match r.1 with inr _ => length (rw_dbs w) | inl _ => rw_version w end) None.

Inductive ReloadStep : ReloadWorld → ReloadWorld → Prop :=
  | RwCommit w db :
      ReloadStep w (mkWorld (rw_dbs w ++ [db]) (rw_engine w) (rw_issued w) (rw_version w) (rw_running w))
  | RwIssue w :
      ReloadStep w (mkWorld (rw_dbs w) (issue_reload_ticket (rw_engine w)).2
        (rw_issued w ++ [length (rw_dbs w)]) (rw_version w) (rw_running w))
  | RwStart w ticket fetch : rw_running w = None → 1 ≤ ticket ≤ Z.of_nat (length (rw_issued w)) →
      rebuild_needed (rw_engine w) ticket fetch = true →
      ReloadStep w (mkWorld (rw_dbs w) (rw_engine w) (rw_issued w) (rw_version w)
        (Some (ticket, fetch, reload_tickets (rw_engine w))))
  | RwEnd w ticket fetch covered db download at_ : rw_running w = Some (ticket, fetch, covered) →
      last (rw_dbs w) = Some db →
      ReloadStep w (end_build w fetch covered db download at_).

Definition rw_reachable (db : Database) (default_group : Z) (enabled : bool) : ReloadWorld → Prop :=
  rtc ReloadStep (rw_new db default_group enabled).

(** The index in force is of a database that has every commit made before the
    ticket was taken. *)
Definition covers (w : ReloadWorld) (ticket : Z) : Prop :=
  ∃ seen db held fetch download at_ lists,
    rw_issued w !! Z.to_nat (ticket - 1) = Some seen ∧ (seen ≤ rw_version w)%nat ∧
    rw_dbs w !! (rw_version w - 1)%nat = Some db ∧
    (compile_block_index to_lowercase bloom_of db download held fetch at_).1
      = inr (eng_index (rw_engine w), lists).

(** Tickets up to [n] were taken before the first [v] commits were over. *)
Definition seen_by (w : ReloadWorld) (n : Z) (v : nat) : Prop :=
  ∀ i seen, rw_issued w !! i = Some seen → Z.of_nat i < n → (seen ≤ v)%nat.

Record reload_ok (w : ReloadWorld) : Prop := {
  ro_tickets : reload_tickets (rw_engine w) = wrap64 (Z.of_nat (length (rw_issued w)));
  ro_seen : seen_by w (Z.of_nat (length (rw_issued w))) (length (rw_dbs w));
  ro_version : (rw_version w ≤ length (rw_dbs w))%nat;
  ro_published : 0 ≤ published_ticket (rw_engine w) ≤ Z.of_nat (length (rw_issued w));
  ro_covered : seen_by w (published_ticket (rw_engine w)) (rw_version w);
  ro_index : 0 < published_ticket (rw_engine w) → (0 < rw_version w)%nat ∧ ∃ db held fetch download at_ lists,
    rw_dbs w !! (rw_version w - 1)%nat = Some db ∧
    (compile_block_index to_lowercase bloom_of db download held fetch at_).1 = inr (eng_index (rw_engine w), lists);
  ro_running ticket fetch covered : rw_running w = Some (ticket, fetch, covered) →
    1 ≤ ticket ≤ covered ∧ published_ticket (rw_engine w) ≤ covered ≤ Z.of_nat (length (rw_issued w));
}.

Lemma reload_new_ok db default_group enabled : reload_ok (rw_new db default_group enabled).
Proof. constructor; cbn; try done; lia. Qed.

Lemma seen_by_mono w n n' v v' : n' ≤ n → (v ≤ v')%nat → seen_by w n v → seen_by w n' v'.
Proof. intros Hn Hv Hs i seen Hi Hlt. specialize (Hs i seen Hi ltac:(lia)). lia. Qed.

Lemma last_version (dbs : list Database) db : last dbs = Some db →
  (0 < length dbs)%nat ∧ dbs !! (length dbs - 1)%nat = Some db.
Proof.
  intros Hl. rewrite last_lookup in Hl. rewrite <-Nat.sub_1_r in Hl. split; [|done].
  apply lookup_lt_Some in Hl. lia.
Qed.

Lemma reload_step_ok w w' : ReloadStep w w' → Z.of_nat (length (rw_issued w')) ≤ u64_max →
  reload_ok w → reload_ok w'.
Proof.
  intros Hs Hmax [Ht Hse Hv Hp Hc Hi Hr].
  destruct Hs as [w db|w|w ticket fetch Hn Hticket Hneed|w ticket fetch covered db download at_ Hrun Hlast].
  - constructor; cbn [rw_dbs rw_engine rw_issued rw_version rw_running]; rewrite ?length_app; try done.
    + eapply seen_by_mono; [reflexivity| |exact Hse]. lia.
    + cbn [length]. lia.
    + intros Hpos. destruct (Hi Hpos) as (Hv0 & db' & held & fetch & download & at_ & lists & Hdb & Hcomp).
      split; [done|]. exists db', held, fetch, download, at_, lists. split; [by apply lookup_app_l_Some|done].
  - cbn [rw_issued] in Hmax. rewrite length_app in Hmax. cbn [length] in Hmax.
    assert (Hw : wrap64 (Z.of_nat (length (rw_issued w))) = Z.of_nat (length (rw_issued w)))
      by (apply wrap64_small; unfold is_u; lia).
    constructor; cbn [rw_dbs rw_engine rw_issued rw_version rw_running issue_reload_ticket snd
      reload_tickets published_ticket eng_index]; rewrite ?length_app; cbn [length]; try done.
    + rewrite Ht, Hw. f_equal. lia.
    + intros i seen Hi' _. cbn [rw_issued] in Hi'. apply lookup_app_Some in Hi' as [Hi'|[_ Hi']].
      * eapply Hse; [done|]. apply lookup_lt_Some in Hi'. lia.
      * apply list_lookup_singleton_Some in Hi' as [_ <-]. done.
    + lia.
    + intros i seen Hi' Hlt. cbn [rw_issued rw_version] in *. apply lookup_app_Some in Hi' as [Hi'|[Hge _]]; [by eapply Hc|].
      exfalso. lia.
    + intros ticket fetch covered Hrun. destruct (Hr _ _ _ Hrun). lia.
  - assert (Hw : wrap64 (Z.of_nat (length (rw_issued w))) = Z.of_nat (length (rw_issued w)))
      by (cbn [rw_issued] in Hmax; apply wrap64_small; unfold is_u; lia).
    constructor; cbn [rw_dbs rw_engine rw_issued rw_version rw_running]; try done.
    intros t' f' c' [= <- <- <-]. rewrite Ht, Hw. lia.
  - destruct (Hr _ _ _ Hrun) as [Htc [Hpc Hcl]]. unfold end_build, rebuild_from.
    destruct (compile_block_index to_lowercase bloom_of db download (held_lists (rw_engine w)) fetch at_).1
      as [err|[idx lists]] eqn:Ecomp; cbn [fst snd].
    { by constructor. }
    destruct (last_version _ _ Hlast) as [Hpos Hdb].
    constructor; cbn [rw_dbs rw_engine rw_issued rw_version rw_running publish reload_tickets
      published_ticket eng_index]; try done; try lia.
    + eapply seen_by_mono; [|reflexivity|exact Hse]. lia.
    + intros _. split; [done|]. by exists db, (held_lists (rw_engine w)), fetch, download, at_, lists.
Qed.

Lemma issued_mono w w' : rtc ReloadStep w w' → (length (rw_issued w) ≤ length (rw_issued w'))%nat.
Proof.
  induction 1 as [|w w1 w' Hs _ IH]; [done|].
  assert (length (rw_issued w) ≤ length (rw_issued w1))%nat; [|lia].
  destruct Hs; cbn [rw_issued end_build]; rewrite ?length_app; lia.
Qed.

Lemma reload_reachable_ok db default_group enabled w : rw_reachable db default_group enabled w →
  Z.of_nat (length (rw_issued w)) ≤ u64_max → reload_ok w.
Proof.
  unfold rw_reachable. intros Hr. pattern w. revert w Hr. apply rtc_ind_r.
  - intros _. apply reload_new_ok.
  - intros w w' Hr Hs IH Hmax. eapply reload_step_ok; [exact Hs|exact Hmax|]. apply IH.
    pose proof (issued_mono w w' (rtc_once _ _ Hs)). lia.
Qed.

Lemma published_covers w ticket : reload_ok w → 1 ≤ ticket ≤ published_ticket (rw_engine w) → covers w ticket.
Proof.
  intros Hok Ht. destruct Hok as [_ _ _ Hp Hc Hi _].
  destruct (Hi ltac:(lia)) as (_ & db & held & fetch & download & at_ & lists & Hdb & Hcomp).
  destruct (lookup_lt_is_Some_2 (rw_issued w) (Z.to_nat (ticket - 1))) as [seen Hseen]; [lia|].
  exists seen, db, held, fetch, download, at_, lists. split; [done|].
  split; [eapply Hc; [exact Hseen|lia]|done].
Qed.

End reload.

(** ** Properties *)


(** ** Examples *)


(** ** Where a verdict does not follow the rules *)

(** A check that read the index before a reload stores its verdict after the
    caches were cleared: the old verdict is answered for up to a minute. *)
Theorem overtaken_check_is_cached :
  let M := demo_matchers in let G := demo_gate in let I := map_to_list_order in
  let L := assoc_maps in let N := demo_networks in let bloom := λ _ : Z, demo_bloom in
  let e := engine_new bloom 3 true in
  let verdict := evaluate (eng_index e) track 1 in
  let e1 := (reload to_ascii_lowercase bloom e ReuseHeld demo_db demo_download []).2 in
  let e2 := store_verdict e1 0 (demo_key track 1) verdict TTL_SECS 100 in
  evaluate (eng_index e2) track 1 = Block Source.Blocklist ∧
  (filter_check demo_key e2 0 track 1 159).1 = FdAllow ∧
  (filter_check demo_key e2 1 track 1 159).1 = FdAllow ∧
  (filter_check demo_key e2 0 track 1 160).1 = FdBlock Source.Blocklist.
Proof. vm_compute. repeat split. Qed.

(** A downloaded list that names the host exactly hides the manual wildcard
    that covers it: the host is no longer denied by hand, and turning blocking
    off releases it, while a name only the wildcard covers stays blocked. *)
Theorem manual_wildcard_shadowed :
  let M := demo_matchers in let G := demo_gate in let I := map_to_list_order in
  let L := assoc_maps in let N := demo_networks in let bloom := λ _ : Z, demo_bloom in
  let e := set_blocking_enabled
    (reload to_ascii_lowercase bloom (engine_new bloom 3 true) ReuseHeld demo_db demo_download []).2 false in
  let listed := of_string "ads.evil.example" in let other := of_string "x.evil.example" in
  block_matches (engine_explain e listed 1) =
    [mkBlockMatch BmBlocklist (Some 10) (of_string "ads") MtExact;
     mkBlockMatch BmManual None (of_string "Manual blocklist") MtWildcard] ∧
  (filter_check demo_key e 0 listed 1 100).1 = FdAllow ∧
  (filter_check demo_key e 0 other 1 100).1 = FdBlock Source.Blocklist.
Proof. vm_compute. repeat split. Qed.

(** A load of the groups that fails at its second query has already replaced
    the clients, but retires nothing: an address keeps the group a thread
    remembers for it. *)
Theorem half_loaded_groups_linger :
  let M := demo_matchers in let G := demo_gate in let I := map_to_list_order in
  let L := assoc_maps in let N := demo_networks in let bloom := λ _ : Z, demo_bloom in
  let e := (load_client_groups demo_parse_ip (engine_new bloom 3 true) (inr [([7], 2)]) (inr [])).2 in
  let e1 := (resolve_group e 0 (V4 7) 100).2 in
  let r := load_client_groups demo_parse_ip e1 (inr [([7], 1)]) (inl "disk I/O error"%string) in
  r.1 = inl (Error.DatabaseError "disk I/O error") ∧
  resolve_group_uncached r.2 (V4 7) = 1 ∧
  (resolve_group r.2 0 (V4 7) 159).1 = 2 ∧ (resolve_group r.2 1 (V4 7) 159).1 = 1.
Proof. vm_compute. repeat split. Qed.
