(* ===== verification/BlockCandidate.v ===== *)
(** Trying a candidate list on names, [match_candidate] of
    [infrastructure/src/dns/block_filter/engine.rs]: what it reports is what the
    list would enforce once added. *)

From Stdlib Require Import String.
From S2P Require Import Prelude Errors Text Net Float64 CacheRecord CacheBloom SuffixTrie BlockIndex.
From S2P Require Import BlockList BlockRules BlockEnforce BlockBuild BlockDecision SubnetMatcher BlockEngine.

#[local] Set Default Proof Using "Type".

Section candidate.
Context `{Matchers}.
Context (to_lowercase : str → str).

Definition regex_of (p : str) : option Regex := regex_new (of_string "(?i)" ++ p).

Lemma compile_candidates_spec regexes :
  match compile_candidates regexes with
  | inl p => ∃ pre post, regexes = pre ++ p :: post ∧ regex_of p = None ∧ ∀ q, q ∈ pre → is_Some (regex_of q)
  | inr res => ∀ re, re ∈ res ↔ ∃ p, p ∈ regexes ∧ regex_of p = Some re
  end.
Proof.
  induction regexes as [|p regexes IH]; cbn [compile_candidates].
  { intros re. rewrite exists_elem_nil. split; [by intros ?%not_elem_of_nil|done]. }
  change (regex_new (of_string "(?i)" ++ p)) with (regex_of p). destruct (regex_of p) as [re|] eqn:Ep.
  - destruct (compile_candidates regexes) as [q|res].
    + destruct IH as (pre & post & -> & Hq & Hpre). exists (p :: pre), post. split; [done|]. split; [done|].
      intros r [->|Hr]%elem_of_cons; [by rewrite Ep|by apply Hpre].
    + intros re'. rewrite elem_of_cons, IH, exists_elem_cons, Ep. split.
      * intros [->|?]; [by left|by right].
      * intros [[= ->]|?]; [by left|by right].
  - exists [], regexes. split; [done|]. split; [done|]. by intros q ?%not_elem_of_nil.
Qed.

Lemma candidate_entries entries ex t ps :
  foldl candidate_entry (ex, t, ps) entries =
  (list_to_set (omap exact_name entries) ∪ ex,
   foldl trie_add t ((λ p, (p, 1)) <$> omap suffix_pattern entries), ps ++ omap pattern_text entries).
Proof.
  revert ex t ps. induction entries as [|e entries IH]; intros ex t ps; cbn [foldl].
  { cbn [omap list_omap list_to_set fmap list_fmap foldl]. by rewrite app_nil_r, union_empty_l_L. }
  assert (Hset : ∀ n : str, list_to_set (omap exact_name entries) ∪ ({[n]} ∪ ex) =
    ({[n]} ∪ list_to_set (omap exact_name entries)) ∪ ex :> gset str)
    by (intros n; by rewrite union_assoc_L, (union_comm_L _ {[n]})).
  destruct e; cbn [candidate_entry]; rewrite IH;
    cbn [omap list_omap exact_name suffix_pattern pattern_text fmap list_fmap foldl list_to_set];
    rewrite ?Hset; try done. by rewrite <-app_assoc.
Qed.

Lemma candidate_trie_lookup entries d :
  negb (trie_lookup (foldl trie_add trie_default ((λ p, (p, 1)) <$> omap suffix_pattern entries)) d =? 0) = true ↔
  ∃ e p, e ∈ entries ∧ suffix_pattern e = Some p ∧ is_below d (suffix_of p).
Proof.
  fold (trie_of ((λ p, (p, 1)) <$> omap suffix_pattern entries)).
  rewrite negb_true_iff, Z.eqb_neq, trie_of_lookup, bits_below_nonzero.
  - split.
    + intros (r & Hr & Hb). apply list_elem_of_fmap in Hr as (p & -> & Hp).
      apply list_elem_of_omap in Hp as (e & He & Ep). by exists e, p.
    + intros (e & p & He & Ep & Hb). exists (p, 1). split; [|done]. apply list_elem_of_fmap. exists p.
      split; [done|]. apply list_elem_of_omap. by exists e.
  - apply Forall_forall. intros r Hr. by apply list_elem_of_fmap in Hr as (p & -> & _).
Qed.

Lemma candidate_exact entries d :
  d ∈ (list_to_set (omap exact_name entries) ∪ ∅ : gset str) ↔ ∃ e, e ∈ entries ∧ exact_name e = Some d.
Proof. by rewrite union_empty_r_L, elem_of_list_to_set, list_elem_of_omap. Qed.

Lemma candidate_lines (entries : list ParsedEntry) d :
  (∃ e, e ∈ entries ∧ exact_name e = Some d) ∨ (∃ e p, e ∈ entries ∧ suffix_pattern e = Some p ∧ is_below d (suffix_of p))
  ↔ ∃ e, e ∈ entries ∧ entry_covers e d.
Proof.
  setoid_rewrite entry_covers_items. split.
  - intros [(e & He & Hx)|(e & p & He & Hx)]; exists e; (split; [done|]); [by left|right; by exists p].
  - intros (e & He & [Hx|(p & Hx)]); [left; by exists e|right; by exists e, p].
Qed.

Lemma candidate_patterns (entries : list ParsedEntry) d :
  match match omap pattern_text entries with [] => None | _ => ac_build (omap pattern_text entries) end with
  | Some ac => ac_is_match ac d
  | None => false
  end = true ↔ pattern_hits entries d.
Proof.
  unfold pattern_hits. destruct (omap pattern_text entries) as [|p ps]; [split; [done|by intros (? & ? & _)]|].
  destruct (ac_build (p :: ps)) as [ac|].
  - split; [intros Hm; by exists ac|]. by intros (ac' & _ & [= ->] & ?).
  - split; [done|]. by intros (? & _ & ? & _).
Qed.

End candidate.

(** ** Properties *)

(** A candidate list is reported to hit exactly the names it would deny once
    it is a list of the group: those a line covers or a pattern hits, in lower
    case, and those one of its regexes matches; the first regex that does not
    compile is the error. *)
Theorem candidate_matches_what_it_enforces `{Matchers} (to_lowercase : str → str)
    (domains list_lines regexes : list str) :
  let text := join [10] list_lines in
  match match_candidate to_lowercase domains list_lines regexes with
  | inl p => ∃ pre post, regexes = pre ++ p :: post ∧ regex_of p = None ∧ ∀ q, q ∈ pre → is_Some (regex_of q)
  | inr hits => length hits = length domains ∧
      ∀ i d hit, domains !! i = Some d → hits !! i = Some hit →
        let d := to_ascii_lowercase d in
        hit = true ↔ line_covers to_lowercase text d ∨ pattern_hits (parse_list_text to_lowercase text) d ∨
          ∃ p re, p ∈ regexes ∧ regex_of p = Some re ∧ regex_is_match re d = Some true
  end.
Proof.
  intros text. unfold match_candidate. fold text. rewrite candidate_entries. cbn [app].
  pose proof (compile_candidates_spec regexes) as Hr. destruct (compile_candidates regexes) as [p|res]; [done|].
  split; [by rewrite length_fmap|]. intros i d0 hit Hd Hh. set (d := to_ascii_lowercase d0). rewrite list_lookup_fmap, Hd in Hh. injection Hh as <-. fold d.
  set (es := parse_list_text to_lowercase text).
  rewrite !orb_true_iff, bool_decide_eq_true, candidate_exact, candidate_trie_lookup, candidate_patterns, candidate_lines.
  unfold line_covers. fold es. rewrite existsb_exists. setoid_rewrite <-list_elem_of_In.
  assert (Hre : (∃ re, re ∈ res ∧ default false (regex_is_match re d) = true) ↔
    ∃ p re, p ∈ regexes ∧ regex_of p = Some re ∧ regex_is_match re d = Some true).
  { split.
    - intros (re & Hin & Hm). apply Hr in Hin as (p & Hp & Ep). exists p, re. split; [done|]. split; [done|].
      by destruct (regex_is_match re d) as [[]|].
    - intros (p & re & Hp & Ep & Hm). exists re. split; [apply Hr; by exists p|by rewrite Hm]. }
  rewrite Hre. clear. tauto.
Qed.

Example candidate_example :
  let M := demo_matchers in
  match_candidate to_ascii_lowercase [of_string "A.Track.example"; of_string "ok.example"; of_string "casino.y"]
    [of_string "||track.example^"] [of_string "casino"] = inr [true; false; true].
Proof. vm_compute. reflexivity. Qed.
