(* ===== verification/QueryLogged.v ===== *)
(** Every query leaves one entry in the log: what [execute] writes, and what an
    entry says of the reply. *)

From Stdlib Require Import String.
From S2P Require Import Prelude Errors Text DropCounter Net RateLimiter Float64 Heuristics.
From S2P Require Import Net Guards CookieGuard BlockDecision BlockEngine QueryHandler.

#[local] Set Default Proof Using "Type".

Section logged.
Context `{FilterPort, ResolverPort, LruMaps, Hmac} (log2 : f32 → f32).
Implicit Types (uc : HandleDnsQueryUseCase) (k : Clocks) (rq : DnsRequest) (s : Server).

(** ** Entries *)

Definition written uc (o : option QueryLog) : list QueryLog :=
  match o with Some q => if log_queries uc then [q] else [] | None => [] end.

(** The entry is about this request. *)
Definition entry_for rq (q : QueryLog) : Prop :=
  ql_domain q = rq_domain rq ∧ ql_record_type q = rq_record_type rq
  ∧ ql_client_ip q = rq_client_ip rq ∧ ql_protocol q = rq_protocol rq ∧ ql_query_source q = SrcClient.

(** The errors a client gets for a query that was refused. *)
Definition refusal (e : DomainError) : bool :=
  match e with
  | Error.Blocked | Error.DnsRateLimited | Error.DnsRateLimitedSlip | Error.DnsTunnelingDetected
  | Error.DgaDomainDetected | Error.DnsCookieInvalid | Error.FilteredQuery _ | Error.NxDomain => true
  | _ => false
  end.

(** [m] writes at most one entry, [o], and [Q] relates it to how it ends. *)
Definition accounts {A} uc (m : M A) (Q : result A → option QueryLog → Prop) : Prop :=
  ∀ s, ∃ o, sv_log (m s).2 = sv_log s ++ written uc o ∧ Q (m s).1 o.

(** Writes nothing and goes on. *)
Definition quiet {A} (r : result A) (o : option QueryLog) : Prop :=
  match r with Ok _ => o = None | _ => False end.

(** Writes nothing and goes on, or refuses the query and says so. *)
Definition guards {A} rq (r : result A) (o : option QueryLog) : Prop :=
  match r with
  | Ok _ => o = None
  | Err e => refusal e = true ∧ ∃ q, o = Some q ∧ entry_for rq q ∧ ql_blocked q = true
      ∧ is_Some (ql_block_source q)
  | Panic _ => False
  end.

(** One entry, which says whether the query was refused. *)
Definition settled (lost : DomainError → Prop) rq (r : result DnsResolution) (o : option QueryLog) : Prop :=
  match r with
  | Ok _ => ∃ q, o = Some q ∧ entry_for rq q ∧ ql_blocked q = false ∧ ql_block_source q = None
  | Err e =>
      match o with
      | Some q => entry_for rq q
          ∧ ((ql_blocked q = true ∧ refusal e = true ∧ is_Some (ql_block_source q))
             ∨ (ql_blocked q = false ∧ ql_block_source q = None))
      | None => lost e
      end
  | Panic _ => False
  end.

(** ** Rules *)

Lemma written_None uc : written uc None = [].
Proof. done. Qed.

Lemma acc_weaken {A} uc (m : M A) (Q Q' : result A → option QueryLog → Prop) :
  accounts uc m Q → (∀ r o, Q r o → Q' r o) → accounts uc m Q'.
Proof. intros Hm HQ s. destruct (Hm s) as (o & Ho & Hr). eauto. Qed.

Lemma acc_ret {A} uc (a : A) (Q : result A → option QueryLog → Prop) :
  Q (Ok a) None → accounts uc (mret a) Q.
Proof. intros HQ s. exists None. split; [|exact HQ]. cbn. by rewrite app_nil_r. Qed.

Lemma acc_fails {A} uc e (Q : result A → option QueryLog → Prop) :
  Q (Err e) None → accounts uc (fails e) Q.
Proof. intros HQ s. exists None. split; [|exact HQ]. cbn. by rewrite app_nil_r. Qed.

(** After [m], either [f] goes on with nothing written yet, or it ends at once. *)
Lemma acc_bind_or {A B} uc (m : M A) (f : A → M B) (Q1 : result A → option QueryLog → Prop)
    (Q : result B → option QueryLog → Prop) :
  accounts uc m Q1 →
  (∀ a o, Q1 (Ok a) o → (o = None ∧ accounts uc (f a) Q) ∨ ∃ r, (∀ s, f a s = (r, s)) ∧ Q r o) →
  (∀ e o, Q1 (Err e) o → Q (Err e) o) → (∀ c o, ¬ Q1 (Panic c) o) →
  accounts uc (m ≫= f) Q.
Proof.
  intros Hm Hf He Hp s. destruct (Hm s) as (o & Ho & Hr). unfold mbind, M_bind.
  destruct (m s) as [[a|e|c] s']; cbn [fst snd] in *; [|by eauto|by destruct (Hp c o)].
  destruct (Hf a o Hr) as [[-> Hfa]|(r & Hfa & HQ)]; [|exists o; by rewrite Hfa].
  destruct (Hfa s') as (o' & Ho' & Hr').
  exists o'. rewrite Ho', Ho, written_None, app_nil_r. done.
Qed.

Lemma acc_bind {A B} uc (m : M A) (f : A → M B) (Q1 : result A → option QueryLog → Prop)
    (Q : result B → option QueryLog → Prop) :
  accounts uc m Q1 →
  (∀ a o, Q1 (Ok a) o → o = None ∧ accounts uc (f a) Q) →
  (∀ e o, Q1 (Err e) o → Q (Err e) o) → (∀ c o, ¬ Q1 (Panic c) o) →
  accounts uc (m ≫= f) Q.
Proof. intros Hm Hf He Hp. eapply acc_bind_or; eauto. Qed.

Lemma acc_quiet {A B} uc (m : M A) (f : A → M B) Q :
  accounts uc m quiet → (∀ a, accounts uc (f a) Q) → accounts uc (m ≫= f) Q.
Proof. intros Hm Hf. apply (acc_bind uc m f quiet Q Hm);
    [intros a o ->; split; [done|apply Hf]|by intros e o []|by intros c o []]. Qed.

Lemma acc_guard {A} uc rq (m : M unit) (f : unit → M A) (Q : result A → option QueryLog → Prop) :
  accounts uc m (guards rq) → (∀ a, accounts uc (f a) Q) →
  (∀ e o, guards (A := unit) rq (Err e) o → Q (Err e) o) → accounts uc (m ≫= f) Q.
Proof.
  intros Hm Hf He. apply (acc_bind uc m f (guards rq) Q Hm);
    [intros a o ->; split; [done|apply Hf]|exact He|by intros c o []].
Qed.

Lemma acc_if {A} uc (b : bool) (m m' : M A) Q :
  accounts uc m Q → accounts uc m' Q → accounts uc (if b then m else m') Q.
Proof. by destruct b. Qed.

(** A step that leaves the log alone and cannot fail. *)
Lemma acc_step {A} uc (m : M A) (a : Server → A) (t : Server → Server) :
  (∀ s, m s = (Ok (a s), t s)) → (∀ s, sv_log (t s) = sv_log s) → accounts uc m quiet.
Proof. intros Hm Ht s. exists None. rewrite Hm. cbn. by rewrite app_nil_r. Qed.

(** ** Steps that write nothing *)

Lemma acc_ask uc : accounts uc ask quiet.
Proof. intros s. exists None. cbn. by rewrite app_nil_r. Qed.

Lemma quiet_lift {A} uc (o : outcome A) a : o = Ret a → accounts uc (lift o) quiet.
Proof. intros -> s. exists None. cbn. by rewrite app_nil_r. Qed.

Lemma cookie_status_total g ip opt now : ∃ c, (cookie_status g ip opt now).2 = Ret c.
Proof.
  unfold cookie_status. pose proof (has_valid_cookie_eq g ip opt now) as Hh.
  destruct (length opt <=? CLIENT_COOKIE_LEN)%nat; [by eexists|].
  destruct (has_valid_cookie g ip opt now) as [g' v]. cbn [snd] in *. subst v. by eexists.
Qed.

Lemma acc_cookie uc k rq : accounts uc (request_cookie_status k rq) quiet.
Proof.
  intros s. exists None. unfold request_cookie_status.
  destruct (rq_edns_cookie rq) as [c|]; [|cbn; by rewrite app_nil_r].
  destruct (sv_cookies s) as [g|]; [|cbn; by rewrite app_nil_r].
  pose proof (cookie_status_total g (rq_client_ip rq) (as_bytes c) (unix_secs k)) as [v Hv].
  destruct (cookie_status _ _ _ _) as [g' o]. cbn [snd] in Hv. subst o. cbn. by rewrite app_nil_r.
Qed.

Lemma acc_base uc k rq g : accounts uc (base_query_log k rq g)
  (λ r o, match r with
          | Ok q => o = None ∧ entry_for rq q ∧ ql_blocked q = false ∧ ql_block_source q = None
          | _ => False end).
Proof.
  apply (acc_bind uc _ _ quiet); [apply acc_cookie| |by intros e o []|by intros c o []].
  intros c o ->. split; [done|]. by apply acc_ret.
Qed.

Lemma acc_log uc q : accounts uc (log uc q) (λ r o, match r with Ok _ => o = Some q | _ => False end).
Proof.
  intros s. exists (Some q). unfold log, written. destruct (log_queries uc) eqn:E; cbn; [done|].
  by rewrite app_nil_r.
Qed.

(** A step over one part of the server. *)
Ltac port_step := intros s; exists None; cbn;
  repeat (case_match; try done); cbn; by rewrite app_nil_r.

Lemma acc_group uc k ip : accounts uc (resolve_client_group k ip) quiet.
Proof. unfold resolve_client_group. port_step. Qed.
Lemma acc_filter uc k d g : accounts uc (filter_domain k d g) quiet.
Proof. unfold filter_domain. port_step. Qed.
Lemma acc_try_cache uc q : accounts uc (try_cache q) quiet.
Proof. unfold try_cache. port_step. Qed.
Lemma acc_resolve uc q : accounts uc (resolve q) quiet.
Proof. unfold resolve. port_step. Qed.
Lemma acc_rate uc f : accounts uc (rate_limited f) quiet.
Proof. unfold rate_limited. port_step. Qed.
Lemma acc_track uc k ip : accounts uc (maybe_track_client uc k ip) quiet.
Proof. unfold maybe_track_client. port_step. Qed.
Lemma acc_emit uc rq b : accounts uc (emit_events uc rq b) quiet.
Proof.
  apply acc_quiet; [|intros _]; [unfold emit_tunneling_event|unfold emit_dga_event]; port_step.
Qed.

Lemma acc_cloaked uc k chain g : accounts uc (is_cname_cloaked k chain g) quiet.
Proof.
  induction chain as [|d chain IH]; [by apply acc_ret|]. cbn [is_cname_cloaked].
  apply acc_quiet; [apply acc_filter|]. intros v. apply acc_if; [by apply acc_ret|exact IH].
Qed.

(** ** Steps that write the entry *)

Lemma acc_then {A B} uc (m : M A) (P : option QueryLog → Prop) (r : result B)
    (m' : M B) (Q : result B → option QueryLog → Prop) :
  (∀ s, m' s = (r, s)) →
  accounts uc m (λ r o, match r with Ok _ => P o | _ => False end) → (∀ o, P o → Q r o) →
  accounts uc (m;; m') Q.
Proof.
  intros Hm' Hm HQ s. destruct (Hm s) as (o & Ho & Hr). unfold mbind, M_bind.
  destruct (m s) as [[a|e|c] s']; cbn [fst snd] in *; try done.
  exists o. rewrite Hm'. cbn [fst snd]. auto.
Qed.

Lemma acc_log_with uc k rq g f : accounts uc (log_with uc k rq g f)
  (λ r o, match r with
          | Ok _ => ∃ q, o = Some (f q) ∧ entry_for rq q ∧ ql_blocked q = false ∧ ql_block_source q = None
          | _ => False end).
Proof.
  eapply acc_bind; [apply acc_base| |by intros e o []|by intros c o []].
  intros q o (-> & Hq & Hb & Hs). split; [done|]. eapply acc_weaken; [apply acc_log|].
  intros [u|e|c] o; try done. intros ->. eauto.
Qed.

(** Logs a block and fails with a refusal. *)
Lemma acc_block {A} uc k rq g st src e (Q : result A → option QueryLog → Prop) :
  (∀ q, entry_for rq q → ql_blocked q = true → is_Some (ql_block_source q) → Q (Err e) (Some q)) →
  accounts uc (log_with uc k rq g (log_block st src);; fails e) Q.
Proof.
  intros HQ. eapply acc_then; [done|apply acc_log_with|].
  intros o (q & -> & Hq & Hb & Hs). apply HQ; [exact Hq|done|by eexists].
Qed.

Lemma acc_block_guard {A} uc k rq g st src e : refusal e = true →
  accounts (A := A) uc (log_with uc k rq g (log_block st src);; fails e) (guards rq).
Proof. intros He. apply acc_block. intros q Hq Hb Hs. cbn. eauto 10. Qed.

(** An update that says what was answered keeps what the entry is about. *)
Definition answers (f : QueryLog → QueryLog) : Prop := ∀ rq q, entry_for rq q →
  entry_for rq (f q) ∧ ql_blocked (f q) = ql_blocked q ∧ ql_block_source (f q) = ql_block_source q.

Lemma acc_answer {A} uc k rq g f (r : result A) (m' : M A) (Q : result A → option QueryLog → Prop) :
  (∀ s, m' s = (r, s)) → answers f →
  (∀ q, entry_for rq q → ql_blocked q = false → ql_block_source q = None → Q r (Some q)) →
  accounts uc (log_with uc k rq g f;; m') Q.
Proof.
  intros Hm' Hf HQ. eapply acc_then; [exact Hm'|apply acc_log_with|].
  intros o (q & -> & Hq & Hb & Hs). destruct (Hf rq q Hq) as (Hq' & Hb' & Hs').
  apply HQ; [done|by rewrite Hb'|by rewrite Hs'].
Qed.

(** ** Guards *)

Lemma acc_apply_limit uc k rq g d : accounts uc (apply_rate_limit uc k rq g d) (guards rq).
Proof. destruct d; cbn [apply_rate_limit]; try (by apply acc_ret); by apply acc_block_guard. Qed.

Lemma acc_charge uc k rq g : accounts uc (charge_nxdomain_budget uc k rq g) (guards rq).
Proof. apply acc_quiet; [apply acc_rate|]. intros d. apply acc_apply_limit. Qed.

Lemma acc_check_cookie uc k rq g : accounts uc (check_cookie uc k rq g) (guards rq).
Proof.
  apply acc_quiet; [apply acc_ask|]. intros s. apply acc_if; [|by apply acc_ret].
  eapply acc_bind; [apply acc_base| |by intros e o []|by intros c o []].
  intros q o (-> & Hq & Hb & Hs). split; [done|]. apply acc_if; [by apply acc_ret|].
  eapply acc_then; [done|apply acc_log|]. intros o ->. cbn. split; [done|].
  eexists. split; [done|]. split; [exact Hq|]. split; [done|by eexists].
Qed.

Lemma acc_hits uc k rq g hits : accounts uc (apply_hits uc k rq g hits) (guards rq).
Proof.
  induction hits as [|[signal|signal] hits IH]; cbn [apply_hits]; [by apply acc_ret|..];
    (apply (acc_guard uc rq); [|intros _; exact IH|done]);
    [unfold apply_tunneling_action|unfold apply_dga_action]; case_match;
    try (by apply acc_ret); by apply acc_block_guard.
Qed.

Lemma acc_screen_answer uc k rq g r : accounts uc (screen_answer uc k rq g r) (guards rq).
Proof.
  unfold screen_answer. apply (acc_guard uc rq); [|intros _|done].
  { apply acc_if; [by apply acc_block_guard|by apply acc_ret]. }
  apply (acc_guard uc rq); [|intros _|done].
  { apply acc_if; [|by apply acc_ret]. case_match; [by apply acc_ret|].
    apply (acc_guard uc rq); [apply acc_charge|intros _|done]. by apply acc_block_guard. }
  apply acc_if; [|by apply acc_ret]. case_match; [by apply acc_ret|]. by apply acc_block_guard.
Qed.

(** ** The query *)

(** A query a Safe Search rule redirects. *)
Definition redirected uc rq : Prop :=
  ∃ cname_for g target, safe_search uc = Some cname_for ∧ cname_for (rq_domain rq) g = Some target.

(** The errors that leave no entry: a shed query, and the failure of a
    redirected one. *)
Definition unlogged uc rq (e : DomainError) : Prop :=
  e = Error.UpstreamCapacityExhausted ∨ redirected uc rq.

Lemma guards_settled {A} lost rq e o : guards (A := A) rq (Err e) o → settled lost rq (Err e) o.
Proof. intros (He & q & -> & Hq & Hb & Hs). cbn. split; [done|]. left. done. Qed.

Lemma acc_slot {A} uc k (m : M A) (Q : result A → option QueryLog → Prop) :
  accounts uc m Q → Q (Err Error.UpstreamCapacityExhausted) None → accounts uc (with_upstream_slot k m) Q.
Proof.
  intros Hm He s. unfold with_upstream_slot. destruct (sv_admission s) as [a|]; [|apply Hm].
  destruct (try_admit a (now_ns k)) as [a' [|]]; [|exists None; cbn; by rewrite app_nil_r].
  destruct (Hm (set_admission a' s)) as (o & Ho & Hr). exists o.
  destruct (m (set_admission a' s)) as [r s']. cbn [fst snd] in *. split; [|done].
  by destruct (sv_admission s').
Qed.

Lemma acc_cname_block lost uc k rq r g :
  accounts uc (block_cname_cloaking uc k rq r g) (settled lost rq).
Proof.
  apply acc_quiet; [port_step|]. intros _. apply acc_block. intros q Hq Hb Hs. cbn. split; [done|]. by left.
Qed.

Lemma acc_safe_search uc k rq g target : redirected uc rq →
  accounts uc (answer_safe_search uc k rq g target) (settled (unlogged uc rq) rq).
Proof.
  intros Hre. unfold answer_safe_search. set (up := with_upstream_slot k _).
  assert (accounts uc up (λ r o, o = None ∧ match r with Panic _ => False | _ => True end)) as Hup.
  { apply acc_slot; [|done]. apply acc_quiet; [apply acc_resolve|].
    intros [e|r]; [by apply acc_fails|by apply acc_ret]. }
  apply acc_quiet; [apply acc_try_cache|]. intros cached.
  apply (acc_bind uc _ _ (λ r o, o = None ∧ match r with Panic _ => False | _ => True end)).
  - destruct cached as [c|]; [|exact Hup]. apply acc_if; [by apply acc_ret|exact Hup].
  - intros r o [-> _]. split; [done|]. eapply acc_answer; [done|by intros rq' q Hq|].
    intros q Hq Hb Hs. cbn. eauto.
  - intros e o [-> _]. cbn. by right.
  - by intros c o [_ []].
Qed.

Lemma acc_probe uc k rq sc q : accounts uc (probe_cache uc k rq sc q)
  (λ r o, match r with
          | Ok None => o = None
          | Ok (Some a) => settled (unlogged uc rq) rq (Ok a) o
          | Err e => settled (unlogged uc rq) rq (Err e) o
          | Panic c => False
          end).
Proof.
  apply acc_quiet; [apply acc_try_cache|]. intros [c|]; [|by apply acc_ret].
  apply acc_if; [|apply acc_if; [|by apply acc_ret]].
  - apply acc_quiet; [apply acc_if; [apply acc_cloaked|by apply acc_ret]|]. intros b. apply acc_if.
    { apply acc_quiet; [port_step|]. intros _. apply acc_block. intros e He Hb Hs. cbn. split; [done|]. by left. }
    apply acc_if; [by apply acc_ret|].
    apply (acc_guard uc rq); [apply acc_if; [apply acc_charge|by apply acc_ret]|intros _|apply guards_settled].
    eapply acc_answer; [done|by intros rq' x Hx|]. intros x Hx Hb Hs. cbn. eauto.
  - apply (acc_guard uc rq); [apply acc_if; [apply acc_charge|by apply acc_ret]|intros _|apply guards_settled].
    eapply acc_answer; [done|by intros rq' x Hx|]. intros x Hx Hb Hs. cbn. split; [done|]. by right.
Qed.

Lemma acc_relay uc k rq sc r : accounts uc (relay_resolution uc k rq sc r) (settled (unlogged uc rq) rq).
Proof.
  apply acc_quiet; [apply acc_if; [apply acc_cloaked|by apply acc_ret]|]. intros b. apply acc_if.
  { apply acc_cname_block. }
  apply (acc_guard uc rq); [apply acc_if; [apply acc_screen_answer|by apply acc_ret]|intros _|apply guards_settled].
  destruct (dnssec_refusal uc rq r) as [[st e]|].
  - eapply acc_answer; [done|by intros rq' x Hx|]. intros x Hx Hb Hs. cbn. split; [done|]. by right.
  - apply acc_quiet; [apply acc_if; [apply acc_emit|by apply acc_ret]|intros _].
    apply (acc_guard uc rq); [apply acc_if; [apply acc_charge|by apply acc_ret]|intros _|apply guards_settled].
    eapply acc_answer; [done|by intros rq' x Hx|]. intros x Hx Hb Hs. cbn. eauto.
Qed.

Lemma acc_relay_error uc k rq sc e : accounts uc (relay_error uc k rq sc e) (settled (unlogged uc rq) rq).
Proof.
  assert (∀ g st e', accounts uc (log_with uc k rq g (log_status st);; fails e') (settled (unlogged uc rq) rq)) as Hst.
  { intros g st e'. eapply acc_answer; [done|by intros rq' x Hx|].
    intros x Hx Hb Hs. cbn. split; [done|]. by right. }
  destruct e; try apply Hst; unfold relay_error.
  - apply acc_quiet; [apply acc_if; [apply acc_emit|by apply acc_ret]|intros _].
    apply (acc_guard uc rq); [apply acc_charge|intros _; apply Hst|apply guards_settled].
  - apply acc_block. intros q Hq Hb Hs. cbn. split; [done|]. by left.
Qed.

Lemma acc_answer_query uc k rq sc : accounts uc (answer_query uc k rq sc) (settled (unlogged uc rq) rq).
Proof.
  unfold answer_query. destruct (match safe_search uc with Some f => _ | None => None end) as [target|] eqn:E.
  - apply acc_safe_search. destruct (safe_search uc) as [f|] eqn:Es; [|done]. by exists f, (sc_group_id sc), target.
  - eapply acc_bind_or; [apply acc_probe| |intros e o He; exact He|intros c o []].
    intros [a|] o Ho; [right; by exists (Ok a)|left; split; [exact Ho|]].
    apply acc_slot; [|cbn; by left]. apply acc_quiet; [apply acc_resolve|].
    intros [e|r]; [apply acc_relay_error|apply acc_relay].
Qed.

Lemma acc_execute uc k rq : accounts uc (execute log2 uc k rq) (settled (unlogged uc rq) rq).
Proof.
  unfold execute.
  apply acc_quiet; [apply acc_track|intros _]. apply acc_quiet; [apply acc_group|intros g].
  apply acc_quiet; [apply acc_rate|intros d].
  apply (acc_guard uc rq); [apply acc_apply_limit|intros _|apply guards_settled].
  apply (acc_guard uc rq); [apply acc_check_cookie|intros _|apply guards_settled].
  apply acc_quiet; [apply acc_filter|intros fd].
  assert (∀ sc, accounts uc ((if sc_detectors sc
      then apply_hits uc k rq g (screen_name log2 uc (rq_domain rq) (rq_record_type rq)) else mret tt);;
    answer_query uc k rq sc) (settled (unlogged uc rq) rq)) as Hgo.
  { intros sc. apply (acc_guard uc rq); [apply acc_if; [apply acc_hits|by apply acc_ret]|intros _|apply guards_settled].
    apply acc_answer_query. }
  destruct fd; try apply Hgo. apply acc_block. intros q Hq Hb Hs. cbn. split; [done|]. by left.
Qed.

End logged.
