(* ===== verification/QueryPaths.v ===== *)
(** The paths of a query: the refusals that come before any lookup, the
    detectors an explicit allow lifts, and the fast path beside [execute]. *)

From Stdlib Require Import String.
From S2P Require Import Prelude Errors Text DropCounter Net RateLimiter Float64 Heuristics.
From S2P Require Import Net Guards CookieGuard BlockDecision BlockEngine QueryHandler QueryLogged.

#[local] Set Default Proof Using "Type".

Section runs.
Context `{FilterPort, ResolverPort, LruMaps, Hmac} (log2 : f32 → f32).
Implicit Types (uc : HandleDnsQueryUseCase) (k : Clocks) (rq : DnsRequest) (s : Server).

(** ** What a step leaves alone *)

(** Only the limiter, the cookie keys, the log and the client tracker may differ. *)
Record aside s s' : Prop := {
  as_filter : sv_filter s' = sv_filter s;
  as_resolver : sv_resolver s' = sv_resolver s;
  as_admission : sv_admission s' = sv_admission s;
  as_tunneling : sv_tunneling s' = sv_tunneling s;
  as_dga : sv_dga s' = sv_dga s;
}.

#[export] Instance aside_preorder : PreOrder aside.
Proof.
  split; [by intros s|]. intros s1 s2 s3 [] []. split; congruence.
Qed.

Definition stays {A} (m : M A) : Prop := ∀ s, aside s (m s).2.

Lemma stays_bind {A B} (m : M A) (f : A → M B) : stays m → (∀ a, stays (f a)) → stays (m ≫= f).
Proof.
  intros Hm Hf s. specialize (Hm s). unfold mbind, M_bind.
  destruct (m s) as [[a|e|c] s']; cbn [snd] in *; [|done..].
  etrans; [exact Hm|apply Hf].
Qed.

Lemma stays_ret {A} (a : A) : stays (mret a).
Proof. by intros s. Qed.
Lemma stays_fails {A} e : stays (A := A) (fails e).
Proof. by intros s. Qed.
Lemma stays_if {A} (b : bool) (m m' : M A) : stays m → stays m' → stays (if b then m else m').
Proof. by destruct b. Qed.
Lemma stays_lift {A} (o : outcome A) : stays (lift o).
Proof. intros s. by destruct o. Qed.

Lemma stays_cookie k rq : stays (request_cookie_status k rq).
Proof.
  intros s. unfold request_cookie_status. destruct (rq_edns_cookie rq); [|done].
  destruct (sv_cookies s) as [g|]; [|done]. destruct (cookie_status _ _ _ _) as [g' o]. by destruct o.
Qed.

Lemma stays_log uc q : stays (log uc q).
Proof. intros s. unfold log. by destruct (log_queries uc). Qed.

Lemma stays_base k rq g : stays (base_query_log k rq g).
Proof. apply stays_bind; [apply stays_cookie|]. intros c. apply stays_ret. Qed.

Lemma stays_log_with uc k rq g f : stays (log_with uc k rq g f).
Proof. apply stays_bind; [apply stays_base|]. intros q. apply stays_log. Qed.

Lemma stays_refuse {A} uc k rq g f e : stays (A := A) (log_with uc k rq g f;; fails e).
Proof. apply stays_bind; [apply stays_log_with|]. intros _. apply stays_fails. Qed.

Lemma stays_limit uc k rq g d : stays (apply_rate_limit uc k rq g d).
Proof. destruct d; (apply stays_ret || apply stays_refuse). Qed.

Lemma stays_rate f : stays (rate_limited f).
Proof. intros s. unfold rate_limited. by destruct (f (sv_limiter s)). Qed.

Lemma stays_check_cookie uc k rq g : stays (check_cookie uc k rq g).
Proof.
  apply stays_bind; [by intros s|]. intros s. apply stays_if; [|apply stays_ret].
  apply stays_bind; [apply stays_base|]. intros q. apply stays_if; [apply stays_ret|].
  apply stays_bind; [apply stays_log|]. intros _. apply stays_fails.
Qed.

Lemma stays_track uc k ip : stays (maybe_track_client uc k ip).
Proof. intros s. unfold maybe_track_client. by repeat case_match. Qed.

(** ** Running a query up to the filter *)

(** The group and the filter's decision for a name, and the filter after it. *)
Definition decided k ip domain (f : filter_state) : filter_state * Z * FilterDecision :=
  let '(f, g) := port_resolve_group f ip (filter_secs k) in
  let '(f, d) := port_check f domain g (filter_secs k) in (f, g, d).

(** Either the query is refused before the filter is asked, and nothing but the
    log and the limiter shows it, or the filter is asked at [s'] and its answer
    is followed by [next]. *)
Definition before_filter uc k rq g : M unit :=
  decision ← rate_limited (λ l, check l (rq_client_ip rq) (rq_protocol rq) (now_ns k));
  apply_rate_limit uc k rq g decision;; check_cookie uc k rq g.

Definition after_filter uc k rq g (d : FilterDecision) : M DnsResolution :=
  match d with
  | FdBlock source => log_with uc k rq g (log_block "BLOCKED" source);; fails Error.Blocked
  | _ =>
      let screening := screen_query uc g d in
      (if sc_detectors screening
       then apply_hits uc k rq g (screen_name log2 uc (rq_domain rq) (rq_record_type rq))
       else mret tt);;
      answer_query uc k rq screening
  end.

Lemma bind_eq {A B} (m : M A) (f : A → M B) s :
  (m ≫= f) s = match m s with
    | (Ok a, s) => f a s | (Err e, s) => (Err e, s) | (Panic c, s) => (Panic c, s) end.
Proof. done. Qed.

Lemma execute_eq uc k rq s :
  let s0 := (maybe_track_client uc k (rq_client_ip rq) s).2 in
  let '(f, g) := port_resolve_group (sv_filter s) (rq_client_ip rq) (filter_secs k) in
  execute log2 uc k rq s
  = (before_filter uc k rq g;; d ← filter_domain k (rq_domain rq) g; after_filter uc k rq g d)
      (set_filter f s0).
Proof.
  intros s0. destruct (port_resolve_group _ _ _) as [f g] eqn:Eg.
  unfold execute. rewrite bind_eq.
  assert (maybe_track_client uc k (rq_client_ip rq) s = (Ok tt, s0)) as ->.
  { unfold s0. unfold maybe_track_client. by repeat case_match. }
  rewrite bind_eq. unfold resolve_client_group.
  pose proof (as_filter _ _ (stays_track uc k (rq_client_ip rq) s)) as Hf. fold s0 in Hf.
  rewrite Hf, Eg. unfold before_filter. rewrite !bind_eq.
  destruct (rate_limited _ (set_filter f s0)) as [[d|e|c] s1]; [|done..]. rewrite !bind_eq.
  destruct (apply_rate_limit uc k rq g d s1) as [[u|e|c] s2]; [|done..]. rewrite !bind_eq.
  destruct (check_cookie uc k rq g s2) as [[u'|e|c] s3]; [|done..]. done.
Qed.

Lemma before_filter_stays uc k rq g : stays (before_filter uc k rq g).
Proof.
  apply stays_bind; [apply stays_rate|]. intros d. apply stays_bind; [apply stays_limit|].
  intros _. apply stays_check_cookie.
Qed.

Lemma before_filter_guards uc k rq g : accounts uc (before_filter uc k rq g) (guards rq).
Proof.
  apply acc_quiet; [apply acc_rate|]. intros d.
  apply (acc_guard uc rq); [apply acc_apply_limit|intros _; apply acc_check_cookie|done].
Qed.

(** The query is refused ahead of the filter, or the filter decides it. *)
Lemma execute_cases uc k rq s f g d : decided k (rq_client_ip rq) (rq_domain rq) (sv_filter s) = (f, g, d) →
  (∃ e s', execute log2 uc k rq s = (Err e, s') ∧ refusal e = true ∧ sv_resolver s' = sv_resolver s
     ∧ sv_admission s' = sv_admission s ∧ sv_tunneling s' = sv_tunneling s ∧ sv_dga s' = sv_dga s)
  ∨ (∃ s', execute log2 uc k rq s = after_filter uc k rq g d s' ∧ sv_filter s' = f
     ∧ sv_resolver s' = sv_resolver s ∧ sv_admission s' = sv_admission s
     ∧ sv_tunneling s' = sv_tunneling s ∧ sv_dga s' = sv_dga s).
Proof.
  unfold decided. intros Hd. pose proof (execute_eq uc k rq s) as He. cbv zeta in He.
  destruct (port_resolve_group _ _ _) as [f1 g1]. destruct (port_check f1 _ _ _) as [f2 d2] eqn:Ec.
  injection Hd as -> -> ->. rewrite He, bind_eq. clear He.
  pose proof (stays_track uc k (rq_client_ip rq) s) as [_ Hr1 Ha1 Ht1 Hd1].
  set (s0 := set_filter f1 _).
  destruct (before_filter_guards uc k rq g s0) as (o & _ & Hq).
  destruct (before_filter_stays uc k rq g s0) as [Hf2 Hr2 Ha2 Ht2 Hd2].
  destruct (before_filter uc k rq g s0) as [[u|e|c] s1]; cbn [fst snd] in *; [|left|done].
  - right. rewrite bind_eq. unfold filter_domain. rewrite Hf2. change (sv_filter s0) with f1. rewrite Ec.
    eexists. split; [done|]. cbn. rewrite Hr2, Ha2, Ht2, Hd2. done.
  - destruct Hq as [Hrf _]. exists e, s1. rewrite Hr2, Ha2, Ht2, Hd2. done.
Qed.

(** ** What the probes do when the gate is shut *)

Lemma cache_gate_blocked uc k domain t ip s f g source :
  decided k ip domain (sv_filter s) = (f, g, FdBlock source) →
  ∃ s', cache_gate log2 uc k domain t ip s = (Ok None, s') ∧ sv_log s' = sv_log s
    ∧ sv_resolver s' = sv_resolver s ∧ sv_limiter s' = sv_limiter s.
Proof.
  unfold decided, cache_gate. intros Hd. rewrite bind_eq. cbn [ask].
  destruct (match sv_cookies s with Some g => is_strict g | None => false end); [by eexists|].
  rewrite bind_eq. unfold resolve_client_group.
  destruct (port_resolve_group _ _ _) as [f1 g1]. rewrite bind_eq. unfold filter_domain.
  cbn [sv_filter set_filter]. destruct (port_check f1 _ _ _) as [f2 d2]. injection Hd as -> -> ->.
  cbn [is_block]. by eexists.
Qed.

(** C8: A name the filter blocks is refused before anything is looked up: no
    cache is probed, no upstream asked, no slot taken and no detector told,
    whichever path the query takes, and the fast paths leave it to [execute]
    without a trace in the log. *)
Theorem blocked_names_never_resolve {R} uc k rq s f g source
    (respond : list IpAddr → Z → option bytes → option R) (respond' : bytes → Z → option bytes → option R) :
  decided k (rq_client_ip rq) (rq_domain rq) (sv_filter s) = (f, g, FdBlock source) →
  (∃ e s', execute log2 uc k rq s = (Err e, s') ∧ refusal e = true
     ∧ sv_resolver s' = sv_resolver s ∧ sv_admission s' = sv_admission s
     ∧ sv_tunneling s' = sv_tunneling s ∧ sv_dga s' = sv_dga s)
  ∧ ∀ t protocol cookie, ∃ s' s'',
      try_cache_direct log2 uc k (rq_domain rq) t (rq_client_ip rq) protocol cookie respond s = (Ok None, s')
      ∧ try_cache_wire_direct log2 uc k (rq_domain rq) t (rq_client_ip rq) protocol cookie respond' s = (Ok None, s'')
      ∧ sv_log s' = sv_log s ∧ sv_resolver s' = sv_resolver s
      ∧ sv_log s'' = sv_log s ∧ sv_resolver s'' = sv_resolver s.
Proof.
  intros Hd. split.
  - destruct (execute_cases uc k rq s f g _ Hd) as [(e & s' & He & Hr & Hs)|(s' & He & _ & Hr & Ha & Ht & Hg)].
    { exists e, s'. auto. }
    cbn [after_filter] in He.
    pose proof (stays_refuse (A := DnsResolution) uc k rq g (log_block "BLOCKED" source) Error.Blocked s')
      as [_ Hr2 Ha2 Ht2 Hd2].
    assert ((execute log2 uc k rq s).1 = Err Error.Blocked) as He1.
    { rewrite He, bind_eq. destruct (acc_log_with uc k rq g (log_block "BLOCKED" source) s') as (o' & _ & Hq').
      by destruct (log_with _ _ _ _ _ _) as [[u|e|c] s2]. }
    exists Error.Blocked, (execute log2 uc k rq s).2. rewrite <-He1, <-surjective_pairing.
    split; [done|]. split; [done|]. rewrite He, Hr2, Ha2, Ht2, Hd2. done.
  - intros t protocol cookie. destruct (cache_gate_blocked uc k (rq_domain rq) t _ s f g source Hd)
      as (s' & Hg & Hl & Hr & _).
    exists s', s'. unfold try_cache_direct, try_cache_wire_direct. rewrite !bind_eq, Hg. done.
Qed.

(** ** Detectors an explicit allow lifts *)

(** The same server with every detector off. *)
Definition without_detectors uc : HandleDnsQueryUseCase :=
  {| safe_search := safe_search uc; client_tracking := client_tracking uc; rebinding_guard := None;
     tunneling_guard := mkTunneling false ActBlock 120 50 true; tunneling_events := false;
     tunneling_flags := None; nxdomain_hijack_guard := mkIpGuard ActBlock None;
     response_ip_filter_guard := mkIpGuard ActBlock None; dga_guard := dga_disabled; dga_events := false;
     dga_flags := None; malware_exemptions := malware_exemptions uc; dnssec_enforce := dnssec_enforce uc;
     dns64_prefix := dns64_prefix uc; log_queries := log_queries uc |}.

Lemma answer_query_undetected uc k rq g cloaking s :
  answer_query uc k rq (mkScreening g cloaking false) s
  = answer_query (without_detectors uc) k rq (mkScreening g cloaking false) s.
Proof.
  unfold answer_query. cbn [without_detectors safe_search sc_group_id].
  destruct (match safe_search uc with Some f => f _ _ | None => None end) as [target|]; [done|].
  reflexivity.
Qed.

(** The operator's word on a name: an explicit allow, or a group with malware
    detection switched off. *)
Definition detectors_lifted uc (g : Z) (d : FilterDecision) : bool := negb (sc_detectors (screen_query uc g d)).

Lemma screening_lifted uc g d : detectors_lifted uc g d = true →
  screen_query uc g d = mkScreening g (sc_cloaking (screen_query uc g d)) false.
Proof.
  unfold detectors_lifted. intros Hl%negb_true_iff. unfold screen_query in *. cbn [sc_detectors sc_cloaking] in *.
  by rewrite Hl.
Qed.

Lemma after_filter_undetected uc k rq g d s : detectors_lifted uc g d = true →
  after_filter uc k rq g d s = after_filter (without_detectors uc) k rq g d s.
Proof.
  intros Hl. unfold after_filter. change (screen_query (without_detectors uc) g d) with (screen_query uc g d).
  rewrite (screening_lifted uc g d Hl). cbn [sc_detectors].
  destruct d; [done|..]; rewrite !bind_eq; apply answer_query_undetected.
Qed.

Lemma execute_undetected uc k rq s f g d :
  decided k (rq_client_ip rq) (rq_domain rq) (sv_filter s) = (f, g, d) → detectors_lifted uc g d = true →
  execute log2 uc k rq s = execute log2 (without_detectors uc) k rq s.
Proof.
  unfold decided. intros Hd Hl.
  pose proof (execute_eq uc k rq s) as He. pose proof (execute_eq (without_detectors uc) k rq s) as He'.
  cbv zeta in He, He'. destruct (port_resolve_group _ _ _) as [f1 g1].
  destruct (port_check f1 _ _ _) as [f2 d2] eqn:Ec. injection Hd as -> -> ->.
  rewrite He, He', !bind_eq. clear He He'.
  change (before_filter (without_detectors uc) k rq g) with (before_filter uc k rq g).
  change (maybe_track_client (without_detectors uc) k) with (maybe_track_client uc k).
  set (s0 := set_filter f1 _). pose proof (as_filter _ _ (before_filter_stays uc k rq g s0)) as Hf.
  destruct (before_filter uc k rq g s0) as [[u|e|c] s1]; [|done..]. cbn [snd] in Hf.
  rewrite !bind_eq. unfold filter_domain. rewrite Hf. change (sv_filter s0) with f1. rewrite Ec.
  by apply after_filter_undetected.
Qed.

Lemma direct_undetected {R} uc k domain t ip protocol cookie (respond : list IpAddr → Z → option bytes → option R)
    s f g d :
  decided k ip domain (sv_filter s) = (f, g, d) → detectors_lifted uc g d = true →
  try_cache_direct log2 uc k domain t ip protocol cookie respond s
  = try_cache_direct log2 (without_detectors uc) k domain t ip protocol cookie respond s.
Proof.
  unfold decided. intros Hd Hl. unfold try_cache_direct. rewrite !bind_eq.
  assert (cache_gate log2 (without_detectors uc) k domain t ip s = cache_gate log2 uc k domain t ip s
    ∧ match (cache_gate log2 uc k domain t ip s).1 with
      | Ok (Some sc) => sc = mkScreening g (sc_cloaking sc) false | _ => True end) as [-> Hsc].
  { unfold cache_gate. rewrite !bind_eq. cbn [ask].
    destruct (match sv_cookies s with Some g => is_strict g | None => false end); [done|].
    rewrite !bind_eq. unfold resolve_client_group.
    destruct (port_resolve_group _ _ _) as [f1 g1]. rewrite !bind_eq. unfold filter_domain.
    cbn [sv_filter set_filter]. destruct (port_check f1 _ _ _) as [f2 d2]. injection Hd as -> -> ->.
    destruct (is_block d); [done|]. rewrite !bind_eq. cbn [ask].
    destruct (negb (is_allowed _ _)); [done|].
    change (screen_query (without_detectors uc) g d) with (screen_query uc g d).
    rewrite (screening_lifted uc g d Hl). done. }
  destruct (cache_gate log2 uc k domain t ip s) as [[[sc|]|e|c] s1]; [|done..].
  cbn [fst] in Hsc. rewrite Hsc. reflexivity.
Qed.

(** Where the operator lifted the detectors, by an explicit allow or for
    the whole group, the query runs exactly as on a server that has none: no
    setting, flag or list of theirs changes the answer, the log, the events or
    any budget, on the slow path and on the fast one.  An explicit allow
    always lifts them, and lifts the check of the CNAME chain as well. *)
Theorem lifted_detectors_have_no_say {R} uc k rq s f g d
    (respond : list IpAddr → Z → option bytes → option R) :
  decided k (rq_client_ip rq) (rq_domain rq) (sv_filter s) = (f, g, d) →
  detectors_lifted uc g d = true →
  execute log2 uc k rq s = execute log2 (without_detectors uc) k rq s
  ∧ (∀ protocol cookie,
      try_cache_direct log2 uc k (rq_domain rq) (rq_record_type rq) (rq_client_ip rq) protocol cookie respond s
      = try_cache_direct log2 (without_detectors uc) k (rq_domain rq) (rq_record_type rq) (rq_client_ip rq)
          protocol cookie respond s)
  ∧ (∀ g, detectors_lifted uc g FdExplicitAllow = true ∧ sc_cloaking (screen_query uc g FdExplicitAllow) = false).
Proof.
  intros Hd Hl. split_and!; [by apply (execute_undetected uc k rq s f g d)| |done].
  intros protocol cookie. by apply (direct_undetected uc k _ _ _ _ _ _ s f g d).
Qed.
End runs.

Abbreviation demo_run := (execute (H := demo_filter) (H0 := demo_resolver) (H1 := assoc_maps) (H2 := demo_hmac) demo_log2).

Lemma blocked_names_never_resolve_witness :
  ∃ e s', demo_run (demo_use_case None true) demo_clocks (demo_request blocked_name) demo_server = (Err e, s')
  ∧ refusal e = true ∧ sv_resolver (H0 := demo_resolver) s' = [].
Proof.
  destruct (blocked_names_never_resolve (H := demo_filter) (H0 := demo_resolver) (H1 := assoc_maps)
    (H2 := demo_hmac) demo_log2 (R := unit) (demo_use_case None true) demo_clocks (demo_request blocked_name)
    demo_server [] 1 Source.Blocklist (λ _ _ _, None) (λ _ _ _, None) eq_refl)
    as [(e & s' & He & Hr & Hs & _) _].
  exists e, s'. split; [exact He|]. split; [exact Hr|exact Hs].
Defined.

Lemma lifted_detectors_have_no_say_witness :
  demo_run (demo_use_case None false) demo_clocks (demo_request allowed_name) demo_server
  = demo_run (without_detectors (demo_use_case None false)) demo_clocks (demo_request allowed_name) demo_server
  ∧ (demo_run (demo_use_case None false) demo_clocks (demo_request allowed_name) demo_server).1
    = Ok (demo_relayed (mkQuery allowed_name A (Some 1))).
Proof.
  destruct (lifted_detectors_have_no_say (H := demo_filter) (H0 := demo_resolver) (H1 := assoc_maps)
    (H2 := demo_hmac) demo_log2 (R := unit) (demo_use_case None false) demo_clocks (demo_request allowed_name)
    demo_server [] 1 FdExplicitAllow (λ _ _ _, None) eq_refl eq_refl) as [He _].
  split; [exact He|vm_compute; reflexivity].
Defined.
