(* ===== verification/QueryFast.v ===== *)
(** The fast path beside [execute]: what it answers is what [execute] would. *)

From Stdlib Require Import String.
From S2P Require Import Prelude Errors Text DropCounter Net RateLimiter Float64 Heuristics FastPath.
From S2P Require Import Net Guards CookieGuard BlockDecision BlockEngine QueryHandler QueryLogged QueryPaths.

#[local] Set Default Proof Using "Type".

Section fast.
Context `{FilterPort, ResolverPort, LruMaps, Hmac} (log2 : f32 → f32).
Implicit Types (uc : HandleDnsQueryUseCase) (k : Clocks) (rq : DnsRequest) (s : Server).

(** ** Steps as functions *)

(** Whether a name of the chain is blocked, and the filter after asking. *)
Fixpoint scan k (chain : list str) (g : Z) (f : filter_state) : filter_state * bool :=
  match chain with
  | [] => (f, false)
  | d :: chain =>
      let '(f, v) := port_check f d g (filter_secs k) in
      if is_block v then (f, true) else scan k chain g f
  end.

Lemma set_filter_twice f f' s : set_filter f (set_filter f' s) = set_filter f s.
Proof. done. Qed.
Lemma set_filter_same s : set_filter (sv_filter s) s = s.
Proof. by destruct s. Qed.

Lemma is_cname_cloaked_eq k chain g s :
  is_cname_cloaked k chain g s = (Ok (scan k chain g (sv_filter s)).2, set_filter (scan k chain g (sv_filter s)).1 s).
Proof.
  revert s. induction chain as [|d chain IH]; intros s; cbn [is_cname_cloaked scan].
  { cbn [fst snd]. by rewrite set_filter_same. }
  rewrite bind_eq. unfold filter_domain. destruct (port_check _ _ _ _) as [f v].
  destruct (is_block v); [done|]. rewrite IH. cbn [sv_filter set_filter]. by destruct (scan _ _ _ f).
Qed.

Definition scan_if (b : bool) k chain g f : filter_state * bool := if b then scan k chain g f else (f, false).

Lemma cloaked_if_eq (b : bool) k chain g s :
  (if b then is_cname_cloaked k chain g else mret false) s
  = (Ok (scan_if b k chain g (sv_filter s)).2, set_filter (scan_if b k chain g (sv_filter s)).1 s).
Proof. destruct b; [apply is_cname_cloaked_eq|]. cbn. by rewrite set_filter_same. Qed.

(** ** What the request's cookie shows *)

Definition shown k rq (c : option DnsCookieGuard) : option CookieStatus :=
  match rq_edns_cookie rq with
  | None => None
  | Some o =>
      match c with
      | Some g => returned (cookie_status g (rq_client_ip rq) (as_bytes o) (unix_secs k)).2
      | None => Some (status_without_guard (as_bytes o))
      end
  end.

(** Only the cookie keys may differ. *)
Record rekeyed s s' : Prop := {
  re_aside : aside s s';
  re_limiter : sv_limiter s' = sv_limiter s;
  re_log : sv_log s' = sv_log s;
}.

Lemma request_cookie_eq k rq s : ∃ s',
  request_cookie_status k rq s = (Ok (shown k rq (sv_cookies s)), s') ∧ rekeyed s s'.
Proof.
  unfold request_cookie_status, shown. destruct (rq_edns_cookie rq) as [o|]; [|by eexists].
  destruct (sv_cookies s) as [g|]; [|by eexists].
  pose proof (cookie_status_total g (rq_client_ip rq) (as_bytes o) (unix_secs k)) as [c Hc].
  destruct (cookie_status _ _ _ _) as [g' out]. cbn [snd] in *. subst out. cbn. by eexists.
Qed.

(** The entry every update of the log starts from. *)
Definition base_entry k rq g (c : option CookieStatus) : QueryLog :=
  {| ql_domain := rq_domain rq; ql_record_type := rq_record_type rq; ql_client_ip := rq_client_ip rq;
     ql_blocked := false; ql_response_time_us := Some (elapsed k); ql_cache_hit := false;
     ql_dnssec_status := None; ql_dns64_synthesized := false; ql_answers := None;
     ql_upstream_server := None; ql_upstream_pool := None; ql_response_status := Some "NOERROR"%string;
     ql_query_source := SrcClient; ql_protocol := rq_protocol rq; ql_group_id := Some g;
     ql_block_source := None; ql_coalesced := None; ql_cookie := c |}.

Lemma log_eq uc q s : log uc q s = (Ok tt, (log uc q s).2)
  ∧ sv_log (log uc q s).2 = sv_log s ++ written uc (Some q) ∧ aside s (log uc q s).2.
Proof.
  unfold log, written. destruct (log_queries uc); cbn; [done|]. by rewrite app_nil_r.
Qed.

Lemma log_with_eq uc k rq g f s : ∃ s',
  log_with uc k rq g f s = (Ok tt, s') ∧ aside s s'
  ∧ sv_log s' = sv_log s ++ written uc (Some (f (base_entry k rq g (shown k rq (sv_cookies s))))).
Proof.
  unfold log_with, base_query_log. rewrite !bind_eq.
  destruct (request_cookie_eq k rq s) as (s1 & -> & [Ha _ Hl]). cbn [mret M_ret].
  destruct (log_eq uc (f (base_entry k rq g (shown k rq (sv_cookies s)))) s1) as (He & Hl' & Ha').
  unfold base_entry in *. rewrite He. eexists. split; [done|]. rewrite Hl', Hl. split; [by etrans|done].
Qed.

(** ** A cookie answered *)

Lemma answer_cookie_eq k rq s o : rq_edns_cookie rq = Some o → is_valid_len (length (as_bytes o)) = true →
  ∃ c s', answer_cookie k (rq_client_ip rq) (as_bytes o) s = (Ok (c, shown k rq (sv_cookies s)), s')
    ∧ rekeyed s s'.
Proof.
  intros Ho Hv. unfold answer_cookie, shown. rewrite Ho. destruct (sv_cookies s) as [g|]; [|by eexists _, _].
  assert (8 ≤ length (as_bytes o))%nat as H8.
  { unfold is_valid_len in Hv. apply orb_true_iff in Hv as [Hv%Nat.eqb_eq|[Hv%Nat.leb_le _]%andb_prop]; lia. }
  rewrite slice_client, (proj2 (Nat.leb_le _ _)) by done.
  pose proof (answer_status g (rq_client_ip rq) (as_bytes o) (unix_secs k) Hv) as Ha.
  pose proof (cookie_status_total g (rq_client_ip rq) (as_bytes o) (unix_secs k)) as [st Hst].
  rewrite Hst in Ha |- *. rewrite generate_eq in Ha by apply length_client_part.
  destruct (answer g _ _ _ _) as [g' out]. cbn [snd mbind outcome_bind] in Ha. subst out.
  set (sc := cookie_of _ _ _). rewrite !bind_eq. cbn [lift].
  assert (length (client_part (as_bytes o) ++ sc) = 16%nat) as H16.
  { unfold sc, cookie_of, client_part, CLIENT_COOKIE_LEN, SERVER_COOKIE_LEN.
    rewrite length_app, !length_take, hmac_sign_length. lia. }
  rewrite bind_eq. unfold cookie_from_bytes. rewrite H16. cbn [is_valid_len negb].
  rewrite copy_at_first by (rewrite H16, length_replicate; lia). cbn. by eexists _, _.
Qed.

(** ** The limiter *)

(** What the fast path's peek needs of the bucket it looks at. *)
Record peekable (l : DnsRateLimiter) (ip : IpAddr) (now : Z) : Prop := {
  pk_rates : rates_ok l;
  pk_burst : 1 ≤ burst l ≤ u32_max;
  pk_bucket : ∀ b, udp_buckets l !! subnet_key (grouping l) ip = Some b →
    bucket_ok (burst l) (nx_qps l) b
    ∧ sat_sub now (last_refill_ns b) * qps l * MILLI / NS_PER_SEC + burst l * MILLI ≤ u64_max;
}.

Lemma peek_allows l ip now : peekable l ip now → is_allowed l ip = true → (check l ip (Some Udp) now).2 = Allow.
Proof. intros [Hr Hb Hk]. by apply is_allowed_sound. Qed.

(** ** What an answer of the fast path tells *)

Definition not_strict s : Prop := match sv_cookies s with Some g => strict g = false | None => True end.

(** The gate was open, with this screening, at a server that differs in the filter. *)
Record gate_open uc k domain t ip s f (sc : Screening) (d : FilterDecision) : Prop := {
  go_strict : not_strict s;
  go_decided : decided k ip domain (sv_filter s) = (f, sc_group_id sc, d);
  go_block : is_block d = false;
  go_screening : sc = screen_query uc (sc_group_id sc) d;
  go_allowed : is_allowed (sv_limiter s) ip = true;
  go_hits : sc_detectors sc = true → screen_name log2 uc domain t = [];
}.

Lemma cache_gate_inv uc k domain t ip s sc s' : cache_gate log2 uc k domain t ip s = (Ok (Some sc), s') →
  ∃ f d, gate_open uc k domain t ip s f sc d ∧ s' = set_filter f s.
Proof.
  unfold cache_gate. rewrite bind_eq. cbn [ask].
  destruct (match sv_cookies s with Some g => is_strict g | None => false end) eqn:Es; [done|].
  rewrite bind_eq. unfold resolve_client_group. destruct (port_resolve_group _ _ _) as [f1 g1] eqn:Eg.
  rewrite bind_eq. unfold filter_domain. cbn [sv_filter set_filter].
  destruct (port_check f1 _ _ _) as [f2 d2] eqn:Ec. destruct (is_block d2) eqn:Eb; [done|].
  rewrite bind_eq. cbn [ask]. destruct (is_allowed _ _) eqn:Ea; [|done]. cbn [negb].
  destruct (sc_detectors (screen_query uc g1 d2) && _) eqn:Eh; [done|]. intros [= <- <-].
  exists f2, d2. split; [|done]. split; try done.
  - unfold not_strict. by destruct (sv_cookies s).
  - unfold decided. rewrite Eg. cbn [sc_group_id screen_query]. by rewrite Ec.
  - intros Hd. rewrite Hd in Eh. cbn [andb] in Eh. apply negb_false_iff, Nat.eqb_eq in Eh.
    by apply nil_length_inv.
Qed.

Lemma try_cache_direct_inv {R} uc k domain t ip protocol cookie (respond : list IpAddr → Z → option bytes → option R)
    s reply s1 :
  try_cache_direct log2 uc k domain t ip protocol cookie respond s = (Ok (Some reply), s1) →
  ∃ f sc d R' r, gate_open uc k domain t ip s f sc d
    ∧ port_try_cache_str (sv_resolver s) domain t (Some (sc_group_id sc)) = (R', Some r)
    ∧ r_addresses r ≠ []
    ∧ (scan_if (sc_cloaking sc) k (r_cname_chain r) (sc_group_id sc) f).2 = false
    ∧ sc_detectors sc && is_suspicious_cached_answer uc domain r = false
    ∧ respond_and_log uc k ip cookie
        (log_answer "NOERROR" true (r_dnssec_status r) (is_dns64_synthesized uc t (r_addresses r))
           (Some (r_addresses r)) None None None
           (cache_hit_log k domain t ip protocol (sc_group_id sc) (r_dnssec_status r)))
        (respond (r_addresses r) (default 60 (min_ttl r)))
        (set_filter (scan_if (sc_cloaking sc) k (r_cname_chain r) (sc_group_id sc) f).1
           (set_resolver R' (set_filter f s)))
      = (Ok (Some reply), s1).
Proof.
  unfold try_cache_direct. rewrite bind_eq.
  destruct (cache_gate log2 uc k domain t ip s) as [[[sc|]|e|c] s0] eqn:Eg; try done.
  apply cache_gate_inv in Eg as (f & d & Hg & ->). rewrite bind_eq. unfold try_cache_str.
  cbn [sv_resolver set_filter]. destruct (port_try_cache_str _ _ _ _) as [R' [r|]] eqn:Er; [|done].
  case_bool_decide as Ea; [done|]. rewrite bind_eq, cloaked_if_eq. cbn [sv_filter set_resolver set_filter].
  destruct ((scan_if _ _ _ _ _).2) eqn:Es; [done|]. cbn [orb].
  destruct (sc_detectors sc && _) eqn:Esus; [done|]. intros Hrun.
  exists f, sc, d, R', r. split_and!; try done.
Qed.

(** Answering: the log gets the entry, and the reply is what [respond] made of
    the cookie. *)
Lemma respond_and_log_inv {R} uc k rq entry (respond : option bytes → option R) s reply s1 :
  (∀ o, rq_edns_cookie rq = Some o → is_valid_len (length (as_bytes o)) = true) →
  respond_and_log uc k (rq_client_ip rq) (as_bytes <$> rq_edns_cookie rq) entry respond s = (Ok (Some reply), s1) →
  (∃ c, respond c = Some reply) ∧ aside s s1
  ∧ sv_log s1 = sv_log s ++ written uc (Some (with_cookie (shown k rq (sv_cookies s)) entry)).
Proof.
  intros Hv. unfold respond_and_log. rewrite bind_eq.
  assert (∃ c s', match as_bytes <$> rq_edns_cookie rq with
      | Some o => answer_cookie k (rq_client_ip rq) o | None => mret (None, None) end s
      = (Ok (c, shown k rq (sv_cookies s)), s') ∧ rekeyed s s') as (c & s' & -> & [Ha _ Hl]).
  { destruct (rq_edns_cookie rq) as [o|] eqn:Eo; cbn [fmap option_fmap option_map].
    - apply answer_cookie_eq; [done|by apply Hv].
    - unfold shown. rewrite Eo. by eexists _, _. }
  destruct (respond _) as [reply'|] eqn:Er; [|done]. rewrite bind_eq.
  destruct (log_eq uc (with_cookie (shown k rq (sv_cookies s)) entry) s') as (He & Hlog & Ha').
  rewrite He. intros [= <- <-]. split; [by eexists|]. rewrite Hlog, Hl. split; [by etrans|done].
Qed.

(** ** [execute] on the same query *)

Lemma before_filter_passes uc k rq g s : rq_protocol rq = Some Udp →
  peekable (sv_limiter s) (rq_client_ip rq) (now_ns k) → is_allowed (sv_limiter s) (rq_client_ip rq) = true →
  not_strict s →
  ∃ s', before_filter uc k rq g s = (Ok tt, s') ∧ aside s s' ∧ sv_log s' = sv_log s
    ∧ sv_cookies s' = sv_cookies s ∧ limits_nxdomain (sv_limiter s') = limits_nxdomain (sv_limiter s).
Proof.
  intros Hp Hk Ha Hs. pose proof (peek_allows _ _ _ Hk Ha) as Hc. unfold before_filter. rewrite bind_eq.
  pose proof (check_config (sv_limiter s) (rq_client_ip rq) (Some Udp) (now_ns k)) as Hcfg.
  unfold rate_limited. rewrite Hp. destruct (check _ _ _ _) as [l d]. cbn [fst snd] in *. subst d.
  rewrite bind_eq. cbn [apply_rate_limit mret M_ret]. unfold check_cookie. rewrite bind_eq. cbn [ask].
  unfold not_strict in Hs. cbn [sv_cookies set_limiter].
  replace (match sv_cookies s with Some g0 => requires_cookie g0 (rq_protocol rq) | None => false end) with false.
  - eexists. split_and!; try done. cbn [sv_limiter set_limiter mret M_ret].
    destruct Hcfg as (He & _ & _ & _ & Hn & _). unfold limits_nxdomain. by rewrite He, Hn.
  - unfold requires_cookie. destruct (sv_cookies s); [by rewrite Hs|done].
Qed.

Lemma track_eq uc k ip s : ∃ s', maybe_track_client uc k ip s = (Ok tt, s') ∧ aside s s'
  ∧ sv_log s' = sv_log s ∧ sv_cookies s' = sv_cookies s ∧ sv_limiter s' = sv_limiter s.
Proof.
  unfold maybe_track_client.
  destruct (client_tracking uc); [destruct (match lm_peek _ _ with Some _ => _ | None => _ end)|];
    (eexists; split; [reflexivity|done]).
Qed.

Lemma probe_answers uc k rq sc s R' r :
  port_try_cache (sv_resolver s) (mkQuery (rq_domain rq) (rq_record_type rq) (Some (sc_group_id sc))) = (R', Some r) →
  has_response_data r = true → (scan_if (sc_cloaking sc) k (r_cname_chain r) (sc_group_id sc) (sv_filter s)).2 = false →
  sc_detectors sc && is_suspicious_cached_answer uc (rq_domain rq) r = false →
  (spends_nxdomain_budget r = true → limits_nxdomain (sv_limiter s) = false) →
  ∃ s', probe_cache uc k rq sc (mkQuery (rq_domain rq) (rq_record_type rq) (Some (sc_group_id sc))) s = (Ok (Some r), s')
    ∧ sv_resolver s' = R' ∧ sv_admission s' = sv_admission s
    ∧ sv_filter s' = (scan_if (sc_cloaking sc) k (r_cname_chain r) (sc_group_id sc) (sv_filter s)).1
    ∧ sv_log s' = sv_log s ++ written uc (Some (log_answer (rcode_name r) true (r_dnssec_status r) false
        (Some (r_addresses r)) None None None
        (base_entry k rq (sc_group_id sc) (shown k rq (sv_cookies s))))).
Proof.
  intros Hr Hd Hs Hsus Hn. unfold probe_cache. rewrite bind_eq. unfold try_cache. rewrite Hr, Hd.
  rewrite bind_eq, cloaked_if_eq. cbn [sv_filter set_resolver]. rewrite Hs, Hsus.
  set (f' := (scan_if _ _ _ _ _).1). set (s1 := set_filter f' _).
  rewrite bind_eq.
  assert ((if spends_nxdomain_budget r then charge_nxdomain_budget uc k rq (sc_group_id sc) else mret tt) s1
    = (Ok tt, s1)) as ->.
  { destruct (spends_nxdomain_budget r); [|done]. specialize (Hn eq_refl).
    unfold charge_nxdomain_budget. rewrite bind_eq. unfold rate_limited, charge_nxdomain.
    change (sv_limiter s1) with (sv_limiter s). rewrite Hn. cbn. by destruct s. }
  rewrite bind_eq. match goal with |- context [log_with uc k rq ?g ?f s1] =>
    destruct (log_with_eq uc k rq g f s1) as (s2 & -> & [Hf Hrs Had _ _] & Hl) end.
  eexists. split; [done|]. rewrite Hf, Hrs, Had, Hl. done.
Qed.

(** What the open gate and the cached answer say of [execute]. *)
Lemma execute_answers uc k rq s f sc d R' r :
  rq_protocol rq = Some Udp → peekable (sv_limiter s) (rq_client_ip rq) (now_ns k) →
  (∀ cname_for g, safe_search uc = Some cname_for → cname_for (rq_domain rq) g = None) →
  gate_open uc k (rq_domain rq) (rq_record_type rq) (rq_client_ip rq) s f sc d →
  port_try_cache (sv_resolver s) (mkQuery (rq_domain rq) (rq_record_type rq) (Some (sc_group_id sc))) = (R', Some r) →
  has_response_data r = true → (scan_if (sc_cloaking sc) k (r_cname_chain r) (sc_group_id sc) f).2 = false →
  sc_detectors sc && is_suspicious_cached_answer uc (rq_domain rq) r = false →
  (spends_nxdomain_budget r = true → limits_nxdomain (sv_limiter s) = false) →
  ∃ s', execute log2 uc k rq s = (Ok r, s') ∧ sv_resolver s' = R' ∧ sv_admission s' = sv_admission s
    ∧ sv_filter s' = (scan_if (sc_cloaking sc) k (r_cname_chain r) (sc_group_id sc) f).1
    ∧ sv_log s' = sv_log s ++ written uc (Some (log_answer (rcode_name r) true (r_dnssec_status r) false
        (Some (r_addresses r)) None None None
        (base_entry k rq (sc_group_id sc) (shown k rq (sv_cookies s))))).
Proof.
  intros Hp Hk Hss [Hst Hdec Hb Hsc Hal Hhits] Hr Hd Hs Hsus Hn.
  unfold decided in Hdec. pose proof (execute_eq log2 uc k rq s) as He. cbv zeta in He.
  destruct (port_resolve_group _ _ _) as [f1 g1]. destruct (port_check f1 _ _ _) as [f2 d2] eqn:Ec.
  injection Hdec as -> Hg ->. rewrite He, bind_eq. clear He.
  destruct (track_eq uc k (rq_client_ip rq) s) as (s0 & -> & Ha0 & Hl0 & Hc0 & Hli0). cbn [snd].
  destruct (before_filter_passes uc k rq g1 (set_filter f1 s0)) as (s1 & -> & Ha1 & Hl1 & Hc1 & Hli1).
  { done. } { cbn. by rewrite Hli0. } { cbn. by rewrite Hli0. } { unfold not_strict. cbn. by rewrite Hc0. }
  rewrite bind_eq. unfold filter_domain. rewrite (as_filter _ _ Ha1). cbn [sv_filter set_filter]. rewrite Ec.
  subst g1. set (s2 := set_filter f s1).
  assert (after_filter log2 uc k rq (sc_group_id sc) d s2 = answer_query uc k rq sc s2) as ->.
  { unfold after_filter. rewrite <-Hsc. destruct d; [done|..]; rewrite bind_eq;
      (destruct (sc_detectors sc) eqn:Ed; [rewrite Hhits by done|]); done. }
  unfold answer_query.
  replace (match safe_search uc with Some cname_for => cname_for (rq_domain rq) (sc_group_id sc) | None => None end)
    with (None : option str) by (destruct (safe_search uc) as [h|] eqn:Eh; [by rewrite (Hss h)|done]).
  rewrite bind_eq.
  destruct (probe_answers uc k rq sc s2 R' r) as (s3 & -> & Hr3 & Ha3 & Hf3 & Hl3); try done.
  { unfold s2. cbn. rewrite (as_resolver _ _ Ha1). cbn. by rewrite (as_resolver _ _ Ha0). }
  { intros Hsp. unfold s2. cbn [sv_limiter set_filter]. rewrite Hli1. cbn. rewrite Hli0. by apply Hn. }
  eexists. split; [done|]. rewrite Hr3, Ha3, Hf3, Hl3. unfold s2. cbn.
  rewrite (as_admission _ _ Ha1), Hl1, Hc1. cbn. by rewrite (as_admission _ _ Ha0), Hl0, Hc0.
Qed.

Lemma try_cache_wire_inv {R} uc k domain t ip protocol cookie (respond : bytes → Z → option bytes → option R)
    s reply s1 :
  try_cache_wire_direct log2 uc k domain t ip protocol cookie respond s = (Ok (Some reply), s1) →
  ∃ f sc d R' r wire remaining, gate_open uc k domain t ip s f sc d
    ∧ port_try_cache_str (sv_resolver s) domain t (Some (sc_group_id sc)) = (R', Some r)
    ∧ spends_nxdomain_budget r && limits_nxdomain (sv_limiter s) = false
    ∧ (scan_if (sc_cloaking sc) k (r_cname_chain r) (sc_group_id sc) f).2 = false
    ∧ upstream_wire_data r = Some wire ∧ min_ttl r = Some remaining
    ∧ respond_and_log uc k ip cookie
        (log_status (rcode_name r) (cache_hit_log k domain t ip protocol (sc_group_id sc) (r_dnssec_status r)))
        (respond wire remaining)
        (set_filter (scan_if (sc_cloaking sc) k (r_cname_chain r) (sc_group_id sc) f).1
           (set_resolver R' (set_filter f s)))
      = (Ok (Some reply), s1).
Proof.
  unfold try_cache_wire_direct. rewrite bind_eq.
  destruct (cache_gate log2 uc k domain t ip s) as [[[sc|]|e|c] s0] eqn:Eg; try done.
  apply cache_gate_inv in Eg as (f & d & Hg & ->). rewrite bind_eq. unfold try_cache_str.
  cbn [sv_resolver set_filter]. destruct (port_try_cache_str _ _ _ _) as [R' [r|]] eqn:Er; [|done].
  rewrite bind_eq. cbn [ask sv_limiter set_resolver set_filter].
  destruct (spends_nxdomain_budget r && _) eqn:En; [done|].
  rewrite bind_eq, cloaked_if_eq. cbn [sv_filter set_resolver set_filter].
  destruct ((scan_if _ _ _ _ _).2) eqn:Es; [done|].
  destruct (upstream_wire_data r) as [wire|] eqn:Ew; [|done].
  destruct (min_ttl r) as [remaining|] eqn:Em; [|done]. intros Hrun.
  exists f, sc, d, R', r, wire, remaining. split_and!; try done.
Qed.

(** An entry with these answers and this DNS64 mark. *)
Definition retag (dns64 : bool) (answers : option (list IpAddr)) (q : QueryLog) : QueryLog :=
  {| ql_domain := ql_domain q; ql_record_type := ql_record_type q; ql_client_ip := ql_client_ip q;
     ql_blocked := ql_blocked q; ql_response_time_us := ql_response_time_us q;
     ql_cache_hit := ql_cache_hit q; ql_dnssec_status := ql_dnssec_status q;
     ql_dns64_synthesized := dns64; ql_answers := answers; ql_upstream_server := ql_upstream_server q;
     ql_upstream_pool := ql_upstream_pool q; ql_response_status := ql_response_status q;
     ql_query_source := ql_query_source q; ql_protocol := ql_protocol q; ql_group_id := ql_group_id q;
     ql_block_source := ql_block_source q; ql_coalesced := ql_coalesced q; ql_cookie := ql_cookie q |}.

(** [execute] answers with [r], at no upstream's cost, leaving the filter and
    the resolver as the fast path left them at [s1], and logging the same but
    for the DNS64 mark and the list of answers. *)
Definition execute_agrees uc k rq s s1 (r : DnsResolution) (dns64 : bool) (answers : option (list IpAddr)) : Prop :=
  ∃ q s2, execute log2 uc k rq s = (Ok r, s2)
    ∧ sv_resolver s2 = sv_resolver s1 ∧ sv_filter s2 = sv_filter s1 ∧ sv_admission s2 = sv_admission s
    ∧ sv_log s2 = sv_log s ++ written uc (Some q)
    ∧ sv_log s1 = sv_log s ++ written uc (Some (retag dns64 answers q)).

Lemma direct_agrees {R} uc k rq s (respond : list IpAddr → Z → option bytes → option R) reply s1 :
  rq_protocol rq = Some Udp → peekable (sv_limiter s) (rq_client_ip rq) (now_ns k) →
  (∀ cname_for g, safe_search uc = Some cname_for → cname_for (rq_domain rq) g = None) →
  (∀ o, rq_edns_cookie rq = Some o → is_valid_len (length (as_bytes o)) = true) →
  try_cache_direct log2 uc k (rq_domain rq) (rq_record_type rq) (rq_client_ip rq) Udp
    (as_bytes <$> rq_edns_cookie rq) respond s = (Ok (Some reply), s1) →
  ∃ r c, respond (r_addresses r) (default 60 (min_ttl r)) c = Some reply
    ∧ execute_agrees uc k rq s s1 r (is_dns64_synthesized uc (rq_record_type rq) (r_addresses r)) (Some (r_addresses r)).
Proof.
  intros Hp Hk Hss Hv Hrun.
  apply try_cache_direct_inv in Hrun as (f & sc & d & R' & r & Hg & Hr & Ha & Hs & Hsus & Hrun).
  rewrite try_cache_str_eq in Hr.
  assert (r_upstream_nxdomain r = false) as Hnx.
  { destruct (r_upstream_nxdomain r) eqn:E; [|done]. destruct Ha. eapply cached_nxdomain_empty; [by rewrite Hr|done]. }
  apply respond_and_log_inv in Hrun as ((c & Hc) & [Hf1 Hr1 Ha1 _ _] & Hl1); [|done].
  destruct (execute_answers uc k rq s f sc d R' r) as (s2 & He & Hr2 & Ha2 & Hf2 & Hl2); try done.
  { unfold has_response_data. rewrite bool_decide_eq_false_2 by done. by rewrite orb_true_r. }
  { unfold spends_nxdomain_budget. by rewrite Hnx. }
  exists r, c. split; [done|]. eexists _, s2. split; [done|]. rewrite Hr1, Hf1, Hl1, Hf2, Hr2, Ha2, Hl2.
  split_and!; try done. unfold rcode_name. rewrite Hnx.
  unfold retag, with_cookie, log_answer, cache_hit_log, base_entry. cbn. by rewrite Hp.
Qed.

Lemma wire_agrees {R} uc k rq s (respond : bytes → Z → option bytes → option R) reply s1 :
  rq_protocol rq = Some Udp → peekable (sv_limiter s) (rq_client_ip rq) (now_ns k) →
  (∀ cname_for g, safe_search uc = Some cname_for → cname_for (rq_domain rq) g = None) →
  (∀ o, rq_edns_cookie rq = Some o → is_valid_len (length (as_bytes o)) = true) →
  (∀ R q r, (port_try_cache R q).2 = Some r → dq_record_type q = rq_record_type rq → r_addresses r = []) →
  try_cache_wire_direct log2 uc k (rq_domain rq) (rq_record_type rq) (rq_client_ip rq) Udp
    (as_bytes <$> rq_edns_cookie rq) respond s = (Ok (Some reply), s1) →
  ∃ r c wire remaining, respond wire remaining c = Some reply
    ∧ upstream_wire_data r = Some wire ∧ min_ttl r = Some remaining
    ∧ execute_agrees uc k rq s s1 r false None.
Proof.
  intros Hp Hk Hss Hv Hno Hrun.
  apply try_cache_wire_inv in Hrun as (f & sc & d & R' & r & wire & remaining & Hg & Hr & Hn & Hs & Hw & Hm & Hrun).
  rewrite try_cache_str_eq in Hr.
  assert (r_addresses r = []) as Ha by (eapply Hno; [by rewrite Hr|done]).
  apply respond_and_log_inv in Hrun as ((c & Hc) & [Hf1 Hr1 Ha1 _ _] & Hl1); [|done].
  destruct (execute_answers uc k rq s f sc d R' r) as (s2 & He & Hr2 & Ha2 & Hf2 & Hl2); try done.
  { unfold has_response_data. rewrite Hw. by rewrite !orb_true_r. }
  { unfold is_suspicious_cached_answer, is_hijacked_response, has_blocked_ip, ip_guard_hit, is_rebinding,
      is_rebinding_attempt. rewrite Ha.
    destruct (ig_store _), (ig_store _), (rebinding_guard uc); cbn [existsb orb]; rewrite ?andb_false_r; try done;
      repeat case_match; by rewrite andb_false_r. }
  { intros Hsp. rewrite Hsp in Hn. exact Hn. }
  exists r, c, wire, remaining. split_and!; try done.
  eexists _, s2. split; [done|]. rewrite Hr1, Hf1, Hl1, Hf2, Hr2, Ha2, Hl2.
  split_and!; try done.
  unfold retag, with_cookie, log_status, log_answer, cache_hit_log, base_entry. cbn. by rewrite Hp.
Qed.


(** ** DNSSEC enforcement *)

Definition validated (r : DnsResolution) : bool :=
  match r_dnssec_status r with Some (Bogus | Indeterminate) => false | _ => true end.

(** What a program returns, when it returns. *)
Definition yields {A} (m : M A) (P : A → Prop) s : Prop := match (m s).1 with Ok a => P a | _ => True end.

Lemma yields_bind {A B} (m : M A) (f : A → M B) P s :
  (∀ a s', m s = (Ok a, s') → yields (f a) P s') → yields (m ≫= f) P s.
Proof.
  unfold yields, mbind, M_bind. intros Hf. destruct (m s) as [[a|e|c] s'] eqn:E; [|done..]. by apply Hf.
Qed.

Lemma yields_then {A B} (m : M A) (f : A → M B) P s : (∀ a s, yields (f a) P s) → yields (m ≫= f) P s.
Proof. intros Hf. apply yields_bind. auto. Qed.

Lemma relay_validated uc k rq sc r s : dnssec_enforce uc = true → rq_checking_disabled rq = false →
  yields (relay_resolution uc k rq sc r) (λ r, validated r = true) s.
Proof.
  intros He Hc. unfold relay_resolution. apply yields_then. intros b s1. destruct b.
  { unfold block_cname_cloaking. repeat (apply yields_then; intros ? ?). done. }
  apply yields_then. intros [] s2. unfold dnssec_refusal. rewrite He, Hc. cbn [negb orb].
  destruct (r_dnssec_status r) as [[]|] eqn:Ed; repeat (apply yields_then; intros ? ?); try done;
    cbn; unfold validated; by rewrite Ed.
Qed.

Lemma stays_hits uc k rq g hits : stays (apply_hits uc k rq g hits).
Proof.
  induction hits as [|[]]; cbn [apply_hits]; [apply stays_ret|..]; (apply stays_bind; [|intros _; done]);
    [unfold apply_tunneling_action|unfold apply_dga_action]; case_match;
    (apply stays_ret || apply stays_refuse).
Qed.

Lemma probe_yields uc k rq sc q (P : DnsResolution → Prop) s :
  (∀ r, (port_try_cache (sv_resolver s) q).2 = Some r → P r) →
  yields (probe_cache uc k rq sc q) (λ o, match o with Some r => P r | None => True end) s.
Proof.
  intros Hc. apply yields_bind. unfold try_cache. destruct (port_try_cache _ _) as [R' o]. cbn [snd] in Hc.
  intros o' s1 [= <- <-]. destruct o as [r|]; [|done]. specialize (Hc r eq_refl).
  destruct (has_response_data r).
  - apply yields_then. intros [] s2; [unfold block_cname_cloaking; by repeat (apply yields_then; intros ? ?)|].
    destruct (sc_detectors sc && _); [done|]. by repeat (apply yields_then; intros ? ?).
  - destruct (r_cache_hit r); [|done]. by repeat (apply yields_then; intros ? ?).
Qed.

Lemma slot_yields {A} k (m : M A) P s : (∀ s, yields m P s) → yields (with_upstream_slot k m) P s.
Proof.
  intros Hm. unfold yields, with_upstream_slot. destruct (sv_admission s) as [a|]; [|apply Hm].
  destruct (try_admit _ _) as [a' []]; [|done]. specialize (Hm (set_admission a' s)). unfold yields in Hm.
  by destruct (m _).
Qed.

Lemma answer_validated uc k rq sc s : dnssec_enforce uc = true → rq_checking_disabled rq = false →
  (∀ cname_for g, safe_search uc = Some cname_for → cname_for (rq_domain rq) g = None) →
  (∀ q r, (port_try_cache (sv_resolver s) q).2 = Some r → validated r = true) →
  yields (answer_query uc k rq sc) (λ r, validated r = true) s.
Proof.
  intros He Hc Hss Hcache. unfold answer_query.
  replace (match safe_search uc with Some cname_for => cname_for (rq_domain rq) (sc_group_id sc) | None => None end)
    with (None : option str) by (destruct (safe_search uc) as [h|] eqn:Eh; [by rewrite (Hss h)|done]).
  apply yields_bind. intros o s1 Hp.
  pose proof (probe_yields uc k rq sc _ (λ r, validated r = true) s (Hcache
    (mkQuery (rq_domain rq) (rq_record_type rq) (Some (sc_group_id sc))))) as Hy.
  unfold yields in Hy. rewrite Hp in Hy. cbn [fst] in Hy. destruct o as [r|]; [exact Hy|].
  apply slot_yields. intros s2. apply yields_then. intros [e|r] s3; [|by apply relay_validated].
  destruct e; unfold relay_error; by repeat (apply yields_then; intros ? ?).
Qed.

End fast.

(** ** Examples *)

Abbreviation demo_direct := (try_cache_direct (H := demo_filter) (H0 := demo_resolver) (H1 := assoc_maps)
  (H2 := demo_hmac) demo_log2).



(** A redirected name that some client's answer left in the cache is answered
    from it by the fast path, without the redirection [execute] makes. *)
Lemma safe_search_bypassed :
  let uc := demo_use_case (Some demo_rule) false in
  (demo_direct uc demo_clocks video_name A (V4 167772161) Udp None (λ a _ _, Some a) demo_server).1
    = Ok (Some [V4 0x01010101])
  ∧ (demo_run uc demo_clocks (demo_request video_name) demo_server).1
    = Ok (demo_relayed (mkQuery safe_name A (Some 1))).
Proof. vm_compute. done. Qed.

(** A redirected answer is relayed though it failed validation. *)
Lemma redirect_skips_validation :
  let uc := demo_use_case (Some demo_rule) true in
  ∃ r, (demo_run uc demo_clocks (demo_request video_name) demo_server).1 = Ok r ∧ r_dnssec_status r = Some Bogus.
Proof. eexists. split; vm_compute; reflexivity. Qed.
