(* ===== verification/DnssecData.v ===== *)
(** Keys, digests and signatures: [infrastructure/src/dns/dnssec/types/] and
    [crypto/mod.rs], over the names and the primitives of the libraries. *)

From Stdlib Require Import String.
From stdpp Require Import pretty.
From S2P Require Import Prelude Errors Text Net Forwarding.

#[local] Set Default Proof Using "Type".

(** ** Names of [hickory_proto] *)

(** A name read from its last label, lowercased: the order of RFC 4034 section 6.1
    is that of these lists. *)
Definition canonical (n : HName) : list bytes := rev ((λ l : bytes, lower_byte <$> l) <$> n).

Section lexicographic.
Context {A} (lt eq : A → A → bool).
Fixpoint lex (a b : list A) : bool :=
  match a, b with
  | _, [] => false
  | [], _ :: _ => true
  | x :: a, y :: b => lt x y || (eq x y && lex a b)
  end.
End lexicographic.

Definition label_lt : bytes → bytes → bool := lex Z.ltb Z.eqb.
Definition labels_lt : list bytes → list bytes → bool := lex label_lt (λ a b, bool_decide (a = b)).

(** What the code asks of [Name], with what its documentation says of it: names are compared
    in the canonical order whatever their case, an asterisk at the front is not counted, and
    the ancestors of a name are names. *)
Class DnsNames := {
  name_eqb : HName → HName → bool;
  name_ltb : HName → HName → bool;
  zone_of : HName → HName → bool;
  num_labels : HName → Z;
  base_name : HName → HName;
  append_wildcard : HName → option HName;
  name_from_labels : list bytes → option HName;
  name_to_string : HName → str;
  name_eqb_spec a b : name_eqb a b = bool_decide (canonical a = canonical b);
  name_ltb_spec a b : name_ltb a b = labels_lt (canonical a) (canonical b);
  zone_of_spec a b : zone_of a b = bool_decide (canonical a `prefix_of` canonical b);
  num_labels_spec n : num_labels n = Z.of_nat (length n) - (if bool_decide (head n = Some [42]) then 1 else 0);
  base_name_spec n : base_name n = tail n;
  append_wildcard_spec n w : append_wildcard n = Some w → w = [42] :: n;
  name_from_labels_spec (n : HName) k : name_from_labels (drop k n) = Some (drop k n);
}.

(** The primitives: what an RRSIG signs, the signature schemes and the digests. *)
Class DnssecPrimitives := {
  tbs_from_input : HName → SigInput → list HRecord → string + bytes;
  rsa_verifies : Z → bytes → bytes → bytes → bytes → bool;
  ecdsa_verifies : nat → bytes → bytes → bytes → bool;
  ed25519_verifies : bytes → bytes → bytes → bool;
  sha1 : bytes → bytes; sha256 : bytes → bytes; sha384 : bytes → bytes;
}.

(** ** Records *)

Record DsRecord := mkDs { ds_key_tag : Z; ds_algorithm : Z; ds_digest_type : Z; ds_digest : bytes }.
Record DnskeyRecord := mkDnskey { dk_flags : Z; dk_protocol : Z; dk_algorithm : Z; dk_public_key : bytes }.

#[export] Instance DsRecord_eq_dec : EqDecision DsRecord.
Proof. solve_decision. Defined.
#[export] Instance DnskeyRecord_eq_dec : EqDecision DnskeyRecord.
Proof. solve_decision. Defined.

Inductive DsDenial := InsecureDelegation | NotZoneCut | Nonexistent.
#[export] Instance DsDenial_eq_dec : EqDecision DsDenial.
Proof. solve_decision. Defined.
Inductive DsLookup := DsPresent (records : list DsRecord) | DsAbsent (denial : DsDenial).

Definition invalid {A} (text : string) : DomainError + A := inl (Error.InvalidDnsResponse text).

Definition validate_digest_length (digest_type : Z) (len : nat) : DomainError + unit :=
  let expected := match digest_type with 1 => Some 20%nat | 2 => Some 32%nat | 4 => Some 48%nat | _ => None end in
  match expected with
  | Some n =>
      if (len =? n)%nat then inr ()
      else invalid ("Invalid digest length for type " +:+ pretty digest_type +:+ ": got " +:+ pretty len
                    +:+ ", expected " +:+ pretty n)
  | None => inr ()
  end.

Definition ds_parse (data : bytes) : DomainError + DsRecord :=
  match data with
  | t0 :: t1 :: algorithm :: digest_type :: digest =>
      _ ← validate_digest_length digest_type (length digest);
      inr (mkDs (be16 t0 t1) algorithm digest_type digest)
  | _ => invalid "DS record too short"
  end.

Definition dnskey_parse (data : bytes) : DomainError + DnskeyRecord :=
  match data with
  | f0 :: f1 :: protocol :: algorithm :: public_key =>
      if negb (protocol =? 3) then
        invalid ("Invalid DNSKEY protocol: " +:+ pretty protocol +:+ " (expected 3)")
      else if Z.land (be16 f0 f1) 0x0100 =? 0 then invalid "DNSKEY Zone Key flag not set"
      else inr (mkDnskey (be16 f0 f1) protocol algorithm public_key)
  | _ => invalid "DNSKEY record too short"
  end.

Definition is_ksk (k : DnskeyRecord) : bool := bit (dk_flags k) 0x0001.

Fixpoint chunk_sum (key : bytes) : Z :=
  match key with
  | hi :: lo :: key => be16 hi lo + chunk_sum key
  | [hi] => hi * 256
  | [] => 0
  end.

Definition calculate_key_tag (k : DnskeyRecord) : Z :=
  let accumulator := dk_flags k + be16 (dk_protocol k) (dk_algorithm k) + chunk_sum (dk_public_key k) in
  let accumulator := accumulator + Z.shiftr accumulator 16 in
  Z.land accumulator 0xFFFF.

(** ** Times of signatures *)

Definition serial_le (a b : Z) : bool := wrap32 (b - a) <? 0x80000000.
Definition within_validity (inception expiration now : Z) : bool :=
  serial_le inception now && serial_le now expiration.

(** ** Signatures *)

Definition is_supported_algorithm (algorithm : Z) : bool :=
  existsb (Z.eqb algorithm) [5; 7; 8; 10; 13; 14; 15].

(** The length of the exponent and where it starts. *)
Definition rsa_exponent (key : bytes) : DomainError + (nat * nat) :=
  match key with
  | [] => invalid "Empty RSA public key"
  | 0 :: hi :: lo :: _ => inr (Z.to_nat (be16 hi lo), 3%nat)
  | 0 :: _ => invalid "RSA key too short for long form"
  | len :: _ => inr (Z.to_nat len, 1%nat)
  end.
Definition parse_rsa_key (key : bytes) : DomainError + (bytes * bytes) :=
  '(exp_len, exp_start) ← rsa_exponent key;
  if (length key <? exp_start + exp_len)%nat then invalid "RSA exponent extends beyond key data"
  else
    let exponent := take exp_len (drop exp_start key) in
    let modulus := drop exp_len (drop exp_start key) in
    if bool_decide (modulus = []) then invalid "RSA modulus is empty" else inr (exponent, modulus).

Fixpoint drop_dots (rev_name : bytes) : bytes :=
  match rev_name with 46 :: rest => drop_dots rest | _ => rev_name end.
Definition trim_end_dots (name : bytes) : bytes := rev (drop_dots (rev name)).

Fixpoint labels_wire (labels : list bytes) : DomainError + bytes :=
  match labels with
  | [] => inr []
  | label :: labels =>
      if bool_decide (label = []) then invalid "Empty DNS label"
      else if (63 <? length label)%nat then invalid "DNS label too long"
      else rest ← labels_wire labels; inr (Z.of_nat (length label) :: (lower_byte <$> label) ++ rest)
  end.
Definition canonical_wire (name : str) : DomainError + bytes :=
  let name := trim_end_dots (utf8 name) in
  wire ← (if bool_decide (name = []) then inr [] else labels_wire (split 46 name));
  inr (wire ++ [0]).

Section crypto.
Context `{DnssecPrimitives}.

Definition verify_rsa (bits : Z) (data sig : bytes) (key : DnskeyRecord) : DomainError + bool :=
  '(exponent, modulus) ← parse_rsa_key (dk_public_key key);
  inr (rsa_verifies bits modulus exponent data sig).

Definition verify_ecdsa (key_len : nat) (name : string) (data sig : bytes) (key : DnskeyRecord) : DomainError + bool :=
  if negb (length (dk_public_key key) =? key_len)%nat then invalid ("Invalid " +:+ name +:+ " public key length")
  else if negb (length sig =? key_len)%nat then invalid ("Invalid " +:+ name +:+ " signature length")
  else inr (ecdsa_verifies key_len (4 :: dk_public_key key) data sig).

Definition verify_ed25519 (data sig : bytes) (key : DnskeyRecord) : DomainError + bool :=
  if negb (length (dk_public_key key) =? 32)%nat then invalid "Invalid Ed25519 public key length"
  else if negb (length sig =? 64)%nat then invalid "Invalid Ed25519 signature length"
  else inr (ed25519_verifies (dk_public_key key) data sig).

Definition verify_signature (algorithm : Z) (data sig : bytes) (key : DnskeyRecord) : DomainError + bool :=
  match algorithm with
  | 5 | 7 => verify_rsa 1 data sig key
  | 8 => verify_rsa 256 data sig key
  | 10 => verify_rsa 512 data sig key
  | 13 => verify_ecdsa 64 "ECDSA P-256" data sig key
  | 14 => verify_ecdsa 96 "ECDSA P-384" data sig key
  | 15 => verify_ed25519 data sig key
  | 16 => invalid "Ed448 (algorithm 16) is not supported by this build"
  | _ => invalid ("Unsupported DNSSEC algorithm: " +:+ pretty algorithm)
  end.

(** The loop over the candidates, with the outcome so far. *)
Fixpoint try_keys (algorithm : Z) (data sig : bytes) (keys : list DnskeyRecord) (outcome : DomainError + bool)
    : DomainError + bool :=
  match keys with
  | [] => outcome
  | key :: keys =>
      match verify_signature algorithm data sig key with
      | inr true => inr true
      | inr false => try_keys algorithm data sig keys outcome
      | inl e => try_keys algorithm data sig keys (inl e)
      end
  end.

Definition candidate (input : SigInput) (key : DnskeyRecord) : bool :=
  (dk_algorithm key =? sig_algorithm input) && (calculate_key_tag key =? sig_key_tag input).

Definition rrsig_verifies (input : SigInput) (sig : bytes) (keys : list DnskeyRecord) (owner : HName)
    (records : list HRecord) (now_secs : Z) : DomainError + bool :=
  if negb (within_validity (sig_inception input) (sig_expiration input) now_secs) then inr false
  else
    match List.filter (candidate input) keys with
    | [] => inr false
    | candidates =>
        match tbs_from_input owner input records with
        | inl e => inl (Error.InvalidDnsResponse e)
        | inr tbs => try_keys (sig_algorithm input) tbs sig candidates (inr false)
        end
    end.

Definition dnskey_digest_matches (digest : bytes → bytes) (key : DnskeyRecord) (owner_name : str) (expected : bytes)
    : DomainError + bool :=
  wire ← canonical_wire owner_name;
  inr (bool_decide (digest (wire ++ u16_be (dk_flags key) ++ [dk_protocol key; dk_algorithm key] ++ dk_public_key key)
                    = expected)).

Definition verify_ds (ds : DsRecord) (key : DnskeyRecord) (owner_name : str) : DomainError + bool :=
  if negb (calculate_key_tag key =? ds_key_tag ds) || negb (dk_algorithm key =? ds_algorithm ds) then inr false
  else
    match ds_digest_type ds with
    | 1 => dnskey_digest_matches sha1 key owner_name (ds_digest ds)
    | 2 => dnskey_digest_matches sha256 key owner_name (ds_digest ds)
    | 4 => dnskey_digest_matches sha384 key owner_name (ds_digest ds)
    | _ => invalid ("Unsupported DS digest type: " +:+ pretty (ds_digest_type ds))
    end.
End crypto.

(** C39: the 32-bit comparisons of a signature's times are those of the times themselves, the clock's
    wrap-around included, as long as both are within 2^31 seconds of now. *)
Theorem signature_window_is_exact inception expiration now :
  -2^31 < now - inception < 2^31 → -2^31 < expiration - now < 2^31 →
  within_validity (wrap32 inception) (wrap32 expiration) (wrap32 now) = (inception <=? now) && (now <=? expiration).
Proof.
  assert (Hle : ∀ a b, -2^31 < b - a < 2^31 → serial_le (wrap32 a) (wrap32 b) = (a <=? b)).
  { intros a b Hb. unfold serial_le, wrap32. rewrite <-Zminus_mod. apply eq_true_iff_eq. rewrite Z.ltb_lt, Z.leb_le.
    destruct (Z.leb_spec a b).
    - rewrite Z.mod_small by lia. lia.
    - rewrite <-(Z.mod_add _ 1) by lia. rewrite Z.mod_small by lia. lia. }
  intros Hi He. unfold within_validity. by rewrite !Hle.
Qed.

(** Before, in and after a window around the end of the 32-bit clock. *)
Lemma signature_window_is_exact_witness :
  (λ now, within_validity (wrap32 4294967000) (wrap32 4294967500) (wrap32 now)) <$> [4294966999; 4294967296; 4294967501]
  = [false; true; false].
Proof.
  cbn [fmap list_fmap]. by rewrite !(signature_window_is_exact 4294967000 4294967500) by lia.
Defined.
