(* ===== verification/DnssecDenial.v ===== *)
(** Authenticated denial of existence: [infrastructure/src/dns/dnssec/validation/denial.rs]. *)

From Stdlib Require Import String.
From S2P Require Import Prelude Errors Text Net Forwarding DnssecData.

#[local] Set Default Proof Using "Type".

Definition T_NS : Z := 2.
Definition T_CNAME : Z := 5.
Definition T_SOA : Z := 6.
Definition T_DS : Z := 43.

Definition NSEC3_ITERATION_CAP : Z := 100.

Record VerifiedNsec := mkNsec { ns_owner : HName; ns_next : HName; ns_types : list Z }.
Record VerifiedNsec3 := mkNsec3 { owner_label : bytes; n3_data : Nsec3Data }.

(** What the code asks of the NSEC3 hash and of labels: a hash does not depend on the case of
    its name, base32 with the extended hex alphabet keeps the order of digests of one length and
    labels are compared whatever their case; a label of a name is a label. *)
Class Nsec3Hash := {
  sha1_hash : bytes → HName → Z → option bytes;
  base32_label : bytes → option bytes;
  label_from_raw : bytes → option bytes;
  label_eqb : bytes → bytes → bool;
  label_ltb : bytes → bytes → bool;
  sha1_hash_canonical salt a b iterations :
    canonical a = canonical b → sha1_hash salt a iterations = sha1_hash salt b iterations;
  sha1_hash_length salt n iterations d : sha1_hash salt n iterations = Some d → length d = 20%nat;
  label_eqb_spec a b : label_eqb a b = bool_decide (lower_byte <$> a = lower_byte <$> b);
  label_ltb_spec a b : label_ltb a b = label_lt (lower_byte <$> a) (lower_byte <$> b);
  base32_eq a b la lb : length a = length b → base32_label a = Some la → base32_label b = Some lb →
    lower_byte <$> la = lower_byte <$> lb → a = b;
  base32_lt a b la lb : length a = length b → base32_label a = Some la → base32_label b = Some lb →
    label_lt (lower_byte <$> la) (lower_byte <$> lb) = label_lt a b;
}.

Definition has_type (t : Z) (types : list Z) : bool := existsb (Z.eqb t) types.

(** ** What type maps say *)

Definition ds_denial_at (types : list Z) : option DsDenial :=
  if has_type T_DS types || has_type T_CNAME types then None
  else Some (if has_type T_NS types then InsecureDelegation else NotZoneCut).

Definition wrong_side_of_delegation (types : list Z) : bool := existsb (Z.eqb T_SOA) types.

Definition is_delegation (types : list Z) : bool :=
  let '(ns, soa) := foldl (λ '(ns, soa) t, (ns || (t =? T_NS), soa || (t =? T_SOA))) (false, false) types in
  ns && negb soa.

(** Whether a record of the queried name may decide about the type. *)
Definition usable_for (qtype : Z) (types : list Z) : bool :=
  if qtype =? T_DS then negb (wrong_side_of_delegation types) else negb (is_delegation types).

Section denial.
Context `{DnsNames}.

Definition make_wildcard (name : HName) : option HName := append_wildcard name.

(** ** NSEC *)

Definition nsec1_covers (owner next target : HName) : bool :=
  if name_ltb owner next then name_ltb owner target && name_ltb target next
  else name_ltb owner target || name_ltb target next.

Definition nsec1_usable_cover (nsecs : list VerifiedNsec) (target : HName) : option VerifiedNsec :=
  find (λ n, nsec1_covers (ns_owner n) (ns_next n) target
             && negb (zone_of (ns_owner n) target && is_delegation (ns_types n))) nsecs.

Definition nsec1_empty_non_terminal (qname : HName) (nsecs : list VerifiedNsec) : bool :=
  match nsec1_usable_cover nsecs qname with
  | Some n => (num_labels qname <? num_labels (ns_next n)) && zone_of qname (ns_next n)
  | None => false
  end.

(** The shared labels of two names read from the last; the labels are those of the first. *)
Fixpoint shared_labels (a b : list bytes) : list bytes :=
  match a, b with
  | x :: a, y :: b => if eq_ignore_case x y then x :: shared_labels a b else []
  | _, _ => []
  end.
Definition common_suffix (a b : HName) : HName :=
  default [] (name_from_labels (rev (shared_labels (rev a) (rev b)))).

Definition nsec1_closest_encloser (qname : HName) (covering : VerifiedNsec) : HName :=
  let ce_owner := common_suffix qname (ns_owner covering) in
  let ce_next := common_suffix qname (ns_next covering) in
  if num_labels ce_next <=? num_labels ce_owner then ce_owner else ce_next.

Definition nsec1_nxdomain (qname soa_name : HName) (nsecs : list VerifiedNsec) : DnssecStatus :=
  match nsec1_usable_cover nsecs qname with
  | None => Bogus
  | Some covering =>
      let closest := nsec1_closest_encloser qname covering in
      if num_labels closest <? num_labels soa_name then Bogus
      else match make_wildcard closest with
           | None => Bogus
           | Some wildcard =>
               match nsec1_usable_cover nsecs wildcard with Some _ => Secure | None => Bogus end
           end
  end.

Definition nsec1_wildcard_nodata (qname : HName) (qtype : Z) (soa_name : HName) (nsecs : list VerifiedNsec) : bool :=
  match nsec1_usable_cover nsecs qname with
  | None => false
  | Some covering =>
      let closest := nsec1_closest_encloser qname covering in
      if num_labels closest <? num_labels soa_name then false
      else match make_wildcard closest with
           | None => false
           | Some wildcard =>
               existsb (λ n, name_eqb (ns_owner n) wildcard
                             && negb (existsb (λ t, (t =? qtype) || (t =? T_CNAME)) (ns_types n))) nsecs
           end
  end.

(** The NSEC owned by the name that decides, if there is one. *)
Definition nsec1_match (qname : HName) (qtype : Z) (nsecs : list VerifiedNsec) : option VerifiedNsec :=
  find (λ n, name_eqb (ns_owner n) qname && usable_for qtype (ns_types n)) nsecs.

Definition nsec1_nodata (qname : HName) (qtype : Z) (soa_name : HName) (nsecs : list VerifiedNsec) : DnssecStatus :=
  match nsec1_match qname qtype nsecs with
  | Some n => if has_type qtype (ns_types n) || has_type T_CNAME (ns_types n) then Bogus else Secure
  | None =>
      if nsec1_empty_non_terminal qname nsecs || nsec1_wildcard_nodata qname qtype soa_name nsecs
      then Secure else Bogus
  end.

Definition verify_nsec1 (qname : HName) (qtype : Z) (rcode : ResponseCode) (soa_name : HName)
    (nsecs : list VerifiedNsec) : DnssecStatus :=
  match rcode with
  | RcNoError => nsec1_nodata qname qtype soa_name nsecs
  | RcNXDomain => nsec1_nxdomain qname soa_name nsecs
  | _ => Bogus
  end.

Definition nsec1_ds_nodata (child : HName) (nsecs : list VerifiedNsec) : option DsDenial :=
  match find (λ n, negb (wrong_side_of_delegation (ns_types n))) (List.filter (λ n, name_eqb (ns_owner n) child) nsecs) with
  | Some n => ds_denial_at (ns_types n)
  | None => if nsec1_empty_non_terminal child nsecs then Some NotZoneCut else None
  end.

(** ** NSEC3 *)

Context `{Nsec3Hash}.

(** The parameters; a panic on no records is not reached from the callers. *)
Definition nsec3_params (nsec3s : list VerifiedNsec3) : DnssecStatus + (bytes * Z) :=
  match nsec3s with
  | [] => inl Bogus
  | first :: _ =>
      let salt := n3_salt (n3_data first) in
      let iterations := n3_iterations (n3_data first) in
      if existsb (λ r, negb (n3_algorithm (n3_data r) =? n3_algorithm (n3_data first))
                       || negb (bool_decide (n3_salt (n3_data r) = salt))
                       || negb (n3_iterations (n3_data r) =? iterations)) nsec3s then inl Bogus
      else if NSEC3_ITERATION_CAP <? iterations then inl Insecure
      else inr (salt, iterations)
  end.

Definition nsec3_hash (name : HName) (salt : bytes) (iterations : Z) : option (bytes * bytes) :=
  digest ← sha1_hash salt name iterations;
  label ← base32_label digest;
  Some (digest, label).

Definition nsec3_covers (record : VerifiedNsec3) (target_raw target_label : bytes) : bool :=
  match n3_next_label (n3_data record) with
  | None => false
  | Some next_label =>
      let next_raw := n3_next (n3_data record) in
      if label_ltb (owner_label record) next_label then
        label_ltb (owner_label record) target_label && label_lt target_raw next_raw
      else label_ltb target_label (owner_label record) || label_lt next_raw target_raw
  end.

Definition nsec3_find_covering (nsec3s : list VerifiedNsec3) (target_raw target_label : bytes) : option VerifiedNsec3 :=
  find (λ r, nsec3_covers r target_raw target_label) nsec3s.
Definition nsec3_find_matching (nsec3s : list VerifiedNsec3) (target_label : bytes) : option VerifiedNsec3 :=
  find (λ r, label_eqb (owner_label r) target_label) nsec3s.

(** The ancestors of a name up to the zone's, longest first; [fuel] is above its labels. *)
Fixpoint encloser_candidates (fuel : nat) (name soa_name : HName) : list HName :=
  match fuel with
  | O => []
  | S fuel =>
      name :: (if name_eqb name soa_name then []
               else let parent := base_name name in
                    if bool_decide (parent = []) then [] else encloser_candidates fuel parent soa_name)
  end.
Definition candidates_of (qname soa_name : HName) : list HName :=
  encloser_candidates (S (length qname)) qname soa_name.

(** The loop from the second candidate on; [next_closer] is the one before. *)
Fixpoint encloser_loop (next_closer : HName) (candidates : list HName) (salt : bytes) (iterations : Z)
    (nsec3s : list VerifiedNsec3) : option (HName * VerifiedNsec3) :=
  match candidates with
  | [] => None
  | encloser :: candidates =>
      match (h ← nsec3_hash encloser salt iterations; nsec3_find_matching nsec3s h.2) with
      | None => encloser_loop encloser candidates salt iterations nsec3s
      | Some ce =>
          if is_delegation (n3_types (n3_data ce)) then None
          else
            '(nc_raw, nc_label) ← nsec3_hash next_closer salt iterations;
            cover ← nsec3_find_covering nsec3s nc_raw nc_label;
            Some (encloser, cover)
      end
  end.
Definition closest_encloser_proof (qname soa_name : HName) (salt : bytes) (iterations : Z) (nsec3s : list VerifiedNsec3)
    : option (HName * VerifiedNsec3) :=
  match candidates_of qname soa_name with
  | [] => None
  | first :: candidates => encloser_loop first candidates salt iterations nsec3s
  end.

Definition nsec3_nxdomain (qname soa_name : HName) (salt : bytes) (iterations : Z) (nsec3s : list VerifiedNsec3)
    : DnssecStatus :=
  match (h ← nsec3_hash qname salt iterations; nsec3_find_matching nsec3s h.2) with
  | Some _ => Bogus
  | None =>
      match closest_encloser_proof qname soa_name salt iterations nsec3s with
      | None => Bogus
      | Some (encloser, next_closer_cover) =>
          if n3_opt_out (n3_data next_closer_cover) then Insecure
          else match make_wildcard encloser with
               | None => Bogus
               | Some wildcard =>
                   match nsec3_hash wildcard salt iterations with
                   | None => Bogus
                   | Some (wc_raw, wc_label) =>
                       match nsec3_find_covering nsec3s wc_raw wc_label with Some _ => Secure | None => Bogus end
                   end
               end
      end
  end.

Definition wildcard_nodata (encloser : HName) (qtype : Z) (salt : bytes) (iterations : Z) (nsec3s : list VerifiedNsec3)
    : bool :=
  match (w ← make_wildcard encloser; h ← nsec3_hash w salt iterations; nsec3_find_matching nsec3s h.2) with
  | Some record => negb (existsb (λ t, (t =? qtype) || (t =? T_CNAME)) (n3_types (n3_data record)))
  | None => false
  end.

(** The proofs left when no record of the name decides. *)
Definition nsec3_nodata_rest (qname : HName) (qtype : Z) (soa_name : HName) (salt : bytes) (iterations : Z)
    (nsec3s : list VerifiedNsec3) : DnssecStatus :=
  match closest_encloser_proof qname soa_name salt iterations nsec3s with
  | None => Bogus
  | Some (encloser, next_closer_cover) =>
      if wildcard_nodata encloser qtype salt iterations nsec3s then Secure
      else if n3_opt_out (n3_data next_closer_cover) then Insecure else Bogus
  end.

Definition nsec3_nodata (qname : HName) (qtype : Z) (soa_name : HName) (salt : bytes) (iterations : Z)
    (nsec3s : list VerifiedNsec3) : DnssecStatus :=
  match nsec3_hash qname salt iterations with
  | None => Bogus
  | Some (_, q_label) =>
      match nsec3_find_matching nsec3s q_label with
      | Some record =>
          let types := n3_types (n3_data record) in
          if usable_for qtype types then
            if has_type qtype types || has_type T_CNAME types then Bogus else Secure
          else nsec3_nodata_rest qname qtype soa_name salt iterations nsec3s
      | None => nsec3_nodata_rest qname qtype soa_name salt iterations nsec3s
      end
  end.

Definition verify_nsec3 (qname : HName) (qtype : Z) (rcode : ResponseCode) (soa_name : HName)
    (nsec3s : list VerifiedNsec3) : DnssecStatus :=
  match nsec3_params nsec3s with
  | inl status => status
  | inr (salt, iterations) =>
      match rcode with
      | RcNXDomain => nsec3_nxdomain qname soa_name salt iterations nsec3s
      | RcNoError => nsec3_nodata qname qtype soa_name salt iterations nsec3s
      | _ => Bogus
      end
  end.

Definition nsec3_ds_nodata (child parent : HName) (nsec3s : list VerifiedNsec3) : option DsDenial :=
  match nsec3_params nsec3s with
  | inl Insecure => Some InsecureDelegation
  | inl _ => None
  | inr (salt, iterations) =>
      '(_, label) ← nsec3_hash child salt iterations;
      match find (λ r, negb (wrong_side_of_delegation (n3_types (n3_data r))))
              (List.filter (λ r, label_eqb (owner_label r) label) nsec3s) with
      | Some record => ds_denial_at (n3_types (n3_data record))
      | None =>
          match closest_encloser_proof child parent salt iterations nsec3s with
          | Some (_, cover) => if n3_opt_out (n3_data cover) then Some InsecureDelegation else None
          | None => None
          end
      end
  end.

(** ** Both *)

Definition prove_denial (qname : HName) (qtype : Z) (rcode : ResponseCode) (soa_name : HName)
    (nsec3s : list VerifiedNsec3) (nsecs : list VerifiedNsec) : DnssecStatus :=
  if negb (bool_decide (nsec3s = [])) then verify_nsec3 qname qtype rcode soa_name nsec3s
  else if negb (bool_decide (nsecs = [])) then verify_nsec1 qname qtype rcode soa_name nsecs
  else Bogus.

Definition classify_ds_denial (child : HName) (rcode : ResponseCode) (parent : HName)
    (nsec3s : list VerifiedNsec3) (nsecs : list VerifiedNsec) : option DsDenial :=
  match rcode with
  | RcNXDomain =>
      match prove_denial child T_DS rcode parent nsec3s nsecs with
      | Secure => Some Nonexistent
      | Insecure => Some InsecureDelegation
      | Bogus | Indeterminate => None
      end
  | RcNoError =>
      if negb (bool_decide (nsec3s = [])) then nsec3_ds_nodata child parent nsec3s
      else nsec1_ds_nodata child nsecs
  | _ => None
  end.

(** The last [n] labels of a name. *)
Definition ancestor_with_labels (name : HName) (n : Z) : HName :=
  default name (name_from_labels (drop (length name - Nat.min (Z.to_nat n) (length name)) name)).

Definition prove_wildcard_expansion (qname : HName) (wildcard_labels : Z)
    (nsec3s : list VerifiedNsec3) (nsecs : list VerifiedNsec) : DnssecStatus :=
  if negb (bool_decide (nsec3s = [])) then
    match nsec3_params nsec3s with
    | inl status => status
    | inr (salt, iterations) =>
        if num_labels qname <=? wildcard_labels then Bogus
        else
          let next_closer := ancestor_with_labels qname (wildcard_labels + 1) in
          match nsec3_hash next_closer salt iterations with
          | Some (nc_raw, nc_label) =>
              match nsec3_find_covering nsec3s nc_raw nc_label with Some _ => Secure | None => Bogus end
          | None => Bogus
          end
    end
  else match nsec1_usable_cover nsecs qname with Some _ => Secure | None => Bogus end.
End denial.
