(* ===== verification/DnssecChain.v ===== *)
(** Authentic RRsets of a message and the cache of what was authenticated
    ([infrastructure/src/dns/dnssec/validation/authority.rs] and [cache/]); the
    anchors of trust and the walk down to a zone from the root
    ([trust_anchor.rs] and [validation/chain.rs]). *)

From Stdlib Require Import String.
From stdpp Require Import pretty.
From S2P Require Import Prelude Errors Text Net Forwarding DnssecData DnssecDenial.

#[local] Set Default Proof Using "Type".

Definition T_DNSKEY : Z := 48.

(** [Record::record_type]. *)
Definition record_type (r : HRecord) : Z :=
  match hr_data r with
  | RdA _ => 1 | RdAAAA _ => 28 | RdCNAME _ => 5 | RdSOA _ => 6 | RdPTR _ => 12
  | RdDS _ _ _ _ => 43 | RdDNSKEY _ _ _ => 48 | RdRRSIG _ _ => 46 | RdNSEC _ _ => 47 | RdNSEC3 _ => 50
  | RdOther code => code
  end.

(** The key lookup of a caller. *)
Abbreviation KeyLookup := (HName → option (list DnskeyRecord)).

Section authority.
Context `{Hickory, DnsNames, DnssecPrimitives, Nsec3Hash}.

Definition parse_name (s : str) : option HName := match name_from_str s with inr n => Some n | inl _ => None end.
Definition to_fqdn (domain : str) : option HName :=
  if ends_with [46] domain then parse_name domain else parse_name (domain ++ [46]).

Definition name_encloses (zone qname : HName) : bool := zone_of zone qname.

(** One signature of the loop. *)
Definition sig_authenticates (owner : HName) (rtype : Z) (rrset : list HRecord) (now : Z) (key_lookup : KeyLookup)
    (r : HRecord) : bool :=
  match hr_data r with
  | RdRRSIG input sig =>
      name_eqb (hr_name r) owner && (type_covered input =? rtype) && name_encloses (signer_name input) owner
      && match key_lookup (signer_name input) with
         | None => false
         | Some keys => match rrsig_verifies input sig keys owner rrset now with inr b => b | inl _ => false end
         end
  | _ => false
  end.

Definition rrset_is_authentic (owner : HName) (rtype : Z) (rrset sigs : list HRecord) (now : Z)
    (key_lookup : KeyLookup) : bool :=
  existsb (sig_authenticates owner rtype rrset now key_lookup) sigs.

Definition collect_verified_denial (authority : list HRecord) (now : Z) (key_lookup : KeyLookup)
    : list VerifiedNsec3 * list VerifiedNsec :=
  let authentic r := rrset_is_authentic (hr_name r) (record_type r) [r] authority now key_lookup in
  (omap (λ r, match hr_data r with
              | RdNSEC3 data =>
                  if authentic r then
                    label ← (l ← head (hr_name r); label_from_raw l); Some (mkNsec3 label data)
                  else None
              | _ => None
              end) authority,
   omap (λ r, match hr_data r with
              | RdNSEC next types => if authentic r then Some (mkNsec (hr_name r) next types) else None
              | _ => None
              end) authority).
End authority.

(** ** The cache *)

Definition MAX_ENTRIES : nat := Z.to_nat 50000.
Definition DNSSEC_EVICTION_BATCH_SIZE : nat := 32.

Record CacheEntry (V : Type) := mkEntry { en_value : V; en_expires_at : Z }.
Arguments mkEntry {V} _ _.
Arguments en_value {V} _.
Arguments en_expires_at {V} _.

Definition entry_for {V} (value : V) (ttl_secs now : Z) : CacheEntry V := mkEntry value (now + ttl_secs).
Definition entry_expired {V} (now : Z) (e : CacheEntry V) : bool := en_expires_at e <=? now.

Record DnssecCache := mkDnssecCache {
  dnskeys : gmap str (CacheEntry (list DnskeyRecord)); ds_lookups : gmap str (CacheEntry DsLookup);
  dnskey_hits : Z; dnskey_misses : Z; ds_hits : Z; ds_misses : Z; ds_denials_unproven : Z;
}.

Definition dnssec_cache_new : DnssecCache := mkDnssecCache ∅ ∅ 0 0 0 0 0.

(** [CountedDashMap::evict_if_full] with [is_expired]; at rest the count is the size. *)
Definition dnssec_evict `{IterOrder} {V} (m : gmap str (CacheEntry V)) (now : Z) : gmap str (CacheEntry V) :=
  if (size m <? MAX_ENTRIES)%nat then m
  else
    let expired := fst <$> List.filter (λ kv, entry_expired now kv.2) (take DNSSEC_EVICTION_BATCH_SIZE (walk m)) in
    let m := foldl (λ m k, delete k m) m expired in
    if (MAX_ENTRIES <=? size m)%nat then
      match walk m with (k, _) :: _ => delete k m | [] => m end
    else m.

Definition dnssec_insert `{IterOrder} {V} (m : gmap str (CacheEntry V)) (domain : str) (value : V) (ttl now : Z)
    : gmap str (CacheEntry V) :=
  <[domain := entry_for value ttl now]> (dnssec_evict m now).

Definition dnssec_lookup {V} (m : gmap str (CacheEntry V)) (domain : str) (now : Z)
    : gmap str (CacheEntry V) * option V :=
  match m !! domain with
  | None => (m, None)
  | Some entry => if negb (entry_expired now entry) then (m, Some (en_value entry)) else (delete domain m, None)
  end.

Section cache.
Context `{IterOrder}.

Definition cache_dnskey (c : DnssecCache) (domain : str) (keys : list DnskeyRecord) (ttl now : Z) : DnssecCache :=
  mkDnssecCache (dnssec_insert (dnskeys c) domain keys ttl now) (ds_lookups c)
    (dnskey_hits c) (dnskey_misses c) (ds_hits c) (ds_misses c) (ds_denials_unproven c).
Definition cache_ds (c : DnssecCache) (domain : str) (ds : DsLookup) (ttl now : Z) : DnssecCache :=
  mkDnssecCache (dnskeys c) (dnssec_insert (ds_lookups c) domain ds ttl now)
    (dnskey_hits c) (dnskey_misses c) (ds_hits c) (ds_misses c) (ds_denials_unproven c).
End cache.

Definition get_dnskey (c : DnssecCache) (domain : str) (now : Z) : DnssecCache * option (list DnskeyRecord) :=
  let '(m, hit) := dnssec_lookup (dnskeys c) domain now in
  let hits := if bool_decide (is_Some hit) then 1 else 0 in
  (mkDnssecCache m (ds_lookups c) (wrap64 (dnskey_hits c + hits)) (wrap64 (dnskey_misses c + (1 - hits)))
     (ds_hits c) (ds_misses c) (ds_denials_unproven c), hit).
Definition get_ds (c : DnssecCache) (domain : str) (now : Z) : DnssecCache * option DsLookup :=
  let '(m, hit) := dnssec_lookup (ds_lookups c) domain now in
  let hits := match hit with Some _ => 1 | None => 0 end in
  (mkDnssecCache (dnskeys c) m (dnskey_hits c) (dnskey_misses c)
     (wrap64 (ds_hits c + hits)) (wrap64 (ds_misses c + (1 - hits))) (ds_denials_unproven c), hit).
Definition record_ds_denial_unproven (c : DnssecCache) : DnssecCache :=
  mkDnssecCache (dnskeys c) (ds_lookups c) (dnskey_hits c) (dnskey_misses c) (ds_hits c) (ds_misses c)
    (wrap64 (ds_denials_unproven c + 1)).

(** ** Lemmas *)

Lemma delete_all_subseteq {V} (m : gmap str V) ks : foldl (λ m k, delete k m) m ks ⊆ m.
Proof.
  revert m. induction ks as [|k ks IH]; intros m; [reflexivity|]. cbn. etrans; [apply IH|apply delete_subseteq].
Qed.

Lemma dnssec_evict_subseteq `{IterOrder} {V} (m : gmap str (CacheEntry V)) now : dnssec_evict m now ⊆ m.
Proof.
  unfold dnssec_evict. destruct (_ <? _)%nat; [reflexivity|]. cbv zeta.
  pose proof (delete_all_subseteq m (fst <$> List.filter (λ kv, entry_expired now kv.2)
    (take DNSSEC_EVICTION_BATCH_SIZE (walk m)))) as Hs. set (m' := foldl _ m _) in *.
  destruct (_ <=? _)%nat; [|exact Hs]. destruct (walk m') as [|[k v] l]; [exact Hs|]. etrans; [apply delete_subseteq|exact Hs].
Qed.

(** What is in the cache after an insertion was there or is what was inserted. *)
Lemma dnssec_insert_Some `{IterOrder} {V} (m : gmap str (CacheEntry V)) domain value ttl now k e :
  dnssec_insert m domain value ttl now !! k = Some e → (k = domain ∧ en_value e = value) ∨ m !! k = Some e.
Proof.
  unfold dnssec_insert. intros [[<- <-]|[_ E]]%lookup_insert_Some; [by left|right].
  by eapply lookup_weaken, dnssec_evict_subseteq.
Qed.

Lemma dnssec_lookup_spec {V} (m : gmap str (CacheEntry V)) domain now m' hit :
  dnssec_lookup m domain now = (m', hit) →
  m' ⊆ m ∧ ∀ v, hit = Some v → ∃ e, m !! domain = Some e ∧ en_value e = v.
Proof.
  unfold dnssec_lookup. destruct (m !! domain) as [e|] eqn:E; [destruct (negb _)|]; intros [= <- <-].
  - split; [reflexivity|]. intros v [= <-]. by exists e.
  - split; [apply delete_subseteq|done].
  - by split.
Qed.

(** ** Trust anchors *)

Inductive TrustAnchorKey := AnchorDnskey (k : DnskeyRecord) | AnchorDs (d : DsRecord).
Record TrustAnchor := mkAnchor { ta_domain : str; ta_key : TrustAnchorKey; ta_description : string }.

Definition anchor_normalize (domain : str) : str :=
  let domain := trim domain in
  if bool_decide (domain = []) || bool_decide (domain = [46]) then [46]
  else if ends_with [46] domain then domain else domain ++ [46].
Definition anchor_new (domain : str) (key : TrustAnchorKey) (description : string) : TrustAnchor :=
  mkAnchor (anchor_normalize domain) key description.

Definition REVOKE_FLAG : Z := 0x0080.

Section anchors.
Context `{DnssecPrimitives}.

Definition anchor_matches (a : TrustAnchor) (k : DnskeyRecord) : bool :=
  match ta_key a with
  | AnchorDnskey anchor_key =>
      (dk_algorithm anchor_key =? dk_algorithm k) && bool_decide (dk_public_key anchor_key = dk_public_key k)
      && (calculate_key_tag anchor_key =? calculate_key_tag k)
  | AnchorDs ds => match verify_ds ds k (ta_domain a) with inr b => b | inl _ => false end
  end.

Definition matches_any (anchors : list TrustAnchor) (domain : str) (k : DnskeyRecord) : bool :=
  existsb (λ a, bool_decide (ta_domain a = domain) && anchor_matches a k) anchors.
Definition has_anchor_for (anchors : list TrustAnchor) (domain : str) : bool :=
  existsb (λ a, bool_decide (ta_domain a = anchor_normalize domain)) anchors.
Definition anchor_keys_present (anchors : list TrustAnchor) (domain : str) (keys : list DnskeyRecord) : list DnskeyRecord :=
  List.filter (matches_any anchors (anchor_normalize domain)) keys.
Definition unanchored_ksks (anchors : list TrustAnchor) (domain : str) (keys : list DnskeyRecord) : list DnskeyRecord :=
  List.filter (λ k, is_ksk k && (Z.land (dk_flags k) REVOKE_FLAG =? 0)
                    && negb (matches_any anchors (anchor_normalize domain) k)) keys.
End anchors.

(** ** The walk *)

Definition is_transient_error (e : DomainError) : bool :=
  match e with
  | Error.TransportAllServersUnreachable | Error.AllUpstreamsServfail | Error.TransportNoHealthyServers
  | Error.QueryTimeout | Error.TransportTimeout _ | Error.TransportConnectionRefused _
  | Error.TransportConnectionReset _ | Error.IoError _ => true
  | _ => false
  end.

Definition MAX_NEGATIVE_DS_TTL : Z := 3600.

Inductive ChainTrust := TrustSecure (zone : str) | TrustInsecure.
Inductive ChainFailure := FailBogus | FailIndeterminate.
Definition failure_of (e : DomainError) : ChainFailure := if is_transient_error e then FailIndeterminate else FailBogus.
Definition failure_status (f : ChainFailure) : DnssecStatus :=
  match f with FailBogus => Bogus | FailIndeterminate => Indeterminate end.

Inductive WalkStep := SecureCut | NoDs (d : DsDenial).

Record DnskeyQueryResult := mkDnskeyResult {
  kq_keys : list DnskeyRecord; kq_answers : list HRecord; kq_from_cache : bool; kq_ttl : Z;
}.
Record FreshDs := mkFresh {
  fd_records : list DsRecord; fd_answers : list HRecord; fd_ttl : Z; fd_authority : list HRecord;
  fd_negative_ttl : option Z; fd_rcode : ResponseCode;
}.

Definition rrset_of (answers : list HRecord) (rtype : Z) : list HRecord :=
  List.filter (λ r, record_type r =? rtype) answers.

Definition ds_of (r : HRecord) : option DsRecord :=
  match hr_data r with
  | RdDS key_tag algorithm digest_type digest =>
      if digest_type =? 1 then None else Some (mkDs key_tag algorithm digest_type digest)
  | _ => None
  end.
Definition dnskey_of (r : HRecord) : option DnskeyRecord :=
  match hr_data r with
  | RdDNSKEY flags algorithm public_key => Some (mkDnskey flags 3 algorithm public_key)
  | _ => None
  end.

(** The names a walk visits, shortest first, as suffixes of [fqdn]. *)
Fixpoint after_each_dot (s : str) : list str :=
  match s with
  | [] => []
  | c :: s => if c =? 46 then s :: after_each_dot s else after_each_dot s
  end.
Definition descending_suffixes (fqdn : str) : list str :=
  let body := default fqdn (strip_suffix fqdn [46]) in
  let rest := drop (length body) fqdn in
  rev ((λ s, s ++ rest) <$> after_each_dot body) ++ (if bool_decide (body = []) then [] else [fqdn]).

(** The upstream pools, over a state of their own that also has the two clocks: the seconds of
    [Instant] and those of [now_secs]. *)
Class DnssecNet := {
  net : Type;
  net_query : net → str → RecordType → net * (DomainError + DnsResponse);
  net_instant : net → Z;
  net_unix : net → Z;
}.

Section chain.
Context `{Hickory, DnsNames, DnssecPrimitives, Nsec3Hash, IterOrder, DnssecNet}.

Definition any_rrsig_verifies (answers : list HRecord) (rtype : Z) (keys : list DnskeyRecord) (owner : HName) (now : Z)
    : bool :=
  existsb (λ r, match hr_data r with
                | RdRRSIG input sig =>
                    (type_covered input =? rtype)
                    && match rrsig_verifies input sig keys owner (rrset_of answers rtype) now with
                       | inr verified => verified
                       | inl _ => false
                       end
                | _ => false
                end) answers.

(** [ChainVerifier], with the cache it shares and the state of the pools. *)
Record ChainVerifier := mkVerifier {
  cv_anchors : list TrustAnchor; validated_keys : gmap str (list DnskeyRecord); cv_cache : DnssecCache; cv_net : net;
}.
Definition set_cv_cache (v : ChainVerifier) (c : DnssecCache) : ChainVerifier :=
  mkVerifier (cv_anchors v) (validated_keys v) c (cv_net v).
Definition set_cv_net (v : ChainVerifier) (n : net) : ChainVerifier :=
  mkVerifier (cv_anchors v) (validated_keys v) (cv_cache v) n.
Definition establish (v : ChainVerifier) (zone : str) (keys : list DnskeyRecord) : ChainVerifier :=
  mkVerifier (cv_anchors v) (<[zone := keys]> (validated_keys v)) (cv_cache v) (cv_net v).
Definition clear_established_keys (v : ChainVerifier) : ChainVerifier :=
  mkVerifier (cv_anchors v) ∅ (cv_cache v) (cv_net v).
Definition get_zone_keys (v : ChainVerifier) (zone : str) : option (list DnskeyRecord) := validated_keys v !! zone.

Definition now_of (v : ChainVerifier) : Z := net_unix (cv_net v).
Definition instant_of (v : ChainVerifier) : Z := net_instant (cv_net v).

Definition fetch_ds (v : ChainVerifier) (domain : str) : ChainVerifier * (DomainError + FreshDs) :=
  let '(n, x) := net_query (cv_net v) domain DS in
  (set_cv_net v n,
   match x with
   | inl e => inl e
   | inr r =>
       inr (mkFresh (omap ds_of (answers (message r))) (answers (message r)) (default 3600 (resp_min_ttl r))
              (authorities (message r)) (resp_negative_soa_ttl r) (rcode r))
   end).

Definition fetch_dnskey (v : ChainVerifier) (domain : str) : ChainVerifier * (DomainError + DnskeyQueryResult) :=
  let '(c, hit) := get_dnskey (cv_cache v) domain (instant_of v) in
  let v := set_cv_cache v c in
  match hit with
  | Some keys => (v, inr (mkDnskeyResult keys [] true 0))
  | None =>
      let '(n, x) := net_query (cv_net v) domain DNSKEY in
      (set_cv_net v n,
       match x with
       | inl e => inl e
       | inr r =>
           inr (mkDnskeyResult (omap dnskey_of (rrset_of (answers (message r)) T_DNSKEY)) (answers (message r)) false
                  (default 3600 (resp_min_ttl r)))
       end)
  end.

Definition bootstrap_root_keys (v : ChainVerifier) : ChainVerifier * (DomainError + unit) :=
  match validated_keys v !! [46] with
  | Some _ => (v, inr ())
  | None =>
      let '(v, x) := fetch_dnskey v [46] in
      match x with
      | inl e => (v, inl e)
      | inr result =>
          if bool_decide (kq_keys result = []) then (v, invalid "No root DNSKEY records")
          else if kq_from_cache result then (establish v [46] (kq_keys result), inr ())
          else
            let anchor_keys := anchor_keys_present (cv_anchors v) [46] (kq_keys result) in
            if bool_decide (anchor_keys = []) then
              (v, invalid ("Root DNSKEY RRset contains none of the " +:+ pretty (length (cv_anchors v))
                           +:+ " configured trust anchors"))
            else if negb (any_rrsig_verifies (kq_answers result) T_DNSKEY anchor_keys [] (now_of v)) then
              (v, invalid ("Root DNSKEY RRset not self-signed by any of " +:+ pretty (length anchor_keys)
                           +:+ " anchored key(s)"))
            else
              let v := set_cv_cache v (cache_dnskey (cv_cache v) [46] (kq_keys result) (kq_ttl result) (instant_of v)) in
              (establish v [46] (kq_keys result), inr ())
      end
  end.

Definition unparseable {A} (what : string) (name : str) : DomainError + A :=
  invalid ("unparseable " +:+ what +:+ " " +:+ to_string name).

Definition prove_ds_absence (v : ChainVerifier) (zone child : str) (child_name : HName) (fresh : FreshDs)
    (zone_keys : list DnskeyRecord) : ChainVerifier * (DomainError + DsDenial) :=
  match to_fqdn zone with
  | None => (v, unparseable "zone name" zone)
  | Some zone_name =>
      let '(nsec3s, nsecs) := collect_verified_denial (fd_authority fresh) (now_of v)
        (λ signer, if name_eqb signer zone_name then Some zone_keys else None) in
      match classify_ds_denial child_name (fd_rcode fresh) zone_name nsec3s nsecs with
      | Some denial => (v, inr denial)
      | None =>
          (if bool_decide (nsec3s = []) && bool_decide (nsecs = [])
           then set_cv_cache v (record_ds_denial_unproven (cv_cache v)) else v,
           invalid ("no authenticated proof that " +:+ to_string child +:+ " has no DS"))
      end
  end.

Definition authenticate_ds (v : ChainVerifier) (zone child : str) (fresh : FreshDs)
    : ChainVerifier * (DomainError + DsLookup) :=
  match validated_keys v !! zone with
  | None => (v, invalid "Parent keys unavailable for DS validation")
  | Some zone_keys =>
      match to_fqdn child with
      | None => (v, unparseable "DS owner" child)
      | Some child_name =>
          if bool_decide (rrset_of (fd_answers fresh) T_DS = []) then
            let '(v, x) := prove_ds_absence v zone child child_name fresh zone_keys in
            match x with
            | inl e => (v, inl e)
            | inr denial =>
                (match fd_negative_ttl fresh with
                 | Some ttl =>
                     if 0 <? ttl then
                       set_cv_cache v (cache_ds (cv_cache v) child (DsAbsent denial) (Z.min ttl MAX_NEGATIVE_DS_TTL) (instant_of v))
                     else v
                 | None => v
                 end, inr (DsAbsent denial))
            end
          else if negb (any_rrsig_verifies (fd_answers fresh) T_DS zone_keys child_name (now_of v)) then
            (v, invalid "DS RRSIG verification failed")
          else
            (set_cv_cache v (cache_ds (cv_cache v) child (DsPresent (fd_records fresh)) (fd_ttl fresh) (instant_of v)),
             inr (DsPresent (fd_records fresh)))
      end
  end.

(** The DS answer of a child: cached, or fetched with the keys beside it. *)
Definition ds_lookup_of (v : ChainVerifier) (zone child : str)
    : ChainVerifier * (DomainError + DsLookup * option (DomainError + DnskeyQueryResult)) :=
  let '(c, cached) := get_ds (cv_cache v) child (instant_of v) in
  let v := set_cv_cache v c in
  match cached with
  | Some lookup => (v, inr (lookup, None))
  | None =>
      let '(v, fresh) := fetch_ds v child in
      let '(v, dnskey) := fetch_dnskey v child in
      match fresh with
      | inl e => (v, inl e)
      | inr fresh =>
          let '(v, x) := authenticate_ds v zone child fresh in
          (v, match x with inl e => inl e | inr lookup => inr (lookup, Some dnskey) end)
      end
  end.

Definition ds_matches (ds_records : list DsRecord) (child : str) (key : DnskeyRecord) : bool :=
  existsb (λ ds, match verify_ds ds key child with inr matched => matched | inl _ => false end) ds_records.

(** The keys of a child whose DS RRset is [ds_records]. *)
Definition trust_child_keys (v : ChainVerifier) (child : str) (ds_records : list DsRecord) (result : DnskeyQueryResult)
    : ChainVerifier * (DomainError + WalkStep) :=
  if bool_decide (kq_keys result = []) then (v, invalid "No DNSKEY records found")
  else if kq_from_cache result then
    if existsb (ds_matches ds_records child) (kq_keys result)
    then (establish v child (kq_keys result), inr SecureCut)
    else (v, invalid "No matching DNSKEY for DS")
  else
    let anchored := List.filter (ds_matches ds_records child) (kq_keys result) in
    if bool_decide (anchored = []) then (v, invalid "No matching DNSKEY for DS")
    else match to_fqdn child with
         | None => (v, unparseable "DNSKEY owner" child)
         | Some owner =>
             if negb (any_rrsig_verifies (kq_answers result) T_DNSKEY anchored owner (now_of v)) then
               (v, invalid "DNSKEY RRSIG verification failed")
             else
               let v := set_cv_cache v (cache_dnskey (cv_cache v) child (kq_keys result) (kq_ttl result) (instant_of v)) in
               (establish v child (kq_keys result), inr SecureCut)
         end.

Definition walk_step (v : ChainVerifier) (zone child : str) : ChainVerifier * (DomainError + WalkStep) :=
  let '(v, x) := ds_lookup_of v zone child in
  match x with
  | inl e => (v, inl e)
  | inr (DsAbsent denial, _) => (v, inr (NoDs denial))
  | inr (DsPresent ds_records, prefetched) =>
      if negb (existsb (λ ds, is_supported_algorithm (ds_algorithm ds)) ds_records) then
        (v, inr (NoDs InsecureDelegation))
      else
        let '(v, result) := match prefetched with Some r => (v, r) | None => fetch_dnskey v child end in
        match result with
        | inl e => (v, inl e)
        | inr result => trust_child_keys v child ds_records result
        end
  end.

Fixpoint walk_down (v : ChainVerifier) (zone : str) (children : list str) : ChainVerifier * (ChainFailure + ChainTrust) :=
  match children with
  | [] => (v, inr (TrustSecure zone))
  | child :: children =>
      let '(v, x) := walk_step v zone child in
      match x with
      | inr SecureCut => walk_down v child children
      | inr (NoDs NotZoneCut) => walk_down v zone children
      | inr (NoDs Nonexistent) => (v, inr (TrustSecure zone))
      | inr (NoDs InsecureDelegation) => (v, inr TrustInsecure)
      | inl e => (v, inl (failure_of e))
      end
  end.

Definition verify_chain (v : ChainVerifier) (name : str) : ChainVerifier * (ChainFailure + ChainTrust) :=
  if negb (has_anchor_for (cv_anchors v) [46]) then (v, inl FailIndeterminate)
  else
    let '(v, x) := bootstrap_root_keys v in
    match x with
    | inl e => (v, inl (failure_of e))
    | inr _ =>
        let fqdn := if ends_with [46] name then name else name ++ [46] in
        walk_down v [46] (descending_suffixes fqdn)
    end.
End chain.
