(* ===== verification/DenialSpec.v ===== *)
(** What proofs of denial prove: with records that are true of a signed zone,
    a name or type found absent is absent from the zone, wildcards included. *)

From Stdlib Require Import String.
From S2P Require Import Prelude Errors Text Net Forwarding DnssecData DnssecDenial.

#[local] Set Default Proof Using "Type".

(** ** The canonical order *)

Section order.
Context {A} (lt eq : A → A → bool).
Context (lt_irrefl : ∀ a, lt a a = false) (lt_trans : ∀ a b c, lt a b = true → lt b c = true → lt a c = true).
Context (lt_total : ∀ a b, a ≠ b → lt a b = true ∨ lt b a = true) (eq_spec : ∀ a b, eq a b = true ↔ a = b).

Lemma lex_irrefl a : lex lt eq a a = false.
Proof using lt_irrefl. induction a as [|x a IH]; [done|]. cbn. by rewrite lt_irrefl, IH, andb_false_r. Qed.

Lemma lex_cons x a y b : lex lt eq (x :: a) (y :: b) = true ↔ lt x y = true ∨ (x = y ∧ lex lt eq a b = true).
Proof using eq_spec. cbn. rewrite orb_true_iff, andb_true_iff, eq_spec. done. Qed.

Lemma lex_trans a b c : lex lt eq a b = true → lex lt eq b c = true → lex lt eq a c = true.
Proof using lt_trans eq_spec.
  revert b c. induction a as [|x a IH]; intros [|y b] [|z c]; try done.
  rewrite !lex_cons. intros [H1|[-> H1]] [H2|[-> H2]]; eauto.
Qed.

Lemma lex_total a b : a ≠ b → lex lt eq a b = true ∨ lex lt eq b a = true.
Proof using lt_total eq_spec.
  revert b. induction a as [|x a IH]; intros [|y b] N; [done|by left|by right|].
  rewrite !lex_cons. destruct (eq x y) eqn:E.
  - apply eq_spec in E as ->. destruct (IH b) as [?|?]; [congruence|by left; right|by right; right].
  - destruct (lt_total x y) as [?|?]; [|by left; left|by right; left].
    intros ->. rewrite (proj2 (eq_spec y y) eq_refl) in E. done.
Qed.

Lemma lex_prefix p b : p `prefix_of` b → lex lt eq b p = false.
Proof using lt_irrefl eq_spec.
  intros [s ->]. induction p as [|x p IH]; [by destruct s|]. apply not_true_iff_false. cbn [app]. rewrite lex_cons.
  intros [E|[_ E]]; congruence.
Qed.

(** What lies between a prefix and a list has the prefix. *)
Lemma lex_between p x b : p `prefix_of` b → lex lt eq x p = false → lex lt eq b x = false → p `prefix_of` x.
Proof using lt_total eq_spec.
  intros [s ->]. revert x. induction p as [|c p IH]; intros x Hp Hb; [apply prefix_nil|].
  destruct x as [|d x]; [done|]. apply not_true_iff_false in Hp, Hb. cbn [app] in Hb. rewrite lex_cons in Hp, Hb.
  destruct (eq c d) eqn:E.
  - apply eq_spec in E as ->. apply prefix_cons, IH; apply not_true_iff_false; tauto.
  - destruct (lt_total c d) as [?|?]; [|tauto..]. intros ->. by rewrite (proj2 (eq_spec d d) eq_refl) in E.
Qed.
End order.

Lemma label_lt_irrefl a : label_lt a a = false.
Proof. apply lex_irrefl, Z.ltb_irrefl. Qed.
Lemma label_lt_trans a b c : label_lt a b = true → label_lt b c = true → label_lt a c = true.
Proof. apply lex_trans; [intros *; rewrite !Z.ltb_lt; lia|apply Z.eqb_eq]. Qed.
Lemma label_lt_total a b : a ≠ b → label_lt a b = true ∨ label_lt b a = true.
Proof. apply lex_total; [intros *; rewrite !Z.ltb_lt; lia|apply Z.eqb_eq]. Qed.

Lemma labels_lt_irrefl a : labels_lt a a = false.
Proof. apply lex_irrefl, label_lt_irrefl. Qed.
Lemma labels_lt_trans a b c : labels_lt a b = true → labels_lt b c = true → labels_lt a c = true.
Proof. apply lex_trans; [apply label_lt_trans|intros *; apply bool_decide_eq_true]. Qed.
Lemma labels_lt_total a b : a ≠ b → labels_lt a b = true ∨ labels_lt b a = true.
Proof. apply lex_total; [apply label_lt_total|intros *; apply bool_decide_eq_true]. Qed.
Lemma labels_lt_prefix p b : p `prefix_of` b → labels_lt b p = false.
Proof. apply lex_prefix; [apply label_lt_irrefl|intros *; apply bool_decide_eq_true]. Qed.
Lemma labels_lt_between p x b : p `prefix_of` b → labels_lt x p = false → labels_lt b x = false → p `prefix_of` x.
Proof. apply lex_between; [apply label_lt_total|intros *; apply bool_decide_eq_true]. Qed.
Lemma labels_lt_not a b : labels_lt a b = true → labels_lt b a = false.
Proof. intros E. apply not_true_iff_false. intros E'. pose proof (labels_lt_trans _ _ _ E E'). by rewrite labels_lt_irrefl in *. Qed.
Lemma labels_le_lt a b c : labels_lt b a = false → labels_lt b c = true → labels_lt a c = true.
Proof.
  intros Hab Hbc. destruct (decide (a = b)) as [->|N]; [done|]. destruct (labels_lt_total a b N); [|congruence].
  by eapply labels_lt_trans.
Qed.

Lemma prefix_of_same {A} (p q b : list A) : p `prefix_of` b → q `prefix_of` b → (length p ≤ length q)%nat → p `prefix_of` q.
Proof. intros Hp Hq Hl. destruct (prefix_weak_total p q b Hp Hq) as [|Hqp]; [done|]. by rewrite (prefix_length_eq q p). Qed.

Lemma tail_drop {A} (l : list A) k : tail (drop k l) = drop (S k) l.
Proof. revert l. induction k as [|k IH]; intros [|x l]; try done. apply IH. Qed.

Abbreviation lowered := (fmap (λ l : bytes, lower_byte <$> l)).

Lemma lowered_rev (n : list bytes) : lowered (rev n) = rev (lowered n).
Proof. induction n as [|l n IH]; [done|]. cbn. by rewrite fmap_app, IH. Qed.

(** ** A signed zone *)

(** The names that have records, with their types: what the zone has authority over, and its
    delegations. Names are canonical. *)
Record Zone := mkZone { z_apex : list bytes; z_names : gmap (list bytes) (list Z) }.

Record zone_ok (z : Zone) : Prop := {
  zo_apex : is_Some (z_names z !! z_apex z);
  zo_below : ∀ n, is_Some (z_names z !! n) → z_apex z `prefix_of` n;
  zo_cut : ∀ d types n, z_names z !! d = Some types → is_delegation types = true →
    is_Some (z_names z !! n) → d `prefix_of` n → n = d;
}.

(** A name exists when it or a name below it has records. *)
Definition exists_in (z : Zone) (p : list bytes) : Prop := ∃ n, is_Some (z_names z !! n) ∧ p `prefix_of` n.

Lemma exists_dec z p : exists_in z p ∨ ¬ exists_in z p.
Proof.
  destruct (decide (Exists (λ n, p `prefix_of` n) (map_to_list (z_names z)).*1)) as [H|H].
  - left. apply Exists_exists in H as (n & Hn & Hp). apply list_elem_of_fmap in Hn as ([n' ts] & -> & Hn).
    apply elem_of_map_to_list in Hn. exists n'. by rewrite Hn.
  - right. intros (n & [ts Hn] & Hp). apply H, Exists_exists. exists n. split; [|done].
    apply list_elem_of_fmap. exists (n, ts). split; [done|]. by apply elem_of_map_to_list.
Qed.

Definition closest_encloser (z : Zone) (q ce : list bytes) : Prop :=
  ce `prefix_of` q ∧ ce ≠ q ∧ exists_in z ce ∧ ∀ p, p `prefix_of` q → exists_in z p → p `prefix_of` ce.

(** The types the zone answers a name with: its own, or those of the wildcard at its closest encloser. *)
Definition answered_with (z : Zone) (q : list bytes) (types : list Z) : Prop :=
  z_names z !! q = Some types ∨
  (¬ exists_in z q ∧ ∃ ce, closest_encloser z q ce ∧ z_names z !! (ce ++ [[42]]) = Some types).

(** The zone has authority over a name: no delegation is at it or above it. *)
Definition governs (z : Zone) (q : list bytes) : Prop :=
  z_apex z `prefix_of` q ∧ ∀ d types, z_names z !! d = Some types → is_delegation types = true → ¬ d `prefix_of` q.

(** Between two names on the circle of the zone's names. *)
Definition between (owner next m : list bytes) : bool :=
  if labels_lt owner next then labels_lt owner m && labels_lt m next else labels_lt owner m || labels_lt m next.

(** An NSEC that is true of the zone. *)
Definition nsec_true (z : Zone) (n : VerifiedNsec) : Prop :=
  z_names z !! canonical (ns_owner n) = Some (ns_types n) ∧
  is_Some (z_names z !! canonical (ns_next n)) ∧
  ∀ m, is_Some (z_names z !! m) → between (canonical (ns_owner n)) (canonical (ns_next n)) m = false.

(** A prefix of a name in a gap that exists leads to an end of the gap. *)
Lemma gap_prefix z o x q p :
  is_Some (z_names z !! o) → is_Some (z_names z !! x) →
  (∀ m, is_Some (z_names z !! m) → between o x m = false) → between o x q = true →
  p `prefix_of` q → exists_in z p → p `prefix_of` o ∨ p `prefix_of` x.
Proof.
  intros Ho Hx Hgap Hq Hp (m & Hm & Hpm). specialize (Hgap m Hm).
  assert (Hleft : labels_lt o q = true → labels_lt o m = false → p `prefix_of` o).
  { intros Hoq Hom. apply (labels_lt_between p o q Hp); [|by apply labels_lt_not].
    apply not_true_iff_false. intros Hop. enough (labels_lt o m = true) by congruence.
    destruct (decide (p = m)) as [->|N]; [done|]. destruct (labels_lt_total p m N) as [Hlt|Hgt].
    - by eapply labels_lt_trans.
    - by rewrite labels_lt_prefix in Hgt. }
  assert (Hright : labels_lt q x = true → labels_lt m x = false → p `prefix_of` x).
  { intros Hqx Hmx. destruct (decide (p = q)) as [->|Npq].
    - apply (labels_lt_between q x m Hpm); [by apply labels_lt_not|done].
    - assert (Hpx : labels_lt x p = false).
      { apply labels_lt_not. eapply labels_le_lt; [|exact Hqx]. by apply labels_lt_prefix. }
      by apply (labels_lt_between p x m Hpm). }
  unfold between in *. destruct (labels_lt o x) eqn:Eox.
  - apply andb_true_iff in Hq as [Hoq Hqx]. apply andb_false_iff in Hgap as [?|?]; auto.
  - apply orb_false_iff in Hgap as [? ?]. apply orb_true_iff in Hq as [?|?]; auto.
Qed.

Section nsec.
Context `{DnsNames} (z : Zone) (Hz : zone_ok z) (nsecs : list VerifiedNsec) (Htrue : Forall (nsec_true z) nsecs).

Lemma nsec1_covers_between o x t : nsec1_covers o x t = between (canonical o) (canonical x) (canonical t).
Proof. unfold nsec1_covers, between. by rewrite !name_ltb_spec. Qed.

(** ** A usable cover *)

Lemma usable_cover_true q n : nsec1_usable_cover nsecs q = Some n →
  nsec_true z n ∧ between (canonical (ns_owner n)) (canonical (ns_next n)) (canonical q) = true ∧
  ¬ (canonical (ns_owner n) `prefix_of` canonical q ∧ is_delegation (ns_types n) = true).
Proof using Htrue.
  intros [Hin [Hc Hu]%andb_true_iff]%find_some. apply list_elem_of_In in Hin. rewrite nsec1_covers_between in Hc.
  split; [by eapply Forall_forall in Htrue|]. split; [done|]. intros [Hp Hd].
  rewrite Hd, zone_of_spec, bool_decide_true in Hu by done. done.
Qed.

Lemma cover_absent q n : nsec1_usable_cover nsecs q = Some n → z_names z !! canonical q = None.
Proof using Htrue.
  intros ((_ & _ & Hgap) & Hc & _)%usable_cover_true. apply eq_None_not_Some. intros Hm.
  by rewrite (Hgap _ Hm) in Hc.
Qed.

(** An encloser that exists is an ancestor of an end of the cover, and the ends exist. *)
Lemma cover_prefix q n p : nsec1_usable_cover nsecs q = Some n → p `prefix_of` canonical q → exists_in z p →
  p `prefix_of` canonical (ns_owner n) ∨ p `prefix_of` canonical (ns_next n).
Proof using Htrue.
  intros ((Ho & Hx & Hgap) & Hc & _)%usable_cover_true. apply gap_prefix; [by eexists|done..].
Qed.

Lemma cover_governs q n : nsec1_usable_cover nsecs q = Some n → z_apex z `prefix_of` canonical q →
  governs z (canonical q).
Proof using Hz Htrue.
  intros Hf Hq. split; [done|]. intros d types Hd Hdel Hdq.
  pose proof (cover_prefix q n d Hf Hdq) as Hends. pose proof (cover_absent q n Hf) as Habs.
  destruct (usable_cover_true q n Hf) as ((Ho & Hx & Hgap) & Hc & Hnd).
  assert (Hne : d ≠ canonical q) by (intros ->; congruence).
  assert (Hown : d `prefix_of` canonical (ns_owner n) → False).
  { intros Hp. pose proof (zo_cut z Hz d types _ Hd Hdel ltac:(by eexists) Hp) as E. rewrite E in Ho.
    apply Hnd. rewrite E. split; [done|]. congruence. }
  destruct Hends as [Hp|Hp]; [exists d; split; [by eexists|done]|by apply Hown|].
  pose proof (zo_cut z Hz d types _ Hd Hdel Hx Hp) as E. rewrite E in *.
  assert (Hdlt : labels_lt d (canonical q) = true).
  { destruct (labels_lt_total d (canonical q) Hne) as [|Hgt]; [done|]. by rewrite labels_lt_prefix in Hgt. }
  specialize (Hgap d ltac:(by eexists)). unfold between in Hc, Hgap.
  rewrite (labels_lt_not d (canonical q) Hdlt), labels_lt_irrefl in *.
  destruct (labels_lt (canonical (ns_owner n)) d) eqn:Eod; [by rewrite andb_false_r in Hc|].
  rewrite orb_false_r in Hc. apply Hown. apply (labels_lt_between d _ (canonical q)); [done|done|by apply labels_lt_not].
Qed.

(** ** The closest encloser *)

(** The labels two names share, read from the last. *)
Lemma shared_prefix a b : shared_labels a b `prefix_of` a.
Proof.
  revert b. induction a as [|x a IH]; intros [|y b]; cbn; try apply prefix_nil.
  destruct (eq_ignore_case x y); [by apply prefix_cons|apply prefix_nil].
Qed.

Lemma shared_common a b p :
  p `prefix_of` lowered a → p `prefix_of` lowered b →
  p `prefix_of` lowered (shared_labels a b).
Proof.
  revert b p. induction a as [|x a IH]; intros b p Ha Hb; [done|].
  destruct p as [|c p]; [apply prefix_nil|]. destruct b as [|y b]; [by apply prefix_nil_inv in Hb|].
  rewrite fmap_cons in Ha, Hb. pose proof (prefix_cons_inv_1 _ _ _ _ Ha) as ->.
  pose proof (prefix_cons_inv_1 _ _ _ _ Hb) as E. apply prefix_cons_inv_2 in Ha, Hb. cbn.
  unfold eq_ignore_case. rewrite bool_decide_true by done. rewrite fmap_cons. apply prefix_cons, IH; done.
Qed.

Lemma shared_of_second a b : lowered (shared_labels a b) `prefix_of` lowered b.
Proof.
  revert b. induction a as [|x a IH]; intros [|y b]; cbn; try apply prefix_nil.
  unfold eq_ignore_case. destruct (bool_decide_reflect (lower_byte <$> x = lower_byte <$> y)) as [E|]; [|apply prefix_nil].
  rewrite fmap_cons. cbn. rewrite E. apply prefix_cons, IH.
Qed.

Lemma common_suffix_drop a b : ∃ k, common_suffix a b = drop k a ∧
  canonical (common_suffix a b) = lowered (shared_labels (rev a) (rev b)).
Proof.
  destruct (shared_prefix (rev a) (rev b)) as [s E].
  assert (Ea : a = rev s ++ rev (shared_labels (rev a) (rev b))) by (by rewrite <-rev_app_distr, <-E, rev_involutive).
  set (shared := shared_labels (rev a) (rev b)) in *.
  assert (Ed : rev shared = drop (length (rev s)) a) by (rewrite Ea at 1; by rewrite drop_app_length).
  exists (length (rev s)). unfold common_suffix. fold shared. rewrite Ed, name_from_labels_spec. cbn [default from_option id]. split; [done|].
  unfold canonical. rewrite <-Ed. by rewrite lowered_rev, rev_involutive.
Qed.

Lemma common_suffix_spec a b p :
  p `prefix_of` canonical (common_suffix a b) ↔ p `prefix_of` canonical a ∧ p `prefix_of` canonical b.
Proof.
  destruct (common_suffix_drop a b) as (k & _ & ->). unfold canonical.
  rewrite <-!lowered_rev. split.
  - intros Hp. split; (etrans; [exact Hp|]); [|apply shared_of_second].
    destruct (shared_prefix (rev a) (rev b)) as [s E]. exists (lowered s). by rewrite <-fmap_app, <-E.
  - intros [Ha Hb]. by apply shared_common.
Qed.

Lemma length_canonical n : length (canonical n) = length n.
Proof. unfold canonical. by rewrite length_rev, length_fmap. Qed.
Lemma canonical_cons l n : canonical (l :: n) = canonical n ++ [lower_byte <$> l].
Proof. done. Qed.

(** An asterisk is only at the front, if it is a label. *)
Definition star_free (q : HName) : Prop := [42] ∉ tail q.

(** The encloser the code computes is the closest one, unless the name exists. *)
Lemma closest_is_closest q n ce : star_free q → nsec1_usable_cover nsecs q = Some n →
  ¬ exists_in z (canonical q) → closest_encloser z (canonical q) ce →
  canonical (nsec1_closest_encloser q n) = ce.
Proof using Hz Htrue.
  intros Hstar Hf Hnq (Hceq & _ & Hce & Hmax).
  destruct (usable_cover_true q n Hf) as ((Ho & Hx & _) & _ & _).
  assert (Hlen : ∀ b, is_Some (z_names z !! canonical b) →
    num_labels (common_suffix q b) = Z.of_nat (length (canonical (common_suffix q b)))
    ∧ canonical (common_suffix q b) `prefix_of` ce).
  { intros b Hb. pose proof (proj1 (common_suffix_spec q b _) (reflexivity _)) as [Hpq Hpb].
    assert (He : exists_in z (canonical (common_suffix q b))) by (exists (canonical b); done).
    split; [|by apply Hmax]. rewrite num_labels_spec, length_canonical.
    destruct (common_suffix_drop q b) as (k & Ek & _). rewrite Ek in *. destruct k as [|k].
    - by rewrite drop_0 in He.
    - rewrite bool_decide_false; [lia|]. destruct q as [|l q]; [by destruct k|]. cbn. intros Eh. apply Hstar. cbn.
      apply head_Some in Eh as [rest Eh]. rewrite <-(take_drop k q), Eh. clear. set_solver. }
  destruct (Hlen _ ltac:(by eexists)) as [No Po]. destruct (Hlen _ Hx) as [Nx Px].
  assert (Hsub : ce `prefix_of` canonical (common_suffix q (ns_owner n)) ∨ ce `prefix_of` canonical (common_suffix q (ns_next n))).
  { destruct (cover_prefix q n ce Hf Hceq Hce) as [Hp|Hp]; [left|right]; by apply common_suffix_spec. }
  unfold nsec1_closest_encloser. rewrite No, Nx.
  assert (Heq : ∀ a, a `prefix_of` ce → (length ce ≤ length a)%nat → a = ce).
  { intros a Ha Hl. by apply prefix_length_eq. }
  destruct (Z.leb_spec (Z.of_nat (length (canonical (common_suffix q (ns_next n)))))
    (Z.of_nat (length (canonical (common_suffix q (ns_owner n)))))); apply Heq; try done;
    destruct Hsub as [Hp%prefix_length|Hp%prefix_length]; lia.
Qed.

Lemma wildcard_canonical n w : make_wildcard n = Some w → canonical w = canonical n ++ [[42]].
Proof. intros ->%append_wildcard_spec. done. Qed.

(** What is covered, and its wildcard not answering with [types], answers with nothing of [P]. *)
Lemma covered_answers (P : list Z → Prop) q n : star_free q → nsec1_usable_cover nsecs q = Some n →
  (∀ w types, make_wildcard (nsec1_closest_encloser q n) = Some w → z_names z !! canonical w = Some types → P types) →
  is_Some (make_wildcard (nsec1_closest_encloser q n)) →
  ∀ types, answered_with z (canonical q) types → P types.
Proof using Hz Htrue.
  intros Hstar Hf Hw [w Ew] types [Hq|(Hne & ce & Hce & Hwild)].
  - by rewrite (cover_absent q n Hf) in Hq.
  - apply (Hw w types Ew). rewrite (wildcard_canonical _ w Ew), (closest_is_closest q n ce); done.
Qed.

Lemma nxdomain_true q soa : star_free q → z_apex z `prefix_of` canonical q →
  nsec1_nxdomain q soa nsecs = Secure →
  governs z (canonical q) ∧ ∀ types, ¬ answered_with z (canonical q) types.
Proof using Hz Htrue.
  unfold nsec1_nxdomain. intros Hstar Hq. destruct (nsec1_usable_cover nsecs q) as [n|] eqn:Ef; [|done].
  destruct (num_labels _ <? _); [done|]. destruct (make_wildcard _) as [w|] eqn:Ew; [|done].
  destruct (nsec1_usable_cover nsecs w) as [n'|] eqn:Ef'; [|done]. intros _. split; [by eapply cover_governs|].
  intros types Ht. apply (covered_answers (λ _, False) q n Hstar Ef) in Ht; [done| |by rewrite Ew].
  rewrite Ew. intros w' types' [= <-] E. by rewrite (cover_absent w n' Ef') in E.
Qed.

Lemma nsec1_match_true q t n : nsec1_match q t nsecs = Some n →
  z_names z !! canonical q = Some (ns_types n) ∧ usable_for t (ns_types n) = true.
Proof using Htrue.
  intros [Hin [He Hu]%andb_true_iff]%find_some. apply list_elem_of_In in Hin.
  rewrite name_eqb_spec in He. apply bool_decide_eq_true in He as <-. split; [|done].
  by eapply Forall_forall in Htrue as [? _].
Qed.

Lemma empty_non_terminal_true q : nsec1_empty_non_terminal q nsecs = true →
  z_names z !! canonical q = None ∧ exists_in z (canonical q).
Proof using Htrue.
  unfold nsec1_empty_non_terminal. destruct (nsec1_usable_cover nsecs q) as [n|] eqn:Ef; [|done].
  intros [_ Hp]%andb_true_iff. split; [by eapply cover_absent|]. destruct (usable_cover_true q n Ef) as ((_ & Hx & _) & _).
  rewrite zone_of_spec in Hp. apply bool_decide_eq_true in Hp. by exists (canonical (ns_next n)).
Qed.

Lemma no_types_in t types : existsb (λ t', (t' =? t) || (t' =? T_CNAME)) types = false →
  has_type t types = false ∧ has_type T_CNAME types = false.
Proof.
  unfold has_type. induction types as [|t' types IH]; [done|]. cbn [existsb]. rewrite (Z.eqb_sym t t'), (Z.eqb_sym T_CNAME t'). intros E.
  apply orb_false_iff in E as [[-> ->]%orb_false_iff E]. by apply IH.
Qed.

Lemma nodata_true q t soa : star_free q → nsec1_nodata q t soa nsecs = Secure →
  ∀ types, answered_with z (canonical q) types → has_type t types = false ∧ has_type T_CNAME types = false.
Proof using Hz Htrue.
  unfold nsec1_nodata. intros Hstar. destruct (nsec1_match q t nsecs) as [n|] eqn:Em.
  - destruct (nsec1_match_true q t n Em) as [Hq _]. destruct (has_type t _ || _) eqn:Et; [done|]. intros _ types [Hq'|(Hne & _)].
    + rewrite Hq in Hq'. injection Hq' as <-. by apply orb_false_iff in Et.
    + destruct Hne. exists (canonical q). split; [by eexists|done].
  - destruct (nsec1_empty_non_terminal q nsecs) eqn:Ee.
    + destruct (empty_non_terminal_true q Ee) as [Hq He]. intros _ types [Hq'|(Hne & _)]; [congruence|done].
    + unfold nsec1_wildcard_nodata. destruct (nsec1_usable_cover nsecs q) as [n|] eqn:Ef; [|done].
      destruct (num_labels _ <? _); [done|]. destruct (make_wildcard _) as [w|] eqn:Ew; [|done]. cbn [orb].
      destruct (existsb _ nsecs) eqn:Ex; [|done]. intros _. apply existsb_exists in Ex as (n' & Hin & [He Hn]%andb_true_iff).
      apply list_elem_of_In in Hin. rewrite name_eqb_spec in He. apply bool_decide_eq_true in He.
      apply (covered_answers _ q n Hstar Ef); [|by eexists]. rewrite Ew. intros w' types [= <-] E.
      eapply Forall_forall in Htrue as [Ht _]; [|exact Hin]. rewrite He in Ht. rewrite E in Ht. injection Ht as ->.
      by apply no_types_in, negb_true_iff.
Qed.

Lemma ds_nodata_true child d : nsec1_ds_nodata child nsecs = Some d →
  match d with
  | InsecureDelegation => ∃ types, z_names z !! canonical child = Some types ∧ has_type T_NS types = true ∧ has_type T_DS types = false
  | NotZoneCut => exists_in z (canonical child) ∧
      ∀ types, z_names z !! canonical child = Some types → has_type T_NS types = false ∧ has_type T_DS types = false
  | Nonexistent => False
  end.
Proof using Htrue.
  unfold nsec1_ds_nodata. destruct (find _ _) as [n|] eqn:Ef.
  - apply find_some in Ef as [[Hin He]%filter_In _]. apply list_elem_of_In in Hin. rewrite name_eqb_spec in He.
    apply bool_decide_eq_true in He as <-. eapply Forall_forall in Htrue as [Ht _]; [|exact Hin].
    unfold ds_denial_at. destruct (has_type T_DS _ || _) eqn:Ed; [done|]. apply orb_false_iff in Ed as [Ed _].
    destruct (has_type T_NS _) eqn:En; intros [= <-]; [by exists (ns_types n)|]. split; [exists (canonical (ns_owner n)); by rewrite Ht|].
    intros types E. rewrite Ht in E. by injection E as <-.
  - destruct (nsec1_empty_non_terminal child nsecs) eqn:Ee; [|done]. intros [= <-].
    destruct (empty_non_terminal_true child Ee) as [Hn He]. split; [done|]. intros types E. congruence.
Qed.
End nsec.

(** ** NSEC3 *)

Definition insecure_delegation (types : list Z) : Prop :=
  has_type T_NS types = true ∧ has_type T_DS types = false ∧ has_type T_SOA types = false.

Lemma nsec3_params_spec `{Nsec3Hash} rs salt iterations : nsec3_params rs = inr (salt, iterations) →
  Forall (λ r, n3_salt (n3_data r) = salt ∧ n3_iterations (n3_data r) = iterations) rs.
Proof.
  destruct rs as [|first rest]; [done|]. unfold nsec3_params. destruct (existsb _ _) eqn:Ex; [done|].
  destruct (_ <? _); [done|]. intros [= <- <-]. apply Forall_forall. intros r Hr.
  apply not_true_iff_false in Ex. rewrite existsb_exists in Ex.
  destruct (decide (n3_salt (n3_data r) = n3_salt (n3_data first))) as [Es|Ns];
    [destruct (Z.eq_dec (n3_iterations (n3_data r)) (n3_iterations (n3_data first))) as [Ei|Ni]; [done|]|];
    destruct Ex; exists r; (split; [by apply list_elem_of_In|]).
  - rewrite (proj2 (Z.eqb_neq _ _) Ni). by rewrite orb_true_r.
  - rewrite bool_decide_false by done. by rewrite orb_true_r.
Qed.

Section nsec3.
Context `{DnsNames, Nsec3Hash} (z : Zone) (Hz : zone_ok z).

(** What opt-out may leave out of the chain: names of which nothing is signed. *)
Definition hidden (m : list bytes) : Prop :=
  ∀ n types, z_names z !! n = Some types → m `prefix_of` n → insecure_delegation types.

Definition arc (owner next d : bytes) : bool :=
  if label_lt owner next then label_lt owner d && label_lt d next else label_lt owner d || label_lt d next.

(** What the chain of the zone speaks of. *)
Definition in_zone (p : list bytes) : Prop := z_apex z `prefix_of` p ∧ exists_in z p.

(** An NSEC3 that is true of the zone, whose owner hashes to [d]. *)
Definition nsec3_true_at (r : VerifiedNsec3) (o : HName) (d : bytes) : Prop :=
  let data := n3_data r in
  in_zone (canonical o) ∧ n3_types data = default [] (z_names z !! canonical o) ∧
  sha1_hash (n3_salt data) o (n3_iterations data) = Some d ∧
  (∃ l, base32_label d = Some l ∧ lower_byte <$> owner_label r = lower_byte <$> l) ∧
  (length (n3_next data) = 20%nat ∧ ∃ l l', base32_label (n3_next data) = Some l ∧ n3_next_label data = Some l' ∧
     lower_byte <$> l' = lower_byte <$> l) ∧
  ∀ m dm, in_zone (canonical m) → sha1_hash (n3_salt data) m (n3_iterations data) = Some dm →
    arc d (n3_next data) dm = true → n3_opt_out data = true ∧ hidden (canonical m).
Definition nsec3_true (r : VerifiedNsec3) : Prop := ∃ o d, nsec3_true_at r o d.

(** Not the last record of the circle, whose next name is before its owner. *)
Definition ordinary (r : VerifiedNsec3) : bool :=
  match n3_next_label (n3_data r) with Some next => label_ltb (owner_label r) next | None => true end.

(** The hashes of a name's ancestors and their wildcards are not those of other names of the zone. *)
Definition collision_free (q : HName) (salt : bytes) (iterations : Z) : Prop :=
  ∀ k m a, (a = drop k q ∨ a = [42] :: drop k q) → in_zone (canonical m) →
    is_Some (sha1_hash salt a iterations) → sha1_hash salt m iterations = sha1_hash salt a iterations →
    canonical m = canonical a.

Context (salt : bytes) (iterations : Z) (nsec3s : list VerifiedNsec3).
Context (Htrue : Forall nsec3_true nsec3s) (Hord : Forall (λ r, ordinary r = true) nsec3s).
Context (Hparams : Forall (λ r, n3_salt (n3_data r) = salt ∧ n3_iterations (n3_data r) = iterations) nsec3s).

Lemma covering_true a raw label r : nsec3_hash a salt iterations = Some (raw, label) →
  nsec3_find_covering nsec3s raw label = Some r →
  in_zone (canonical a) → n3_opt_out (n3_data r) = true ∧ hidden (canonical a).
Proof using Htrue Hord Hparams.
  unfold nsec3_hash. destruct (sha1_hash salt a iterations) as [d|] eqn:Ed; [|done]. cbn [mbind option_bind].
  destruct (base32_label d) as [l|] eqn:El; [|done]. intros [= <- <-] [Hin Hc]%find_some Ha.
  apply list_elem_of_In in Hin.
  eapply Forall_forall in Htrue as (o & do & (Ho & _ & Edo & (lo & Elo & Eol) & (Hlen & ln & ln' & Eln & Enl & Enext) & Hgap)); [|exact Hin].
  eapply Forall_forall in Hord; [|exact Hin]. eapply Forall_forall in Hparams as [Es Ei]; [|exact Hin].
  unfold nsec3_covers, ordinary in *. rewrite Enl in Hc, Hord. rewrite Hord in Hc. rewrite Es, Ei in *.
  rewrite label_ltb_spec, Eol, Enext in Hord. rewrite label_ltb_spec, Eol in Hc.
  pose proof (sha1_hash_length _ _ _ _ Ed) as Ld. pose proof (sha1_hash_length _ _ _ _ Edo) as Ldo.
  rewrite (base32_lt do (n3_next (n3_data r)) lo ln) in Hord by (done || congruence).
  rewrite (base32_lt do d lo l) in Hc by (done || congruence).
  apply (Hgap a d Ha Ed). unfold arc. by rewrite Hord.
Qed.

Lemma matching_of rs q k a raw label r :
  Forall nsec3_true rs → Forall (λ r, n3_salt (n3_data r) = salt ∧ n3_iterations (n3_data r) = iterations) rs →
  collision_free q salt iterations → (a = drop k q ∨ a = [42] :: drop k q) →
  nsec3_hash a salt iterations = Some (raw, label) → nsec3_find_matching rs label = Some r →
  in_zone (canonical a) ∧ n3_types (n3_data r) = default [] (z_names z !! canonical a).
Proof.
  intros Htrue' Hparams' Hcol Hak. unfold nsec3_hash. destruct (sha1_hash salt a iterations) as [d|] eqn:Ed; [|done]. cbn [mbind option_bind].
  destruct (base32_label d) as [l|] eqn:El; [|done]. intros [= <- <-] [Hin Hm]%find_some. apply list_elem_of_In in Hin.
  eapply Forall_forall in Htrue' as (o & do & (Ho & Ht & Edo & (lo & Elo & Eol) & _)); [|exact Hin].
  eapply Forall_forall in Hparams' as [Es Ei]; [|exact Hin]. rewrite Es, Ei in *.
  rewrite label_eqb_spec in Hm. apply bool_decide_eq_true in Hm. rewrite Eol in Hm.
  pose proof (sha1_hash_length _ _ _ _ Ed) as Ld. pose proof (sha1_hash_length _ _ _ _ Edo) as Ldo.
  assert (do = d) as -> by (by eapply base32_eq; [congruence|..]).
  rewrite <-(Hcol k o a Hak Ho); [done|by rewrite Ed|congruence].
Qed.

Lemma matching_true q k a raw label r : collision_free q salt iterations → (a = drop k q ∨ a = [42] :: drop k q) →
  nsec3_hash a salt iterations = Some (raw, label) → nsec3_find_matching nsec3s label = Some r →
  in_zone (canonical a) ∧ n3_types (n3_data r) = default [] (z_names z !! canonical a).
Proof using Htrue Hparams. by apply matching_of. Qed.

Lemma below_in_zone l e : z_apex z `prefix_of` canonical e → exists_in z (canonical (l :: e)) → in_zone (canonical (l :: e)).
Proof. intros Ha He. split; [|done]. etrans; [exact Ha|]. by eexists. Qed.

(** ** The closest encloser *)

Lemma encloser_loop_true q soa fuel k e cover : collision_free q salt iterations → drop k q ≠ [] →
  encloser_loop (drop k q) (encloser_candidates fuel (drop (S k) q) soa) salt iterations nsec3s = Some (e, cover) →
  ∃ j raw label r eraw elabel, drop j q ≠ [] ∧ e = drop (S j) q ∧
    nsec3_hash (drop j q) salt iterations = Some (raw, label) ∧ nsec3_find_covering nsec3s raw label = Some cover ∧
    nsec3_hash e salt iterations = Some (eraw, elabel) ∧ nsec3_find_matching nsec3s elabel = Some r ∧
    is_delegation (n3_types (n3_data r)) = false.
Proof.
  intros Hcol. revert k. induction fuel as [|fuel IH]; intros k Hk; [done|]. cbn [encloser_candidates encloser_loop].
  assert (Hrest : encloser_loop (drop (S k) q)
      (if name_eqb (drop (S k) q) soa then []
       else let parent := base_name (drop (S k) q) in
            if bool_decide (parent = []) then [] else encloser_candidates fuel parent soa) salt iterations nsec3s = Some (e, cover) →
    ∃ j raw label r eraw elabel, drop j q ≠ [] ∧ e = drop (S j) q ∧
      nsec3_hash (drop j q) salt iterations = Some (raw, label) ∧ nsec3_find_covering nsec3s raw label = Some cover ∧
      nsec3_hash e salt iterations = Some (eraw, elabel) ∧ nsec3_find_matching nsec3s elabel = Some r ∧
      is_delegation (n3_types (n3_data r)) = false).
  { destruct (name_eqb _ _); [done|]. cbv zeta. rewrite base_name_spec.
    assert (tail (drop (S k) q) = drop (S (S k)) q) as -> by apply tail_drop.
    destruct (bool_decide_reflect (drop (S (S k)) q = [])) as [|Hne]; [done|]. apply IH.
    intros E. apply Hne. replace (S (S k)) with (S k + 1)%nat by lia. by rewrite <-drop_drop, E. }
  destruct (nsec3_hash (drop (S k) q) salt iterations) as [[eraw elabel]|] eqn:Eh; cbn [mbind option_bind]; [|exact Hrest].
  cbn [snd]. destruct (nsec3_find_matching nsec3s elabel) as [r|] eqn:Em; [|exact Hrest].
  destruct (is_delegation _) eqn:Ed; [done|].
  destruct (nsec3_hash (drop k q) salt iterations) as [[raw label]|] eqn:En; [|done]. cbn.
  destruct (nsec3_find_covering nsec3s raw label) as [c|] eqn:Ec; [|done]. intros [= <- <-].
  by exists k, raw, label, r, eraw, elabel.
Qed.

Lemma canonical_drop q k : canonical (drop k q) `prefix_of` canonical q.
Proof.
  exists (rev (lowered (take k q))). unfold canonical. by rewrite <-rev_app_distr, <-fmap_app, take_drop.
Qed.

Lemma closest_proof_true q soa e cover : collision_free q salt iterations → q ≠ [] →
  closest_encloser_proof q soa salt iterations nsec3s = Some (e, cover) →
  ∃ j l raw label, drop j q = l :: e ∧ e = drop (S j) q ∧
    nsec3_hash (drop j q) salt iterations = Some (raw, label) ∧ nsec3_find_covering nsec3s raw label = Some cover ∧
    in_zone (canonical e) ∧ is_delegation (default [] (z_names z !! canonical e)) = false.
Proof using Htrue Hparams.
  intros Hcol Hq Hp.
  assert (Hloop : encloser_loop (drop 0 q) (encloser_candidates (length q) (drop 1 q) soa) salt iterations nsec3s = Some (e, cover)).
  { unfold closest_encloser_proof, candidates_of in Hp. cbn [encloser_candidates] in Hp.
    destruct (name_eqb q soa); [done|]. cbv zeta in Hp. rewrite base_name_spec in Hp.
    destruct (bool_decide (tail q = [])); [done|]. by destruct q. }
  apply encloser_loop_true in Hloop as (j & raw & label & r & eraw & elabel & Hne & Ee & Hh & Hc & Heh & Hm & Hd); [|done..].
  destruct (matching_true q (S j) e eraw elabel r Hcol (or_introl Ee) Heh Hm) as [Hex Ht]. rewrite Ht in Hd.
  destruct (drop j q) as [|l rest] eqn:Ej; [done|]. exists j, l, raw, label.
  rewrite Ej. assert (rest = e) as -> by (by rewrite Ee, <-tail_drop, Ej). done.
Qed.

(** When the next closer does not exist, the encloser is the closest one, and no delegation hides the name. *)
Lemma next_closer_absent q j l e : drop j q = l :: e → ¬ exists_in z (canonical (l :: e)) → exists_in z (canonical e) →
  is_delegation (default [] (z_names z !! canonical e)) = false → z_apex z `prefix_of` canonical q →
  ¬ exists_in z (canonical q) ∧ (∀ ce, closest_encloser z (canonical q) ce → ce = canonical e) ∧ governs z (canonical q).
Proof using Hz.
  intros Ej Hnc He Hdel Hapex. pose proof (canonical_drop q j) as Hpre. rewrite Ej in Hpre.
  assert (Hup : ∀ p q', p `prefix_of` q' → exists_in z q' → exists_in z p).
  { intros p q' Hp (n & Hn & Hq'). exists n. split; [done|by etrans]. }
  assert (Hbelow : ∀ p, p `prefix_of` canonical q → exists_in z p → p `prefix_of` canonical e).
  { intros p Hp Hex. assert (Hle : canonical e `prefix_of` canonical q) by (etrans; [|exact Hpre]; by eexists).
    apply (prefix_of_same _ _ _ Hp Hle). destruct (decide (length p ≤ length (canonical e))%nat) as [|Hgt]; [done|].
    exfalso. apply Hnc, (Hup _ p); [|done]. apply (prefix_of_same _ _ _ Hpre Hp).
    rewrite canonical_cons, length_app. cbn. lia. }
  split; [|split].
  - intros Hex. apply Hnc. by eapply Hup.
  - intros ce (Hce & _ & Hex & Hmax). apply (anti_symm prefix); [by apply Hbelow|].
    apply Hmax; [|done]. etrans; [|exact Hpre]. by eexists.
  - split; [done|]. intros d types Hd Hdd Hdq.
    assert (Hde : d `prefix_of` canonical e) by (apply Hbelow; [done|exists d; split; [by eexists|done]]).
    destruct He as (n & Hn & Hen). assert (n = d) as -> by (eapply (zo_cut z Hz); [done..|by etrans]).
    assert (canonical e = d) as E by (by apply (anti_symm prefix)). rewrite E, Hd in Hdel. cbn in Hdel. congruence.
Qed.

(** [answered_with] through a next closer that opt-out may hide. *)
Lemma hidden_answers q j l e types : drop j q = l :: e → hidden (canonical (l :: e)) → exists_in z (canonical (l :: e)) →
  answered_with z (canonical q) types → insecure_delegation types.
Proof.
  intros Ej Hh Hex. pose proof (canonical_drop q j) as Hpre. rewrite Ej in Hpre.
  intros [Hq|(_ & ce & (_ & _ & _ & Hmax) & Hw)]; [by eapply Hh|].
  eapply Hh; [exact Hw|]. etrans; [by apply Hmax|]. by eexists.
Qed.

Lemma nsec3_nxdomain_true q soa : collision_free q salt iterations → q ≠ [] → z_apex z `prefix_of` canonical q →
  nsec3_nxdomain q soa salt iterations nsec3s = Secure →
  governs z (canonical q) ∧ ∀ types, answered_with z (canonical q) types → insecure_delegation types.
Proof using Hz Htrue Hord Hparams.
  intros Hcol Hq Hapex. unfold nsec3_nxdomain. destruct (_ ≫= _); [done|].
  destruct (closest_encloser_proof _ _ _ _ _) as [[e cover]|] eqn:Ep; [|done].
  destruct (closest_proof_true q soa e cover Hcol Hq Ep) as (j & l & raw & label & Ej & Ee & Hh & Hc & [Hea Hex] & Hd).
  destruct (n3_opt_out _) eqn:Eo; [done|]. destruct (make_wildcard e) as [w|] eqn:Ew; [|done].
  destruct (nsec3_hash w salt iterations) as [[wraw wlabel]|] eqn:Ewh; [|done].
  destruct (nsec3_find_covering nsec3s wraw wlabel) as [r|] eqn:Ewc; [|done]. intros _.
  rewrite Ej in Hh. assert (Hnc : ¬ exists_in z (canonical (l :: e))).
  { intros Hx. destruct (covering_true _ _ _ _ Hh Hc (below_in_zone _ _ Hea Hx)) as [Hopt _]. congruence. }
  destruct (next_closer_absent q j l e Ej Hnc Hex Hd Hapex) as (Hnq & Hce & Hg). split; [done|].
  intros types [Hq'|(_ & ce & Hclose & Hw)]; [destruct Hnq; exists (canonical q); by rewrite Hq'|].
  rewrite (Hce ce Hclose), <-(wildcard_canonical e w Ew) in Hw.
  assert (Hwex : exists_in z (canonical w)) by (exists (canonical w); by rewrite Hw).
  rewrite (append_wildcard_spec e w Ew) in Hwex. pose proof (below_in_zone [42] e Hea Hwex) as Hwz.
  rewrite <-(append_wildcard_spec e w Ew) in Hwz. destruct (covering_true _ _ _ _ Ewh Ewc Hwz) as [_ Hhid]. by eapply Hhid.
Qed.

Lemma nsec3_nodata_rest_true q t soa : collision_free q salt iterations → q ≠ [] → z_apex z `prefix_of` canonical q →
  nsec3_nodata_rest q t soa salt iterations nsec3s = Secure →
  ∀ types, answered_with z (canonical q) types →
    (has_type t types = false ∧ has_type T_CNAME types = false) ∨ insecure_delegation types.
Proof using Hz Htrue Hord Hparams.
  intros Hcol Hq Hapex. unfold nsec3_nodata_rest.
  destruct (closest_encloser_proof _ _ _ _ _) as [[e cover]|] eqn:Ep; [|done].
  destruct (closest_proof_true q soa e cover Hcol Hq Ep) as (j & l & raw & label & Ej & Ee & Hh & Hc & [Hea Hex] & Hd).
  rewrite Ej in Hh. destruct (wildcard_nodata _ _ _ _ _) eqn:Ew; [|by destruct (n3_opt_out _)]. intros _ types Ht.
  destruct (exists_dec z (canonical (l :: e))) as [Hnc|Hnc].
  { right. destruct (covering_true _ _ _ _ Hh Hc (below_in_zone _ _ Hea Hnc)) as [_ Hhid]. by eapply hidden_answers. }
  destruct (next_closer_absent q j l e Ej Hnc Hex Hd Hapex) as (Hnq & Hce & _).
  destruct Ht as [Hq'|(_ & ce & Hclose & Hw)]; [destruct Hnq; exists (canonical q); by rewrite Hq'|].
  unfold wildcard_nodata in Ew. destruct (make_wildcard e) as [w|] eqn:Ewc; [|done]. cbn [mbind option_bind] in Ew.
  destruct (nsec3_hash w salt iterations) as [[wraw wlabel]|] eqn:Ewh; [|done]. cbn [mbind option_bind snd] in Ew.
  destruct (nsec3_find_matching nsec3s wlabel) as [r|] eqn:Em; [|done].
  rewrite (Hce ce Hclose), <-(wildcard_canonical e w Ewc) in Hw.
  assert (w = [42] :: drop (S j) q) as Ewd by (rewrite <-Ee; by apply append_wildcard_spec).
  destruct (matching_true q (S j) w wraw wlabel r Hcol (or_intror Ewd) Ewh Em) as [_ Hr].
  rewrite Hw in Hr. cbn in Hr. left. rewrite <-Hr. by apply no_types_in, negb_true_iff.
Qed.

Lemma nsec3_nodata_true q t soa : collision_free q salt iterations → q ≠ [] → z_apex z `prefix_of` canonical q →
  nsec3_nodata q t soa salt iterations nsec3s = Secure →
  ∀ types, answered_with z (canonical q) types →
    (has_type t types = false ∧ has_type T_CNAME types = false) ∨ insecure_delegation types.
Proof using Hz Htrue Hord Hparams.
  intros Hcol Hq Hapex. unfold nsec3_nodata. destruct (nsec3_hash q salt iterations) as [[raw label]|] eqn:Eh; [|done].
  destruct (nsec3_find_matching nsec3s label) as [r|] eqn:Em; [|by apply nsec3_nodata_rest_true].
  destruct (usable_for _ _); [|by apply nsec3_nodata_rest_true].
  destruct (has_type t _ || _) eqn:Et; [done|]. intros _ types Ht. left.
  destruct (matching_true q 0 q raw label r Hcol (or_introl (drop_0 q)) Eh Em) as [[_ Hex] Hr]. rewrite Hr in Et.
  destruct Ht as [Hq'|(Hne & _)]; [|done]. rewrite Hq' in Et. by apply orb_false_iff in Et.
Qed.

(** A name whose next closer is covered has no records, or opt-out hides a delegation there. *)
Lemma covered_child child parent e cover : collision_free child salt iterations → child ≠ [] →
  z_apex z `prefix_of` canonical child →
  closest_encloser_proof child parent salt iterations nsec3s = Some (e, cover) →
  ∀ types, z_names z !! canonical child = Some types → insecure_delegation types.
Proof using Hz Htrue Hord Hparams.
  intros Hcol Hq Hapex Ep types E.
  destruct (closest_proof_true child parent e cover Hcol Hq Ep) as (j & l & craw & clabel & Ej & Ee & Hh & Hc & [Hea Hex] & Hd).
  rewrite Ej in Hh. destruct (exists_dec z (canonical (l :: e))) as [Hnc|Hnc].
  - destruct (covering_true _ _ _ _ Hh Hc (below_in_zone _ _ Hea Hnc)) as [_ Hhid].
    exact (hidden_answers child j l e types Ej Hhid Hnc (or_introl E)).
  - destruct (next_closer_absent child j l e Ej Hnc Hex Hd Hapex) as (Hnq & _). destruct Hnq. exists (canonical child). by rewrite E.
Qed.

Lemma nsec3_ds_true child parent d : collision_free child salt iterations → child ≠ [] → z_apex z `prefix_of` canonical child →
  nsec3_params nsec3s = inr (salt, iterations) → nsec3_ds_nodata child parent nsec3s = Some d →
  match d with
  | InsecureDelegation => ∀ types, z_names z !! canonical child = Some types → has_type T_DS types = false
  | NotZoneCut => exists_in z (canonical child) ∧
      ∀ types, z_names z !! canonical child = Some types → has_type T_NS types = false ∧ has_type T_DS types = false
  | Nonexistent => False
  end.
Proof using Hz Htrue Hord Hparams.
  intros Hcol Hq Hapex Hpar. unfold nsec3_ds_nodata. rewrite Hpar.
  destruct (nsec3_hash child salt iterations) as [[raw label]|] eqn:Eh; [|done]. cbn [mbind option_bind].
  destruct (find _ (List.filter _ _)) as [r|] eqn:Ef.
  - apply find_some in Ef as [[Hin Hm]%filter_In _].
    assert (Hr : in_zone (canonical child) ∧ n3_types (n3_data r) = default [] (z_names z !! canonical child)).
    { assert (Hall : Forall nsec3_true [r]).
      { apply Forall_singleton. apply list_elem_of_In in Hin. by eapply Forall_forall in Htrue. }
      apply list_elem_of_In in Hin. eapply Forall_forall in Hparams; [|exact Hin]. clear Htrue Hord.
      eapply (matching_of [r]); [exact Hall|by apply Forall_singleton|exact Hcol|left; apply (eq_sym (drop_0 child))|exact Eh|].
      unfold nsec3_find_matching. cbn. by rewrite Hm. }
    destruct Hr as [[_ Hex] Hr]. unfold ds_denial_at.
    destruct (has_type T_DS _ || _) eqn:Ed; [done|]. apply orb_false_iff in Ed as [Ed _]. rewrite Hr in *.
    destruct (has_type T_NS _) eqn:En; intros [= <-]; [|split; [done|]]; intros types E; rewrite E in *; done.
  - destruct (closest_encloser_proof _ _ _ _ _) as [[e cover]|] eqn:Ep; [|done].
    destruct (n3_opt_out _) eqn:Eo; [|done]. intros [= <-] types E.
    by apply (covered_child child parent e cover Hcol Hq Hapex Ep types).
Qed.
End nsec3.
