(* ===== verification/DenialSound.v ===== *)
(** Denials of existence are sound: the theorems over [prove_denial] and
    [classify_ds_denial], and the denials that are accepted and not true. *)

From Stdlib Require Import String.
From S2P Require Import Prelude Errors Text Net Forwarding DnssecData DnssecDenial DenialSpec.

#[local] Set Default Proof Using "Type".

Section sound.
Context `{DnsNames, Nsec3Hash}.

(** What an accepted answer to a DS query says of the zone. *)
Definition ds_denial_true (z : Zone) (child : list bytes) (d : DsDenial) : Prop :=
  match d with
  | InsecureDelegation => ∀ types, z_names z !! child = Some types → has_type T_DS types = false
  | NotZoneCut => exists_in z child ∧
      ∀ types, z_names z !! child = Some types → has_type T_NS types = false ∧ has_type T_DS types = false
  | Nonexistent => ∀ types, answered_with z child types → insecure_delegation types
  end.

(** C17: with NSEC records that are true of a zone, what the validator takes for proven is true: a
    name proven not to exist has no records, no wildcard of the zone answers for it and no
    delegation hides it, a type proven absent is not among the types the zone answers the name
    with, its wildcard's included, and neither is CNAME; and a DS proven absent is not there. *)
Theorem nsec_denials_hold z qname qtype rcode soa nsecs :
  zone_ok z → Forall (nsec_true z) nsecs → z_apex z `prefix_of` canonical qname → star_free qname →
  (prove_denial qname qtype rcode soa [] nsecs = Secure →
     match rcode with
     | RcNXDomain => governs z (canonical qname) ∧ ∀ types, ¬ answered_with z (canonical qname) types
     | _ => ∀ types, answered_with z (canonical qname) types → has_type qtype types = false ∧ has_type T_CNAME types = false
     end) ∧
  ∀ d, classify_ds_denial qname rcode soa [] nsecs = Some d → ds_denial_true z (canonical qname) d.
Proof.
  intros Hz Ht Hq Hs.
  assert (Hnx : ∀ t, prove_denial qname t RcNXDomain soa [] nsecs = Secure →
    governs z (canonical qname) ∧ ∀ types, ¬ answered_with z (canonical qname) types).
  { intros t. unfold prove_denial. cbn [negb bool_decide]. destruct (negb (bool_decide (nsecs = []))); [|done].
    by apply nxdomain_true. }
  split.
  - destruct rcode; try (unfold prove_denial, verify_nsec1; by destruct (negb (bool_decide (nsecs = [])))); [|apply Hnx].
    unfold prove_denial. cbn [negb bool_decide]. destruct (negb (bool_decide (nsecs = []))); [|done].
    by apply nodata_true.
  - intros d. unfold classify_ds_denial. destruct rcode; try done.
    + cbn [negb bool_decide]. intros Hd. pose proof (ds_nodata_true z nsecs Ht qname d Hd) as Hspec.
      destruct d; [destruct Hspec as (types & E & _ & Hds); intros types' E'; congruence|exact Hspec|done].
    + specialize (Hnx T_DS). destruct (prove_denial _ _ _ _ _ _) eqn:Ep; try done; intros [= <-].
      * intros types Ha. by apply Hnx in Ha.
      * exfalso. clear -Ep. unfold prove_denial, verify_nsec1, nsec1_nxdomain in Ep. cbn [negb bool_decide] in Ep.
        destruct (negb (bool_decide (nsecs = []))); [|done]. destruct (nsec1_usable_cover nsecs qname); [|done].
        destruct (_ <? _); [done|]. destruct (make_wildcard _); [|done]. by destruct (nsec1_usable_cover nsecs _).
Qed.

Lemma params_error rs status : rs ≠ [] → nsec3_params rs = inl status →
  status = Bogus ∨ (status = Insecure ∧ Exists (λ r, NSEC3_ITERATION_CAP < n3_iterations (n3_data r)) rs).
Proof.
  destruct rs as [|first rest]; [done|]. intros _. unfold nsec3_params. destruct (existsb _ _); [intros [= <-]; by left|].
  destruct (Z.ltb_spec NSEC3_ITERATION_CAP (n3_iterations (n3_data first))); [|done]. intros [= <-]. right.
  split; [done|]. by left.
Qed.

(** C18: with NSEC3 records that are true of a zone, and are not the last of its circle, what the
    validator takes for proven is true: a name proven not to exist has no records, no delegation of
    the zone hides it and no wildcard answers for it, a type proven absent is not among the types
    the zone answers the name with, and a DS proven absent is not there; but unsigned delegations
    left out under opt-out may be there, as may anything when the records ask for more iterations
    than the cap. The hashes of the name's ancestors are not those of other names of the zone. *)
Theorem nsec3_denials_hold z qname qtype rcode soa nsec3s nsecs :
  zone_ok z → nsec3s ≠ [] → Forall (nsec3_true z) nsec3s → Forall (λ r, ordinary r = true) nsec3s →
  Forall (λ r, collision_free z qname (n3_salt (n3_data r)) (n3_iterations (n3_data r))) nsec3s →
  qname ≠ [] → z_apex z `prefix_of` canonical qname →
  (prove_denial qname qtype rcode soa nsec3s nsecs = Secure →
     (rcode = RcNXDomain → governs z (canonical qname)) ∧
     ∀ types, answered_with z (canonical qname) types →
       (rcode ≠ RcNXDomain ∧ has_type qtype types = false ∧ has_type T_CNAME types = false) ∨ insecure_delegation types) ∧
  ∀ d, classify_ds_denial qname rcode soa nsec3s nsecs = Some d →
    ds_denial_true z (canonical qname) d ∨ Exists (λ r, NSEC3_ITERATION_CAP < n3_iterations (n3_data r)) nsec3s.
Proof.
  intros Hz Hne Ht Ho Hc Hq Hapex.
  assert (Epd : ∀ t rc, prove_denial qname t rc soa nsec3s nsecs = verify_nsec3 qname t rc soa nsec3s).
  { intros t rc. unfold prove_denial. by rewrite bool_decide_false. }
  destruct (nsec3_params nsec3s) as [status|[salt iterations]] eqn:Ep.
  - assert (Hs : ∀ t rc, prove_denial qname t rc soa nsec3s nsecs = status).
    { intros t rc. rewrite Epd. unfold verify_nsec3. by rewrite Ep. }
    destruct (params_error nsec3s status Hne Ep) as [->|[-> Hcap]].
    + split; [by rewrite Hs|]. intros d. unfold classify_ds_denial, nsec3_ds_nodata. rewrite Hs, Ep.
      rewrite bool_decide_false by done. by destruct rcode.
    + split; [by rewrite Hs|]. intros d _. by right.
  - pose proof (nsec3_params_spec _ _ _ Ep) as Hp.
    assert (Hcol : collision_free z qname salt iterations).
    { destruct nsec3s as [|r rs]; [done|]. apply Forall_cons in Hc as [Hc _]. apply Forall_cons in Hp as [[<- <-] _]. done. }
    assert (Hv : ∀ t rc, prove_denial qname t rc soa nsec3s nsecs =
      match rc with
      | RcNXDomain => nsec3_nxdomain qname soa salt iterations nsec3s
      | RcNoError => nsec3_nodata qname t soa salt iterations nsec3s
      | _ => Bogus
      end) by (intros t rc; rewrite Epd; unfold verify_nsec3; by rewrite Ep).
    split.
    + rewrite Hv. destruct rcode; try done; intros Hsec.
      * split; [done|]. intros types Ha. destruct (nsec3_nodata_true z Hz salt iterations nsec3s Ht Ho Hp qname qtype soa Hcol Hq Hapex Hsec types Ha); auto.
      * destruct (nsec3_nxdomain_true z Hz salt iterations nsec3s Ht Ho Hp qname soa Hcol Hq Hapex Hsec). auto.
    + intros d Hd. left. unfold classify_ds_denial in Hd. destruct rcode; try done.
      * rewrite bool_decide_false in Hd by done.
        pose proof (nsec3_ds_true z Hz salt iterations nsec3s Ht Ho Hp qname soa d Hcol Hq Hapex Ep Hd) as Hs. by destruct d.
      * rewrite Hv in Hd. destruct (nsec3_nxdomain _ _ _ _ _) eqn:En; try done; injection Hd as <-.
        -- by destruct (nsec3_nxdomain_true z Hz salt iterations nsec3s Ht Ho Hp qname soa Hcol Hq Hapex En).
        -- intros types E. unfold nsec3_nxdomain in En. destruct (_ ≫= _); [done|].
           destruct (closest_encloser_proof _ _ _ _ _) as [[e cover]|] eqn:Ecp; [|done].
           by apply (covered_child z Hz salt iterations nsec3s Ht Ho Hp qname soa e cover Hcol Hq Hapex Ecp types).
Qed.
End sound.
