(* ===== verification/DenialExamples.v ===== *)
(** Zones, names and hashes small enough to compute with: the theorems on denial
    at concrete answers, and denials that are accepted though they are not true. *)

From Stdlib Require Import String.
From S2P Require Import Prelude Errors Text Net Forwarding DnssecData DnssecDenial DenialSpec DenialSound.

#[local] Set Default Proof Using "Type".

(** ** Names and hashes *)

Definition plain_names : DnsNames.
Proof.
  refine {|
    name_eqb a b := bool_decide (canonical a = canonical b);
    name_ltb a b := labels_lt (canonical a) (canonical b);
    zone_of a b := bool_decide (canonical a `prefix_of` canonical b);
    num_labels n := Z.of_nat (length n) - (if bool_decide (head n = Some [42]) then 1 else 0);
    base_name n := tail n;
    append_wildcard n := Some ([42] :: n);
    name_from_labels n := Some n;
    name_to_string n := match n with [] => [46] | _ => n ≫= (λ l, l ++ [46]) end;
  |}; try done. by intros n w [= <-].
Defined.

(** A toy hash: the labels, separated, in twenty bytes. *)
Definition toy_digest (n : HName) : bytes := resize 20 0 (canonical n ≫= λ l, l ++ [1]).
Definition hex_pair (b : Z) : bytes := [97 + b / 16; 97 + b mod 16].

Definition toy_base32 (d : bytes) : option bytes :=
  if forallb (λ b, (0 <=? b) && (b <=? 255)) d then Some (d ≫= hex_pair) else None.

Lemma hex_pair_lower b : 0 ≤ b ≤ 255 → lower_byte <$> hex_pair b = hex_pair b.
Proof.
  intros Hb. assert (Hl : ∀ x, 97 ≤ x → lower_byte x = x).
  { intros x Hx. unfold lower_byte. by rewrite (proj2 (Z.leb_gt x 90)), andb_false_r by lia. }
  unfold hex_pair. cbn [fmap list_fmap]. by rewrite !Hl by (Z.to_euclidean_division_equations; lia).
Qed.

Lemma hex_pair_lt x y a b : 0 ≤ x ≤ 255 → 0 ≤ y ≤ 255 →
  label_lt (hex_pair x ++ a) (hex_pair y ++ b) = (x <? y) || ((x =? y) && label_lt a b).
Proof.
  intros Hx Hy. unfold label_lt, hex_pair. cbn [app lex].
  destruct (Z.ltb_spec x y), (Z.eqb_spec x y); try lia; subst; cbn [orb andb].
  - destruct (Z.ltb_spec (97 + x / 16) (97 + y / 16)); [done|]. rewrite (proj2 (Z.eqb_eq _ _)) by (Z.to_euclidean_division_equations; lia).
    by rewrite (proj2 (Z.ltb_lt _ _)) by (Z.to_euclidean_division_equations; lia).
  - by rewrite !Z.ltb_irrefl, !Z.eqb_refl.
  - rewrite (proj2 (Z.ltb_ge (97 + x / 16) _)) by (Z.to_euclidean_division_equations; lia). cbn [orb].
    destruct (Z.eqb_spec (97 + x / 16) (97 + y / 16)); [|done]. cbn [andb].
    rewrite (proj2 (Z.ltb_ge _ _)) by (Z.to_euclidean_division_equations; lia).
    by rewrite (proj2 (Z.eqb_neq _ _)) by (Z.to_euclidean_division_equations; lia).
Qed.

Lemma toy_base32_spec a la : toy_base32 a = Some la →
  la = (a ≫= hex_pair) ∧ lower_byte <$> la = la ∧ Forall (λ b, 0 ≤ b ≤ 255) a.
Proof.
  unfold toy_base32. destruct (forallb _ a) eqn:Ef; [|done]. intros [= <-].
  assert (Ha : Forall (λ b, 0 ≤ b ≤ 255) a).
  { apply Forall_forall. intros b Hb. rewrite forallb_forall in Ef. specialize (Ef b). rewrite andb_true_iff, !Z.leb_le in Ef.
    apply Ef, list_elem_of_In, Hb. }
  split; [done|]. split; [|done]. clear Ef. induction Ha as [|b a Hb Ha IH]; [done|].
  by rewrite bind_cons, fmap_app, hex_pair_lower, IH.
Qed.

Lemma toy_base32_lt a b la lb : length a = length b → toy_base32 a = Some la → toy_base32 b = Some lb →
  label_lt (lower_byte <$> la) (lower_byte <$> lb) = label_lt a b.
Proof.
  intros Hl (-> & -> & Ha)%toy_base32_spec (-> & -> & Hb)%toy_base32_spec. revert b Hl Hb.
  induction Ha as [|x a Hx Ha IH]; intros [|y b] Hl Hb; try done. apply Forall_cons in Hb as [Hy Hb].
  rewrite !bind_cons, hex_pair_lt, IH by (done || (cbn in Hl; congruence)). done.
Qed.

Definition toy_hash : Nsec3Hash.
Proof.
  refine {|
    sha1_hash _ n _ := Some (toy_digest n);
    base32_label := toy_base32;
    label_from_raw l := Some l;
    label_eqb a b := bool_decide (lower_byte <$> a = lower_byte <$> b);
    label_ltb a b := label_lt (lower_byte <$> a) (lower_byte <$> b);
    base32_lt := toy_base32_lt;
  |}; try done.
  - intros _ a b _ E. unfold toy_digest. by rewrite E.
  - intros _ n _ d [= <-]. unfold toy_digest. apply length_resize.
  - intros a b la lb Hl Ea Eb E. destruct (decide (a = b)) as [|N]; [done|].
    destruct (label_lt_total a b N) as [Hlt|Hlt];
      [rewrite <-(toy_base32_lt a b la lb) in Hlt by done|rewrite <-(toy_base32_lt b a lb la) in Hlt by done];
      rewrite E, label_lt_irrefl in Hlt; done.
Defined.

#[local] Existing Instances plain_names toy_hash.

(** ** Deciding what is true of a zone *)

(** The names of a zone and the empty non-terminals between them and its apex. *)
Definition zone_prefixes (z : Zone) : list (list bytes) :=
  (map_to_list (z_names z)).*1 ≫= λ n, (λ k, take k n) <$> seq (length (z_apex z)) (S (length n) - length (z_apex z)).

Lemma in_zone_prefixes z p : in_zone z p → p ∈ zone_prefixes z.
Proof.
  intros [Ha (n & [types Hn] & Hp)]. unfold zone_prefixes. apply list_elem_of_bind. exists n. split.
  - apply prefix_length in Ha. pose proof (prefix_length _ _ Hp). apply list_elem_of_fmap. exists (length p).
    destruct Hp as [s ->]. split; [by rewrite take_app_length|]. apply elem_of_seq. lia.
  - apply list_elem_of_fmap. exists (n, types). split; [done|]. by apply elem_of_map_to_list.
Qed.

Lemma zone_ok_of z : is_Some (z_names z !! z_apex z) →
  map_Forall (λ n _, z_apex z `prefix_of` n) (z_names z) →
  map_Forall (λ d types, is_delegation types = true → map_Forall (λ n _, d `prefix_of` n → n = d) (z_names z)) (z_names z) →
  zone_ok z.
Proof.
  intros Ha Hb Hc. split; [done|by intros n [types Hn]; eapply Hb|].
  intros d types n Hd Hdel [types' Hn] Hp. by eapply Hc.
Qed.

Lemma nsec_true_of z n : z_names z !! canonical (ns_owner n) = Some (ns_types n) →
  is_Some (z_names z !! canonical (ns_next n)) →
  map_Forall (λ m _, between (canonical (ns_owner n)) (canonical (ns_next n)) m = false) (z_names z) → nsec_true z n.
Proof. intros Ho Hx Hg. split; [done|]. split; [done|]. intros m [types Hm]. by eapply Hg. Qed.

Definition digest_of (p : list bytes) : bytes := resize 20 0 (p ≫= λ l, l ++ [1]).

(** The NSEC3 of the name [o], with the next hash that of [x]. *)
Definition toy_nsec3 (z : Zone) (o x : HName) (opt_out : bool) : VerifiedNsec3 :=
  mkNsec3 (default [] (toy_base32 (toy_digest o)))
    (mkNsec3Data 1 opt_out 0 [] (toy_digest x) (toy_base32 (toy_digest x)) (default [] (z_names z !! canonical o))).

Lemma toy_nsec3_true z o x opt_out : in_zone z (canonical o) →
  is_Some (toy_base32 (toy_digest o)) → is_Some (toy_base32 (toy_digest x)) →
  Forall (λ p, arc (toy_digest o) (toy_digest x) (digest_of p) = false) (zone_prefixes z) →
  nsec3_true z (toy_nsec3 z o x opt_out).
Proof.
  intros Ho [lo Elo] [lx Elx] Hg. exists o, (toy_digest o). split; [done|]. split; [done|]. split; [done|]. split; [|split].
  - exists lo. cbn. by rewrite Elo.
  - split; [apply length_resize|]. exists lx, lx. cbn. by rewrite Elx.
  - intros m dm Hm [= <-] Harc. exfalso. apply in_zone_prefixes in Hm. eapply Forall_forall in Hg; [|exact Hm].
    assert (arc (toy_digest o) (toy_digest x) (digest_of (canonical m)) = true) by exact Harc. congruence.
Qed.

Lemma toy_collision_free z q salt iterations :
  Forall (λ k, Forall (λ p, (digest_of p = toy_digest (drop k q) → p = canonical (drop k q)) ∧
                            (digest_of p = toy_digest ([42] :: drop k q) → p = canonical ([42] :: drop k q))) (zone_prefixes z))
    (seq 0 (S (length q))) → collision_free z q salt iterations.
Proof.
  intros Hall k m a Ha Hm _ [= E]. apply in_zone_prefixes in Hm.
  assert (Hk : ∃ k', k' ∈ seq 0 (S (length q)) ∧ drop k q = drop k' q).
  { destruct (decide (k ≤ length q)%nat) as [Hl|Hl]; [exists k; split; [apply elem_of_seq; lia|done]|].
    exists (length q). split; [apply elem_of_seq; lia|]. by rewrite !drop_ge by lia. }
  destruct Hk as (k' & Hk' & Ed). eapply Forall_forall in Hall; [|exact Hk']. eapply Forall_forall in Hall as [H1 H2]; [|exact Hm].
  rewrite <-Ed in *. destruct Ha as [-> | ->]; auto.
Qed.

(** ** The theorems at work *)

Definition t_test : HName := [of_string "test"].
Definition t_name (l : string) : HName := of_string l :: t_test.
Definition test_zone : Zone :=
  mkZone (canonical t_test) (<[canonical t_test := [6; 2; 48]]> (<[canonical (t_name "a") := [1]]> {[canonical (t_name "b") := [1; 28]]})).

Lemma test_zone_ok : zone_ok test_zone.
Proof. apply zone_ok_of; apply (bool_decide_unpack _); by vm_compute. Qed.

Definition test_nsecs : list VerifiedNsec := [mkNsec (t_name "b") t_test [1; 28]; mkNsec t_test (t_name "a") [6; 2; 48]].

Lemma test_nsecs_true : Forall (nsec_true test_zone) test_nsecs.
Proof. repeat (apply Forall_cons; split); [..|by apply Forall_nil]; apply nsec_true_of; apply (bool_decide_unpack _); by vm_compute. Qed.

Lemma nsec_denials_hold_witness :
  prove_denial (t_name "c") 1 RcNXDomain t_test [] test_nsecs = Secure ∧
  ∀ types, ¬ answered_with test_zone (canonical (t_name "c")) types.
Proof.
  split; [by vm_compute|].
  refine (proj2 (proj1 (nsec_denials_hold test_zone (t_name "c") 1 RcNXDomain t_test test_nsecs test_zone_ok test_nsecs_true _ _) _)).
  - apply (bool_decide_unpack _). by vm_compute.
  - by vm_compute; set_solver.
  - by vm_compute.
Defined.

(** A zone with NSEC3 records, one of each name. *)
Definition test_nsec3s : list VerifiedNsec3 :=
  [toy_nsec3 test_zone t_test (t_name "a") false; toy_nsec3 test_zone (t_name "a") (t_name "b") false].

Lemma exists_of_prefix z p : Exists (λ n, p `prefix_of` n) (map_to_list (z_names z)).*1 → exists_in z p.
Proof.
  intros (n & Hn & Hp)%Exists_exists. apply list_elem_of_fmap in Hn as ([n' ts] & -> & Hn).
  apply elem_of_map_to_list in Hn. exists n'. by rewrite Hn.
Qed.

Lemma toy_in_zone z p : z_apex z `prefix_of` p → Exists (λ n, p `prefix_of` n) (map_to_list (z_names z)).*1 → in_zone z p.
Proof. intros. split; [done|by apply exists_of_prefix]. Qed.

Lemma test_nsec3s_true : Forall (nsec3_true test_zone) test_nsec3s.
Proof.
  repeat (apply Forall_cons; split); [..|by apply Forall_nil];
    (apply toy_nsec3_true; [apply toy_in_zone|..]; apply (bool_decide_unpack _); by vm_compute).
Qed.

Lemma nsec3_denials_hold_witness :
  prove_denial (t_name "aa") 1 RcNXDomain t_test test_nsec3s [] = Secure ∧
  governs test_zone (canonical (t_name "aa")) ∧
  ∀ types, answered_with test_zone (canonical (t_name "aa")) types → insecure_delegation types.
Proof.
  assert (Hs : prove_denial (t_name "aa") 1 RcNXDomain t_test test_nsec3s [] = Secure) by by vm_compute.
  destruct (nsec3_denials_hold test_zone (t_name "aa") 1 RcNXDomain t_test test_nsec3s [] test_zone_ok ltac:(done)
    test_nsec3s_true) as [Hd _].
  - apply (bool_decide_unpack _). by vm_compute.
  - repeat (apply Forall_cons; split); [..|by apply Forall_nil]; apply toy_collision_free;
      apply (bool_decide_unpack _); by vm_compute.
  - done.
  - apply (bool_decide_unpack _). by vm_compute.
  - split; [exact Hs|]. destruct (Hd Hs) as [Hg Ha]. split; [by apply Hg|]. intros types Ht.
    by destruct (Ha types Ht) as [[? _]|].
Defined.

(** ** Denials that are accepted and not true *)

(** The last NSEC3 of the circle covers every hash, so with the apex's own it denies a name that exists. *)
Lemma last_nsec3_denies_all :
  let records := [toy_nsec3 test_zone t_test (t_name "a") false; toy_nsec3 test_zone (t_name "b") t_test false] in
  Forall (nsec3_true test_zone) records ∧ z_names test_zone !! canonical (t_name "a") = Some [1] ∧
  prove_denial (t_name "a") 1 RcNXDomain t_test records [] = Secure.
Proof.
  split; [|split; by vm_compute].
  repeat (apply Forall_cons; split); [..|by apply Forall_nil];
    (apply toy_nsec3_true; [apply toy_in_zone|..]; apply (bool_decide_unpack _); by vm_compute).
Qed.

(** The record that covers an empty non-terminal is taken for a proof that it does not exist. *)
Definition ent_zone : Zone :=
  mkZone (canonical t_test) (<[canonical t_test := [6; 2]]> {[canonical (of_string "host" :: t_name "ent") := [1]]}).
Lemma empty_non_terminal_denied :
  let nsecs := [mkNsec t_test (of_string "host" :: t_name "ent") [6; 2]] in
  Forall (nsec_true ent_zone) nsecs ∧ exists_in ent_zone (canonical (t_name "ent")) ∧
  prove_denial (t_name "ent") 1 RcNXDomain t_test [] nsecs = Secure.
Proof.
  split; [|split; [|by vm_compute]].
  - apply Forall_cons; split; [|by apply Forall_nil]. apply nsec_true_of; apply (bool_decide_unpack _); by vm_compute.
  - apply exists_of_prefix, (bool_decide_unpack _). by vm_compute.
Qed.

(** The NSEC of a DNAME (type 39) is taken for a proof about the names it redirects. *)
Definition dname_zone : Zone :=
  mkZone (canonical t_test) (<[canonical t_test := [6; 2]]> {[canonical (t_name "moved") := [39]]}).
Lemma names_below_dname_denied :
  let nsecs := [mkNsec (t_name "moved") t_test [39]] in
  Forall (nsec_true dname_zone) nsecs ∧
  prove_denial (of_string "host" :: t_name "moved") 1 RcNXDomain t_test [] nsecs = Secure.
Proof.
  split; [|by vm_compute].
  apply Forall_cons; split; [|by apply Forall_nil]. apply nsec_true_of; apply (bool_decide_unpack _); by vm_compute.
Qed.

(** An answer expanded from [*.test] is accepted for a name whose closest encloser is below it. *)
Definition wild_zone : Zone :=
  mkZone (canonical t_test) (<[canonical t_test := [6; 2]]> (<[canonical (t_name "*") := [1]]>
    {[canonical (of_string "a" :: t_name "b") := [1]]})).
Lemma wildcard_above_accepted :
  let qname := of_string "x" :: t_name "b" in
  let nsecs := [mkNsec (of_string "a" :: t_name "b") t_test [1]] in
  Forall (nsec_true wild_zone) nsecs ∧ exists_in wild_zone (canonical (t_name "b")) ∧
  prove_wildcard_expansion qname 1 [] nsecs = Secure.
Proof.
  split; [|split; [|by vm_compute]].
  - apply Forall_cons; split; [|by apply Forall_nil]. apply nsec_true_of; apply (bool_decide_unpack _); by vm_compute.
  - apply exists_of_prefix, (bool_decide_unpack _). by vm_compute.
Qed.
