(* ===== verification/DnssecValidator.v ===== *)
(** The validator of answers: [infrastructure/src/dns/dnssec/validator.rs]. *)

From Stdlib Require Import String.
From S2P Require Import Prelude Errors Text Net Forwarding DnssecData DnssecDenial DnssecChain.

#[local] Set Default Proof Using "Type".

Definition MAX_CHAIN_WALKS : nat := 8.

(** The most severe of two outcomes. *)
Definition most_severe (a b : DnssecStatus) : DnssecStatus :=
  match a, b with
  | Bogus, _ | _, Bogus => Bogus
  | Indeterminate, _ | _, Indeterminate => Indeterminate
  | Insecure, _ | _, Insecure => Insecure
  | Secure, Secure => Secure
  end.

Record AnswerRrset := mkRrset { rs_owner : HName; rs_rtype : Z; rs_records : list HRecord; rs_signers : list HName }.

Record Walk := mkWalk { wk_anchor : HName; wk_walked : str; wk_trust : ChainFailure + ChainTrust }.

(** The zone of a walk that ended at the name itself. *)
Definition secure_apex (w : Walk) : option str :=
  match wk_trust w with
  | inr (TrustSecure zone) => if eq_ignore_case (utf8 zone) (utf8 (wk_walked w)) then Some zone else None
  | _ => None
  end.

Definition is_rrsig (r : HRecord) : bool := match hr_data r with RdRRSIG _ _ => true | _ => false end.

Section validator.
Context `{Hickory, DnsNames, DnssecPrimitives, Nsec3Hash, IterOrder, DnssecNet}.

Definition name_in (n : HName) (ns : list HName) : bool := existsb (λ m, name_eqb m n) ns.

Definition walk_anchors (r : AnswerRrset) : list HName :=
  if bool_decide (rs_signers r = []) then [rs_owner r] else rs_signers r.

Definition covering_rrsigs (owner : HName) (rtype : Z) (answers : list HRecord) : list SigInput :=
  omap (λ r, match hr_data r with
             | RdRRSIG input _ => if name_eqb (hr_name r) owner && (type_covered input =? rtype) then Some input else None
             | _ => None
             end) answers.

(** A record of an RRset met before, or the first of one. *)
Fixpoint push_record (rrsets : list AnswerRrset) (r : HRecord) : list AnswerRrset :=
  match rrsets with
  | [] => [mkRrset (hr_name r) (record_type r) [r] []]
  | s :: rrsets =>
      if name_eqb (rs_owner s) (hr_name r) && (rs_rtype s =? record_type r)
      then mkRrset (rs_owner s) (rs_rtype s) (rs_records s ++ [r]) (rs_signers s) :: rrsets
      else s :: push_record rrsets r
  end.

Definition signers_of (owner : HName) (rtype : Z) (answers : list HRecord) : list HName :=
  foldl (λ signers input,
    let signer := signer_name input in
    if name_encloses signer owner && negb (name_in signer signers) then signers ++ [signer] else signers)
    [] (covering_rrsigs owner rtype answers).

Definition group_rrsets (answers : list HRecord) : list AnswerRrset :=
  (λ s, mkRrset (rs_owner s) (rs_rtype s) (rs_records s) (signers_of (rs_owner s) (rs_rtype s) answers))
    <$> foldl push_record [] (List.filter (λ r, negb (is_rrsig r)) answers).

Definition distinct_anchors (rrsets : list AnswerRrset) : list HName :=
  foldl (λ anchors a, if name_in a anchors then anchors else anchors ++ [a]) [] (rrsets ≫= walk_anchors).

(** [keys_of]. *)
Definition keys_of (zone : HName) (keys : option (list DnskeyRecord)) : KeyLookup :=
  λ signer, if name_eqb signer zone then keys else None.

(** The walk to an anchor, remembered. *)
Definition trust (v : ChainVerifier) (walks : list Walk) (anchor : HName) : ChainVerifier * list Walk * Walk :=
  match find (λ w, name_eqb (wk_anchor w) anchor) walks with
  | Some done => (v, walks, done)
  | None =>
      let walked := name_to_string anchor in
      let '(v, t) := verify_chain v walked in
      (v, walks ++ [mkWalk anchor walked t], mkWalk anchor walked t)
  end.

Definition min_label (labels : list Z) : option Z :=
  foldl (λ m l, Some (match m with Some m => Z.min m l | None => l end)) None labels.

Definition signed_rrset_status (v : ChainVerifier) (rrset : AnswerRrset) (signer : HName) (zone : str)
    (answers authorities : list HRecord) : DnssecStatus :=
  let lookup := keys_of signer (get_zone_keys v zone) in
  let now := now_of v in
  if negb (rrset_is_authentic (rs_owner rrset) (rs_rtype rrset) (rs_records rrset) answers now lookup) then Bogus
  else
    let owner_labels := num_labels (rs_owner rrset) in
    match min_label (List.filter (λ l, l <? owner_labels)
                       (sig_labels <$> covering_rrsigs (rs_owner rrset) (rs_rtype rrset) answers)) with
    | None => Secure
    | Some wildcard_labels =>
        let '(nsec3s, nsecs) := collect_verified_denial authorities now lookup in
        prove_wildcard_expansion (rs_owner rrset) wildcard_labels nsec3s nsecs
    end.

Fixpoint try_signers (v : ChainVerifier) (walks : list Walk) (rrset : AnswerRrset) (signers : list HName)
    (answers authorities : list HRecord) (outcome : DnssecStatus) : ChainVerifier * list Walk * DnssecStatus :=
  match signers with
  | [] => (v, walks, outcome)
  | signer :: signers =>
      let '(v, walks, walk) := trust v walks signer in
      let status :=
        match secure_apex walk, wk_trust walk with
        | Some zone, _ => signed_rrset_status v rrset signer zone answers authorities
        | None, inr (TrustSecure _) => Bogus
        | None, inr TrustInsecure => Insecure
        | None, inl failure => failure_status failure
        end in
      match status with
      | Secure => (v, walks, Secure)
      | _ => try_signers v walks rrset signers answers authorities (most_severe outcome status)
      end
  end.

Definition rrset_status (v : ChainVerifier) (walks : list Walk) (rrset : AnswerRrset) (answers authorities : list HRecord)
    : ChainVerifier * list Walk * DnssecStatus :=
  if bool_decide (rs_signers rrset = []) then
    let '(v, walks, walk) := trust v walks (rs_owner rrset) in
    (v, walks, match wk_trust walk with
               | inr TrustInsecure => Insecure
               | inr (TrustSecure _) => Bogus
               | inl failure => failure_status failure
               end)
  else try_signers v walks rrset (rs_signers rrset) answers authorities Secure.

Fixpoint validate_rrsets (v : ChainVerifier) (walks : list Walk) (rrsets : list AnswerRrset)
    (answers authorities : list HRecord) (status : DnssecStatus) : ChainVerifier * DnssecStatus :=
  match rrsets with
  | [] => (v, status)
  | rrset :: rrsets =>
      let '(v, walks, rrset_status) := rrset_status v walks rrset answers authorities in
      match most_severe status rrset_status with
      | Bogus => (v, Bogus)
      | status => validate_rrsets v walks rrsets answers authorities status
      end
  end.

Definition validate_positive (v : ChainVerifier) (answers authorities : list HRecord) : ChainVerifier * DnssecStatus :=
  let rrsets := group_rrsets answers in
  if bool_decide (rrsets = []) then (v, Bogus)
  else if (MAX_CHAIN_WALKS <? length (distinct_anchors rrsets))%nat then (v, Bogus)
  else validate_rrsets v [] rrsets answers authorities Secure.

Definition extract_signer_zone (authority : list HRecord) : option HName :=
  head (omap (λ r, match hr_data r with
                   | RdRRSIG input _ => if type_covered input =? T_DNSKEY then None else Some (signer_name input)
                   | _ => None
                   end) authority).

Definition validate_denial (v : ChainVerifier) (qname : HName) (qtype : RecordType) (rcode : ResponseCode)
    (soa_name : HName) (zone : str) (authority : list HRecord) : DnssecStatus :=
  let lookup := keys_of soa_name (get_zone_keys v zone) in
  let '(nsec3s, nsecs) := collect_verified_denial authority (now_of v) lookup in
  prove_denial qname (to_hickory qtype) rcode soa_name nsec3s nsecs.

Definition validate_negative (v : ChainVerifier) (domain : str) (record_type : RecordType) (m : Message)
    : ChainVerifier * DnssecStatus :=
  match extract_signer_zone (authorities m) with
  | None =>
      let '(v, t) := verify_chain v domain in
      (v, match t with
          | inr TrustInsecure => Insecure
          | inr (TrustSecure _) => Bogus
          | inl failure => failure_status failure
          end)
  | Some signer =>
      match to_fqdn domain with
      | None => (v, Bogus)
      | Some qname =>
          if negb (name_encloses signer qname) then (v, Bogus)
          else
            let walked := name_to_string signer in
            let '(v, t) := verify_chain v walked in
            (v, match t with
                | inr (TrustSecure zone) =>
                    if eq_ignore_case (utf8 zone) (utf8 walked)
                    then validate_denial v qname record_type (response_code m) signer zone (authorities m)
                    else Bogus
                | inr TrustInsecure => Insecure
                | inl failure => failure_status failure
                end)
      end
  end.

Definition validate_message (v : ChainVerifier) (domain : str) (record_type : RecordType) (m : Message)
    : ChainVerifier * DnssecStatus :=
  let v := clear_established_keys v in
  if bool_decide (answers m = []) then validate_negative v domain record_type m
  else validate_positive v (answers m) (authorities m).

(** [validate_query]: the answer is fetched first. *)
Definition validate_query (v : ChainVerifier) (domain : str) (record_type : RecordType)
    : ChainVerifier * (DomainError + DnssecStatus) :=
  let '(n, x) := net_query (cv_net v) domain record_type in
  let v := set_cv_net v n in
  match x with
  | inl e => (v, inl e)
  | inr r => let '(v, status) := validate_message v domain record_type (message r) in (v, inr status)
  end.
End validator.
