(* ===== verification/DnssecTrust.v ===== *)
(** What the validator's verdicts rest on: a Secure answer is signed by zones whose
    keys a chain of signatures ties to a trust anchor, and an Insecure verdict
    rests on a signed denial of a DS, whatever the upstreams answer. *)

From Stdlib Require Import String.
From stdpp Require Import sorting.
From S2P Require Import Prelude Errors Text Net Forwarding DnssecData DnssecDenial DnssecChain.
From S2P Require Import DnssecValidator.

#[local] Set Default Proof Using "Type".

(** One name is below another, as texts with a final dot. *)
Definition below (child zone : str) : Prop := zone = [46] ∨ ∃ pre, child = pre ++ 46 :: zone.

Lemma after_each_dot_sorted s : StronglySorted (λ a b, ∃ pre, a = pre ++ 46 :: b) (after_each_dot s)
  ∧ Forall (λ b, ∃ pre, s = pre ++ 46 :: b) (after_each_dot s).
Proof.
  induction s as [|c s [IHs IHa]]; [by split; constructor|]. cbn.
  assert (Hc : Forall (λ b, ∃ pre, c :: s = pre ++ 46 :: b) (after_each_dot s)).
  { eapply Forall_impl; [exact IHa|]. intros b [pre ->]. by exists (c :: pre). }
  destruct (Z.eqb_spec c 46) as [->|]; [|done]. split; [by constructor|]. constructor; [by exists []|done].
Qed.

Lemma StronglySorted_app_one {A} (R : A → A → Prop) l x :
  StronglySorted R l → Forall (λ a, R a x) l → StronglySorted R (l ++ [x]).
Proof.
  induction 1 as [|a l Hs IH Ha]; cbn; [by repeat constructor|]. intros [Hax Hl]%Forall_cons. constructor; [by apply IH|].
  apply Forall_app; split; [done|by apply Forall_singleton].
Qed.

Lemma StronglySorted_rev {A} (R : A → A → Prop) l : StronglySorted R l → StronglySorted (flip R) (rev l).
Proof.
  induction 1 as [|a l Hs IH Ha]; cbn; [constructor|]. apply StronglySorted_app_one; [done|].
  apply Forall_forall. intros x Hx. apply list_elem_of_In, in_rev, list_elem_of_In in Hx. by eapply Forall_forall in Ha.
Qed.

Lemma StronglySorted_fmap {A B} (R : B → B → Prop) (f : A → B) l :
  StronglySorted (λ a b, R (f a) (f b)) l → StronglySorted R (f <$> l).
Proof.
  induction 1 as [|a l Hs IH Ha]; cbn; constructor; [done|]. by apply Forall_fmap.
Qed.

(** Every name of a walk is below the ones before it. *)
Lemma descending_below fqdn : StronglySorted (λ zone child, below child zone) (descending_suffixes fqdn)
  ∧ Forall (λ child, below child [46]) (descending_suffixes fqdn).
Proof.
  split; [|apply Forall_forall; by left]. unfold descending_suffixes.
  set (body := default fqdn (strip_suffix fqdn [46])). set (rest := drop (length body) fqdn).
  assert (Hf : fqdn = body ++ rest).
  { unfold rest, body, strip_suffix. destruct (ends_with [46] fqdn); cbn [default from_option id]; [|by rewrite drop_all, app_nil_r].
    set (n := (length fqdn - length [46])%nat). by rewrite length_take, Nat.min_l, take_drop by lia. }
  destruct (after_each_dot_sorted body) as [Hs Ha].
  assert (Hrev : StronglySorted (λ zone child, below child zone) (rev ((λ s, s ++ rest) <$> after_each_dot body))).
  { apply (StronglySorted_rev (λ child zone, below child zone)), StronglySorted_fmap.
    clear -Hs. induction Hs as [|a l Hs IH Ha]; constructor; [done|]. eapply Forall_impl; [exact Ha|].
    intros b [pre ->]. right. exists pre. by rewrite <-app_assoc. }
  destruct (bool_decide (body = [])); [by rewrite app_nil_r|]. apply StronglySorted_app_one; [done|].
  apply Forall_forall. intros x Hx. apply list_elem_of_In, in_rev, list_elem_of_In, list_elem_of_fmap in Hx as (b & -> & Hb).
  eapply Forall_forall in Ha as [pre E]; [|exact Hb]. right. exists pre. rewrite Hf, E. by rewrite <-app_assoc.
Qed.

(** ** Signatures *)

Section trust.
Context `{Hickory, DnsNames, DnssecPrimitives, Nsec3Hash, IterOrder, DnssecNet}.

(** An RRset has a signature that one of the keys made, valid at some time. *)
Definition signed (keys : list DnskeyRecord) (owner : HName) (rtype : Z) (records : list HRecord) : Prop :=
  ∃ now input sig key tbs,
    type_covered input = rtype ∧ within_validity (sig_inception input) (sig_expiration input) now = true ∧
    key ∈ keys ∧ dk_algorithm key = sig_algorithm input ∧ calculate_key_tag key = sig_key_tag input ∧
    tbs_from_input owner input records = inr tbs ∧ verify_signature (sig_algorithm input) tbs sig key = inr true.

Lemma try_keys_true algorithm data sig keys outcome : try_keys algorithm data sig keys outcome = inr true →
  outcome = inr true ∨ ∃ key, key ∈ keys ∧ verify_signature algorithm data sig key = inr true.
Proof.
  revert outcome. induction keys as [|key keys IH]; intros outcome; [by left|]. cbn [try_keys].
  destruct (verify_signature algorithm data sig key) as [e|[]] eqn:E.
  - intros [|(k & Hk & Hv)]%IH; [done|]. right. exists k. by split; [apply list_elem_of_further|].
  - intros _. right. exists key. by split; [apply list_elem_of_here|].
  - intros [|(k & Hk & Hv)]%IH; [by left|]. right. exists k. by split; [apply list_elem_of_further|].
Qed.

Lemma rrsig_verifies_signed input sig keys owner records now :
  rrsig_verifies input sig keys owner records now = inr true → signed keys owner (type_covered input) records.
Proof.
  unfold rrsig_verifies. destruct (within_validity _ _ _) eqn:Ew; [|done]. cbn [negb].
  destruct (List.filter (candidate input) keys) as [|k ks] eqn:Ef; [done|]. destruct (tbs_from_input _ _ _) as [|tbs] eqn:Et; [done|].
  intros [|(key & Hk & Hv)]%try_keys_true; [done|]. rewrite <-Ef in Hk. apply list_elem_of_In, filter_In in Hk as [Hk Hc].
  unfold candidate in Hc. apply andb_true_iff in Hc as [Ha Htag]. apply Z.eqb_eq in Ha, Htag.
  exists now, input, sig, key, tbs. by rewrite list_elem_of_In.
Qed.

Lemma any_rrsig_signed answers rtype keys owner now :
  any_rrsig_verifies answers rtype keys owner now = true → signed keys owner rtype (rrset_of answers rtype).
Proof.
  unfold any_rrsig_verifies. intros (r & _ & Hr)%existsb_exists. destruct (hr_data r); try done.
  apply andb_true_iff in Hr as [Ht Hv]. apply Z.eqb_eq in Ht as <-. destruct (rrsig_verifies _ _ _ _ _ _) as [|[]] eqn:E; try done.
  by eapply rrsig_verifies_signed.
Qed.

Lemma sig_authenticates_signed owner rtype records sigs now lookup :
  rrset_is_authentic owner rtype records sigs now lookup = true →
  ∃ signer keys, name_encloses signer owner = true ∧ lookup signer = Some keys ∧ signed keys owner rtype records.
Proof.
  unfold rrset_is_authentic. intros (r & _ & Hr)%existsb_exists. unfold sig_authenticates in Hr. destruct (hr_data r); try done.
  rewrite !andb_true_iff, Z.eqb_eq in Hr. destruct Hr as [[[_ <-] He] Hk]. destruct (lookup _) as [keys|] eqn:El; [|done].
  destruct (rrsig_verifies _ _ _ _ _ _) as [|[]] eqn:E; try done. exists (signer_name input), keys.
  by split; [|split; [|eapply rrsig_verifies_signed]].
Qed.

(** ** Trusted keys *)

(** The keys of the root are those an anchored one of them signs; the keys of a zone below a trusted
    one are those signed by one of them that a DS record matches, the DS records being signed by the
    zone above. *)
Inductive trusted (anchors : list TrustAnchor) : str → list DnskeyRecord → Prop :=
  | trusted_root rrset :
      signed (anchor_keys_present anchors [46] (omap dnskey_of rrset)) [] T_DNSKEY rrset →
      trusted anchors [46] (omap dnskey_of rrset)
  | trusted_child zone zone_keys child owner ds_rrset rrset :
      trusted anchors zone zone_keys → below child zone → to_fqdn child = Some owner →
      signed zone_keys owner T_DS ds_rrset →
      signed (List.filter (ds_matches (omap ds_of ds_rrset) child) (omap dnskey_of rrset)) owner T_DNSKEY rrset →
      trusted anchors child (omap dnskey_of rrset).

Definition ds_trusted (anchors : list TrustAnchor) (child : str) (ds : list DsRecord) : Prop :=
  ∃ zone zone_keys owner rrset, trusted anchors zone zone_keys ∧ below child zone ∧ to_fqdn child = Some owner ∧
    signed zone_keys owner T_DS rrset ∧ ds = omap ds_of rrset.

(** The records of a denial are of names that the signer encloses, which its keys sign. *)
Definition denials_signed (signer : HName) (keys : list DnskeyRecord) (nsec3s : list VerifiedNsec3)
    (nsecs : list VerifiedNsec) : Prop :=
  Forall (λ n, ∃ r label, hr_data r = RdNSEC3 (n3_data n) ∧ head (hr_name r) = Some label ∧
            label_from_raw label = Some (owner_label n) ∧ name_encloses signer (hr_name r) = true ∧
            signed keys (hr_name r) (record_type r) [r]) nsec3s ∧
  Forall (λ n, ∃ r, hr_data r = RdNSEC (ns_next n) (ns_types n) ∧ hr_name r = ns_owner n ∧
            name_encloses signer (hr_name r) = true ∧ signed keys (hr_name r) (record_type r) [r]) nsecs.

(** A denial from records that the trusted keys of a zone above sign. *)
Definition absence_trusted (anchors : list TrustAnchor) (child : str) (d : DsDenial) : Prop :=
  ∃ zone zone_keys owner zone_name rcode nsec3s nsecs, trusted anchors zone zone_keys ∧ below child zone ∧
    to_fqdn child = Some owner ∧ to_fqdn zone = Some zone_name ∧
    denials_signed zone_name zone_keys nsec3s nsecs ∧ classify_ds_denial owner rcode zone_name nsec3s nsecs = Some d.

Definition lookup_trusted (anchors : list TrustAnchor) (child : str) (l : DsLookup) : Prop :=
  match l with DsPresent ds => ds_trusted anchors child ds | DsAbsent d => absence_trusted anchors child d end.

Definition cache_trusted (anchors : list TrustAnchor) (c : DnssecCache) : Prop :=
  map_Forall (λ zone e, trusted anchors zone (en_value e)) (dnskeys c) ∧
  map_Forall (λ child e, lookup_trusted anchors child (en_value e)) (ds_lookups c).

(** What every step of a verifier keeps. *)
Definition verifier_ok (anchors : list TrustAnchor) (v : ChainVerifier) : Prop :=
  cv_anchors v = anchors ∧ map_Forall (λ zone keys, trusted anchors zone keys) (validated_keys v) ∧
  cache_trusted anchors (cv_cache v).

Lemma name_encloses_eqb a b n : name_eqb a b = true → name_encloses b n = true → name_encloses a n = true.
Proof.
  rewrite name_eqb_spec, bool_decide_eq_true. unfold name_encloses. rewrite !zone_of_spec, !bool_decide_eq_true. by intros ->.
Qed.

Lemma keys_of_signed signer keys owner rtype records sigs now :
  rrset_is_authentic owner rtype records sigs now (keys_of signer keys) = true →
  ∃ ks, keys = Some ks ∧ name_encloses signer owner = true ∧ signed ks owner rtype records.
Proof.
  intros (signer' & ks & Hn & Hk & Hs)%sig_authenticates_signed. unfold keys_of in Hk.
  destruct (name_eqb signer' signer) eqn:En; [|done]. exists ks. split; [done|]. split; [|done].
  eapply name_encloses_eqb; [|exact Hn]. revert En. by rewrite !name_eqb_spec, !bool_decide_eq_true.
Qed.

Lemma collected_signed authority now signer keys nsec3s nsecs :
  collect_verified_denial authority now (keys_of signer (Some keys)) = (nsec3s, nsecs) →
  denials_signed signer keys nsec3s nsecs.
Proof.
  unfold collect_verified_denial. cbv zeta. intros [= <- <-]. split; apply Forall_forall; intros n (r & _ & Hr)%list_elem_of_omap.
  - destruct (hr_data r) as [| | | | | | | | |data|] eqn:Ed; try done. destruct (rrset_is_authentic _ _ _ _ _ _) eqn:Ea; [|done].
    apply keys_of_signed in Ea as (ks & [= <-] & Hn & Hs). destruct (head (hr_name r)) as [l|] eqn:El; [|done].
    cbn [mbind option_bind] in Hr. destruct (label_from_raw l) as [label|] eqn:Ell; [|done]. injection Hr as <-.
    by exists r, l.
  - destruct (hr_data r) as [| | | | | | | |next types| |] eqn:Ed; try done. destruct (rrset_is_authentic _ _ _ _ _ _) eqn:Ea; [|done].
    apply keys_of_signed in Ea as (ks & [= <-] & Hn & Hs). injection Hr as <-. by exists r.
Qed.

Lemma omap_ds_rrset answers : omap ds_of answers = omap ds_of (rrset_of answers T_DS).
Proof.
  induction answers as [|r answers IH]; [done|]. cbn [omap list_omap rrset_of List.filter].
  destruct (ds_of r) as [ds|] eqn:E.
  - assert ((record_type r =? T_DS) = true) as ->.
    { unfold ds_of in E. unfold record_type. by destruct (hr_data r). }
    cbn [omap list_omap]. by rewrite E, IH.
  - destruct (_ =? _); [cbn [omap list_omap]; by rewrite E|done].
Qed.

Lemma get_dnskey_ok anchors c domain now c' hit : cache_trusted anchors c → get_dnskey c domain now = (c', hit) →
  cache_trusted anchors c' ∧ ∀ keys, hit = Some keys → trusted anchors domain keys.
Proof.
  intros [Hk Hd]. unfold get_dnskey. destruct (dnssec_lookup _ _ _) as [m h] eqn:E. intros [= <- <-].
  apply dnssec_lookup_spec in E as [Hs Hv]. split; [split; [|done]|].
  - intros z e He. by eapply Hk, lookup_weaken.
  - intros keys (e & He & <-)%Hv. by apply Hk in He.
Qed.

Lemma get_ds_ok anchors c domain now c' hit : cache_trusted anchors c → get_ds c domain now = (c', hit) →
  cache_trusted anchors c' ∧ ∀ l, hit = Some l → lookup_trusted anchors domain l.
Proof.
  intros [Hk Hd]. unfold get_ds. destruct (dnssec_lookup _ _ _) as [m h] eqn:E. intros [= <- <-].
  apply dnssec_lookup_spec in E as [Hs Hv]. split; [split; [done|]|].
  - intros z e He. by eapply Hd, lookup_weaken.
  - intros l (e & He & <-)%Hv. by apply Hd in He.
Qed.

Lemma cache_dnskey_ok anchors c domain keys ttl now : cache_trusted anchors c → trusted anchors domain keys →
  cache_trusted anchors (cache_dnskey c domain keys ttl now).
Proof.
  intros [Hk Hd] Ht. split; [|done]. intros z e [[-> ->]|E]%dnssec_insert_Some; [done|by apply Hk in E].
Qed.

Lemma cache_ds_ok anchors c domain l ttl now : cache_trusted anchors c → lookup_trusted anchors domain l →
  cache_trusted anchors (cache_ds c domain l ttl now).
Proof.
  intros [Hk Hd] Ht. split; [done|]. intros z e [[-> ->]|E]%dnssec_insert_Some; [done|by apply Hd in E].
Qed.

Lemma set_cache_ok anchors v c : verifier_ok anchors v → cache_trusted anchors c → verifier_ok anchors (set_cv_cache v c).
Proof. by intros (? & ? & ?). Qed.
Lemma set_net_ok anchors v n : verifier_ok anchors v → verifier_ok anchors (set_cv_net v n).
Proof. by intros (? & ? & ?). Qed.
Lemma establish_ok anchors v zone keys : verifier_ok anchors v → trusted anchors zone keys →
  verifier_ok anchors (establish v zone keys).
Proof. intros (Ha & Hv & Hc) Ht. split; [done|]. split; [|done]. by apply map_Forall_insert_2. Qed.
#[local] Hint Resolve set_cache_ok set_net_ok establish_ok cache_dnskey_ok cache_ds_ok : core.
Lemma ok_cache anchors v : verifier_ok anchors v → cache_trusted anchors (cv_cache v).
Proof. by intros (_ & _ & ?). Qed.
Lemma ok_anchors anchors v : verifier_ok anchors v → cv_anchors v = anchors.
Proof. by intros (? & _). Qed.
#[local] Hint Resolve ok_cache : core.

(** The keys a lookup returns: trusted when cached, else those of the answer. *)
Lemma fetch_dnskey_ok anchors v domain v' x : verifier_ok anchors v → fetch_dnskey v domain = (v', x) →
  verifier_ok anchors v' ∧ ∀ r, x = inr r →
    if kq_from_cache r then trusted anchors domain (kq_keys r)
    else kq_keys r = omap dnskey_of (rrset_of (kq_answers r) T_DNSKEY).
Proof.
  intros Hv. unfold fetch_dnskey. destruct (get_dnskey _ _ _) as [c hit] eqn:Eg.
  apply (get_dnskey_ok anchors) in Eg as [Hc Hh]; [|by auto]. destruct hit as [keys|].
  - intros [= <- <-]. split; [by auto|]. intros r [= <-]. by apply Hh.
  - destruct (net_query _ _ _) as [n y]. intros [= <- <-]. split; [by auto|]. intros r. destruct y; [done|]. by intros [= <-].
Qed.

Lemma bootstrap_ok anchors v v' x : verifier_ok anchors v → bootstrap_root_keys v = (v', x) → verifier_ok anchors v'.
Proof.
  intros Hv. unfold bootstrap_root_keys. destruct (validated_keys v !! [46]); [by intros [= <- _]|].
  destruct (fetch_dnskey v [46]) as [w y] eqn:Ef. apply (fetch_dnskey_ok anchors) in Ef as [Hw Hr]; [|done].
  destruct y as [e|r]; [by intros [= <- _]|]. specialize (Hr r eq_refl).
  destruct (bool_decide (kq_keys r = [])); [by intros [= <- _]|].
  destruct (kq_from_cache r); [intros [= <- _]; by auto|].
  destruct (bool_decide _); [by intros [= <- _]|]. destruct (any_rrsig_verifies _ _ _ _ _) eqn:Ea; [|by intros [= <- _]].
  apply any_rrsig_signed in Ea. rewrite (ok_anchors anchors w Hw), Hr in Ea. intros [= <- _].
  assert (trusted anchors [46] (kq_keys r)) by (rewrite Hr; by constructor). auto.
Qed.

(** ** The walk *)

Lemma prove_ds_absence_ok anchors v zone child owner fresh keys v' x :
  verifier_ok anchors v → trusted anchors zone keys → below child zone → to_fqdn child = Some owner →
  prove_ds_absence v zone child owner fresh keys = (v', x) →
  verifier_ok anchors v' ∧ ∀ d, x = inr d → absence_trusted anchors child d.
Proof.
  intros Hv Ht Hb Ho. unfold prove_ds_absence. destruct (to_fqdn zone) as [zn|] eqn:Ez; [|by intros [= <- <-]].
  destruct (collect_verified_denial _ _ _) as [n3 n1] eqn:Ec. destruct (classify_ds_denial _ _ _ _ _) as [d|] eqn:Ed.
  - intros [= <- <-]. split; [done|]. intros ? [= <-].
    exists zone, keys, owner, zn, (fd_rcode fresh), n3, n1. apply collected_signed in Ec. by repeat (split; [done|]).
  - intros [= <- <-]. split; [|done]. destruct (_ && _); [|done]. apply set_cache_ok; [done|]. exact (ok_cache _ _ Hv).
Qed.

Lemma authenticate_ds_ok anchors v zone child fresh v' x :
  verifier_ok anchors v → below child zone → fd_records fresh = omap ds_of (fd_answers fresh) →
  authenticate_ds v zone child fresh = (v', x) →
  verifier_ok anchors v' ∧ ∀ l, x = inr l → lookup_trusted anchors child l.
Proof.
  intros Hv Hb Hf. unfold authenticate_ds. destruct (validated_keys v !! zone) as [keys|] eqn:Ek; [|by intros [= <- <-]].
  pose proof (proj1 (proj2 Hv) _ _ Ek) as Ht. cbn beta in Ht. destruct (to_fqdn child) as [owner|] eqn:Eo; [|by intros [= <- <-]].
  destruct (bool_decide _).
  - destruct (prove_ds_absence _ _ _ _ _ _) as [w y] eqn:Ep. eapply prove_ds_absence_ok in Ep as [Hw Hy]; [|done..].
    destruct y as [e|d]; [by intros [= <- <-]|]. specialize (Hy d eq_refl). intros [= <- <-].
    split; [|by intros ? [= <-]]. destruct (fd_negative_ttl fresh); [destruct (0 <? _)|]; auto.
  - destruct (any_rrsig_verifies _ _ _ _ _) eqn:Ea; cbn [negb]; [|by intros [= <- <-]]. apply any_rrsig_signed in Ea.
    assert (Hl : lookup_trusted anchors child (DsPresent (fd_records fresh))).
    { exists zone, keys, owner, (rrset_of (fd_answers fresh) T_DS). rewrite Hf. by rewrite omap_ds_rrset at 1. }
    intros [= <- <-]. split; [by auto|]. by intros ? [= <-].
Qed.

Lemma fetch_ds_ok anchors v child v' x : verifier_ok anchors v → fetch_ds v child = (v', x) →
  verifier_ok anchors v' ∧ ∀ f, x = inr f → fd_records f = omap ds_of (fd_answers f).
Proof.
  intros Hv. unfold fetch_ds. destruct (net_query _ _ _) as [n y]. intros [= <- <-]. split; [by auto|].
  destruct y; [done|]. by intros f [= <-].
Qed.

Lemma ds_lookup_ok anchors v zone child v' x :
  verifier_ok anchors v → below child zone → ds_lookup_of v zone child = (v', x) →
  verifier_ok anchors v' ∧ ∀ l pre, x = inr (l, pre) → lookup_trusted anchors child l ∧
    ∀ r, pre = Some (inr r) → if kq_from_cache r then trusted anchors child (kq_keys r)
                              else kq_keys r = omap dnskey_of (rrset_of (kq_answers r) T_DNSKEY).
Proof.
  intros Hv Hb. unfold ds_lookup_of. destruct (get_ds _ _ _) as [c hit] eqn:Eg.
  apply (get_ds_ok anchors) in Eg as [Hc Hh]; [|by auto]. destruct hit as [l|].
  - intros [= <- <-]. split; [by auto|]. intros ? ? [= <- <-]. by split; [apply Hh|].
  - destruct (fetch_ds _ _) as [w f] eqn:Ef. eapply (fetch_ds_ok anchors) in Ef as [Hw Hf]; [|by auto].
    destruct (fetch_dnskey w child) as [u k] eqn:Ek. eapply (fetch_dnskey_ok anchors) in Ek as [Hu Hk]; [|done].
    destruct f as [e|f]; [by intros [= <- <-]|]. destruct (authenticate_ds _ _ _ _) as [t y] eqn:Ea.
    eapply authenticate_ds_ok in Ea as [Htt Hl]; [|done|done|by apply Hf]. intros [= <- <-]. split; [done|].
    intros l pre E. destruct y as [|l']; [done|]. injection E as <- <-. split; [by apply Hl|]. intros r [= ->]. by apply Hk.
Qed.

Lemma trust_child_ok anchors v child ds r v' x :
  verifier_ok anchors v → ds_trusted anchors child ds →
  (if kq_from_cache r then trusted anchors child (kq_keys r)
   else kq_keys r = omap dnskey_of (rrset_of (kq_answers r) T_DNSKEY)) →
  trust_child_keys v child ds r = (v', x) → verifier_ok anchors v' ∧ ∀ s, x = inr s → s = SecureCut.
Proof.
  intros Hv Hd Hr. unfold trust_child_keys. destruct (bool_decide _); [by intros [= <- <-]|].
  destruct (kq_from_cache r).
  - destruct (existsb _ _); intros [= <- <-]; [|done]. split; [by auto|]. by intros ? [= <-].
  - destruct (bool_decide _); [by intros [= <- <-]|]. destruct (to_fqdn child) as [owner|] eqn:Eo; [|by intros [= <- <-]].
    destruct (any_rrsig_verifies _ _ _ _ _) eqn:Ea; cbn [negb]; [|by intros [= <- <-]].
    apply any_rrsig_signed in Ea. intros [= <- <-]. split; [|by intros ? [= <-]].
    destruct Hd as (zone & zk & o & rrset & Ht & Hb & Ho & Hs & ->). simplify_eq.
    assert (trusted anchors child (kq_keys r)) by (rewrite Hr in Ea |- *; by econstructor). auto.
Qed.

(** The grounds for treating what is below a name as unsigned. *)
Definition insecure_at (anchors : list TrustAnchor) (child : str) : Prop :=
  absence_trusted anchors child InsecureDelegation ∨
  ∃ ds, ds_trusted anchors child ds ∧ existsb (λ d, is_supported_algorithm (ds_algorithm d)) ds = false.

Lemma walk_step_ok anchors v zone child v' x :
  verifier_ok anchors v → below child zone → walk_step v zone child = (v', x) →
  verifier_ok anchors v' ∧ (x = inr (NoDs InsecureDelegation) → insecure_at anchors child).
Proof.
  intros Hv Hb. unfold walk_step. destruct (ds_lookup_of _ _ _) as [w y] eqn:El.
  eapply ds_lookup_ok in El as [Hw Hl]; [|done..]. destruct y as [e|[l pre]]; [by intros [= <- <-]|].
  specialize (Hl _ _ eq_refl) as [Hl Hp]. destruct l as [ds|d].
  - destruct (existsb _ ds) eqn:Es; cbn [negb]; [|intros [= <- <-]; split; [done|]; right; by exists ds].
    assert (∃ u r, (match pre with Some r => (w, r) | None => fetch_dnskey w child end) = (u, r) ∧ verifier_ok anchors u ∧
      ∀ k, r = inr k → if kq_from_cache k then trusted anchors child (kq_keys k)
                       else kq_keys k = omap dnskey_of (rrset_of (kq_answers k) T_DNSKEY)) as (u & r & -> & Hu & Hr).
    { destruct pre as [r|]; [exists w, r; split; [done|]; split; [done|]; intros k ->; by apply Hp|].
      destruct (fetch_dnskey w child) as [u r] eqn:Ek. exists u, r. split; [done|]. by eapply fetch_dnskey_ok. }
    destruct r as [e|k]; [by intros [= <- <-]|]. intros E. eapply trust_child_ok in E as [Hv' Hx]; [|done|done|by apply Hr].
    split; [done|]. intros ->. by specialize (Hx _ eq_refl).
  - intros [= <- <-]. split; [done|]. intros [= ->]. by left.
Qed.

Lemma walk_down_ok anchors children v zone v' x :
  verifier_ok anchors v → Forall (λ child, below child zone) children →
  StronglySorted (λ zone child, below child zone) children → walk_down v zone children = (v', x) →
  verifier_ok anchors v' ∧ (x = inr TrustInsecure → Exists (insecure_at anchors) children).
Proof.
  revert v zone. induction children as [|child children IH]; intros v zone Hv Hb Hs; [by intros [= <- <-]|].
  cbn [walk_down]. destruct (walk_step v zone child) as [w y] eqn:Ew. apply Forall_cons in Hb as [Hb Hbs].
  apply StronglySorted_inv in Hs as [Hs Hc]. eapply walk_step_ok in Ew as [Hw Hi]; [|done..].
  destruct y as [e|[|[]]]; [by intros [= <- <-]|..|by intros [= <- <-]].
  - intros [Hv' Hx]%IH; [|done..]. split; [done|]. intros E. right. by apply Hx.
  - intros [= <- <-]. split; [done|]. intros _. left. by apply Hi.
  - intros [Hv' Hx]%IH; [|done..]. split; [done|]. intros E. right. by apply Hx.
Qed.

Lemma verify_chain_ok anchors v name v' x : verifier_ok anchors v → verify_chain v name = (v', x) →
  verifier_ok anchors v' ∧
  (x = inr TrustInsecure →
   Exists (insecure_at anchors) (descending_suffixes (if ends_with [46] name then name else name ++ [46]))).
Proof.
  intros Hv. unfold verify_chain. destruct (negb _); [by intros [= <- <-]|].
  destruct (bootstrap_root_keys v) as [w y] eqn:Eb. apply (bootstrap_ok anchors) in Eb; [|done].
  destruct y; [by intros [= <- <-]|]. apply walk_down_ok; [done|apply descending_below..].
Qed.

Lemma clear_ok anchors v : verifier_ok anchors v → verifier_ok anchors (clear_established_keys v).
Proof. by intros (? & _ & ?). Qed.
End trust.
