(* ===== verification/DnssecVerdicts.v ===== *)
(** What the verdicts of the validator rest on, over any sequence of messages and
    whatever the upstreams answer: a Secure answer is signed by zones whose keys
    are trusted, and an Insecure one rests on an authenticated denial.  The
    examples compute with a signed zone and an unsigned one below a signed root. *)

From Stdlib Require Import String.
From stdpp Require Import sorting.
From S2P Require Import Prelude Errors Text Net Forwarding DnssecData DnssecDenial DnssecChain DnssecValidator DnssecTrust DenialExamples.

#[local] Set Default Proof Using "Type".

(** ** RRsets of an answer *)

Section rrsets.
Context `{Hickory, DnsNames}.

Definition belongs (s : AnswerRrset) (r : HRecord) : Prop :=
  r ∈ rs_records s ∧ name_eqb (rs_owner s) (hr_name r) = true ∧ rs_rtype s = record_type r.

Lemma name_eqb_refl n : name_eqb n n = true.
Proof. rewrite name_eqb_spec. by apply bool_decide_eq_true. Qed.
Lemma push_record_belongs l r :
  (∃ s, s ∈ push_record l r ∧ belongs s r) ∧ (∀ r', (∃ s, s ∈ l ∧ belongs s r') → ∃ s, s ∈ push_record l r ∧ belongs s r').
Proof.
  induction l as [|s l [IHr IHl]]; cbn [push_record].
  - split; [|by intros ? (? & ?%elem_of_nil & _)]. eexists. split; [by apply list_elem_of_singleton|].
    split; [by apply list_elem_of_singleton|]. by rewrite name_eqb_refl.
  - destruct (name_eqb (rs_owner s) (hr_name r) && (rs_rtype s =? record_type r)) eqn:E.
    + apply andb_true_iff in E as [En Et]. apply Z.eqb_eq in Et. split.
      * eexists. split; [apply list_elem_of_here|]. split; [|done]. cbn. apply elem_of_app. right. by apply list_elem_of_singleton.
      * intros r' (s' & [-> | Hs]%elem_of_cons & Hb); [|exists s'; split; [by apply list_elem_of_further|done]].
        destruct Hb as [Hi Hb]. eexists. split; [apply list_elem_of_here|]. split; [|done]. cbn. apply elem_of_app. by left.
    + split.
      * destruct IHr as (s' & Hs & Hb). exists s'. by split; [apply list_elem_of_further|].
      * intros r' (s' & [-> | Hs]%elem_of_cons & Hb); [exists s; split; [apply list_elem_of_here|done]|].
        destruct (IHl r') as (u & Hu & Hbu); [by exists s'|]. exists u. by split; [apply list_elem_of_further|].
Qed.

Lemma push_record_records l r s : s ∈ push_record l r → ∀ r', r' ∈ rs_records s → r' = r ∨ ∃ s', s' ∈ l ∧ r' ∈ rs_records s'.
Proof.
  induction l as [|u l IH]; cbn [push_record].
  - intros ->%list_elem_of_singleton r' ->%list_elem_of_singleton. by left.
  - destruct (_ && _).
    + intros [-> | Hs]%elem_of_cons r' Hr; [|right; exists s; by split; [apply list_elem_of_further|]].
      cbn in Hr. apply elem_of_app in Hr as [Hr | ->%list_elem_of_singleton]; [right; exists u; split; [apply list_elem_of_here|done]|by left].
    + intros [-> | Hs]%elem_of_cons r' Hr; [right; exists u; split; [apply list_elem_of_here|done]|].
      destruct (IH Hs _ Hr) as [->|(s' & ? & ?)]; [by left|right; exists s'; by split; [apply list_elem_of_further|]].
Qed.

Lemma grouped_records rs l s r : s ∈ foldl push_record l rs → r ∈ rs_records s → r ∈ rs ∨ ∃ s', s' ∈ l ∧ r ∈ rs_records s'.
Proof.
  revert l. induction rs as [|r0 rs IH]; intros l Hs Hr; [right; by exists s|]. cbn in Hs.
  destruct (IH _ Hs Hr) as [|(s' & Hs' & Hr')]; [left; by apply list_elem_of_further|].
  destruct (push_record_records _ _ _ Hs' _ Hr') as [->|?]; [left; apply list_elem_of_here|by right].
Qed.

Lemma grouped_belongs rs l : (∀ r, (∃ s, s ∈ l ∧ belongs s r) ∨ r ∈ rs → ∃ s, s ∈ foldl push_record l rs ∧ belongs s r).
Proof.
  revert l. induction rs as [|r0 rs IH]; intros l r; [intros [?|[]%elem_of_nil]; done|]. cbn. intros Hr. apply IH.
  destruct (push_record_belongs l r0) as [Hnew Hl]. destruct Hr as [Hr|[-> | Hr]%elem_of_cons]; [left; by apply Hl|by left|by right].
Qed.

Lemma signers_of_enclose owner rtype answers : Forall (λ s, name_encloses s owner = true) (signers_of owner rtype answers).
Proof.
  unfold signers_of. assert (Hg : ∀ inputs signers, Forall (λ s, name_encloses s owner = true) signers →
    Forall (λ s, name_encloses s owner = true)
      (foldl (λ signers input, let signer := signer_name input in
         if name_encloses signer owner && negb (name_in signer signers) then signers ++ [signer] else signers) signers inputs)).
  { induction inputs as [|i inputs IH]; intros signers Hs; [done|]. cbn. apply IH.
    destruct (name_encloses _ _) eqn:E; [|done]. destruct (negb _); [|done]. by apply Forall_app, conj; [|apply Forall_singleton]. }
  by apply Hg.
Qed.

(** Every record but the signatures is in an RRset, of records of the answer. *)
Lemma group_rrsets_covers answers r : r ∈ answers → is_rrsig r = false → ∃ s, s ∈ group_rrsets answers ∧ belongs s r.
Proof.
  intros Hr Hs. destruct (grouped_belongs (List.filter (λ r, negb (is_rrsig r)) answers) [] r) as (s & Hsr & Hb).
  { right. apply list_elem_of_In, filter_In. split; [by apply list_elem_of_In|by rewrite Hs]. }
  eexists. split; [apply list_elem_of_fmap; exists s; split; [reflexivity|exact Hsr]|exact Hb].
Qed.

Lemma group_rrsets_spec answers s : s ∈ group_rrsets answers →
  Forall (λ n, name_encloses n (rs_owner s) = true) (rs_signers s) ∧ ∀ r, r ∈ rs_records s → r ∈ answers.
Proof.
  intros (u & -> & Hu)%list_elem_of_fmap. split; [apply signers_of_enclose|]. intros r Hr. cbn in Hr.
  destruct (grouped_records _ _ _ _ Hu Hr) as [Hin|(? & []%elem_of_nil & _)].
  apply list_elem_of_In, filter_In in Hin as [Hin _]. by apply list_elem_of_In.
Qed.
End rrsets.

(** ** Grounds *)

Section verdicts.
Context `{Hickory, DnsNames, DnssecPrimitives, Nsec3Hash, IterOrder, DnssecNet}.

(** The keys of the zone a signer names, whatever the case. *)
Definition keys_trusted (anchors : list TrustAnchor) (signer : HName) (keys : list DnskeyRecord) : Prop :=
  ∃ apex zone, name_eqb apex signer = true ∧ eq_ignore_case (utf8 zone) (utf8 (name_to_string apex)) = true ∧
    trusted anchors zone keys.

(** Denials that a zone's keys sign have the verdict. *)
Definition denial_verdict (signer : HName) (keys : list DnskeyRecord)
    (verdict : list VerifiedNsec3 → list VerifiedNsec → DnssecStatus) (status : DnssecStatus) : Prop :=
  ∃ nsec3s nsecs, denials_signed signer keys nsec3s nsecs ∧ verdict nsec3s nsecs = status.

(** The number of labels of the wildcard an RRset was expanded from, if it was. *)
Definition expanded_from (answers : list HRecord) (s : AnswerRrset) : option Z :=
  min_label (List.filter (λ l, l <? num_labels (rs_owner s))
               (sig_labels <$> covering_rrsigs (rs_owner s) (rs_rtype s) answers)).

Definition expansion_verdict (answers : list HRecord) (s : AnswerRrset) (signer : HName) (keys : list DnskeyRecord)
    (status : DnssecStatus) : Prop :=
  match expanded_from answers s with
  | None => status = Secure
  | Some labels => denial_verdict signer keys (prove_wildcard_expansion (rs_owner s) labels) status
  end.

(** An RRset is signed by a zone above it whose keys are trusted, and what a wildcard answers is
    denied otherwise as the last verdict says. *)
Definition rrset_signed (anchors : list TrustAnchor) (answers : list HRecord) (s : AnswerRrset) (verdict : DnssecStatus)
    : Prop :=
  ∃ signer keys, name_encloses signer (rs_owner s) = true ∧ keys_trusted anchors signer keys ∧
    signed keys (rs_owner s) (rs_rtype s) (rs_records s) ∧
    expansion_verdict answers s signer keys verdict.

(** What is below a name is unsigned: a name on the way down to it has no DS that can be used. *)
Definition unsigned_below (anchors : list TrustAnchor) (name : str) : Prop :=
  Exists (insecure_at anchors) (descending_suffixes (if ends_with [46] name then name else name ++ [46])).

Definition rrset_unsigned (anchors : list TrustAnchor) (s : AnswerRrset) : Prop :=
  ∃ name, name_encloses name (rs_owner s) = true ∧ unsigned_below anchors (name_to_string name).

Definition walk_ok (anchors : list TrustAnchor) (w : Walk) : Prop :=
  wk_walked w = name_to_string (wk_anchor w) ∧ (wk_trust w = inr TrustInsecure → unsigned_below anchors (wk_walked w)).

Lemma most_severe_Secure a b : most_severe a b = Secure → a = Secure ∧ b = Secure.
Proof. by destruct a, b. Qed.
Lemma most_severe_Insecure a b : most_severe a b = Insecure → a = Insecure ∨ b = Insecure.
Proof. destruct a, b; auto. Qed.

Lemma trust_walk_ok anchors v walks a v' walks' w :
  verifier_ok anchors v → Forall (walk_ok anchors) walks → trust v walks a = (v', walks', w) →
  verifier_ok anchors v' ∧ Forall (walk_ok anchors) walks' ∧ walk_ok anchors w ∧ name_eqb (wk_anchor w) a = true.
Proof.
  intros Hv Hws. unfold trust. destruct (find _ walks) as [d|] eqn:Ef.
  - apply find_some in Ef as [Hin He]. intros [= <- <- <-]. rewrite Forall_forall in Hws.
    split; [done|]. split; [by apply Forall_forall|]. split; [apply Hws; by apply list_elem_of_In|done].
  - destruct (verify_chain v _) as [u t] eqn:Ec. apply (verify_chain_ok anchors) in Ec as [Hu Ht]; [|done].
    intros [= <- <- <-]. assert (walk_ok anchors (mkWalk a (name_to_string a) t)) by (by split).
    split; [done|]. split; [by apply Forall_app, conj; [|apply Forall_singleton]|]. split; [done|]. by rewrite name_eqb_refl.
Qed.

Lemma secure_apex_keys anchors v w signer zone keys :
  verifier_ok anchors v → walk_ok anchors w → name_eqb (wk_anchor w) signer = true → secure_apex w = Some zone →
  get_zone_keys v zone = Some keys → keys_trusted anchors signer keys.
Proof.
  intros (_ & Hk & _) [Hw _] He. unfold secure_apex. destruct (wk_trust w) as [|[z|]]; try done.
  destruct (eq_ignore_case _ _) eqn:E; [|done]. intros [= ->] Hz. exists (wk_anchor w), zone. rewrite <-Hw. apply Hk in Hz. by split.
Qed.

(** The verdict on an RRset from one of its signers. *)
Lemma signed_status_ok anchors v w s signer zone answers authorities status :
  verifier_ok anchors v → walk_ok anchors w → name_eqb (wk_anchor w) signer = true → secure_apex w = Some zone →
  signed_rrset_status v s signer zone answers authorities = status → status ≠ Bogus →
  rrset_signed anchors answers s status.
Proof.
  intros Hv Hw He Ha Hs Hb. revert Hs. unfold signed_rrset_status. cbv zeta.
  destruct (rrset_is_authentic _ _ _ _ _ _) eqn:Ea; cbn [negb]; [|by intros <-].
  apply keys_of_signed in Ea as (keys & Hk & Hn & Hsig). rewrite Hk. intros Hs. exists signer, keys.
  split; [done|]. split; [by eapply secure_apex_keys|]. split; [done|]. unfold expansion_verdict, expanded_from.
  destruct (min_label _); [|done]. destruct (collect_verified_denial _ _ _) as [n3 n1] eqn:Ec. exists n3, n1.
  split; [by eapply collected_signed|done].
Qed.

(** The grounds of a verdict on an RRset. *)
Definition rrset_grounds (anchors : list TrustAnchor) (answers : list HRecord) (s : AnswerRrset) (status : DnssecStatus)
    : Prop :=
  match status with
  | Secure => rrset_signed anchors answers s Secure
  | Insecure => rrset_unsigned anchors s ∨ rrset_signed anchors answers s Insecure
  | _ => True
  end.

Lemma try_signers_ok anchors s answers authorities signers v walks outcome v' walks' status :
  verifier_ok anchors v → Forall (walk_ok anchors) walks → Forall (λ n, name_encloses n (rs_owner s) = true) signers →
  (outcome = Insecure → rrset_grounds anchors answers s Insecure) →
  (outcome = Secure → signers ≠ []) →
  try_signers v walks s signers answers authorities outcome = (v', walks', status) →
  verifier_ok anchors v' ∧ Forall (walk_ok anchors) walks' ∧ rrset_grounds anchors answers s status.
Proof.
  revert v walks outcome. induction signers as [|signer signers IH]; intros v walks outcome Hv Hws Hs Hi Hne.
  { intros [= <- <- <-]. split; [done|]. split; [done|]. destruct outcome; try done; [by destruct Hne|by apply Hi]. }
  cbn [try_signers]. apply Forall_cons in Hs as [Hs Hss]. destruct (trust v walks signer) as [[u ws] w] eqn:Et.
  eapply trust_walk_ok in Et as (Hu & Hws' & Hw & He); [|done..].
  set (x := match secure_apex w with Some zone => _ | None => _ end).
  assert (Hx : rrset_grounds anchors answers s x).
  { unfold x. destruct (secure_apex w) as [zone|] eqn:Ea.
    - destruct (signed_rrset_status _ _ _ _ _ _) eqn:Ess; try done;
        eapply signed_status_ok in Ess; try done. by right.
    - destruct (wk_trust w) as [[]|[|]] eqn:Ew; try done. left. exists (wk_anchor w).
      destruct Hw as [Hw Hin]. rewrite <-Hw. split; [by eapply name_encloses_eqb|by apply Hin]. }
  clearbody x. intros E. destruct x.
  { injection E as <- <- <-. done. }
  all: eapply IH in E; [exact E|done|done|done| |]; intros Hm.
  all: first [destruct (most_severe_Insecure _ _ Hm); [by apply Hi|done]|by destruct (most_severe_Secure _ _ Hm)].
Qed.

Lemma rrset_status_ok anchors s answers authorities v walks v' walks' status :
  verifier_ok anchors v → Forall (walk_ok anchors) walks → Forall (λ n, name_encloses n (rs_owner s) = true) (rs_signers s) →
  rrset_status v walks s answers authorities = (v', walks', status) →
  verifier_ok anchors v' ∧ Forall (walk_ok anchors) walks' ∧ rrset_grounds anchors answers s status.
Proof.
  intros Hv Hws Hs. unfold rrset_status. destruct (bool_decide_reflect (rs_signers s = [])) as [_|Hne].
  - destruct (trust _ _ _) as [[u ws] w] eqn:Et. eapply trust_walk_ok in Et as (Hu & Hws' & Hw & He); [|done..].
    intros [= <- <- <-]. split; [done|]. split; [done|]. destruct (wk_trust w) as [[]|[|]] eqn:Ew; try done.
    left. exists (wk_anchor w). destruct Hw as [Hw Hin]. rewrite <-Hw. split; [|by apply Hin].
    eapply name_encloses_eqb; [exact He|]. unfold name_encloses. rewrite zone_of_spec. by apply bool_decide_eq_true.
  - by apply try_signers_ok.
Qed.

Lemma validate_rrsets_ok anchors answers authorities rrsets v walks status0 v' status :
  verifier_ok anchors v → Forall (walk_ok anchors) walks →
  Forall (λ s, Forall (λ n, name_encloses n (rs_owner s) = true) (rs_signers s)) rrsets →
  validate_rrsets v walks rrsets answers authorities status0 = (v', status) →
  verifier_ok anchors v' ∧
  (status = Secure → status0 = Secure ∧ Forall (λ s, rrset_grounds anchors answers s Secure) rrsets) ∧
  (status = Insecure → status0 = Insecure ∨ Exists (λ s, rrset_grounds anchors answers s Insecure) rrsets).
Proof.
  revert v walks status0. induction rrsets as [|s rrsets IH]; intros v walks status0 Hv Hws Hs.
  { intros [= <- <-]. split; [done|]. split; [by split|by left]. }
  cbn [validate_rrsets]. apply Forall_cons in Hs as [Hs Hss]. destruct (rrset_status v walks s _ _) as [[u ws] x] eqn:Er.
  eapply rrset_status_ok in Er as (Hu & Hws' & Hx); [|done..]. intros E.
  assert (Hrest : most_severe status0 x ≠ Bogus → validate_rrsets u ws rrsets answers authorities (most_severe status0 x) = (v', status)).
  { intros Hb. by destruct (most_severe status0 x). }
  destruct (decide (most_severe status0 x = Bogus)) as [Eb|Eb]; [rewrite Eb in E; injection E as <- <-; by split; [|split]|].
  apply IH in Hrest as (Hv' & Hsec & Hins); [|done..]. split; [done|]. split.
  - intros Es. destruct (Hsec Es) as [Em Hall]. apply most_severe_Secure in Em as [-> ->]. split; [done|by constructor].
  - intros Es. destruct (Hins Es) as [Em|]; [|by right; right].
    destruct (most_severe_Insecure _ _ Em) as [?| ->]; [by left|]. right. by left.
Qed.

Lemma no_keys_no_denials (lookup : KeyLookup) authority now : (∀ signer, lookup signer = None) →
  collect_verified_denial authority now lookup = ([], []).
Proof.
  intros Hl. assert (Ha : ∀ r, rrset_is_authentic (hr_name r) (record_type r) [r] authority now lookup = false).
  { intros r. apply not_true_is_false. intros (? & ? & _ & Hk & _)%sig_authenticates_signed. by rewrite Hl in Hk. }
  unfold collect_verified_denial. cbv zeta. f_equal; apply omap_none; intros r _; destruct (hr_data r); try done; by rewrite Ha.
Qed.

(** The denial of an empty answer, signed by a zone above the name whose keys are trusted. *)
Definition denial_signed (anchors : list TrustAnchor) (qname : HName) (rtype : RecordType) (m : Message) (signer : HName)
    (verdict : DnssecStatus) : Prop :=
  ∃ keys, keys_trusted anchors signer keys ∧
    denial_verdict signer keys (prove_denial qname (to_hickory rtype) (response_code m) signer) verdict.

Lemma validate_denial_ok anchors v qname rtype m signer zone verdict :
  verifier_ok anchors v → eq_ignore_case (utf8 zone) (utf8 (name_to_string signer)) = true →
  validate_denial v qname rtype (response_code m) signer zone (authorities m) = verdict → verdict ≠ Bogus →
  denial_signed anchors qname rtype m signer verdict.
Proof.
  intros (_ & Hk & _) He Hv Hb. revert Hv. unfold validate_denial. cbv zeta.
  destruct (get_zone_keys v zone) as [keys|] eqn:Ek.
  - destruct (collect_verified_denial _ _ _) as [n3 n1] eqn:Ec. intros Hv. exists keys. split.
    + exists signer, zone. apply Hk in Ek. by rewrite name_eqb_refl.
    + exists n3, n1. split; [by eapply collected_signed|done].
  - rewrite no_keys_no_denials; [|intros signer'; unfold keys_of; by destruct (name_eqb _ _)]. by intros <-.
Qed.

(** What an empty answer's verdict rests on. *)
Definition negative_grounds (anchors : list TrustAnchor) (domain : str) (rtype : RecordType) (m : Message)
    (verdict : DnssecStatus) : Prop :=
  match verdict with
  | Secure | Insecure =>
      (verdict = Insecure ∧ unsigned_below anchors domain) ∨
      ∃ signer qname, to_fqdn domain = Some qname ∧ name_encloses signer qname = true ∧
        ((verdict = Insecure ∧ unsigned_below anchors (name_to_string signer)) ∨
         denial_signed anchors qname rtype m signer verdict)
  | _ => True
  end.

Lemma validate_negative_ok anchors v domain rtype m v' verdict :
  verifier_ok anchors v → validate_negative v domain rtype m = (v', verdict) →
  verifier_ok anchors v' ∧ negative_grounds anchors domain rtype m verdict.
Proof.
  intros Hv. unfold validate_negative. destruct (extract_signer_zone _) as [signer|].
  - destruct (to_fqdn domain) as [qname|] eqn:Eq; [|by intros [= <- <-]].
    destruct (name_encloses signer qname) eqn:En; cbn [negb]; [|by intros [= <- <-]].
    destruct (verify_chain v _) as [w t] eqn:Ec. apply (verify_chain_ok anchors) in Ec as [Hw Ht]; [|done]. cbv zeta.
    intros [= <- <-]. split; [done|]. destruct t as [[]|[zone|]]; try done.
    + destruct (eq_ignore_case _ _) eqn:Ee; [|done]. destruct (validate_denial _ _ _ _ _ _ _) eqn:Ed; try done.
      all: eapply validate_denial_ok in Ed; [|done..]; right; exists signer, qname; auto.
    + right. exists signer, qname. split; [done|]. split; [done|]. left. by split; [|apply Ht].
  - destruct (verify_chain v _) as [w t] eqn:Ec. apply (verify_chain_ok anchors) in Ec as [Hw Ht]; [|done].
    intros [= <- <-]. split; [done|]. destruct t as [[]|[zone|]]; try done. left. by split; [|apply Ht].
Qed.

Lemma validate_positive_ok anchors v ans auth v' verdict :
  verifier_ok anchors v → validate_positive v ans auth = (v', verdict) →
  verifier_ok anchors v' ∧
  (verdict = Secure → Forall (λ s, rrset_grounds anchors ans s Secure) (group_rrsets ans)) ∧
  (verdict = Insecure → Exists (λ s, rrset_grounds anchors ans s Insecure) (group_rrsets ans)).
Proof.
  intros Hv. unfold validate_positive. cbv zeta. destruct (bool_decide _); [by intros [= <- <-]|].
  destruct (_ <? _)%nat; [by intros [= <- <-]|]. intros E. eapply validate_rrsets_ok in E as (Hv' & Hs & Hi); [|done..|].
  - split; [done|]. split; [intros E; by apply Hs in E as [_ ?]|]. intros E. by apply Hi in E as [?|?].
  - apply Forall_forall. intros s Hin. by apply group_rrsets_spec in Hin as [? _].
Qed.

Lemma validate_message_ok anchors v domain rtype m v' verdict :
  verifier_ok anchors v → validate_message v domain rtype m = (v', verdict) →
  verifier_ok anchors v' ∧
  (answers m = [] → negative_grounds anchors domain rtype m verdict) ∧
  (answers m ≠ [] →
     (verdict = Secure → Forall (λ s, rrset_grounds anchors (answers m) s Secure) (group_rrsets (answers m))) ∧
     (verdict = Insecure → Exists (λ s, rrset_grounds anchors (answers m) s Insecure) (group_rrsets (answers m)))).
Proof.
  intros Hv%clear_ok. unfold validate_message. destruct (bool_decide_reflect (answers m = [])).
  - intros E. eapply validate_negative_ok in E as [Hv' Hg]; [|done]. by split; [|split].
  - intros E. eapply validate_positive_ok in E as [Hv' Hg]; [|done]. by split; [|split].
Qed.

(** ** Validations one after another *)

(** Verifiers a process has: new ones over any upstreams, after the validation of any message
    or the fetch before one, with the cache of another verifier of the same anchors. *)
Inductive verifying (anchors : list TrustAnchor) : ChainVerifier → Prop :=
  | verifying_new n : verifying anchors (mkVerifier anchors ∅ dnssec_cache_new n)
  | verifying_message v domain rtype m : verifying anchors v → verifying anchors (validate_message v domain rtype m).1
  | verifying_net v n : verifying anchors v → verifying anchors (set_cv_net v n)
  | verifying_shared v w : verifying anchors v → verifying anchors w → verifying anchors (set_cv_cache v (cv_cache w)).

Lemma verifying_ok anchors v : verifying anchors v → verifier_ok anchors v.
Proof.
  induction 1 as [n|v domain rtype m _ IH|v n _ IH|v w _ IHv _ IHw].
  - split; [done|]. split; [apply map_Forall_empty|]. split; apply map_Forall_empty.
  - destruct (validate_message v domain rtype m) as [v' x] eqn:E. by eapply validate_message_ok in E as [? _].
  - by destruct IH as (? & ? & ?).
  - destruct IHv as (? & ? & ?), IHw as (_ & _ & ?). done.
Qed.


End verdicts.

(** ** Libraries *)

#[local] Existing Instances plain_names toy_hash map_to_list_order.

#[local] Instance text_names : Hickory := {
  message_from_vec := λ _, inl ""%string;
  name_from_str := λ s, inr (List.filter (λ l : bytes, negb (bool_decide (l = []))) (split 46 s));
  name_to_utf8 := λ n, n ≫= (λ l, l ++ [46]); type_debug := λ _, ""%string;
}.

(** What is signed is the name and the number of the records, and a signature is what is signed under
    the modulus of the key. *)
#[local] Instance toy_primitives : DnssecPrimitives := {
  tbs_from_input := λ owner input records,
    inr (Z.of_nat (length records) :: type_covered input :: concat (canonical owner));
  rsa_verifies := λ _ modulus _ data sig, bool_decide (sig = modulus ++ data);
  ecdsa_verifies := λ _ _ _ _, false; ed25519_verifies := λ _ _ _, false;
  sha1 := λ b, b; sha256 := λ b, b; sha384 := λ b, b;
}.

(** ** Zones and their keys *)

Definition zone_key (secret : Z) : DnskeyRecord := mkDnskey 257 3 8 [1; 3; secret].
Definition root_key : DnskeyRecord := zone_key 7.
Definition org_key : DnskeyRecord := zone_key 9.

Definition d_org : HName := [of_string "org"].
Definition d_net : HName := [of_string "net"].
Definition d_host (zone : HName) : HName := of_string "host" :: zone.

Definition signature (signer : HName) (k : DnskeyRecord) (owner : HName) (rtype count : Z) : HRecord :=
  mkRecord owner 300
    (RdRRSIG (mkSigInput rtype 8 (Z.of_nat (length owner)) 300 2000 1000 (calculate_key_tag k) signer)
       (drop 2 (dk_public_key k) ++ count :: rtype :: concat (canonical owner))).

Definition dnskey_record (owner : HName) (k : DnskeyRecord) : HRecord :=
  mkRecord owner 300 (RdDNSKEY (dk_flags k) (dk_algorithm k) (dk_public_key k)).
Definition dnskey_answer (owner : HName) (k : DnskeyRecord) : list HRecord :=
  [dnskey_record owner k; signature owner k owner T_DNSKEY 1].

Definition org_ds : list HRecord :=
  [mkRecord d_org 300 (RdDS (calculate_key_tag org_key) 8 2
     (match canonical_wire (of_string "org.") with inr w => w | inl _ => [] end
      ++ u16_be (dk_flags org_key) ++ [dk_protocol org_key; dk_algorithm org_key] ++ dk_public_key org_key));
   signature [] root_key d_org T_DS 1].

(** The root says that [net] is delegated and has no DS. *)
Definition net_denial : list HRecord :=
  [mkRecord d_net 300 (RdNSEC d_org [2; 46; 47]); signature [] root_key d_net 47 1].

Definition response (rc : ResponseCode) (ans auth : list HRecord) : DnsResponse :=
  mkResponse [] [] rc false (Some 300) (Some 300) (mkMessage 0 rc false [] ans auth [] None) [].

(** ** The upstreams, with the time *)

#[local] Instance toy_net : DnssecNet := {
  net := Z;
  net_query := λ now name t,
    (now,
     match t with
     | DNSKEY => if bool_decide (name = [46]) then inr (response RcNoError (dnskey_answer [] root_key) [])
                 else if bool_decide (name = of_string "org.") then inr (response RcNoError (dnskey_answer d_org org_key) [])
                 else inr (response RcNoError [] [])
     | DS => if bool_decide (name = of_string "org.") then inr (response RcNoError org_ds [])
             else if bool_decide (name = of_string "net.") then inr (response RcNoError [] net_denial)
             else inl Error.QueryTimeout
     | _ => inl Error.QueryTimeout
     end);
  net_instant := λ now, now; net_unix := λ now, now;
}.

Definition root_anchor : list TrustAnchor := [anchor_new [46] (AnchorDnskey root_key) "root"].
Definition new_verifier : ChainVerifier := mkVerifier root_anchor ∅ dnssec_cache_new 1500.
Lemma verifying_new_verifier : verifying root_anchor new_verifier.
Proof. apply verifying_new. Qed.

Definition host_record (zone : HName) : HRecord := mkRecord (d_host zone) 300 (RdA 0x01020304).
Definition signed_answer : Message :=
  mkMessage 0 RcNoError false [] [host_record d_org; signature d_org org_key (d_host d_org) 1 1] [] [] None.
Definition unsigned_answer : Message := mkMessage 0 RcNoError false [] [host_record d_net] [] [] None.

(** What the validator says of an answer for a name of a zone. *)
Definition verdict_on (domain : string) (m : Message) : DnssecStatus :=
  (validate_message new_verifier (of_string domain) A m).2.

(** An answer without its signature is Bogus when the zone is signed, as is one signed with
    another zone's key, or before its time. *)
Lemma toy_verdicts :
  verdict_on "host.org" signed_answer = Secure ∧
  verdict_on "host.net" unsigned_answer = Insecure ∧
  verdict_on "host.org" (mkMessage 0 RcNoError false [] [host_record d_org] [] [] None) = Indeterminate ∧
  verdict_on "host.org" (mkMessage 0 RcNoError false [] [host_record d_org; signature d_org root_key (d_host d_org) 1 1] [] [] None) = Bogus ∧
  (validate_message (set_cv_net new_verifier 500) (of_string "host.org") A signed_answer).2 = Bogus.
Proof. by vm_compute. Qed.


