(* ===== verification/LoginLimiter.v ===== *)
(** The lockout of credential checks:
    [application/src/use_cases/auth/login_rate_limiter.rs]. *)

From Stdlib Require Import String.
From stdpp Require Import sorting.
From S2P Require Import Prelude Errors Net Guards Protocol.

#[local] Set Default Proof Using "Type".

Definition PRUNE_THRESHOLD : nat := Z.to_nat 1024.

Record FailureWindow := mkWindow { opened_at : Z; failures : Z }.
Record LoginRateLimiter := mkLogin { max_failures : Z; window : Z; windows : gmap IpAddr FailureWindow }.

Definition login_new (max_failures window : Z) : LoginRateLimiter := mkLogin max_failures window ∅.
Definition set_windows (l : LoginRateLimiter) (m : gmap IpAddr FailureWindow) : LoginRateLimiter :=
  mkLogin (max_failures l) (window l) m.

(** [IpAddr::to_canonical] undoes the mapping of an IPv4 address. *)
Definition window_key (client : IpAddr) : IpAddr :=
  match client with
  | V4 a => V4 a
  | V6 a => match to_ipv4_mapped a with
            | Some v4 => V4 v4
            | None => V6 (Z.land a (u128_max - (Z.shiftl 1 64 - 1)))
            end
  end.

(** [Instant::duration_since] is zero for a later instant. *)
Definition duration_since (now earlier : Z) : Z := Z.max 0 (now - earlier).
Definition still_open (l : LoginRateLimiter) (now : Z) (w : FailureWindow) : bool :=
  duration_since now (opened_at w) <? window l.

Definition check_at (l : LoginRateLimiter) (client : IpAddr) (now : Z) : DomainError + unit :=
  if max_failures l =? 0 then inr ()
  else match windows l !! window_key client with
       | None => inr ()
       | Some w => if still_open l now w && (max_failures l <=? failures w) then inl Error.RateLimited else inr ()
       end.

(** Past the threshold the windows that are closed are dropped. *)
Definition pruned (l : LoginRateLimiter) (now : Z) : gmap IpAddr FailureWindow :=
  if (PRUNE_THRESHOLD <? size (windows l))%nat then filter (λ kw, still_open l now kw.2 = true) (windows l)
  else windows l.

Definition record_failure_at (l : LoginRateLimiter) (client : IpAddr) (now : Z) : LoginRateLimiter :=
  if max_failures l =? 0 then l
  else
    let m := pruned l now in
    let key := window_key client in
    let w := default (mkWindow now 0) (m !! key) in
    let w := if window l <=? duration_since now (opened_at w) then mkWindow now 0 else w in
    set_windows l (<[key := mkWindow (opened_at w) (sat_add u32_max (failures w) 1)]> m).

Definition login_reset (l : LoginRateLimiter) (client : IpAddr) : LoginRateLimiter :=
  set_windows l (delete (window_key client) (windows l)).

(** ** Guesses *)

(** A credential check as the callers do it: a client that is not refused guesses, wrong or right. *)
Inductive Guess := Wrong | Right.
Record Attempt := mkAttempt { at_client : IpAddr; at_time : Z; at_guess : Guess }.

Definition attempt (l : LoginRateLimiter) (a : Attempt) : LoginRateLimiter * bool :=
  match check_at l (at_client a) (at_time a) with
  | inl _ => (l, false)
  | inr _ => (match at_guess a with
              | Wrong => record_failure_at l (at_client a) (at_time a)
              | Right => login_reset l (at_client a)
              end, true)
  end.

(** The attempts that were not refused. *)
Fixpoint run_attempts (l : LoginRateLimiter) (attempts : list Attempt) : list Attempt :=
  match attempts with
  | [] => []
  | a :: attempts => let '(l, admitted) := attempt l a in (if admitted then [a] else []) ++ run_attempts l attempts
  end.

Definition of_key (k : IpAddr) (a : Attempt) : bool := bool_decide (window_key (at_client a) = k).

(** ** The bound *)

Definition guesses_in (lo hi : Z) (hist : list Z) : nat := length (List.filter (λ t, (lo <=? t) && (t <? hi)) hist).

Lemma guesses_cover lo hi lo1 hi1 lo2 hi2 hist :
  (∀ t, t ∈ hist → lo ≤ t < hi → lo1 ≤ t < hi1 ∨ lo2 ≤ t < hi2) →
  (guesses_in lo hi hist ≤ guesses_in lo1 hi1 hist + guesses_in lo2 hi2 hist)%nat.
Proof.
  unfold guesses_in. induction hist as [|t hist IH]; intros Hc; [done|]. cbn [List.filter].
  specialize (IH (λ t' Ht', Hc t' (list_elem_of_further _ _ _ Ht'))). specialize (Hc t (list_elem_of_here _ _)).
  destruct (Z.leb_spec lo t), (Z.ltb_spec t hi), (Z.leb_spec lo1 t), (Z.ltb_spec t hi1), (Z.leb_spec lo2 t), (Z.ltb_spec t hi2);
    cbn [andb length]; lia.
Qed.

Lemma guesses_none hist : guesses_in 0 0 hist = 0%nat.
Proof.
  unfold guesses_in. induction hist as [|t hist IH]; [done|]. cbn [List.filter].
  destruct (Z.leb_spec 0 t), (Z.ltb_spec t 0); try lia; exact IH.
Qed.

Lemma guesses_within lo hi lo1 hi1 hist : (∀ t, t ∈ hist → lo ≤ t < hi → lo1 ≤ t < hi1) →
  (guesses_in lo hi hist ≤ guesses_in lo1 hi1 hist)%nat.
Proof.
  intros Hc. pose proof (guesses_cover lo hi lo1 hi1 0 0 hist (λ t Ht H, or_introl (Hc t Ht H))) as Hg.
  rewrite guesses_none in Hg. lia.
Qed.

Lemma guesses_snoc lo hi hist t :
  guesses_in lo hi (hist ++ [t]) = (guesses_in lo hi hist + (if ((lo <=? t) && (t <? hi))%Z then 1 else 0))%nat.
Proof. unfold guesses_in. rewrite List.filter_app, length_app. cbn [List.filter]. by destruct (_ && _). Qed.

Section bound.
Context (k : IpAddr).

(** What the window of a client says of the times of its wrong guesses so far. *)
Record window_ok (l : LoginRateLimiter) (hist : list Z) (opened now : Z) : Prop := {
  wo_past : ∀ t, t ∈ hist → t ≤ now;
  wo_span : ∀ t, t ∈ hist → t < opened + window l;
  wo_opened : opened ≤ now;
  wo_current : Z.of_nat (guesses_in opened (now + 1) hist) ≤ max_failures l;
  wo_before : Z.of_nat (guesses_in (opened - window l) opened hist) ≤ max_failures l;
  wo_any t : Z.of_nat (guesses_in t (t + window l) hist) ≤ 2 * max_failures l;
  wo_entry : match windows l !! k with
             | Some w => opened_at w = opened ∧ failures w = Z.of_nat (guesses_in opened (now + 1) hist)
             | None => window l ≤ now - opened
             end;
}.

(** Later, with the entry kept or, when its window is closed, dropped. *)
Lemma window_later l l' hist opened now now' :
  window_ok l hist opened now → now ≤ now' → max_failures l' = max_failures l → window l' = window l →
  windows l' !! k = windows l !! k ∨ (windows l' !! k = None ∧ window l ≤ now' - opened) →
  window_ok l' hist opened now'.
Proof.
  intros [Hp Hs Ho Hc Hb Ha He] Hn Em Ew Hk.
  assert (Eg : guesses_in opened (now' + 1) hist = guesses_in opened (now + 1) hist).
  { apply Nat.le_antisymm; apply guesses_within; intros t Ht; specialize (Hp t Ht); lia. }
  split; rewrite ?Em, ?Ew; try done.
  - intros t Ht. specialize (Hp t Ht). lia.
  - lia.
  - by rewrite Eg.
  - rewrite Eg. destruct Hk as [-> | [-> Hk]]; [|done]. destruct (windows l !! k); [done|lia].
Qed.

(** A wrong guess counted in the window it falls in. *)
Lemma window_counts l hist opened now now' l' :
  window_ok l hist opened now → now ≤ now' → now' - opened < window l →
  Z.of_nat (guesses_in opened (now + 1) hist) < max_failures l →
  max_failures l' = max_failures l → window l' = window l →
  windows l' !! k = Some (mkWindow opened (Z.of_nat (guesses_in opened (now + 1) hist) + 1)) →
  window_ok l' (hist ++ [now']) opened now'.
Proof.
  intros [Hp Hs Ho Hc Hb Ha He] Hn Hw Hf Em Ew Hk.
  assert (Eg : guesses_in opened (now' + 1) hist = guesses_in opened (now + 1) hist).
  { apply Nat.le_antisymm; apply guesses_within; intros t Ht; specialize (Hp t Ht); lia. }
  split; rewrite ?Em, ?Ew.
  - intros t [Ht | ->%list_elem_of_singleton]%elem_of_app; [specialize (Hp t Ht)|]; lia.
  - intros t [Ht | ->%list_elem_of_singleton]%elem_of_app; [by apply Hs|lia].
  - lia.
  - rewrite guesses_snoc, Eg. destruct (_ && _); lia.
  - rewrite guesses_snoc. destruct (Z.ltb_spec now' opened); [lia|]. rewrite andb_false_r. lia.
  - intros t. rewrite guesses_snoc. specialize (Ha t).
    destruct (Z.leb_spec t now'), (Z.ltb_spec now' (t + window l)); cbn [andb]; try lia.
    pose proof (guesses_cover t (t + window l) (opened - window l) opened opened (now + 1) hist
      ltac:(intros t' Ht' Hin; specialize (Hp t' Ht'); lia)). lia.
  - rewrite Hk, guesses_snoc, Eg. split; [done|]. cbn [failures].
    destruct (Z.leb_spec opened now'), (Z.ltb_spec now' (now' + 1)); cbn [andb]; lia.
Qed.

(** A wrong guess that opens a window. *)
Lemma window_opens l hist opened now now' l' :
  window_ok l hist opened now → now ≤ now' → window l ≤ now' - opened → 0 < window l → 0 < max_failures l →
  max_failures l' = max_failures l → window l' = window l → windows l' !! k = Some (mkWindow now' 1) →
  window_ok l' (hist ++ [now']) now' now'.
Proof.
  intros [Hp Hs Ho Hc Hb Ha He] Hn Hw Hpos Hm Em Ew Hk.
  assert (Ez : guesses_in now' (now' + 1) hist = 0%nat).
  { pose proof (guesses_within now' (now' + 1) 0 0 hist ltac:(intros t Ht Hin; specialize (Hs t Ht); lia)) as Hg.
    rewrite guesses_none in Hg. lia. }
  assert (El : ∀ lo hi, now' - window l ≤ lo → (guesses_in lo hi hist ≤ guesses_in opened (now + 1) hist)%nat).
  { intros lo hi Hlo. apply guesses_within. intros t Ht Hin. specialize (Hp t Ht). lia. }
  split; rewrite ?Em, ?Ew.
  - intros t [Ht | ->%list_elem_of_singleton]%elem_of_app; [specialize (Hp t Ht)|]; lia.
  - intros t [Ht | ->%list_elem_of_singleton]%elem_of_app; [specialize (Hs t Ht)|]; lia.
  - lia.
  - rewrite guesses_snoc, Ez. destruct (_ && _); lia.
  - rewrite guesses_snoc. rewrite Z.ltb_irrefl, andb_false_r. specialize (El (now' - window l) now' ltac:(lia)). lia.
  - intros t. rewrite guesses_snoc. specialize (Ha t).
    destruct (Z.leb_spec t now'), (Z.ltb_spec now' (t + window l)); cbn [andb]; try lia.
    specialize (El t (t + window l) ltac:(lia)). lia.
  - rewrite Hk, guesses_snoc, Ez. split; [done|]. cbn [failures].
    destruct (Z.leb_spec now' now'), (Z.ltb_spec now' (now' + 1)); cbn [andb]; lia.
Qed.

Lemma pruned_lookup l hist opened now now' : window_ok l hist opened now →
  pruned l now' !! k = windows l !! k ∨ (pruned l now' !! k = None ∧ window l ≤ now' - opened) ∨ window l ≤ 0.
Proof.
  intros Hok. pose proof (wo_entry _ _ _ _ Hok) as He. unfold pruned. destruct (_ <? _)%nat; [|by left].
  destruct (windows l !! k) as [w|] eqn:E; [|left; apply map_lookup_filter_None; by left].
  destruct (still_open l now' w) eqn:Es.
  - left. apply map_lookup_filter_Some. by split.
  - right. unfold still_open, duration_since in Es. apply Z.ltb_ge in Es. destruct He as [He _].
    destruct (Z.le_gt_cases (window l) 0); [by right|left]. split; [|lia].
    apply map_lookup_filter_None. right. intros w' Ew. simplify_eq. cbn. unfold still_open, duration_since.
    by apply not_true_iff_false, Z.ltb_ge.
Qed.

(** A wrong guess of the client that was let through. *)
Lemma failure_counted l hist opened now client now' :
  window_ok l hist opened now → now ≤ now' → 0 < window l → 0 < max_failures l ≤ u32_max →
  window_key client = k → check_at l client now' = inr () →
  ∃ opened', window_ok (record_failure_at l client now') (hist ++ [now']) opened' now'.
Proof.
  intros Hok Hn Hw Hm Ek Ec. pose proof (wo_entry _ _ _ _ Hok) as He. pose proof (wo_opened _ _ _ _ Hok) as Ho.
  assert (Hmk : pruned l now' !! k = windows l !! k ∨ (pruned l now' !! k = None ∧ window l ≤ now' - opened)).
  { destruct (pruned_lookup l hist opened now now' Hok) as [?|[?|?]]; [by left|by right|lia]. }
  unfold record_failure_at, check_at in *. rewrite (proj2 (Z.eqb_neq _ 0)) in Ec |- * by lia. cbv zeta.
  rewrite Ek in Ec |- *. set (m := pruned l now') in *. clearbody m.
  destruct (windows l !! k) as [w|] eqn:E.
  - destruct He as [He Hf]. unfold still_open, duration_since in *. rewrite He in Ec.
    destruct (Z.ltb_spec (Z.max 0 (now' - opened)) (window l)) as [Hlt|Hge]; cbn [andb] in Ec.
    + destruct Hmk as [Hmk|[_ Hmk]]; [|lia]. destruct (Z.leb_spec (max_failures l) (failures w)) as [|Hfl]; [done|].
      exists opened. rewrite Hmk. cbn [default from_option id]. rewrite He, (proj2 (Z.leb_gt _ _)) by lia.
      eapply window_counts; [exact Hok|done|lia|lia|done|done|].
      cbn [windows set_windows]. rewrite lookup_insert_eq, He, Hf. unfold sat_add. f_equal. f_equal. lia.
    + exists now'. eapply window_opens; [exact Hok|done|lia|done|lia|done|done|].
      cbn [windows set_windows]. rewrite lookup_insert_eq. f_equal. destruct Hmk as [->|[-> _]]; cbn [default from_option id].
      * rewrite He, (proj2 (Z.leb_le _ _)) by lia. done.
      * cbn [opened_at]. by destruct (_ <=? _).
  - exists now'. eapply window_opens; [exact Hok|done|lia|done|lia|done|done|].
    cbn [windows set_windows]. rewrite lookup_insert_eq. f_equal. destruct Hmk as [->|[-> _]]; cbn [default from_option id];
      cbn [opened_at]; by destruct (_ <=? _).
Qed.

Lemma attempt_ok l hist opened now a l' admitted :
  window_ok l hist opened now → now ≤ at_time a → 0 < window l → 0 < max_failures l ≤ u32_max →
  (of_key k a = true → at_guess a = Wrong) → attempt l a = (l', admitted) →
  max_failures l' = max_failures l ∧ window l' = window l ∧
  ∃ opened', window_ok l' (hist ++ (if admitted && of_key k a then [at_time a] else [])) opened' (at_time a).
Proof.
  intros Hok Hn Hw Hm Hk. unfold attempt.
  assert (Hf : ∀ client now, max_failures (record_failure_at l client now) = max_failures l ∧ window (record_failure_at l client now) = window l).
  { intros. unfold record_failure_at. by destruct (_ =? _). }
  destruct (check_at l (at_client a) (at_time a)) as [e|[]] eqn:Ec.
  { intros [= <- <-]. cbn [andb]. rewrite app_nil_r. split; [done|]. split; [done|]. exists opened.
    eapply window_later; [exact Hok|done|done|done|by left]. }
  unfold of_key in *. cbn [andb]. destruct (bool_decide_reflect (window_key (at_client a) = k)) as [Ek|Ek].
  - rewrite Hk by done. intros [= <- <-]. split; [apply Hf|]. split; [apply Hf|]. by eapply failure_counted.
  - intros [= <- <-]. cbn [andb]. rewrite app_nil_r. destruct (at_guess a).
    + split; [apply Hf|]. split; [apply Hf|]. exists opened. eapply window_later; [exact Hok|done|apply Hf|apply Hf|].
      unfold record_failure_at. rewrite (proj2 (Z.eqb_neq _ 0)) by lia. cbv zeta. cbn [windows set_windows].
      rewrite lookup_insert_ne by done. destruct (pruned_lookup l hist opened now (at_time a) Hok) as [?|[?|?]]; [by left|by right|lia].
    + split; [done|]. split; [done|]. exists opened. eapply window_later; [exact Hok|done|done|done|].
      cbn [windows set_windows login_reset]. rewrite lookup_delete_ne by done. by left.
Qed.

(** Times of the client's attempts that were let through. *)
Definition admitted_times (admitted : list Attempt) : list Z := at_time <$> List.filter (of_key k) admitted.

Lemma run_ok attempts l hist opened now :
  window_ok l hist opened now → Forall (λ a, now ≤ at_time a) attempts →
  StronglySorted (λ a b, at_time a ≤ at_time b) attempts → 0 < window l → 0 < max_failures l ≤ u32_max →
  Forall (λ a, of_key k a = true → at_guess a = Wrong) attempts →
  ∀ t, Z.of_nat (guesses_in t (t + window l) (hist ++ admitted_times (run_attempts l attempts))) ≤ 2 * max_failures l.
Proof.
  revert l hist opened now. induction attempts as [|a attempts IH]; intros l hist opened now Hok Hn Hs Hw Hm Hk t.
  { cbn [run_attempts]. change (admitted_times []) with (@nil Z). rewrite app_nil_r. apply (wo_any _ _ _ _ Hok). }
  cbn [run_attempts]. destruct (attempt l a) as [l' admitted] eqn:Ea. apply Forall_cons in Hn as [Hn _], Hk as [Hk Hks].
  apply StronglySorted_inv in Hs as [Hs Ha].
  apply (attempt_ok _ _ _ _ _ _ _ Hok Hn Hw Hm Hk) in Ea as (Em & Ew & opened' & Hok').
  specialize (IH l' _ opened' _ Hok' Ha Hs). rewrite Em, Ew in IH. specialize (IH Hw Hm Hks t).
  unfold admitted_times in *. rewrite List.filter_app, fmap_app, app_assoc.
  replace (at_time <$> List.filter (of_key k) (if admitted then [a] else [])) with (if admitted && of_key k a then [at_time a] else []).
  { exact IH. }
  destruct admitted; [|done]. cbn [List.filter andb]. by destruct (of_key k a).
Qed.
End bound.


Definition guess_at (host now : Z) : Attempt := mkAttempt (V6 (0x20010DB8 * 2^96 + host)) now Wrong.
Definition block_key : IpAddr := V6 (0x20010DB8 * 2^96).

