(* ===== verification/SafeSearch.v ===== *)
(** Safe Search: the redirections of search engines per group,
    [domain/src/entities/safe_search.rs] and [infrastructure/src/dns/safe_search/]. *)

From Stdlib Require Import String.
From S2P Require Import Prelude Errors Text Protocol.

#[local] Set Default Proof Using "Type".

(** ** Configurations *)

Inductive SafeSearchEngine := Google | Bing | YouTube | DuckDuckGo | Yandex | Brave | Ecosia.
Inductive YouTubeMode := Strict | Moderate.

#[export] Instance SafeSearchEngine_eq_dec : EqDecision SafeSearchEngine.
Proof. solve_decision. Defined.
#[export] Instance YouTubeMode_eq_dec : EqDecision YouTubeMode.
Proof. solve_decision. Defined.

Definition engine_str (e : SafeSearchEngine) : string :=
  match e with
  | Google => "google" | Bing => "bing" | YouTube => "youtube" | DuckDuckGo => "duckduckgo"
  | Yandex => "yandex" | Brave => "brave" | Ecosia => "ecosia"
  end.
Definition all_engines : list SafeSearchEngine := [Google; Bing; YouTube; DuckDuckGo; Yandex; Brave; Ecosia].
Definition engine_from_str (s : string) : DomainError + SafeSearchEngine :=
  if String.eqb s "google" then inr Google else if String.eqb s "bing" then inr Bing
  else if String.eqb s "youtube" then inr YouTube else if String.eqb s "duckduckgo" then inr DuckDuckGo
  else if String.eqb s "yandex" then inr Yandex else if String.eqb s "brave" then inr Brave
  else if String.eqb s "ecosia" then inr Ecosia else inl (Error.InvalidSafeSearchEngine s).

Definition mode_str (m : YouTubeMode) : string := match m with Strict => "strict" | Moderate => "moderate" end.
Definition mode_from_str (s : string) : DomainError + YouTubeMode :=
  if String.eqb s "strict" then inr Strict else if String.eqb s "moderate" then inr Moderate
  else inl (Error.InvalidInput ("unknown YouTube mode: '" +:+ s +:+ "'")).

#[export] Instance SafeSearchEngine_countable : Countable SafeSearchEngine.
Proof.
  refine (inj_countable' engine_str (λ s, match engine_from_str s with inr e => e | inl _ => Google end) _). by intros [].
Defined.

Record SafeSearchConfig := mkSafeSearch {
  ss_id : option Z; ss_group_id : Z; ss_engine : SafeSearchEngine; ss_enabled : bool; ss_youtube_mode : YouTubeMode;
  ss_created_at : option string; ss_updated_at : option string;
}.

(** ** Domains *)

Definition cname_target (e : SafeSearchEngine) (youtube : YouTubeMode) : str :=
  of_string match e with
    | Google => "forcesafesearch.google.com" | Bing => "strict.bing.com"
    | YouTube => match youtube with Strict => "restrict.youtube.com" | Moderate => "restrictmoderate.youtube.com" end
    | DuckDuckGo => "safe.duckduckgo.com" | Yandex => "familysearch.yandex.com"
    | Brave => "forcesafe.search.brave.com" | Ecosia => "strict-safe-search.ecosia.org"
    end.

Definition GOOGLE_DOMAINS : list str :=
  of_string <$>
  ["google.com"; "www.google.com"; "www.google.co.uk"; "www.google.com.br"; "www.google.de";
   "www.google.fr"; "www.google.co.jp"; "www.google.com.au"; "www.google.co.in"; "www.google.ca";
   "www.google.com.mx"; "www.google.it"; "www.google.es"; "www.google.co.id"; "www.google.com.ar";
   "www.google.com.tr"; "www.google.pl"; "www.google.com.sa"; "www.google.nl"; "www.google.com.eg";
   "www.google.com.pk"; "www.google.com.ph"; "www.google.com.ng"; "www.google.com.ua";
   "www.google.com.tw"; "www.google.com.hk"; "www.google.co.th"; "www.google.com.co";
   "www.google.com.pe"; "www.google.com.vn"; "www.google.co.za"; "www.google.pt"; "www.google.be";
   "www.google.at"; "www.google.ch"; "www.google.se"; "www.google.no"; "www.google.dk";
   "www.google.fi"; "www.google.gr"; "www.google.ro"; "www.google.hu"; "www.google.cz";
   "www.google.sk"; "www.google.bg"; "www.google.hr"; "www.google.ie"; "www.google.com.sg";
   "www.google.co.nz"; "www.google.co.il"; "www.google.ae"; "images.google.com"; "maps.google.com";
   "news.google.com"]%string.
Definition BING_DOMAINS : list str :=
  of_string <$>
  ["www.bing.com"; "bing.com"; "www2.bing.com"]%string.
Definition YOUTUBE_DOMAINS : list str :=
  of_string <$>
  ["youtube.com"; "www.youtube.com"; "m.youtube.com"; "music.youtube.com"; "youtubei.googleapis.com";
   "youtube.googleapis.com"; "www.youtube-nocookie.com"]%string.
Definition DUCKDUCKGO_DOMAINS : list str :=
  of_string <$>
  ["duckduckgo.com"; "www.duckduckgo.com"; "start.duckduckgo.com"]%string.
Definition YANDEX_DOMAINS : list str :=
  of_string <$>
  ["yandex.com"; "www.yandex.com"; "yandex.ru"; "www.yandex.ru"; "yandex.kz"; "www.yandex.kz";
   "yandex.by"; "www.yandex.by"]%string.
Definition BRAVE_DOMAINS : list str :=
  of_string <$>
  ["search.brave.com"]%string.
Definition ECOSIA_DOMAINS : list str :=
  of_string <$>
  ["www.ecosia.org"]%string.

Definition domains_for (e : SafeSearchEngine) : list str :=
  match e with
  | Google => GOOGLE_DOMAINS | Bing => BING_DOMAINS | YouTube => YOUTUBE_DOMAINS | DuckDuckGo => DUCKDUCKGO_DOMAINS
  | Yandex => YANDEX_DOMAINS | Brave => BRAVE_DOMAINS | Ecosia => ECOSIA_DOMAINS
  end.

(** ** The index *)

Record SafeSearchIndex := mkIndex {
  domain_to_engine : gmap str SafeSearchEngine; group_configs : gmap (Z * SafeSearchEngine) YouTubeMode;
}.
Definition index_empty : SafeSearchIndex := mkIndex ∅ ∅.

Definition from_configs (configs : list SafeSearchConfig) : SafeSearchIndex :=
  mkIndex
    (foldl (λ m e, foldl (λ m domain, <[domain := e]> m) m (domains_for e)) ∅ all_engines)
    (foldl (λ m cfg, <[(ss_group_id cfg, ss_engine cfg) := ss_youtube_mode cfg]> m) ∅ (List.filter ss_enabled configs)).

Definition cname_for (index : SafeSearchIndex) (domain : str) (group_id : Z) : option str :=
  let normalised := trim_end_matches 46 domain in
  let lookup := if existsb (λ b, (65 <=? b) && (b <=? 90)) (utf8 normalised) then to_ascii_lowercase normalised
                else normalised in
  engine ← domain_to_engine index !! lookup;
  youtube ← group_configs index !! (group_id, engine);
  Some (cname_target engine youtube).

(** A reload, with what the repository answers: a failed one keeps the index. *)
Definition safe_search_reload (index : SafeSearchIndex) (configs : DomainError + list SafeSearchConfig)
    : SafeSearchIndex * (DomainError + unit) :=
  match configs with
  | inl e => (index, inl e)
  | inr configs => (from_configs configs, inr ())
  end.
Definition safe_search_new (configs : DomainError + list SafeSearchConfig) : DomainError + SafeSearchIndex :=
  match safe_search_reload index_empty configs with
  | (index, inr _) => inr index
  | (_, inl e) => inl e
  end.

(** ** What is redirected *)

Lemma engine_str_roundtrip e : engine_from_str (engine_str e) = inr e.
Proof. by destruct e. Qed.
Lemma mode_str_roundtrip m : mode_from_str (mode_str m) = inr m.
Proof. by destruct m. Qed.

(** The mode in force for an engine in a group: that of the last enabled configuration. *)
Definition in_force (configs : list SafeSearchConfig) (group_id : Z) (e : SafeSearchEngine) : option YouTubeMode :=
  ss_youtube_mode <$> last (List.filter (λ cfg, ss_enabled cfg && bool_decide (ss_group_id cfg = group_id)
                                                && bool_decide (ss_engine cfg = e)) configs).

Lemma to_ascii_lowercase_id s : existsb (λ b, (65 <=? b) && (b <=? 90)) (utf8 s) = false → to_ascii_lowercase s = s.
Proof.
  unfold utf8, to_ascii_lowercase. induction s as [|c s IH]; [done|]. cbn [mbind list_bind]. rewrite existsb_app.
  intros [Hc Hs]%orb_false_iff. rewrite fmap_cons, (IH Hs). f_equal. unfold lower_byte.
  destruct ((65 <=? c) && (c <=? 90)) eqn:E; [|done]. exfalso. revert Hc. unfold utf8_char. boolify.
  rewrite (proj2 (Z.ltb_lt c 0x80)) by lia. cbn [existsb]. rewrite (proj2 (Z.leb_le 65 c)), (proj2 (Z.leb_le c 90)) by lia. done.
Qed.

Lemma configs_in_force configs g e : group_configs (from_configs configs) !! (g, e) = in_force configs g e.
Proof.
  unfold from_configs, in_force. cbn [group_configs]. induction configs as [|cfg configs IH] using rev_ind; [done|].
  rewrite !List.filter_app, foldl_app. cbn [List.filter]. destruct (ss_enabled cfg); cbn [andb foldl]; [|by rewrite app_nil_r].
  destruct (bool_decide_reflect (ss_group_id cfg = g)) as [<-|Hg]; cbn [andb].
  - destruct (bool_decide_reflect (ss_engine cfg = e)) as [<-|He]; [by rewrite lookup_insert_eq, last_snoc|].
    rewrite lookup_insert_ne, app_nil_r by congruence. exact IH.
  - rewrite lookup_insert_ne, app_nil_r by congruence. exact IH.
Qed.

Lemma inserted_lookup {V} (ds : list str) (v : V) (m : gmap str V) d :
  foldl (λ m domain, <[domain := v]> m) m ds !! d = if bool_decide (d ∈ ds) then Some v else m !! d.
Proof.
  revert m. induction ds as [|d' ds IH]; intros m; [done|]. cbn [foldl]. rewrite IH.
  destruct (bool_decide_reflect (d ∈ ds)) as [Hd|Hd].
  - by rewrite bool_decide_true by (by apply list_elem_of_further).
  - destruct (decide (d = d')) as [->|Hne].
    + rewrite lookup_insert_eq. by rewrite bool_decide_true by apply list_elem_of_here.
    + rewrite lookup_insert_ne by done. rewrite bool_decide_false; [done|]. by intros [?|?]%elem_of_cons.
Qed.

(** No domain belongs to two engines. *)
Lemma domains_disjoint e e' d : d ∈ domains_for e → d ∈ domains_for e' → e = e'.
Proof.
  assert (Hall : Forall (λ e, Forall (λ e', e = e' ∨ Forall (λ d, d ∉ domains_for e') (domains_for e)) all_engines) all_engines).
  { apply (bool_decide_unpack _). by vm_compute. }
  assert (Hin : ∀ e, e ∈ all_engines) by (intros []; apply (bool_decide_unpack _); by vm_compute).
  rewrite Forall_forall in Hall. specialize (Hall e (Hin e)). rewrite Forall_forall in Hall.
  destruct (Hall e' (Hin e')) as [|Hd]; [done|]. rewrite Forall_forall in Hd. intros H H'. by destruct (Hd d H).
Qed.

Lemma engine_of_domain configs d e : domain_to_engine (from_configs configs) !! d = Some e ↔ d ∈ domains_for e.
Proof.
  unfold from_configs, all_engines. cbn [domain_to_engine foldl]. rewrite !inserted_lookup, lookup_empty. split.
  - intros E. repeat (case_bool_decide; [by injection E as <-|]). done.
  - intros Hd. repeat (case_bool_decide; [f_equal; by eapply domains_disjoint|]). by destruct e.
Qed.

(** The name a query is redirected to: that of the engine the name belongs to, in any case and with or
    without final dots, when the group has it enabled. *)
Theorem safe_search_redirects configs domain g target :
  cname_for (from_configs configs) domain g = Some target ↔
  ∃ e m, to_ascii_lowercase (trim_end_matches 46 domain) ∈ domains_for e ∧ in_force configs g e = Some m ∧
    target = cname_target e m.
Proof.
  unfold cname_for. cbv zeta. set (n := trim_end_matches 46 domain).
  replace (if existsb _ (utf8 n) then to_ascii_lowercase n else n) with (to_ascii_lowercase n).
  2: { destruct (existsb _ _) eqn:E; [done|]. by rewrite (to_ascii_lowercase_id n E). }
  split.
  - intros E. destruct (domain_to_engine _ !! _) as [e|] eqn:Ee; [|done]. cbn [mbind option_bind] in E.
    rewrite configs_in_force in E. destruct (in_force configs g e) as [m|] eqn:Em; [|done]. injection E as <-.
    apply engine_of_domain in Ee. by exists e, m.
  - intros (e & m & Hd & Hm & ->). rewrite (proj2 (engine_of_domain configs _ e) Hd). cbn [mbind option_bind].
    by rewrite configs_in_force, Hm.
Qed.

(** A redirected name is not redirected again. *)
Theorem redirections_end configs e m g : cname_for (from_configs configs) (cname_target e m) g = None.
Proof.
  destruct (cname_for _ _ _) as [target|] eqn:E; [|done]. apply safe_search_redirects in E as (e' & m' & Hd & _). exfalso.
  revert Hd. apply (bool_decide_unpack _). destruct e, m, e'; by vm_compute.
Qed.
