(* ===== verification/TrustFile.v ===== *)
(** Where the anchors of trust come from: the embedded set and the files in
    presentation format, [infrastructure/src/dns/dnssec/trust_anchor.rs]. *)

From Stdlib Require Import String.
From stdpp Require Import pretty.
From S2P Require Import Prelude Errors Text Net Protocol Heuristics Forwarding DnssecData DnssecChain.

#[local] Set Default Proof Using "Type".

(** ** Numbers of the standard library *)

Inductive ParseIntError := IntEmpty | IntInvalidDigit | IntPosOverflow.
Definition show_int_error (e : ParseIntError) : string :=
  match e with
  | IntEmpty => "cannot parse integer from empty string"
  | IntInvalidDigit => "invalid digit found in string"
  | IntPosOverflow => "number too large to fit in target type"
  end.

(** [u8::from_str] and [u16::from_str], by the largest value: the first bad digit or overflow decides. *)
Fixpoint read_uint (max acc : Z) (s : str) : ParseIntError + Z :=
  match s with
  | [] => inr acc
  | c :: s =>
      match digit_value 10 c with
      | None => inl IntInvalidDigit
      | Some d => if max <? acc * 10 + d then inl IntPosOverflow else read_uint max (acc * 10 + d) s
      end
  end.
Definition parse_uint (max : Z) (s : str) : ParseIntError + Z :=
  match s with
  | [] => inl IntEmpty
  | [43] | [45] => inl IntInvalidDigit
  | 43 :: s => read_uint max 0 s
  | _ => read_uint max 0 s
  end.

(** ** The embedded set *)

Definition KSK_2017_DIGEST : bytes :=
  [0xe0; 0x6d; 0x44; 0xb8; 0x0b; 0x8f; 0x1d; 0x39; 0xa9; 0x5c; 0x0b; 0x0d; 0x7c; 0x65; 0xd0; 0x84;
   0x58; 0xe8; 0x80; 0x40; 0x9b; 0xbc; 0x68; 0x34; 0x57; 0x10; 0x42; 0x37; 0xc7; 0xf8; 0xec; 0x8d].
Definition KSK_2024_DIGEST : bytes :=
  [0x68; 0x3d; 0x2d; 0x0a; 0xcb; 0x8c; 0x9b; 0x71; 0x2a; 0x19; 0x48; 0xb2; 0x7f; 0x74; 0x12; 0x19;
   0x29; 0x8d; 0x0a; 0x45; 0x0d; 0x61; 0x2c; 0x48; 0x3a; 0xf4; 0x44; 0xa4; 0xc0; 0xfb; 0x2b; 0x16].

Definition embedded_root_anchor (key_tag : Z) (digest : bytes) (description : string) : TrustAnchor :=
  anchor_new [46] (AnchorDs (mkDs key_tag 8 2 digest)) description.
Definition default_root_anchors : list TrustAnchor :=
  [embedded_root_anchor 20326 KSK_2017_DIGEST "Root KSK-2017 (20326)";
   embedded_root_anchor 38696 KSK_2024_DIGEST "Root KSK-2024 (38696)"].

(** ** Files *)

(** The decoders of [data_encoding] and [base64], with the texts of their errors, and the text of an
    error of the domain. *)
Class AnchorCodecs := {
  hex_decode : bytes → string + bytes;
  base64_decode : bytes → string + bytes;
  error_text : DomainError → string;
}.

Definition anchor_error {A} (line_no : nat) (detail : string) : DomainError + A :=
  inl (Error.ConfigError ("trust anchor line " +:+ pretty line_no +:+ ": " +:+ detail)).

Definition parse_leading_fields (rdata : list str) (record_type : string) (line_no : nat)
    : DomainError + (Z * Z * Z) :=
  let field (i : nat) (max : Z) : DomainError + Z :=
    match parse_uint max (default [] (rdata !! i)) with
    | inr n => inr n
    | inl e => anchor_error line_no ("invalid " +:+ record_type +:+ " field " +:+ pretty (S i) +:+ ": " +:+ show_int_error e)
    end in
  if (length rdata <? 4)%nat then
    anchor_error line_no (record_type +:+ " record has " +:+ pretty (length rdata) +:+ " fields, expected at least 4")
  else
    first ← field 0%nat u16_max; second ← field 1%nat u8_max; third ← field 2%nat u8_max;
    inr (first, second, third).

Definition ds_from_parts (key_tag algorithm digest_type : Z) (digest : bytes) : DomainError + DsRecord :=
  ds_parse (u16_be key_tag ++ [algorithm; digest_type] ++ digest).
Definition dnskey_from_parts (flags protocol algorithm : Z) (public_key : bytes) : DomainError + DnskeyRecord :=
  dnskey_parse (u16_be flags ++ [protocol; algorithm] ++ public_key).

Section file.
Context `{AnchorCodecs}.

Definition record_error {A} (line_no : nat) (x : DomainError + A) : DomainError + A :=
  match x with
  | inl (Error.InvalidDnsResponse message) => anchor_error line_no message
  | inl other => anchor_error line_no (error_text other)
  | inr a => inr a
  end.

Definition is_ds (token : str) : bool := eq_ignore_case_str token (of_string "DS").
Definition is_dnskey (token : str) : bool := eq_ignore_case_str token (of_string "DNSKEY").

(** The fields after the type, with the type and what is before. *)
Fixpoint type_position (tokens : list str) (i : nat) : option nat :=
  match tokens with
  | [] => None
  | t :: tokens => if is_ds t || is_dnskey t then Some i else type_position tokens (S i)
  end.

Definition anchor_tokens (line : str) : list str :=
  List.filter (λ t, negb (bool_decide (t = [40])) && negb (bool_decide (t = [41]))) (split_whitespace line).

Definition parse_anchor_line (line : str) (line_no : nat) : DomainError + TrustAnchor :=
  let tokens := anchor_tokens line in
  match type_position (drop 1 tokens) 1 with
  | None => anchor_error line_no "expected a DS or DNSKEY record"
  | Some type_index =>
      let owner := default [] (head tokens) in
      let record_type := default [] (tokens !! type_index) in
      let rdata := drop (S type_index) tokens in
      let blob := utf8 (concat (drop 3 rdata)) in
      if is_ds record_type then
        '(key_tag, algorithm, digest_type) ← parse_leading_fields rdata "DS" line_no;
        digest ← (match hex_decode blob with
                  | inr d => inr d
                  | inl e => anchor_error line_no ("invalid DS digest: " +:+ e)
                  end);
        ds ← record_error line_no (ds_from_parts key_tag algorithm digest_type digest);
        inr (anchor_new owner (AnchorDs ds) (to_string owner +:+ " DS " +:+ pretty key_tag))
      else
        '(flags, protocol, algorithm) ← parse_leading_fields rdata "DNSKEY" line_no;
        public_key ← (match base64_decode blob with
                      | inr k => inr k
                      | inl e => anchor_error line_no ("invalid DNSKEY public key: " +:+ e)
                      end);
        dnskey ← record_error line_no (dnskey_from_parts flags protocol algorithm public_key);
        inr (anchor_new owner (AnchorDnskey dnskey) (to_string owner +:+ " DNSKEY " +:+ pretty (calculate_key_tag dnskey)))
  end.

(** The lines of a file from the [line_no]th. *)
Fixpoint parse_anchor_lines (texts : list str) (line_no : nat) : DomainError + list TrustAnchor :=
  match texts with
  | [] => inr []
  | raw_line :: texts =>
      let line := trim (default [] (head (split 59 raw_line))) in
      if bool_decide (line = []) then parse_anchor_lines texts (S line_no)
      else
        anchor ← parse_anchor_line line line_no;
        anchors ← parse_anchor_lines texts (S line_no);
        inr (anchor :: anchors)
  end.

Definition store_from_str (text : str) : DomainError + list TrustAnchor :=
  anchors ← parse_anchor_lines (lines text) 1;
  if bool_decide (anchors = []) then inl (Error.ConfigError "trust anchor file contains no DS or DNSKEY record")
  else if negb (existsb (λ a, bool_decide (ta_domain a = [46])) anchors) then
    inl (Error.ConfigError "trust anchor file has no anchor for the root zone '.'")
  else inr anchors.

(** What reading the file gives, or why it failed. *)
Definition store_from_file (path : string) (file : string + str) : DomainError + list TrustAnchor :=
  match file with
  | inl e => inl (Error.ConfigError ("failed to read trust anchor file " +:+ path +:+ ": " +:+ e))
  | inr text => store_from_str text
  end.
End file.

(** ** Well-formed anchors *)

(** An anchor the walk can use: a name with its final dot, a zone key of protocol 3, or a digest of
    the length of its type. *)
Definition anchor_ok (a : TrustAnchor) : Prop :=
  ends_with [46] (ta_domain a) = true ∧
  match ta_key a with
  | AnchorDnskey k => dk_protocol k = 3 ∧ Z.testbit (dk_flags k) 8 = true ∧ is_u u16_max (dk_flags k) ∧ is_u u8_max (dk_algorithm k)
  | AnchorDs d =>
      is_u u16_max (ds_key_tag d) ∧ is_u u8_max (ds_algorithm d) ∧ is_u u8_max (ds_digest_type d) ∧
      match ds_digest_type d with 1 => length (ds_digest d) = 20%nat | 2 => length (ds_digest d) = 32%nat
                                | 4 => length (ds_digest d) = 48%nat | _ => True end
  end.

Lemma read_uint_bound max acc s n : is_u max acc → read_uint max acc s = inr n → is_u max n.
Proof.
  revert acc. induction s as [|c s IH]; intros acc Ha; cbn [read_uint]; [by intros [= <-]|].
  destruct (digit_value 10 c) as [d|] eqn:Ed; [|done]. destruct (Z.ltb_spec max (acc * 10 + d)); [done|]. apply IH.
  assert (0 ≤ d). { revert Ed. unfold digit_value. repeat case_match; intros [= <-]; boolify; lia. }
  unfold is_u in *. lia.
Qed.

Lemma parse_uint_bound max s n : 0 ≤ max → parse_uint max s = inr n → is_u max n.
Proof.
  intros Hm. unfold parse_uint. intros E. assert (Hz : is_u max 0) by (unfold is_u; lia).
  repeat case_match; try done; by eapply read_uint_bound.
Qed.

Lemma bind_inr {A B} (x : DomainError + A) (f : A → DomainError + B) b :
  x ≫= f = inr b → ∃ a, x = inr a ∧ f a = inr b.
Proof. destruct x as [e|a]; [done|]. by exists a. Qed.

Lemma leading_fields_ok rdata t line_no a b c : parse_leading_fields rdata t line_no = inr (a, b, c) →
  is_u u16_max a ∧ is_u u8_max b ∧ is_u u8_max c.
Proof.
  unfold parse_leading_fields. cbv zeta. destruct (_ <? _)%nat; [done|].
  assert (Hf : ∀ max s (e : ParseIntError → DomainError + Z) n, (∀ x m, e x ≠ inr m) → 0 ≤ max →
    match parse_uint max s with inr n => inr n | inl x => e x end = inr n → is_u max n).
  { intros max s e n He Hm. destruct (parse_uint max s) as [x|m] eqn:E; [by intros ?%He|]. intros [= ->]. by eapply parse_uint_bound. }
  intros (a' & Ea & (b' & Eb & (c' & Ec & [= <- <- <-])%bind_inr)%bind_inr)%bind_inr.
  apply Hf in Ea, Eb, Ec; done.
Qed.

Section file_ok.
Context `{AnchorCodecs}.

Lemma record_error_inr {A} line_no (x : DomainError + A) a : record_error line_no x = inr a → x = inr a.
Proof. destruct x as [[]|]; done. Qed.

Lemma anchor_domain_dotted domain : ends_with [46] (anchor_normalize domain) = true.
Proof.
  unfold anchor_normalize. cbv zeta. destruct (_ || _); [done|]. destruct (ends_with [46] (trim domain)) eqn:E; [done|].
  apply ends_with_spec. by eexists.
Qed.

Lemma anchor_line_ok line line_no a : parse_anchor_line line line_no = inr a → anchor_ok a.
Proof.
  unfold parse_anchor_line. cbv zeta. destruct (type_position _ _) as [i|]; [|done]. destruct (is_ds _).
  - intros ([[tag alg] dt] & Ef & (digest & _ & (ds & Ed%record_error_inr & [= <-])%bind_inr)%bind_inr)%bind_inr.
    apply leading_fields_ok in Ef as (Ht & Ha & Hd). split; [apply anchor_domain_dotted|]. cbn [ta_key anchor_new].
    unfold ds_from_parts, u16_be in Ed. cbn [ds_parse app] in Ed.
    apply bind_inr in Ed as ([] & Ev & [= <-]). cbn [ds_key_tag ds_algorithm ds_digest_type ds_digest].
    rewrite be16_u16_be by done. split; [done|]. split; [done|]. split; [done|]. revert Ev. unfold validate_digest_length.
    repeat case_match; simplify_eq; try done; intros _; apply Nat.eqb_eq; assumption.
  - intros ([[flags protocol] alg] & Ef & (key & _ & (k & Ed%record_error_inr & [= <-])%bind_inr)%bind_inr)%bind_inr.
    apply leading_fields_ok in Ef as (Hfl & Hp & Ha). split; [apply anchor_domain_dotted|]. cbn [ta_key anchor_new].
    unfold dnskey_from_parts, u16_be in Ed. cbn [dnskey_parse app] in Ed. rewrite be16_u16_be in Ed by done.
    destruct (Z.eqb_spec protocol 3) as [->|]; [|done]. cbn [negb] in Ed.
    destruct (Z.eqb_spec (Z.land flags 0x100) 0) as [|Hz]; [done|]. injection Ed as <-. cbn [dk_protocol dk_flags dk_algorithm]. split; [done|]. split; [|done].
    apply not_false_iff_true. intros Eb. apply Hz. apply Z.bits_inj'. intros n Hn. rewrite Z.land_spec, Z.bits_0.
    change 0x100 with (2 ^ 8). rewrite Z.pow2_bits_eqb by lia. destruct (Z.eqb_spec 8 n) as [<-|]; [by rewrite Eb|apply andb_false_r].
Qed.

Lemma anchor_lines_ok texts line_no anchors : parse_anchor_lines texts line_no = inr anchors → Forall anchor_ok anchors.
Proof.
  revert line_no anchors. induction texts as [|raw texts IH]; intros line_no anchors; cbn [parse_anchor_lines]; [by intros [= <-]|].
  destruct (bool_decide _); [apply IH|]. intros (a & Ea & (rest & Er & [= <-])%bind_inr)%bind_inr.
  constructor; [by eapply anchor_line_ok|by eapply IH].
Qed.

(** C26: a file of anchors that loads gives anchors of the right shape only, fully qualified, zone keys of
    DNSSEC and digests of their type's length, numbers within their width; and one of them is for the
    root, so a walk never stops for want of an anchor. *)
Theorem loaded_anchors_are_usable text anchors : store_from_str text = inr anchors →
  Forall anchor_ok anchors ∧ has_anchor_for anchors [46] = true.
Proof.
  unfold store_from_str. intros (l & El & E)%bind_inr. apply anchor_lines_ok in El.
  destruct (bool_decide _); [done|]. destruct (existsb _ l) eqn:Ee; [|done]. injection E as <-. split; [done|]. exact Ee.
Qed.
End file_ok.

(** ** Example *)

(** Digits only, and one byte for each character. *)
#[local] Instance plain_codecs : AnchorCodecs := {
  hex_decode := λ b, if forallb (λ c, (48 <=? c) && (c <=? 57)) b then inr b else inl "invalid symbol"%string;
  base64_decode := λ b, inr b; error_text := λ _, ""%string;
}.

Definition demo_file : str :=
  of_string "; anchors" ++ [10] ++ of_string ". 172800 IN DS 20326 8 2 0123456789012345 6789012345678901 ; KSK" ++ [10; 13; 10]
  ++ of_string "example dnskey 257 3 13 AwEAAa" ++ [10].

Lemma loaded_anchors_are_usable_witness :
  ∃ anchors, store_from_str demo_file = inr anchors ∧ length anchors = 2%nat ∧ Forall anchor_ok anchors.
Proof.
  destruct (store_from_str demo_file) as [e|anchors] eqn:E; [exfalso; revert E; by vm_compute|].
  exists anchors. split; [done|]. split; [|by apply (loaded_anchors_are_usable demo_file)].
  assert (Hl : match store_from_str demo_file with inr l => length l | inl _ => 0%nat end = 2%nat) by by vm_compute.
  by rewrite E in Hl.
Defined.

Lemma bad_files_are_refused :
  store_from_str (of_string "example. DS 1 8 3 00") = inl (Error.ConfigError "trust anchor file has no anchor for the root zone '.'") ∧
  store_from_str (of_string ". DNSKEY 257 256 8 AA") = inl (Error.ConfigError "trust anchor line 1: invalid DNSKEY field 2: number too large to fit in target type") ∧
  store_from_str (of_string ". DNSKEY 1 3 8 AA") = inl (Error.ConfigError "trust anchor line 1: DNSKEY Zone Key flag not set").
Proof. by vm_compute. Qed.
