(* ===== verification/Server.v ===== *)
(** The handler every transport hands its queries to:
    [infrastructure/src/dns/server.rs], with [infrastructure/src/dns/ede.rs],
    [application/src/response_counter.rs] and the block policy of
    [domain/src/config/blocking.rs].

    A handler runs the programs of [QueryHandler] over the server's state and
    counts each reply it hands back ([Serving]).  The full parser of client
    queries, [hickory_proto]'s, is the class [QueryParser]. *)

From Stdlib Require Import String.
From S2P Require Import Prelude Errors Text DropCounter Net RateLimiter Float64 Heuristics CacheRecord Forwarding.
From S2P Require Import FastPath WireName WireResponse WireCache.
From S2P Require Import Net Guards CookieGuard BlockDecision BlockEngine QueryHandler.

#[local] Set Default Proof Using "Type".

(** ** Extended DNS errors *)

Definition DNSSEC_INDETERMINATE : Z := 5.
Definition DNSSEC_BOGUS : Z := 6.
Definition DNSKEY_MISSING : Z := 9.
Definition BLOCKED : Z := 15.
Definition PROHIBITED : Z := 18.
Definition NO_REACHABLE_AUTHORITY : Z := 22.
Definition NETWORK_ERROR : Z := 23.

Definition from_domain_error (err : DomainError) : option ExtendedDnsError :=
  let ede code text := Some (mkEde code (of_string text)) in
  match err with
  | Error.Blocked => ede BLOCKED "domain is in blocklist"
  | Error.DgaDomainDetected => ede BLOCKED "DGA domain detected"
  | Error.DnsCookieInvalid => ede PROHIBITED "missing or invalid DNS cookie"
  | Error.FilteredQuery _ => ede BLOCKED "query filtered by policy"
  | Error.DnsTunnelingDetected => ede PROHIBITED "DNS tunneling detected"
  | Error.DnsRateLimited => ede PROHIBITED "rate limit exceeded"
  | Error.DnssecValidationFailed _ => ede DNSSEC_BOGUS "DNSSEC signature validation failed"
  | Error.DnssecBogus => ede DNSSEC_BOGUS "DNSSEC validation: bogus"
  | Error.DnssecIndeterminate => ede DNSSEC_INDETERMINATE "DNSSEC validation: indeterminate"
  | Error.InsecureDelegation => ede DNSKEY_MISSING "insecure delegation"
  | Error.QueryTimeout => ede NO_REACHABLE_AUTHORITY "upstream query timed out"
  | Error.TransportNoHealthyServers => ede NO_REACHABLE_AUTHORITY "no healthy upstream servers"
  | Error.TransportAllServersUnreachable | Error.AllUpstreamsServfail =>
      ede NO_REACHABLE_AUTHORITY "all upstream servers unreachable"
  | Error.TransportTimeout _ => ede NETWORK_ERROR "upstream connection timed out"
  | Error.TransportConnectionRefused _ => ede NETWORK_ERROR "upstream connection refused"
  | Error.TransportConnectionReset _ => ede NETWORK_ERROR "upstream connection reset"
  | _ => None
  end%string.

(** ** Replies counted by RCODE *)

Definition RCODE_LABELS : list string :=
  ["NOERROR"; "FORMERR"; "SERVFAIL"; "NXDOMAIN"; "NOTIMP"; "REFUSED"; "OTHER"]%string.
Definition NOERROR : nat := 0.
Definition OTHER : nat := length RCODE_LABELS - 1.

Record ResponseCounters := mkCounters { slots : list Z }.
Definition counters_default : ResponseCounters := mkCounters (replicate (length RCODE_LABELS) 0).

Definition count_in (i : nat) (c : ResponseCounters) : ResponseCounters :=
  mkCounters (alter (λ n, wrap64 (n + 1)) i (slots c)).
Definition record_reply (reply : bytes) (c : ResponseCounters) : ResponseCounters :=
  let rcode := match reply !! 3%nat with Some flags => Z.to_nat (Z.land flags 0x0F) | None => OTHER end in
  count_in (Nat.min rcode OTHER) c.
Definition record_noerror (c : ResponseCounters) : ResponseCounters := count_in NOERROR c.

(** ** How a block is answered *)

Module Mode.
Inductive BlockResponseMode := NullIp | NxDomain | NoData | Refused.
End Mode.
Abbreviation BlockResponseMode := Mode.BlockResponseMode.

Definition mode_as_str (m : BlockResponseMode) : string :=
  match m with Mode.NullIp => "null_ip" | Mode.NxDomain => "nxdomain" | Mode.NoData => "nodata"
             | Mode.Refused => "refused" end.
Definition block_mode_from_str (s : string) : string + BlockResponseMode :=
  if bool_decide (s = "null_ip") then inr Mode.NullIp
  else if bool_decide (s = "nxdomain") then inr Mode.NxDomain
  else if bool_decide (s = "nodata") then inr Mode.NoData
  else if bool_decide (s = "refused") then inr Mode.Refused
  else inl ("Invalid block_mode '" +:+ s +:+ "': expected null_ip, nxdomain, nodata or refused")%string.

Definition DEFAULT_BLOCK_TTL : Z := 60.

Record BlockPolicy := mkPolicy {
  bp_mode : BlockResponseMode; bp_ttl : Z;
  sinkhole_ipv4 : option Z; sinkhole_ipv6 : option Z;
}.

(** ** What a reply needs from its query *)

Record ClientEdns := mkClientEdns { ce_dnssec_ok : bool; udp_payload : Z; ce_cookie : option EdnsCookie }.

Record ClientQuery := mkClientQuery {
  cq_id : Z; cq_rd : bool; cq_cd : bool;
  cq_edns : option ClientEdns;
  cq_question : bytes;
  cq_qdcount : Z;
}.

Definition client_query_new (id : Z) (rd : bool) (question : bytes) (edns_dnssec_ok : option bool) : ClientQuery :=
  mkClientQuery id rd false ((λ dnssec_ok, mkClientEdns dnssec_ok 512 None) <$> edns_dnssec_ok) question 1.

Definition set_response_cookie (query : ClientQuery) (cookie : option EdnsCookie) : ClientQuery :=
  mkClientQuery (cq_id query) (cq_rd query) (cq_cd query)
    ((λ e, mkClientEdns (ce_dnssec_ok e) (udp_payload e) cookie) <$> cq_edns query)
    (cq_question query) (cq_qdcount query).

Definition has_response_cookie (query : ClientQuery) : bool :=
  match cq_edns query with Some e => bool_decide (is_Some (ce_cookie e)) | None => false end.

Definition edns_reply (query : ClientQuery) (ede : option ExtendedDnsError) : option EdnsReply :=
  (λ e, mkEdnsReply (ce_dnssec_ok e) (as_bytes <$> ce_cookie e) ede) <$> cq_edns query.

Definition respond (query : ClientQuery) (rcode : Rcode) (authentic_data : bool) (body : ResponseBody)
    (ede : option ExtendedDnsError) : outcome bytes :=
  let head := mkHead (cq_id query) (cq_rd query) authentic_data rcode in
  encode_response head (cq_question query) (cq_qdcount query) body (edns_reply query ede).

Definition truncated (query : ClientQuery) : bytes :=
  encode_truncated (cq_id query) (cq_rd query) (cq_question query) (cq_qdcount query) (edns_reply query None).

(** The name that opens a question section, when it is not compressed. *)
Fixpoint question_name_go (fuel : nat) (question : bytes) (pos : nat) : outcome (option bytes) :=
  match fuel with
  | O => Crash OutOfFuel
  | S fuel =>
      match question !! pos with
      | None => Ret None
      | Some len =>
          if len =? 0 then Ret (Some (take (S pos) question))
          else if (1 <=? len) && (len <=? 63) then question_name_go fuel question (pos + (1 + Z.to_nat len))
          else Ret None
      end
  end.
Definition question_name_parse (question : bytes) : outcome (option bytes) :=
  question_name_go (S (length question)) question 0.

(** ** Decoding a query *)

Inductive ParsedQuery :=
  | PqValid (query : ClientQuery) (request : DnsRequest)
  | PqBadCookie (query : ClientQuery).

(** A client's message as the library parses it, under the packet's ID and RD
    bit, and its encoding of a message that asks the given questions. *)
Record HQuery := mkHQuery { hq_name : HName; hq_type : Z; hq_class : Z }.
Record HEdns := mkHEdns { he_dnssec_ok : bool; he_max_payload : Z; he_options : list EdnsOption }.
Record ClientMessage := mkClientMessage {
  cm_id : Z; cm_recursion_desired : bool; cm_checking_disabled : bool;
  cm_queries : list HQuery; cm_edns : option HEdns;
}.
Class QueryParser := {
  client_message_from_vec : bytes → option ClientMessage;
  questions_to_vec : list HQuery → option bytes;
  client_header : ∀ raw msg, client_message_from_vec raw = Some msg →
    be16_at raw 0 = Ret (cm_id msg)
    ∧ ∃ flags, be16_at raw 2 = Ret flags ∧ cm_recursion_desired msg = bit flags 0x0100;
  questions_header : ∀ qs msg, questions_to_vec qs = Some msg → (12 ≤ length msg)%nat;
}.

Section parsing.
Context `{Hickory, QueryParser}.

Definition parse_client_query_hickory (raw : bytes) (client_ip : IpAddr) (protocol : ClientProtocol)
    : outcome ParsedQuery :=
  msg ← try_some (client_message_from_vec raw);
  first ← try_some (head (cm_queries msg));
  record_type ← try_some (from_hickory (hq_type first));
  let domain := normalize_wire_name (name_to_utf8 (hq_name first)) in
  cookie ← match cm_edns msg ≫= (λ e, extract_cookie (he_options e)) with
    | Some data => c ← cookie_from_bytes data; Ret (Some c)
    | None => Ret None
    end;
  let request :=
    mkRequest domain record_type client_ip (default None cookie) (cm_checking_disabled msg) (Some protocol) in
  qdcount ← try_u16 (length (cm_queries msg));
  questions ← try_some (questions_to_vec (cm_queries msg));
  if (length questions <? 12)%nat then Crash Panicked else
  let query := {|
    cq_id := cm_id msg; cq_rd := cm_recursion_desired msg; cq_cd := cm_checking_disabled msg;
    cq_edns := (λ e, mkClientEdns (he_dnssec_ok e) (he_max_payload e) None) <$> cm_edns msg;
    cq_question := drop 12 questions; cq_qdcount := qdcount |} in
  Ret (match cookie with Some None => PqBadCookie query | _ => PqValid query request end).

Definition parse_client_query (raw : bytes) (client_ip : IpAddr) (protocol : ClientProtocol)
    : outcome ParsedQuery :=
  match parse_query raw with
  | Crash c => Crash c
  | Decline => parse_client_query_hickory raw client_ip protocol
  | Ret q =>
      cookie ← match returned (edns_cookie q raw) with
        | Some data => cookie_from_bytes data
        | None => Ret None
        end;
      let request :=
        mkRequest (domain q) (record_type q) client_ip cookie (checking_disabled q) (Some protocol) in
      section ← question q raw;
      Ret (PqValid {|
        cq_id := id q; cq_rd := recursion_desired q; cq_cd := checking_disabled q;
        cq_edns := if has_edns q then Some (mkClientEdns (wants_dnssec q) (client_max_size q) None) else None;
        cq_question := section; cq_qdcount := 1 |} request)
  end.
End parsing.

(** ** Replies to errors *)

Definition build_blocked_wire (query : ClientQuery) (record_type : RecordType) (policy : BlockPolicy)
    (ede : option ExtendedDnsError) : outcome bytes :=
  let answer rcode (sinkhole : option IpAddr) :=
    let body := match sinkhole with
      | Some address => Addresses [address] (bp_ttl policy)
      | None => NegativeSoa (bp_ttl policy)
      end in
    respond query rcode false body ede in
  match bp_mode policy with
  | Mode.Refused => respond query Refused false EmptyBody ede
  | Mode.NxDomain => answer NxDomain None
  | Mode.NoData => answer NoError None
  | Mode.NullIp =>
      answer NoError
        match record_type with
        | A => Some (V4 (default 0 (sinkhole_ipv4 policy)))
        | AAAA => Some (V6 (default 0 (sinkhole_ipv6 policy)))
        | _ => None
        end
  end.

Definition error_response (policy : BlockPolicy) (query : ClientQuery) (record_type : RecordType)
    (err : DomainError) : outcome bytes :=
  let ede := from_domain_error err in
  let answer rcode := respond query rcode false EmptyBody ede in
  match err with
  | Error.Blocked | Error.DgaDomainDetected | Error.DnsTunnelingDetected | Error.FilteredQuery _ =>
      build_blocked_wire query record_type policy ede
  | Error.DnsRateLimitedSlip => Ret (truncated query)
  | Error.DnsRateLimited => answer Refused
  | Error.DnsCookieInvalid => if has_response_cookie query then answer BadCookie else answer Refused
  | Error.NxDomain | Error.LocalNxDomain => respond query NxDomain false EmptyBody None
  | _ => answer ServFail
  end.

Definition is_capacity_exhausted (err : DomainError) : bool :=
  match err with Error.UpstreamCapacityExhausted => true | _ => false end.

(** ** The handler *)

Definition DEFAULT_TTL : Z := 60.
Definition PLAIN_EDNS : EdnsReply := mkEdnsReply false None None.

(** The reply to a wire cache hit; it panics only where the code does. *)
Definition wire_reply (query : FastPathQuery) (raw wire : bytes) (remaining : Z) (cookie : option bytes)
    : outcome bytes :=
  let edns := match cookie with
    | Some c => Some (mkEdnsReply false (Some c) None)
    | None => if has_edns query then Some PLAIN_EDNS else None
    end in
  qname ← question_name query raw;
  reply ← relay_cached wire (id query) (recursion_desired query) (Some qname) edns remaining;
  if wire_fits_udp_buffer (length reply) (client_max_size query) then Ret reply else Decline.

(** A reply for the use case to hand back: [None] declines the hit. *)
Definition as_reply {A} (o : outcome A) : option (outcome A) :=
  match o with Decline => None | _ => Some o end.

(** The largest reply the client takes, over UDP. *)
Definition udp_limit (protocol : ClientProtocol) (query : ClientQuery) : option Z :=
  if bool_decide (protocol = Udp)
  then Some match cq_edns query with Some e => Z.max (udp_payload e) 512 | None => 512 end
  else None.
Definition maybe_truncate (protocol : ClientProtocol) (query : ClientQuery) (reply : bytes) : bytes :=
  match udp_limit protocol query with
  | Some limit => if limit <? Z.of_nat (length reply) then truncated query else reply
  | None => reply
  end.

Definition sets_ad (query : ClientQuery) (resolution : DnsResolution) : bool :=
  match cq_edns query with Some e => ce_dnssec_ok e | None => false end
  && negb (cq_cd query) && bool_decide (r_dnssec_status resolution = Some Secure).

(** The reply to a resolution. *)
Definition relay_wire (protocol : ClientProtocol) (query : ClientQuery) (resolution : DnsResolution) (wire : bytes)
    : outcome bytes :=
  let reply := edns_reply query None in
  let ad := sets_ad query resolution in
  qname ← question_name_parse (cq_question query);
  let relayed := match r_cache_hit resolution, min_ttl resolution with
    | true, Some remaining => relay_aged wire (cq_id query) (cq_rd query) qname ad reply remaining
    | _, _ => relay_with_edns wire (cq_id query) (cq_rd query) qname ad reply
    end in
  match relayed with
  | Crash c => Crash c
  | Ret reply => Ret (maybe_truncate protocol query reply)
  | Decline => respond query ServFail false EmptyBody None
  end.

Definition resolution_reply (protocol : ClientProtocol) (query : ClientQuery) (resolution : DnsResolution)
    : outcome bytes :=
  match r_addresses resolution, upstream_wire_data resolution with
  | [], Some wire => relay_wire protocol query resolution wire
  | addresses, _ =>
      let body := match addresses with
        | [] => EmptyBody
        | _ => Addresses addresses (default DEFAULT_TTL (min_ttl resolution))
        end in
      reply ← respond query NoError (sets_ad query resolution) body None;
      Ret (maybe_truncate protocol query reply)
  end.

Section handler.
Context `{Hickory, QueryParser, FilterPort, ResolverPort, LruMaps, Hmac} (log2 : f32 → f32).

Record DnsServerHandler := mkHandler { use_case : HandleDnsQueryUseCase; block_policy : BlockPolicy }.

(** The COOKIE payload of the reply: the client's cookie and ours for it. *)
Definition response_cookie (k : Clocks) (client_cookie : option bytes) (client_ip : IpAddr)
    : M (option EdnsCookie) := λ s,
  match sv_cookies s, client_cookie ≫= (λ c, slice c 0 CLIENT_COOKIE_LEN) with
  | Some guard, Some client =>
      let '(guard, server) := generate_server_cookie guard client_ip client (unix_secs k) in
      lift (server ← server; cookie_from_bytes (client ++ server)) (set_cookies guard s)
  | _, _ => (Ok None, s)
  end.

(** What [m] returns, its error a value. *)
Definition caught {A} (m : M A) : M (DomainError + A) := λ s,
  match m s with
  | (Ok a, s) => (Ok (inr a), s)
  | (Err e, s) => (Ok (inl e), s)
  | (Panic c, s) => (Panic c, s)
  end.

Definition answer_client (h : DnsServerHandler) (k : Clocks) (raw : bytes) (client_ip : IpAddr) (protocol : ClientProtocol)
    : M (option bytes) :=
  match parse_client_query raw client_ip protocol with
  | Crash c => λ s, (Panic c, s)
  | Decline => mret None
  | Ret (PqBadCookie query) => reply ← lift (respond query FormErr false EmptyBody None); mret (Some reply)
  | Ret (PqValid query request) =>
      cookie ← response_cookie k (as_bytes <$> rq_edns_cookie request) client_ip;
      let query := set_response_cookie query cookie in
      resolved ← caught (execute log2 (use_case h) k request);
      match resolved with
      | inr resolution => reply ← lift (resolution_reply protocol query resolution); mret (Some reply)
      | inl err =>
          if is_capacity_exhausted err && bool_decide (protocol = Udp) then mret None
          else reply ← lift (error_response (block_policy h) query (rq_record_type request) err); mret (Some reply)
      end
  end.

(** ** Replies handed back *)

(** The server with the counters every transport's handler shares. *)
Record Serving := mkServing { sg_server : Server; sg_responses : ResponseCounters }.

Definition counting {R} (count : R → ResponseCounters → ResponseCounters) (m : M (option R)) (s : Serving)
    : result (option R) * Serving :=
  match m (sg_server s) with
  | (Ok (Some reply), server) => (Ok (Some reply), mkServing server (count reply (sg_responses s)))
  | (r, server) => (r, mkServing server (sg_responses s))
  end.

Definition try_fast_path {R} (h : DnsServerHandler) (k : Clocks) (query : FastPathQuery) (raw : bytes)
    (client_ip : IpAddr) (protocol : ClientProtocol) (respond : list IpAddr → Z → option bytes → option R)
    : Serving → result (option R) * Serving :=
  counting (λ _, record_noerror)
    (try_cache_direct log2 (use_case h) k (domain query) (record_type query) client_ip protocol
       (returned (edns_cookie query raw)) respond).

Definition try_fast_path_wire (h : DnsServerHandler) (k : Clocks) (query : FastPathQuery) (raw : bytes)
    (client_ip : IpAddr) (protocol : ClientProtocol) : Serving → result (option bytes) * Serving :=
  counting record_reply (
    hit ← try_cache_wire_direct log2 (use_case h) k (domain query) (record_type query) client_ip protocol
      (returned (edns_cookie query raw)) (λ wire remaining cookie, as_reply (wire_reply query raw wire remaining cookie));
    match hit with
    | Some reply => reply ← lift reply; mret (Some reply)
    | None => mret None
    end).

Definition handle_raw_udp_fallback (h : DnsServerHandler) (k : Clocks) (raw : bytes) (client_ip : IpAddr)
    (protocol : ClientProtocol) : Serving → result (option bytes) * Serving :=
  counting record_reply (answer_client h k raw client_ip protocol).
End handler.
