(* ===== verification/ServerSpec.v ===== *)
(** What the handler of [Server] hands back: whose reply it is, what it may
    say, and how large it is. *)

From Stdlib Require Import String.
From S2P Require Import Prelude Errors Text DropCounter Net RateLimiter Float64 Heuristics CacheRecord Forwarding.
From S2P Require Import FastPath WireName WireResponse WireCache CacheBloom.
From S2P Require Import Net Guards CookieGuard BlockDecision BlockEngine QueryHandler.
From S2P Require Import QueryLogged QueryPaths QueryFast QueryHandler Server.

#[local] Set Default Proof Using "Type".

(** ** The replies the handler writes *)

Definition body_bytes (body : ResponseBody) : bytes :=
  match body with
  | EmptyBody => []
  | Addresses addresses ttl => addr_rrs addresses ttl
  | NegativeSoa ttl => soa_record ttl
  end.
Definition opt_bytes (edns : option EdnsReply) (extended_rcode : Z) : bytes :=
  match edns with Some e => edns_write e [] extended_rcode | None => [] end.

Lemma encode_eq head question qdcount body edns : ∃ counts, length counts = 8%nat ∧
  encode_response head question qdcount body edns
  = Ret (u16_be (h_id head) ++ head_flags head false ++ counts ++ question ++ body_bytes body
         ++ opt_bytes edns (Z.shiftr (rcode_u8 (WireResponse.rcode head)) 4)).
Proof.
  unfold encode_response, write_header, opt_bytes, body_bytes.
  destruct body as [|addresses ttl|ttl], edns as [e|];
    rewrite ?append_addresses_Ret; cbn [mbind outcome_bind]; rewrite ?(edns_write_app _ (_ ++ _));
    (eexists (u16_be _ ++ u16_be _ ++ u16_be _ ++ u16_be _); split; [reflexivity|]);
    by rewrite ?app_nil_r, <-?app_assoc.
Qed.

Lemma respond_eq query rcode ad body ede : ∃ counts, length counts = 8%nat ∧
  respond query rcode ad body ede
  = Ret (u16_be (cq_id query) ++ head_flags (mkHead (cq_id query) (cq_rd query) ad rcode) false ++ counts
         ++ cq_question query ++ body_bytes body
         ++ opt_bytes (edns_reply query ede) (Z.shiftr (rcode_u8 rcode) 4)).
Proof. apply encode_eq. Qed.

Lemma truncated_eq query : ∃ counts, length counts = 8%nat ∧
  truncated query
  = u16_be (cq_id query) ++ head_flags (mkHead (cq_id query) (cq_rd query) false NoError) true ++ counts
    ++ cq_question query ++ opt_bytes (edns_reply query None) 0.
Proof.
  unfold truncated, encode_truncated, write_header, opt_bytes.
  destruct (edns_reply query None) as [e|]; rewrite ?(edns_write_app _ (_ ++ _));
    (eexists (u16_be _ ++ u16_be _ ++ u16_be _ ++ u16_be _); split; [reflexivity|]);
    by rewrite ?app_nil_r, <-?app_assoc.
Qed.

(** [o] is under the query's ID and RD bit, with the AD bit [ad]. *)
Definition headed (id : Z) (rd ad : bool) (o : bytes) : Prop :=
  ∃ hi lo rest, o = u16_be id ++ hi :: lo :: rest ∧ (8 ≤ length rest)%nat
    ∧ Z.testbit hi 0 = rd ∧ Z.testbit lo 5 = ad.

Lemma encode_headed head question qdcount body edns :
  post (encode_response head question qdcount body edns)
    (headed (h_id head) (h_recursion_desired head) (authentic_data head)).
Proof.
  destruct (encode_eq head question qdcount body edns) as (counts & Hc & ->). cbn [post].
  unfold head_flags. cbn [app]. eexists _, _, _. split; [reflexivity|]. split.
  { rewrite length_app, Hc. lia. }
  destruct head as [i rd ad rc]. cbn. split; [by destruct rd|by destruct ad, rc].
Qed.

Lemma respond_headed query rcode ad body ede :
  post (respond query rcode ad body ede) (headed (cq_id query) (cq_rd query) ad).
Proof. apply encode_headed. Qed.

Lemma truncated_headed query : headed (cq_id query) (cq_rd query) false (truncated query).
Proof.
  destruct (truncated_eq query) as (counts & Hc & ->). unfold head_flags. cbn [app].
  eexists _, _, _. split; [reflexivity|]. split; [rewrite length_app, Hc; lia|].
  cbn [h_recursion_desired authentic_data WireResponse.rcode u8_from].
  split; [by destruct (cq_rd query)|done].
Qed.

(** ** The replies it relays *)

Lemma headed_relays before o id rd ad : (12 ≤ length before)%nat →
  relays_header before o id rd ad → headed id rd ad o.
Proof.
  intros Hl (a & b & hi & lo & rest & hi' & lo' & rest' & -> & -> & Htake & Hrd & _ & Had & _).
  exists hi', lo', rest'. split_and!; try done.
  apply (f_equal length) in Htake. rewrite !length_take in Htake. cbn [length] in Hl. lia.
Qed.

Lemma headed_set before id rd ad q o : (12 ≤ length before)%nat →
  echo_opt (set_relay_header before id rd ad) q = Ret o → headed id rd ad o.
Proof. intros Hl He. eapply headed_relays, relays_header_intro; done. Qed.

Lemma headed_take id rd ad o o' : headed id rd ad o → take 12 o' = take 12 o → headed id rd ad o'.
Proof.
  intros (hi & lo & rest & -> & Hl & Hrd & Had) Ht. exists hi, lo, (take 8 rest ++ drop 12 o').
  rewrite <-(take_drop 12 o') at 1. rewrite Ht. cbn [app take u16_be]. split_and!; try done.
  rewrite length_app, length_take. lia.
Qed.

Lemma each_record_before {S} (f : bytes → nat → S → bytes * S) n : keeps_field f → ∀ msg pos s,
  post (each_record f n msg pos s) (λ r, take pos r.1.1 = take pos msg).
Proof.
  intros Hf. induction n as [|n IH]; intros msg pos s; cbn [each_record]; wp; [done|].
  eapply post_mono; [apply skip_name_post|]. intros fixed Hfix. cbn beta in Hfix. wp.
  - eapply post_mono; [apply IH|]. intros [[m p] s'] Hm. cbn [fst] in *.
    apply (f_equal (take pos)) in Hm. by rewrite !take_take, !Nat.min_l in Hm by lia.
  - match goal with E : f _ _ s = (?ttl, ?s') |- _ =>
      assert (length ttl = 4%nat)
        by (change ttl with (ttl, s').1; rewrite <-E; apply Hf; wp_lengths; lia) end.
    apply post_copy_at; [lia|]. simpl. eapply post_mono; [apply IH|].
    intros [[m p] s'] Hm. cbn [fst] in *. apply (f_equal (take pos)) in Hm.
    rewrite !take_take, !Nat.min_l in Hm by lia. rewrite Hm. unfold splice. rewrite take_app_le by (rewrite length_take; lia).
    rewrite take_take, Nat.min_l by lia. done.
Qed.

Lemma for_each_ttl_header {S} (f : bytes → nat → S → bytes * S) msg s : keeps_field f →
  post (for_each_ttl f msg s) (λ r, take 12 r.1 = take 12 msg).
Proof.
  intros Hf. unfold for_each_ttl. wp. eapply post_mono; [apply record_counts_post|]. intros [q r] _. wp.
  eapply post_mono; [apply skip_questions_post|]. intros pos Hpos. wp.
  eapply post_mono; [by apply each_record_before|]. intros [[m p] s'] Hm. cbn [fst] in *. wp. cbn [fst].
  apply (f_equal (take 12)) in Hm. by rewrite !take_take, !Nat.min_l in Hm by (cbn beta in Hpos; lia).
Qed.

Lemma relay_headed wire id rd qname ad edns : bytes_ok wire →
  post (relay_with_edns wire id rd qname ad edns) (headed id rd ad).
Proof.
  intros Hok. unfold relay_with_edns.
  apply post_bind. eapply post_mono; [by apply resection_post|]. intros s [Hs _].
  apply post_bind. eapply post_mono; [by apply append_opt_post|]. intros o Ho.
  eapply post_mono_eq; [apply echo_opt_post|]. intros o' He _. exact (headed_set _ _ _ _ _ _ Ho He).
Qed.

Lemma relay_aged_headed wire id rd qname ad edns remaining : bytes_ok wire →
  post (relay_aged wire id rd qname ad edns remaining) (headed id rd ad).
Proof.
  intros Hok. unfold relay_aged. apply post_bind. eapply post_mono; [by apply relay_headed|]. intros o Ho.
  destruct (cached_opt wire) as [[b opt]|]; [|done]. apply post_bind.
  eapply post_mono; [apply for_each_ttl_header, visit_keeps; intros; apply length_age_field|].
  intros [o' u] Ht. exact (headed_take _ _ _ _ _ Ho Ht).
Qed.

Lemma relay_cached_headed wire id rd qname edns remaining : bytes_ok wire →
  post (relay_cached wire id rd qname edns remaining) (headed id rd false).
Proof.
  intros Hok. unfold relay_cached. apply post_bind, post_try_some.
  intros [body opt] Hc%cached_opt_body. case_match; [by apply relay_aged_headed|].
  apply post_bind. eapply (post_mono _ (λ o, (12 ≤ length o)%nat)).
  - assert (Hw : ∀ e rc, (12 ≤ length (edns_write e body rc))%nat).
    { intros e rc. pose proof (edns_write_length e body rc). lia. }
    destruct edns as [[do [c|] [x|]]|]; try apply Hw; [by apply reuse_opt_post|].
    case_match; [exact I|]. apply post_bind, post_be16_at; [lia|]. intros ar _.
    case_match; [exact I|]. apply post_copy_at; [simpl; lia|]. rewrite length_splice; simpl; lia.
  - intros o Ho. apply post_bind. eapply post_mono; [apply age_ttls_post|]. intros o' Ho'. cbn beta in Ho, Ho'.
    eapply post_mono_eq; [apply echo_opt_post|]. intros o'' He _. refine (headed_set _ _ _ _ _ _ _ He). lia.
Qed.

(** ** Decoding *)

Lemma valid_len_max n : is_valid_len n = true → (n ≤ 40)%nat.
Proof.
  unfold is_valid_len. intros [->%Nat.eqb_eq|[_ ?%Nat.leb_le]%andb_prop]%orb_true_iff; lia.
Qed.

(** A cookie that is kept is the option's data, at most 40 bytes. *)
Definition cookie_fits (c : option EdnsCookie) : Prop := ∀ c', c = Some c' → (length (as_bytes c') ≤ 40)%nat.

Lemma cookie_from_bytes_post data : post (cookie_from_bytes data) cookie_fits.
Proof.
  unfold cookie_from_bytes. destruct (is_valid_len (length data)) eqn:E; cbn [negb]; [|by intros c].
  apply valid_len_max in E. assert (length (replicate 40 (0 : Z)) = 40%nat) as Hr by done.
  generalize dependent (replicate 40 (0 : Z)). intros r Hr. apply post_bind, post_copy_at; [lia|].
  intros c [= <-]. unfold as_bytes. cbn [buf len]. rewrite length_take, length_splice; lia.
Qed.

Lemma parse_query_safe raw : bytes_ok raw → safe (parse_query raw).
Proof. intros Hok. eapply post_safe, parse_query_post, Hok. Qed.

Section decoded.
Context `{Hickory, QueryParser}.

(** The ID and the RD bit of the packet. *)
Definition asks (raw : bytes) (query : ClientQuery) : Prop :=
  be16_at raw 0 = Ret (cq_id query) ∧ ∃ flags, be16_at raw 2 = Ret flags ∧ cq_rd query = bit flags 0x0100.
Definition query_of (p : ParsedQuery) : ClientQuery := match p with PqValid q _ | PqBadCookie q => q end.

Lemma parse_hickory_post raw ip proto : post (parse_client_query_hickory raw ip proto) (λ p, asks raw (query_of p)).
Proof.
  unfold parse_client_query_hickory. apply post_bind, post_try_some. intros msg Hmsg.
  apply post_bind, post_try_some. intros first _. apply post_bind, post_try_some. intros t _. cbv zeta.
  apply post_bind. eapply (post_mono _ (λ _, True)).
  { destruct (_ ≫= _) as [data|]; [|done]. apply post_bind. eapply post_mono; [apply cookie_from_bytes_post|done]. }
  intros cookie _. apply post_bind. unfold try_u16. destruct (_ <=? _); [|done]. cbn [post].
  apply post_bind, post_try_some. intros questions Hq. apply questions_header in Hq.
  rewrite (proj2 (Nat.ltb_ge _ _)) by done. apply client_header in Hmsg.
  destruct cookie as [[c|]|]; cbn; apply Hmsg.
Qed.

Lemma parse_client_query_post raw ip proto : bytes_ok raw →
  post (parse_client_query raw ip proto) (λ p, asks raw (query_of p)).
Proof.
  intros Hok. unfold parse_client_query. pose proof (parse_query_post raw Hok) as Hp.
  destruct (parse_query raw) as [q| |c]; [|apply parse_hickory_post|done].
  destruct Hp as (labels & flags & Hid & Hflags & _ & Hrd & _ & Hq & _).
  apply post_bind. eapply (post_mono _ (λ _, True)).
  { destruct (returned _); [eapply post_mono; [apply cookie_from_bytes_post|done]|done]. }
  intros cookie _. unfold question, index_range. rewrite Hq. cbn [mbind outcome_bind post mret outcome_ret query_of].
  split; [done|]. exists flags. done.
Qed.
End decoded.

(** ** Whose reply it is *)

Lemma bit_byte hi lo : is_u8 lo → bit (be16 hi lo) 0x0100 = Z.testbit hi 0.
Proof.
  intros Hlo. change 256 with (2 ^ 8). rewrite bit_testbit by lia. change 8 with (0 + 8).
  rewrite <-Z.div_pow2_bits by lia. f_equal. unfold_ints. change (2 ^ 8) with 256. zdiv.
Qed.

(** A reply to the packet: its ID, its RD bit, and the AD bit as a sign of [ad]. *)
Definition replies_to (raw o : bytes) (ad : bool) : Prop :=
  (12 ≤ length o)%nat ∧ take 2 o = take 2 raw
  ∧ ∃ x y z, raw !! 2%nat = Some x ∧ o !! 2%nat = Some y ∧ o !! 3%nat = Some z
    ∧ Z.testbit y 0 = Z.testbit x 0 ∧ Z.testbit z 5 = ad.

Lemma headed_replies raw query ad o : bytes_ok raw → asks raw query →
  headed (cq_id query) (cq_rd query) ad o → replies_to raw o ad.
Proof.
  intros Hok [Hid (flags & Hf & Hrd)] (hi & lo & rest & -> & Hl & Hhi & Hlo).
  apply be16_at_range in Hid as (_ & _ & Hid); [|done]. rewrite drop_0 in Hid.
  unfold be16_at in Hf. apply bind_Ret_inv in Hf as (x & Hx & (y & Hy & [= <-])%bind_Ret_inv).
  apply index_Ret in Hx, Hy. pose proof (bytes_ok_lookup _ _ _ Hok Hy) as Hyr.
  rewrite bit_byte in Hrd by done. rewrite Hrd in Hhi.
  split; [cbn; lia|]. split; [by rewrite <-Hid|]. by exists x, hi, lo.
Qed.

(** ** The replies to a query *)

Lemma question_name_go_post question fuel : ∀ pos, (1 ≤ fuel ∧ length question < fuel + pos)%nat →
  post (question_name_go fuel question pos) (λ _, True).
Proof.
  induction fuel as [|fuel IH]; intros pos [H1 Hf]; [lia|]. cbn [question_name_go].
  destruct (question !! pos) as [len|] eqn:E; [|done]. apply lookup_lt_Some in E.
  destruct (len =? 0); [done|]. destruct (_ && _); [|done]. apply IH. lia.
Qed.

Lemma question_name_parse_post question : post (question_name_parse question) (λ _, True).
Proof. apply question_name_go_post. lia. Qed.

(** A resolution's wire data is a vector of bytes. *)
Definition wire_ok (r : DnsResolution) : Prop := ∀ wire, upstream_wire_data r = Some wire → bytes_ok wire.

(** Headed for [query], with AD set only if [ad] allows. *)
Definition headed_for (query : ClientQuery) (ad : bool) (o : bytes) : Prop :=
  ∃ b, headed (cq_id query) (cq_rd query) b o ∧ (b = true → ad = true).

Lemma post_headed query ad b o : (b = true → ad = true) →
  post o (headed (cq_id query) (cq_rd query) b) → post o (headed_for query ad).
Proof. intros Hb Ho. eapply post_mono; [exact Ho|]. intros x Hx. by exists b. Qed.

Lemma truncate_headed protocol query ad o : headed_for query ad o →
  headed_for query ad (maybe_truncate protocol query o).
Proof.
  intros Ho. unfold maybe_truncate. destruct (udp_limit protocol query); [|done]. destruct (_ <? _); [|done].
  exists false. split; [apply truncated_headed|done].
Qed.

Lemma relay_wire_headed protocol query r wire : bytes_ok wire →
  post (relay_wire protocol query r wire) (headed_for query (sets_ad query r)).
Proof.
  intros Hok. unfold relay_wire. apply post_bind. eapply post_mono; [apply question_name_parse_post|].
  intros qname _. set (relayed := match r_cache_hit r with true => _ | false => _ end).
  assert (post relayed (headed_for query (sets_ad query r))) as Hr.
  { apply (post_headed _ _ (sets_ad query r)); [done|]. unfold relayed.
    destruct (r_cache_hit r), (min_ttl r); (by apply relay_aged_headed) || by apply relay_headed. }
  destruct relayed as [o| |c]; [by apply truncate_headed| |done].
  by eapply post_headed, respond_headed.
Qed.

Lemma resolution_reply_headed protocol query r : wire_ok r →
  post (resolution_reply protocol query r) (headed_for query (sets_ad query r)).
Proof.
  intros Hok. unfold resolution_reply.
  assert (∀ body, post (reply ← respond query NoError (sets_ad query r) body None;
    Ret (maybe_truncate protocol query reply)) (headed_for query (sets_ad query r))) as Hrespond.
  { intros body. apply post_bind.
    eapply post_mono; [by eapply (post_headed _ (sets_ad query r)), respond_headed|].
    intros o Ho. by apply truncate_headed. }
  destruct (r_addresses r), (upstream_wire_data r) as [wire|] eqn:Ew; try apply Hrespond.
  by apply relay_wire_headed, Hok.
Qed.

Lemma blocked_headed query t policy ede : post (build_blocked_wire query t policy ede) (headed_for query false).
Proof.
  unfold build_blocked_wire. destruct (bp_mode policy); (eapply post_headed, respond_headed; done).
Qed.

Lemma error_response_headed policy query t e : post (error_response policy query t e) (headed_for query false).
Proof.
  assert (∀ rcode ede, post (respond query rcode false EmptyBody ede) (headed_for query false)) as Hr.
  { intros rcode ede. by eapply post_headed, respond_headed. }
  unfold error_response. destruct e; try apply Hr; try apply blocked_headed.
  - exists false. split; [apply truncated_headed|done].
  - destruct (has_response_cookie query); apply Hr.
Qed.

(** ** Answering *)

Section served.
Context `{Hickory, QueryParser, FilterPort, ResolverPort, LruMaps, Hmac} (log2 : f32 → f32).
Implicit Types (uc : HandleDnsQueryUseCase) (h : DnsServerHandler) (k : Clocks) (rq : DnsRequest).

(** What holds of everything the resolver answers holds of what [execute]
    returns. *)
Definition resolver_gives (P : DnsResolution → Prop) : Prop :=
  (∀ st q r, (port_try_cache st q).2 = Some r → P r) ∧ (∀ st q r, (port_resolve st q).2 = inr r → P r).

Lemma safe_search_yields (P : DnsResolution → Prop) uc k rq g target s : resolver_gives P →
  yields (answer_safe_search uc k rq g target) P s.
Proof.
  intros [Hc Hr]. unfold answer_safe_search. apply yields_bind. unfold try_cache.
  destruct (port_try_cache _ _) as [st o] eqn:Eo. intros c s1 [= -> <-].
  assert (∀ s, yields (with_upstream_slot k (r ← resolve (mkQuery target (rq_record_type rq) (Some g)); raise r)) P s)
    as Hup.
  { intros s2. apply slot_yields. intros s3. apply yields_bind. unfold resolve.
    destruct (port_resolve _ _) as [st' [e|r]] eqn:Er; intros a s4 [= <- <-]; cbn; [done|].
    eapply (Hr (sv_resolver s3)). by rewrite Er. }
  apply yields_bind. intros r s2 Hr2.
  assert (P r) as Pr.
  { destruct c as [c|].
    - destruct (has_response_data c).
      + injection Hr2 as <- <-. eapply (Hc (sv_resolver s)). by rewrite Eo.
      + specialize (Hup (set_resolver st s)). unfold yields in Hup. by rewrite Hr2 in Hup.
    - specialize (Hup (set_resolver st s)). unfold yields in Hup. by rewrite Hr2 in Hup. }
  by repeat (apply yields_then; intros ? ?).
Qed.

Lemma relay_yields (P : DnsResolution → Prop) uc k rq sc r s : P r → yields (relay_resolution uc k rq sc r) P s.
Proof.
  intros HP. unfold relay_resolution. apply yields_then. intros b s1. destruct b.
  { unfold block_cname_cloaking. by repeat (apply yields_then; intros ? ?). }
  apply yields_then. intros [] s2. destruct (dnssec_refusal uc rq r) as [[status e]|];
    by repeat (apply yields_then; intros ? ?).
Qed.

Lemma execute_yields (P : DnsResolution → Prop) uc k rq s : resolver_gives P → yields (execute log2 uc k rq) P s.
Proof.
  intros HP. assert (∀ sc s, yields (answer_query uc k rq sc) P s) as Ha.
  { intros sc s1. unfold answer_query. destruct (match safe_search uc with Some _ => _ | None => None end) as [t|].
    { by apply safe_search_yields. }
    apply yields_bind. intros o s2 Hp.
    pose proof (probe_yields uc k rq sc _ P s1 (λ r, proj1 HP (sv_resolver s1)
      (mkQuery (rq_domain rq) (rq_record_type rq) (Some (sc_group_id sc))) r)) as Hy.
    unfold yields in Hy. rewrite Hp in Hy. cbn [fst] in Hy. destruct o as [r|]; [exact Hy|].
    apply slot_yields. intros s3. apply yields_bind. unfold resolve.
    destruct (port_resolve _ _) as [st [e|r]] eqn:Er; intros a s4 [= <- <-].
    - destruct e; unfold relay_error; by repeat (apply yields_then; intros ? ?).
    - apply relay_yields. eapply (proj2 HP (sv_resolver s3)). by rewrite Er. }
  unfold execute. do 6 (apply yields_then; intros ? ?).
  destruct (_ : FilterDecision); repeat (apply yields_then; intros ? ?); try apply Ha; done.
Qed.

(** Making our cookie never fails. *)
Lemma response_cookie_total k client ip s : ∃ c s', response_cookie k client ip s = (Ok c, s')
  ∧ cookie_fits c ∧ aside s s'.
Proof.
  unfold response_cookie. destruct (sv_cookies s) as [g|]; [|eexists _, _; split; [done|by split; [intros c'|]]].
  destruct (client ≫= _) as [cc|] eqn:Ec; [|eexists _, _; split; [done|by split; [intros c'|]]].
  apply bind_Some in Ec as (d & _ & [Hl ->]%slice_Some).
  pose proof (generate_eq g ip (take 8 (drop 0 d)) (unix_secs k)) as Hg.
  destruct (generate_server_cookie g ip _ (unix_secs k)) as [g' server]. cbn [snd] in Hg.
  rewrite Hg; [|rewrite length_take; unfold CLIENT_COOKIE_LEN; lia]. cbn [mbind outcome_bind].
  set (data := _ ++ cookie_of _ _ _). pose proof (cookie_from_bytes_post data) as Hp.
  assert (length data = 16%nat) as H16.
  { unfold data, cookie_of, SERVER_COOKIE_LEN, CLIENT_COOKIE_LEN in *.
    rewrite length_app, !length_take, drop_0, hmac_sign_length. lia. }
  destruct (cookie_from_bytes data) as [c| |c] eqn:E; [|unfold cookie_from_bytes in E|done].
  { cbn. eexists _, _. split_and!; [done|done|by split]. }
  rewrite H16 in E. cbn [is_valid_len negb] in E. unfold copy_at in E. by destruct (decide _).
Qed.

(** [execute] answered the packet's question with a resolution found Secure,
    and the client asked for DNSSEC and not to check for itself. *)
Definition secure_for h k raw ip protocol : Prop :=
  ∃ query rq s s' r, parse_client_query raw ip protocol = Ret (PqValid query rq)
    ∧ execute log2 (use_case h) k rq s = (Ok r, s') ∧ r_dnssec_status r = Some Secure
    ∧ cq_cd query = false ∧ ∃ e, cq_edns query = Some e ∧ ce_dnssec_ok e = true.

Lemma sets_ad_secure query c r : sets_ad (set_response_cookie query c) r = true →
  r_dnssec_status r = Some Secure ∧ cq_cd query = false ∧ ∃ e, cq_edns query = Some e ∧ ce_dnssec_ok e = true.
Proof.
  unfold sets_ad, set_response_cookie. cbn [cq_edns cq_cd].
  intros [[He Hcd]%andb_prop Hs%bool_decide_eq_true]%andb_prop. split; [done|].
  apply negb_true_iff in Hcd. split; [done|].
  destruct (cq_edns query) as [e|]; cbn in He; [|done]. by exists e.
Qed.

Lemma lift_reply (o : outcome bytes) (P : bytes → Prop) s : post o P → o ≠ Decline →
  ∃ reply, P reply ∧ (reply ← lift o; mret (M := M) (Some reply)) s = (Ok (Some reply), s).
Proof. intros Hp Hd. destruct o as [reply| |c]; [|done..]. by exists reply. Qed.

Lemma respond_returns query rcode ad body ede : respond query rcode ad body ede ≠ Decline.
Proof. destruct (respond_eq query rcode ad body ede) as (c & _ & ->). done. Qed.

Lemma error_response_returns policy query t e : error_response policy query t e ≠ Decline.
Proof.
  unfold error_response, build_blocked_wire.
  destruct e; try destruct (bp_mode policy); try destruct (has_response_cookie query); try apply respond_returns; done.
Qed.

Lemma resolution_reply_returns protocol query r : resolution_reply protocol query r ≠ Decline.
Proof.
  unfold resolution_reply, relay_wire.
  destruct (r_addresses r), (upstream_wire_data r) as [wire|];
    try (match goal with |- context [respond ?a ?b ?c ?d ?e] =>
      destruct (respond_eq a b c d e) as (? & _ & ->) end; cbn; done).
  pose proof (question_name_parse_post (cq_question query)) as Hq. unfold question_name_parse in *.
  assert (∀ fuel pos, question_name_go fuel (cq_question query) pos ≠ Decline) as Hn.
  { induction fuel as [|fuel IH]; intros pos; cbn [question_name_go]; [done|].
    destruct (_ !! pos) as [len|]; [|done]. destruct (len =? 0); [done|]. by destruct (_ && _). }
  specialize (Hn (S (length (cq_question query))) 0%nat).
  destruct (question_name_go _ _ _) as [qname| |c]; [|done..]. cbn [mbind outcome_bind].
  match goal with |- context [match ?m with Ret _ => _ | _ => _ end] => destruct m end; try done.
Qed.

Lemma answer_client_ok h k raw ip protocol s : bytes_ok raw → resolver_gives wire_ok →
  ∃ o s', answer_client log2 h k raw ip protocol s = (Ok o, s') ∧
    ∀ reply, o = Some reply →
      ∃ ad, replies_to raw reply ad ∧ (ad = true → secure_for h k raw ip protocol).
Proof.
  intros Hok Hw. unfold answer_client. pose proof (parse_client_query_post raw ip protocol Hok) as Hp.
  destruct (parse_client_query raw ip protocol) as [[query rq|query]| |c] eqn:Ep; [| |by eexists _, _|done];
    cbn [post query_of] in Hp.
  - rewrite bind_eq. destruct (response_cookie_total k (as_bytes <$> rq_edns_cookie rq) ip s) as (c & s1 & -> & _ & _).
    set (q := set_response_cookie query c). assert (asks raw q) as Hq by exact Hp.
    rewrite bind_eq. unfold caught. pose proof (execute_yields wire_ok (use_case h) k rq s1 Hw) as Hy.
    destruct (acc_execute log2 (use_case h) k rq s1) as (o & _ & Hs).
    unfold yields in Hy. destruct (execute log2 (use_case h) k rq s1) as [[r|e|c'] s2] eqn:Ee; cbn [fst] in *; [| |done].
    + destruct (lift_reply _ _ s2 (resolution_reply_headed protocol q r Hy) (resolution_reply_returns protocol q r))
        as (reply & (ad & Hh & Had) & Hrun).
      exists (Some reply), s2. split; [exact Hrun|]. intros _ [= <-]. exists ad. split; [by eapply headed_replies|].
      intros ->. destruct (sets_ad_secure _ _ _ (Had eq_refl)) as (? & ? & ?). by exists query, rq, s1, s2, r.
    + destruct (is_capacity_exhausted e && _); [by eexists _, _|].
      destruct (lift_reply _ _ s2 (error_response_headed (block_policy h) q (rq_record_type rq) e)
        (error_response_returns _ _ _ _)) as (reply & (ad & Hh & Had) & Hrun).
      exists (Some reply), s2. split; [exact Hrun|]. intros _ [= <-]. exists ad. split; [by eapply headed_replies|].
      intros ->. by specialize (Had eq_refl).
  - destruct (lift_reply _ _ s (respond_headed query FormErr false EmptyBody None) (respond_returns _ _ _ _ _))
      as (reply & Hh & Hrun).
    exists (Some reply), s. split; [exact Hrun|]. intros _ [= <-]. exists false. split; [by eapply headed_replies|done].
Qed.


(** ** How large a reply is *)

(** What the fast path's parser accepts has a small question. *)
Record small (query : ClientQuery) : Prop := {
  sm_question : (length (cq_question query) ≤ 263)%nat;
  sm_cookie : ∀ e, cq_edns query = Some e → cookie_fits (ce_cookie e);
}.

Lemma length_edns_write e rc : length (edns_write e [] rc) = edns_len e.
Proof.
  unfold edns_write, edns_len, rdata_len, cookie_len.
  destruct (r_cookie e), (ede e); rewrite ?length_app; simpl; lia.
Qed.

Lemma ede_length err e : from_domain_error err = Some e → (length (extra_text e) ≤ 40)%nat.
Proof. destruct err; intros [= <-]; vm_compute; lia. Qed.

Lemma opt_small query e rc : small query → (∀ x, e = Some x → (length (extra_text x) ≤ 40)%nat) →
  (length (opt_bytes (edns_reply query e) rc) ≤ 101)%nat.
Proof.
  intros [_ Hc] He. unfold edns_reply. destruct (cq_edns query) as [o|] eqn:E; [|cbn; lia]. cbn [opt_bytes fmap option_fmap option_map].
  specialize (Hc o eq_refl). rewrite length_edns_write. unfold edns_len, rdata_len, cookie_len. cbn [r_cookie ede].
  change (length OPT_RECORD) with 11%nat.
  assert (match as_bytes <$> ce_cookie o with Some c => (4 + length c)%nat | None => 0%nat end ≤ 44)%nat.
  { destruct (ce_cookie o) as [c|]; cbn; [|lia]. specialize (Hc c eq_refl). lia. }
  destruct e as [x|]; [specialize (He x eq_refl)|]; lia.
Qed.

Lemma respond_small query rcode ad body e : small query → (∀ x, e = Some x → (length (extra_text x) ≤ 40)%nat) →
  (length (body_bytes body) ≤ 68)%nat → post (respond query rcode ad body e) (λ o, (length o ≤ 512)%nat).
Proof.
  intros Hs He Hb. destruct (respond_eq query rcode ad body e) as (c & Hc & ->). cbn [post].
  pose proof (opt_small query e (Z.shiftr (rcode_u8 rcode) 4) Hs He). destruct Hs as [Hq _].
  rewrite !length_app, Hc. cbn [length u16_be head_flags]. lia.
Qed.

Lemma truncated_small query : small query → (length (truncated query) ≤ 512)%nat.
Proof.
  intros Hs. destruct (truncated_eq query) as (c & Hc & ->). pose proof (opt_small query None 0 Hs ltac:(done)).
  destruct Hs as [Hq _]. rewrite !length_app, Hc. cbn [length u16_be head_flags]. lia.
Qed.

Lemma error_response_small policy query t e : small query →
  post (error_response policy query t e) (λ o, (length o ≤ 512)%nat).
Proof.
  intros Hs. pose proof (ede_length e) as He.
  assert (∀ rcode body ede, (ede = None ∨ ede = from_domain_error e) → (length (body_bytes body) ≤ 68)%nat →
    post (respond query rcode false body ede) (λ o, (length o ≤ 512)%nat)) as Hr.
  { intros rcode body ede Hede Hb. apply respond_small; [done| |done]. destruct Hede as [->| ->]; [done|exact He]. }
  assert (∀ ttl, length (soa_record ttl) = 66%nat) as Hsoa by done.
  assert (post (build_blocked_wire query t policy (from_domain_error e)) (λ o, (length o ≤ 512)%nat)) as Hb.
  { unfold build_blocked_wire.
    destruct (bp_mode policy); try destruct t; apply Hr; auto; cbn [body_bytes]; rewrite ?Hsoa; cbn; lia. }
  unfold error_response. destruct e; try exact Hb; try (apply Hr; [auto|cbn; lia]).
  - by apply truncated_small.
  - destruct (has_response_cookie query); (apply Hr; [auto|cbn; lia]).
Qed.

Definition limit_of (query : ClientQuery) : Z :=
  match cq_edns query with Some e => Z.max (udp_payload e) 512 | None => 512 end.

Lemma truncate_fits query o : small query → Z.of_nat (length (maybe_truncate Udp query o)) ≤ limit_of query.
Proof.
  intros Hs%truncated_small. unfold maybe_truncate, udp_limit. rewrite bool_decide_true by done.
  fold (limit_of query). destruct (Z.ltb_spec (limit_of query) (Z.of_nat (length o))); [|done].
  unfold limit_of. destruct (cq_edns query); lia.
Qed.

Lemma small_fits query (o : bytes) : (length o ≤ 512)%nat → Z.of_nat (length o) ≤ limit_of query.
Proof. unfold limit_of. destruct (cq_edns query); lia. Qed.

Lemma resolution_reply_fits query r : small query → wire_ok r →
  post (resolution_reply Udp query r) (λ o, Z.of_nat (length o) ≤ limit_of query).
Proof.
  intros Hs Hw. pose proof (resolution_reply_headed Udp query r Hw) as Hp. unfold resolution_reply, relay_wire in *.
  destruct (r_addresses r), (upstream_wire_data r) as [wire|];
    try (match goal with |- context [respond ?a ?b ?c ?d ?e] => destruct (respond_eq a b c d e) as (? & _ & ->) end;
         cbn; by apply truncate_fits).
  all: destruct (question_name_parse (cq_question query)) as [qname| |c]; try done; cbn [mbind outcome_bind] in *.
  all: match goal with |- context [match ?m with Ret _ => _ | _ => _ end] => destruct m end; try done;
    [by apply truncate_fits|].
  all: eapply post_mono; [apply respond_small; [done|done|cbn; lia]|]; intros o; apply small_fits.
Qed.

Lemma length_dotted labels : ∀ first,
  (length (wire_name labels) ≤ length (dotted first labels) + (if first then 2 else 1))%nat.
Proof.
  induction labels as [|l labels IH]; intros first; cbn [wire_name dotted]; [destruct first; cbn; lia|].
  specialize (IH false). cbv iota in IH.
  destruct first; cbn [app length]; rewrite ?length_app, ?length_fmap; cbn [length]; lia.
Qed.

(** The query read off a packet the fast path's parser accepts. *)
Lemma fast_query raw q ip protocol : bytes_ok raw → parse_query raw = Ret q →
  ∃ query rq, parse_client_query raw ip protocol = Ret (PqValid query rq)
    ∧ (length (cq_question query) ≤ 263)%nat ∧ limit_of query ≤ client_max_size q.
Proof.
  intros Hok Hq. pose proof (parse_query_post raw Hok) as Hp. rewrite Hq in Hp.
  destruct Hp as (labels & flags & _ & _ & _ & _ & _ & Hs & _ & Hd & Hlen & Hmax & _).
  unfold parse_client_query. rewrite Hq.
  assert (∃ c, match returned (edns_cookie q raw) with Some data => cookie_from_bytes data | None => Ret None end = Ret c)
    as [c ->].
  { destruct (returned _) as [data|]; [|by eexists]. unfold cookie_from_bytes.
    destruct (is_valid_len (length data)) eqn:E; cbn [negb]; [|by eexists]. apply valid_len_max in E.
    unfold copy_at. rewrite length_replicate. destruct (decide _); [by eexists|lia]. }
  cbn [mbind outcome_bind]. unfold question, index_range. rewrite Hs. eexists _, _. split; [done|]. cbn [cq_question].
  split.
  - pose proof (length_dotted labels true) as Hl. rewrite <-Hd in Hl. unfold MAX_DOMAIN_LEN in Hlen.
    rewrite !length_app. cbn [length u16_be]. lia.
  - unfold limit_of. cbn [cq_edns]. destruct (has_edns q); cbn [udp_payload]; lia.
Qed.


(** ** Blocked names *)

(** What a reply to a refused query may hold. *)
Definition policy_body (policy : BlockPolicy) (t : RecordType) (body : ResponseBody) : Prop :=
  body = EmptyBody ∨ body = NegativeSoa (bp_ttl policy)
  ∨ bp_mode policy = Mode.NullIp
    ∧ (t = A ∧ body = Addresses [V4 (default 0 (sinkhole_ipv4 policy))] (bp_ttl policy)
       ∨ t = AAAA ∧ body = Addresses [V6 (default 0 (sinkhole_ipv6 policy))] (bp_ttl policy)).

Definition holds_body (query : ClientQuery) (body : ResponseBody) (o : bytes) : Prop :=
  ∃ head edns rc, length head = 12%nat ∧ o = head ++ cq_question query ++ body_bytes body ++ opt_bytes edns rc.

Lemma respond_holds query rcode ad body ede :
  ∃ o, respond query rcode ad body ede = Ret o ∧ holds_body query body o.
Proof.
  destruct (respond_eq query rcode ad body ede) as (c & Hc & ->). eexists. split; [done|].
  eexists (u16_be _ ++ head_flags _ _ ++ c), _, _. rewrite <-!app_assoc. split; [|done].
  rewrite !length_app, Hc. done.
Qed.

Lemma refusal_reply policy query t e : refusal e = true →
  ∃ o body, error_response policy query t e = Ret o ∧ holds_body query body o ∧ policy_body policy t body.
Proof.
  assert (∀ rcode ede, ∃ o body, respond query rcode false EmptyBody ede = Ret o ∧ holds_body query body o
    ∧ policy_body policy t body) as He.
  { intros rcode ede. destruct (respond_holds query rcode false EmptyBody ede) as (o & -> & Ho).
    exists o, EmptyBody. split_and!; [done|done|by left]. }
  assert (∀ ede, ∃ o body, build_blocked_wire query t policy ede = Ret o ∧ holds_body query body o
    ∧ policy_body policy t body) as Hb.
  { intros ede. unfold build_blocked_wire, policy_body.
    destruct (bp_mode policy) eqn:Em; [destruct t|..]; try apply He;
      (match goal with |- context [respond query ?r false ?b ede] =>
         destruct (respond_holds query r false b ede) as (o & -> & Ho); exists o, b end);
      split_and!; auto 6. }
  unfold error_response. destruct e; intros [=]; try apply He; try apply Hb.
  - destruct (truncated_eq query) as (c & Hc & Ht). exists (truncated query), EmptyBody.
    split_and!; [done| |by left]. exists (u16_be (cq_id query) ++ head_flags (mkHead (cq_id query) (cq_rd query) false NoError) true ++ c).
    eexists _, _. rewrite Ht, <-!app_assoc. split; [|done]. rewrite !length_app, Hc. done.
  - destruct (has_response_cookie query); apply He.
Qed.

(** The request's client is the packet's sender. *)
Lemma parsed_ip raw ip protocol query rq :
  parse_client_query raw ip protocol = Ret (PqValid query rq) → rq_client_ip rq = ip ∧ rq_protocol rq = Some protocol.
Proof.
  unfold parse_client_query, parse_client_query_hickory. intros Hp.
  destruct (parse_query raw) as [q| |c]; [| |done].
  - apply bind_Ret_inv in Hp as (c & _ & (sec & _ & [= <- <-])%bind_Ret_inv). done.
  - apply bind_Ret_inv in Hp as (m & _ & (first & _ & (t & _ & Hp)%bind_Ret_inv)%bind_Ret_inv).
    apply bind_Ret_inv in Hp as (c & _ & (n & _ & (qs & _ & Hp)%bind_Ret_inv)%bind_Ret_inv).
    destruct (_ <? _)%nat; [done|]. by destruct c as [[c|]|]; try discriminate Hp; injection Hp as <- <-.
Qed.

(** C20: A packet that asks for a name the filter blocks for its sender is
    answered, on every transport, under the block policy: the resolver is not
    consulted, and the reply holds nothing but the question and at most the
    policy's sinkhole address of the type asked, or the synthetic SOA of a
    negative answer. *)
Theorem blocked_packets_follow_policy h k raw ip protocol s query rq f g source :
  parse_client_query raw ip protocol = Ret (PqValid query rq) →
  decided k ip (rq_domain rq) (sv_filter (sg_server s)) = (f, g, FdBlock source) →
  ∃ reply s' body, handle_raw_udp_fallback log2 h k raw ip protocol s = (Ok (Some reply), s')
    ∧ sv_resolver (sg_server s') = sv_resolver (sg_server s)
    ∧ holds_body query body reply ∧ policy_body (block_policy h) (rq_record_type rq) body.
Proof.
  intros Hp Hd. destruct (parsed_ip _ _ _ _ _ Hp) as [Hip _]. rewrite <-Hip in Hd.
  unfold handle_raw_udp_fallback, counting, answer_client. rewrite Hp, bind_eq.
  destruct (response_cookie_total k (as_bytes <$> rq_edns_cookie rq) ip (sg_server s)) as (c & s1 & -> & _ & Hs1).
  rewrite <-(as_filter _ _ Hs1) in Hd. rewrite bind_eq. unfold caught.
  assert (∃ e s2, execute log2 (use_case h) k rq s1 = (Err e, s2) ∧ refusal e = true
    ∧ sv_resolver s2 = sv_resolver s1) as (e & s2 & -> & Hr & Hres).
  { destruct (execute_cases log2 (use_case h) k rq s1 f g _ Hd) as [(e & s2 & He & Hr & Hs & _)|(s2 & -> & _ & Hr & _)].
    { by exists e, s2. }
    cbn [after_filter].
    pose proof (stays_refuse (A := DnsResolution) (use_case h) k rq g (log_block "BLOCKED" source) Error.Blocked s2)
      as [_ Hr2 _ _ _].
    rewrite bind_eq in *. destruct (acc_log_with (use_case h) k rq g (log_block "BLOCKED" source) s2) as (o & _ & Hq).
    destruct (log_with _ _ _ _ _ _) as [[u|e|c'] s3]; cbn [fst snd] in *; [|done..].
    eexists _, _. split; [done|]. split; [done|]. cbn in Hr2. congruence. }
  assert (is_capacity_exhausted e = false) as -> by (by destruct e). cbn [andb].
  destruct (refusal_reply (block_policy h) (set_response_cookie query c) (rq_record_type rq) e Hr)
    as (o & body & -> & Ho & Hb).
  eexists o, _, body. split; [reflexivity|]. split; [cbn; rewrite Hres; apply Hs1|]. split; [|done].
  by destruct Ho as (hd & ed & rc & ? & ?); exists hd, ed, rc.
Qed.
End served.

(** ** Examples *)

(** A library that parses every packet with a header as one that asks for one
    fixed name, and one that encodes questions without compression. *)
Definition plain_question (q : HQuery) : bytes :=
  wire_name (hq_name q) ++ u16_be (hq_type q) ++ u16_be (hq_class q).
Definition demo_questions : list HQuery := [mkHQuery [of_string "IDN-name"; of_string "example"] 1 1].
Definition demo_message (raw : bytes) : option ClientMessage :=
  match be16_at raw 0, be16_at raw 2 with
  | Ret id, Ret flags => Some (mkClientMessage id (bit flags 0x0100) (bit flags 0x0010) demo_questions None)
  | _, _ => None
  end.
Definition demo_parser : QueryParser.
Proof.
  refine {|
    client_message_from_vec := demo_message;
    questions_to_vec qs := Some (replicate 12 0 ++ concat (plain_question <$> qs));
  |}.
  - intros raw msg. unfold demo_message. destruct (be16_at raw 0) as [id| |c]; [|done..].
    destruct (be16_at raw 2) as [flags| |c]; [|done..]. intros [= <-]. split; [done|]. by exists flags.
  - intros qs msg [= <-]. cbn. lia.
Defined.

#[local] Instance plain_names : Hickory := {
  message_from_vec _ := inl "unused"%string; name_from_str _ := inl "unused"%string;
  name_to_utf8 n := dotted true n; type_debug _ := ""%string;
}.

Abbreviation demo_fallback := (handle_raw_udp_fallback (H := plain_names) (H0 := demo_parser) (H1 := demo_filter)
  (H2 := demo_resolver) (H3 := assoc_maps) (H4 := demo_hmac) demo_log2).
Abbreviation DemoServing := (Serving (H1 := demo_filter) (H2 := demo_resolver) (H3 := assoc_maps) (H4 := demo_hmac)).

Definition demo_handler : DnsServerHandler :=
  mkHandler (demo_use_case None true) (mkPolicy Mode.NullIp 60 (Some 0x0A0A0A0A) None).
Definition demo_serving : DemoServing := mkServing demo_server counters_default.

Definition packet_for (name : list string) (edns : option (Z * Z)) : bytes :=
  client_query 4660 0x0100 (of_string <$> name) 1 edns.
Definition cached_packet : bytes := packet_for ["www"; "example"]%string (Some (1232, 0)).
Definition blocked_packet : bytes := packet_for ["ads"; "example"]%string None.

Lemma demo_gives : resolver_gives (H2 := demo_resolver) wire_ok.
Proof.
  split.
  - intros st q r. cbn. unfold demo_cached. destruct (dq_record_type q), (demo_addresses (dq_domain q)); by intros [= <-].
  - intros st q r [= <-]. done.
Qed.



Lemma blocked_packets_follow_policy_witness :
  ∃ reply (s' : DemoServing) body,
    demo_fallback demo_handler demo_clocks blocked_packet (V4 167772161) Doh demo_serving = (Ok (Some reply), s')
    ∧ sv_resolver (H0 := demo_resolver) (sg_server s') = [] ∧ body = Addresses [V4 0x0A0A0A0A] 60
    ∧ slice reply 29 45 = Some (body_bytes body).
Proof.
  set (p := parse_client_query (H := plain_names) (H0 := demo_parser) blocked_packet (V4 167772161) Doh).
  set (query := match p with Ret (PqValid q _) => q | _ => client_query_new 0 false [] None end).
  set (rq := match p with Ret (PqValid _ r) => r | _ => demo_request [] end).
  destruct (blocked_packets_follow_policy (H := plain_names) (H0 := demo_parser) (H1 := demo_filter)
    (H2 := demo_resolver) (H3 := assoc_maps) (H4 := demo_hmac) demo_log2 demo_handler demo_clocks blocked_packet
    (V4 167772161) Doh demo_serving query rq [] 1 Source.Blocklist) as (reply & s' & body & He & Hs & _ & Hb);
    [vm_compute; reflexivity|vm_compute; reflexivity|].
  assert (Hr : (demo_fallback demo_handler demo_clocks blocked_packet (V4 167772161) Doh demo_serving).1
    = Ok (Some reply)) by (by rewrite He).
  exists reply, s', (Addresses [V4 0x0A0A0A0A] 60). split; [exact He|]. split; [exact Hs|]. split; [reflexivity|].
  vm_compute in Hr. injection Hr as <-. reflexivity.
Defined.

(** What a several-question query gets over UDP may be larger than it takes:
    neither an error nor the truncated reply drops the questions. *)
Lemma many_questions_overflow :
  let query := mkClientQuery 7 true false None (replicate 600 0) 4 in
  (512 < length (truncated query))%nat
  ∧ maybe_truncate Udp query (truncated query) = truncated query
  ∧ post (error_response (mkPolicy Mode.NullIp 60 None None) query A Error.QueryTimeout) (λ o, (512 < length o)%nat).
Proof. split_and!; vm_compute; [lia|reflexivity|lia]. Qed.
