(* ===== verification/Listeners.v ===== *)
(** The listeners: the UDP worker ([cli/src/server/dns/udp.rs], with the send
    batch of [pktinfo.rs]) and the connections of the stream transports
    ([tcp.rs], [dot.rs], [doq.rs]).

    A worker handles the datagrams of a batch in turn ([receive]), answering
    from the caches or queueing a task within the shared admission; a
    connection is the bytes that arrive on it ([serve_stream]). Sockets, TLS
    and timeouts are left out: whether a write succeeds is an argument. *)

From Stdlib Require Import String.
From S2P Require Import Prelude Errors Text DropCounter Net RateLimiter Float64 Heuristics CacheRecord Forwarding.
From S2P Require Import FastPath WireName WireResponse WireCache CacheBloom Protocol.
From S2P Require Import Net Guards CookieGuard BlockDecision BlockEngine QueryHandler.
From S2P Require Import QueryLogged QueryPaths QueryFast QueryHandler Connections Server ServerSpec.

#[local] Set Default Proof Using "Type".

(** ** The admission of queries that leave the inline path *)

Record FallbackAdmission := mkFallback { fb_slots : Z; fb_shed : DropCounter }.

Definition fallback_new (limit : Z) (shed : DropCounter) : FallbackAdmission := mkFallback limit shed.
Definition fallback_try_admit (a : FallbackAdmission) (now_secs : Z) : FallbackAdmission * bool :=
  if 0 <? fb_slots a then (mkFallback (fb_slots a - 1) (fb_shed a), true)
  else (mkFallback (fb_slots a) (record (fb_shed a) now_secs).1, false).
(** The permit of a task drops. *)
Definition fallback_release (a : FallbackAdmission) : FallbackAdmission := mkFallback (fb_slots a + 1) (fb_shed a).

(** ** The send batch *)

Definition BATCH_SIZE : nat := 64.

(** What leaves the socket: the bytes, whom to and the source address. *)
Definition Sent : Type := bytes * SocketAddr * IpAddr.

Record SendBatch := mkBatch { wires : list bytes; staged : list (nat * SocketAddr * IpAddr) }.
Definition batch_new : SendBatch := mkBatch (replicate BATCH_SIZE (replicate RESPONSE_BUF_LEN 0)) [].

(** [Decline] is the source's [false]. *)
Definition stage (batch : SendBatch) (to : SocketAddr) (src_ip : IpAddr)
    (encode : bytes → outcome (bytes * nat)) : outcome SendBatch :=
  let i := length (staged batch) in
  wire ← try_some (wires batch !! i);
  '(wire, len) ← encode wire;
  Ret (mkBatch (<[i := wire]> (wires batch)) (staged batch ++ [(len, to, src_ip)])).

Definition sends (batch : SendBatch) : list Sent :=
  zip_with (λ (wire : bytes) '(len, to, src), (take len wire, to, src)) (wires batch) (staged batch).
Definition flush (batch : SendBatch) : SendBatch * list Sent := (mkBatch (wires batch) [], sends batch).

(** ** The UDP worker *)

Record Datagram := mkDatagram { dg_data : bytes; dg_src : SocketAddr; dg_dst : IpAddr }.

Section worker.
Context `{Hickory, QueryParser, FilterPort, ResolverPort, LruMaps, Hmac} (log2 : f32 → f32).

Record Worker := mkWorker {
  w_serving : Serving; w_admission : FallbackAdmission;
  w_batch : SendBatch; w_pending : list Sent; w_tasks : list Datagram;
}.

Definition spawn_fallback (now_secs : Z) (serving : Serving) (w : Worker) (d : Datagram) : Worker :=
  let '(admission, admitted) := fallback_try_admit (w_admission w) now_secs in
  mkWorker serving admission (w_batch w) (w_pending w) (if admitted then w_tasks w ++ [d] else w_tasks w).

(** One datagram of a batch. *)
Definition receive (h : DnsServerHandler) (k : Clocks) (now_secs : Z) (w : Worker) (d : Datagram)
    : result unit * Worker :=
  let ip := sa_ip (dg_src d) in
  let fallback serving := (Ok tt, spawn_fallback now_secs serving w d) in
  match parse_query (dg_data d) with
  | Crash c => (Panic c, w)
  | Decline => fallback (w_serving w)
  | Ret q =>
      if wants_dnssec q then fallback (w_serving w)
      else match kind q with
      | IpAddress =>
          match try_fast_path log2 h k q (dg_data d) ip Udp
                  (λ addresses ttl cookie, as_reply (stage (w_batch w) (dg_src d) (dg_dst d)
                     (build_cache_hit_response q (dg_data d) addresses ttl cookie)))
                  (w_serving w) with
          | (Ok (Some (Ret batch)), serving) =>
              (Ok tt, mkWorker serving (w_admission w) batch (w_pending w) (w_tasks w))
          | (Ok (Some (Crash c)), serving) =>
              (Panic c, mkWorker serving (w_admission w) (w_batch w) (w_pending w) (w_tasks w))
          | (Ok _, serving) => fallback serving
          | (Err e, serving) => (Err e, mkWorker serving (w_admission w) (w_batch w) (w_pending w) (w_tasks w))
          | (Panic c, serving) => (Panic c, mkWorker serving (w_admission w) (w_batch w) (w_pending w) (w_tasks w))
          end
      | WireDataKind =>
          match try_fast_path_wire log2 h k q (dg_data d) ip Udp (w_serving w) with
          | (Ok (Some patched), serving) =>
              (Ok tt, mkWorker serving (w_admission w) (w_batch w)
                        (w_pending w ++ [(patched, dg_src d, dg_dst d)]) (w_tasks w))
          | (Ok None, serving) => fallback serving
          | (Err e, serving) => (Err e, mkWorker serving (w_admission w) (w_batch w) (w_pending w) (w_tasks w))
          | (Panic c, serving) => (Panic c, mkWorker serving (w_admission w) (w_batch w) (w_pending w) (w_tasks w))
          end
      end
  end.

(** The datagrams of a batch, and what leaves after it. *)
Fixpoint receive_all (h : DnsServerHandler) (k : nat → Clocks) (now_secs : Z) (w : Worker) (ds : list Datagram)
    : result unit * Worker :=
  match ds with
  | [] => (Ok tt, w)
  | d :: ds =>
      match receive h (k 0%nat) now_secs w d with
      | (Ok _, w) => receive_all h (λ i, k (S i)) now_secs w ds
      | r => r
      end
  end.
Definition end_batch (w : Worker) : Worker * list Sent :=
  let '(batch, sent) := flush (w_batch w) in
  (mkWorker (w_serving w) (w_admission w) batch [] (w_tasks w), sent ++ w_pending w).

(** A queued task runs, and its permit drops. *)
Definition finish_task (h : DnsServerHandler) (k : Clocks) (w : Worker) (i : nat) : option (result (option Sent) * Worker) :=
  d ← w_tasks w !! i;
  let '(r, serving) := handle_raw_udp_fallback log2 h k (dg_data d) (sa_ip (dg_src d)) Udp (w_serving w) in
  let w := mkWorker serving (fallback_release (w_admission w)) (w_batch w) (w_pending w) (delete i (w_tasks w)) in
  Some (match r with
        | Ok reply => (Ok ((λ data, (data, dg_src d, dg_dst d)) <$> reply), w)
        | Err e => (Err e, w)
        | Panic c => (Panic c, w)
        end).
End worker.

(** ** The cache probes run to their end *)

Section probes.
Context `{FilterPort, ResolverPort, LruMaps, Hmac} (log2 : f32 → f32).
Implicit Types (uc : HandleDnsQueryUseCase) (k : Clocks).

Definition ends {A} (m : M A) : Prop := ∀ s, ∃ a s', m s = (Ok a, s').

Lemma ends_ret {A} (a : A) : ends (mret a).
Proof. intros s. by exists a, s. Qed.
Lemma ends_bind {A B} (m : M A) (f : A → M B) : ends m → (∀ a, ends (f a)) → ends (m ≫= f).
Proof.
  intros Hm Hf s. destruct (Hm s) as (a & s1 & E). destruct (Hf a s1) as (b & s2 & E2).
  exists b, s2. by rewrite bind_eq, E.
Qed.
Lemma ends_if {A} (b : bool) (m m' : M A) : ends m → ends m' → ends (if b then m else m').
Proof. by destruct b. Qed.
Lemma ends_ask : ends ask.
Proof. intros s. by exists s, s. Qed.
Lemma ends_group k ip : ends (resolve_client_group k ip).
Proof. intros s. unfold resolve_client_group. destruct (port_resolve_group _ _ _). by eexists _, _. Qed.
Lemma ends_filter k d g : ends (filter_domain k d g).
Proof. intros s. unfold filter_domain. destruct (port_check _ _ _ _). by eexists _, _. Qed.
Lemma ends_try_cache_str d t g : ends (try_cache_str d t g).
Proof. intros s. unfold try_cache_str. destruct (port_try_cache_str _ _ _ _). by eexists _, _. Qed.
Lemma ends_log uc q : ends (log uc q).
Proof. intros s. eexists _, _. apply log_eq. Qed.
Lemma ends_cloaked (b : bool) k chain g : ends (if b then is_cname_cloaked k chain g else mret false).
Proof. intros s. eexists _, _. apply cloaked_if_eq. Qed.

Lemma cookie_of_data data : is_valid_len (length data) = true →
  ∃ c, cookie_from_bytes data = Ret (Some c) ∧ as_bytes c = data.
Proof.
  intros Hv. unfold cookie_from_bytes. rewrite Hv. cbn [negb]. apply valid_len_max in Hv.
  rewrite copy_at_first by (rewrite length_replicate; lia). eexists. split; [done|].
  unfold as_bytes. cbn [buf len]. unfold wrap8. rewrite Z.mod_small, Nat2Z.id by lia.
  unfold splice. rewrite take_0. cbn [app]. by rewrite take_app_length.
Qed.

Lemma ends_answer_cookie k ip data : is_valid_len (length data) = true → ends (answer_cookie k ip data).
Proof.
  intros Hv s. destruct (cookie_of_data data Hv) as (c & _ & Hc).
  set (rq := mkRequest [] A ip (Some c) false None).
  destruct (answer_cookie_eq k rq s c eq_refl) as (o & s' & He & _); [by rewrite Hc|].
  rewrite Hc in He. by eexists _, _.
Qed.

Definition valid_data (cookie : option bytes) : Prop := ∀ d, cookie = Some d → is_valid_len (length d) = true.

Lemma ends_respond {R} uc k ip cookie entry (respond : option bytes → option R) : valid_data cookie →
  ends (respond_and_log uc k ip cookie entry respond).
Proof.
  intros Hv. apply ends_bind.
  - destruct cookie as [d|]; [by apply ends_answer_cookie, Hv|apply ends_ret].
  - intros [c st]. destruct (respond _); [|apply ends_ret]. apply ends_bind; [apply ends_log|]. intros []. apply ends_ret.
Qed.

Lemma ends_gate uc k domain t ip : ends (cache_gate log2 uc k domain t ip).
Proof.
  unfold cache_gate. apply ends_bind; [apply ends_ask|]. intros s. apply ends_if; [apply ends_ret|].
  apply ends_bind; [apply ends_group|]. intros g. apply ends_bind; [apply ends_filter|]. intros d.
  apply ends_if; [apply ends_ret|]. apply ends_bind; [apply ends_ask|]. intros s'.
  repeat (apply ends_if; [apply ends_ret|]). apply ends_ret.
Qed.

Lemma ends_direct {R} uc k domain t ip protocol cookie (respond : list IpAddr → Z → option bytes → option R) :
  valid_data cookie → ends (try_cache_direct log2 uc k domain t ip protocol cookie respond).
Proof.
  intros Hv. unfold try_cache_direct. apply ends_bind; [apply ends_gate|]. intros [sc|]; [|apply ends_ret].
  apply ends_bind; [apply ends_try_cache_str|]. intros [r|]; [|apply ends_ret].
  case_bool_decide; [apply ends_ret|]. apply ends_bind; [apply ends_cloaked|]. intros b.
  apply ends_if; [apply ends_ret|]. by apply ends_respond.
Qed.

Lemma ends_wire {R} uc k domain t ip protocol cookie (respond : bytes → Z → option bytes → option R) :
  valid_data cookie → ends (try_cache_wire_direct log2 uc k domain t ip protocol cookie respond).
Proof.
  intros Hv. unfold try_cache_wire_direct. apply ends_bind; [apply ends_gate|]. intros [sc|]; [|apply ends_ret].
  apply ends_bind; [apply ends_try_cache_str|]. intros [r|]; [|apply ends_ret].
  apply ends_bind; [apply ends_ask|]. intros s. apply ends_if; [apply ends_ret|].
  apply ends_bind; [apply ends_cloaked|]. intros b. apply ends_if; [apply ends_ret|].
  destruct (upstream_wire_data r); [|apply ends_ret]. destruct (min_ttl r); [|apply ends_ret]. by apply ends_respond.
Qed.

(** A reply is what [respond] made of some hit. *)
Lemma respond_reply {R} uc k ip cookie entry (respond : option bytes → option R) s reply s' :
  respond_and_log uc k ip cookie entry respond s = (Ok (Some reply), s') → ∃ c, respond c = Some reply.
Proof.
  unfold respond_and_log. rewrite bind_eq. set (m := match cookie with Some d => _ | None => _ end).
  destruct (m s) as [[[c st]|e|x] s1]; [|done..]. destruct (respond (as_bytes <$> c)) as [r|] eqn:Er; [|done]. rewrite bind_eq.
  destruct (ends_log uc (with_cookie st entry) s1) as ([] & s2 & ->). intros [= -> _]. by eexists.
Qed.

Lemma direct_reply {R} uc k domain t ip protocol cookie (respond : list IpAddr → Z → option bytes → option R) s reply s' :
  try_cache_direct log2 uc k domain t ip protocol cookie respond s = (Ok (Some reply), s') →
  ∃ addresses ttl c, respond addresses ttl c = Some reply.
Proof.
  intros Hr. apply try_cache_direct_inv in Hr as (f & sc & d & R' & r & _ & _ & _ & _ & _ & Hr).
  apply respond_reply in Hr as [c Hc]. by eexists _, _, _.
Qed.

Lemma wire_reply_of {R} uc k domain t ip protocol cookie (respond : bytes → Z → option bytes → option R) s reply s' :
  resolver_gives wire_ok →
  try_cache_wire_direct log2 uc k domain t ip protocol cookie respond s = (Ok (Some reply), s') →
  ∃ wire remaining c, bytes_ok wire ∧ respond wire remaining c = Some reply.
Proof.
  intros [Hw _] Hr. apply try_cache_wire_inv in Hr as (f & sc & d & R' & r & wire & rem & _ & Hc & _ & _ & Hwire & _ & Hr).
  apply respond_reply in Hr as [c Hr]. exists wire, rem, c. split; [|done].
  rewrite try_cache_str_eq in Hc. eapply (Hw (sv_resolver s)); [by rewrite Hc|done].
Qed.
End probes.

(** ** Datagrams *)

(** The slots of the batch are buffers of the fixed size. *)
Record batch_ok (batch : SendBatch) : Prop := {
  bo_wires : length (wires batch) = BATCH_SIZE;
  bo_bufs : Forall (λ b, length b = RESPONSE_BUF_LEN) (wires batch);
  bo_staged : (length (staged batch) ≤ BATCH_SIZE)%nat;
}.

Lemma zip_with_staged {A B C} (f : A → B → C) (ws : list A) (st : list B) w y : (length st < length ws)%nat →
  zip_with f (<[length st := w]> ws) (st ++ [y]) = zip_with f ws st ++ [f w y].
Proof.
  revert st. induction ws as [|a ws IH]; intros [|b st] Hl; cbn in *; try lia.
  - by destruct ws.
  - rewrite IH by lia. done.
Qed.

Lemma stage_post batch to src encode (P : bytes → Prop) : batch_ok batch →
  (∀ wire, length wire = RESPONSE_BUF_LEN →
     post (encode wire) (λ r, length r.1 = RESPONSE_BUF_LEN ∧ P (take r.2 r.1))) →
  post (stage batch to src encode) (λ batch', batch_ok batch'
    ∧ ∃ o, P o ∧ sends batch' = sends batch ++ [(o, to, src)]).
Proof.
  intros [Hw Hb Hs] He. unfold stage. apply post_bind, post_try_some. intros wire Hwire.
  apply post_bind. eapply post_mono; [apply He; by eapply Forall_lookup_1 in Hb|]. intros [wire' len] [Hl HP].
  cbn [fst snd] in *. apply lookup_lt_Some in Hwire as Hlt. split; [split; cbn [wires staged]|].
  - by rewrite length_insert.
  - by apply Forall_insert.
  - rewrite length_app. cbn. lia.
  - exists (take len wire'). split; [done|]. unfold sends. cbn [wires staged].
    exact (zip_with_staged (λ (wire : bytes) '(len, to, src), (take len wire, to, src)) (wires batch) (staged batch)
      wire' (len, to, src) Hlt).
Qed.

(** An address hit: under the query's ID with RD set, NOERROR, and no larger
    than the client takes. *)
Definition hit_reply (q : FastPathQuery) (o : bytes) : Prop :=
  headed (id q) true false o ∧ Z.of_nat (length o) ≤ client_max_size q
  ∧ ∃ flags, o !! 3%nat = Some flags ∧ Z.land flags 0x0F = 0.

Lemma hit_post q raw addresses ttl cookie wire : length wire = RESPONSE_BUF_LEN →
  (12 ≤ question_end q ≤ length raw)%nat →
  post (build_cache_hit_response q raw addresses ttl cookie wire) (λ r, length r.1 = RESPONSE_BUF_LEN
    ∧ hit_reply q (take r.2 r.1)).
Proof.
  intros Hw Hq. pose proof (cache_hit_encoded q raw addresses ttl cookie wire Hw Hq) as He. cbv zeta in He.
  destruct (build_cache_hit_response _ _ _ _ _ _) as [[o n]| |c]; [|done..]. destruct He as (He & Hmax & Hn & Hlen).
  apply bind_Ret_inv in He as (qn & _ & He). cbn [post fst snd]. split; [by rewrite Hlen|].
  match type of He with encode_response ?hd ?a ?b ?c ?d = _ =>
    pose proof (encode_headed hd a b c d) as Hh; destruct (encode_eq hd a b c d) as (cs & _ & Hb) end.
  rewrite He in Hh, Hb. split; [exact Hh|]. split; [rewrite length_take; lia|].
  injection Hb as ->. eexists. split; [reflexivity|]. done.
Qed.

(** The question of what the parser accepts lies in the packet. *)
Lemma question_in raw q : bytes_ok raw → parse_query raw = Ret q →
  (16 ≤ question_end q ≤ length raw)%nat ∧ valid_data (returned (edns_cookie q raw)).
Proof.
  intros Hok Hq. pose proof (parse_query_post raw Hok) as Hp. rewrite Hq in Hp.
  destruct Hp as (labels & flags & _ & _ & _ & _ & _ & Hs & _ & _ & _ & _ & Ho).
  apply slice_Some in Hs as [Hl Hs]. apply (f_equal length) in Hs.
  rewrite !length_app, length_take, length_drop in Hs. cbn [length u16_be] in Hs.
  split; [lia|]. intros d. unfold edns_cookie, opt_ok in *. destruct (opt q) as [[[[start len]|]]|]; [|by intros [=]..].
  destruct Ho as [Hle Hv]. cbn. unfold get_range.
  destruct (slice raw start (start + len)) as [x|] eqn:E; [|by intros [=]]. intros [= <-].
  apply slice_Some in E as [_ ->]. rewrite length_take, length_drop. by replace (_ `min` _)%nat with len by lia.
Qed.

Lemma wire_reply_post q raw wire remaining cookie : bytes_ok wire → (16 ≤ question_end q ≤ length raw)%nat →
  post (wire_reply q raw wire remaining cookie) (λ o, headed (id q) (recursion_desired q) false o
    ∧ Z.of_nat (length o) ≤ client_max_size q).
Proof.
  intros Hok Hq. unfold wire_reply, question_name. cbv zeta. apply post_bind, post_index_range; [lia|].
  apply post_bind. eapply post_mono; [by apply relay_cached_headed|]. intros o Ho.
  unfold wire_fits_udp_buffer. destruct (Z.leb_spec (Z.of_nat (length o)) (client_max_size q)); [|done]. done.
Qed.

Lemma asks_fast raw q : bytes_ok raw → parse_query raw = Ret q →
  be16_at raw 0 = Ret (id q) ∧ ∃ flags, be16_at raw 2 = Ret flags ∧ recursion_desired q = bit flags 0x0100.
Proof.
  intros Hok Hq. pose proof (parse_query_post raw Hok) as Hp. rewrite Hq in Hp.
  destruct Hp as (labels & flags & Hid & Hf & _ & Hrd & _). split; [done|]. by exists flags.
Qed.

Section fates.
Context `{Hickory, QueryParser, FilterPort, ResolverPort, LruMaps, Hmac} (log2 : f32 → f32).
Implicit Types (h : DnsServerHandler) (k : Clocks) (w : Worker).

Definition to_sender (d : Datagram) (o : bytes) : Sent := (o, dg_src d, dg_dst d).

(** What becomes of a datagram: an address hit in the send batch (under the
    packet's ID, with RD set whatever the packet says), a wire hit of its own,
    a task within the admission, or nothing when that is used up.  Only
    replies are counted, each under its RCODE. *)
Inductive fate (now_secs : Z) (w : Worker) (d : Datagram) : Worker → Prop :=
  | fate_hit q o batch serving :
      parse_query (dg_data d) = Ret q → wants_dnssec q = false →
      take 2 o = take 2 (dg_data d) → headed (id q) true false o → Z.of_nat (length o) ≤ client_max_size q →
      sends batch = sends (w_batch w) ++ [to_sender d o] →
      sg_responses serving = record_reply o (sg_responses (w_serving w)) →
      fate now_secs w d (mkWorker serving (w_admission w) batch (w_pending w) (w_tasks w))
  | fate_wire q o serving :
      parse_query (dg_data d) = Ret q → wants_dnssec q = false →
      replies_to (dg_data d) o false → Z.of_nat (length o) ≤ client_max_size q →
      sg_responses serving = record_reply o (sg_responses (w_serving w)) →
      fate now_secs w d
        (mkWorker serving (w_admission w) (w_batch w) (w_pending w ++ [to_sender d o]) (w_tasks w))
  | fate_queued serving :
      sg_responses serving = sg_responses (w_serving w) → 0 < fb_slots (w_admission w) →
      fate now_secs w d (mkWorker serving (mkFallback (fb_slots (w_admission w) - 1) (fb_shed (w_admission w)))
        (w_batch w) (w_pending w) (w_tasks w ++ [d]))
  | fate_shed serving :
      sg_responses serving = sg_responses (w_serving w) → fb_slots (w_admission w) ≤ 0 →
      fate now_secs w d (mkWorker serving
        (mkFallback (fb_slots (w_admission w)) (record (fb_shed (w_admission w)) now_secs).1)
        (w_batch w) (w_pending w) (w_tasks w)).

Lemma fallback_fate now w d serving : sg_responses serving = sg_responses (w_serving w) →
  fate now w d (spawn_fallback now serving w d).
Proof.
  intros Hs. unfold spawn_fallback, fallback_try_admit.
  destruct (Z.ltb_spec 0 (fb_slots (w_admission w))); by constructor.
Qed.

(** What a count of replies comes to. *)
Lemma counting_runs {R} count (m : M (option R)) (s : Serving) : ends m →
  ∃ o sv, m (sg_server s) = (Ok o, sv)
    ∧ counting count m s = (Ok o, mkServing sv (match o with Some r => count r (sg_responses s) | None => sg_responses s end)).
Proof.
  intros Hm. destruct (Hm (sg_server s)) as (o & sv & E). exists o, sv. split; [done|].
  unfold counting. rewrite E. by destruct o.
Qed.

Lemma as_reply_post {A} (o : outcome A) P r : post o P → as_reply o = Some r → ∃ a, r = Ret a ∧ P a.
Proof. intros Hp. destruct o as [a| |c]; intros [= <-]; [by exists a|done]. Qed.

Lemma record_noerror_eq o flags c : o !! 3%nat = Some flags → Z.land flags 0x0F = 0 → record_noerror c = record_reply o c.
Proof. intros Ho Hf. unfold record_noerror, record_reply. by rewrite Ho, Hf. Qed.

Lemma hit_fate h k now w d q : batch_ok (w_batch w) → bytes_ok (dg_data d) → parse_query (dg_data d) = Ret q →
  wants_dnssec q = false → kind q = IpAddress →
  ∃ w', receive log2 h k now w d = (Ok tt, w') ∧ batch_ok (w_batch w') ∧ fate now w d w'.
Proof.
  intros Hb Hok Hq Hdo Hkind. destruct (question_in _ _ Hok Hq) as [Hin Hv].
  unfold receive. rewrite Hq, Hdo, Hkind. unfold try_fast_path.
  match goal with |- context [counting ?c ?m ?s] =>
    destruct (counting_runs c m s) as (o & sv & Em & ->); [by apply ends_direct|] end.
  destruct o as [r|]; [|eexists; split; [reflexivity|]; split; [|by apply fallback_fate];
    unfold spawn_fallback; by destruct (fallback_try_admit _ _)].
  apply direct_reply in Em as (addresses & ttl & c & Hr).
  destruct (as_reply_post _ _ _ (stage_post (w_batch w) (dg_src d) (dg_dst d) _ (hit_reply q) Hb
    (λ wire Hl, hit_post q (dg_data d) addresses ttl c wire Hl ltac:(lia))) Hr) as (batch & -> & Hbatch & o & Ho & Hsends).
  destruct Ho as (Hh & Hlen & flags & Hf & Hz). eexists. split; [reflexivity|]. split; [done|].
  eapply (fate_hit now w d q o); try done.
  - destruct Hh as (hi & lo & rest & -> & _). destruct (asks_fast _ _ Hok Hq) as [Hid _].
    apply be16_at_range in Hid as (_ & _ & Hid); [|done]. by rewrite drop_0 in Hid; rewrite <-Hid.
  - cbn [sg_responses]. by apply (record_noerror_eq o flags).
Qed.

Lemma wire_fate h k now w d q : batch_ok (w_batch w) → bytes_ok (dg_data d) → parse_query (dg_data d) = Ret q →
  resolver_gives wire_ok → wants_dnssec q = false → kind q = WireDataKind →
  ∃ w', receive log2 h k now w d = (Ok tt, w') ∧ batch_ok (w_batch w') ∧ fate now w d w'.
Proof.
  intros Hb Hok Hq Hw Hdo Hkind. destruct (question_in _ _ Hok Hq) as [Hin Hv].
  unfold receive. rewrite Hq, Hdo, Hkind. unfold try_fast_path_wire.
  set (hit := try_cache_wire_direct _ _ _ _ _ _ _ _ _).
  assert (ends hit) as Hhit by by apply ends_wire.
  assert (∀ s r s', hit s = (Ok (Some r), s') → ∃ o, r = Ret o ∧ headed (id q) (recursion_desired q) false o
    ∧ Z.of_nat (length o) ≤ client_max_size q) as Hreply.
  { intros s r s' Hr. apply wire_reply_of in Hr as (wire & remaining & c & Hwire & Hr); [|done].
    destruct (as_reply_post _ _ _ (wire_reply_post q (dg_data d) wire remaining c Hwire Hin) Hr) as (o & -> & Ho).
    by exists o. }
  match goal with |- context [counting ?c ?m ?s] => assert (ends m) as Hm end.
  { intros s. rewrite bind_eq. destruct (Hhit s) as ([r|] & s' & E); rewrite E; [|by eexists _, _].
    destruct (Hreply s r s' E) as (o & -> & _). by eexists _, _. }
  match goal with |- context [counting ?c ?m ?s] => destruct (counting_runs c m s Hm) as (o & sv & Em & ->) end.
  destruct o as [o|]; [|eexists; split; [reflexivity|]; split; [|by apply fallback_fate];
    unfold spawn_fallback; by destruct (fallback_try_admit _ _)].
  rewrite bind_eq in Em. destruct (Hhit (sg_server (w_serving w))) as ([r|] & s' & E); rewrite E in Em; [|done].
  destruct (Hreply _ r s' E) as (o' & -> & Hh & Hlen). assert (o' = o) as -> by (by injection Em).
  eexists. split; [reflexivity|]. split; [done|]. eapply (fate_wire now w d q o); try done.
  eapply (headed_replies _ (client_query_new (id q) (recursion_desired q) [] None)); [done| |exact Hh].
  apply (asks_fast _ _ Hok Hq).
Qed.

Lemma receive_fate h k now w d : batch_ok (w_batch w) → bytes_ok (dg_data d) → resolver_gives wire_ok →
  ∃ w', receive log2 h k now w d = (Ok tt, w') ∧ batch_ok (w_batch w') ∧ fate now w d w'.
Proof.
  intros Hb Hok Hw. assert (∃ w', (Ok tt, spawn_fallback now (w_serving w) w d) = (Ok tt, w') ∧ batch_ok (w_batch w')
    ∧ fate now w d w') as Hfall.
  { eexists. split; [reflexivity|]. split; [|by apply fallback_fate]. unfold spawn_fallback.
    by destruct (fallback_try_admit _ _). }
  pose proof (parse_query_safe (dg_data d) Hok) as Hsafe.
  destruct (parse_query (dg_data d)) as [q| |c] eqn:Hq; [|by unfold receive; rewrite Hq|done].
  destruct (wants_dnssec q) eqn:Hdo; [by unfold receive; rewrite Hq, Hdo|].
  destruct (kind q) eqn:Hk; [by eapply hit_fate|by eapply wire_fate].
Qed.

Inductive fates (now_secs : Z) : Worker → list Datagram → Worker → Prop :=
  | fates_nil w : fates now_secs w [] w
  | fates_cons w d w' ds w'' : fate now_secs w d w' → fates now_secs w' ds w'' → fates now_secs w (d :: ds) w''.

(** The admission's permits, free and held. *)
Definition permits (w : Worker) : Z := fb_slots (w_admission w) + Z.of_nat (length (w_tasks w)).

Lemma fate_permits now w d w' : fate now w d w' →
  permits w' = permits w ∧ (0 ≤ fb_slots (w_admission w) → 0 ≤ fb_slots (w_admission w')).
Proof.
  destruct 1; unfold permits; cbn [w_admission w_tasks fb_slots]; rewrite ?length_app; cbn [length]; lia.
Qed.

(** C21: A UDP batch ends without a panic, whatever its datagrams hold, and each
    of them has one fate: it is answered from the caches, to its sender and
    under its ID, within the size it advertises and counted once under its
    RCODE, never a query with DO; or it is queued on a permit of the shared
    admission; or, when no permit is free, it is shed. Permits are neither lost
    nor made. *)
Theorem datagrams_meet_one_fate h (k : nat → Clocks) now w ds :
  batch_ok (w_batch w) → Forall (λ d, bytes_ok (dg_data d)) ds → resolver_gives wire_ok →
  ∃ w', receive_all log2 h k now w ds = (Ok tt, w') ∧ fates now w ds w' ∧ permits w' = permits w
    ∧ (0 ≤ fb_slots (w_admission w) → 0 ≤ fb_slots (w_admission w')).
Proof.
  intros Hb Hds Hw. revert k w Hb. induction Hds as [|d ds Hd _ IH]; intros k w Hb.
  { exists w. split; [done|]. split; [constructor|done]. }
  cbn [receive_all]. destruct (receive_fate h (k 0%nat) now w d Hb Hd Hw) as (w1 & -> & Hb1 & Hf).
  destruct (IH (λ i, k (S i)) w1 Hb1) as (w2 & -> & Hfs & Hp & H0s).
  destruct (fate_permits _ _ _ _ Hf) as [Hp1 Hs1]. exists w2. split; [done|]. split; [by econstructor|].
  split; [congruence|auto].
Qed.
End fates.

(** ** Stream connections *)

(** [write_framed]: the message under its length, or [None] for one too long. *)
Definition write_framed (message : bytes) : option bytes :=
  if Z.of_nat (length message) <=? u16_max then Some (u16_be (Z.of_nat (length message)) ++ message) else None.

(** The messages that arrive complete, up to one of length zero. *)
Fixpoint frames_go (fuel : nat) (arriving : bytes) : list bytes :=
  match fuel with
  | O => []
  | S fuel =>
      match arriving with
      | hi :: lo :: rest =>
          let len := Z.to_nat (be16 hi lo) in
          if (len =? 0)%nat || (length rest <? len)%nat then []
          else take len rest :: frames_go fuel (drop len rest)
      | _ => []
      end
  end.
Definition frames (arriving : bytes) : list bytes := frames_go (length arriving) arriving.

Section stream.
Context `{Hickory, QueryParser, FilterPort, ResolverPort, LruMaps, Hmac} (log2 : f32 → f32).

(** The loop over a connection's queries; [accepts] tells whether each write
    succeeds, [k] what the clocks read at each query. The output is what was
    written. *)
Fixpoint serve_stream (fuel : nat) (h : DnsServerHandler) (k : nat → Clocks) (accepts : nat → bool) (client_ip : IpAddr)
    (protocol : ClientProtocol) (stream : Stream) (s : Serving) (written : bytes) : result bytes * Serving :=
  match fuel with
  | O => (Panic OutOfFuel, s)
  | S fuel =>
      match read_exact 2 stream with
      | inl _ => (Ok written, s)
      | inr (len_buf, stream) =>
          let msg_len := Z.to_nat (be16 (default 0 (len_buf !! 0%nat)) (default 0 (len_buf !! 1%nat))) in
          if (msg_len =? 0)%nat then (Ok written, s)
          else match read_exact msg_len stream with
          | inl _ => (Ok written, s)
          | inr (dns_buf, stream) =>
              let again := serve_stream fuel h (λ i, k (S i)) (λ i, accepts (S i)) client_ip protocol stream in
              match handle_raw_udp_fallback log2 h (k 0%nat) dns_buf client_ip protocol s with
              | (Ok (Some resp), s) =>
                  match write_framed resp with
                  | Some frame => if accepts 0%nat then again s (written ++ frame) else (Ok written, s)
                  | None => (Ok written, s)
                  end
              | (Ok None, s) => again s written
              | (Err e, s) => (Err e, s)
              | (Panic c, s) => (Panic c, s)
              end
          end
      end
  end.

(** A TCP connection, with the PROXY header in front of it where the listener
    expects one; [None] closes it unanswered. *)
Definition handle_tcp_connection (h : DnsServerHandler) (k : nat → Clocks) (accepts : nat → bool) (peer : IpAddr)
    (proxy_protocol_enabled : bool) (stream : Stream) (s : Serving) : result bytes * Serving :=
  let serve client_ip stream :=
    serve_stream (S (length (arriving stream))) h k accepts client_ip Tcp stream s [] in
  if proxy_protocol_enabled then
    match read_proxy_v2_client_ip stream peer with
    | inl _ => (Ok [], s)
    | inr (client_ip, stream) => serve client_ip stream
    end
  else serve peer stream.

(** A QUIC stream carries one query. *)
Definition handle_doq_stream (h : DnsServerHandler) (k : Clocks) (accepts : bool) (client_ip : IpAddr)
    (stream : Stream) (s : Serving) : result bytes * Serving :=
  match read_exact 2 stream with
  | inl _ => (Ok [], s)
  | inr (len_buf, stream) =>
      let msg_len := Z.to_nat (be16 (default 0 (len_buf !! 0%nat)) (default 0 (len_buf !! 1%nat))) in
      if (msg_len =? 0)%nat then (Ok [], s)
      else match read_exact msg_len stream with
      | inl _ => (Ok [], s)
      | inr (dns_buf, _) =>
          match handle_raw_udp_fallback log2 h k dns_buf client_ip Doq s with
          | (Ok (Some resp), s) => (Ok (if accepts then default [] (write_framed resp) else []), s)
          | (Ok None, s) => (Ok [], s)
          | (Err e, s) => (Err e, s)
          | (Panic c, s) => (Panic c, s)
          end
      end
  end.

(** *** Specification: the queries in order, until a reply cannot be written. *)
Fixpoint run_queries (h : DnsServerHandler) (k : nat → Clocks) (accepts : nat → bool) (client_ip : IpAddr)
    (protocol : ClientProtocol) (queries : list bytes) (s : Serving) : list bytes * Serving :=
  match queries with
  | [] => ([], s)
  | q :: queries =>
      let again := run_queries h (λ i, k (S i)) (λ i, accepts (S i)) client_ip protocol queries in
      match handle_raw_udp_fallback log2 h (k 0%nat) q client_ip protocol s with
      | (Ok (Some reply), s) =>
          if (Z.of_nat (length reply) <=? u16_max) && accepts 0%nat
          then let '(replies, s) := again s in (reply :: replies, s) else ([], s)
      | (Ok None, s) => again s
      | (_, s) => ([], s)
      end
  end.

Lemma frames_fuel l : ∀ f f', (length l ≤ f)%nat → (length l ≤ f')%nat → frames_go f l = frames_go f' l.
Proof.
  induction l as [l IH] using (induction_ltof1 _ (@length Z)). unfold ltof in IH.
  intros [|f] [|f'] Hf Hf'; cbn [frames_go]; try (destruct l as [|? [|? ?]]; cbn in *; (done || lia)).
  destruct l as [|hi [|lo rest]]; [done..|]. cbn [length] in *. destruct (_ || _) eqn:E; [done|].
  apply orb_false_elim in E as [Hz%Nat.eqb_neq _]. f_equal. apply IH; rewrite length_drop; lia.
Qed.

Lemma frames_eq hi lo rest : frames (hi :: lo :: rest)
  = let len := Z.to_nat (be16 hi lo) in
    if (len =? 0)%nat || (length rest <? len)%nat then [] else take len rest :: frames (drop len rest).
Proof.
  unfold frames at 1. cbn [length]. assert (length rest ≤ S (length rest))%nat as Hn by lia. revert Hn.
  generalize (S (length rest)). intros n Hn. cbn [frames_go]. cbv zeta. destruct (_ || _) eqn:E; [done|].
  f_equal. unfold frames. apply frames_fuel; rewrite length_drop; lia.
Qed.

(** The frame of a reply that fits. *)
Definition framed (reply : bytes) : bytes := u16_be (Z.of_nat (length reply)) ++ reply.

(** What is framed is read back. *)
Lemma frames_framed replies : Forall (λ r : bytes, (0 < length r)%nat ∧ Z.of_nat (length r) ≤ u16_max) replies →
  frames (concat (framed <$> replies)) = replies.
Proof.
  induction 1 as [|r replies [Hpos Hmax] _ IH]; [done|]. cbn [fmap list_fmap concat]. unfold framed at 1.
  rewrite <-app_assoc. unfold u16_be. cbn [app]. rewrite frames_eq. cbv zeta. unfold u16_max in Hmax.
  assert (Z.to_nat (be16 (Z.of_nat (length r) / 256 mod 256) (Z.of_nat (length r) mod 256)) = length r) as ->.
  { unfold be16. rewrite (Z.mod_small (_ / 256)) by zdiv. rewrite Z.mul_comm, <-Z.div_mod by lia. lia. }
  rewrite (proj2 (Nat.eqb_neq _ _)), (proj2 (Nat.ltb_ge _ _)) by (rewrite ?length_app; lia). cbn [orb].
  by rewrite take_app_length, drop_app_length, IH.
Qed.

Lemma handle_ok h k raw ip protocol s : bytes_ok raw → resolver_gives wire_ok →
  ∃ o s', handle_raw_udp_fallback log2 h k raw ip protocol s = (Ok o, s')
    ∧ ∀ reply, o = Some reply → (12 ≤ length reply)%nat.
Proof.
  intros Hok Hw. destruct (answer_client_ok log2 h k raw ip protocol (sg_server s) Hok Hw) as (o & sv & Ha & Ho).
  unfold handle_raw_udp_fallback, counting. rewrite Ha. exists o.
  destruct o as [reply|]; (eexists; split; [done|]); [|done]. intros ? [= <-].
  destruct (Ho reply eq_refl) as (ad & [Hl _] & _). done.
Qed.

Lemma read_exact_eq n stream : read_exact n stream
  = if (length (arriving stream) <? n)%nat then read_error (ending stream)
    else inr (take n (arriving stream), mkStream (drop n (arriving stream)) (ending stream)).
Proof. done. Qed.

Lemma run_queries_sizes h ip protocol queries : Forall bytes_ok queries → resolver_gives wire_ok →
  ∀ k accepts s, Forall (λ r : bytes, (0 < length r)%nat ∧ Z.of_nat (length r) ≤ u16_max)
    (run_queries h k accepts ip protocol queries s).1.
Proof.
  intros Hqs Hw. induction Hqs as [|q queries Hq _ IH]; intros k accepts s; cbn [run_queries]; [by constructor|].
  destruct (handle_ok h (k 0%nat) q ip protocol s Hq Hw) as (o & s' & -> & Ho). destruct o as [reply|]; [|apply IH].
  destruct (Z.leb_spec (Z.of_nat (length reply)) u16_max) as [Hl|]; cbn [andb]; [|by constructor].
  destruct (accepts 0%nat); [|by constructor]. specialize (IH (λ i, k (S i)) (λ i, accepts (S i)) s').
  destruct (run_queries _ _ _ _ _ _ _) as [replies s'']. constructor; [|done]. specialize (Ho reply eq_refl). lia.
Qed.

Lemma frames_ok l : bytes_ok l → Forall bytes_ok (frames l).
Proof.
  induction l as [l IH] using (induction_ltof1 _ (@length Z)). unfold ltof in IH. intros Hok.
  destruct l as [|hi [|lo rest]]; [by constructor..|]. rewrite frames_eq. cbv zeta.
  apply Forall_cons in Hok as [_ [_ Hr]%Forall_cons].
  destruct (_ || _) eqn:E; [by constructor|]. apply orb_false_elim in E as [Hz%Nat.eqb_neq _].
  constructor; [by apply Forall_take|]. apply IH; [rewrite length_drop; cbn; lia|by apply Forall_drop].
Qed.

Lemma serve_stream_eq h ip protocol : resolver_gives wire_ok → ∀ fuel k accepts stream s written,
  bytes_ok (arriving stream) → (length (arriving stream) < fuel)%nat →
  serve_stream fuel h k accepts ip protocol stream s written
  = (let '(replies, s') := run_queries h k accepts ip protocol (frames (arriving stream)) s in
     (Ok (written ++ concat (framed <$> replies)), s')).
Proof.
  intros Hw. induction fuel as [|fuel IH]; intros k accepts [l e] s written Hok Hf; cbn [arriving] in *; [lia|].
  cbn [serve_stream]. rewrite read_exact_eq. cbn [arriving ending].
  destruct l as [|hi [|lo rest]]; [by cbn; rewrite app_nil_r..|].
  rewrite (proj2 (Nat.ltb_ge _ _)) by (cbn; lia). cbn [take drop lookup list_lookup default from_option Datatypes.id]. rewrite ?drop_0.
  rewrite frames_eq, read_exact_eq. cbv zeta. cbn [arriving ending]. set (len := Z.to_nat (be16 hi lo)).
  apply Forall_cons in Hok as [_ [_ Hr]%Forall_cons].
  destruct (Nat.eqb_spec len 0) as [|Hne]; cbn [orb]; [by cbn; rewrite app_nil_r|].
  destruct (Nat.ltb_spec (length rest) len); [by cbn; rewrite app_nil_r|]. cbn [run_queries].
  destruct (handle_ok h (k 0%nat) (take len rest) ip protocol s) as (o & s' & -> & _); [by apply Forall_take|done|].
  cbn [length] in Hf.
  assert (∀ s written, serve_stream fuel h (λ i, k (S i)) (λ i, accepts (S i)) ip protocol (mkStream (drop len rest) e) s written
    = let '(replies, s') := run_queries h (λ i, k (S i)) (λ i, accepts (S i)) ip protocol (frames (drop len rest)) s in
      (Ok (written ++ concat (framed <$> replies)), s')) as Hgo.
  { intros s1 w1. apply IH; cbn [arriving]; [by apply Forall_drop|rewrite length_drop; lia]. }
  destruct o as [reply|]; [|apply Hgo]. unfold write_framed.
  destruct (_ <=? u16_max); cbn [andb]; [|by cbn; rewrite app_nil_r].
  destruct (accepts 0%nat); [|by cbn; rewrite app_nil_r]. rewrite Hgo.
  destruct (run_queries _ _ _ _ _ _ s') as [replies s'']. cbn [fmap list_fmap concat]. unfold framed at 2. by rewrite <-!app_assoc.
Qed.

(** C22: On a stream connection the queries are answered in order: whatever
    arrives and however it ends, the loop ends without a panic, what it wrote
    are the replies to the complete messages that arrived, one after the other
    up to the first that cannot be written, and a client that takes the frames
    off what was written gets back exactly those replies. *)
Theorem streams_answer_in_order h k accepts ip protocol stream s :
  bytes_ok (arriving stream) → resolver_gives wire_ok →
  ∃ replies s', run_queries h k accepts ip protocol (frames (arriving stream)) s = (replies, s')
    ∧ serve_stream (S (length (arriving stream))) h k accepts ip protocol stream s []
      = (Ok (concat (framed <$> replies)), s')
    ∧ frames (concat (framed <$> replies)) = replies.
Proof.
  intros Hok Hw. pose proof (run_queries_sizes h ip protocol _ (frames_ok _ Hok) Hw k accepts s) as Hs.
  rewrite serve_stream_eq by (done || lia). destruct (run_queries _ _ _ _ _ _ _) as [replies s'].
  exists replies, s'. split_and!; [done..|]. by apply frames_framed.
Qed.
End stream.

(** ** Examples *)

Abbreviation DemoWorker := (Worker (H1 := demo_filter) (H2 := demo_resolver) (H3 := assoc_maps) (H4 := demo_hmac)).
Abbreviation demo_receive_all := (receive_all (H1 := demo_filter)
  (H2 := demo_resolver) (H3 := assoc_maps) (H4 := demo_hmac) demo_log2).
Abbreviation demo_fates := (fates (H1 := demo_filter) (H2 := demo_resolver) (H3 := assoc_maps) (H4 := demo_hmac)).

Definition demo_datagram (data : bytes) : Datagram := mkDatagram data (mkSocket (V4 167772161) 5353 0) (V4 0x0A000001).
Definition demo_worker : DemoWorker := mkWorker demo_serving (mkFallback 1 counter_new) batch_new [] [].
Definition demo_datagrams : list Datagram :=
  [demo_datagram cached_packet; demo_datagram blocked_packet; demo_datagram blocked_packet].

Lemma batch_new_ok : batch_ok batch_new.
Proof. split; [reflexivity| |cbn; lia]. apply Forall_replicate. reflexivity. Qed.

(** A hit, a task, and a query shed. *)
Lemma datagrams_meet_one_fate_witness :
  let run := demo_receive_all demo_handler (λ _, demo_clocks) 50 demo_worker demo_datagrams in
  length (sends (w_batch run.2)) = 1%nat ∧ length (w_tasks run.2) = 1%nat
  ∧ dc_total (fb_shed (w_admission run.2)) = 1
  ∧ ∃ w' : DemoWorker, run = (Ok tt, w') ∧ demo_fates 50 demo_worker demo_datagrams w' ∧ permits w' = 1.
Proof.
  intros run. split; [vm_compute; reflexivity|]. split; [vm_compute; reflexivity|]. split; [vm_compute; reflexivity|].
  destruct (datagrams_meet_one_fate (H1 := demo_filter)
    (H2 := demo_resolver) (H3 := assoc_maps) (H4 := demo_hmac) demo_log2 demo_handler (λ _, demo_clocks) 50
    demo_worker demo_datagrams batch_new_ok) as (w' & Hr & Hf & Hp & _);
    [repeat constructor; vm_compute; discriminate|exact demo_gives|].
  exists w'. split; [exact Hr|]. split; [exact Hf|exact Hp].
Defined.

Abbreviation demo_serve := (serve_stream (H := plain_names) (H0 := demo_parser) (H1 := demo_filter)
  (H2 := demo_resolver) (H3 := assoc_maps) (H4 := demo_hmac) demo_log2).
Definition demo_stream : Stream := mkStream (framed cached_packet ++ framed blocked_packet ++ [0; 9; 1]) "eof".

Lemma streams_answer_in_order_witness :
  ∃ replies (s' : DemoServing),
    demo_serve (S (length (arriving demo_stream))) demo_handler (λ _, demo_clocks) (λ _, true) (V4 167772161) Tcp
      demo_stream demo_serving [] = (Ok (concat (framed <$> replies)), s')
    ∧ frames (concat (framed <$> replies)) = replies ∧ length replies = 2%nat.
Proof.
  set (out := demo_serve (S (length (arriving demo_stream))) demo_handler (λ _, demo_clocks) (λ _, true)
    (V4 167772161) Tcp demo_stream demo_serving []).
  assert (Hlen : match out.1 with Ok w => length (frames w) | _ => 0%nat end = 2%nat) by (vm_compute; reflexivity).
  destruct (streams_answer_in_order (H := plain_names) (H0 := demo_parser) (H1 := demo_filter)
    (H2 := demo_resolver) (H3 := assoc_maps) (H4 := demo_hmac) demo_log2 demo_handler (λ _, demo_clocks) (λ _, true)
    (V4 167772161) Tcp demo_stream demo_serving) as (replies & s' & _ & Hs & Hf);
    [repeat constructor; vm_compute; discriminate|exact demo_gives|].
  exists replies, s'. split; [exact Hs|]. split; [exact Hf|].
  change (out = (Ok (concat (framed <$> replies)), s')) in Hs. rewrite Hs in Hlen. cbn [fst] in Hlen.
  rewrite Hf in Hlen. exact Hlen.
Defined.
